(* ===== verification/_CoqProject ===== *)
-Q . S2P
Prelude.v
Topic.v
Types.v
Frames.v
Writer.v
WriterLogic.v
Sample.v
WriterInv.v
WriterAccount.v
WriterOrder.v
WriterSeam.v
WriterProtocol.v
Sender.v
TopicLane.v
Dispatcher.v
MlsDb.v
ReadStore.v
Rotation.v
CatchUp.v
WelcomeCatchUp.v
ByteBudget.v
CatchUpLane.v
Store.v
Publish.v
RateLimiter.v
RateLimiterConc.v
Interceptor.v
Validate.v
Service.v
InFlight.v
ServiceProps.v
Worker.v
LiveRows.v
ScanLive.v
StreamScans.v
Subscribe.v
SubscribeComplete.v
Resume.v
Streams.v
StreamsProps.v
GroupStream.v
Backfill.v
Prune.v
Identity.v
MessageStore.v
MessageApi.v
Metrics.v
ApiServer.v
NodeApi.v
NodeKey.v
NodeServer.v
Lifecycle.v
HttpClient.v
