(* ===== verification/Prelude.v ===== *)
(** * xmtp-node-go, verified

    xmtp-node-go is a node of the XMTP messaging network. Clients publish MLS group messages,
    welcomes, key packages, commit log entries and identity updates to it over gRPC; it validates
    them with a remote service, stores them in PostgreSQL and serves them by paged queries and by
    streams. This development models the node's hand-written Go code (pkg and cmd) and proves what
    makes it correct. This header says which part is modelled where, what the theorems show, and what
    is left out. Numbered claims (C1, C2, ...) are the main theorems, each with its witness on a concrete
    input beside it; the rest are their lemmas and facts about single functions.

    ** Conventions

    Go values are modelled as they are: integers are [Z] kept in range by the conversions [u16],
    [u32], [u64], [i32] and [i64] below; []byte and string are [string]; a possibly nil pointer or
    slice is an [option]; structs are records, maps are [gmap], a function that may fail returns
    [result], and one that may crash (a nil dereference) an option around it. Errors are the values
    of [error], with the gRPC status code where the code gives one and the code's message, whose
    formatted parts are left as the format string. A failing database call is an argument of the
    operation that makes it, or a step of its own where calls interleave (Publish.v). Concurrency is
    interleaving: an object whose mutex (or single goroutine) makes its operations atomic is a state
    with one function per operation, and everything that runs side by side is a list of events that any
    schedule may produce. Time is an argument. Generated and third-party code (protobuf encoding,
    sha256, the validation service, the SQL driver) is a parameter of the Section that uses it, with
    what is assumed of it as a named hypothesis of the theorem that needs it.

    ** The parts and their files

    - Prelude.v (this file): integers, errors and results, byte strings, ascending lists and their
      pages, sums over maps, counting, and record update [r <| f := v |>].
    - Topic.v: pkg/topic, pkg/envelopes, encoding/hex, and the wire topics of subscribe.go
      (splitTopic, buildMLSTopic). Types.v: the messages of pkg/proto/mls/api/v1 as records with
      their accessors, and pkg/types/wrapperAlgorithm.go.
    - The XIP-83 stream, Subscribe in pkg/mls/api/v1/subscribe.go. Frames.v: the frame builders
      (deduplication against high-water marks, packing into bounded frames). Writer.v: the select
      loop, the only owner of the stream's state ([writer]), each arm a handler in a state-and-exit
      monad, [handle] the whole loop body. WriterLogic.v is a small program logic for that monad,
      Sample.v the concrete streams of the witnesses. WriterInv.v, WriterAccount.v, WriterOrder.v,
      WriterSeam.v and WriterProtocol.v hold its theorems. CatchUp.v and WelcomeCatchUp.v: the scans
      that replay history (catchUpGroups, catchUpWelcomes), which refine the abstract rotating scan
      of Rotation.v through the interface [Topics]. ByteBudget.v: the budget of bytes in flight that
      the scans share with the writer; CatchUpLane.v: all scans of a stream together, with their slots,
      that budget and the channel to the writer. Sender.v: the goroutines that call stream.Send and
      stream.Recv, with their bounded channels.
    - Dispatcher.v: pkg/subscriptions, the bounded channels between the database workers and the
      streams. Worker.v: pkg/mls/api/v1/worker.go, the polls that feed it, and the pipeline of
      inserts, polls, dispatch and receipt as one system ([Node]).
    - Subscribe.v: the whole stream as one transition system: the writer, its subscription in the
      dispatcher, its scans, and the node's publishers and workers. TopicLane.v (a topic's course in
      the writer), LiveRows.v (what a live channel has received), ScanLive.v and StreamScans.v (what
      the scans have replayed, and to whom) are the views that SubscribeComplete.v joins. Resume.v: a
      client's streams one after the other, on any nodes.
    - Streams.v: SubscribeGroupMessages and SubscribeWelcomeMessages of service.go as interleaved
      steps of their goroutines on that system; StreamsProps.v and GroupStream.v their theorems.
    - MlsDb.v: the tables of pkg/migrations/mls as lists of rows and the statements of
      pkg/mls/store/queries as functions on them. ReadStore.v: pkg/mls/store/readStore.go. Store.v: the
      writes of pkg/mls/store/store.go with duplicates and transactions. Publish.v:
      PublishIdentityUpdate, with snapshots, advisory locks, sequences, conflicts, failures at any
      point and lost answers as steps of any number of publishers. Backfill.v: the two backfillers, in
      any number of nodes. Prune.v: pkg/prune; a job is a record of operations whose promise is the
      class [PrunerLaws], against which the executor's theorem is proved.
    - RateLimiter.v, RateLimiterConc.v: pkg/ratelimiter, as a sequential object and under any
      interleaving of requests, clock and janitor. Interceptor.v: pkg/api's gating and rate limiting,
      pkg/authz, pkg/utils/ip.go and pkg/migration. Metrics.v: pkg/metrics, pkg/logging and the
      telemetry of requests, as the labels each emission carries.
    - Validate.v: the client of the validation service, pkg/mlsvalidate. Service.v: the unary
      handlers of pkg/mls/api/v1/service.go, each run alone; ServiceProps.v their theorems. InFlight.v:
      the publishing ones after their gate, statement by statement. Identity.v: pkg/identity/api/v1.
    - MessageStore.v: pkg/store, the envelopes of the older protocol versions with their paged
      queries and cleaner. MessageApi.v: pkg/api/message/v1, its queries and its streams on the
      dispatcher. HttpClient.v: its HTTP client, pkg/api/message/v1/client.
    - ApiServer.v: pkg/api/server.go, config.go and gzip_handler.go: the configuration, what New
      starts and Close ends, the chain of interceptors around a call, the HTTP handlers. NodeApi.v:
      the unary methods of the MLS and identity APIs behind that chain, over one database, as a
      system of calls whose statements interleave.
    - NodeServer.v: the process (pkg/server, cmd): waiting for databases, static nodes, what New opens
      and Shutdown closes, commands and signals. Lifecycle.v: the goroutines of a node, their contexts
      and wait groups, and the course of a shutdown among them. NodeKey.v: the node's private key and
      its file.

    A message's way through them: a handler of Service.v validates it and calls Store.v, which
    inserts a row of MlsDb.v; a worker (Worker.v) polls the row and hands it to the dispatcher
    (Dispatcher.v); a stream (Writer.v, Streams.v) takes it from its channel, after the history that
    CatchUp.v or ReadStore.v reads from MlsDb.v, and sends it in frames (Frames.v).

    ** What the theorems show

    - The stream's seam between history and live messages: nothing of a topic goes out live before
      its catch-up is complete ([seam]), every Mutate is answered once ([mutate_answered_once],
      [graceful_close_answers_all], [wave_completion]), ids ascend without duplicates
      ([live_topic_ascending]), frames are lawful and bounded ([frames_lawful],
      [frames_deduplicated]), the bookkeeping is consistent ([writer_invariant]), an invalid Mutate is
      rejected, before anything changes or after its removes ([invalid_mutate_rejected] says which),
      and a half-closed stream ends ([half_close_drains]).
      Frames are delivered in the order the writer sent them ([delivered_in_order]), all of them when
      the stream ends well ([graceful_close_delivers]).
    - The whole stream, when rows become visible in id order and only the workers dispatch on MLS
      topics: whatever the schedule of publishers, workers, relay, scans, dispatcher and writer, a
      subscribed group is sent its messages above the cursor in order and without gap
      ([subscribe_stream_complete]), and a client that resubscribes from the last message it received
      misses and repeats nothing ([resumed_streams_complete]). Ids are drawn before their rows become
      visible, and nothing orders the two across groups: a row that becomes visible late is passed
      over ([late_commit_lost]).
    - Catch-up: a scan that says it is done has replayed everything up to its ceiling
      ([catch_up_groups_complete], [catch_up_welcomes_complete]) and it ends
      ([catch_up_groups_ends]); the lane the scans share keeps its bounds ([catch_up_lane_bounded],
      [catch_up_bytes_bounded]), and every schedule of it ends, with all scans done
      ([catch_up_lane_drains], [parked_fetcher_progresses]).
    - Live delivery: a consumer sees a gap-free prefix of what was dispatched for it
      ([consumer_sees_prefix]); workers dispatch everything, in order, as long as rows become
      visible in id order ([worker_catches_up], [live_pipeline]); then, and as long as no history
      query fails, the older streams join history and live delivery without gap
      ([group_stream_complete], [older_streams_ascending]); each period of Subscribe2 delivers without
      gap what is dispatched ([subscribe2_gap_free]).
    - Storage: inserts, duplicates and round trips ([insert_group_message_spec],
      [welcome_insert_roundtrip]); publishing retried or interleaved ([send_retry_completes],
      [welcomes_any_interleaving]); paged queries visit every row once, in order, and end
      ([query_pages_complete]; [envelope_pages_complete] when no envelope has the sender time 0).
    - The identity log is built one validated update at a time whatever runs concurrently and fails
      ([inbox_log_linear], [publish_serializable]), and readers see it grow at its end only
      ([inbox_reads_monotone]).
    - Background work: backfillers do not disturb each other and finish ([backfill_ha_safe],
      [backfill_finishes], [classify_in_batches]); the pruner deletes expired rows, and of key
      packages all of an installation that has an expired one ([prune_scope], [prune_job_complete]);
      the cleaner deletes only expired messages that are not XMTP's ([cleaner_spares_xmtp]).
    - The node: a call is gated, limited, handled and recorded, and what ends the node is named
      ([call_survives]); from the migration cutover on no publishing call gets in, and only those that
      had passed the gate before go on ([cutover_stops_publishing]); a node key reads back when it
      needs all its bytes ([node_key_roundtrip]); waiting for a database ends ([createDB_waits]), and
      so does a shutdown ([shutdown_returns]).
    - Admission: the rate limiter with its heap and sweeps behaves like a wallet per client
      ([sweeps_invisible]); races keep it consistent ([limiter_well_typed], [entry_rate_limited]);
      when requests and sweeps come one after the other, the messages accepted from an address in any
      window of time keep to its burst and rate, for batches that 16 bits can count
      ([client_rate_limited]), and clients do not disturb each other ([client_isolation]).

    Some lemmas show defects instead, many on concrete inputs: [fourth_publisher_fails] (Publish.v),
    [late_commit_lost] (Worker.v), [history_error_gap] and [unknown_page_ends_history]
    (GroupStream.v), [poisoned_backfill_blocks] (Backfill.v), [fresh_key_package_pruned] and
    [counting_stops_jobs] (Prune.v), [cursor_without_index_crashes], [zero_time_cursor_skips] and
    [ambiguous_digest] (MessageStore.v), [limits_need_allow_list] and [routes_lead_to_services]
    (ApiServer.v), [static_nodes_crash], [process_ends], [shutdown_closes] and [databases_first]
    (NodeServer.v), [cleaner_outlives_shutdown] (Lifecycle.v), [query_emission_panics] (Metrics.v),
    [close_races_response], [next_after_close] and [timeout_loses_line] (HttpClient.v).

    ** Fuel

    Loops that are not structural take fuel. The turns of a catch-up scan ([groupTurns]):
    [catch_up_groups_ends] shows that a turn per topic and message is enough. A client that follows
    cursors ([drain] in ReadStore.v, [followPages] in MessageStore.v): the theorems show that one
    request more than there are rows is enough. [log2Loop] (Dispatcher.v) has 64 shifts, one per bit
    of its argument. A publisher retries [numRetries] times as the code does. The loops of the
    workers, backfillers and jobs are sequences of cycles, and the theorems say how many are enough.
    [waitLoop] (NodeServer.v) has a ping for every pause of the wait ([enoughPings]).

    ** What is not modelled

    Generated code (pkg/proto) but for the messages, and the SQL of the migrations but for the tables
    and row functions in force. pkg/crypto but for the node keys (calls to cryptographic libraries),
    pkg/tracing and the listener of the metrics server (no behaviour depends on them), pkg/mocks and
    pkg/testing. gRPC, libp2p and waku are parameters: of their options only what decides behaviour is
    modelled. PostgreSQL is modelled statement by statement: its isolation only where the code relies
    on it (the snapshots and conflicts of Publish.v, the row locks of Backfill.v and Prune.v), its
    plans and its limits not at all. Subscribe.v leaves the slots, the byte budget and the channel's
    length, which only delay a scan, to the schedule; CatchUpLane.v has them. *)

From stdpp Require Export base decidable list gmap strings sorting pretty.
From Stdlib Require Export ZArith Lia.
From Stdlib Require Ascii.

Export ListNotations.

Create HintDb node discriminated.

Declare Scope go_scope.
Delimit Scope go_scope with go.

#[global] Open Scope Z_scope.
#[global] Open Scope go_scope.

(** * Machine integers

    Go's fixed-width integers are [Z] kept in range by the conversions below: [uN] is the
    conversion to an unsigned type of N bits, [iN] the conversion to a signed one (both
    truncate to the low N bits, the signed one reads them in two's complement). *)

Definition wrapU (w z : Z) : Z := z mod 2 ^ w.

Definition wrapS (w z : Z) : Z := (z + 2 ^ (w - 1)) mod 2 ^ w - 2 ^ (w - 1).

Definition u16 : Z → Z := wrapU 16.
Definition u32 : Z → Z := wrapU 32.
Definition u64 : Z → Z := wrapU 64.
Definition i32 : Z → Z := wrapS 32.
Definition i64 : Z → Z := wrapS 64.

Definition maxInt64 : Z := 2 ^ 63 - 1.

(** The values of the unsigned types. *)
Definition is_u16 (z : Z) : Prop := 0 ≤ z < 2 ^ 16.
Definition is_u64 (z : Z) : Prop := 0 ≤ z < 2 ^ 64.

Ltac unfold_widths :=
  unfold u16, u32, u64, i32, i64, maxInt64, is_u16, is_u64, wrapU, wrapS in *.

Lemma wrapU_small w z : 0 ≤ z < 2 ^ w → wrapU w z = z.
Proof. apply Z.mod_small. Qed.

Lemma wrapU_range w z : 0 ≤ w → 0 ≤ wrapU w z < 2 ^ w.
Proof. intros. apply Z.mod_pos_bound. lia. Qed.

Lemma wrapS_small w z : 0 < w → - 2 ^ (w - 1) ≤ z < 2 ^ (w - 1) → wrapS w z = z.
Proof.
  intros Hw Hz. unfold wrapS.
  assert (2 ^ w = 2 * 2 ^ (w - 1)) by (rewrite <- Z.pow_succ_r by lia; f_equal; lia).
  rewrite Z.mod_small; lia.
Qed.

Lemma i64_small z : 0 ≤ z ≤ maxInt64 → i64 z = z.
Proof. intros. unfold_widths. rewrite Z.mod_small; lia. Qed.

Lemma i64_big z : maxInt64 < z < 2 ^ 64 → i64 z = z - 2 ^ 64.
Proof.
  intros. unfold_widths. change (64 - 1) with 63.
  replace (z + 2 ^ 63) with (z - 2 ^ 63 + 1 * 2 ^ 64) by lia.
  rewrite Z.mod_add by lia. rewrite Z.mod_small; lia.
Qed.

Lemma u64_small z : 0 ≤ z < 2 ^ 64 → u64 z = z.
Proof. apply wrapU_small. Qed.

Lemma u64_range z : 0 ≤ u64 z < 2 ^ 64.
Proof. by apply wrapU_range. Qed.

Lemma u16_range z : 0 ≤ u16 z < 2 ^ 16.
Proof. by apply wrapU_range. Qed.

Lemma u16_small z : 0 ≤ z < 2 ^ 16 → u16 z = z.
Proof. apply wrapU_small. Qed.

#[export] Hint Resolve u64_range u16_range u64_small u16_small i64_small : node.

(** * Errors

    A fallible Go function returns [result]: the value, or the error it returns. gRPC status
    errors keep their code; their message is the format string, without its arguments. *)

Inductive code :=
  | Canceled | InvalidArgument | DeadlineExceeded | PermissionDenied | ResourceExhausted
  | Aborted | Unimplemented | Internal | Unavailable.

#[export] Instance code_eq_dec : EqDecision code.
Proof. solve_decision. Defined.

Inductive error :=
  | Status (c : code) (msg : string)   (* status.Error / status.Errorf *)
  | AlreadyExists (e : error)          (* store.AlreadyExistsError *)
  | ContextCanceled                    (* context.Canceled *)
  | Plain (msg : string).              (* any other error *)

#[export] Instance error_eq_dec : EqDecision error.
Proof. solve_decision. Defined.

(** [err.Error()] *)
Fixpoint errorString (e : error) : string :=
  match e with
  | Status _ msg => msg
  | AlreadyExists e => errorString e
  | ContextCanceled => "context canceled"
  | Plain msg => msg
  end.

Inductive result (A : Type) :=
  | Ok (a : A)
  | Err (e : error).
Arguments Ok {_} _.
Arguments Err {_} _.

(** [errors.Wrap], and [fmt.Errorf] of a message that ends in [: %w]. *)
Definition Wrap {A} (r : result A) (message : string) : result A :=
  match r with Ok a => Ok a | Err e => Err (Plain (message +:+ ": " +:+ errorString e)) end.

#[export] Instance result_ret : MRet result := λ A a, Ok a.
#[export] Instance result_bind : MBind result :=
  λ A B f m, match m with Ok a => f a | Err e => Err e end.

(** [for x in l { ... return err ... }] collecting the results. *)
Fixpoint mapErr {A B} (f : A → result B) (l : list A) : result (list B) :=
  match l with
  | [] => Ok []
  | a :: l => match f a with
              | Err e => Err e
              | Ok b => match mapErr f l with Err e => Err e | Ok bs => Ok (b :: bs) end
              end
  end.

Lemma mapErr_Ok {A B} (f : A → result B) l bs :
  mapErr f l = Ok bs ↔ Forall2 (λ a b, f a = Ok b) l bs.
Proof.
  split.
  - revert bs. induction l as [|a l IH]; intros bs; simpl.
    { intros [= <-]. constructor. }
    destruct (f a) eqn:?; [|done]. destruct (mapErr f l) eqn:?; [|done].
    intros [= <-]. constructor; eauto.
  - induction 1 as [|a b l bs Hf _ IH]; simpl; [done|]. by rewrite Hf, IH.
Qed.

(** * Byte sequences

    A Go [[]byte] and a Go [string] are both modelled by Rocq's [string], a sequence of 8-bit
    characters; the conversions [string(b)] and [[]byte(s)] are then the identity. *)

Abbreviation bytes := string.

(** The separators the code cuts names at. *)
Definition dash : Ascii.ascii := Ascii.ascii_of_nat 45.
Definition slash : Ascii.ascii := Ascii.ascii_of_nat 47.
Definition comma : Ascii.ascii := Ascii.ascii_of_nat 44.
Definition colon : Ascii.ascii := Ascii.ascii_of_nat 58.

Definition len (b : bytes) : Z := Z.of_nat (String.length b).

Definition HasPrefix (s p : string) : bool := String.prefix p s.

Lemma len_nonneg b : 0 ≤ len b.
Proof. unfold len. lia. Qed.
#[export] Hint Resolve len_nonneg : node.

Lemma prefix_app p s : String.prefix p (p +:+ s) = true.
Proof. induction p as [|c p IH]; simpl; [by destruct s|]. by destruct (Ascii.ascii_dec c c). Qed.

Lemma prefix_split p s : String.prefix p s = true → ∃ r, s = p +:+ r.
Proof.
  revert s. induction p as [|c p IH]; intros s; [by exists s|].
  destruct s as [|c' s]; simpl; [done|].
  destruct (Ascii.ascii_dec c c') as [->|]; [|done].
  intros [r ->]%IH. by exists r.
Qed.

Lemma string_app_inj_l p s t : p +:+ s = p +:+ t → s = t.
Proof. induction p as [|c p IH]; simpl; [done|]. by intros [= ?%IH]. Qed.

Lemma string_app_assoc (a b c : string) : (a +:+ b) +:+ c = a +:+ (b +:+ c).
Proof. induction a as [|x a IH]; [done|]. exact (f_equal (String x) IH). Qed.

(** * Rows ordered by an integer id

    The database tables this program reads are ordered by an id column. [order_by_asc] and
    [order_by_desc] are SQL's [ORDER BY id ASC] and [ORDER BY id DESC]; [ascending] says that a
    list of rows is strictly ascending in its id, the order a BIGSERIAL key gives a table. *)

Section Ordered.
Context {A : Type} (id : A → Z).

Definition le_by (a b : A) : Prop := id a ≤ id b.
Definition ge_by (a b : A) : Prop := id b ≤ id a.

#[export] Instance le_by_dec : RelDecision le_by.
Proof. intros a b. unfold le_by. apply _. Defined.
#[export] Instance ge_by_dec : RelDecision ge_by.
Proof. intros a b. unfold ge_by. apply _. Defined.
#[export] Instance le_by_total : Total le_by.
Proof. intros a b. unfold le_by. lia. Qed.
#[export] Instance ge_by_total : Total ge_by.
Proof. intros a b. unfold ge_by. lia. Qed.
#[export] Instance le_by_trans : Transitive le_by.
Proof. intros a b c. unfold le_by. lia. Qed.
#[export] Instance ge_by_trans : Transitive ge_by.
Proof. intros a b c. unfold ge_by. lia. Qed.

Definition order_by_asc : list A → list A := merge_sort le_by.
Definition order_by_desc : list A → list A := merge_sort ge_by.

Definition ascending : list A → Prop := StronglySorted (λ a b, id a < id b).

(** The rows with an id above [c]. *)
Definition above (c : Z) (l : list A) : list A := filter (λ r, c < id r) l.

Lemma ascending_nil : ascending [].
Proof. constructor. Qed.

Lemma ascending_cons a l :
  ascending (a :: l) ↔ (∀ b, b ∈ l → id a < id b) ∧ ascending l.
Proof.
  unfold ascending. rewrite StronglySorted_cons, Forall_forall. done.
Qed.

Lemma ascending_app l1 l2 :
  ascending (l1 ++ l2) ↔
  (∀ a b, a ∈ l1 → b ∈ l2 → id a < id b) ∧ ascending l1 ∧ ascending l2.
Proof. unfold ascending. rewrite StronglySorted_app. done. Qed.

Lemma ascending_singleton a : ascending [a].
Proof. apply ascending_cons. split; [by intros b ?%elem_of_nil | constructor]. Qed.

Lemma ascending_filter (P : A → Prop) `{∀ x, Decision (P x)} l :
  ascending l → ascending (filter P l).
Proof.
  induction l as [|a l IH]; [done|]. rewrite ascending_cons. intros [Ha Hl].
  rewrite filter_cons. destruct (decide (P a)); [|by apply IH].
  apply ascending_cons. split; [|by apply IH].
  intros b [_ ?]%list_elem_of_filter. by apply Ha.
Qed.

Lemma ascending_take n l : ascending l → ascending (take n l).
Proof. rewrite <- (take_drop n l) at 1. by intros (_ & ? & _)%ascending_app. Qed.

Lemma ascending_drop n l : ascending l → ascending (drop n l).
Proof. rewrite <- (take_drop n l) at 1. by intros (_ & _ & ?)%ascending_app. Qed.

Lemma ascending_inj l a b : ascending l → a ∈ l → b ∈ l → id a = id b → a = b.
Proof.
  induction l as [|c l IH]; [by intros _ ?%elem_of_nil|].
  intros [Hc Hl]%ascending_cons [->|Ha]%elem_of_cons [->|Hb]%elem_of_cons E; eauto.
  - specialize (Hc b Hb). lia.
  - specialize (Hc a Ha). lia.
Qed.

Lemma ascending_NoDup l : ascending l → NoDup l.
Proof.
  induction l as [|a l IH]; [constructor|]. intros [Ha Hl]%ascending_cons.
  constructor; [|auto]. intros H. specialize (Ha a H). lia.
Qed.

Lemma ascending_le_by l : ascending l → StronglySorted le_by l.
Proof.
  induction l as [|a l IH]; [constructor|]. intros [Ha Hl]%ascending_cons.
  constructor; [auto|]. apply Forall_forall. intros b Hb. unfold le_by.
  specialize (Ha b Hb). lia.
Qed.

Lemma order_by_asc_Permutation l : order_by_asc l ≡ₚ l.
Proof. apply merge_sort_Permutation. Qed.

Lemma order_by_desc_Permutation l : order_by_desc l ≡ₚ l.
Proof. apply merge_sort_Permutation. Qed.

Lemma order_by_asc_sorted l : StronglySorted le_by (order_by_asc l).
Proof. apply StronglySorted_merge_sort; apply _. Qed.

(** Sorting distinct ids yields an ascending list. *)
Lemma sorted_ascending l : NoDup (id <$> l) → StronglySorted le_by l → ascending l.
Proof.
  induction l as [|a l IH]; [constructor|].
  rewrite fmap_cons, NoDup_cons, StronglySorted_cons, Forall_forall.
  intros [Hn Hd] [Ha Hl]. apply ascending_cons. split; [|auto].
  intros b Hb. specialize (Ha b Hb). unfold le_by in Ha.
  destruct (decide (id a = id b)) as [E|]; [|lia].
  exfalso. apply Hn. rewrite E. by apply list_elem_of_fmap_2.
Qed.

Lemma order_by_asc_ascending l : NoDup (id <$> l) → ascending (order_by_asc l).
Proof.
  intros Hd. apply sorted_ascending; [|apply order_by_asc_sorted].
  by rewrite order_by_asc_Permutation.
Qed.

(** Two ascending lists of the same rows are equal. *)
Lemma ascending_unique l1 l2 : ascending l1 → ascending l2 → l1 ≡ₚ l2 → l1 = l2.
Proof.
  intros H1 H2 E. apply (StronglySorted_unique_strong le_by);
    [|by apply ascending_le_by..|done].
  intros x y Hx Hy Hxy Hyx. apply (ascending_inj l1); [done..| |unfold le_by in *; lia].
  by rewrite E.
Qed.

Lemma ascending_ids l : ascending l → NoDup (id <$> l).
Proof.
  induction l as [|a l IH]; [constructor|]. intros [Ha Hl]%ascending_cons.
  rewrite fmap_cons. constructor; [|auto].
  intros (b & E & Hb)%list_elem_of_fmap. specialize (Ha b Hb). lia.
Qed.

Lemma order_by_asc_id l : ascending l → order_by_asc l = l.
Proof.
  intros Hl. apply ascending_unique; [|done|apply order_by_asc_Permutation].
  by apply order_by_asc_ascending, ascending_ids.
Qed.

(** ** Pages of an ascending table *)

Lemma above_ascending c l : ascending l → ascending (above c l).
Proof. apply ascending_filter. Qed.

Lemma elem_of_above c l r : r ∈ above c l ↔ c < id r ∧ r ∈ l.
Proof. unfold above. by rewrite list_elem_of_filter. Qed.

Lemma above_above c d l : c ≤ d → above d (above c l) = above d l.
Proof.
  intros. unfold above. rewrite list_filter_filter_l; [done|]. intros r. lia.
Qed.

Lemma filter_keep (P : A → Prop) `{∀ x, Decision (P x)} (l : list A) :
  (∀ r, r ∈ l → P r) → filter P l = l.
Proof.
  induction l as [|a l IH]; [done|]. intros H1.
  rewrite filter_cons_True by (apply H1; left). f_equal. apply IH.
  intros r Hr. apply H1. by right.
Qed.

Lemma filter_drop_all (P : A → Prop) `{∀ x, Decision (P x)} (l : list A) :
  (∀ r, r ∈ l → ¬ P r) → filter P l = [].
Proof.
  induction l as [|a l IH]; [done|]. intros H1.
  rewrite filter_cons_False by (apply H1; left). apply IH.
  intros r Hr. apply H1. by right.
Qed.

Lemma sorted_filter (R : relation A) (P : A → Prop) `{∀ x, Decision (P x)} (l : list A) :
  StronglySorted R l → StronglySorted R (filter P l).
Proof.
  induction 1 as [|a l Hl IH Ha]; [constructor|]. rewrite filter_cons. case_decide; [|done].
  constructor; [done|]. rewrite Forall_forall in *. intros b [_ Hb]%list_elem_of_filter. auto.
Qed.

(** Two filters that agree on a list's elements. *)
Lemma filter_agree (P Q : A → Prop) `{∀ x, Decision (P x), ∀ x, Decision (Q x)} (l : list A) :
  (∀ a, a ∈ l → P a ↔ Q a) → filter P l = filter Q l.
Proof.
  induction l as [|a l IH]; [done|]. intros Heq. rewrite !filter_cons.
  rewrite IH by (intros; apply Heq; by right). by rewrite (decide_ext (P a) (Q a)) by (apply Heq; left).
Qed.

Lemma above_all c (l : list A) : (∀ r, r ∈ l → c < id r) → above c l = l.
Proof. apply filter_keep. Qed.

Lemma above_none c (l : list A) : (∀ r, r ∈ l → id r ≤ c) → above c l = [].
Proof.
  intros H. apply filter_drop_all. intros r Hr. specialize (H r Hr). lia.
Qed.

(** The rows after a row of an ascending list are those with a larger id. *)
Lemma above_split l1 r l2 : ascending (l1 ++ r :: l2) → above (id r) (l1 ++ r :: l2) = l2.
Proof.
  intros (H12 & H1 & [Hr H2]%ascending_cons)%ascending_app.
  unfold above. rewrite filter_app, filter_cons_False by lia.
  rewrite (filter_drop_all _ l1), (filter_keep _ l2); [done|auto|].
  intros x Hx. specialize (H12 x r Hx ltac:(left)). lia.
Qed.

(** A page of [n] rows above a cursor ends at the row that is the next page's cursor. *)
Lemma page_next l c n r :
  ascending l → last (take n (above c l)) = Some r →
  above (id r) l = drop n (above c l).
Proof.
  intros Hl Hlast.
  assert (Hr : r ∈ above c l).
  { apply last_Some_elem_of, elem_of_take in Hlast as (i & Hi & _).
    by apply list_elem_of_lookup_2 in Hi. }
  rewrite <- (above_above c) by (apply elem_of_above in Hr; lia).
  apply last_Some in Hlast as [l1 E].
  pose proof (take_drop n (above c l)) as E'. rewrite E in E'.
  rewrite <- app_assoc in E'. simpl in E'. rewrite <- E' at 1.
  apply above_split. rewrite E'. by apply above_ascending.
Qed.
End Ordered.

(** A page taken off a list of distinct keys leaves the rest. *)
Lemma filter_drop_page {R K} `{EqDecision K} (key : R → K) n (l : list R) :
  NoDup (key <$> l) → filter (λ r, key r ∉ key <$> take n l) l = drop n l.
Proof.
  intros Hl. pose proof (take_drop n l) as E. revert E. generalize (take n l) (drop n l).
  intros a b <-. rewrite fmap_app in Hl. apply NoDup_app in Hl as (_ & Hd & _). rewrite filter_app.
  rewrite (filter_drop_all _ a), (filter_keep _ b); [done| |].
  - intros r Hr Hin. apply (Hd _ Hin). by apply list_elem_of_fmap_2.
  - intros r Hr Hn. apply Hn. by apply list_elem_of_fmap_2.
Qed.

#[export] Hint Resolve ascending_nil ascending_singleton ascending_filter ascending_take
  ascending_drop above_ascending order_by_asc_id : node.

(** An element of a list, by its place: what is before it and after it stays when it is replaced. *)
Lemma lookup_split {A} (xs : list A) i x :
  xs !! i = Some x → ∃ l1 l2, xs = l1 ++ x :: l2 ∧ ∀ y, <[i := y]> xs = l1 ++ y :: l2.
Proof.
  intros H. exists (take i xs), (drop (S i) xs). split; [by rewrite take_drop_middle|].
  intros y. apply insert_take_drop. by eapply lookup_lt_Some.
Qed.

(** * Sums over a map and counts over a list *)

Section MapSum.
Context `{Countable K} {A : Type} (f : A → Z).
Implicit Types m : gmap K A.

Definition map_sum m : Z := map_fold (λ _ a acc, f a + acc) 0 m.

Lemma map_sum_empty : map_sum ∅ = 0.
Proof. apply map_fold_empty. Qed.

Lemma map_sum_insert_fresh m k a : m !! k = None → map_sum (<[k:=a]> m) = f a + map_sum m.
Proof.
  intros. unfold map_sum.
  by rewrite (map_fold_insert_L (λ _ a acc, f a + acc)) by (done || (intros; lia)).
Qed.

Lemma map_sum_delete m k : map_sum (delete k m) = map_sum m - default 0 (f <$> m !! k).
Proof.
  destruct (m !! k) as [a|] eqn:E; simpl.
  - rewrite <- (insert_delete_id m k a E) at 2.
    rewrite map_sum_insert_fresh by apply lookup_delete_eq. lia.
  - rewrite delete_id by done. lia.
Qed.

Lemma map_sum_insert m k a :
  map_sum (<[k:=a]> m) = f a + map_sum m - default 0 (f <$> m !! k).
Proof.
  rewrite <- insert_delete_eq, map_sum_insert_fresh by apply lookup_delete_eq.
  rewrite map_sum_delete. lia.
Qed.

Lemma map_sum_nonneg m : (∀ k a, m !! k = Some a → 0 ≤ f a) → 0 ≤ map_sum m.
Proof.
  induction m as [|k a m Hk _ IH] using map_first_key_ind; intros Hf; [done|].
  rewrite map_sum_insert_fresh by done.
  assert (0 ≤ f a) by (apply (Hf k); apply lookup_insert_eq).
  assert (0 ≤ map_sum m); [|lia]. apply IH. intros k' a' Hk'. apply (Hf k').
  rewrite lookup_insert_ne; [done|]. intros <-. by rewrite Hk in Hk'.
Qed.

Lemma map_sum_pos m k a :
  (∀ k a, m !! k = Some a → 0 ≤ f a) → m !! k = Some a → 0 < f a → 0 < map_sum m.
Proof.
  intros Hf Hk Ha. rewrite <- (insert_delete_id m k a Hk).
  rewrite map_sum_insert_fresh by apply lookup_delete_eq.
  assert (0 ≤ map_sum (delete k m)); [|lia]. apply map_sum_nonneg.
  intros k' a' [_ ?]%lookup_delete_Some. eauto.
Qed.

Lemma map_sum_pos_inv m :
  (∀ a, 0 ≤ f a) → 0 < map_sum m → ∃ k a, m !! k = Some a ∧ 0 < f a.
Proof.
  intros Hf. induction m as [|k a m Hk _ IH] using map_first_key_ind; [by rewrite map_sum_empty|].
  rewrite map_sum_insert_fresh by done. intros Hs. destruct (decide (0 < f a)) as [Ha|Ha].
  - exists k, a. by rewrite lookup_insert_eq.
  - specialize (Hf a). destruct IH as (k' & a' & Hk' & Ha'); [lia|]. exists k', a'.
    split; [|done]. rewrite lookup_insert_ne; [done|]. intros ->. congruence.
Qed.

Lemma map_sum_le m c : (∀ a, f a ≤ c) → map_sum m ≤ c * Z.of_nat (size m).
Proof.
  intros Hf. induction m as [|k a m Hk _ IH] using map_first_key_ind.
  - rewrite map_size_empty, map_sum_empty. lia.
  - rewrite map_sum_insert_fresh, map_size_insert_None by done. specialize (Hf a). lia.
Qed.
End MapSum.

Lemma map_sum_none `{Countable K} {A B} (f : A → Z) (g : B → A) (m : gmap K B) :
  (∀ b, f (g b) = 0) → map_sum f (g <$> m) = 0.
Proof.
  intros Hf. induction m as [|k a m Hk _ IH] using map_first_key_ind.
  - by rewrite fmap_empty, map_sum_empty.
  - by rewrite fmap_insert, map_sum_insert_fresh, Hf, IH by (by rewrite lookup_fmap, Hk).
Qed.

Section Count.
Context {A : Type}.

(** How many elements of a list satisfy [P]. *)
Definition count (P : A → Prop) `{∀ x, Decision (P x)} (l : list A) : Z :=
  Z.of_nat (length (filter P l)).

Lemma count_nil P `{∀ x, Decision (P x)} : count P [] = 0.
Proof. done. Qed.

Lemma count_cons P `{∀ x, Decision (P x)} a l :
  count P (a :: l) = (if decide (P a) then 1 else 0) + count P l.
Proof. unfold count. rewrite filter_cons. case_decide; simpl; lia. Qed.

Lemma count_app P `{∀ x, Decision (P x)} l1 l2 : count P (l1 ++ l2) = count P l1 + count P l2.
Proof. unfold count. rewrite filter_app, length_app. lia. Qed.

Lemma count_perm P `{∀ x, Decision (P x)} l1 l2 : l1 ≡ₚ l2 → count P l1 = count P l2.
Proof. intros E. unfold count. by rewrite E. Qed.

Lemma count_nonneg P `{∀ x, Decision (P x)} l : 0 ≤ count P l.
Proof. unfold count. lia. Qed.

Lemma count_ext P Q `{∀ x, Decision (P x), ∀ x, Decision (Q x)} l :
  (∀ a, a ∈ l → P a ↔ Q a) → count P l = count Q l.
Proof.
  induction l as [|a l IH]; [done|]. intros Heq. rewrite !count_cons, IH.
  - f_equal. apply decide_ext, Heq. left.
  - intros b Hb. apply Heq. by right.
Qed.

Lemma count_all P `{∀ x, Decision (P x)} l :
  (∀ a, a ∈ l → P a) → count P l = Z.of_nat (length l).
Proof.
  induction l as [|a l IH]; [done|]. intros Hall. rewrite count_cons, IH.
  - rewrite decide_True by (apply Hall; left). simpl. lia.
  - intros b Hb. apply Hall. by right.
Qed.

Lemma count_none P `{∀ x, Decision (P x)} l : (∀ a, a ∈ l → ¬ P a) → count P l = 0.
Proof.
  induction l as [|a l IH]; [done|]. intros Hall. rewrite count_cons, IH.
  - rewrite decide_False by (apply Hall; left). done.
  - intros b Hb. apply Hall. by right.
Qed.

Lemma count_pos P `{∀ x, Decision (P x)} l a : a ∈ l → P a → 0 < count P l.
Proof.
  intros Ha HP. apply list_elem_of_split in Ha as (l1 & l2 & ->).
  rewrite count_app, count_cons, decide_True by done.
  pose proof (count_nonneg P l1). pose proof (count_nonneg P l2). lia.
Qed.

Lemma count_pos_inv P `{∀ x, Decision (P x)} l : 0 < count P l → ∃ a, a ∈ l ∧ P a.
Proof.
  induction l as [|a l IH]; [rewrite count_nil; lia|]. rewrite count_cons.
  case_decide as Ha; [intros _; exists a; split; [left|done]|].
  intros (b & ? & ?)%IH. exists b. split; [by right|done].
Qed.

(** Excluding one element of a duplicate-free list lowers a count by one. *)
Lemma count_remove P Q `{∀ x, Decision (P x), ∀ x, Decision (Q x)} l t :
  NoDup l → t ∈ l → P t → ¬ Q t → (∀ a, a ≠ t → P a ↔ Q a) → count Q l = count P l - 1.
Proof.
  intros Hd Ht HP HQ Heq. apply list_elem_of_split in Ht as (l1 & l2 & ->).
  apply NoDup_app in Hd as (_ & Hd1 & Hd2). apply NoDup_cons in Hd2 as [Hd2 _].
  rewrite !count_app, !count_cons, decide_False, decide_True by done.
  rewrite (count_ext Q P l1), (count_ext Q P l2); [lia|..].
  - intros a Ha. symmetry. apply Heq. by intros ->.
  - intros a Ha. symmetry. apply Heq. intros ->. by apply (Hd1 _ Ha), list_elem_of_here.
Qed.
End Count.

(** * Record update

    [r <| f := v |>] is [r] with its field [f] replaced. The setter of a field is found by type
    class search: the record declares its eta expansion ([Eta]), and the setter abstracts the
    field's projection in it. *)

Class Eta (R : Type) := eta_expand : R → R.

Class Setter {R T : Type} (proj : R → T) := upd : (T → T) → R → R.
Arguments upd {_ _} _ {_} _ _ /.

Ltac derive_setter :=
  match goal with
  | |- @Setter ?R ?T ?proj =>
      let e := constr:(_ : Eta R) in
      let e := eval hnf in e in
      match eval pattern proj in e with
      | ?F _ => exact (λ f, F (λ r, f (proj r)))
      end
  end.

#[export] Hint Extern 1 (Setter _) => derive_setter : typeclass_instances.

#[warnings="-postfix-notation-not-level-1"]
Notation "r <| f := v |>" := (upd f (λ _, v) r)
  (at level 12, left associativity, format "r  <| f  :=  v |>") : go_scope.
