(* ===== verification/Topic.v ===== *)
(** Topics: pkg/topic (names of the dispatcher topics and their categories), the kind-prefixed
    wire topics of the Subscribe stream (splitTopic, buildMLSTopic in
    pkg/mls/api/v1/subscribe.go), the hex strings both rest on, and the envelope helpers of
    pkg/envelopes. *)

From S2P Require Import Prelude.

(** * Hex: [%x] of a byte slice, and encoding/hex's [DecodeString] *)

Module Hex.
Definition digit (n : N) : Ascii.ascii :=
  match String.get (N.to_nat n) "0123456789abcdef" with
  | Some c => c
  | None => Ascii.zero
  end.

Fixpoint encode (b : bytes) : string :=
  match b with
  | EmptyString => EmptyString
  | String c b =>
      let n := Ascii.N_of_ascii c in
      String (digit (n / 16)) (String (digit (n mod 16)) (encode b))
  end.

Definition fromChar (c : Ascii.ascii) : option N :=
  let n := Ascii.N_of_ascii c in
  if (N.leb 48 n && N.leb n 57)%N then Some (n - 48)%N
  else if (N.leb 97 n && N.leb n 102)%N then Some (n - 87)%N
  else if (N.leb 65 n && N.leb n 70)%N then Some (n - 55)%N
  else None.

Fixpoint decode (s : string) : option bytes :=
  match s with
  | EmptyString => Some EmptyString
  | String h (String l s) =>
      match fromChar h, fromChar l, decode s with
      | Some h, Some l, Some b => Some (String (Ascii.ascii_of_N (16 * h + l)) b)
      | _, _, _ => None
      end
  | String _ EmptyString => None
  end.

Lemma digit_pair c :
  let n := Ascii.N_of_ascii c in
  fromChar (digit (n / 16)) = Some (n / 16)%N ∧
  fromChar (digit (n mod 16)) = Some (n mod 16)%N ∧
  Ascii.ascii_of_N (16 * (n / 16) + n mod 16) = c.
Proof. destruct c as [[] [] [] [] [] [] [] []]; vm_compute; done. Qed.

Lemma decode_encode b : decode (encode b) = Some b.
Proof.
  induction b as [|c b IH]; [done|]. cbn [encode decode].
  destruct (digit_pair c) as (-> & -> & E). by rewrite IH, E.
Qed.

Lemma encode_inj b1 b2 : encode b1 = encode b2 → b1 = b2.
Proof.
  intros E. assert (decode (encode b1) = decode (encode b2)) as E' by by rewrite E.
  rewrite !decode_encode in E'. by injection E'.
Qed.

(** The suffix after the hex digits starts with a character that is not a digit. *)
Lemma encode_app_inj b1 b2 c r1 r2 :
  fromChar c = None →
  encode b1 +:+ String c r1 = encode b2 +:+ String c r2 → b1 = b2.
Proof.
  intros Hc. revert b2. induction b1 as [|x b1 IH]; intros [|y b2]; cbn; [done|..].
  - intros [= E _]. destruct (digit_pair y) as (H & _). congruence.
  - intros [= E _]. destruct (digit_pair x) as (H & _). congruence.
  - intros [= E1 E2 E3%IH]. subst b2. f_equal.
    destruct (digit_pair x) as (Hx1 & Hx2 & Hx3), (digit_pair y) as (Hy1 & Hy2 & Hy3).
    rewrite E1, Hy1 in Hx1. rewrite E2, Hy2 in Hx2.
    injection Hx1 as Hx1. injection Hx2 as Hx2. by rewrite <- Hx3, <- Hx1, <- Hx2.
Qed.
End Hex.

(** * pkg/topic/mls.go *)

Definition mlsv1Prefix : string := "/xmtp/mls/1/".

Definition IsMLSV1 (topic : string) : bool := HasPrefix topic mlsv1Prefix.
Definition IsMLSV1Group (topic : string) : bool := HasPrefix topic (mlsv1Prefix +:+ "g-").
Definition IsMLSV1Welcome (topic : string) : bool := HasPrefix topic (mlsv1Prefix +:+ "w-").

Definition BuildMLSV1GroupTopic (groupId : bytes) : string :=
  mlsv1Prefix +:+ "g-" +:+ Hex.encode groupId +:+ "/proto".
Definition BuildMLSV1WelcomeTopic (installationId : bytes) : string :=
  mlsv1Prefix +:+ "w-" +:+ Hex.encode installationId +:+ "/proto".

(** * pkg/topic/topic.go *)

Definition topicCategoryByPrefix : gmap string string :=
  list_to_map [("test", "test"); ("contact", "contact"); ("intro", "v1-intro");
    ("dm", "v1-conversation"); ("dmE", "v1-conversation-ephemeral");
    ("invite", "v2-invite"); ("groupInvite", "v2-group-invite");
    ("m", "v2-conversation"); ("mE", "v2-conversation-ephemeral");
    ("privatestore", "private"); ("userpreferences", "userpreferences")].

(** [strings.TrimPrefix], and [strings.Cut] at a one-character separator: the part before it,
    when it occurs. *)
Fixpoint TrimPrefix (s p : string) : string :=
  match p, s with
  | EmptyString, _ => s
  | String c p', String d s' =>
      if Ascii.eqb c d then (if HasPrefix s' p' then TrimPrefix s' p' else s) else s
  | String _ _, EmptyString => s
  end.

Fixpoint cutBefore (c : Ascii.ascii) (s : string) : option string :=
  match s with
  | EmptyString => None
  | String d s => if Ascii.eqb c d then Some EmptyString else String d <$> cutBefore c s
  end.

Definition Category (contentTopic : string) : string :=
  if HasPrefix contentTopic "test-" then "test"
  else
    let topic := TrimPrefix contentTopic "/xmtp/0/" in
    if bool_decide (len topic = len contentTopic) then "invalid"
    else
      match cutBefore dash topic with
      | Some prefix =>
          match topicCategoryByPrefix !! prefix with
          | Some category => category
          | None => "invalid"
          end
      | None => "invalid"
      end.

Definition IsEphemeral (contentTopic : string) : bool :=
  bool_decide (Category contentTopic = "v2-conversation-ephemeral")
  || bool_decide (Category contentTopic = "v1-conversation-ephemeral").

Definition IsUserPreferences (contentTopic : string) : bool :=
  bool_decide (Category contentTopic = "userpreferences").

(** * Wire topics of the Subscribe stream *)

Definition topicKindGroupMessagesV1 : Z := 0.
Definition topicKindWelcomeMessagesV1 : Z := 1.

Definition splitTopic (t : bytes) : result (Z * bytes) :=
  match t with
  | String k (String _ _ as id) =>
      let kind := Z.of_N (Ascii.N_of_ascii k) in
      if bool_decide (kind ≠ topicKindGroupMessagesV1 ∧ kind ≠ topicKindWelcomeMessagesV1)
      then Err (Plain "unsupported topic kind %d")
      else Ok (kind, id)
  | _ => Err (Plain "topic must be a kind byte plus an identifier")
  end.

Definition buildMLSTopic (kind : Z) (id : bytes) : string :=
  if bool_decide (kind = topicKindWelcomeMessagesV1)
  then BuildMLSV1WelcomeTopic id
  else BuildMLSV1GroupTopic id.

(** * pkg/envelopes/helpers.go *)

Record Envelope := mkEnvelope {
  ContentTopic : string;
  TimestampNs : Z;
  Message : bytes;
}.

#[export] Instance Envelope_eq_dec : EqDecision Envelope.
Proof. solve_decision. Defined.

Definition fromWakuTimestamp (ts : Z) : Z := if bool_decide (ts < 0) then 0 else u64 ts.

Record WakuMessage := mkWakuMessage {
  wm_Payload : bytes;
  wm_ContentTopic : string;
  wm_Timestamp : Z;
}.

Definition BuildEnvelope (msg : WakuMessage) : Envelope :=
  {| ContentTopic := wm_ContentTopic msg;
     TimestampNs := fromWakuTimestamp (wm_Timestamp msg);
     Message := wm_Payload msg |}.

(** FNV-1a, 64 bits (Go's hash/fnv), and the lower-case hex of the sum. *)
Fixpoint fnv64a (h : Z) (b : bytes) : Z :=
  match b with
  | EmptyString => h
  | String c b =>
      fnv64a (u64 (Z.lxor h (Z.of_N (Ascii.N_of_ascii c)) * 1099511628211)) b
  end.

Fixpoint hexOfZ (fuel : nat) (z : Z) (acc : string) : string :=
  match fuel with
  | O => acc
  | S fuel =>
      let acc := String (Hex.digit (Z.to_N (z mod 16))) acc in
      if bool_decide (z / 16 = 0) then acc else hexOfZ fuel (z / 16) acc
  end.

Definition BuildNatsSubject (topic : string) : string :=
  hexOfZ 16 (fnv64a 14695981039346656037 topic) EmptyString.

(** * Lemmas *)

Lemma group_topic_inj id1 id2 :
  BuildMLSV1GroupTopic id1 = BuildMLSV1GroupTopic id2 → id1 = id2.
Proof.
  intros E%string_app_inj_l%string_app_inj_l. by apply (Hex.encode_app_inj _ _ slash) in E.
Qed.

Lemma welcome_topic_inj id1 id2 :
  BuildMLSV1WelcomeTopic id1 = BuildMLSV1WelcomeTopic id2 → id1 = id2.
Proof.
  intros E%string_app_inj_l%string_app_inj_l. by apply (Hex.encode_app_inj _ _ slash) in E.
Qed.

Lemma group_not_welcome_topic id1 id2 : BuildMLSV1GroupTopic id1 ≠ BuildMLSV1WelcomeTopic id2.
Proof. by intros E%string_app_inj_l. Qed.

Lemma IsMLSV1Welcome_welcome id : IsMLSV1Welcome (BuildMLSV1WelcomeTopic id) = true.
Proof.
  unfold IsMLSV1Welcome, HasPrefix, BuildMLSV1WelcomeTopic.
  rewrite <- string_app_assoc. apply prefix_app.
Qed.

Lemma IsMLSV1Welcome_group id : IsMLSV1Welcome (BuildMLSV1GroupTopic id) = false.
Proof. reflexivity. Qed.

Lemma IsMLSV1_built kind id : IsMLSV1 (buildMLSTopic kind id) = true.
Proof. unfold buildMLSTopic. case_bool_decide; apply prefix_app. Qed.

#[export] Hint Resolve group_topic_inj welcome_topic_inj group_not_welcome_topic
  IsMLSV1Welcome_welcome IsMLSV1Welcome_group IsMLSV1_built : node.

Lemma splitTopic_kind t kind id :
  splitTopic t = Ok (kind, id) →
  kind = topicKindGroupMessagesV1 ∨ kind = topicKindWelcomeMessagesV1.
Proof.
  destruct t as [|k [|c t]]; [done..|]. unfold splitTopic. case_bool_decide; [done|].
  intros [= <- <-]. lia.
Qed.

(** The canonical topic key separates wire topics: two wire topics the stream accepts have
    the same key exactly when they are the same bytes, so a group and a welcome topic with one
    identifier, or two identifiers of one kind, never share a cursor floor or a gate. *)
Theorem topic_key_injective t1 t2 kind1 id1 kind2 id2 :
  splitTopic t1 = Ok (kind1, id1) → splitTopic t2 = Ok (kind2, id2) →
  buildMLSTopic kind1 id1 = buildMLSTopic kind2 id2 → t1 = t2.
Proof.
  assert (Hwire : ∀ t kind id, splitTopic t = Ok (kind, id) →
    ∃ k, t = String k id ∧ kind = Z.of_N (Ascii.N_of_ascii k)).
  { intros [|k [|c t]] kind id; [done..|]. unfold splitTopic.
    case_bool_decide; [done|]. intros [= <- <-]. eauto. }
  intros H1 H2. destruct (Hwire _ _ _ H1) as (k1 & -> & Hk1).
  destruct (Hwire _ _ _ H2) as (k2 & -> & Hk2).
  apply splitTopic_kind in H1 as K1, H2 as K2. intros E.
  assert (kind1 = kind2 ∧ id1 = id2) as [Ek ->].
  { unfold buildMLSTopic in E.
    unfold topicKindGroupMessagesV1, topicKindWelcomeMessagesV1 in *.
    repeat case_bool_decide; try (by destruct (group_not_welcome_topic _ _ E));
      try (by destruct (group_not_welcome_topic _ _ (eq_sym E)));
      split; eauto with node; lia. }
  subst. apply N2Z.inj in Ek. f_equal.
  by rewrite <- (Ascii.ascii_N_embedding k1), <- (Ascii.ascii_N_embedding k2), Ek.
Qed.

Lemma topic_key_injective_witness :
  splitTopic (String (Ascii.ascii_of_nat 1) "ab") = Ok (1, "ab") ∧
  String (Ascii.ascii_of_nat 1) "ab" = String (Ascii.ascii_of_nat 1) "ab".
Proof.
  split; [reflexivity|].
  apply (topic_key_injective _ _ 1 "ab" 1 "ab"); reflexivity.
Defined.
