(* ===== verification/Types.v ===== *)
(** Messages: the MLS messages the node stores and streams (the protobuf types of
    pkg/proto/mls/api/v1, as the hand-written code uses them), their accessors, and the wrapper
    algorithms of pkg/types/wrapperAlgorithm.go. *)

From S2P Require Import Prelude Topic.

(** * Wrapper algorithms

    The protobuf enums are open: any 32-bit value can arrive. *)

Module ProtoAlg.
Definition UNSPECIFIED : Z := 0.
Definition CURVE25519 : Z := 1.
Definition XWING_MLKEM_768_DRAFT_6 : Z := 2.
Definition SYMMETRIC_KEY : Z := 3.
End ProtoAlg.

(** WrapperAlgorithm is an int16 whose values are stored in the database. *)
Definition AlgorithmCurve25519 : Z := 0.
Definition AlgorithmXwingMlkem768Draft6 : Z := 1.
Definition AlgorithmSymmetricKey : Z := 2.

Definition WrapperAlgorithmFromProto (proto : Z) : Z :=
  if bool_decide (proto = ProtoAlg.CURVE25519) then AlgorithmCurve25519
  else if bool_decide (proto = ProtoAlg.XWING_MLKEM_768_DRAFT_6)
    then AlgorithmXwingMlkem768Draft6
  else if bool_decide (proto = ProtoAlg.SYMMETRIC_KEY) then AlgorithmSymmetricKey
  else AlgorithmCurve25519.

Definition WrapperAlgorithmToProto (algorithm : Z) : Z :=
  if bool_decide (algorithm = AlgorithmCurve25519) then ProtoAlg.CURVE25519
  else if bool_decide (algorithm = AlgorithmXwingMlkem768Draft6)
    then ProtoAlg.XWING_MLKEM_768_DRAFT_6
  else if bool_decide (algorithm = AlgorithmSymmetricKey) then ProtoAlg.SYMMETRIC_KEY
  else ProtoAlg.CURVE25519.

Definition WelcomePointerWrapperAlgorithmFromProto (proto : Z) : result Z :=
  if bool_decide (proto = ProtoAlg.XWING_MLKEM_768_DRAFT_6)
  then Ok AlgorithmXwingMlkem768Draft6
  else Err (Plain "invalid welcome pointer wrapper algorithm %v").

Definition WrapperAlgorithmToWelcomePointerWrapperAlgorithm (algorithm : Z) : Z :=
  if bool_decide (algorithm = AlgorithmXwingMlkem768Draft6)
  then ProtoAlg.XWING_MLKEM_768_DRAFT_6
  else ProtoAlg.UNSPECIFIED.

(** * Messages *)

Record GroupMessage_V1 := mkGroupMessage_V1 {
  gm_Id : Z;
  gm_CreatedNs : Z;
  gm_GroupId : bytes;
  gm_Data : bytes;
  gm_SenderHmac : bytes;
  gm_ShouldPush : bool;
  gm_IsCommit : bool;
}.

(** A message's [Version] oneof; [None] when no known arm is set. *)
Record GroupMessage := mkGroupMessage { gm_V1 : option GroupMessage_V1 }.

Record WelcomeMessage_V1 := mkWelcomeMessage_V1 {
  wm_Id : Z;
  wm_CreatedNs : Z;
  wm_InstallationKey : bytes;
  wm_Data : bytes;
  wm_HpkePublicKey : bytes;
  wm_WrapperAlgorithm : Z;
  wm_WelcomeMetadata : bytes;
}.

Record WelcomePointer := mkWelcomePointer {
  wp_Id : Z;
  wp_CreatedNs : Z;
  wp_InstallationKey : bytes;
  wp_WelcomePointer : bytes;
  wp_HpkePublicKey : bytes;
  wp_WrapperAlgorithm : Z;
}.

Inductive WelcomeMessage :=
  | WelcomeV1 (v : WelcomeMessage_V1)
  | WelcomePointerV (v : WelcomePointer)
  | WelcomeNone.

#[export] Instance GroupMessage_V1_eq_dec : EqDecision GroupMessage_V1.
Proof. solve_decision. Defined.
#[export] Instance GroupMessage_eq_dec : EqDecision GroupMessage.
Proof. solve_decision. Defined.
#[export] Instance WelcomeMessage_V1_eq_dec : EqDecision WelcomeMessage_V1.
Proof. solve_decision. Defined.
#[export] Instance WelcomePointer_eq_dec : EqDecision WelcomePointer.
Proof. solve_decision. Defined.
#[export] Instance WelcomeMessage_eq_dec : EqDecision WelcomeMessage.
Proof. solve_decision. Defined.

(** [m.GetV1().GetId()] and the like: the getters read zero values off a nil arm. *)
Definition groupID (m : GroupMessage) : Z := default 0 (gm_Id <$> gm_V1 m).
Definition groupGroupId (m : GroupMessage) : bytes := default EmptyString (gm_GroupId <$> gm_V1 m).
Definition groupData (m : GroupMessage) : bytes := default EmptyString (gm_Data <$> gm_V1 m).

Definition welcomeInstallationKey (m : WelcomeMessage) : bytes :=
  match m with
  | WelcomeV1 v => wm_InstallationKey v
  | WelcomePointerV v => wp_InstallationKey v
  | WelcomeNone => EmptyString
  end.

Definition welcomeID (m : WelcomeMessage) : Z :=
  match m with
  | WelcomeV1 v => wm_Id v
  | WelcomePointerV v => wp_Id v
  | WelcomeNone => 0
  end.

Definition welcomeData (m : WelcomeMessage) : bytes :=
  match m with
  | WelcomeV1 v => wm_Data v
  | WelcomePointerV v => wp_WelcomePointer v
  | WelcomeNone => EmptyString
  end.

(** The topic key a message's cursor floor is kept under. *)
Definition groupKey (m : GroupMessage) : string := BuildMLSV1GroupTopic (groupGroupId m).
Definition welcomeKey (m : WelcomeMessage) : string :=
  BuildMLSV1WelcomeTopic (welcomeInstallationKey m).

Definition getMetadataFromWelcomeMessage (m : WelcomeMessage) : bool * bytes * Z :=
  match m with
  | WelcomeV1 v => (true, wm_InstallationKey v, wm_Id v)
  | WelcomePointerV v => (true, wp_InstallationKey v, wp_Id v)
  | WelcomeNone => (false, EmptyString, 0)
  end.

(** * Wire paging *)

Inductive SortDirection := SORT_DIRECTION_UNSPECIFIED | SORT_DIRECTION_ASCENDING
  | SORT_DIRECTION_DESCENDING.

#[export] Instance SortDirection_eq_dec : EqDecision SortDirection.
Proof. solve_decision. Defined.

Record PagingInfo := mkPagingInfo {
  pi_Direction : SortDirection;
  pi_Limit : Z;      (* uint32 *)
  pi_IdCursor : Z;   (* uint64 *)
}.

(** * Catch-up requests of the Subscribe stream *)

Record GroupCatchup := mkGroupCatchup { gc_GroupID : bytes; gc_IdCursor : Z }.
Record WelcomeCatchup := mkWelcomeCatchup { wc_InstallationKey : bytes; wc_IdCursor : Z }.

#[export] Instance GroupCatchup_eq_dec : EqDecision GroupCatchup.
Proof. solve_decision. Defined.
#[export] Instance WelcomeCatchup_eq_dec : EqDecision WelcomeCatchup.
Proof. solve_decision. Defined.

(** The wrapper algorithm survives the database for every algorithm a client can name: the
    value stored for a recognised proto algorithm converts back to it, and the welcome pointer
    conversion accepts exactly the one algorithm that also converts back. *)
Theorem wrapper_algorithm_roundtrip p :
  (WrapperAlgorithmToProto (WrapperAlgorithmFromProto p) = p ↔
     p = ProtoAlg.CURVE25519 ∨ p = ProtoAlg.XWING_MLKEM_768_DRAFT_6 ∨ p = ProtoAlg.SYMMETRIC_KEY)
  ∧ (∀ a, WelcomePointerWrapperAlgorithmFromProto p = Ok a ↔
       p = ProtoAlg.XWING_MLKEM_768_DRAFT_6 ∧ a = AlgorithmXwingMlkem768Draft6
       ∧ WrapperAlgorithmToWelcomePointerWrapperAlgorithm a = p).
Proof.
  unfold WrapperAlgorithmToProto, WrapperAlgorithmFromProto,
    WelcomePointerWrapperAlgorithmFromProto, WrapperAlgorithmToWelcomePointerWrapperAlgorithm,
    ProtoAlg.CURVE25519, ProtoAlg.XWING_MLKEM_768_DRAFT_6, ProtoAlg.SYMMETRIC_KEY,
    ProtoAlg.UNSPECIFIED, AlgorithmCurve25519, AlgorithmXwingMlkem768Draft6,
    AlgorithmSymmetricKey.
  split; [|intros a]; repeat case_bool_decide; split; intros; simplify_eq; naive_solver lia.
Qed.
