(* ===== verification/Frames.v ===== *)
(** Frames of the Subscribe stream: the server's response frames and the frame builders of
    pkg/mls/api/v1/subscribe.go (buildGroupFrames and buildWelcomeFrames, which are one routine
    at two message types), with their deduplication against the high-water marks and their
    packing into frames of bounded size. *)

From S2P Require Import Prelude Topic Types.

(** * Response frames (SubscribeResponse_V1 and its arms) *)

Inductive SubscribeResponse :=
  | Started (KeepaliveIntervalMs : Z)
  | Messages (GroupMessages : list GroupMessage) (WelcomeMessages : list WelcomeMessage)
      (MutateId : Z)
  | TopicsLive (Topics : list bytes)
  | CatchupComplete (MutateId : Z)
  | Ping (Nonce : Z)
  | Pong (Nonce : Z).

#[export] Instance SubscribeResponse_eq_dec : EqDecision SubscribeResponse.
Proof. solve_decision. Defined.

(** The high-water mark of a topic: a Go map reads 0 for a missing key. *)
Definition floorOf (hwm : gmap string Z) (t : string) : Z := default 0 (hwm !! t).

(** * The frame builder *)

Section FrameBuilder.
Context {M : Type} (key : M → string) (id : M → Z) (size : M → Z).
Context (mkFrame : list M → SubscribeResponse) (maxFrameBytes : Z).

(** The builder's variables: the stream's high-water marks, the frames closed so far, the open
    frame and its bytes. *)
Record builder := mkBuilder {
  b_hwm : gmap string Z;
  b_frames : list SubscribeResponse;
  b_frame : list M;
  b_frameBytes : Z;
}.

Definition flushFrame (b : builder) : builder :=
  match b_frame b with
  | [] => b
  | frame => {| b_hwm := b_hwm b; b_frames := b_frames b ++ [mkFrame frame];
                b_frame := []; b_frameBytes := 0 |}
  end.

Definition pushMessage (b : builder) (m : M) : builder :=
  if bool_decide (id m ≤ floorOf (b_hwm b) (key m)) then b
  else
    let hwm := <[key m := id m]> (b_hwm b) in
    let sz := size m in
    let b := {| b_hwm := hwm; b_frames := b_frames b;
                b_frame := b_frame b; b_frameBytes := b_frameBytes b |} in
    let b := if bool_decide (maxFrameBytes < b_frameBytes b + sz ∧ b_frame b ≠ [])
             then flushFrame b else b in
    {| b_hwm := b_hwm b; b_frames := b_frames b;
       b_frame := b_frame b ++ [m]; b_frameBytes := b_frameBytes b + sz |}.

Definition buildFrames (hwm : gmap string Z) (msgs : list M)
    : gmap string Z * list SubscribeResponse :=
  let b := flushFrame (foldl pushMessage
    {| b_hwm := hwm; b_frames := []; b_frame := []; b_frameBytes := 0 |} msgs) in
  (b_hwm b, b_frames b).

(** ** Specification: deduplication

    [fresh hwm msgs] is what the stream has not delivered yet: a message survives when its id
    is above its topic's mark, and raises the mark. *)

Fixpoint fresh (hwm : gmap string Z) (msgs : list M) : list M :=
  match msgs with
  | [] => []
  | m :: msgs =>
      if bool_decide (id m ≤ floorOf hwm (key m)) then fresh hwm msgs
      else m :: fresh (<[key m := id m]> hwm) msgs
  end.

Fixpoint raise (hwm : gmap string Z) (msgs : list M) : gmap string Z :=
  match msgs with
  | [] => hwm
  | m :: msgs =>
      if bool_decide (id m ≤ floorOf hwm (key m)) then raise hwm msgs
      else raise (<[key m := id m]> hwm) msgs
  end.

Definition frameSize (ms : list M) : Z := foldr (λ m acc, size m + acc) 0 ms.

(** A closed frame is not empty, and is within the cap unless it holds a single message. *)
Definition frame_ok (ms : list M) : Prop :=
  ms ≠ [] ∧ (frameSize ms ≤ maxFrameBytes ∨ length ms = 1%nat).

Lemma frameSize_app ms1 ms2 : frameSize (ms1 ++ ms2) = frameSize ms1 + frameSize ms2.
Proof. unfold frameSize. induction ms1; simpl; lia. Qed.

(** The builder's invariant: the closed frames and the open one hold, in order, what was
    pushed; every closed frame is well-formed and so is the open one unless empty. *)
Definition builder_ok (b : builder) (parts : list (list M)) : Prop :=
  b_frames b = mkFrame <$> parts ∧ Forall frame_ok parts ∧
  b_frameBytes b = frameSize (b_frame b) ∧ (b_frame b = [] ∨ frame_ok (b_frame b)).

Lemma flushFrame_ok b parts :
  builder_ok b parts →
  ∃ parts', builder_ok (flushFrame b) parts' ∧
    concat parts' = concat parts ++ b_frame b ∧
    b_frame (flushFrame b) = [] ∧ b_hwm (flushFrame b) = b_hwm b.
Proof.
  intros Hok. pose proof Hok as (Hf & Hp & Hb & Ho). unfold flushFrame.
  destruct (b_frame b) as [|m ms] eqn:E.
  - exists parts. by rewrite app_nil_r.
  - destruct Ho as [?|Ho]; [done|]. exists (parts ++ [m :: ms]). unfold builder_ok. simpl.
    rewrite concat_app, fmap_app, Hf. simpl. rewrite app_nil_r.
    repeat split; try done; [|by left]. apply Forall_app; auto.
Qed.

Lemma pushMessage_ok b parts m :
  builder_ok b parts →
  ∃ parts', builder_ok (pushMessage b m) parts' ∧
    b_hwm (pushMessage b m) = raise (b_hwm b) [m] ∧
    concat parts' ++ b_frame (pushMessage b m)
      = concat parts ++ b_frame b ++ fresh (b_hwm b) [m].
Proof.
  intros Hok. unfold pushMessage, fresh, raise. case_bool_decide as Hid.
  { exists parts. by rewrite app_nil_r. }
  cbv zeta. set (b1 := {| b_hwm := <[key m := id m]> (b_hwm b); b_frames := b_frames b;
    b_frame := b_frame b; b_frameBytes := b_frameBytes b |}).
  assert (Hok1 : builder_ok b1 parts) by exact Hok.
  case_bool_decide as Hfull.
  - destruct (flushFrame_ok b1 parts Hok1) as (parts' & (H1 & H2 & H3 & H4) & Hc & He & Hh).
    exists parts'. unfold builder_ok. cbn [b_hwm b_frames b_frame b_frameBytes].
    rewrite He in *. split_and!; auto.
    + rewrite H3. simpl. lia.
    + right. split; [done|]. by right.
    + rewrite Hc. simpl. by rewrite <- app_assoc.
  - exists parts. destruct Hok1 as (H1 & H2 & H3 & H4).
    unfold builder_ok. cbn [b_hwm b_frames b_frame b_frameBytes].
    split_and!; auto.
    + rewrite H3, frameSize_app. simpl. lia.
    + right. split; [by destruct (b_frame b1)|].
      destruct (decide (b_frame b1 = [])) as [E|E]; [rewrite E; by right|]. left.
      rewrite frameSize_app. simpl in *. destruct (decide
        (maxFrameBytes < b_frameBytes b + size m)); [exfalso; auto|lia].
Qed.

Lemma fresh_app hwm ms1 ms2 : fresh hwm (ms1 ++ ms2) = fresh hwm ms1 ++ fresh (raise hwm ms1) ms2.
Proof.
  revert hwm. induction ms1 as [|m ms1 IH]; intros hwm; simpl; [done|].
  case_bool_decide; [done|]. simpl. by rewrite IH.
Qed.

Lemma raise_app hwm ms1 ms2 : raise hwm (ms1 ++ ms2) = raise (raise hwm ms1) ms2.
Proof.
  revert hwm. induction ms1 as [|m ms1 IH]; intros hwm; simpl; [done|]. by case_bool_decide.
Qed.

Lemma pushMessages_ok msgs b parts :
  builder_ok b parts →
  ∃ parts', builder_ok (foldl pushMessage b msgs) parts' ∧
    b_hwm (foldl pushMessage b msgs) = raise (b_hwm b) msgs ∧
    concat parts' ++ b_frame (foldl pushMessage b msgs)
      = concat parts ++ b_frame b ++ fresh (b_hwm b) msgs.
Proof.
  revert b parts. induction msgs as [|m msgs IH]; intros b parts Hok.
  { exists parts. simpl. by rewrite app_nil_r. }
  destruct (pushMessage_ok b parts m Hok) as (p1 & Hok1 & Hh1 & Hc1).
  destruct (IH _ _ Hok1) as (p2 & Hok2 & Hh2 & Hc2).
  exists p2. simpl. rewrite Hh2, Hc2, Hh1.
  change (m :: msgs) with ([m] ++ msgs). split; [done|]. split.
  - change (if bool_decide (id m ≤ floorOf (b_hwm b) (key m)) then raise (b_hwm b) msgs
            else raise (<[key m := id m]> (b_hwm b)) msgs) with (raise (b_hwm b) ([m] ++ msgs)).
    by rewrite raise_app.
  - change (if bool_decide (id m ≤ floorOf (b_hwm b) (key m)) then fresh (b_hwm b) msgs
            else m :: fresh (<[key m := id m]> (b_hwm b)) msgs)
      with (fresh (b_hwm b) ([m] ++ msgs)).
    rewrite fresh_app, !app_assoc, Hc1. by rewrite <- !app_assoc.
Qed.

(** The builder against its specification. *)
Lemma buildFrames_spec hwm msgs :
  ∃ parts, buildFrames hwm msgs = (raise hwm msgs, mkFrame <$> parts) ∧
    concat parts = fresh hwm msgs ∧ Forall frame_ok parts.
Proof.
  unfold buildFrames.
  set (b0 := {| b_hwm := hwm |}).
  destruct (pushMessages_ok msgs b0 []) as (p1 & Hok1 & Hh1 & Hc1).
  { repeat split; simpl; auto. }
  destruct (flushFrame_ok _ _ Hok1) as (p2 & (Hf & Hp & _) & Hc2 & He & Hh2).
  exists p2. rewrite Hf, Hh2, Hh1. split; [done|]. split; [|done].
  rewrite Hc2. exact Hc1.
Qed.

(** ** Deduplication raises marks, and only delivers above them *)

Lemma floorOf_insert hwm t v t' :
  floorOf (<[t := v]> hwm) t' = if decide (t = t') then v else floorOf hwm t'.
Proof. unfold floorOf. rewrite lookup_insert. by case_decide. Qed.

(** The ids a list of messages delivers for a topic. *)
Definition idsFor (t : string) (ms : list M) : list Z := id <$> filter (λ m, key m = t) ms.

Lemma idsFor_cons t m ms :
  idsFor t (m :: ms) = if decide (key m = t) then id m :: idsFor t ms else idsFor t ms.
Proof. unfold idsFor. rewrite filter_cons. by case_decide. Qed.

Lemma idsFor_app t ms1 ms2 : idsFor t (ms1 ++ ms2) = idsFor t ms1 ++ idsFor t ms2.
Proof. unfold idsFor. by rewrite filter_app, fmap_app. Qed.

(** [climb lo ids hi]: the ids ascend strictly from above [lo] and end at [hi]. *)
Fixpoint climb (lo : Z) (ids : list Z) (hi : Z) : Prop :=
  match ids with
  | [] => lo = hi
  | i :: ids => lo < i ∧ climb i ids hi
  end.

Lemma fresh_climb t hwm msgs :
  climb (floorOf hwm t) (idsFor t (fresh hwm msgs)) (floorOf (raise hwm msgs) t).
Proof.
  revert hwm. induction msgs as [|m msgs IH]; intros hwm; simpl; [done|].
  case_bool_decide as Hid; [done|].
  specialize (IH (<[key m := id m]> hwm)). rewrite floorOf_insert in IH.
  rewrite idsFor_cons. case_decide as E; simpl.
  - subst t. by split; [lia|].
  - done.
Qed.
End FrameBuilder.

Arguments b_hwm {_} _.
Arguments b_frames {_} _.
Arguments b_frame {_} _.
Arguments b_frameBytes {_} _.

(** * The two builders of the stream *)

Definition groupSize (m : GroupMessage) : Z := len (groupData m).
Definition welcomeSize (m : WelcomeMessage) : Z := len (welcomeData m).

Definition buildGroupFrames (maxFrameBytes : Z) (hwm : gmap string Z)
    (msgs : list GroupMessage) (mutateID : Z) : gmap string Z * list SubscribeResponse :=
  buildFrames groupKey groupID groupSize (λ ms, Messages ms [] mutateID) maxFrameBytes hwm msgs.

Definition buildWelcomeFrames (maxFrameBytes : Z) (hwm : gmap string Z)
    (msgs : list WelcomeMessage) (mutateID : Z) : gmap string Z * list SubscribeResponse :=
  buildFrames welcomeKey welcomeID welcomeSize (λ ms, Messages [] ms mutateID)
    maxFrameBytes hwm msgs.

Lemma climb_app lo ids1 mid ids2 hi :
  climb lo ids1 mid → climb mid ids2 hi → climb lo (ids1 ++ ids2) hi.
Proof.
  revert lo. induction ids1 as [|i ids1 IH]; intros lo; simpl; [by intros ->|].
  intros [? ?] ?. split; [done|]. by apply IH.
Qed.

Lemma climb_le lo ids hi : climb lo ids hi → lo ≤ hi ∧ ∀ i, i ∈ ids → lo < i ≤ hi.
Proof.
  revert lo. induction ids as [|i ids IH]; intros lo; simpl.
  - intros ->. split; [lia|]. by intros i ?%elem_of_nil.
  - intros [? [? Hin]%IH]. split; [lia|]. intros j [->|Hj]%elem_of_cons; [lia|].
    specialize (Hin j Hj). lia.
Qed.

Lemma climb_sorted lo ids hi : climb lo ids hi → StronglySorted Z.lt ids.
Proof.
  revert lo. induction ids as [|i ids IH]; intros lo; simpl; [constructor|].
  intros [? H]. constructor; [by eapply IH|]. apply Forall_forall.
  intros j Hj. apply climb_le in H as [_ H]. specialize (H j Hj). lia.
Qed.

(** The frame builders: what is framed is exactly the messages above their topic's high-water
    mark as the marks rise, in order; every frame is non-empty and within the cap unless it holds
    a single message; and for every topic the ids framed ascend strictly from above the old mark
    to the new one, so nothing is delivered twice. *)
Theorem frames_deduplicated maxFrameBytes hwm gs ws mutateID :
  (∃ parts, buildGroupFrames maxFrameBytes hwm gs mutateID =
      (raise groupKey groupID hwm gs, (λ ms, Messages ms [] mutateID) <$> parts) ∧
    concat parts = fresh groupKey groupID hwm gs ∧
    Forall (frame_ok groupSize maxFrameBytes) parts ∧
    ∀ t, climb (floorOf hwm t) (idsFor groupKey groupID t (concat parts))
      (floorOf (raise groupKey groupID hwm gs) t)) ∧
  (∃ parts, buildWelcomeFrames maxFrameBytes hwm ws mutateID =
      (raise welcomeKey welcomeID hwm ws, (λ ms, Messages [] ms mutateID) <$> parts) ∧
    concat parts = fresh welcomeKey welcomeID hwm ws ∧
    Forall (frame_ok welcomeSize maxFrameBytes) parts ∧
    ∀ t, climb (floorOf hwm t) (idsFor welcomeKey welcomeID t (concat parts))
      (floorOf (raise welcomeKey welcomeID hwm ws) t)).
Proof.
  split.
  - destruct (buildFrames_spec groupKey groupID groupSize (λ ms, Messages ms [] mutateID)
      maxFrameBytes hwm gs) as (parts & E & Hc & Hok).
    exists parts. split_and!; try done. intros t. rewrite Hc. apply fresh_climb.
  - destruct (buildFrames_spec welcomeKey welcomeID welcomeSize (λ ms, Messages [] ms mutateID)
      maxFrameBytes hwm ws) as (parts & E & Hc & Hok).
    exists parts. split_and!; try done. intros t. rewrite Hc. apply fresh_climb.
Qed.
