(* ===== verification/Writer.v ===== *)
(** The writer of a Subscribe stream: pkg/mls/api/v1/subscribe.go's select loop, the single
    goroutine that owns the stream's state, as a state machine. Each arm of the select is a
    handler in a state-and-exit monad ([M]); [handle] dispatches an event to its arm. The clock,
    the outcome of each hand-off to the sender goroutine and the protobuf decoding are
    parameters; the catch-up scans the writer starts are recorded in [launched] (CatchUp.v
    models them) and their batches come back as events. *)

From S2P Require Import Prelude Topic Types Frames.

(** * Constants and tunables *)

Definition Millisecond : Z := 1000000.
Definition Second : Z := 1000000000.

Definition subscribePingInterval : Z := 30 * Second.
Definition subscribePongDeadline : Z := subscribePingInterval.
Definition subscribeBacklog : Z := 4096.
Definition sendQueueDepth : Z := 8.
Definition catchUpTopicPageLimit : Z := 64.
Definition catchUpBatchTopics : Z := 256.
Definition catchUpMaxConcurrentScans : Z := 4.
Definition catchUpMaxPendingBytes : Z := Z.shiftl 64 20.
Definition maxMutateAddsDefault : Z := 100000.
Definition maxPendingBytesDefault : Z := Z.shiftl 64 20.
Definition maxFrameBytesDefault : Z := Z.shiftl 2 20.

(** The Subscribe tunables of the Service. *)
Record tunables := mkTunables {
  pingInterval : Z;
  pongDeadline : Z;
  maxPendingBytes : Z;
  maxFrameBytes : Z;
  scanTopicPageLimit : Z;
  scanBatchTopics : Z;
  scanMaxConcurrent : Z;
  scanMaxPendingBytes : Z;
  maxMutateAdds : Z;
}.

Definition defaultTunables : tunables :=
  {| pingInterval := subscribePingInterval;
     pongDeadline := subscribePongDeadline;
     maxPendingBytes := maxPendingBytesDefault;
     maxFrameBytes := maxFrameBytesDefault;
     scanTopicPageLimit := catchUpTopicPageLimit;
     scanBatchTopics := catchUpBatchTopics;
     scanMaxConcurrent := catchUpMaxConcurrentScans;
     scanMaxPendingBytes := catchUpMaxPendingBytes;
     maxMutateAdds := maxMutateAddsDefault |}.

(** * Requests, batches and events *)

Record Subscription_add := mkAdd { add_Topic : bytes; add_IdCursor : Z }.

Record Mutate := mkMutate {
  mu_Adds : list Subscription_add;
  mu_Removes : list bytes;
  mu_HistoryOnly : bool;
  mu_MutateId : Z;
}.

Inductive RequestV1 :=
  | ReqMutate (m : Mutate)
  | ReqPing (nonce : Z)
  | ReqPong (nonce : Z)
  | ReqNone.

(** A SubscribeRequest; [None] when its version arm is not recognised. *)
Definition SubscribeRequest : Type := option RequestV1.

Record catchUpBatch := mkBatch {
  cb_groupMsgs : list GroupMessage;
  cb_welcomeMsgs : list WelcomeMessage;
  cb_wave : nat;
  cb_bytes : Z;
  cb_done : bool;
  cb_err : option error;
}.

Record waveState := mkWave {
  mutateID : Z;
  scansLeft : Z;
  owned : Z;
  w_topics : list string;
  w_wire : list bytes;
}.

#[export] Instance waveState_eta : Eta waveState :=
  λ w, mkWave (mutateID w) (scansLeft w) (owned w) (w_topics w) (w_wire w).

(** A catch-up goroutine the writer starts. *)
Inductive scan :=
  | scanGroups (adds : list GroupCatchup) (wave : nat)
  | scanWelcomes (adds : list WelcomeCatchup) (wave : nat).

Inductive event :=
  | EvStreamDone
  | EvServiceDone
  | EvSendErr (e : error)
  | EvRequest (req : SubscribeRequest)
  | EvRequestsClosed (recvErr : option error)
  | EvBatch (b : catchUpBatch)
  | EvEnvelope (env : Envelope)
  | EvSubscriptionClosed
  | EvPingTick (now sent : Z).   (* the clock at the tick, and after its Ping is handed over *)

(** What the select in [send] finds: the sender takes the frames (at a time), reports an earlier
    Send error, the stream's or the service's context is done, or the deadline passes. *)
Inductive send_result :=
  | Accepted (now : Z)
  | SendFailed (e : error)
  | SendStreamDone
  | SendServiceDone
  | SendStalled.

(** What the select in [flush] finds once the queue is closed. *)
Inductive flush_result :=
  | Drained
  | DrainedWithError (e : error)
  | FlushStreamDone
  | FlushTimeout.

(** * The writer's state *)

Record writer := mkWriter {
  highWaterMarks : gmap string Z;   (* topic -> last id sent *)
  catchingUp : gset string;   (* topic -> catch-up in progress *)
  pending : gmap string (list Envelope);   (* live held while a topic catches up *)
  subscribed : gset string;   (* topics live-registered on the dispatcher *)
  subTopics : gset string;   (* the dispatcher's topic set of this subscription *)
  pendingBytes : Z;
  lastActivity : Z;
  awaitingPong : bool;
  pingNonce : Z;   (* uint64 *)
  pingSentAt : Z;
  subscribedTopics : Z;
  topicsGauge : Z;   (* this stream's share of the subscribed-topics metric *)
  nextWave : nat;
  waves : gmap nat waveState;
  topicWave : gmap string nat;   (* topic not yet opened -> its wave *)
  halfClosed : bool;
  launched : list scan;   (* the fetcher goroutines started *)
  freedBytes : Z;   (* catch-up bytes the writer has released *)
  sendLog : list (list SubscribeResponse);   (* the non-empty arguments of send, in order *)
  outbound : list SubscribeResponse;   (* frames handed to the sender *)
}.

#[export] Instance writer_eta : Eta writer :=
  λ s, mkWriter (highWaterMarks s) (catchingUp s) (pending s) (subscribed s) (subTopics s)
    (pendingBytes s) (lastActivity s) (awaitingPong s) (pingNonce s) (pingSentAt s)
    (subscribedTopics s) (topicsGauge s) (nextWave s) (waves s) (topicWave s) (halfClosed s)
    (launched s) (freedBytes s) (sendLog s) (outbound s).

Definition initWriter (now : Z) : writer :=
  {| highWaterMarks := ∅;
     catchingUp := ∅;
     pending := ∅;
     subscribed := ∅;
     subTopics := ∅;
     pendingBytes := 0;
     lastActivity := now;
     awaitingPong := false;
     pingNonce := 0;
     pingSentAt := 0;
     subscribedTopics := 0;
     topicsGauge := 0;
     nextWave := 0%nat;
     waves := ∅;
     topicWave := ∅;
     halfClosed := false;
     launched := [];
     freedBytes := 0;
     sendLog := [];
     outbound := [] |}.

(** * The state-and-exit monad

    [Cont a] goes on with [a]; [Exit r] is a return of the handler, [None] for a nil error. *)

Inductive step_result (A : Type) :=
  | Cont (a : A)
  | Exit (r : option error).
Arguments Cont {_} _.
Arguments Exit {_} _.

Definition M (A : Type) : Type := writer → step_result A * writer.

#[export] Instance M_ret : MRet M := λ A a st, (Cont a, st).
#[export] Instance M_bind : MBind M := λ A B f m st,
  match m st with
  | (Cont a, st) => f a st
  | (Exit r, st) => (Exit r, st)
  end.

Definition fail {A} (e : error) : M A := λ st, (Exit (Some e), st).
Definition exitWith {A} (r : option error) : M A := λ st, (Exit r, st).
Definition gets {A} (f : writer → A) : M A := λ st, (Cont (f st), st).
Definition modify (f : writer → writer) : M unit := λ st, (Cont tt, f st).

(** [for _, x := range l { ... }]. *)
Fixpoint forEach {A} (f : A → M unit) (l : list A) : M unit :=
  match l with
  | [] => mret tt
  | a :: l => f a ≫= λ _, forEach f l
  end.

Section Writer.
Context (cfg : tunables).
Context (net : nat → send_result) (drain : flush_result).
Context (unmarshalGroup : bytes → option GroupMessage).
Context (unmarshalWelcome : bytes → option WelcomeMessage).

(** ** Sending *)

Definition send (flat : list SubscribeResponse) : M unit := λ st,
  match flat with
  | [] => (Cont tt, st)
  | _ =>
      let i := length (sendLog st) in
      let st := st <| sendLog := sendLog st ++ [flat] |> in
      match net i with
      | Accepted now =>
          (Cont tt, st <| outbound := outbound st ++ flat |> <| lastActivity := now |>)
      | SendFailed e => (Exit (Some e), st)
      | SendStreamDone => (Cont tt, st)
      | SendServiceDone => (Exit (Some (Status Unavailable "service is shutting down")), st)
      | SendStalled =>
          (Exit (Some (Status Unavailable "send stalled; client not reading")), st)
      end
  end.

Definition flush {A} : M A :=
  exitWith match drain with
           | Drained => None
           | DrainedWithError e => Some e
           | FlushStreamDone => None
           | FlushTimeout => Some (Status DeadlineExceeded
               "flush timed out waiting for sender to drain")
           end.

Definition startedFrame : list SubscribeResponse :=
  [Started (u32 (pingInterval cfg / Millisecond))].

Definition catchupCompleteFrame (mutateID : Z) : list SubscribeResponse :=
  [CatchupComplete mutateID].

(** The frame builders, on the writer's high-water marks. *)
Definition groupFrames (msgs : list GroupMessage) (mutateID : Z)
    : M (list SubscribeResponse) := λ st,
  let '(hwm, frames) :=
    buildGroupFrames (maxFrameBytes cfg) (highWaterMarks st) msgs mutateID in
  (Cont frames, st <| highWaterMarks := hwm |>).

Definition welcomeFrames (msgs : list WelcomeMessage) (mutateID : Z)
    : M (list SubscribeResponse) := λ st,
  let '(hwm, frames) :=
    buildWelcomeFrames (maxFrameBytes cfg) (highWaterMarks st) msgs mutateID in
  (Cont frames, st <| highWaterMarks := hwm |>).

(** ** dropTopic *)

Definition envSize (envs : list Envelope) : Z :=
  foldr (λ env acc, len (Message env) + acc) 0 envs.

Definition pendingOf (st : writer) (t : string) : list Envelope :=
  default [] (pending st !! t).

(** The bookkeeping of dropTopic before a freed wave is settled. *)
Definition forgetTopic (t : string) (st : writer) : writer :=
  let st := st <| subTopics := subTopics st ∖ {[t]} |>
               <| highWaterMarks := delete t (highWaterMarks st) |> in
  let st := if bool_decide (t ∈ subscribed st) then
      st <| subscribed := subscribed st ∖ {[t]} |>
         <| subscribedTopics := subscribedTopics st - 1 |>
         <| topicsGauge := topicsGauge st - 1 |>
    else st in
  if bool_decide (t ∈ catchingUp st) then
    st <| pendingBytes := pendingBytes st - envSize (pendingOf st t) |>
       <| pending := delete t (pending st) |>
       <| catchingUp := catchingUp st ∖ {[t]} |>
  else st.

Definition dropTopic (t : string) : M unit :=
  modify (forgetTopic t) ≫= λ _,
  gets (λ st, topicWave st !! t) ≫= λ wave,
  match wave with
  | None => mret tt
  | Some wave =>
      modify (λ st, st <| topicWave := delete t (topicWave st) |>) ≫= λ _,
      gets (λ st, waves st !! wave) ≫= λ w,
      match w with
      | None => mret tt
      | Some w =>
          let w := w <| owned := owned w - 1 |> in
          if bool_decide (0 < owned w) then
            modify (λ st, st <| waves := <[wave := w]> (waves st) |>)
          else
            modify (λ st, st <| waves := delete wave (waves st) |>) ≫= λ _,
            send (catchupCompleteFrame (mutateID w))
      end
  end.

(** ** completeWave *)

(** What the loop of completeWave collects. *)
Record settled := mkSettled {
  s_groups : list GroupMessage;
  s_welcomes : list WelcomeMessage;
  s_marker : list bytes;
}.

(** A gated topic's buffer, decoded: messages that do not parse are logged and skipped. *)
Definition decodePending (t : string) (envs : list Envelope)
    : list GroupMessage * list WelcomeMessage :=
  if IsMLSV1Welcome t then ([], omap (λ env, unmarshalWelcome (Message env)) envs)
  else (omap (λ env, unmarshalGroup (Message env)) envs, []).

Definition settleTopic (wave : nat) (t : string) (wire : bytes) (acc : settled) (st : writer)
    : settled * writer :=
  if bool_decide (topicWave st !! t ≠ Some wave) then (acc, st)
  else
    let st := st <| topicWave := delete t (topicWave st) |> in
    let marker := s_marker acc ++ [wire] in
    if bool_decide (t ∉ catchingUp st) then
      ({| s_groups := s_groups acc; s_welcomes := s_welcomes acc; s_marker := marker |},
       st <| highWaterMarks := delete t (highWaterMarks st) |>)
    else
      let envs := pendingOf st t in
      let '(groups, welcomes) := decodePending t envs in
      ({| s_groups := s_groups acc ++ groups;
          s_welcomes := s_welcomes acc ++ welcomes;
          s_marker := marker |},
       st <| catchingUp := catchingUp st ∖ {[t]} |>
          <| pendingBytes := pendingBytes st - envSize envs |>
          <| pending := delete t (pending st) |>).

Fixpoint settleTopics (wave : nat) (topics : list string) (wire : list bytes)
    (acc : settled) (st : writer) : settled * writer :=
  match topics, wire with
  | t :: topics, b :: wire =>
      let '(acc, st) := settleTopic wave t b acc st in
      settleTopics wave topics wire acc st
  | _, _ => (acc, st)
  end.

Definition settle (wave : nat) (w : waveState) : M settled := λ st,
  let '(acc, st) := settleTopics wave (w_topics w) (w_wire w)
    {| s_groups := []; s_welcomes := []; s_marker := [] |} st in
  (Cont acc, st).

Definition completeWave (wave : nat) (w : waveState) : M unit :=
  settle wave w ≫= λ acc,
  let groups := order_by_asc groupID (s_groups acc) in
  let welcomes := order_by_asc welcomeID (s_welcomes acc) in
  let liveMarker := match s_marker acc with [] => [] | topics => [TopicsLive topics] end in
  modify (λ st, st <| waves := delete wave (waves st) |>) ≫= λ _,
  groupFrames groups (mutateID w) ≫= λ gf,
  welcomeFrames welcomes (mutateID w) ≫= λ wf,
  send (gf ++ wf ++ liveMarker ++ catchupCompleteFrame (mutateID w)).

(** ** Mutate *)

Definition addsNeedId : error :=
  Status InvalidArgument "a Mutate with adds requires a nonzero mutate_id".
Definition tooManyAdds : error :=
  Status ResourceExhausted "adds-per-Mutate limit %d exceeded; split the adds across Mutates".
Definition idInFlight : error :=
  Status InvalidArgument "mutate_id %d is already in flight on this stream".
Definition historyOnlyInFlight : error :=
  Status InvalidArgument "add targets a topic with an in-flight history_only catch-up".
Definition historyOnlyOnLive : error :=
  Status InvalidArgument "history_only add targets a topic already subscribed on this stream".

Definition validateMutate (m : Mutate) (st : writer) : result unit :=
  if bool_decide (mu_Adds m ≠ [] ∧ mu_MutateId m = 0) then Err addsNeedId
  else if bool_decide (maxMutateAdds cfg < Z.of_nat (length (mu_Adds m))) then Err tooManyAdds
  else if bool_decide (mu_MutateId m ≠ 0)
          && existsb (λ '(_, w), bool_decide (mutateID w = mu_MutateId m))
               (map_to_list (waves st))
    then Err idInFlight
  else Ok tt.

Record addReq := mkAddReq {
  ar_wire : bytes;
  ar_kind : Z;
  ar_id : bytes;
  ar_cursor : Z;
}.

(** Duplicate topics within one Mutate collapse, the lowest cursor winning. *)
Definition parseAdd (acc : list string * gmap string addReq) (add : Subscription_add)
    : result (list string * gmap string addReq) :=
  let '(addOrder, addByTopic) := acc in
  let wire := add_Topic add in
  match splitTopic wire with
  | Err _ => Err (Status InvalidArgument "add: %v")
  | Ok (kind, id) =>
      let t := buildMLSTopic kind id in
      let cursor := add_IdCursor add in
      match addByTopic !! t with
      | Some ex =>
          if bool_decide (cursor < ar_cursor ex) then
            Ok (addOrder, <[t := {| ar_wire := wire; ar_kind := ar_kind ex;
                                    ar_id := ar_id ex; ar_cursor := cursor |}]> addByTopic)
          else Ok (addOrder, addByTopic)
      | None =>
          Ok (addOrder ++ [t], <[t := {| ar_wire := wire; ar_kind := kind; ar_id := id;
                                         ar_cursor := cursor |}]> addByTopic)
      end
  end.

Fixpoint parseAdds (acc : list string * gmap string addReq) (adds : list Subscription_add)
    : result (list string * gmap string addReq) :=
  match adds with
  | [] => Ok acc
  | add :: adds =>
      match parseAdd acc add with
      | Err e => Err e
      | Ok acc => parseAdds acc adds
      end
  end.

Definition applyRemove (wire : bytes) : M unit :=
  match splitTopic wire with
  | Err _ => fail (Status InvalidArgument "remove: %v")
  | Ok (kind, id) => dropTopic (buildMLSTopic kind id)
  end.

(** The adds of a Mutate that start a catch-up, in order. *)
Record newAdds := mkNewAdds {
  groupAdds : list GroupCatchup;
  groupTopics : list string;
  groupWire : list bytes;
  welcomeAdds : list WelcomeCatchup;
  welcomeTopics : list string;
  welcomeWire : list bytes;
  newlyLive : Z;
}.

Definition noAdds : newAdds := mkNewAdds [] [] [] [] [] [] 0.

(** Records an add that starts a catch-up (the switch on its kind). *)
Definition collectAdd (t : string) (a : addReq) (live : bool) (acc : newAdds) : newAdds :=
  let nl := newlyLive acc + (if live then 1 else 0) in
  if bool_decide (ar_kind a = topicKindGroupMessagesV1) then
    mkNewAdds (groupAdds acc ++ [mkGroupCatchup (ar_id a) (ar_cursor a)])
      (groupTopics acc ++ [t]) (groupWire acc ++ [ar_wire a])
      (welcomeAdds acc) (welcomeTopics acc) (welcomeWire acc) nl
  else if bool_decide (ar_kind a = topicKindWelcomeMessagesV1) then
    mkNewAdds (groupAdds acc) (groupTopics acc) (groupWire acc)
      (welcomeAdds acc ++ [mkWelcomeCatchup (ar_id a) (ar_cursor a)])
      (welcomeTopics acc ++ [t]) (welcomeWire acc ++ [ar_wire a]) nl
  else
    mkNewAdds (groupAdds acc) (groupTopics acc) (groupWire acc)
      (welcomeAdds acc) (welcomeTopics acc) (welcomeWire acc) nl.

(** Sets the topic's starting floor and, for a live add, gates and registers it. *)
Definition openTopic (historyOnly : bool) (t : string) (cursor : Z) (st : writer) : writer :=
  let st := st <| highWaterMarks := <[t := cursor]> (highWaterMarks st) |> in
  if historyOnly then st
  else st <| catchingUp := {[t]} ∪ catchingUp st |>
          <| subTopics := {[t]} ∪ subTopics st |>
          <| subscribed := {[t]} ∪ subscribed st |>.

Definition isActive (st : writer) (t : string) : bool :=
  bool_decide (t ∈ subscribed st ∨ t ∈ catchingUp st).

Definition applyAdd (historyOnly : bool) (t : string) (a : addReq) (acc : newAdds)
    : M newAdds :=
  gets id ≫= λ st,
  if bool_decide (is_Some (topicWave st !! t)) && negb (isActive st t)
  then fail historyOnlyInFlight
  else if isActive st t && historyOnly then fail historyOnlyOnLive
  else if isActive st t && bool_decide (floorOf (highWaterMarks st) t ≤ ar_cursor a)
  then mret acc
  else
    (if isActive st t then dropTopic t else mret tt) ≫= λ _,
    modify (openTopic historyOnly t (ar_cursor a)) ≫= λ _,
    mret (collectAdd t a (negb historyOnly) acc).

Fixpoint applyAdds (historyOnly : bool) (addByTopic : gmap string addReq)
    (addOrder : list string) (acc : newAdds) : M newAdds :=
  match addOrder with
  | [] => mret acc
  | t :: addOrder =>
      match addByTopic !! t with
      | None => applyAdds historyOnly addByTopic addOrder acc
      | Some a =>
          applyAdd historyOnly t a acc ≫= λ acc,
          applyAdds historyOnly addByTopic addOrder acc
      end
  end.

Definition countLive (n : Z) (st : writer) : writer :=
  if bool_decide (0 < n) then
    st <| subscribedTopics := subscribedTopics st + n |>
       <| topicsGauge := topicsGauge st + n |>
  else st.

(** Registers the wave of a Mutate's adds and starts its scans. *)
Definition startWave (mutate_id : Z) (acc : newAdds) (st : writer) : writer :=
  let wave := nextWave st in
  let scans := (if bool_decide (groupAdds acc = []) then 0 else 1)
             + (if bool_decide (welcomeAdds acc = []) then 0 else 1) in
  let topics := groupTopics acc ++ welcomeTopics acc in
  let w := {| mutateID := mutate_id;
              scansLeft := scans;
              owned := Z.of_nat (length (groupAdds acc) + length (welcomeAdds acc));
              w_topics := topics;
              w_wire := groupWire acc ++ welcomeWire acc |} in
  st <| nextWave := S wave |>
     <| waves := <[wave := w]> (waves st) |>
     <| topicWave := foldl (λ tw t, <[t := wave]> tw) (topicWave st) topics |>
     <| launched := launched st
          ++ (if bool_decide (groupAdds acc = []) then [] else [scanGroups (groupAdds acc) wave])
          ++ (if bool_decide (welcomeAdds acc = []) then []
              else [scanWelcomes (welcomeAdds acc) wave]) |>.

Definition handleMutate (m : Mutate) : M unit :=
  gets (validateMutate m) ≫= λ v,
  match v with
  | Err e => fail e
  | Ok _ =>
      match parseAdds ([], ∅) (mu_Adds m) with
      | Err e => fail e
      | Ok (addOrder, addByTopic) =>
          forEach applyRemove (mu_Removes m) ≫= λ _,
          applyAdds (mu_HistoryOnly m) addByTopic addOrder noAdds ≫= λ acc,
          modify (countLive (newlyLive acc)) ≫= λ _,
          if bool_decide (0 < length (groupAdds acc) + length (welcomeAdds acc))%nat
          then modify (startWave (mu_MutateId m) acc)
          else send (catchupCompleteFrame (mu_MutateId m))
      end
  end.

(** ** The arms of the select *)

Definition handleRequest (req : SubscribeRequest) : M unit :=
  match req with
  | None => fail (Status InvalidArgument "unrecognized SubscribeRequest version")
  | Some (ReqMutate m) => handleMutate m
  | Some (ReqPing nonce) => send [Pong nonce]
  | Some (ReqPong nonce) =>
      modify (λ st, if bool_decide (nonce = pingNonce st)
                    then st <| awaitingPong := false |> else st)
  | Some ReqNone => mret tt
  end.

Definition handleRequestsClosed (recvErr : option error) : M unit :=
  match recvErr with
  | Some _ => fail (Status Unavailable "stream recv failed: %v")
  | None =>
      gets waves ≫= λ ws,
      if bool_decide (ws = ∅) then flush
      else modify (λ st, st <| halfClosed := true |> <| awaitingPong := false |>)
  end.

(** Whether the batch's wave still owns the topic. *)
Definition wanted (st : writer) (wave : nat) (t : string) : Prop := topicWave st !! t = Some wave.

Definition historyFrames (b : catchUpBatch) (mutateID : Z) : M (list SubscribeResponse) :=
  gets id ≫= λ st,
  match cb_groupMsgs b, cb_welcomeMsgs b with
  | _ :: _, _ =>
      groupFrames (filter (λ m, topicWave st !! groupKey m = Some (cb_wave b))
        (cb_groupMsgs b)) mutateID
  | [], _ :: _ =>
      welcomeFrames (filter (λ m, topicWave st !! welcomeKey m = Some (cb_wave b))
        (cb_welcomeMsgs b)) mutateID
  | [], [] => mret []
  end.

(** The end of a scan: the wave's last one completes it. *)
Definition scanDone (wave : nat) (w : waveState) : M unit :=
  let w := w <| scansLeft := scansLeft w - 1 |> in
  if bool_decide (0 < scansLeft w) then
    modify (λ st, st <| waves := <[wave := w]> (waves st) |>)
  else
    completeWave wave w ≫= λ _,
    gets (λ st, halfClosed st && bool_decide (waves st = ∅)) ≫= λ last,
    if last : bool then flush else mret tt.

Definition handleBatch (b : catchUpBatch) : M unit :=
  match cb_err b with
  | Some _ => fail (Status Unavailable "catch-up failed: %v")
  | None =>
      modify (λ st, st <| freedBytes := freedBytes st + cb_bytes b |>) ≫= λ _,
      gets (λ st, waves st !! cb_wave b) ≫= λ w,
      match w with
      | None => mret tt
      | Some w =>
          historyFrames b (mutateID w) ≫= λ history,
          send history ≫= λ _,
          if cb_done b then scanDone (cb_wave b) w else mret tt
      end
  end.

Definition bufferEnvelope (env : Envelope) (st : writer) : writer :=
  let t := ContentTopic env in
  st <| pending := <[t := pendingOf st t ++ [env]]> (pending st) |>
     <| pendingBytes := pendingBytes st + len (Message env) |>.

Definition liveFrames (env : Envelope) : M (list SubscribeResponse) :=
  if IsMLSV1Welcome (ContentTopic env) then
    match unmarshalWelcome (Message env) with
    | Some m => welcomeFrames [m] 0
    | None => mret []
    end
  else
    match unmarshalGroup (Message env) with
    | Some m => groupFrames [m] 0
    | None => mret []
    end.

Definition handleEnvelope (env : Envelope) : M unit :=
  gets (λ st, bool_decide (ContentTopic env ∈ catchingUp st)) ≫= λ gated,
  if gated : bool then
    modify (bufferEnvelope env) ≫= λ _,
    gets (λ st, bool_decide (maxPendingBytes cfg < pendingBytes st)) ≫= λ full,
    if full : bool
    then fail (Status ResourceExhausted "catch-up buffer exceeded; reconnect from cursor")
    else mret tt
  else liveFrames env ≫= send.

Definition handlePingTick (now sent : Z) : M unit :=
  gets id ≫= λ st,
  if halfClosed st then mret tt
  else if awaitingPong st then
    if bool_decide (pongDeadline cfg ≤ now - pingSentAt st)
    then fail (Status DeadlineExceeded "no Pong within deadline")
    else mret tt
  else if bool_decide (pingInterval cfg ≤ now - lastActivity st) then
    modify (λ st, st <| pingNonce := u64 (pingNonce st + 1) |>) ≫= λ _,
    send [Ping (u64 (pingNonce st + 1))] ≫= λ _,
    modify (λ st, st <| awaitingPong := true |> <| pingSentAt := sent |>)
  else mret tt.

Definition handle (ev : event) : M unit :=
  match ev with
  | EvStreamDone => exitWith None
  | EvServiceDone => fail (Status Unavailable "service is shutting down")
  | EvSendErr e => fail e
  | EvRequest req => handleRequest req
  | EvRequestsClosed recvErr => handleRequestsClosed recvErr
  | EvBatch b => handleBatch b
  | EvEnvelope env => handleEnvelope env
  | EvSubscriptionClosed => fail (Status Aborted "subscription closed: consumer too slow")
  | EvPingTick now sent => handlePingTick now sent
  end.

(** The events the select can fire: after half-close the request channel is nil. *)
Definition enabled (st : writer) (ev : event) : Prop :=
  match ev with
  | EvRequest _ | EvRequestsClosed _ => halfClosed st = false
  | _ => True
  end.

(** The select loop over a sequence of events, while the handler goes on. *)
Inductive steps : list event → writer → writer → Prop :=
  | steps_nil st : steps [] st st
  | steps_cons ev evs st st1 st' :
      enabled st ev → handle ev st = (Cont tt, st1) → steps evs st1 st' →
      steps (ev :: evs) st st'.

(** The stream from its start: the Started frame, then the select loop. *)
Definition open : M unit := send startedFrame.

Definition trace (evs : list event) (st : writer) : Prop :=
  ∃ now st0, open (initWriter now) = (Cont tt, st0) ∧ steps evs st0 st.

(** The handler returns [r] at [ev], after the events [evs]. *)
Definition returns (evs : list event) (ev : event) (r : option error) (st' : writer) : Prop :=
  ∃ st, trace evs st ∧ enabled st ev ∧ handle ev st = (Exit r, st').
End Writer.
