(* ===== verification/WriterLogic.v ===== *)
(** A program logic for the writer's monad: weakest preconditions [wp] with a rule per
    combinator, the tactic [wp_steps] that applies them, and [stays], which lifts a preorder on
    states through every operation. *)

From S2P Require Import Prelude Topic Types Frames Writer.

(** * Weakest preconditions

    [wp m Q E st]: from [st], [m] goes on with a value and state in [Q], or returns from the
    handler in [E]. *)

Definition wp {A} (m : M A) (Q : A → writer → Prop) (E : option error → writer → Prop)
    (st : writer) : Prop :=
  match m st with
  | (Cont a, st') => Q a st'
  | (Exit r, st') => E r st'
  end.

Definition noExit : option error → writer → Prop := λ _ _, True.

Section Rules.
Context {A B : Type}.
Implicit Types (st : writer) (E : option error → writer → Prop).

Lemma wp_ret (a : A) Q E st : Q a st → wp (mret a) Q E st.
Proof. done. Qed.

Lemma wp_bind (m : M A) (f : A → M B) Q E st :
  wp m (λ a, wp (f a) Q E) E st → wp (m ≫= f) Q E st.
Proof. unfold wp, mbind, M_bind. by destruct (m st) as [[a|r] st']. Qed.

Lemma wp_mono (m : M A) (Q Q' : A → writer → Prop) E st :
  wp m Q E st → (∀ a st', Q a st' → Q' a st') → wp m Q' E st.
Proof. unfold wp. destruct (m st) as [[a|r] st']; auto. Qed.

Lemma wp_conj (m : M A) (Q1 Q2 : A → writer → Prop) E1 E2 st :
  wp m Q1 E1 st → wp m Q2 E2 st →
  wp m (λ a st', Q1 a st' ∧ Q2 a st') (λ r st', E1 r st' ∧ E2 r st') st.
Proof. unfold wp. destruct (m st) as [[a|r] st']; auto. Qed.

Lemma wp_conseq (m : M A) (Q Q' : A → writer → Prop) (E E' : option error → writer → Prop) st :
  wp m Q E st → (∀ a st', Q a st' → Q' a st') → (∀ r st', E r st' → E' r st') → wp m Q' E' st.
Proof. unfold wp. destruct (m st) as [[a|r] st']; auto. Qed.

Lemma wp_cont (m : M A) Q E st a st' : wp m Q E st → m st = (Cont a, st') → Q a st'.
Proof. unfold wp. intros H Hm. by rewrite Hm in H. Qed.

Lemma wp_exit (m : M A) Q E st r st' : wp m Q E st → m st = (Exit r, st') → E r st'.
Proof. unfold wp. intros H Hm. by rewrite Hm in H. Qed.

Lemma wp_fail (e : error) Q E st : E (Some e) st → wp (fail (A := A) e) Q E st.
Proof. done. Qed.

Lemma wp_exitWith r Q E st : E r st → wp (exitWith (A := A) r) Q E st.
Proof. done. Qed.

Lemma wp_gets (f : writer → A) Q E st : Q (f st) st → wp (gets f) Q E st.
Proof. done. Qed.

Lemma wp_if (b : bool) (m m' : M A) Q E st :
  (b = true → wp m Q E st) → (b = false → wp m' Q E st) →
  wp (if b then m else m') Q E st.
Proof. destruct b; auto. Qed.
End Rules.

(** Regroups the first two of three operations. *)
Lemma wp_assoc {A B C} (m : M A) (f : A → M B) (g : B → M C) Q E st :
  wp ((m ≫= f) ≫= g) Q E st → wp (m ≫= λ a, f a ≫= g) Q E st.
Proof. unfold wp, mbind, M_bind. by destruct (m st) as [[a|r] st']. Qed.

Lemma wp_modify f Q E st : Q tt (f st) → wp (modify f) Q E st.
Proof. done. Qed.

(** A loop keeps an invariant that its body keeps. *)
Lemma wp_forEach {A} (I : writer → Prop) (f : A → M unit) E l st :
  I st → (∀ a st, a ∈ l → I st → wp (f a) (λ _, I) E st) → wp (forEach f l) (λ _, I) E st.
Proof.
  revert st. induction l as [|a l IH]; intros st HI Hf; simpl; [done|].
  apply wp_bind. eapply wp_mono; [apply Hf; [left|done]|].
  intros [] st' HI'. apply IH; [done|]. intros b st'' Hb. apply Hf. by right.
Qed.

Ltac wp_step :=
  lazymatch goal with
  | |- wp (_ ≫= _) _ _ _ => apply wp_bind
  | |- wp (mret _) _ _ _ => apply wp_ret
  | |- wp (modify _) _ _ _ => apply wp_modify
  | |- wp (gets _) _ _ _ => apply wp_gets
  | |- wp (fail _) _ _ _ => apply wp_fail
  | |- wp (exitWith _) _ _ _ => apply wp_exitWith
  end.
Ltac wp_steps := repeat (wp_step; cbv beta).

(** * Relations an operation keeps

    [stays R m]: wherever [m] goes on or returns, the state is [R]-related to where it began. *)

Definition stays (R : relation writer) {A} (m : M A) : Prop := ∀ st, R st (m st).2.

Lemma stays_wp {A} (R : relation writer) (m : M A) st : stays R m → wp m (λ _, R st) noExit st.
Proof. intros Hm. specialize (Hm st). unfold wp. by destruct (m st) as [[a|r] st']. Qed.

Section Stays.
Context (R : relation writer) `{!PreOrder R}.

Lemma stays_ret {A} (a : A) : stays R (mret a).
Proof. intros st. simpl. reflexivity. Qed.

Lemma stays_fail {A} e : stays R (fail (A := A) e).
Proof. intros st. simpl. reflexivity. Qed.

Lemma stays_exitWith {A} r : stays R (exitWith (A := A) r).
Proof. intros st. simpl. reflexivity. Qed.

Lemma stays_gets {A} (f : writer → A) : stays R (gets f).
Proof. intros st. simpl. reflexivity. Qed.

Lemma stays_modify f : (∀ st, R st (f st)) → stays R (modify f).
Proof. intros Hf st. apply Hf. Qed.

Lemma stays_bind {A B} (m : M A) (f : A → M B) :
  stays R m → (∀ a, stays R (f a)) → stays R (m ≫= f).
Proof.
  intros Hm Hf st. specialize (Hm st). unfold mbind, M_bind.
  destruct (m st) as [[a|r] st']; simpl in *; [|done].
  etrans; [exact Hm|apply Hf].
Qed.

Lemma stays_forEach {A} (f : A → M unit) l :
  (∀ a, a ∈ l → stays R (f a)) → stays R (forEach f l).
Proof.
  induction l as [|a l IH]; intros Hf; [apply stays_ret|].
  apply stays_bind; [apply Hf; left|]. intros []. apply IH. intros b Hb. apply Hf. by right.
Qed.
End Stays.

#[export] Hint Resolve stays_ret stays_fail stays_exitWith stays_gets stays_modify stays_bind
  stays_forEach : node.

(** Decomposes a [stays] goal along the monad's combinators and the code's case analyses. *)
Ltac stays_steps :=
  repeat match goal with
  | |- stays _ (_ ≫= _) => apply stays_bind; [apply _| |intros ?]
  | |- stays _ (mret _) => apply stays_ret; apply _
  | |- stays _ (fail _) => apply stays_fail; apply _
  | |- stays _ (exitWith _) => apply stays_exitWith; apply _
  | |- stays _ (gets _) => apply stays_gets; apply _
  | |- stays _ (modify _) => apply stays_modify; intros ?
  | |- stays _ (forEach _ _) => apply stays_forEach; [apply _|intros ? ?]
  | |- stays _ (if ?b then _ else _) => destruct b eqn:?
  | |- stays _ (match ?x with _ => _ end) => destruct x eqn:?
  end.

(** * Relations an operation keeps unless it fails

    [preserves R X m]: wherever [m] goes on the state is [R]-related to where it began, and wherever
    it returns nil the two are [X]-related; nothing is said of what an error return leaves. *)

Definition preserves (R X : relation writer) {A} (m : M A) : Prop :=
  ∀ st, wp m (λ _ st', R st st') (λ r st', r = None → X st st') st.

(** What precedes a nil return may change the state within [R]. *)
Class Absorbs (R X : relation writer) : Prop :=
  absorbs a b c : R a b → X b c → X a c.

#[export] Instance absorbs_self (R : relation writer) `{!Transitive R} : Absorbs R R.
Proof. intros a b c ??. by trans b. Qed.

Section Preserves.
Context (R X : relation writer) `{!PreOrder R} `{!Absorbs R X}.

Lemma preserves_ret {A} (a : A) : preserves R X (mret a).
Proof. intros st. by apply wp_ret. Qed.

Lemma preserves_fail {A} e : preserves R X (fail (A := A) e).
Proof using. intros st. apply wp_fail. intros [=]. Qed.

Lemma preserves_exitWith {A} r : (r = None → ∀ st, X st st) → preserves R X (exitWith (A := A) r).
Proof using. intros Hr st. apply wp_exitWith. auto. Qed.

Lemma preserves_gets {A} (f : writer → A) : preserves R X (gets f).
Proof. intros st. by apply wp_gets. Qed.

Lemma preserves_modify f : (∀ st, R st (f st)) → preserves R X (modify f).
Proof. intros Hf st. by apply wp_modify. Qed.

Lemma preserves_bind {A B} (m : M A) (f : A → M B) :
  preserves R X m → (∀ a, preserves R X (f a)) → preserves R X (m ≫= f).
Proof.
  intros Hm Hf st. apply wp_bind. eapply wp_mono; [apply Hm|]. intros a st1 H1. simpl.
  eapply wp_conseq; [apply Hf| |].
  - intros b st2 H2. by trans st1.
  - intros r st2 H2 Hr. apply (absorbs (R := R) (X := X) _ st1); auto.
Qed.

Lemma preserves_forEach {A} (f : A → M unit) l :
  (∀ a, a ∈ l → preserves R X (f a)) → preserves R X (forEach f l).
Proof.
  induction l as [|a l IH]; intros Hf; [apply preserves_ret|].
  apply preserves_bind; [apply Hf; left|]. intros []. apply IH. intros b Hb. apply Hf. by right.
Qed.
End Preserves.

Lemma stays_preserves R {A} (m : M A) : stays R m → preserves R R m.
Proof. intros Hm st. specialize (Hm st). unfold wp. by destruct (m st) as [[a|r] st']. Qed.

(** Decomposes a [preserves] goal along the monad's combinators and the code's case analyses. *)
Ltac preserves_steps :=
  repeat match goal with
  | |- preserves _ _ (_ ≫= _) => apply preserves_bind; [apply _|apply _| |intros ?]
  | |- preserves _ _ (mret _) => apply preserves_ret; apply _
  | |- preserves _ _ (fail _) => apply preserves_fail
  | |- preserves _ _ (exitWith _) => apply preserves_exitWith; intros ? ?
  | |- preserves _ _ (gets _) => apply preserves_gets; apply _
  | |- preserves _ _ (modify _) => apply preserves_modify; intros ?
  | |- preserves _ _ (forEach _ _) => apply preserves_forEach; [apply _|apply _|intros ? ?]
  | |- preserves _ _ (if ?b then _ else _) => destruct b eqn:?
  | |- preserves _ _ (match ?x with _ => _ end) => destruct x eqn:?
  end.
