(* ===== verification/Sample.v ===== *)
(** Concrete instances for the witnesses: a stream whose sends are always accepted, a toy wire
    codec for messages (the id in the first byte, the group or installation in the rest), and an
    executable run of the writer. *)

From S2P Require Import Prelude Topic Types Frames Writer.

#[export] Instance enabled_dec st ev : Decision (enabled st ev).
Proof. destruct ev; simpl; apply _. Defined.

(** Running the writer over a list of events. *)
Fixpoint exec (cfg : tunables) (net : nat → send_result) (drain : flush_result)
    (ug : bytes → option GroupMessage) (uw : bytes → option WelcomeMessage)
    (evs : list event) (st : writer) : option writer :=
  match evs with
  | [] => Some st
  | ev :: evs =>
      if decide (enabled st ev) then
        match handle cfg net drain ug uw ev st with
        | (Cont _, st') => exec cfg net drain ug uw evs st'
        | (Exit _, _) => None
        end
      else None
  end.

Lemma exec_steps cfg net drain ug uw evs st st' :
  exec cfg net drain ug uw evs st = Some st' → steps cfg net drain ug uw evs st st'.
Proof.
  revert st. induction evs as [|ev evs IH]; intros st; simpl; [intros [= ->]; constructor|].
  destruct (decide (enabled st ev)); [|done].
  destruct (handle _ _ _ _ _ ev st) as [[[]|r] st1] eqn:E; [|done]. intros H.
  econstructor; eauto.
Qed.

(** A byte string from the codes of its bytes. *)
Definition bs (l : list nat) : bytes := foldr (λ n s, String (Ascii.ascii_of_nat n) s) EmptyString l.

Definition sampleGroup (id : Z) (g : bytes) : GroupMessage :=
  mkGroupMessage (Some (mkGroupMessage_V1 id 0 g (bs [7%nat; 7%nat]) EmptyString false false)).

Definition sampleWelcome (id : Z) (k : bytes) : WelcomeMessage :=
  WelcomeV1 (mkWelcomeMessage_V1 id 0 k (bs [9%nat]) EmptyString 0 EmptyString).

Definition unmarshalGroupSample (b : bytes) : option GroupMessage :=
  match b with
  | String c rest => Some (sampleGroup (Z.of_nat (Ascii.nat_of_ascii c)) rest)
  | EmptyString => None
  end.

Definition unmarshalWelcomeSample (b : bytes) : option WelcomeMessage :=
  match b with
  | String c rest => Some (sampleWelcome (Z.of_nat (Ascii.nat_of_ascii c)) rest)
  | EmptyString => None
  end.

(** Two groups and an installation, their wire topics, and envelopes on them. *)
Definition g1 : bytes := bs [65%nat].
Definition g2 : bytes := bs [66%nat].
Definition k1 : bytes := bs [75%nat].

Definition wireGroup (g : bytes) : bytes := String (Ascii.ascii_of_nat 0) g.
Definition wireWelcome (k : bytes) : bytes := String (Ascii.ascii_of_nat 1) k.

Definition groupEnvelope (id : nat) (g : bytes) : Envelope :=
  mkEnvelope (BuildMLSV1GroupTopic g) 0 (String (Ascii.ascii_of_nat id) g).

Definition allAccepted : nat → send_result := λ _, Accepted 1.

Abbreviation handleS := (handle defaultTunables allAccepted Drained unmarshalGroupSample
  unmarshalWelcomeSample).
Abbreviation traceS := (trace defaultTunables allAccepted Drained unmarshalGroupSample
  unmarshalWelcomeSample).
Abbreviation stepsS := (steps defaultTunables allAccepted Drained unmarshalGroupSample
  unmarshalWelcomeSample).
Abbreviation execS := (exec defaultTunables allAccepted Drained unmarshalGroupSample
  unmarshalWelcomeSample).

(** A session: subscribe to a group and an installation from cursor 2, receive a live message
    while catching up, then the catch-up batches, then a live message. *)
Definition addSample : Mutate :=
  {| mu_Adds := [mkAdd (wireGroup g1) 2; mkAdd (wireWelcome k1) 0];
     mu_Removes := []; mu_HistoryOnly := false; mu_MutateId := 5 |}.

Definition doneBatch (wave : nat) : event := EvBatch (mkBatch [] [] wave 0 true None).

Definition historyBatch (msgs : list GroupMessage) (wave : nat) : event :=
  EvBatch (mkBatch msgs [] wave (2 * Z.of_nat (length msgs)) false None).

Definition subscribeEvents : list event :=
  [ EvRequest (Some (ReqMutate addSample));
    EvEnvelope (groupEnvelope 9 g1);
    historyBatch [sampleGroup 3 g1; sampleGroup 4 g1] 0%nat;
    doneBatch 0%nat ].

Definition sessionEvents : list event :=
  subscribeEvents ++ [doneBatch 0%nat; EvEnvelope (groupEnvelope 11 g1)].

Definition openS : writer := (open defaultTunables allAccepted (initWriter 0)).2.

Definition runS (evs : list event) : writer := default openS (execS evs openS).

Lemma trace_runS evs : is_Some (execS evs openS) → traceS evs (runS evs).
Proof.
  intros [st E]. exists 0, openS. split; [done|]. unfold runS. rewrite E. by apply exec_steps.
Qed.

Lemma allAccepted_alive i : allAccepted i ≠ SendStreamDone.
Proof. done. Qed.
