(* ===== verification/WriterInv.v ===== *)
(** The writer's invariant: what ties the stream's maps, counters and waves together, and that
    every handler keeps it. [wf_upto] is the invariant in the middle of a handler: [new] are the
    topics a Mutate has opened but not yet given to a wave, [n] those it has not yet counted,
    [closing] a wave that is completing. *)

From S2P Require Import Prelude Topic Types Frames Writer WriterLogic Sample.

(** The canonical topic of a wire topic, when it is valid. *)
Definition wireTopic (b : bytes) : option string :=
  match splitTopic b with
  | Ok (kind, id) => Some (buildMLSTopic kind id)
  | Err _ => None
  end.

Record wave_ok (st : writer) (w : nat) (ws : waveState) : Prop := {
  wo_owned : owned ws = count (λ t, topicWave st !! t = Some w) (w_topics ws);
  wo_pos : 0 < owned ws;
  wo_scans : 0 < scansLeft ws;
  wo_id : mutateID ws ≠ 0;
  wo_nodup : NoDup (w_topics ws);
  wo_wire : Forall2 (λ t b, wireTopic b = Some t) (w_topics ws) (w_wire ws);
  wo_next : (w < nextWave st)%nat;
}.

Record wf_upto (new : list string) (n : Z) (closing : option nat) (st : writer) : Prop := {
  wf_count : subscribedTopics st + n = Z.of_nat (size (subscribed st));
  wf_gauge : topicsGauge st = subscribedTopics st;
  wf_sub : subTopics st = subscribed st;
  wf_gated : catchingUp st ⊆ subscribed st;
  wf_pending t envs : pending st !! t = Some envs →
    t ∈ catchingUp st ∧ Forall (λ e, ContentTopic e = t) envs;
  wf_bytes : pendingBytes st = map_sum envSize (pending st);
  wf_gate_wave t : t ∈ catchingUp st → is_Some (topicWave st !! t) ∨ t ∈ new;
  wf_wave_gate t : t ∈ subscribed st → is_Some (topicWave st !! t) ∨ t ∈ new →
    t ∈ catchingUp st;
  wf_owner t w : topicWave st !! t = Some w →
    ∃ ws, waves st !! w = Some ws ∧ t ∈ w_topics ws;
  wf_new t : t ∈ new → topicWave st !! t = None;
  wf_waves w ws : waves st !! w = Some ws → closing ≠ Some w → wave_ok st w ws;
  wf_ids w1 w2 ws1 ws2 : waves st !! w1 = Some ws1 → waves st !! w2 = Some ws2 →
    mutateID ws1 = mutateID ws2 → w1 = w2;
}.

(** Between events: nothing half-done, and a half-closed stream still has a wave to finish. *)
Definition wf (st : writer) : Prop :=
  wf_upto [] 0 None st ∧ (halfClosed st = true → waves st ≠ ∅).

Arguments wf_count {_ _ _ _}. Arguments wf_gauge {_ _ _ _}. Arguments wf_sub {_ _ _ _}.
Arguments wf_gated {_ _ _ _}. Arguments wf_pending {_ _ _ _}. Arguments wf_bytes {_ _ _ _}.
Arguments wf_gate_wave {_ _ _ _}. Arguments wf_wave_gate {_ _ _ _}.
Arguments wf_owner {_ _ _ _}. Arguments wf_new {_ _ _ _}. Arguments wf_waves {_ _ _ _}.
Arguments wf_ids {_ _ _ _}.

Lemma wf_init now : wf (initWriter now).
Proof. split; [|done]. constructor; simpl; try done; set_solver. Qed.

(** The pending buffer holds nothing for a topic that is not gated. *)
Lemma pending_gated new n c st t :
  wf_upto new n c st → t ∉ catchingUp st → pending st !! t = None.
Proof.
  intros W Ht. destruct (pending st !! t) eqn:E; [|done].
  by destruct (wf_pending W _ _ E).
Qed.

Lemma pendingBytes_release new n c st t :
  wf_upto new n c st →
  pendingBytes st - envSize (pendingOf st t) = map_sum envSize (delete t (pending st)).
Proof.
  intros W. rewrite (wf_bytes W), map_sum_delete. unfold pendingOf.
  by destruct (pending st !! t).
Qed.

(** A wave about to complete is exempt. *)
Lemma wf_closing new n w st : wf_upto new n None st → wf_upto new n (Some w) st.
Proof. intros W. destruct W. constructor; auto. Qed.

(** What the wave bookkeeping of a topic looks like once one topic is taken from its wave. *)
Lemma wave_ok_ext st st' w ws :
  wave_ok st w ws → nextWave st' = nextWave st →
  (∀ t, t ∈ w_topics ws → topicWave st' !! t = Some w ↔ topicWave st !! t = Some w) →
  wave_ok st' w ws.
Proof.
  intros [] Hn Ht. split; try done; [|by rewrite Hn].
  rewrite wo_owned0. apply count_ext. intros t Hin. symmetry. by apply Ht.
Qed.

(** ** Removing a topic *)

(** forgetTopic on a well-formed state, as one update. *)
Definition forgotten (t : string) (st : writer) : writer :=
  let live := if bool_decide (t ∈ subscribed st) then 1 else 0 in
  st <| subTopics := subTopics st ∖ {[t]} |>
     <| highWaterMarks := delete t (highWaterMarks st) |>
     <| subscribed := subscribed st ∖ {[t]} |>
     <| subscribedTopics := subscribedTopics st - live |>
     <| topicsGauge := topicsGauge st - live |>
     <| pendingBytes := map_sum envSize (delete t (pending st)) |>
     <| pending := delete t (pending st) |>
     <| catchingUp := catchingUp st ∖ {[t]} |>.

Lemma forgetTopic_eq new n c st t : wf_upto new n c st → forgetTopic t st = forgotten t st.
Proof.
  intros W. pose proof (pendingBytes_release new n c st t W) as Hb.
  pose proof (pending_gated new n c st t W) as Hp.
  pose proof (wf_gated W t) as Hg. pose proof (wf_bytes W) as Hs.
  assert (Hd : ∀ X : gset string, t ∉ X → X ∖ {[t]} = X) by set_solver.
  unfold forgetTopic, forgotten. destruct st as [hwm cu]; simpl in *.
  case_bool_decide as E1; simpl; case_bool_decide as E2; simpl;
    try (by exfalso; auto); f_equal; try exact Hb; try lia;
    try (symmetry; apply Hd; done).
  all: by rewrite delete_id by auto.
Qed.

(** A topic's removal from its wave, and the frame of the wave it completes. *)
Definition releaseTopic (t : string) (st : writer) : writer :=
  let st := forgetTopic t st in
  match topicWave st !! t with
  | None => st
  | Some wave =>
      let st := st <| topicWave := delete t (topicWave st) |> in
      match waves st !! wave with
      | None => st
      | Some w =>
          if bool_decide (0 < owned w - 1)
          then st <| waves := <[wave := w <| owned := owned w - 1 |>]> (waves st) |>
          else st <| waves := delete wave (waves st) |>
      end
  end.

Definition releasedFrames (t : string) (st : writer) : list SubscribeResponse :=
  match topicWave st !! t with
  | None => []
  | Some wave =>
      match waves st !! wave with
      | None => []
      | Some w => if bool_decide (0 < owned w - 1) then []
                  else catchupCompleteFrame (mutateID w)
      end
  end.

Lemma forgetTopic_waves t st :
  topicWave (forgetTopic t st) = topicWave st ∧ waves (forgetTopic t st) = waves st.
Proof. unfold forgetTopic. repeat case_bool_decide; done. Qed.

(** dropTopic is the removal followed by the send of what it completes. *)
Lemma dropTopic_eq net t st :
  dropTopic net t st = send net (releasedFrames t st) (releaseTopic t st).
Proof.
  destruct (forgetTopic_waves t st) as [E1 E2]. unfold dropTopic, releasedFrames, releaseTopic.
  unfold mbind, M_bind, modify, gets. rewrite <- E1, <- E2. clear E1 E2.
  destruct (forgetTopic t st) as [hwm]; simpl.
  destruct (_ !! t) as [w|]; simpl; [|done]. destruct (_ !! w) as [ws|]; simpl; [|done].
  by case_bool_decide.
Qed.

Section Release.
Context (new : list string) (n : Z) (st : writer) (t : string).
Context (W : wf_upto new n None st).

Lemma size_forgotten :
  Z.of_nat (size (subscribed st ∖ {[t]}))
    = Z.of_nat (size (subscribed st)) - (if bool_decide (t ∈ subscribed st) then 1 else 0).
Proof.
  case_bool_decide as E.
  - pose proof (size_difference (subscribed st) {[t]} ltac:(set_solver)) as Hs.
    rewrite size_singleton in Hs. pose proof (subseteq_size {[t]} (subscribed st)
      ltac:(set_solver)) as Hle. rewrite size_singleton in Hle. lia.
  - replace (subscribed st ∖ {[t]}) with (subscribed st) by set_solver. lia.
Qed.

(** The part of the invariant that the forgotten topic's maps carry, for any [st'] that agrees
    with [forgotten t st] on them. *)
Lemma forgotten_pending t' envs :
  delete t (pending st) !! t' = Some envs →
  t' ∈ catchingUp st ∖ {[t]} ∧ Forall (λ e, ContentTopic e = t') envs.
Proof.
  intros [Hne E]%lookup_delete_Some. destruct (wf_pending W _ _ E). split; [set_solver|done].
Qed.

Lemma releaseTopic_none : topicWave st !! t = None → wf_upto new n None (forgotten t st).
Proof.
  intros Ht. constructor; simpl.
  - rewrite size_forgotten. pose proof (wf_count W). lia.
  - by rewrite (wf_gauge W).
  - by rewrite (wf_sub W).
  - pose proof (wf_gated W). set_solver.
  - apply forgotten_pending.
  - done.
  - intros t' Hin. apply (wf_gate_wave W). set_solver.
  - intros t' Hin Hw. assert (t' ∈ catchingUp st) by (apply (wf_wave_gate W); set_solver).
    set_solver.
  - apply (wf_owner W).
  - apply (wf_new W).
  - intros w ws Hw Hc. apply (wave_ok_ext st); [by apply (wf_waves W)|done..].
  - apply (wf_ids W).
Qed.

(** Waves other than the topic's own are untouched by its removal. *)
Lemma wave_ok_other w w' ws st' :
  topicWave st !! t = Some w → w' ≠ w → waves st !! w' = Some ws →
  nextWave st' = nextWave st → topicWave st' = delete t (topicWave st) → wave_ok st' w' ws.
Proof.
  intros Ht Hne Hw Hn Htw. apply (wave_ok_ext st); [by apply (wf_waves W)|done|].
  intros t' _. rewrite Htw. destruct (decide (t' = t)) as [->|Hd].
  - rewrite lookup_delete_eq, Ht. split; [done|]. intros [= ->]. done.
  - by rewrite lookup_delete_ne.
Qed.

(** Taking the topic from its wave lowers the wave's owned count by one. *)
Lemma owned_released w ws :
  topicWave st !! t = Some w → waves st !! w = Some ws → t ∈ w_topics ws →
  count (λ t', delete t (topicWave st) !! t' = Some w) (w_topics ws) = owned ws - 1.
Proof.
  intros Ht Hw Hin. destruct (wf_waves W _ _ Hw) as []; [done|].
  rewrite wo_owned0. apply (count_remove _ _ _ t); try done.
  - by rewrite lookup_delete_eq.
  - intros a Ha. by rewrite lookup_delete_ne.
Qed.

(** The invariant of a state that differs from [forgotten t st] in the topic's wave alone. *)
Lemma releaseTopic_some w ws wvs :
  topicWave st !! t = Some w → waves st !! w = Some ws →
  (∀ t' w', t' ≠ t → topicWave st !! t' = Some w' →
    ∃ ws', wvs !! w' = Some ws' ∧ t' ∈ w_topics ws') →
  (∀ w' ws', wvs !! w' = Some ws' → w' ≠ w → waves st !! w' = Some ws') →
  (∀ ws', wvs !! w = Some ws' → ws' = ws <| owned := owned ws - 1 |> ∧ 1 < owned ws) →
  wf_upto new n None
    (forgotten t st <| topicWave := delete t (topicWave st) |> <| waves := wvs |>).
Proof.
  intros Ht Hw Hown Hother Hself.
  destruct (wf_owner W _ _ Ht) as (ws0 & Hw0 & Hin). simplify_eq.
  constructor; simpl.
  - rewrite size_forgotten. pose proof (wf_count W). lia.
  - by rewrite (wf_gauge W).
  - by rewrite (wf_sub W).
  - pose proof (wf_gated W). set_solver.
  - apply forgotten_pending.
  - done.
  - intros t' [Hin' Hne%not_elem_of_singleton]%elem_of_difference.
    rewrite lookup_delete_ne by done. by apply (wf_gate_wave W).
  - intros t' [Hin' Hne%not_elem_of_singleton]%elem_of_difference.
    rewrite lookup_delete_ne by done. intros ?%(wf_wave_gate W); set_solver.
  - intros t' w' [Hne Htw]%lookup_delete_Some. by apply Hown.
  - intros t' Hn. apply lookup_delete_None. right. by apply (wf_new W).
  - intros w' ws' Hw' _. destruct (decide (w' = w)) as [->|Hne].
    + destruct (Hself _ Hw') as [-> Hpos]. destruct (wf_waves W _ _ Hw) as []; [done|].
      split; simpl; try done; [|lia]. symmetry. by apply owned_released.
    + eapply wave_ok_other; eauto.
  - assert (Hid : ∀ w' ws', wvs !! w' = Some ws' →
      ∃ ws0, waves st !! w' = Some ws0 ∧ mutateID ws0 = mutateID ws').
    { intros w' ws' Hw'. destruct (decide (w' = w)) as [->|Hne]; [|by eauto].
      destruct (Hself _ Hw') as [-> _]. by exists ws. }
    intros w1 w2 ws1 ws2 (x1 & H1 & E1)%Hid (x2 & H2 & E2)%Hid E.
    apply (wf_ids W _ _ _ _ H1 H2). congruence.
Qed.

Lemma releaseTopic_wf : wf_upto new n None (releaseTopic t st).
Proof.
  unfold releaseTopic. rewrite (forgetTopic_eq new n None) by done. simpl.
  destruct (topicWave st !! t) as [w|] eqn:Ht; [|by apply releaseTopic_none].
  destruct (wf_owner W _ _ Ht) as (ws & Hw & Hin). rewrite Hw.
  case_bool_decide as Hpos; apply (releaseTopic_some w ws); try done.
  - intros t' w' Hne Htw. destruct (wf_owner W _ _ Htw) as (ws' & Hw' & Hin').
    destruct (decide (w = w')) as [<-|]; simplify_eq.
    + exists (ws <| owned := owned ws - 1 |>). by rewrite lookup_insert_eq.
    + exists ws'. by rewrite lookup_insert_ne.
  - intros w' ws' Hw' Hne. by rewrite lookup_insert_ne in Hw'.
  - intros ws'. rewrite lookup_insert_eq. intros [= <-]. split; [done|lia].
  - intros t' w' Hne Htw. destruct (wf_owner W _ _ Htw) as (ws' & Hw' & Hin').
    exists ws'. destruct (decide (w = w')) as [<-|]; [|by rewrite lookup_delete_ne].
    simplify_eq. pose proof (owned_released w ws Ht Hw Hin) as Hc.
    assert (0 < count (λ a, delete t (topicWave st) !! a = Some w) (w_topics ws)); [|lia].
    apply (count_pos _ _ t'); [done|]. by rewrite lookup_delete_ne.
  - intros w' ws' Hw' Hne. by rewrite lookup_delete_ne in Hw'.
  - intros ws'. by rewrite lookup_delete_eq.
Qed.
End Release.

(** ** Operations that leave the bookkeeping alone *)

(** The state without what the invariant does not read. *)
Definition book (st : writer) : writer :=
  st <| highWaterMarks := ∅ |> <| lastActivity := 0 |> <| awaitingPong := false |>
     <| pingNonce := 0 |> <| pingSentAt := 0 |> <| launched := [] |> <| freedBytes := 0 |>
     <| sendLog := [] |> <| outbound := [] |>.

Definition same_book (st st' : writer) : Prop := book st = book st'.

#[export] Instance same_book_equiv : Equivalence same_book.
Proof.
  unfold same_book. split; [done|intros a b H; by rewrite H|].
  intros a b c H1 H2. by rewrite H1.
Qed.

Lemma wf_upto_book new n c st st' : same_book st st' → wf_upto new n c st → wf_upto new n c st'.
Proof.
  intros Hb W. destruct st, st'. unfold same_book, book in Hb. simpl in Hb.
  injection Hb; intros; subst.
  destruct W as [????????? ?  Hw ?]. constructor; simpl in *; try done.
  intros w ws E Hc. destruct (Hw w ws E Hc). by split.
Qed.

Lemma wf_book st st' : same_book st st' → wf st → wf st'.
Proof.
  intros Hb [W Hh]. split; [by eapply wf_upto_book|].
  destruct st, st'. unfold same_book, book in Hb. simpl in *.
  injection Hb; intros; subst. auto.
Qed.

Section Frames.
Context (cfg : tunables) (net : nat → send_result).
Context (unmarshalGroup : bytes → option GroupMessage).
Context (unmarshalWelcome : bytes → option WelcomeMessage).

Lemma send_book flat : stays same_book (send net flat).
Proof. intros st. unfold send. destruct flat; [done|]. simpl. by destruct (net _). Qed.

Lemma groupFrames_book msgs id : stays same_book (groupFrames cfg msgs id).
Proof. intros st. unfold groupFrames. by destruct (buildGroupFrames _ _ _ _). Qed.

Lemma welcomeFrames_book msgs id : stays same_book (welcomeFrames cfg msgs id).
Proof. intros st. unfold welcomeFrames. by destruct (buildWelcomeFrames _ _ _ _). Qed.

Lemma historyFrames_book b id : stays same_book (historyFrames cfg b id).
Proof.
  unfold historyFrames. stays_steps; auto using groupFrames_book, welcomeFrames_book.
Qed.

Lemma liveFrames_book env :
  stays same_book (liveFrames cfg unmarshalGroup unmarshalWelcome env).
Proof. unfold liveFrames. stays_steps; auto using groupFrames_book, welcomeFrames_book. Qed.

Lemma handlePingTick_book now sent : stays same_book (handlePingTick cfg net now sent).
Proof.
  unfold handlePingTick. stays_steps;
    lazymatch goal with |- stays _ _ => apply send_book | _ => reflexivity end.
Qed.
End Frames.

#[export] Hint Resolve send_book groupFrames_book welcomeFrames_book historyFrames_book
  liveFrames_book handlePingTick_book : node.

(** A step that keeps the bookkeeping keeps any property of it. *)
Lemma wp_book {A} (m : M A) (I : writer → Prop) E st :
  (∀ st st', same_book st st' → I st → I st') → stays same_book m → I st →
  (∀ r st', I st' → E r st') → wp m (λ _, I) E st.
Proof.
  intros HI Hm Hst HE. specialize (Hm st). unfold wp.
  destruct (m st) as [[a|r] st']; simpl in Hm; eauto.
Qed.

(** ** Adding topics *)

Lemma wf_upto_new new new' n c st :
  (∀ t, t ∈ new ↔ t ∈ new') → wf_upto new n c st → wf_upto new' n c st.
Proof.
  intros Hn W. destruct W as [?????? H7 H8 ? H10 ??]. constructor; try done.
  - intros t. rewrite <- Hn. apply H7.
  - intros t. rewrite <- Hn. apply H8.
  - intros t. rewrite <- Hn. apply H10.
Qed.

Lemma openTopic_wf new n st t ho cursor :
  wf_upto new n None st → t ∉ subscribed st → t ∉ new → topicWave st !! t = None →
  wf_upto (t :: new) (n + (if ho : bool then 0 else 1)) None (openTopic ho t cursor st).
Proof.
  intros W Hs Hn Ht. pose proof (wf_gated W) as Hg.
  assert (Hwaves : ∀ st' w ws, topicWave st' = topicWave st → nextWave st' = nextWave st →
    waves st !! w = Some ws → wave_ok st' w ws).
  { intros st' w ws E1 E2 Hw. apply (wave_ok_ext st); [by apply (wf_waves W)|done|].
    intros t' _. by rewrite E1. }
  destruct ho; constructor; simpl; try apply W; try (intros; by apply Hwaves).
  - pose proof (wf_count W). lia.
  - intros t' Hin. rewrite elem_of_cons. destruct (wf_gate_wave W _ Hin); auto.
  - intros t' Hin. rewrite elem_of_cons. intros Hw. apply (wf_wave_gate W); [done|].
    destruct Hw as [?|[->|?]]; auto. done.
  - intros t' [->|?]%elem_of_cons; [done|]. by apply (wf_new W).
  - rewrite size_union, size_singleton by set_solver. pose proof (wf_count W). lia.
  - by rewrite (wf_sub W).
  - set_solver.
  - intros t' envs Hp. destruct (wf_pending W _ _ Hp). split; [set_solver|done].
  - intros t' [->%elem_of_singleton|Hin]%elem_of_union; [by right; left|].
    rewrite elem_of_cons. destruct (wf_gate_wave W _ Hin); auto.
  - intros t' Hin Hw. destruct (decide (t' = t)) as [->|Hne]; [set_solver|].
    rewrite elem_of_cons in Hw. apply elem_of_union_r, (wf_wave_gate W); [set_solver|].
    destruct Hw as [?|[->|?]]; auto. done.
  - intros t' [->|?]%elem_of_cons; [done|]. by apply (wf_new W).
Qed.

(** What parsing establishes of each add. *)
Definition add_ok (t : string) (a : addReq) : Prop :=
  wireTopic (ar_wire a) = Some t ∧ buildMLSTopic (ar_kind a) (ar_id a) = t ∧
  (ar_kind a = topicKindGroupMessagesV1 ∨ ar_kind a = topicKindWelcomeMessagesV1).

Definition parsed (p : list string * gmap string addReq) : Prop :=
  NoDup p.1 ∧ (∀ t, t ∈ p.1 ↔ is_Some (p.2 !! t)) ∧ (∀ t a, p.2 !! t = Some a → add_ok t a).

Lemma parsed_nil : parsed ([], ∅).
Proof.
  split; [constructor|]. split; [|done]. intros t. simpl. rewrite lookup_empty.
  split; [by intros ?%elem_of_nil|by intros []].
Qed.

Lemma parseAdd_parsed p add p' : parsed p → parseAdd p add = Ok p' → parsed p'.
Proof.
  destruct p as [order m]. intros (Hd & Hdom & Hok). unfold parseAdd.
  destruct (splitTopic (add_Topic add)) as [[kind id]|e] eqn:Hs; [|done].
  assert (Hw : wireTopic (add_Topic add) = Some (buildMLSTopic kind id))
    by (unfold wireTopic; by rewrite Hs).
  pose proof (splitTopic_kind _ _ _ Hs) as Hk. simpl in *.
  destruct (m !! buildMLSTopic kind id) as [ex|] eqn:Hm; [case_bool_decide|]; intros [= <-].
  - split; [done|]. split; simpl.
    + intros t. rewrite Hdom, lookup_insert_is_Some. split; [|naive_solver]. intros Ht.
      destruct (decide (buildMLSTopic kind id = t)); auto.
    + intros t a. rewrite lookup_insert. case_decide as E; [|apply Hok]. intros [= <-]. subst t.
      destruct (Hok _ _ Hm) as (_ & ? & ?). by split.
  - done.
  - split; simpl.
    { apply NoDup_app. split; [done|]. split; [|apply NoDup_singleton].
      intros t Ht ->%list_elem_of_singleton. apply Hdom in Ht. rewrite Hm in Ht. by destruct Ht. }
    split; simpl.
    + intros t. rewrite elem_of_app, list_elem_of_singleton, Hdom, lookup_insert_is_Some.
      split; [intros [?| ->]|intros [?|[? ?]]]; auto.
      destruct (decide (buildMLSTopic kind id = t)); auto.
    + intros t a. rewrite lookup_insert. case_decide as E; [|apply Hok]. by intros [= <-]; subst t.
Qed.

Lemma parseAdds_parsed adds p p' : parsed p → parseAdds p adds = Ok p' → parsed p'.
Proof.
  revert p. induction adds as [|add adds IH]; intros p Hp; simpl; [by intros [= <-]|].
  destruct (parseAdd p add) as [p1|] eqn:E; [|done]. eauto using parseAdd_parsed.
Qed.

(** The adds collected so far: their topics are distinct and match their wire topics, and the
    lists the wave is built from have one entry each. *)
Definition accTopics (acc : newAdds) : list string := groupTopics acc ++ welcomeTopics acc.
Definition accWire (acc : newAdds) : list bytes := groupWire acc ++ welcomeWire acc.

Definition matches (t : string) (b : bytes) : Prop := wireTopic b = Some t.

Record acc_ok (acc : newAdds) : Prop := {
  ao_nodup : NoDup (accTopics acc);
  ao_groups : Forall2 matches (groupTopics acc) (groupWire acc);
  ao_welcomes : Forall2 matches (welcomeTopics acc) (welcomeWire acc);
  ao_groupAdds : length (groupAdds acc) = length (groupTopics acc);
  ao_welcomeAdds : length (welcomeAdds acc) = length (welcomeTopics acc);
  ao_live : 0 ≤ newlyLive acc;
}.

Lemma acc_ok_nil : acc_ok noAdds.
Proof. by split; try constructor. Qed.

Lemma collectAdd_topics t a live acc :
  add_ok t a → accTopics (collectAdd t a live acc) ≡ₚ t :: accTopics acc.
Proof.
  intros (_ & _ & Hk). unfold collectAdd, accTopics. case_bool_decide; simpl.
  - rewrite <- app_assoc. simpl. by rewrite <- Permutation_middle.
  - case_bool_decide; [|naive_solver]. simpl. rewrite app_assoc, Permutation_app_comm. done.
Qed.

Lemma collectAdd_live t a live acc :
  newlyLive (collectAdd t a live acc) = newlyLive acc + (if live then 1 else 0).
Proof. unfold collectAdd. by repeat case_bool_decide. Qed.

Lemma collectAdd_ok t a live acc :
  add_ok t a → t ∉ accTopics acc → acc_ok acc → acc_ok (collectAdd t a live acc).
Proof.
  intros Ha Hn Hok. pose proof (collectAdd_topics t a live acc Ha) as Hp. destruct Hok.
  destruct Ha as (Hw & _ & Hk).
  assert (NoDup (accTopics (collectAdd t a live acc))) by (rewrite Hp; by constructor).
  unfold collectAdd in *. case_bool_decide; [|case_bool_decide; [|naive_solver]];
    split; simpl in *; try done; try (rewrite !length_app; simpl; lia);
    try (destruct live; lia); apply Forall2_app; auto.
Qed.

Lemma lookup_assign (w : nat) (topics : list string) (m : gmap string nat) t :
  foldl (λ tw t, <[t:=w]> tw) m topics !! t = if decide (t ∈ topics) then Some w else m !! t.
Proof.
  revert m. induction topics as [|t' topics IH]; intros m; simpl; [done|].
  rewrite IH, lookup_insert. repeat case_decide; set_solver.
Qed.

Section Mutate.
Context (cfg : tunables) (net : nat → send_result) (drain : flush_result).

(** No wave is in flight under [id]. *)
Definition unused (id : Z) (st : writer) : Prop :=
  ∀ w ws, waves st !! w = Some ws → mutateID ws ≠ id.

Lemma releaseTopic_unused id st t :
  unused id st → unused id (releaseTopic t st).
Proof.
  intros Hu. assert (Hu' : unused id (forgetTopic t st)).
  { unfold unused. by rewrite (proj2 (forgetTopic_waves t st)). }
  unfold releaseTopic. clear Hu. revert Hu'. generalize (forgetTopic t st). clear st.
  intros st Hu. destruct (topicWave st !! t) as [w|]; [|done]. simpl.
  destruct (waves st !! w) as [ws|] eqn:Hw; [|exact Hu].
  case_bool_decide; intros w' ws'; simpl.
  - destruct (decide (w = w')) as [<-|].
    + rewrite lookup_insert_eq. intros [= <-]. exact (Hu w ws Hw).
    + rewrite lookup_insert_ne by done. apply Hu.
  - intros [_ Hx]%lookup_delete_Some. by eapply Hu.
Qed.

Lemma unused_book id st st' : same_book st st' → unused id st → unused id st'.
Proof.
  unfold same_book, book, unused. destruct st, st'; simpl. intros Hb. injection Hb.
  intros; subst. eauto.
Qed.

(** The invariant of a Mutate while its removes and adds are applied. *)
Definition mutating (id : Z) (new : list string) (n : Z) (st : writer) : Prop :=
  wf_upto new n None st ∧ unused id st ∧ halfClosed st = false.

Lemma mutating_book id new n st st' :
  same_book st st' → mutating id new n st → mutating id new n st'.
Proof.
  intros Hb (W & Hu & Hh). split; [by eapply wf_upto_book|]. split; [by eapply unused_book|].
  revert Hh. unfold same_book, book in Hb. destruct st, st'; simpl in *.
  injection Hb; intros; by subst.
Qed.

Lemma releaseTopic_half t st : halfClosed (releaseTopic t st) = halfClosed st.
Proof.
  assert (E : halfClosed (forgetTopic t st) = halfClosed st).
  { unfold forgetTopic. by repeat case_bool_decide. }
  unfold releaseTopic. rewrite <- E. destruct (topicWave _ !! t); [|done]. simpl.
  destruct (waves _ !! _); [|done]. by case_bool_decide.
Qed.

Lemma releaseTopic_mutating id new n st t :
  mutating id new n st → mutating id new n (releaseTopic t st).
Proof.
  intros (W & Hu & Hh). split; [by apply releaseTopic_wf|].
  split; [by apply releaseTopic_unused|by rewrite releaseTopic_half].
Qed.

(** dropTopic keeps what removal keeps, when sends do not matter to it. *)
Lemma wp_dropTopic (I : writer → Prop) E st t :
  (∀ st st', same_book st st' → I st → I st') → (∀ r st, I st → E r st) →
  I (releaseTopic t st) → wp (dropTopic net t) (λ _, I) E st.
Proof.
  intros HI HE Hst. unfold wp. rewrite dropTopic_eq.
  apply (wp_book (send net _) I E); auto with node.
Qed.

Definition absent (t : string) (st : writer) : Prop :=
  (t ∉ subscribed st) ∧ (topicWave st !! t = None).

Lemma absent_book t st st' : same_book st st' → absent t st → absent t st'.
Proof.
  intros Hb. unfold absent, same_book, book in *. destruct st, st'; simpl in *.
  injection Hb; intros; by subst.
Qed.

Lemma releaseTopic_absent new n st t :
  wf_upto new n None st → absent t (releaseTopic t st).
Proof.
  intros W. unfold releaseTopic. rewrite (forgetTopic_eq new n None) by done. simpl.
  destruct (topicWave st !! t) as [w|] eqn:Ht; [|split; [set_solver|done]].
  destruct (wf_owner W _ _ Ht) as (ws & -> & _).
  case_bool_decide; (split; [set_solver|apply lookup_delete_eq]).
Qed.

(** The invariant of the loop over the adds. *)
Definition adding (id : Z) (acc : newAdds) (st : writer) : Prop :=
  mutating id (accTopics acc) (newlyLive acc) st ∧ acc_ok acc.

(** Before a topic is opened it is dropped, unless nothing is left of it. *)
Lemma wp_evict id new n st t :
  mutating id new n st →
  bool_decide (is_Some (topicWave st !! t)) && negb (isActive st t) = false →
  wp (if isActive st t then dropTopic net t else mret tt)
    (λ _ st', mutating id new n st' ∧ absent t st') noExit st.
Proof.
  intros Hm C1. apply wp_if; intros C4.
  - apply (wp_dropTopic (λ st', mutating id new n st' ∧ absent t st')); [|done|].
    + intros st1 st2 Hb [H1 H2]. eauto using mutating_book, absent_book.
    + split; [by apply releaseTopic_mutating|]. destruct Hm as [W _].
      by eapply releaseTopic_absent.
  - wp_steps. split; [done|]. unfold isActive in *. rewrite bool_decide_eq_false in C4.
    split; [tauto|]. destruct (topicWave st !! t) eqn:E; [|done].
    rewrite (bool_decide_false (t ∈ subscribed st ∨ _)) in C1 by done.
    rewrite andb_true_r, bool_decide_eq_false in C1. destruct C1. by eexists.
Qed.

Lemma wp_applyAdd id ho t a acc st :
  adding id acc st → add_ok t a → t ∉ accTopics acc →
  wp (applyAdd net ho t a acc)
    (λ acc' st', adding id acc' st' ∧
      (∀ t', t' ∈ accTopics acc' → t' ∈ accTopics acc ∨ t' = t))
    noExit st.
Proof.
  intros [Hm Hacc] Ha Hn. unfold applyAdd. wp_steps.
  apply wp_if; intros C1; [done|]. apply wp_if; intros C2; [done|].
  apply wp_if; intros C3; [wp_steps; split; [by split|auto]|]. clear C3.
  wp_steps. eapply wp_mono; [by apply (wp_evict id (accTopics acc) (newlyLive acc))|].
  intros [] st' [(W & Hu & Hh) [Hs Ht]]. wp_steps.
  pose proof (collectAdd_topics t a (negb ho) acc Ha) as Hp. split.
  - split; [|by apply collectAdd_ok].
    split; [|by destruct ho]. rewrite collectAdd_live.
    eapply wf_upto_new; [|rewrite if_negb; by apply openTopic_wf].
    intros t'. by rewrite Hp.
  - intros t'. rewrite Hp, elem_of_cons. tauto.
Qed.

Lemma wp_applyAdds id ho m order acc st :
  adding id acc st → NoDup order → (∀ t, t ∈ order → t ∉ accTopics acc) →
  (∀ t a, m !! t = Some a → add_ok t a) →
  wp (applyAdds net ho m order acc) (adding id) noExit st.
Proof.
  revert acc st. induction order as [|t order IH]; intros acc st Hst Hd Hn Hm; simpl; [done|].
  apply NoDup_cons in Hd as [Ht Hd]. destruct (m !! t) as [a|] eqn:E.
  - wp_steps. eapply wp_mono; [apply wp_applyAdd; [done|by apply Hm|apply Hn; left]|].
    intros acc' st' [Hst' Hnew]. apply IH; [done..| |done]. intros t' Ht' Hin.
    apply Hnew in Hin as [Hin| ->]; [|done]. apply (Hn t'); [by right|done].
  - apply IH; [done..| |done]. intros t' Ht'. apply Hn. by right.
Qed.

Lemma countLive_wf new n st : wf_upto new n None st → 0 ≤ n → wf_upto new 0 None (countLive n st).
Proof.
  intros W Hn. unfold countLive. case_bool_decide.
  - destruct W. constructor; simpl; try done; try lia.
    intros w ws Hw Hc. apply (wave_ok_ext st); [by apply wf_waves0|done..].
  - replace 0 with n by lia. done.
Qed.

Lemma startWave_wf id acc st :
  wf_upto (accTopics acc) 0 None st → acc_ok acc → unused id st → id ≠ 0 →
  (0 < length (groupAdds acc) + length (welcomeAdds acc))%nat →
  wf_upto [] 0 None (startWave id acc st).
Proof.
  intros W [] Hu Hid Hpos.
  assert (Hfresh : waves st !! nextWave st = None).
  { destruct (waves st !! nextWave st) eqn:E; [|done].
    destruct (wf_waves W _ _ E); [done|]. lia. }
  constructor; simpl; try apply W.
  - intros t Hin. left. rewrite lookup_assign. case_decide as Hd; [by eexists|].
    destruct (wf_gate_wave W _ Hin) as [?|?]; done.
  - intros t Hin [Hs|?%elem_of_nil]; [|done]. rewrite lookup_assign in Hs.
    apply (wf_wave_gate W); [done|]. case_decide; auto.
  - intros t w. rewrite lookup_assign. case_decide as Hd.
    + intros [= <-]. rewrite lookup_insert_eq. eexists. by split.
    + intros Hw. destruct (wf_owner W _ _ Hw) as (ws & Hws & Hin). exists ws.
      rewrite lookup_insert_ne; [done|]. intros <-. by rewrite Hfresh in Hws.
  - by intros t ?%elem_of_nil.
  - intros w ws. destruct (decide (nextWave st = w)) as [<-|Hne].
    + rewrite lookup_insert_eq. intros [= <-] _.
      split; simpl; try done; try lia; try by apply Forall2_app.
      * rewrite count_all; [unfold accTopics in *; rewrite length_app; lia|].
        intros t Ht. rewrite lookup_assign. by rewrite decide_True.
      * destruct (groupAdds acc), (welcomeAdds acc); simpl in *; lia.
    + rewrite lookup_insert_ne by done. intros Hw _.
      pose proof (wf_waves W _ _ Hw ltac:(done)) as Hok.
      apply (wave_ok_ext (st <| nextWave := S (nextWave st) |>)); [|done|].
      * destruct Hok. split; simpl; try done. lia.
      * intros t Hin. simpl. rewrite lookup_assign. case_decide as Hd; [|done].
        rewrite (wf_new W _ Hd). split; [by intros [= ?]|done].
  - intros w1 w2 ws1 ws2. rewrite !lookup_insert. repeat case_decide; subst; try done.
    + intros [= <-] Hw E. simpl in E. by destruct (Hu _ _ Hw).
    + intros Hw [= <-] E. simpl in E. by destruct (Hu _ _ Hw).
    + apply (wf_ids W).
Qed.
End Mutate.

(** ** Every handler keeps the invariant *)

Lemma validateMutate_ok cfg m st :
  validateMutate cfg m st = Ok tt →
  (mu_Adds m ≠ [] → mu_MutateId m ≠ 0) ∧ (mu_MutateId m ≠ 0 → unused (mu_MutateId m) st).
Proof.
  unfold validateMutate. case_bool_decide as E1; [done|]. case_bool_decide; [done|].
  destruct (bool_decide _ && existsb _ _) eqn:E3; [done|]. intros _.
  split; [intros ? ?; by apply E1|]. intros Hid w ws Hw E.
  rewrite bool_decide_true in E3 by done. simpl in E3.
  assert (Ht : existsb (λ '(_, w), bool_decide (mutateID w = mu_MutateId m))
                 (map_to_list (waves st)) = true); [|congruence].
  apply existsb_exists. exists (w, ws). split; [|by apply bool_decide_true].
  by apply list_elem_of_In, elem_of_map_to_list.
Qed.

Lemma wf_unused st : wf st → unused 0 st.
Proof. intros [W _] w ws Hw. by destruct (wf_waves W _ _ Hw). Qed.

Section Handlers.
Context (cfg : tunables) (net : nat → send_result) (drain : flush_result).
Context (unmarshalGroup : bytes → option GroupMessage).
Context (unmarshalWelcome : bytes → option WelcomeMessage).

Lemma wp_send_wf flat st : wf st → wp (send net flat) (λ _, wf) noExit st.
Proof. intros. apply wp_book; [apply wf_book|auto with node..|done]. Qed.

(** The adds and removes of a Mutate, from a state it was validated in. *)
Lemma wp_applyMutate m order byTopic st :
  wf st → halfClosed st = false → unused (mu_MutateId m) st → parsed (order, byTopic) →
  wp (forEach (applyRemove net) (mu_Removes m) ≫= λ _,
      applyAdds net (mu_HistoryOnly m) byTopic order noAdds)
    (λ acc st, adding (mu_MutateId m) acc st ∧ (order = [] → acc = noAdds)) noExit st.
Proof.
  intros [W _] Hh Hu (Hd & Hdom & Hok). wp_steps.
  eapply wp_mono; [apply (wp_forEach (mutating (mu_MutateId m) [] 0))|].
  - by split.
  - intros wire st' _ Hst. unfold applyRemove. destruct (splitTopic wire) as [[kind id]|e];
      [|done]. apply wp_dropTopic; [apply mutating_book|done|].
    by apply releaseTopic_mutating.
  - intros [] st' Hst. assert (adding (mu_MutateId m) noAdds st') by (split; [done|apply acc_ok_nil]).
    destruct order as [|t order]; [by wp_steps|].
    eapply wp_mono; [apply wp_applyAdds; try done; by intros ? _ ?%elem_of_nil|].
    by intros acc st'' ?.
Qed.

Lemma handleMutate_wf m st : wf st → halfClosed st = false →
  wp (handleMutate cfg net m) (λ _, wf) noExit st.
Proof.
  intros W Hh. unfold handleMutate. wp_steps.
  destruct (validateMutate cfg m st) as [[]|e] eqn:Hv; [|done].
  apply validateMutate_ok in Hv as [Hadds Hu].
  destruct (parseAdds ([], ∅) (mu_Adds m)) as [[order byTopic]|e] eqn:Hp; [|done].
  assert (Hnil : mu_Adds m = [] → order = []) by (intros E; rewrite E in Hp; by simplify_eq/=).
  apply parseAdds_parsed in Hp; [|apply parsed_nil].
  assert (Hid : unused (mu_MutateId m) st).
  { destruct (decide (mu_MutateId m = 0)) as [->|]; [by apply wf_unused|auto]. }
  apply (wp_assoc _ (λ _, applyAdds net _ byTopic order noAdds)).
  apply wp_bind. eapply wp_mono; [by apply wp_applyMutate|].
  intros acc st' [[(W' & Hu' & Hh') Hacc] Hno]. simpl. wp_steps.
  apply (countLive_wf _ (newlyLive acc)) in W'; [|apply Hacc].
  assert (Hu2 : unused (mu_MutateId m) (countLive (newlyLive acc) st'))
    by (unfold countLive; by case_bool_decide).
  assert (Hh2 : halfClosed (countLive (newlyLive acc) st') = false)
    by (unfold countLive; by case_bool_decide).
  apply wp_if; rewrite ?bool_decide_eq_true, ?bool_decide_eq_false; intros C; wp_steps.
  - split; [|simpl; by rewrite Hh2]. apply startWave_wf; try done. apply Hadds.
    intros E. rewrite (Hno (Hnil E)) in C. simpl in C. lia.
  - apply wp_send_wf. split; [|by rewrite Hh2]. eapply wf_upto_new; [|done].
    destruct Hacc. intros t. unfold accTopics.
    destruct (groupTopics acc), (welcomeTopics acc); simpl in *; try lia. done.
Qed.
End Handlers.

(** ** Completing a wave *)

Lemma same_book_fields st st' :
  same_book st st' → waves st = waves st' ∧ halfClosed st = halfClosed st' ∧
  topicWave st = topicWave st' ∧ subscribed st = subscribed st' ∧
  catchingUp st = catchingUp st' ∧ pending st = pending st' ∧
  pendingBytes st = pendingBytes st'.
Proof.
  unfold same_book, book. destruct st, st'; simpl. intros H. injection H. intros. by subst.
Qed.

(** A topic the wave owns, settled: out of its wave, its gate open, its buffer released. *)
Definition settledTopic (t : string) (st : writer) : writer :=
  st <| topicWave := delete t (topicWave st) |>
     <| catchingUp := catchingUp st ∖ {[t]} |>
     <| pendingBytes := map_sum envSize (delete t (pending st)) |>
     <| pending := delete t (pending st) |>.

Lemma settledTopic_wf t st w :
  wf_upto [] 0 (Some w) st → topicWave st !! t = Some w →
  wf_upto [] 0 (Some w) (settledTopic t st).
Proof.
  intros W Ht. constructor; simpl; try apply W; try done.
  - pose proof (wf_gated W). set_solver.
  - intros t' envs [Hne Hp]%lookup_delete_Some. destruct (wf_pending W _ _ Hp).
    split; [set_solver|done].
  - intros t' [Hin Hne%not_elem_of_singleton]%elem_of_difference.
    rewrite lookup_delete_ne by done. by apply (wf_gate_wave W).
  - intros t' Hin [Hw|?%elem_of_nil]; [|done].
    destruct (decide (t' = t)) as [->|Hne]; [rewrite lookup_delete_eq in Hw; by destruct Hw|].
    rewrite lookup_delete_ne in Hw by done. apply elem_of_difference.
    split; [apply (wf_wave_gate W); auto|set_solver].
  - intros t' w' [Hne Hw]%lookup_delete_Some. by apply (wf_owner W).
  - by intros t' ?%elem_of_nil.
  - intros w' ws Hw Hc. apply (wave_ok_ext st); [by apply (wf_waves W)|done|].
    intros t' _. simpl. destruct (decide (t' = t)) as [->|Hne]; [|by rewrite lookup_delete_ne].
    rewrite lookup_delete_eq, Ht. split; [done|]. intros [= <-]. done.
Qed.

Lemma delete_wave_wf wave ws st :
  wf_upto [] 0 (Some wave) st → waves st !! wave = Some ws →
  (∀ t, t ∈ w_topics ws → topicWave st !! t ≠ Some wave) →
  wf_upto [] 0 None (st <| waves := delete wave (waves st) |>).
Proof.
  intros W Hws Hno. constructor; simpl; try apply W.
  - intros t w Hw. destruct (wf_owner W _ _ Hw) as (ws' & Hw' & Hin). exists ws'.
    rewrite lookup_delete_ne; [done|]. intros <-. simplify_eq. by apply (Hno t).
  - intros w ws' [Hne Hw]%lookup_delete_Some _. apply (wave_ok_ext st); try done.
    apply (wf_waves W); [done|congruence].
  - intros w1 w2 ws1 ws2 [_ H1]%lookup_delete_Some [_ H2]%lookup_delete_Some.
    by apply (wf_ids W).
Qed.

(** The state a completed wave leaves: nothing but the wave is gone from the waves. *)
Definition completed (wave : nat) (st0 st : writer) : Prop :=
  wf_upto [] 0 None st ∧ waves st = delete wave (waves st0) ∧ halfClosed st = halfClosed st0.

Lemma completed_book wave st0 st st' :
  same_book st st' → completed wave st0 st → completed wave st0 st'.
Proof.
  intros Hb (W & Hw & Hh). apply same_book_fields in Hb as Hf.
  destruct Hf as (E1 & E2 & _). unfold completed. rewrite <- E1, <- E2.
  split_and!; [by eapply wf_upto_book|done..].
Qed.

Definition settling (wave : nat) (st0 st : writer) : Prop :=
  wf_upto [] 0 (Some wave) st ∧ waves st = waves st0 ∧ halfClosed st = halfClosed st0 ∧
  ∀ t, topicWave st !! t = Some wave → topicWave st0 !! t = Some wave.

Section Settle.
Context (unmarshalGroup : bytes → option GroupMessage).
Context (unmarshalWelcome : bytes → option WelcomeMessage).

Lemma settleTopic_eq wave t wire acc st new n c :
  wf_upto new n c st →
  same_book (settleTopic unmarshalGroup unmarshalWelcome wave t wire acc st).2
    (if decide (topicWave st !! t = Some wave) then settledTopic t st else st).
Proof.
  intros W. unfold settleTopic. destruct (decide (topicWave st !! t = Some wave)) as [E|E].
  - rewrite bool_decide_false by tauto. simpl. case_bool_decide as Hc.
    + unfold settledTopic. rewrite (delete_id (pending st)) by by apply (pending_gated new n c).
      replace (catchingUp st ∖ {[t]}) with (catchingUp st) by set_solver.
      rewrite <- (wf_bytes W). by destruct st.
    + destruct (decodePending _ _ _ _) as [gs ws]. simpl. unfold same_book, book, settledTopic.
      rewrite <- (pendingBytes_release new n c) by done. done.
  - by rewrite bool_decide_true.
Qed.

Lemma settleTopic_settling wave t wire acc st0 st :
  settling wave st0 st →
  settling wave st0 (settleTopic unmarshalGroup unmarshalWelcome wave t wire acc st).2 ∧
  topicWave (settleTopic unmarshalGroup unmarshalWelcome wave t wire acc st).2 !! t
    ≠ Some wave.
Proof.
  intros (W & Hw & Hh & Ht). pose proof (settleTopic_eq wave t wire acc st _ _ _ W) as Hb.
  apply same_book_fields in Hb as Hf. destruct Hf as (E1 & E2 & E3 & _).
  unfold settling. rewrite E1, E2, E3. case_decide as Hd; simpl.
  - split_and!; try done.
    + eapply wf_upto_book; [symmetry; exact Hb|]. by apply settledTopic_wf.
    + intros t' [_ ?]%lookup_delete_Some. auto.
    + by rewrite lookup_delete_eq.
  - split_and!; try done. by eapply wf_upto_book.
Qed.

Lemma settleTopics_settling wave topics wire acc st0 st :
  length topics = length wire → settling wave st0 st →
  settling wave st0 (settleTopics unmarshalGroup unmarshalWelcome wave topics wire acc st).2 ∧
  ∀ t, t ∈ topics →
    topicWave (settleTopics unmarshalGroup unmarshalWelcome wave topics wire acc st).2 !! t
      ≠ Some wave.
Proof.
  revert st0 wire acc st.
  induction topics as [|t topics IH]; intros st0 [|b wire] acc st Hl Hst;
    try done; simpl.
  { split; [done|]. by intros t ?%elem_of_nil. }
  destruct (settleTopic_settling wave t b acc st0 st Hst) as [Hst1 Ht1].
  destruct (settleTopic _ _ _ _ _ _ _) as [acc1 st1]. simpl in *.
  destruct (IH st0 wire acc1 st1 ltac:(lia) Hst1) as [Hst2 Ht2].
  split; [done|]. intros t' [->|Hin]%elem_of_cons; [|by apply Ht2].
  assert (Hs : settling wave st1 st1).
  { destruct Hst1 as (? & ? & ? & ?). by split_and!. }
  destruct (IH st1 wire acc1 st1 ltac:(lia) Hs) as [(_ & _ & _ & Hmono) _]. auto.
Qed.
End Settle.

Section Events.
Context (cfg : tunables) (net : nat → send_result) (drain : flush_result).
Context (unmarshalGroup : bytes → option GroupMessage).
Context (unmarshalWelcome : bytes → option WelcomeMessage).

Lemma wp_completeWave wave w w0 st :
  wf_upto [] 0 None st → waves st !! wave = Some w0 →
  w_topics w = w_topics w0 → w_wire w = w_wire w0 →
  wp (completeWave cfg net unmarshalGroup unmarshalWelcome wave w)
    (λ _, completed wave st) noExit st.
Proof.
  intros W Hw Ht Hwi. unfold completeWave, settle. wp_steps. unfold wp at 1.
  assert (Hs : settling wave st st).
  { split_and!; try done. destruct W. by constructor; auto. }
  apply (settleTopics_settling unmarshalGroup unmarshalWelcome wave (w_topics w) (w_wire w)
    {| s_groups := []; s_welcomes := []; s_marker := [] |}) in Hs as [Hs Hno];
    [|rewrite Ht, Hwi; eapply Forall2_length, wo_wire, (wf_waves W); [done|done]].
  destruct (settleTopics _ _ _ _ _ _ _) as [acc st1]. simpl in *.
  destruct Hs as (W1 & Hw1 & Hh1 & _). wp_steps.
  assert (Hd : completed wave st (st1 <| waves := delete wave (waves st1) |>)).
  { split_and!; simpl; [|by rewrite Hw1|done].
    apply (delete_wave_wf wave w0); [done|by rewrite Hw1|by rewrite <- Ht]. }
  apply (wp_mono _ (λ _, completed wave st)).
  { apply wp_book; eauto using completed_book with node. done. }
  intros gf st2 H2. apply wp_bind, (wp_mono _ (λ _, completed wave st)).
  { apply wp_book; eauto using completed_book with node. done. }
  intros wf' st3 H3. apply wp_book; eauto using completed_book with node. done.
Qed.

Lemma scanDone_wf wave w st :
  wf st → waves st !! wave = Some w →
  wp (scanDone cfg net drain unmarshalGroup unmarshalWelcome wave w) (λ _, wf) noExit st.
Proof.
  intros [W Hh] Hw. unfold scanDone. apply wp_if; simpl; intros Hs.
  - apply bool_decide_eq_true in Hs. wp_steps. split; simpl; [|intros _; apply insert_non_empty].
    constructor; simpl; try apply W.
    + intros t w' Hw'. destruct (wf_owner W _ _ Hw') as (ws & Hws & Hin).
      destruct (decide (wave = w')) as [<-|]; [|exists ws; by rewrite lookup_insert_ne].
      simplify_eq. eexists. by rewrite lookup_insert_eq.
    + intros w' ws. rewrite lookup_insert. case_decide as E; subst; intros Hw' _.
      * injection Hw' as <-. destruct (wf_waves W _ _ Hw) as []; [done|]. by split.
      * apply (wave_ok_ext st); [by apply (wf_waves W)|done..].
    + intros w1 w2 ws1 ws2. rewrite !lookup_insert.
      assert (∀ x ws', waves st !! x = Some ws' → mutateID w = mutateID ws' → wave = x)
        by (intros; by eapply (wf_ids W)).
      repeat case_decide; subst; try done; intros; simplify_eq/=; eauto.
      * symmetry. eauto.
      * by eapply (wf_ids W).
  - wp_steps. eapply wp_mono; [by eapply wp_completeWave|].
    intros [] st' (W' & Hw' & Hh'). wp_steps. apply wp_if; intros C; [done|].
    wp_steps. split; [done|]. intros E. rewrite E in C. simpl in C.
    by apply bool_decide_eq_false in C.
Qed.

Lemma handleBatch_wf b st :
  wf st →
  wp (handleBatch cfg net drain unmarshalGroup unmarshalWelcome b) (λ _, wf) noExit st.
Proof.
  intros W. unfold handleBatch. destruct (cb_err b); [done|]. wp_steps. simpl.
  assert (W1 : wf (st <| freedBytes := freedBytes st + cb_bytes b |>)) by by apply (wf_book st).
  destruct (waves st !! cb_wave b) as [w|] eqn:Hw; [|done].
  pose (I := λ st', wf st' ∧ waves st' !! cb_wave b = Some w).
  assert (HI : ∀ st1 st2, same_book st1 st2 → I st1 → I st2).
  { intros st1 st2 Hb [? ?]. split; [by eapply wf_book|].
    apply same_book_fields in Hb as [<- _]. done. }
  apply wp_bind, (wp_mono _ (λ _, I)); [apply wp_book; auto with node; done|].
  intros hist st2 H2. apply wp_bind, (wp_mono _ (λ _, I)); [apply wp_book; auto with node; done|].
  intros [] st3 [H3 H3']. apply wp_if; intros C; [by apply scanDone_wf|done].
Qed.

Lemma handleEnvelope_wf env st :
  wf st →
  wp (handleEnvelope cfg net unmarshalGroup unmarshalWelcome env) (λ _, wf) noExit st.
Proof.
  intros [W Hh]. unfold handleEnvelope. wp_steps. apply wp_if; intros Hg.
  - apply bool_decide_eq_true in Hg. wp_steps. apply wp_if; intros Hc; [done|].
    wp_steps. split; [|done]. constructor; simpl; try apply W.
    + intros t envs. rewrite lookup_insert. destruct (decide (ContentTopic env = t)) as [E|E]; [|apply (wf_pending W)].
      intros [= <-]. subst t. split; [done|]. apply Forall_app. split; [|by constructor].
      unfold pendingOf. destruct (pending st !! _) eqn:E; [|done]. by eapply (wf_pending W).
    + rewrite map_sum_insert, (wf_bytes W). unfold pendingOf.
      assert (Hsz : ∀ es, envSize (es ++ [env]) = envSize es + len (Message env)).
      { intros es. unfold envSize. induction es; simpl; lia. }
      rewrite Hsz. destruct (pending st !! _); simpl; lia.
    + intros w ws Hw Hcl. apply (wave_ok_ext st); [by apply (wf_waves W)|done..].
  - apply wp_bind, (wp_mono _ (λ _, wf)).
    + apply wp_book; [apply wf_book|auto with node|by split|done].
    + intros fr st' H'. by apply wp_send_wf.
Qed.

Lemma handle_wf ev st :
  wf st → enabled st ev →
  wp (handle cfg net drain unmarshalGroup unmarshalWelcome ev) (λ _, wf) noExit st.
Proof.
  intros W Hen. destruct ev as [| |e|req|r|b|env| |now sent]; try done; simpl in *.
  - destruct req as [[m|n|n|]|]; try done; simpl.
    + by apply handleMutate_wf.
    + by apply wp_send_wf.
    + wp_steps. case_bool_decide; [by apply (wf_book st)|done].
  - unfold handleRequestsClosed. destruct r; [done|]. wp_steps. apply wp_if; intros C; [done|].
    wp_steps. apply bool_decide_eq_false in C. split; [|done].
    destruct W as [[????????? ? Hw ?] _]. constructor; simpl; try done.
    intros w ws E Hc. destruct (Hw w ws E Hc). by split.
  - by apply handleBatch_wf.
  - by apply handleEnvelope_wf.
  - apply wp_book; [apply wf_book|auto with node|done..].
Qed.

Lemma steps_wf evs st st' :
  steps cfg net drain unmarshalGroup unmarshalWelcome evs st st' → wf st → wf st'.
Proof.
  induction 1 as [|ev evs st st1 st' Hen Hev _ IH]; [done|]. intros W. apply IH.
  exact (wp_cont _ _ _ _ _ _ (handle_wf _ _ W Hen) Hev).
Qed.

Lemma open_wf now st : open cfg net (initWriter now) = (Cont tt, st) → wf st.
Proof.
  intros H. pose proof (send_book net (startedFrame cfg) (initWriter now)) as Hb.
  unfold open in H. rewrite H in Hb. exact (wf_book _ _ Hb (wf_init now)).
Qed.

Lemma trace_wf evs st :
  trace cfg net drain unmarshalGroup unmarshalWelcome evs st → wf st.
Proof. intros (now & st0 & Ho & Hs). eauto using steps_wf, open_wf. Qed.

(** Rule induction over a run, with the invariant at hand. *)
Lemma steps_ind_wf (R : list event → writer → writer → Prop) :
  (∀ st, wf st → R [] st st) →
  (∀ ev evs st st1 st', wf st → enabled st ev →
    handle cfg net drain unmarshalGroup unmarshalWelcome ev st = (Cont tt, st1) →
    wf st1 → R evs st1 st' → R (ev :: evs) st st') →
  ∀ evs st st', wf st → steps cfg net drain unmarshalGroup unmarshalWelcome evs st st' →
    R evs st st'.
Proof.
  intros Hnil Hcons evs st st' W H. revert W.
  induction H as [|ev evs st st1 st' Hen Hev _ IH]; intros W; [by apply Hnil|].
  pose proof (wp_cont _ _ _ _ _ _ (handle_wf _ _ W Hen) Hev) as W1. eauto.
Qed.
End Events.

(** C10. The writer's bookkeeping invariant holds after any events: the live-topic counter and the
    metric both count the registered topics; the dispatcher's set is the registered set; only
    registered topics are gated and only gated topics buffer messages, whose bytes are exactly
    pendingBytes; a topic is gated iff a live wave still owns it; every wave in flight has a
    unique nonzero mutate_id, a scan outstanding and a positive count of owned topics that
    agrees with topicWave; and a half-closed stream has a wave left to finish. *)
Theorem writer_invariant cfg net drain unmarshalGroup unmarshalWelcome evs st :
  trace cfg net drain unmarshalGroup unmarshalWelcome evs st → wf st.
Proof. apply trace_wf. Qed.

Lemma writer_invariant_witness : wf (runS subscribeEvents).
Proof.
  apply (writer_invariant defaultTunables allAccepted Drained unmarshalGroupSample
    unmarshalWelcomeSample subscribeEvents). apply trace_runS. vm_compute. by eexists.
Defined.
