(* ===== verification/WriterAccount.v ===== *)
(** Accounting for acknowledgements: every Mutate the stream accepts is answered by exactly one
    CatchupComplete that echoes its mutate_id, immediately or when its wave completes, whichever
    way the wave ends (its scans drain, or its topics are removed). *)

From S2P Require Import Prelude Topic Types Frames Writer WriterLogic WriterInv Sample.

(** The CatchupComplete frames of an id, and the waves in flight under it. *)
Definition completionsIn (id : Z) (frames : list SubscribeResponse) : Z :=
  count (λ f, f = CatchupComplete id) frames.

Definition completions (id : Z) (st : writer) : Z := completionsIn id (outbound st).

Definition inFlight (id : Z) (st : writer) : Z :=
  map_sum (λ w, if decide (mutateID w = id) then 1 else 0) (waves st).

(** What the stream has answered or still owes for an id. *)
Definition owed (id : Z) (st : writer) : Z := completions id st + inFlight id st.

(** The Mutates an event carries under an id. *)
Definition mutates (id : Z) (ev : event) : Z :=
  match ev with
  | EvRequest (Some (ReqMutate m)) => if decide (mu_MutateId m = id) then 1 else 0
  | _ => 0
  end.

Definition mutatesIn (id : Z) (evs : list event) : Z := foldr (λ ev acc, mutates id ev + acc) 0 evs.

Lemma completionsIn_app id fs1 fs2 :
  completionsIn id (fs1 ++ fs2) = completionsIn id fs1 + completionsIn id fs2.
Proof. apply count_app. Qed.

Lemma completionsIn_self id id' :
  completionsIn id (catchupCompleteFrame id') = if decide (id' = id) then 1 else 0.
Proof.
  unfold completionsIn, catchupCompleteFrame. rewrite count_cons, count_nil.
  repeat case_decide; (lia || congruence).
Qed.

Lemma completionsIn_messages {A} id (mk : list A → SubscribeResponse) parts :
  (∀ p, mk p ≠ CatchupComplete id) → completionsIn id (mk <$> parts) = 0.
Proof.
  intros Hmk. apply count_none. intros f (p & -> & _)%list_elem_of_fmap. apply Hmk.
Qed.

(** A handler that returns nil has nothing left to answer. *)
Definition graceful (id k : Z) (st : writer) : option error → writer → Prop :=
  λ r st', r = None → owed id st' = owed id st + k ∧ waves st' = ∅.

Section Accounting.
Context (cfg : tunables) (net : nat → send_result) (drain : flush_result).
Context (unmarshalGroup : bytes → option GroupMessage).
Context (unmarshalWelcome : bytes → option WelcomeMessage).
Context (alive : ∀ i, net i ≠ SendStreamDone) (id : Z).

(** [m] adds [k] to what is owed. *)
Definition adds {A} (m : M A) (k : Z) : Prop :=
  ∀ st, wp m (λ _ st', owed id st' = owed id st + k) (graceful id k st) st.

Lemma adds_bind {A B} (m : M A) (f : A → M B) k1 k2 :
  (∀ st, wp m (λ _ st', owed id st' = owed id st + k1) (λ r _, r ≠ None) st) →
  (∀ a, adds (f a) k2) → adds (m ≫= f) (k1 + k2).
Proof.
  intros Hm Hf st. specialize (Hm st). unfold wp, mbind, M_bind in *.
  destruct (m st) as [[a|r] st1].
  - specialize (Hf a st1). unfold wp in Hf. destruct (f a st1) as [[b|r] st2].
    + lia.
    + intros Hr. destruct (Hf Hr). split; [lia|done].
  - done.
Qed.

Lemma send_adds flat st :
  wp (send net flat) (λ _ st', owed id st' = owed id st + completionsIn id flat ∧
    waves st' = waves st) (λ r _, r ≠ None) st.
Proof.
  unfold send, wp. destruct flat as [|f flat]; [split; [unfold completionsIn; rewrite count_nil; lia|done]|].
  simpl. specialize (alive (length (sendLog st))). destruct (net (length (sendLog st))); try done.
  split; [|done]. unfold owed, completions, inFlight. simpl. rewrite completionsIn_app. lia.
Qed.

(** The frame builders change no wave and build no CatchupComplete. *)
Lemma groupFrames_adds msgs mid st :
  wp (groupFrames cfg msgs mid) (λ fs st', owed id st' = owed id st ∧ waves st' = waves st ∧
    completionsIn id fs = 0) (λ r _, r ≠ None) st.
Proof.
  unfold groupFrames, wp, buildGroupFrames.
  destruct (buildFrames_spec groupKey groupID groupSize (λ ms, Messages ms [] mid)
    (maxFrameBytes cfg) (highWaterMarks st) msgs) as (parts & -> & _).
  split_and!; [done..|]. by apply completionsIn_messages.
Qed.

Lemma welcomeFrames_adds msgs mid st :
  wp (welcomeFrames cfg msgs mid) (λ fs st', owed id st' = owed id st ∧ waves st' = waves st ∧
    completionsIn id fs = 0) (λ r _, r ≠ None) st.
Proof.
  unfold welcomeFrames, wp, buildWelcomeFrames.
  destruct (buildFrames_spec welcomeKey welcomeID welcomeSize (λ ms, Messages [] ms mid)
    (maxFrameBytes cfg) (highWaterMarks st) msgs) as (parts & -> & _).
  split_and!; [done..|]. by apply completionsIn_messages.
Qed.

Lemma historyFrames_adds b mid st :
  wp (historyFrames cfg b mid) (λ fs st', owed id st' = owed id st ∧ waves st' = waves st ∧
    completionsIn id fs = 0) (λ r _, r ≠ None) st.
Proof.
  unfold historyFrames. wp_steps.
  destruct (cb_groupMsgs b); [destruct (cb_welcomeMsgs b); [done|]|];
    [apply welcomeFrames_adds|apply groupFrames_adds].
Qed.

Lemma liveFrames_adds env st :
  wp (liveFrames cfg unmarshalGroup unmarshalWelcome env)
    (λ fs st', owed id st' = owed id st ∧ waves st' = waves st ∧
    completionsIn id fs = 0) (λ r _, r ≠ None) st.
Proof.
  unfold liveFrames. destruct (IsMLSV1Welcome _).
  - destruct (unmarshalWelcome _); [apply welcomeFrames_adds|done].
  - destruct (unmarshalGroup _); [apply groupFrames_adds|done].
Qed.

(** Removing a topic either keeps its wave owed or answers it. *)
Lemma forgetTopic_owed t st : owed id (forgetTopic t st) = owed id st.
Proof.
  unfold owed, completions, inFlight. destruct (forgetTopic_waves t st) as [_ ->].
  f_equal. unfold forgetTopic. by repeat case_bool_decide.
Qed.

Lemma releaseTopic_owed t st :
  owed id (releaseTopic t st) + completionsIn id (releasedFrames t st) = owed id st.
Proof.
  rewrite <- (forgetTopic_owed t st). unfold releaseTopic, releasedFrames.
  destruct (forgetTopic_waves t st) as [<- <-]. generalize (forgetTopic t st). clear st.
  intros st. assert (H0 : completionsIn id [] = 0) by done.
  destruct (topicWave st !! t) as [w|]; [|lia]. simpl.
  destruct (waves st !! w) as [ws|] eqn:Hw;
    [|rewrite H0; unfold owed, completions, inFlight; simpl; lia].
  case_bool_decide; unfold owed, completions, inFlight; simpl.
  - rewrite map_sum_insert, Hw, H0. simpl. lia.
  - rewrite map_sum_delete, Hw, completionsIn_self. simpl. lia.
Qed.

Lemma dropTopic_adds t st :
  wp (dropTopic net t) (λ _ st', owed id st' = owed id st + 0) (λ r _, r ≠ None) st.
Proof.
  unfold wp. rewrite dropTopic_eq.
  pose proof (send_adds (releasedFrames t st) (releaseTopic t st)) as H. unfold wp in H.
  destruct (send _ _ _) as [[[]|r] st']; [|done]. destruct H as [-> _].
  rewrite releaseTopic_owed. lia.
Qed.

Lemma forEach_adds {A} (f : A → M unit) l :
  (∀ a st, wp (f a) (λ _ st', owed id st' = owed id st + 0) (λ r _, r ≠ None) st) →
  ∀ st, wp (forEach f l) (λ _ st', owed id st' = owed id st + 0) (λ r _, r ≠ None) st.
Proof.
  intros Hf. induction l as [|a l IH]; intros st; simpl; [wp_steps; lia|].
  wp_steps. eapply wp_mono; [apply Hf|]. intros [] st1 H1. simpl.
  eapply wp_mono; [apply IH|]. intros [] st2 H2. simpl in *. lia.
Qed.

Lemma openTopic_owed ho t c st : owed id (openTopic ho t c st) = owed id st.
Proof. unfold openTopic. by destruct ho. Qed.

Lemma applyAdds_adds ho m order acc st :
  wp (applyAdds net ho m order acc) (λ _ st', owed id st' = owed id st + 0)
    (λ r _, r ≠ None) st.
Proof.
  revert acc st. induction order as [|t order IH]; intros acc st; simpl; [wp_steps; lia|].
  destruct (m !! t) as [a|]; [|apply IH]. wp_steps.
  apply (wp_mono _ (λ _ st', owed id st' = owed id st + 0)).
  - unfold applyAdd. wp_steps. repeat (apply wp_if; intros _; [try done; wp_steps; lia|]).
    wp_steps. apply (wp_mono _ (λ _ st', owed id st' = owed id st + 0)).
    + apply wp_if; intros _; [apply dropTopic_adds|wp_steps; lia].
    + intros [] st1 H1. wp_steps. by rewrite openTopic_owed.
  - intros acc1 st1 H1. eapply wp_mono; [apply IH|]. intros acc2 st2 H2. simpl in *. lia.
Qed.

Lemma startWave_owed mid acc st :
  waves st !! nextWave st = None →
  owed id (startWave mid acc st) = owed id st + (if decide (mid = id) then 1 else 0).
Proof.
  intros Hf. unfold owed, completions, inFlight, startWave. simpl.
  rewrite map_sum_insert, Hf. simpl. case_decide; lia.
Qed.

Lemma wf_upto_fresh new n st : wf_upto new n None st → waves st !! nextWave st = None.
Proof.
  intros W. destruct (waves st !! nextWave st) eqn:E; [|done].
  destruct (wf_waves W _ _ E); [done|]. lia.
Qed.

Lemma countLive_owed n st : owed id (countLive n st) = owed id st.
Proof. unfold countLive. by case_bool_decide. Qed.

Lemma handleMutate_owed m st :
  wf st → halfClosed st = false →
  wp (handleMutate cfg net m)
    (λ _ st', owed id st' = owed id st + (if decide (mu_MutateId m = id) then 1 else 0))
    (λ r _, r ≠ None) st.
Proof.
  intros W Hh. unfold handleMutate. wp_steps.
  destruct (validateMutate cfg m st) as [[]|e] eqn:Hv; [|done].
  apply validateMutate_ok in Hv as [Hadds Hu].
  destruct (parseAdds ([], ∅) (mu_Adds m)) as [[order byTopic]|e] eqn:Hp; [|done].
  apply parseAdds_parsed in Hp; [|apply parsed_nil].
  assert (Hid : unused (mu_MutateId m) st).
  { destruct (decide (mu_MutateId m = 0)) as [->|]; [by apply wf_unused|auto]. }
  apply (wp_assoc _ (λ _, applyAdds net _ byTopic order noAdds)), wp_bind.
  eapply wp_conseq; [apply wp_conj; [by apply wp_applyMutate|]| |].
  - instantiate (1 := λ r _, r ≠ None).
    instantiate (1 := λ _ st', owed id st' = owed id st + 0). wp_steps.
    eapply wp_mono; [apply forEach_adds|].
    + intros wire st1. unfold applyRemove.
      destruct (splitTopic wire) as [[kind i]|]; [|done]. apply dropTopic_adds.
    + intros [] st1 H1. eapply wp_mono; [apply applyAdds_adds|].
      intros acc st2 H2. simpl in *. lia.
  - intros acc st1 [[[[W1 _] _] _] H1]. simpl. wp_steps.
    apply wp_if; intros _; wp_steps.
    + rewrite startWave_owed, countLive_owed; [lia|].
      unfold countLive. case_bool_decide; by apply wf_upto_fresh in W1.
    + eapply wp_mono; [apply send_adds|]. intros [] st2 [H2 _].
      rewrite H2, countLive_owed, completionsIn_self. lia.
  - by intros r st1 [_ ?].
Qed.

(** Settling a wave's topics touches neither the waves nor what was sent. *)
Lemma settleTopics_owed wave topics wire acc st :
  let st' := (settleTopics unmarshalGroup unmarshalWelcome wave topics wire acc st).2 in
  owed id st' = owed id st ∧ waves st' = waves st.
Proof.
  revert wire acc st. induction topics as [|t topics IH]; intros [|b wire] acc st; try done.
  simpl. destruct (settleTopic _ _ _ _ _ _ _) as [acc1 st1] eqn:E.
  assert (H1 : owed id st1 = owed id st ∧ waves st1 = waves st).
  { revert E. unfold settleTopic. case_bool_decide; [by intros [= <- <-]|].
    cbv zeta. case_bool_decide; [by intros [= <- <-]|].
    destruct (decodePending _ _ _ _). by intros [= <- <-]. }
  destruct (IH wire acc1 st1) as [H2 H3]. simpl in *. rewrite H2, H3. done.
Qed.

Lemma completeWave_owed wave w st w0 :
  waves st !! wave = Some w0 → mutateID w = mutateID w0 →
  wp (completeWave cfg net unmarshalGroup unmarshalWelcome wave w)
    (λ _ st', owed id st' = owed id st ∧ waves st' = delete wave (waves st))
    (λ r _, r ≠ None) st.
Proof.
  intros Hw Hid. unfold completeWave, settle. wp_steps. unfold wp at 1.
  pose proof (settleTopics_owed wave (w_topics w) (w_wire w)
    {| s_groups := []; s_welcomes := []; s_marker := [] |} st) as Hs.
  destruct (settleTopics _ _ _ _ _ _ _) as [acc st1]. simpl in *. destruct Hs as [H1 Hw1].
  wp_steps. eapply wp_mono; [apply groupFrames_adds|]. intros gf st2 (H2 & Hw2 & Hgf).
  wp_steps. eapply wp_mono; [apply welcomeFrames_adds|]. intros wf' st3 (H3 & Hw3 & Hwf).
  eapply wp_mono; [apply send_adds|]. intros [] st4 [H4 Hw4].
  rewrite Hw4, Hw3, Hw2. simpl. rewrite Hw1. split; [|done].
  rewrite H4, H3, H2, !completionsIn_app, Hgf, Hwf, completionsIn_self, Hid, <- H1.
  unfold owed, completions, inFlight. simpl. rewrite Hw1, map_sum_delete, Hw. simpl.
  assert (completionsIn id match s_marker acc with [] => [] | topics => [TopicsLive topics] end
    = 0) as -> by (unfold completionsIn; destruct (s_marker acc);
      rewrite ?count_cons, ?count_nil; [done|by rewrite decide_False]).
  lia.
Qed.

Lemma scanDone_owed wave w st :
  waves st !! wave = Some w →
  wp (scanDone cfg net drain unmarshalGroup unmarshalWelcome wave w)
    (λ _ st', owed id st' = owed id st) (graceful id 0 st) st.
Proof.
  intros Hw. unfold scanDone. apply wp_if; intros _.
  - wp_steps. unfold owed, completions, inFlight. simpl. rewrite map_sum_insert, Hw. simpl. lia.
  - wp_steps. eapply wp_conseq; [by apply (completeWave_owed _ _ _ w)| |by intros r st1 ? ->].
    intros [] st1 [H1 Hw1]. wp_steps. apply wp_if; intros C; wp_steps; [|done].
    intros _. apply andb_true_iff in C as [_ C%bool_decide_eq_true]. split; [lia|done].
Qed.

Lemma handleBatch_owed b st :
  wp (handleBatch cfg net drain unmarshalGroup unmarshalWelcome b)
    (λ _ st', owed id st' = owed id st) (graceful id 0 st) st.
Proof.
  unfold handleBatch. destruct (cb_err b); [done|]. wp_steps. simpl.
  destruct (waves st !! cb_wave b) as [w|] eqn:Hw; [|done].
  apply wp_bind. eapply wp_conseq; [apply historyFrames_adds| |by intros r st1 ? ->].
  intros fs st1 (H1 & Hw1 & Hfs). apply wp_bind.
  eapply wp_conseq; [apply send_adds| |by intros r st2 ? ->].
  intros [] st2 [H2 Hw2]. simpl in *.
  assert (E : owed id st2 = owed id st) by (rewrite H2, H1, Hfs; unfold owed, completions, inFlight; simpl; lia).
  apply wp_if; intros _; [|wp_steps; done].
  eapply wp_conseq; [apply (scanDone_owed _ w); by rewrite Hw2, Hw1| |].
  - intros [] st3 H3. lia.
  - intros r st3 Hg Hr. destruct (Hg Hr). split; [lia|done].
Qed.

(** Each event changes what the stream has answered or owes by the Mutates it carries. *)
Lemma handle_owed ev st :
  wf st → enabled st ev → ev ≠ EvStreamDone →
  wp (handle cfg net drain unmarshalGroup unmarshalWelcome ev)
    (λ _ st', owed id st' = owed id st + mutates id ev) (graceful id (mutates id ev) st) st.
Proof.
  intros W Hen Hev.
  assert (Hk : ∀ k r st', r ≠ None → graceful id k st r st') by (intros k r st' Hr ?; done).
  assert (Hsend : ∀ f, completionsIn id [f] = 0 →
    wp (send net [f]) (λ _ st', owed id st' = owed id st + 0) (graceful id 0 st) st).
  { intros f Hf. eapply wp_conseq; [apply send_adds| |by intros; apply Hk].
    intros [] st' [-> _]. by rewrite Hf. }
  destruct ev as [| |e|req|r|b|env| |now sent]; try done; simpl in *.
  - destruct req as [[m|n|n|]|]; try done; simpl.
    + eapply wp_conseq; [by apply handleMutate_owed|done|by intros; apply Hk].
    + by apply Hsend.
    + wp_steps. case_bool_decide; unfold owed, completions, inFlight; simpl; lia.
    + wp_steps. lia.
  - unfold handleRequestsClosed. destruct r; [done|]. wp_steps. apply wp_if; intros C; wp_steps.
    + intros _. apply bool_decide_eq_true in C. split; [lia|done].
    + unfold owed, completions, inFlight. simpl. lia.
  - eapply wp_mono; [apply handleBatch_owed|]. intros [] st' ->. lia.
  - unfold handleEnvelope. wp_steps. apply wp_if; intros _.
    + wp_steps. apply wp_if; intros _; [done|]. wp_steps.
      unfold owed, completions, inFlight. simpl. lia.
    + apply wp_bind. eapply wp_conseq; [apply liveFrames_adds| |by intros; apply Hk].
      intros fs st1 (H1 & _ & Hfs).
      eapply wp_conseq; [apply send_adds| |by intros; apply Hk].
      intros [] st2 [H2 _]. lia.
  - unfold handlePingTick. wp_steps. apply wp_if; intros _; [wp_steps; lia|].
    apply wp_if; intros _; [apply wp_if; intros _; [done|wp_steps; lia]|].
    apply wp_if; intros _; wp_steps; [|lia].
    eapply wp_conseq; [apply send_adds| |by intros; apply Hk].
    intros [] st1 [H1 _]. wp_steps. unfold owed, completions, inFlight in *. simpl in *.
    rewrite H1. done.
Qed.
End Accounting.

Lemma steps_owed cfg net drain ug uw (alive : ∀ i, net i ≠ SendStreamDone) id evs st st' :
  wf st → steps cfg net drain ug uw evs st st' → owed id st' = owed id st + mutatesIn id evs.
Proof.
  revert evs st st'. apply steps_ind_wf; simpl; [intros; lia|].
  intros ev evs st st1 st' W Hen Hev _ IH.
  assert (ev ≠ EvStreamDone) by (intros ->; done).
  pose proof (wp_cont _ _ _ _ _ _ (handle_owed cfg net drain ug uw
    alive id ev st W Hen ltac:(done)) Hev) as H1. simpl in H1. lia.
Qed.

Lemma trace_owed cfg net drain ug uw (alive : ∀ i, net i ≠ SendStreamDone) id evs st :
  trace cfg net drain ug uw evs st → owed id st = mutatesIn id evs.
Proof.
  intros (now & st0 & Ho & Hs). pose proof (open_wf _ _ _ _ Ho) as W.
  rewrite (steps_owed _ _ _ _ _ alive id _ _ _ W Hs). unfold open in Ho.
  pose proof (send_adds net alive id (startedFrame cfg) (initWriter now)) as H.
  apply (wp_cont _ _ _ _ _ _ H) in Ho as [-> _]. done.
Qed.

Lemma mutatesIn_snoc id evs ev : mutatesIn id (evs ++ [ev]) = mutatesIn id evs + mutates id ev.
Proof. unfold mutatesIn. induction evs; simpl; lia. Qed.

(** C4. Every Mutate is answered by exactly one CatchupComplete: on a stream whose context lives,
    after any sequence of events the handler went on through, the CatchupComplete frames sent
    with an id and the waves in flight under it together are exactly the Mutates received with
    that id. *)
Theorem mutate_answered_once cfg net drain unmarshalGroup unmarshalWelcome evs st id :
  (∀ i, net i ≠ SendStreamDone) →
  trace cfg net drain unmarshalGroup unmarshalWelcome evs st →
  completions id st + inFlight id st = mutatesIn id evs.
Proof. intros alive Ht. exact (trace_owed _ _ _ _ _ alive id _ _ Ht). Qed.

Lemma mutate_answered_once_witness :
  completions 5 (runS subscribeEvents) + inFlight 5 (runS subscribeEvents) = 1 ∧
  inFlight 5 (runS subscribeEvents) = 1 ∧ completions 5 (runS sessionEvents) = 1.
Proof.
  split; [|split; vm_compute; reflexivity].
  apply (mutate_answered_once defaultTunables allAccepted Drained unmarshalGroupSample
    unmarshalWelcomeSample subscribeEvents); [exact allAccepted_alive|].
  apply trace_runS. vm_compute. by eexists.
Defined.

(** At a nil return nothing is left to answer. *)
Lemma returns_answered cfg net drain ug uw evs ev st id :
  (∀ i, net i ≠ SendStreamDone) → ev ≠ EvStreamDone → returns cfg net drain ug uw evs ev None st →
  waves st = ∅ ∧ completions id st = mutatesIn id (evs ++ [ev]).
Proof.
  intros alive Hev (st1 & Ht & Hen & Hh).
  destruct (wp_exit _ _ _ _ _ _ (handle_owed cfg net drain ug uw
    alive id ev st1 (trace_wf _ _ _ _ _ _ _ Ht) Hen Hev) Hh eq_refl) as [H1 Hw].
  split; [done|]. rewrite mutatesIn_snoc, <- (trace_owed _ _ _ _ _ alive id _ _ Ht), <- H1.
  unfold owed, inFlight. rewrite Hw, map_sum_empty. lia.
Qed.

(** A graceful close leaves nothing unanswered: when the handler returns nil other than for
    a dead stream, no wave is in flight and every Mutate it received has had its
    CatchupComplete. *)
Theorem graceful_close_answers_all cfg net drain unmarshalGroup unmarshalWelcome evs ev st id :
  (∀ i, net i ≠ SendStreamDone) → ev ≠ EvStreamDone →
  returns cfg net drain unmarshalGroup unmarshalWelcome evs ev None st →
  waves st = ∅ ∧ completions id st = mutatesIn id (evs ++ [ev]).
Proof. apply returns_answered. Qed.

Lemma graceful_close_answers_all_witness :
  let st := (handleS (doneBatch 0%nat) (runS (subscribeEvents ++ [EvRequestsClosed None]))).2 in
  waves st = ∅ ∧
  completions 5 st = mutatesIn 5 ((subscribeEvents ++ [EvRequestsClosed None]) ++ [doneBatch 0%nat]).
Proof.
  apply (graceful_close_answers_all defaultTunables allAccepted Drained unmarshalGroupSample
    unmarshalWelcomeSample); [exact allAccepted_alive|done|].
  exists (runS (subscribeEvents ++ [EvRequestsClosed None])). split; [|split; [done|]].
  - apply trace_runS. vm_compute. by eexists.
  - vm_compute. reflexivity.
Defined.
