(* ===== verification/WriterOrder.v ===== *)
(** Delivery order: for a live topic, the ids the stream sends ascend strictly, from above the
    topic's floor up to it, through catch-up and live delivery alike, as long as no Mutate names
    the topic. *)

From S2P Require Import Prelude Topic Types Frames Writer WriterLogic WriterInv Sample.

(** The ids of a topic's messages in a list of frames, in the order they are sent. *)
Definition deliveredBy (t : string) (f : SubscribeResponse) : list Z :=
  match f with
  | Messages gs ws _ => idsFor groupKey groupID t gs ++ idsFor welcomeKey welcomeID t ws
  | _ => []
  end.

Definition deliveredIn (t : string) (fs : list SubscribeResponse) : list Z :=
  concat (deliveredBy t <$> fs).

(** The ids ascend strictly, above [lo] and at most [hi]. *)
Definition rising (lo : Z) (ids : list Z) (hi : Z) : Prop :=
  lo ≤ hi ∧ StronglySorted Z.lt ids ∧ ∀ i, i ∈ ids → lo < i ≤ hi.

Lemma rising_nil lo hi : lo ≤ hi → rising lo [] hi.
Proof. intros. split; [done|]. split; [constructor|]. by intros i ?%elem_of_nil. Qed.

Lemma rising_app lo ids1 mid ids2 hi :
  rising lo ids1 mid → rising mid ids2 hi → rising lo (ids1 ++ ids2) hi.
Proof.
  intros (H1 & S1 & B1) (H2 & S2 & B2). split; [lia|]. split.
  - apply StronglySorted_app. split_and!; [|done|done].
    intros i j Hi Hj. specialize (B1 i Hi). specialize (B2 j Hj). lia.
  - intros i [Hi|Hi]%elem_of_app; [specialize (B1 i Hi)|specialize (B2 i Hi)]; lia.
Qed.

Lemma climb_rising lo ids hi : climb lo ids hi → rising lo ids hi.
Proof.
  intros H. pose proof (climb_le _ _ _ H) as [? ?]. split; [done|].
  split; [by eapply climb_sorted|done].
Qed.

Lemma rising_NoDup lo ids hi : rising lo ids hi → NoDup ids.
Proof.
  intros (_ & H & _). induction H as [|i ids _ IH Hi]; constructor; [|done].
  intros Hin. rewrite Forall_forall in Hi. specialize (Hi i Hin). lia.
Qed.

Lemma deliveredIn_app t fs1 fs2 : deliveredIn t (fs1 ++ fs2) = deliveredIn t fs1 ++ deliveredIn t fs2.
Proof. unfold deliveredIn. by rewrite fmap_app, concat_app. Qed.

Lemma deliveredIn_parts {M} (key : M → string) (id : M → Z) (mk : list M → SubscribeResponse) t :
  (∀ p, deliveredBy t (mk p) = idsFor key id t p) →
  ∀ parts, deliveredIn t (mk <$> parts) = idsFor key id t (concat parts).
Proof.
  intros Hmk parts. induction parts as [|p parts IH]; [done|].
  unfold deliveredIn in *. rewrite !fmap_cons. cbn [concat].
  by rewrite IH, Hmk, idsFor_app.
Qed.

(** The Mutate's topics. *)
Definition named (m : Mutate) : list string :=
  omap wireTopic (add_Topic <$> mu_Adds m) ++ omap wireTopic (mu_Removes m).

Definition names (t : string) (ev : event) : Prop :=
  match ev with
  | EvRequest (Some (ReqMutate m)) => t ∈ named m
  | _ => False
  end.

Definition topicFloor (t : string) (st : writer) : Z := floorOf (highWaterMarks st) t.

(** From [st] to [st'] the stream sends [t]'s messages in order, and keeps a live [t] live. *)
Definition delivers (t : string) (st st' : writer) : Prop :=
  t ∈ subscribed st →
  t ∈ subscribed st' ∧ ∃ fs, outbound st' = outbound st ++ fs ∧
    rising (topicFloor t st) (deliveredIn t fs) (topicFloor t st').

#[export] Instance delivers_preorder t : PreOrder (delivers t).
Proof.
  split.
  - intros st Hs. split; [done|]. exists []. rewrite app_nil_r. split; [done|].
    by apply rising_nil.
  - intros a b c H1 H2 Ha. destruct (H1 Ha) as [Hb (fs1 & E1 & R1)].
    destruct (H2 Hb) as [Hc (fs2 & E2 & R2)]. split; [done|]. exists (fs1 ++ fs2).
    rewrite E2, E1, app_assoc, deliveredIn_app. eauto using rising_app.
Qed.

(** A step that sends nothing and leaves the topic's floor and registration alone. *)
Lemma delivers_quiet t st st' :
  outbound st' = outbound st → topicFloor t st' = topicFloor t st →
  (t ∈ subscribed st → t ∈ subscribed st') → delivers t st st'.
Proof.
  intros Ho Hf Hs Ht. split; [auto|]. exists []. rewrite Ho, Hf, app_nil_r.
  split; [done|by apply rising_nil].
Qed.

(** Frames built but not yet sent. *)
Definition framed (t : string) (fs : list SubscribeResponse) (st st' : writer) : Prop :=
  outbound st' = outbound st ∧ (t ∈ subscribed st → t ∈ subscribed st') ∧
  rising (topicFloor t st) (deliveredIn t fs) (topicFloor t st').

Lemma framed_quiet t st st' :
  outbound st' = outbound st → subscribed st' = subscribed st →
  highWaterMarks st' = highWaterMarks st → framed t [] st st'.
Proof.
  intros Ho Hs Hh. split; [done|]. rewrite Hs. split; [done|]. apply rising_nil.
  unfold topicFloor. by rewrite Hh.
Qed.

Lemma framed_refl t st : framed t [] st st.
Proof. by apply framed_quiet. Qed.

Lemma framed_app t fs1 fs2 a b c :
  framed t fs1 a b → framed t fs2 b c → framed t (fs1 ++ fs2) a c.
Proof.
  intros (O1 & S1 & R1) (O2 & S2 & R2). split; [by rewrite O2|]. split; [auto|].
  rewrite deliveredIn_app. eauto using rising_app.
Qed.

Section Order.
Context (cfg : tunables) (net : nat → send_result) (drain : flush_result).
Context (unmarshalGroup : bytes → option GroupMessage).
Context (unmarshalWelcome : bytes → option WelcomeMessage).
Context (t : string).

(** Whatever becomes of a send, what it was given is in order. *)
Lemma send_delivers fs st st1 : framed t fs st st1 → delivers t st (send net fs st1).2.
Proof.
  intros (Ho & Hs & Hr) Ht. pose proof (Hr) as (Hle & _ & _).
  assert (Hq : ∀ st2, outbound st2 = outbound st1 → topicFloor t st2 = topicFloor t st1 →
    subscribed st2 = subscribed st1 → t ∈ subscribed st2 ∧ ∃ fs, outbound st2 = outbound st ++ fs
    ∧ rising (topicFloor t st) (deliveredIn t fs) (topicFloor t st2)).
  { intros st2 E1 E2 E3. rewrite E3. split; [auto|]. exists []. rewrite E1, E2, Ho, app_nil_r.
    split; [done|by apply rising_nil]. }
  unfold send. destruct fs as [|f fs]; [by apply Hq|]. simpl.
  destruct (net (length (sendLog st1))); try by apply Hq.
  simpl. split; [auto|]. exists (f :: fs). by rewrite Ho.
Qed.

Lemma send_plain_delivers fs st :
  deliveredIn t fs = [] → delivers t st (send net fs st).2.
Proof.
  intros Hf. apply send_delivers. split; [done|]. split; [done|]. rewrite Hf. by apply rising_nil.
Qed.

Lemma groupFrames_framed msgs mid st :
  wp (groupFrames cfg msgs mid) (λ fs, framed t fs st) noExit st.
Proof.
  unfold groupFrames, wp, buildGroupFrames.
  destruct (buildFrames_spec groupKey groupID groupSize (λ ms, Messages ms [] mid)
    (maxFrameBytes cfg) (highWaterMarks st) msgs) as (parts & -> & Hc & _).
  split; [done|]. split; [done|].
  rewrite (deliveredIn_parts groupKey groupID) by (intros p; apply app_nil_r).
  rewrite Hc. apply climb_rising, fresh_climb.
Qed.

Lemma welcomeFrames_framed msgs mid st :
  wp (welcomeFrames cfg msgs mid) (λ fs, framed t fs st) noExit st.
Proof.
  unfold welcomeFrames, wp, buildWelcomeFrames.
  destruct (buildFrames_spec welcomeKey welcomeID welcomeSize (λ ms, Messages [] ms mid)
    (maxFrameBytes cfg) (highWaterMarks st) msgs) as (parts & -> & Hc & _).
  split; [done|]. split; [done|].
  rewrite (deliveredIn_parts welcomeKey welcomeID) by done.
  rewrite Hc. apply climb_rising, fresh_climb.
Qed.

(** Mutates about other topics. *)
Lemma forgetTopic_delivers t' st : t' ≠ t → delivers t st (forgetTopic t' st).
Proof.
  intros Hne. apply delivers_quiet; unfold forgetTopic; repeat case_bool_decide; simpl; try done.
  all: try (unfold topicFloor, floorOf; simpl; by rewrite lookup_delete_ne).
  all: set_solver.
Qed.

Lemma releaseTopic_delivers t' st : t' ≠ t → delivers t st (releaseTopic t' st).
Proof.
  intros Hne. etrans; [by apply (forgetTopic_delivers t')|].
  apply delivers_quiet; unfold releaseTopic; destruct (topicWave (forgetTopic t' st) !! t');
    try done; simpl; destruct (waves (forgetTopic t' st) !! _); try done; by case_bool_decide.
Qed.

Lemma dropTopic_delivers t' : t' ≠ t → stays (delivers t) (dropTopic net t').
Proof.
  intros Hne st. rewrite dropTopic_eq. etrans; [by apply (releaseTopic_delivers t')|].
  apply send_plain_delivers. unfold releasedFrames. destruct (topicWave st !! t'); [|done].
  destruct (waves st !! _); [|done]. by case_bool_decide.
Qed.

Lemma applyAdd_delivers ho t' a acc : t' ≠ t → stays (delivers t) (applyAdd net ho t' a acc).
Proof.
  intros Hne. unfold applyAdd. stays_steps; try by apply dropTopic_delivers.
  all: apply delivers_quiet; unfold openTopic; destruct ho; simpl; try done.
  all: try (unfold topicFloor, floorOf; simpl; by rewrite lookup_insert_ne).
  all: set_solver.
Qed.

Lemma applyAdds_delivers ho m order acc :
  t ∉ order → stays (delivers t) (applyAdds net ho m order acc).
Proof.
  revert acc. induction order as [|t' order IH]; intros acc Hn; simpl; [apply stays_ret, _|].
  apply not_elem_of_cons in Hn as [Hne Hn].
  destruct (m !! t'); [|by apply IH]. apply stays_bind; [apply _|by apply applyAdd_delivers|].
  intros acc'. by apply IH.
Qed.

(** A parsed add's topic is one the Mutate names. *)
Lemma parseAdds_named adds p order byTopic :
  parseAdds p adds = Ok (order, byTopic) →
  ∀ t, t ∈ order → t ∈ p.1 ∨ t ∈ omap wireTopic (add_Topic <$> adds).
Proof.
  revert p. induction adds as [|add adds IH]; intros p; simpl; [intros [= ->]; auto|].
  destruct p as [o m]. unfold parseAdd, wireTopic.
  destruct (splitTopic (add_Topic add)) as [[kind i]|]; [|done].
  destruct (m !! buildMLSTopic kind i); [case_bool_decide|]; intros Hp x Hx;
    destruct (IH _ Hp x Hx) as [Hin|Hin]; simpl in *; rewrite ?elem_of_cons; auto.
  apply elem_of_app in Hin as [?| ->%list_elem_of_singleton]; auto.
Qed.

Lemma handleMutate_delivers m : t ∉ named m → stays (delivers t) (handleMutate cfg net m).
Proof.
  intros Hn. unfold named in Hn. rewrite elem_of_app in Hn. unfold handleMutate.
  apply stays_bind; [apply _|apply stays_gets, _|]. intros v. destruct v; [|apply stays_fail, _].
  destruct (parseAdds ([], ∅) (mu_Adds m)) as [[order byTopic]|e] eqn:Hp;
    [|apply stays_fail, _].
  apply stays_bind; [apply _|apply stays_forEach; [apply _|]|intros _].
  { intros wire Hw. unfold applyRemove.
    destruct (splitTopic wire) as [[kind i]|] eqn:E; [|apply stays_fail, _].
    apply dropTopic_delivers. intros Heq. apply Hn. right. apply list_elem_of_omap.
    exists wire. unfold wireTopic. by rewrite E, Heq. }
  apply stays_bind; [apply _|apply applyAdds_delivers|intros acc].
  { intros Hin. destruct (parseAdds_named _ _ _ _ Hp t Hin) as [?%elem_of_nil|?]; tauto. }
  stays_steps.
  - apply delivers_quiet; unfold countLive; by case_bool_decide.
  - by apply delivers_quiet.
  - intros st. by apply send_plain_delivers.
Qed.

(** A history_only topic's floor goes with its wave; a live topic is gated until then, so its
    floor stays. *)
Lemma settleTopic_framed wave t' wire acc st :
  wf_upto [] 0 (Some wave) st → t ∈ subscribed st →
  framed t [] st (settleTopic unmarshalGroup unmarshalWelcome wave t' wire acc st).2.
Proof.
  intros W Ht. unfold settleTopic. case_bool_decide as Hw; [apply framed_refl|]. cbv zeta.
  case_bool_decide as Hc; [|destruct (decodePending _ _ _ _); by apply framed_quiet].
  split; [done|]. split; [done|]. assert (t' ≠ t).
  { intros ->. apply Hc. simpl. apply (wf_wave_gate W); [done|]. left. by eexists. }
  simpl. unfold topicFloor, floorOf. simpl. rewrite lookup_delete_ne by done.
  by apply rising_nil.
Qed.

Lemma settleTopics_framed wave topics wire acc st :
  settling wave st st → t ∈ subscribed st →
  framed t [] st (settleTopics unmarshalGroup unmarshalWelcome wave topics wire acc st).2.
Proof.
  revert wire acc st. induction topics as [|t' topics IH]; intros [|b wire] acc st Hst Ht;
    try apply framed_refl. simpl.
  destruct (settleTopic_settling unmarshalGroup unmarshalWelcome wave t' b acc st st Hst)
    as [(W1 & _) _].
  pose proof (settleTopic_framed wave t' b acc st (proj1 Hst) Ht) as Hf.
  destruct (settleTopic _ _ _ _ _ _ _) as [acc1 st1]. simpl in *.
  apply (framed_app t [] [] _ st1); [done|]. destruct Hf as (_ & Hs & _).
  apply IH; [by split_and!|auto].
Qed.

Lemma completeWave_delivers wave w st :
  wf_upto [] 0 (Some wave) st → t ∈ subscribed st →
  wp (completeWave cfg net unmarshalGroup unmarshalWelcome wave w)
    (λ _, delivers t st) noExit st.
Proof.
  intros W Ht. unfold completeWave, settle. wp_steps. unfold wp at 1.
  pose proof (settleTopics_framed wave (w_topics w) (w_wire w)
    {| s_groups := []; s_welcomes := []; s_marker := [] |} st) as Hf.
  destruct (settleTopics _ _ _ _ _ _ _) as [acc st1]. simpl in Hf. wp_steps.
  assert (H1 : framed t [] st (st1 <| waves := delete wave (waves st1) |>))
    by (apply Hf; [by split_and!|done]).
  eapply wp_mono; [apply groupFrames_framed|]. intros gf st2 H2. wp_steps.
  eapply wp_mono; [apply welcomeFrames_framed|]. intros wf' st3 H3. unfold wp.
  assert (Hd : delivers t st (send net (gf ++ wf' ++ match s_marker acc with [] => []
    | topics => [TopicsLive topics] end ++ catchupCompleteFrame (mutateID w)) st3).2).
  { apply send_delivers. apply (framed_app t [] _ _ _ _ H1), (framed_app t _ _ _ _ _ H2).
    destruct H3 as (O3 & S3 & R3). split; [done|]. split; [done|].
    rewrite deliveredIn_app. replace (deliveredIn t (_ ++ catchupCompleteFrame _)) with (@nil Z);
      [by rewrite app_nil_r|]. by destruct (s_marker acc). }
  by destruct (send _ _ _) as [[[]|r] st4].
Qed.

Lemma scanDone_delivers wave w st :
  wf st → waves st !! wave = Some w → t ∈ subscribed st →
  wp (scanDone cfg net drain unmarshalGroup unmarshalWelcome wave w)
    (λ _, delivers t st) noExit st.
Proof.
  intros [W _] Hw Ht. unfold scanDone. apply wp_if; intros _.
  - wp_steps. by apply delivers_quiet.
  - wp_steps. eapply wp_mono; [apply completeWave_delivers; [|done]|].
    { by apply wf_closing. }
    intros [] st1 H1. wp_steps. by apply wp_if; intros _.
Qed.

(** Every event delivers the live topics it does not name in order. *)
Lemma handle_delivers ev st :
  wf st → ¬ names t ev → t ∈ subscribed st →
  wp (handle cfg net drain unmarshalGroup unmarshalWelcome ev) (λ _, delivers t st) noExit st.
Proof.
  intros W Hn Ht. assert (Hst : ∀ {A} (m : M A), stays (delivers t) m →
    wp m (λ _, delivers t st) noExit st).
  { intros A m Hm. specialize (Hm st). unfold wp. by destruct (m st) as [[a|r] st']. }
  assert (Hfs : ∀ fs st1, framed t fs st st1 → wp (send net fs) (λ _, delivers t st) noExit st1).
  { intros fs st1 Hf. apply send_delivers in Hf. unfold wp.
    by destruct (send net fs st1) as [[[]|r] st']. }
  destruct ev as [| |e|req|r|b|env| |now sent]; try done; simpl in *.
  - destruct req as [[m|n|n|]|]; try done; simpl.
    + by apply Hst, handleMutate_delivers.
    + apply Hfs. split; [done|]. split; [done|by apply rising_nil].
    + wp_steps. case_bool_decide; by apply delivers_quiet.
    + wp_steps. by apply delivers_quiet.
  - unfold handleRequestsClosed. destruct r; [done|]. wp_steps.
    apply wp_if; intros _; [done|]. wp_steps. by apply delivers_quiet.
  - unfold handleBatch. destruct (cb_err b); [done|]. wp_steps. simpl.
    destruct (waves st !! cb_wave b) as [w|] eqn:Hw; [|wp_steps; by apply delivers_quiet].
    set (st0 := st <| freedBytes := freedBytes st + cb_bytes b |>).
    assert (H0 : framed t [] st st0) by by apply framed_quiet.
    pose (I := λ st', wf st' ∧ waves st' !! cb_wave b = Some w).
    assert (HI : ∀ st1 st2, same_book st1 st2 → I st1 → I st2).
    { intros st1 st2 Hb [? ?]. split; [by eapply wf_book|].
      apply same_book_fields in Hb as [<- _]. done. }
    assert (I0 : I st0) by (split; [by apply (wf_book st)|done]).
    apply wp_bind. eapply wp_conseq; [apply (wp_conj _ (λ _, I) (λ fs, framed t fs st0) noExit
      noExit)| |done].
    { apply wp_book; auto with node; done. }
    { unfold historyFrames. wp_steps. destruct (cb_groupMsgs b), (cb_welcomeMsgs b);
        auto using groupFrames_framed, welcomeFrames_framed, framed_refl. }
    intros fs st1 [I1 H1]. apply (framed_app t [] fs _ _ _ H0) in H1. apply wp_bind.
    eapply wp_conseq; [apply (wp_conj _ (λ _, I) (λ _, delivers t st) noExit noExit)| |done].
    { apply wp_book; auto with node; done. }
    { by apply Hfs. }
    intros [] st2 [[I2 Hw2] H2]. apply wp_if; intros _; [|done].
    eapply wp_mono; [apply scanDone_delivers; [done|done|by apply H2]|].
    intros [] st3 H3. by etrans.
  - unfold handleEnvelope. wp_steps. apply wp_if; intros _.
    + wp_steps. apply wp_if; intros _; [done|]. wp_steps. by apply delivers_quiet.
    + wp_steps. apply (wp_mono _ (λ fs, framed t fs st)); [|by intros; apply Hfs].
      unfold liveFrames. destruct (IsMLSV1Welcome _);
        [destruct (unmarshalWelcome _)|destruct (unmarshalGroup _)];
        try (apply groupFrames_framed || apply welcomeFrames_framed);
        wp_steps; apply framed_refl.
  - apply Hst. unfold handlePingTick. stays_steps; try by apply delivers_quiet.
    intros st1. by apply send_plain_delivers.
Qed.
End Order.

(** C6. Ordered delivery without duplicates: while no Mutate names a live topic, the ids the
    stream sends for it (history, the buffered messages a wave folds in and the live tail alike)
    ascend strictly from above the topic's floor to its new floor, and the topic stays live. *)
Theorem live_topic_ascending cfg net drain unmarshalGroup unmarshalWelcome evs0 st evs st' t :
  trace cfg net drain unmarshalGroup unmarshalWelcome evs0 st →
  t ∈ subscribed st → (∀ ev, ev ∈ evs → ¬ names t ev) →
  steps cfg net drain unmarshalGroup unmarshalWelcome evs st st' →
  t ∈ subscribed st' ∧
  ∃ frames, outbound st' = outbound st ++ frames ∧
    StronglySorted Z.lt (deliveredIn t frames) ∧
    (∀ i, i ∈ deliveredIn t frames → topicFloor t st < i ≤ topicFloor t st').
Proof.
  intros W%trace_wf Ht Hn Hs.
  assert (Hd : delivers t st st'); [|destruct (Hd Ht) as [? (fs & ? & _ & ? & ?)]; eauto].
  clear Ht. revert evs st st' W Hs Hn. apply (steps_ind_wf _ _ _ _ _ (λ evs st st',
    (∀ ev, ev ∈ evs → ¬ names t ev) → delivers t st st')); [done|].
  intros ev evs st st1 st' W Hen Hev _ IH Hn Ht. assert (H1 : delivers t st st1).
  { apply (wp_cont _ _ _ _ _ _ (handle_delivers cfg net drain unmarshalGroup unmarshalWelcome t
      ev st W (Hn ev ltac:(left)) Ht) Hev). }
  revert Ht. fold (delivers t st st'). etrans; [exact H1|]. apply IH. intros ev' ?. apply Hn. by right.
Qed.

Lemma live_topic_ascending_witness :
  let st := runS (take 1 subscribeEvents) in
  let st' := runS sessionEvents in
  BuildMLSV1GroupTopic g1 ∈ subscribed st' ∧
  ∃ frames, outbound st' = outbound st ++ frames ∧
    StronglySorted Z.lt (deliveredIn (BuildMLSV1GroupTopic g1) frames) ∧
    (∀ i, i ∈ deliveredIn (BuildMLSV1GroupTopic g1) frames →
      topicFloor (BuildMLSV1GroupTopic g1) st < i ≤ topicFloor (BuildMLSV1GroupTopic g1) st').
Proof.
  apply (live_topic_ascending defaultTunables allAccepted Drained unmarshalGroupSample
    unmarshalWelcomeSample (take 1 subscribeEvents) _ (drop 1 sessionEvents)).
  - apply trace_runS. vm_compute. by eexists.
  - apply (bool_decide_unpack _). vm_compute. exact I.
  - apply Forall_forall. repeat (constructor; [intros []|]). constructor.
  - apply exec_steps. vm_compute. reflexivity.
Defined.
