(* ===== verification/WriterSeam.v ===== *)
(** The seam between catch-up and live delivery: what each frame the stream sends may hold.
    [lawful] says it of one frame against the state before the event that sent it; [handle_lawful]
    that every handler only sends lawful frames. *)

From S2P Require Import Prelude Topic Types Frames Writer WriterLogic WriterInv WriterOrder WriterAccount Sample.

(** A frame holds messages of one kind, is not empty, and is within the size cap unless it holds
    a single message. *)
Definition bounded (maxBytes : Z) (f : SubscribeResponse) : Prop :=
  match f with
  | Messages gs ws _ =>
      (ws = [] ∧ frame_ok groupSize maxBytes gs) ∨ (gs = [] ∧ frame_ok welcomeSize maxBytes ws)
  | _ => True
  end.

(** A live frame holds no gated topic's messages; a wave's frame, only those of topics that the
    wave owns. *)
Definition sealed (st : writer) (f : SubscribeResponse) : Prop :=
  match f with
  | Messages _ _ tag =>
      ∀ t, deliveredBy t f ≠ [] →
        (tag = 0 ∧ t ∉ catchingUp st) ∨
        (tag ≠ 0 ∧ ∃ w ws, waves st !! w = Some ws ∧ mutateID ws = tag ∧
          topicWave st !! t = Some w)
  | _ => True
  end.

Definition lawful (maxBytes : Z) (st : writer) (f : SubscribeResponse) : Prop :=
  bounded maxBytes f ∧ sealed st f.

(** From [st] to [st'] only frames in [P] are sent. *)
Definition emits (P : SubscribeResponse → Prop) (st st' : writer) : Prop :=
  ∃ fs, outbound st' = outbound st ++ fs ∧ Forall P fs.

#[export] Instance emits_preorder P : PreOrder (emits P).
Proof.
  split.
  - intros st. exists []. by rewrite app_nil_r.
  - intros a b c (fs1 & E1 & F1) (fs2 & E2 & F2). exists (fs1 ++ fs2).
    rewrite E2, E1, app_assoc. split; [done|]. by apply Forall_app.
Qed.

Lemma emits_quiet P st st' : outbound st' = outbound st → emits P st st'.
Proof. intros E. exists []. by rewrite E, app_nil_r. Qed.

(** The group or welcome messages a topic may have in a wave's or in the live lane. *)
Lemma fresh_sub {M} (key : M → string) (id : M → Z) hwm msgs m :
  m ∈ fresh key id hwm msgs → m ∈ msgs.
Proof.
  revert hwm. induction msgs as [|x msgs IH]; intros hwm; simpl; [done|].
  case_bool_decide; rewrite !elem_of_cons; naive_solver.
Qed.

Lemma idsFor_in {M} (key : M → string) (id : M → Z) t p :
  idsFor key id t p ≠ [] → ∃ m, m ∈ p ∧ key m = t.
Proof.
  unfold idsFor. destruct (filter _ p) as [|m l] eqn:E; [done|]. intros _. exists m.
  assert (m ∈ filter (λ m, key m = t) p) as [? ?]%list_elem_of_filter by (rewrite E; left). done.
Qed.

(** Where a lane's messages may come from: the live lane from ungated topics, a wave's from
    topics it owns. *)
Definition mayCarry (st : writer) (tag : Z) (t : string) : Prop :=
  (tag = 0 ∧ t ∉ catchingUp st) ∨
  (tag ≠ 0 ∧ ∃ w ws, waves st !! w = Some ws ∧ mutateID ws = tag ∧ topicWave st !! t = Some w).

Definition addressed (ug : bytes → option GroupMessage) (uw : bytes → option WelcomeMessage)
    (env : Envelope) : Prop :=
  if IsMLSV1Welcome (ContentTopic env)
  then ∀ m, uw (Message env) = Some m → welcomeKey m = ContentTopic env
  else ∀ m, ug (Message env) = Some m → groupKey m = ContentTopic env.

(** What holds of every buffered envelope. *)
Definition pendingAll (P : Envelope → Prop) (st : writer) : Prop :=
  ∀ t envs, pending st !! t = Some envs → Forall P envs.

Definition envelopeIn (P : Envelope → Prop) (ev : event) : Prop :=
  match ev with EvEnvelope env => P env | _ => True end.

(** Every buffered envelope is on the topic its message is for. *)
Definition pendingAddressed ug uw : writer → Prop := pendingAll (addressed ug uw).

Lemma settleTopics_outbound ug uw wave topics wire acc st :
  outbound (settleTopics ug uw wave topics wire acc st).2 = outbound st.
Proof.
  revert wire acc st. induction topics as [|t topics IH]; intros [|b wire] acc st; try done.
  simpl. destruct (settleTopic _ _ _ _ _ _ _) as [acc1 st1] eqn:E. rewrite IH.
  revert E. unfold settleTopic. case_bool_decide; [by intros [= <- <-]|].
  cbv zeta. case_bool_decide; [by intros [= <- <-]|].
  destruct (decodePending _ _ _ _). by intros [= <- <-].
Qed.

Section Seam.
Context (cfg : tunables) (net : nat → send_result) (drain : flush_result).
Context (unmarshalGroup : bytes → option GroupMessage).
Context (unmarshalWelcome : bytes → option WelcomeMessage).
Context (st0 : writer).

Local Abbreviation P := (lawful (maxFrameBytes cfg) st0).

Lemma send_emits fs st : Forall P fs → emits P st (send net fs st).2.
Proof.
  intros Hf. unfold send. destruct fs as [|f fs]; [by apply emits_quiet|]. simpl.
  destruct (net (length (sendLog st))); try by apply emits_quiet. by exists (f :: fs).
Qed.

Lemma groupFrames_lawful msgs tag st :
  (∀ m, m ∈ msgs → mayCarry st0 tag (groupKey m)) →
  wp (groupFrames cfg msgs tag) (λ fs st', Forall P fs ∧ outbound st' = outbound st) noExit st.
Proof.
  intros Hm. unfold groupFrames, wp, buildGroupFrames.
  destruct (buildFrames_spec groupKey groupID groupSize (λ ms, Messages ms [] tag)
    (maxFrameBytes cfg) (highWaterMarks st) msgs) as (parts & -> & Hc & Hok).
  split; [|done]. apply Forall_fmap, Forall_forall. intros p Hp. rewrite Forall_forall in Hok.
  split; [left; eauto|]. intros t Ht. simpl in Ht. rewrite app_nil_r in Ht.
  apply idsFor_in in Ht as (m & Hin & <-). apply Hm, (fresh_sub groupKey groupID (highWaterMarks st)).
  rewrite <- Hc. apply list_elem_of_In, in_concat. exists p. by rewrite <- !list_elem_of_In.
Qed.

Lemma welcomeFrames_lawful msgs tag st :
  (∀ m, m ∈ msgs → mayCarry st0 tag (welcomeKey m)) →
  wp (welcomeFrames cfg msgs tag) (λ fs st', Forall P fs ∧ outbound st' = outbound st) noExit st.
Proof.
  intros Hm. unfold welcomeFrames, wp, buildWelcomeFrames.
  destruct (buildFrames_spec welcomeKey welcomeID welcomeSize (λ ms, Messages [] ms tag)
    (maxFrameBytes cfg) (highWaterMarks st) msgs) as (parts & -> & Hc & Hok).
  split; [|done]. apply Forall_fmap, Forall_forall. intros p Hp. rewrite Forall_forall in Hok.
  split; [right; eauto|]. intros t Ht. simpl in Ht.
  apply idsFor_in in Ht as (m & Hin & <-). apply Hm, (fresh_sub welcomeKey welcomeID (highWaterMarks st)).
  rewrite <- Hc. apply list_elem_of_In, in_concat. exists p. by rewrite <- !list_elem_of_In.
Qed.

Lemma dropTopic_emits t : stays (emits P) (dropTopic net t).
Proof.
  intros st. rewrite dropTopic_eq. trans (releaseTopic t st).
  - apply emits_quiet. unfold releaseTopic.
    assert (E : outbound (forgetTopic t st) = outbound st)
      by (unfold forgetTopic; by repeat case_bool_decide).
    rewrite <- E. destruct (topicWave (forgetTopic t st) !! t); [|done]. simpl.
    destruct (waves (forgetTopic t st) !! _); [|done]. by case_bool_decide.
  - apply send_emits. unfold releasedFrames. destruct (topicWave st !! t); [|done].
    destruct (waves st !! _); [|done]. case_bool_decide; [done|]. by repeat constructor.
Qed.

Lemma handleMutate_emits m : stays (emits P) (handleMutate cfg net m).
Proof.
  assert (Ha : ∀ ho byTopic order acc, stays (emits P) (applyAdds net ho byTopic order acc)).
  { intros ho byTopic order. induction order as [|t order IH]; intros acc; simpl;
      [apply stays_ret, _|]. destruct (byTopic !! t); [|apply IH].
    apply stays_bind; [apply _| |intros; apply IH].
    unfold applyAdd. stays_steps; try apply dropTopic_emits; apply emits_quiet.
    unfold openTopic. by destruct ho. }
  unfold handleMutate. stays_steps; try apply Ha.
  - unfold applyRemove. destruct (splitTopic _) as [[kind i]|]; [|apply stays_fail, _].
    apply dropTopic_emits.
  - apply emits_quiet. unfold countLive. by case_bool_decide.
  - by apply emits_quiet.
  - intros st. apply send_emits. by repeat constructor.
Qed.

(** *** What completing a wave collects *)

Definition owned_by (wave : nat) (acc : settled) : Prop :=
  (∀ m, m ∈ s_groups acc → topicWave st0 !! groupKey m = Some wave) ∧
  (∀ m, m ∈ s_welcomes acc → topicWave st0 !! welcomeKey m = Some wave).

Lemma decodePending_keys t envs :
  Forall (λ e, ContentTopic e = t) envs → Forall (addressed unmarshalGroup unmarshalWelcome) envs →
  let '(gs, ws) := decodePending unmarshalGroup unmarshalWelcome t envs in
  (∀ m, m ∈ gs → groupKey m = t) ∧ (∀ m, m ∈ ws → welcomeKey m = t).
Proof.
  intros Ht Ha. rewrite Forall_forall in Ht, Ha. unfold decodePending.
  destruct (IsMLSV1Welcome t) eqn:E; split; try (by intros m ?%elem_of_nil);
    intros m (e & Hin & Hm)%list_elem_of_omap;
    specialize (Ht e Hin); specialize (Ha e Hin); unfold addressed in Ha;
    rewrite Ht, E in Ha; auto.
Qed.

Definition collecting (wave : nat) (acc : settled) (st : writer) : Prop :=
  settling wave st0 st ∧ owned_by wave acc ∧
  pendingAddressed unmarshalGroup unmarshalWelcome st.

Lemma settleTopic_collecting wave t wire acc st :
  collecting wave acc st →
  let '(acc', st') := settleTopic unmarshalGroup unmarshalWelcome wave t wire acc st in
  collecting wave acc' st'.
Proof.
  intros (Hs & Ho & Hp).
  destruct (settleTopic_settling unmarshalGroup unmarshalWelcome wave t wire acc st0 st Hs)
    as [Hs' _]. revert Hs'. destruct Hs as (W & _ & _ & Hmono).
  unfold settleTopic. case_bool_decide as Hw; [done|]. cbv zeta.
  case_bool_decide as Hc; [done|].
  assert (Hpt : Forall (λ e, ContentTopic e = t) (pendingOf st t) ∧
    Forall (addressed unmarshalGroup unmarshalWelcome) (pendingOf st t)).
  { unfold pendingOf. destruct (pending st !! t) eqn:E; [|by split].
    split; [by apply (wf_pending W)|by eapply Hp]. }
  pose proof (decodePending_keys t (pendingOf st t) (proj1 Hpt) (proj2 Hpt)) as Hk.
  change (pendingOf (st <| topicWave := delete t (topicWave st) |>) t) with (pendingOf st t).
  destruct (decodePending _ _ t _) as [gs ws]. intros Hs'. destruct Hk as [Hg Hwk].
  split; [done|]. split.
  - destruct Ho as [Ho1 Ho2]. split; intros m [?|Hm]%elem_of_app; auto.
    + rewrite (Hg m Hm). auto.
    + rewrite (Hwk m Hm). auto.
  - intros t' envs. simpl. intros [_ E]%lookup_delete_Some. by eapply Hp.
Qed.

Lemma settleTopics_collecting wave topics wire acc st :
  collecting wave acc st →
  let '(acc', st') := settleTopics unmarshalGroup unmarshalWelcome wave topics wire acc st in
  collecting wave acc' st'.
Proof.
  revert wire acc st. induction topics as [|t topics IH]; intros [|b wire] acc st Hst;
    try done. simpl. pose proof (settleTopic_collecting wave t b acc st Hst) as H1.
  destruct (settleTopic _ _ _ _ _ _ _) as [acc1 st1]. by apply IH.
Qed.

Lemma completeWave_emits wave w st ws :
  wf_upto [] 0 (Some wave) st → pendingAddressed unmarshalGroup unmarshalWelcome st →
  waves st = waves st0 → halfClosed st = halfClosed st0 →
  topicWave st = topicWave st0 →
  waves st0 !! wave = Some ws → mutateID w = mutateID ws → mutateID ws ≠ 0 →
  wp (completeWave cfg net unmarshalGroup unmarshalWelcome wave w)
    (λ _, emits P st) noExit st.
Proof.
  intros W Hp Hwv Hh Htw Hws Hid Hne. unfold completeWave, settle. wp_steps. unfold wp at 1.
  assert (Hc : collecting wave {| s_groups := []; s_welcomes := []; s_marker := [] |} st).
  { split; [|split; [|done]].
    - split_and!; try done. intros t. by rewrite Htw.
    - split; by intros m ?%elem_of_nil. }
  apply (settleTopics_collecting wave (w_topics w) (w_wire w)) in Hc.
  pose proof (settleTopics_outbound unmarshalGroup unmarshalWelcome wave (w_topics w) (w_wire w)
    {| s_groups := []; s_welcomes := []; s_marker := [] |} st) as Ho1.
  destruct (settleTopics _ _ _ _ _ _ _) as [acc st1]. destruct Hc as (_ & [Hg Hwl] & _).
  simpl in *. wp_steps.
  assert (Hmay : ∀ t, topicWave st0 !! t = Some wave → mayCarry st0 (mutateID w) t).
  { intros t Ht. right. rewrite Hid. split; [done|]. by exists wave, ws. }
  eapply wp_mono; [apply groupFrames_lawful|].
  { intros m Hm. apply Hmay, Hg. by rewrite <- (order_by_asc_Permutation groupID). }
  intros gf st2 [Fg O2]. wp_steps. eapply wp_mono; [apply welcomeFrames_lawful|].
  { intros m Hm. apply Hmay, Hwl. by rewrite <- (order_by_asc_Permutation welcomeID). }
  intros wf' st3 [Fw O3].
  assert (Hd : emits P st3 (send net (gf ++ wf' ++ match s_marker acc with [] => []
    | topics => [TopicsLive topics] end ++ catchupCompleteFrame (mutateID w)) st3).2).
  { apply send_emits. rewrite !Forall_app. split_and!; [done..| |by repeat constructor].
    destruct (s_marker acc); by repeat constructor. }
  unfold wp. destruct (send _ _ _) as [[[]|r] st4]; [|done].
  destruct Hd as (fs & E & F). exists fs. split; [|done].
  simpl in E. rewrite E, O3, O2. simpl. by rewrite Ho1.
Qed.
End Seam.

Section Lawful.
Context (cfg : tunables) (net : nat → send_result) (drain : flush_result).
Context (unmarshalGroup : bytes → option GroupMessage).
Context (unmarshalWelcome : bytes → option WelcomeMessage).

Definition addressedEvent : event → Prop := envelopeIn (addressed unmarshalGroup unmarshalWelcome).

Lemma handleEnvelope_lawful env st :
  wf st → addressed unmarshalGroup unmarshalWelcome env →
  wp (handleEnvelope cfg net unmarshalGroup unmarshalWelcome env)
    (λ _, emits (lawful (maxFrameBytes cfg) st) st) noExit st.
Proof.
  intros W Ha. unfold handleEnvelope. wp_steps. apply wp_if; intros Hg.
  { wp_steps. apply wp_if; intros _; [done|]. wp_steps. by apply emits_quiet. }
  apply bool_decide_eq_false in Hg. wp_steps.
  apply (wp_mono _ (λ fs st', Forall (lawful (maxFrameBytes cfg) st) fs ∧
    outbound st' = outbound st)).
  - unfold liveFrames. unfold addressed in Ha. destruct (IsMLSV1Welcome _).
    + destruct (unmarshalWelcome _) as [m|]; [|by wp_steps].
      apply welcomeFrames_lawful. intros m' ->%list_elem_of_singleton.
      left. by rewrite (Ha m eq_refl).
    + destruct (unmarshalGroup _) as [m|]; [|by wp_steps].
      apply groupFrames_lawful. intros m' ->%list_elem_of_singleton.
      left. by rewrite (Ha m eq_refl).
  - intros fs st1 [Hf Ho]. apply (send_emits _ net st fs st1) in Hf. unfold wp.
    destruct (send net fs st1) as [[[]|r] st2]; [|done]. simpl in Hf.
    by destruct Hf as (fs' & E & ?); exists fs'; rewrite E, Ho.
Qed.

Lemma handleBatch_lawful b st :
  wf st → pendingAddressed unmarshalGroup unmarshalWelcome st →
  wp (handleBatch cfg net drain unmarshalGroup unmarshalWelcome b)
    (λ _, emits (lawful (maxFrameBytes cfg) st) st) noExit st.
Proof.
  intros [W Hh] Hp. unfold handleBatch. destruct (cb_err b); [done|]. wp_steps. simpl.
  destruct (waves st !! cb_wave b) as [w|] eqn:Hw; [|wp_steps; by apply emits_quiet].
  assert (Hid : mutateID w ≠ 0) by by destruct (wf_waves W _ _ Hw).
  assert (Hmay : ∀ t, topicWave st !! t = Some (cb_wave b) → mayCarry st (mutateID w) t).
  { intros t Ht. right. split; [done|]. by exists (cb_wave b), w. }
  set (st1 := st <| freedBytes := freedBytes st + cb_bytes b |>).
  apply wp_bind. eapply wp_conseq; [apply (wp_conj _ (λ _, same_book st1)
    (λ fs st', Forall (lawful (maxFrameBytes cfg) st) fs ∧ outbound st' = outbound st1) noExit
    noExit)| |done].
  { apply wp_book; [intros ????; by etrans|auto with node|done|done]. }
  { unfold historyFrames. wp_steps. destruct (cb_groupMsgs b) as [|m gs];
      [destruct (cb_welcomeMsgs b) as [|m ws]; [by wp_steps|]|].
    - apply welcomeFrames_lawful. intros x [Hx _]%list_elem_of_filter. by apply Hmay.
    - apply groupFrames_lawful. intros x [Hx _]%list_elem_of_filter. by apply Hmay. }
  intros fs st2 [B2 [Hf Ho]]. apply wp_bind.
  eapply wp_conseq; [apply (wp_conj _ (λ _, same_book st1)
    (λ _, emits (lawful (maxFrameBytes cfg) st) st2) noExit noExit)| |done].
  { apply wp_book; [intros ????; by etrans|auto with node|done|done]. }
  { apply (send_emits _ net st fs st2) in Hf. unfold wp.
    by destruct (send net fs st2) as [[[]|r] st3]. }
  intros [] st3 [B3 H3]. assert (H3' : emits (lawful (maxFrameBytes cfg) st) st st3).
  { destruct H3 as (fs' & E & ?). exists fs'. by rewrite E, Ho. }
  apply wp_if; intros _; [|wp_steps; done]. apply same_book_fields in B3 as Hb.
  destruct Hb as (Ew & Eh & Et & _ & _ & Ep & _).
  unfold scanDone. apply wp_if; intros _.
  { wp_steps. trans st3; [done|by apply emits_quiet]. }
  apply wp_bind. eapply wp_mono; [apply (completeWave_emits cfg net unmarshalGroup
    unmarshalWelcome st _ _ _ w); try done|].
  - apply (wf_upto_book [] 0 _ st1); [done|]. by apply wf_closing, (wf_upto_book _ _ _ st).
  - intros t envs. rewrite <- Ep. apply Hp.
  - intros [] st4 H4. wp_steps. apply wp_if; intros _; [done|]. wp_steps. by trans st3.
Qed.

(** Every event sends lawful frames only. *)
Lemma handle_lawful ev st :
  wf st → pendingAddressed unmarshalGroup unmarshalWelcome st → addressedEvent ev →
  wp (handle cfg net drain unmarshalGroup unmarshalWelcome ev)
    (λ _, emits (lawful (maxFrameBytes cfg) st) st) noExit st.
Proof.
  intros W Hp Ha. assert (Hst : ∀ {A} (m : M A), stays (emits (lawful (maxFrameBytes cfg) st)) m →
    wp m (λ _, emits (lawful (maxFrameBytes cfg) st) st) noExit st).
  { intros A m Hm. specialize (Hm st). unfold wp. by destruct (m st) as [[a|r] st']. }
  assert (Hsend : ∀ f, lawful (maxFrameBytes cfg) st f →
    stays (emits (lawful (maxFrameBytes cfg) st)) (send net [f]))
    by (intros f Hf st'; apply send_emits; constructor; [done|constructor]).
  destruct ev as [| |e|req|r|b|env| |now sent]; try done; simpl in *.
  - destruct req as [[m|n|n|]|]; try done; simpl; apply Hst.
    + apply handleMutate_emits.
    + by apply Hsend.
    + stays_steps. apply emits_quiet. by case_bool_decide.
    + stays_steps.
  - apply Hst. unfold handleRequestsClosed, flush. stays_steps. by apply emits_quiet.
  - by apply handleBatch_lawful.
  - by apply handleEnvelope_lawful.
  - apply Hst. unfold handlePingTick. stays_steps; try by apply emits_quiet. by apply Hsend.
Qed.
End Lawful.

(** ** Buffered envelopes stay addressed *)

Definition releases (st st' : writer) : Prop :=
  ∀ t envs, pending st' !! t = Some envs → pending st !! t = Some envs.

#[export] Instance releases_preorder : PreOrder releases.
Proof. split; [by intros st t envs|]. intros a b c H1 H2 t envs ?. auto. Qed.

Lemma releases_quiet st st' : pending st' = pending st → releases st st'.
Proof. intros E t envs. by rewrite E. Qed.

Lemma releases_book st st' : same_book st st' → releases st st'.
Proof. intros (_ & _ & _ & _ & _ & E & _)%same_book_fields t envs. by rewrite E. Qed.

Lemma releases_stays {A} (m : M A) : stays same_book m → stays releases m.
Proof. intros Hm st. apply releases_book, Hm. Qed.

Lemma forgetTopic_releases t st : releases st (forgetTopic t st).
Proof.
  intros t' envs. unfold forgetTopic. repeat case_bool_decide; simpl; try done.
  all: by intros [_ ?]%lookup_delete_Some.
Qed.

Section Pending.
Context (cfg : tunables) (net : nat → send_result) (drain : flush_result).
Context (unmarshalGroup : bytes → option GroupMessage).
Context (unmarshalWelcome : bytes → option WelcomeMessage).

Lemma dropTopic_releases t : stays releases (dropTopic net t).
Proof.
  intros st. rewrite dropTopic_eq. trans (releaseTopic t st); [|apply releases_book, send_book].
  trans (forgetTopic t st); [apply forgetTopic_releases|]. unfold releaseTopic.
  apply releases_quiet. destruct (topicWave (forgetTopic t st) !! t); [|done]. simpl.
  destruct (waves (forgetTopic t st) !! _); [|done]. by case_bool_decide.
Qed.

Lemma handleMutate_releases m : stays releases (handleMutate cfg net m).
Proof.
  assert (Ha : ∀ ho byTopic order acc, stays releases (applyAdds net ho byTopic order acc)).
  { intros ho byTopic order. induction order as [|t order IH]; intros acc; simpl;
      [apply stays_ret, _|]. destruct (byTopic !! t); [|apply IH].
    apply stays_bind; [apply _| |intros; apply IH].
    unfold applyAdd. stays_steps; try apply dropTopic_releases.
    apply releases_quiet. unfold openTopic. by destruct ho. }
  unfold handleMutate. stays_steps; try apply Ha.
  - unfold applyRemove. destruct (splitTopic _) as [[kind i]|]; [|apply stays_fail, _].
    apply dropTopic_releases.
  - apply releases_quiet. unfold countLive. by case_bool_decide.
  - by apply releases_quiet.
  - apply releases_stays, send_book.
Qed.

Lemma settle_releases wave w : stays releases (settle unmarshalGroup unmarshalWelcome wave w).
Proof.
  assert (H1 : ∀ t wire acc st,
    releases st (settleTopic unmarshalGroup unmarshalWelcome wave t wire acc st).2).
  { intros t wire acc st. unfold settleTopic. case_bool_decide; [done|]. cbv zeta.
    case_bool_decide; [by apply releases_quiet|]. destruct (decodePending _ _ _ _).
    intros t' envs. simpl. by intros [_ ?]%lookup_delete_Some. }
  intros st. unfold settle. generalize (mkSettled [] [] []). intros acc.
  revert acc st. generalize (w_wire w). induction (w_topics w) as [|t topics IH];
    intros [|b wire] acc st; try done. simpl. specialize (H1 t b acc st).
  destruct (settleTopic _ _ _ _ _ _ _) as [acc1 st1]. trans st1; [done|].
  specialize (IH wire acc1 st1). by destruct (settleTopics _ _ _ _ _ _ _).
Qed.

Lemma handleBatch_releases b :
  stays releases (handleBatch cfg net drain unmarshalGroup unmarshalWelcome b).
Proof.
  unfold handleBatch, scanDone, completeWave, flush.
  stays_steps; auto using settle_releases, releases_stays with node; try by apply releases_quiet.
  all: apply releases_stays; auto with node.
Qed.

(** What holds of every envelope received holds of every one buffered. *)
Lemma handle_pending (P : Envelope → Prop) ev st :
  pendingAll P st → envelopeIn P ev →
  wp (handle cfg net drain unmarshalGroup unmarshalWelcome ev) (λ _, pendingAll P) noExit st.
Proof.
  intros Hp Ha. assert (Hst : ∀ (m : M unit), stays releases m →
    wp m (λ _, pendingAll P) noExit st).
  { intros m Hm. specialize (Hm st). unfold wp. destruct (m st) as [[a|r] st']; [|done].
    intros t envs ?. eapply Hp. by apply Hm. }
  destruct ev as [| |e|req|r|b|env| |now sent]; try done; simpl in *.
  - apply Hst. destruct req as [[m|n|n|]|]; simpl.
    + apply handleMutate_releases.
    + apply releases_stays, send_book.
    + stays_steps. apply releases_quiet. by case_bool_decide.
    + stays_steps.
    + stays_steps.
  - apply Hst. unfold handleRequestsClosed, flush. stays_steps. by apply releases_quiet.
  - apply Hst, handleBatch_releases.
  - unfold handleEnvelope. wp_steps. apply wp_if; intros _.
    + wp_steps. apply wp_if; intros _; [done|]. wp_steps. intros t envs. simpl.
      rewrite lookup_insert. destruct (decide (ContentTopic env = t)); [|by apply Hp].
      intros [= <-]. apply Forall_app. split; [|by constructor]. unfold pendingOf.
      destruct (pending st !! _) eqn:E; [by eapply Hp|done].
    + apply Hst. apply stays_bind; [apply _|apply releases_stays; auto with node|].
      intros fs. apply releases_stays, send_book.
  - apply Hst, releases_stays, handlePingTick_book.
Qed.
End Pending.

Lemma steps_addressed cfg net drain ug uw evs st st' :
  steps cfg net drain ug uw evs st st' → Forall (addressedEvent ug uw) evs →
  pendingAddressed ug uw st → pendingAddressed ug uw st'.
Proof.
  induction 1 as [|ev evs st st1 st' Hen Hev _ IH]; [done|].
  intros [Ha Hevs]%Forall_cons Hp. apply IH; [done|].
  exact (wp_cont _ _ _ _ _ _ (handle_pending cfg net drain ug uw _ ev st Hp Ha) Hev).
Qed.

Lemma trace_addressed cfg net drain ug uw evs st :
  trace cfg net drain ug uw evs st → Forall (addressedEvent ug uw) evs → pendingAddressed ug uw st.
Proof.
  intros (now & st0 & Ho & Hs) Ha. eapply steps_addressed; [done..|].
  pose proof (send_book net (startedFrame cfg) (initWriter now)) as Hb. unfold open in Ho.
  rewrite Ho in Hb. apply same_book_fields in Hb as (_ & _ & _ & _ & _ & E & _).
  simpl in E. intros t envs. by rewrite <- E.
Qed.

(** C14. What a frame may hold: on a stream whose envelopes carry messages of their own topic,
    every frame an event sends is of one kind, non-empty and within the frame cap unless it holds
    a single message; a live frame (tag 0) holds no message of a topic that is catching up; and
    a frame tagged with a mutate_id holds only messages of topics that the wave in flight under
    that id still owns, never a removed or reset one's. *)
Theorem frames_lawful cfg net drain unmarshalGroup unmarshalWelcome evs st ev st' :
  trace cfg net drain unmarshalGroup unmarshalWelcome evs st →
  Forall (addressedEvent unmarshalGroup unmarshalWelcome) (evs ++ [ev]) →
  handle cfg net drain unmarshalGroup unmarshalWelcome ev st = (Cont tt, st') →
  ∃ frames, outbound st' = outbound st ++ frames ∧
    Forall (bounded (maxFrameBytes cfg)) frames ∧ Forall (sealed st) frames.
Proof.
  intros Ht [Ha [Hev _]%Forall_cons]%Forall_app Hh.
  pose proof (handle_lawful cfg net drain unmarshalGroup unmarshalWelcome ev st
    (trace_wf _ _ _ _ _ _ _ Ht) (trace_addressed _ _ _ _ _ _ _ Ht Ha) Hev) as H.
  destruct (wp_cont _ _ _ _ _ _ H Hh) as (fs & E & F). exists fs. split; [done|].
  split; (eapply Forall_impl; [exact F|]); by intros f [].
Qed.

Lemma frames_lawful_witness :
  let st := runS (subscribeEvents) in
  ∃ frames, outbound (runS (subscribeEvents ++ [doneBatch 0%nat])) = outbound st ++ frames ∧
    Forall (bounded maxFrameBytesDefault) frames ∧ Forall (sealed st) frames.
Proof.
  apply (frames_lawful defaultTunables allAccepted Drained unmarshalGroupSample
    unmarshalWelcomeSample (subscribeEvents) _ (doneBatch 0%nat)).
  - apply trace_runS. vm_compute. by eexists.
  - repeat constructor. simpl. unfold addressed. simpl. by intros m [= <-].
  - vm_compute. reflexivity.
Defined.

(** ** A topic stays in its wave until the wave is complete *)

Definition keeps (t : string) (st st' : writer) : Prop :=
  topicWave st' !! t = topicWave st !! t ∧ (nextWave st ≤ nextWave st')%nat ∧
  ∀ w ws', (w < nextWave st)%nat → waves st' !! w = Some ws' →
    ∃ ws, waves st !! w = Some ws ∧ mutateID ws = mutateID ws'.

#[export] Instance keeps_preorder t : PreOrder (keeps t).
Proof.
  split; [intros st; split_and!; eauto|]. intros a b c (E1 & L1 & H1) (E2 & L2 & H2).
  split_and!; [congruence|lia|]. intros w ws3 Hw H.
  destruct (H2 w ws3 ltac:(lia) H) as (ws2 & Hw2 & <-). eauto.
Qed.

Lemma keeps_quiet t st st' :
  topicWave st' !! t = topicWave st !! t → nextWave st' = nextWave st → waves st' = waves st →
  keeps t st st'.
Proof. intros E1 E2 E3. split_and!; [done|lia|]. rewrite E3. eauto. Qed.

Lemma keeps_book t st st' : same_book st st' → keeps t st st'.
Proof.
  intros Hb. apply same_book_fields in Hb as Hf. destruct Hf as (Ew & _ & Et & _).
  apply keeps_quiet; [by rewrite Et| |done]. revert Hb. unfold same_book, book.
  destruct st, st'; simpl. intros H. injection H. by intros.
Qed.

Lemma forgetTopic_keeps t t' st : keeps t st (forgetTopic t' st).
Proof. apply keeps_quiet; unfold forgetTopic; by repeat case_bool_decide. Qed.

Lemma releaseTopic_keeps t t' st : t' ≠ t → keeps t st (releaseTopic t' st).
Proof.
  intros Hne. trans (forgetTopic t' st); [apply forgetTopic_keeps|].
  unfold releaseTopic. generalize (forgetTopic t' st). clear st. intros st.
  destruct (topicWave st !! t') as [w|]; [|done]. simpl.
  destruct (waves st !! w) as [ws|] eqn:Hw;
    [|by apply keeps_quiet; simpl; rewrite ?lookup_delete_ne].
  case_bool_decide; (split_and!; simpl; [by rewrite lookup_delete_ne|lia|]); intros w' ws' _.
  - destruct (decide (w = w')) as [<-|]; [|rewrite lookup_insert_ne by done; eauto].
    rewrite lookup_insert_eq. intros [= <-]. by exists ws.
  - intros [_ ?]%lookup_delete_Some. eauto.
Qed.

Lemma collectAdd_sub t a live acc x :
  x ∈ accTopics (collectAdd t a live acc) → x ∈ accTopics acc ∨ x = t.
Proof.
  unfold accTopics, collectAdd. repeat case_bool_decide; simpl;
    rewrite !elem_of_app, ?list_elem_of_singleton; tauto.
Qed.

Section Keeps.
Context (cfg : tunables) (net : nat → send_result) (drain : flush_result).
Context (unmarshalGroup : bytes → option GroupMessage).
Context (unmarshalWelcome : bytes → option WelcomeMessage).
Context (t : string).

Lemma dropTopic_keeps t' : t' ≠ t → stays (keeps t) (dropTopic net t').
Proof.
  intros Hne st. rewrite dropTopic_eq. trans (releaseTopic t' st); [by apply releaseTopic_keeps|].
  apply keeps_book, send_book.
Qed.

Lemma applyAdds_keeps ho m order acc st :
  t ∉ order → t ∉ accTopics acc →
  wp (applyAdds net ho m order acc) (λ acc' st', keeps t st st' ∧ t ∉ accTopics acc') noExit st.
Proof.
  revert acc st. induction order as [|t' order IH]; intros acc st Ho Ha; simpl; [by wp_steps|].
  apply not_elem_of_cons in Ho as [Hne Ho]. destruct (m !! t') as [a|]; [|by apply IH].
  wp_steps. apply (wp_mono _ (λ acc' st', keeps t st st' ∧ t ∉ accTopics acc')).
  - unfold applyAdd. wp_steps. repeat (apply wp_if; intros _; [by wp_steps|]).
    wp_steps. apply (wp_mono _ (λ _, keeps t st)).
    + apply wp_if; intros _; [|by wp_steps]. by apply stays_wp, dropTopic_keeps.
    + intros [] st1 H1. wp_steps. split.
      * trans st1; [done|]. apply keeps_quiet; unfold openTopic; by destruct ho.
      * intros [?|?]%collectAdd_sub; done.
  - intros acc1 st1 [H1 Ha1]. eapply wp_mono; [by apply IH|].
    intros acc2 st2 [H2 Ha2]. split; [by trans st1|done].
Qed.

Lemma handleMutate_keeps m st : t ∉ named m → wp (handleMutate cfg net m) (λ _, keeps t st) noExit st.
Proof.
  intros Hn. unfold named in Hn. rewrite elem_of_app in Hn. unfold handleMutate. wp_steps.
  destruct (validateMutate cfg m st); [|done].
  destruct (parseAdds ([], ∅) (mu_Adds m)) as [[order byTopic]|e] eqn:Hp; [|done].
  wp_steps. apply (wp_mono _ (λ _, keeps t st)).
  { apply stays_wp, stays_forEach; [apply _|]. intros wire Hw. unfold applyRemove.
    destruct (splitTopic wire) as [[kind i]|] eqn:E; [|apply stays_fail, _].
    apply dropTopic_keeps. intros Heq. apply Hn. right. apply list_elem_of_omap.
    exists wire. unfold wireTopic. by rewrite E, Heq. }
  intros [] st1 H1. wp_steps. eapply wp_mono; [apply applyAdds_keeps; [|by intros ?%elem_of_nil]|].
  { intros Hin. destruct (parseAdds_named _ _ _ _ Hp t Hin) as [?%elem_of_nil|?]; tauto. }
  intros acc st2 [H2 Ha]. simpl. wp_steps.
  set (st3 := countLive (newlyLive acc) st2).
  assert (H3 : keeps t st st3).
  { trans st1; [done|]. trans st2; [done|].
    apply keeps_quiet; unfold st3, countLive; by case_bool_decide. }
  apply wp_if; intros _.
  - wp_steps. trans st3; [done|]. split_and!; simpl; [|lia|].
    + rewrite lookup_assign. by rewrite decide_False.
    + intros w ws' Hw. rewrite lookup_insert_ne by lia. eauto.
  - eapply wp_mono; [apply stays_wp with (R := keeps t)|].
    { intros st'. apply keeps_book, send_book. }
    intros [] st4 H4. by trans st3.
Qed.

(** Settling another wave's topics does not touch [t]. *)
Lemma settleTopics_other wave topics wire acc st :
  topicWave st !! t ≠ Some wave →
  topicWave (settleTopics unmarshalGroup unmarshalWelcome wave topics wire acc st).2 !! t
    = topicWave st !! t.
Proof.
  revert wire acc st. induction topics as [|t' topics IH]; intros [|b wire] acc st Ht; try done.
  simpl. destruct (settleTopic _ _ _ _ _ _ _) as [acc1 st1] eqn:E.
  assert (H1 : topicWave st1 !! t = topicWave st !! t).
  { revert E. unfold settleTopic. case_bool_decide; [by intros [= <- <-]|].
    assert (t' ≠ t) by congruence. cbv zeta.
    case_bool_decide; [|destruct (decodePending _ _ _ _)]; intros [= <- <-]; simpl;
      by rewrite lookup_delete_ne. }
  rewrite IH; by rewrite H1.
Qed.
End Keeps.

(** Either the topic is still in its wave, or the wave's CatchupComplete has been sent. *)
Definition waveOpen (t : string) (w : nat) (id : Z) (st : writer) : Prop :=
  topicWave st !! t = Some w ∧ ∃ ws, waves st !! w = Some ws ∧ mutateID ws = id.

Definition announced (id : Z) (st st' : writer) : Prop :=
  ∃ fs, outbound st' = outbound st ++ fs ∧ CatchupComplete id ∈ fs.

Lemma keeps_open t w id st st' :
  wf st → wf st' → keeps t st st' → waveOpen t w id st → waveOpen t w id st'.
Proof.
  intros [W _] [W' _] (Et & _ & Hi) (Ht & ws & Hw & <-). split; [by rewrite Et|].
  rewrite <- Et in Ht. destruct (wf_owner W' _ _ Ht) as (ws' & Hw' & _). exists ws'.
  split; [done|]. destruct (Hi w ws') as (ws0 & E & <-); [|done|congruence].
  by destruct (wf_waves W _ _ Hw).
Qed.

Section Announce.
Context (cfg : tunables) (net : nat → send_result) (drain : flush_result).
Context (unmarshalGroup : bytes → option GroupMessage).
Context (unmarshalWelcome : bytes → option WelcomeMessage).
Context (alive : ∀ i, net i ≠ SendStreamDone).

Lemma send_alive fs st :
  wp (send net fs) (λ _ st', outbound st' = outbound st ++ fs) noExit st.
Proof.
  unfold send, wp. destruct fs as [|f fs]; [by rewrite app_nil_r|]. simpl.
  pose proof (alive (length (sendLog st))). by destruct (net (length (sendLog st))).
Qed.

Lemma groupFrames_outbound msgs id st :
  wp (groupFrames cfg msgs id) (λ _ st', outbound st' = outbound st) noExit st.
Proof. unfold wp, groupFrames. by destruct (buildGroupFrames _ _ _ _). Qed.

Lemma welcomeFrames_outbound msgs id st :
  wp (welcomeFrames cfg msgs id) (λ _ st', outbound st' = outbound st) noExit st.
Proof. unfold wp, welcomeFrames. by destruct (buildWelcomeFrames _ _ _ _). Qed.

(** Completing a wave announces it, last, and leaves the topics of other waves in them. *)
Lemma completeWave_announces wave w st t :
  wp (completeWave cfg net unmarshalGroup unmarshalWelcome wave w)
    (λ _ st', (∃ fs, outbound st' = outbound st ++ fs ++ [CatchupComplete (mutateID w)]) ∧
      (topicWave st !! t ≠ Some wave → topicWave st' !! t = topicWave st !! t) ∧
      (∀ w', w' ≠ wave → waves st' !! w' = waves st !! w')) noExit st.
Proof.
  unfold completeWave, settle. wp_steps. unfold wp at 1.
  pose proof (settleTopics_outbound unmarshalGroup unmarshalWelcome wave (w_topics w) (w_wire w)
    (mkSettled [] [] []) st) as Ho.
  pose proof (settleTopics_other unmarshalGroup unmarshalWelcome t wave (w_topics w) (w_wire w)
    (mkSettled [] [] []) st) as Ht.
  pose proof (proj2 (settleTopics_owed unmarshalGroup unmarshalWelcome 0 wave (w_topics w)
    (w_wire w) (mkSettled [] [] []) st)) as Hwv.
  destruct (settleTopics _ _ _ _ _ _ _) as [acc st1]. simpl in *. wp_steps.
  set (st2 := st1 <| waves := delete wave (waves st1) |>).
  eapply wp_conseq; [apply wp_conj; [apply groupFrames_outbound|
    apply stays_wp, (groupFrames_book cfg)]| |done].
  intros gf st3 [O3 B3]. wp_steps. eapply wp_conseq; [apply wp_conj; [apply welcomeFrames_outbound|
    apply stays_wp, (welcomeFrames_book cfg)]| |done].
  intros wf' st4 [O4 B4]. eapply wp_conseq; [apply wp_conj; [apply send_alive|
    apply stays_wp, (send_book net)]| |done].
  intros [] st5 [O5 B5]. assert (Hb : same_book st2 st5) by (etrans; [|done]; by etrans).
  apply same_book_fields in Hb as (Ew & _ & Et & _). split_and!.
  - eexists. rewrite O5, O4, O3. simpl. rewrite Ho, !(app_assoc gf), !(app_assoc (gf ++ wf')).
    done.
  - intros Hne. rewrite <- Et. simpl. auto.
  - intros w' Hne. rewrite <- Ew. simpl. by rewrite lookup_delete_ne, Hwv.
Qed.

Lemma handleBatch_seam b st t w id :
  wf st → waveOpen t w id st →
  wp (handleBatch cfg net drain unmarshalGroup unmarshalWelcome b)
    (λ _ st', waveOpen t w id st' ∨ announced id st st') noExit st.
Proof.
  intros W (Ht & ws & Hws & Hid). unfold handleBatch. destruct (cb_err b); [done|].
  wp_steps. simpl. destruct (waves st !! cb_wave b) as [wb|] eqn:Hw;
    [|wp_steps; left; split; [done|by exists ws]].
  set (st1 := st <| freedBytes := freedBytes st + cb_bytes b |>).
  pose (I := λ st', same_book st1 st' ∧ ∃ fs, outbound st' = outbound st ++ fs).
  apply wp_bind, (wp_mono _ (λ _, I)).
  { eapply wp_conseq; [apply wp_conj; [apply stays_wp, (historyFrames_book cfg)|]| |done].
    - instantiate (1 := noExit). instantiate (1 := λ _ st', outbound st' = outbound st1).
      unfold historyFrames. wp_steps. destruct (cb_groupMsgs b);
        [destruct (cb_welcomeMsgs b); [done|]|];
        [apply welcomeFrames_outbound|apply groupFrames_outbound].
    - intros fs st2 [Hb E]. split; [done|]. exists []. by rewrite E, app_nil_r. }
  intros hist st2 [B2 [fs2 O2]]. apply wp_bind, (wp_mono _ (λ _, I)).
  { eapply wp_conseq; [apply wp_conj; [apply send_alive|apply stays_wp, (send_book net)]| |done].
    intros [] st3 [O3 B3]. split; [by etrans|]. exists (fs2 ++ hist).
    by rewrite O3, O2, app_assoc. }
  intros [] st3 [B3 [fs3 O3]]. apply same_book_fields in B3 as (Ew & _ & Et & _).
  simpl in Ew, Et. apply wp_if; intros _;
    [|wp_steps; left; split; [by rewrite <- Et|exists ws; by rewrite <- Ew]].
  unfold scanDone. apply wp_if; intros _.
  - wp_steps. left. split; simpl; [by rewrite <- Et|]. rewrite <- Ew.
    destruct (decide (cb_wave b = w)) as [<-|]; [|exists ws; by rewrite lookup_insert_ne].
    simplify_eq. eexists. by rewrite lookup_insert_eq.
  - wp_steps. eapply wp_mono; [apply (completeWave_announces _ _ _ t)|].
    intros [] st4 ((fs4 & O4) & Ht4 & Hw4). wp_steps. apply wp_if; intros _; [done|]. wp_steps.
    destruct (decide (cb_wave b = w)) as [<-|Hne].
    + right. exists (fs3 ++ fs4 ++ [CatchupComplete (mutateID wb)]).
      rewrite O4, O3, <- app_assoc. split; [done|]. simplify_eq. simpl. set_solver.
    + left. split; [rewrite Ht4, <- Et; [done|congruence]|]. exists ws.
      rewrite Hw4 by done. by rewrite <- Ew.
Qed.

Lemma handle_seam ev st t w id :
  wf st → enabled st ev → ¬ names t ev → waveOpen t w id st →
  wp (handle cfg net drain unmarshalGroup unmarshalWelcome ev)
    (λ _ st', waveOpen t w id st' ∨ announced id st st') noExit st.
Proof.
  intros W Hen Hn Ho. assert (Hnb : (∃ b, ev = EvBatch b) ∨ ¬ ∃ b, ev = EvBatch b)
    by (destruct ev; try (right; by intros []); left; eauto).
  destruct Hnb as [[b ->]|Hnb]; [by apply handleBatch_seam|].
  assert (Hk : wp (handle cfg net drain unmarshalGroup unmarshalWelcome ev) (λ _, keeps t st)
    noExit st).
  { assert (Hb : ∀ (m : M unit), stays same_book m → wp m (λ _, keeps t st) noExit st).
    { intros m Hm. eapply wp_mono; [by apply stays_wp|]. intros [] st'. apply keeps_book. }
    destruct ev as [| |e|req|r|b|env| |now sent]; try done; simpl in *.
    - destruct req as [[m|n|n|]|]; try done; simpl.
      + by apply handleMutate_keeps.
      + apply Hb, send_book.
      + apply Hb. stays_steps. by case_bool_decide.
      + by wp_steps.
    - unfold handleRequestsClosed. destruct r; [done|]. wp_steps. apply wp_if; intros _; [done|].
      wp_steps. by apply keeps_quiet.
    - destruct Hnb. eauto.
    - unfold handleEnvelope. wp_steps. apply wp_if; intros _.
      + wp_steps. apply wp_if; intros _; [done|]. wp_steps. by apply keeps_quiet.
      + apply Hb, stays_bind; [apply _|auto with node|intros; apply send_book].
    - apply Hb, handlePingTick_book. }
  eapply wp_conseq; [apply wp_conj; [exact Hk|by apply handle_wf]| |done].
  intros [] st' [Hk' W']. left. exact (keeps_open _ _ _ _ _ W W' Hk' Ho).
Qed.
End Announce.

(** A live frame with a message of [t]. *)
Definition liveFor (t : string) (f : SubscribeResponse) : Prop :=
  match f with
  | Messages _ _ tag => tag = 0 ∧ deliveredBy t f ≠ []
  | _ => False
  end.

(** No live frame for [t] precedes the CatchupComplete of [id]. *)
Definition seamOf (t : string) (id : Z) (fs : list SubscribeResponse) : Prop :=
  ∀ pre f post, fs = pre ++ f :: post → liveFor t f → CatchupComplete id ∈ pre.

Lemma seamOf_quiet t id fs1 fs2 :
  (∀ f, f ∈ fs1 → ¬ liveFor t f) → seamOf t id fs2 → seamOf t id (fs1 ++ fs2).
Proof.
  intros Hq Hs pre f post E Hf. apply app_eq_inv in E as [(k & -> & E)|(k & -> & E)].
  - destruct k as [|f' k]; simpl in E.
    + apply (Hs [] f post) in Hf; [by apply elem_of_nil in Hf|done].
    + injection E as <- ->. destruct (Hq f); [set_solver|done].
  - apply elem_of_app. right. by apply (Hs k f post).
Qed.

Lemma seamOf_done t id fs1 fs2 :
  (∀ f, f ∈ fs1 → ¬ liveFor t f) → CatchupComplete id ∈ fs1 → seamOf t id (fs1 ++ fs2).
Proof.
  intros Hq Hc pre f post E Hf. apply app_eq_inv in E as [(k & -> & E)|(k & -> & E)].
  - destruct k as [|f' k]; simpl in E; [by rewrite app_nil_r in Hc|].
    injection E as <- ->. destruct (Hq f); [set_solver|done].
  - apply elem_of_app. by left.
Qed.

Lemma steps_emits cfg net drain ug uw evs st st' :
  steps cfg net drain ug uw evs st st' → wf st → pendingAddressed ug uw st →
  Forall (addressedEvent ug uw) evs → ∃ fs, outbound st' = outbound st ++ fs.
Proof.
  induction 1 as [|ev evs st st1 st' Hen Hev _ IH]; intros W Hp Ha;
    [exists []; by rewrite app_nil_r|]. apply Forall_cons in Ha as [Ha Has].
  pose proof (handle_lawful cfg net drain ug uw ev st W Hp Ha) as H.
  destruct (wp_cont _ _ _ _ _ _ H Hev) as (fs & E & _).
  destruct IH as [fs' E']; [|exact (wp_cont _ _ _ _ _ _
    (handle_pending cfg net drain ug uw _ ev st Hp Ha) Hev)|done|].
  { exact (wp_cont _ _ _ _ _ _ (handle_wf cfg net drain ug uw ev st W Hen) Hev). }
  exists (fs ++ fs'). by rewrite E', E, app_assoc.
Qed.

(** C1. The seam: a live topic whose wave is in flight under an id gets no live (tag 0) frame
    before that id's CatchupComplete has been sent, whatever the client, the fetchers and the
    dispatcher do, as long as no Mutate names the topic. *)
Theorem seam cfg net drain unmarshalGroup unmarshalWelcome evs0 st evs st' t w ws :
  (∀ i, net i ≠ SendStreamDone) →
  trace cfg net drain unmarshalGroup unmarshalWelcome evs0 st →
  Forall (addressedEvent unmarshalGroup unmarshalWelcome) (evs0 ++ evs) →
  t ∈ subscribed st → topicWave st !! t = Some w → waves st !! w = Some ws →
  (∀ ev, ev ∈ evs → ¬ names t ev) →
  steps cfg net drain unmarshalGroup unmarshalWelcome evs st st' →
  ∃ frames, outbound st' = outbound st ++ frames ∧ seamOf t (mutateID ws) frames.
Proof.
  intros alive Htr [Ha0 Ha]%Forall_app Hlive Ht Hws Hn Hs.
  pose proof (trace_wf _ _ _ _ _ _ _ Htr) as W.
  pose proof (trace_addressed _ _ _ _ _ _ _ Htr Ha0) as Hp.
  assert (Ho : waveOpen t w (mutateID ws) st) by (split; eauto).
  clear Htr Ha0 Ht Hws. generalize dependent (mutateID ws). intros id Ho.
  induction Hs as [|ev evs st st1 st' Hen Hev Hs IH].
  { exists []. rewrite app_nil_r. split; [done|]. by intros [] ? ? ?. }
  apply Forall_cons in Ha as [Hae Ha].
  destruct (wp_cont _ _ _ _ _ _ (handle_lawful cfg net drain unmarshalGroup unmarshalWelcome
    ev st W Hp Hae) Hev) as (fs & E & F).
  assert (Hq : ∀ f, f ∈ fs → ¬ liveFor t f).
  { rewrite Forall_forall in F. intros [|gs wms tag| | | |] Hf; try (by intros []). intros [-> Hd].
    destruct (F _ Hf) as [_ Hsl]. destruct (Hsl t Hd) as [[_ Hg]|[? _]]; [|done].
    apply Hg. destruct W as [W _]. apply (wf_wave_gate W); [done|]. left. exists w. apply Ho. }
  pose proof (wp_cont _ _ _ _ _ _ (handle_wf cfg net drain unmarshalGroup unmarshalWelcome
    ev st W Hen) Hev) as W1.
  pose proof (wp_cont _ _ _ _ _ _ (handle_pending cfg net drain unmarshalGroup
    unmarshalWelcome _ ev st Hp Hae) Hev) as Hp1.
  assert (Hn1 : ¬ names t ev) by (apply Hn; left).
  destruct (wp_cont _ _ _ _ _ _ (handle_delivers cfg net drain unmarshalGroup unmarshalWelcome
    t ev st W Hn1 Hlive) Hev Hlive) as [Hlive1 _].
  destruct (wp_cont _ _ _ _ _ _ (handle_seam cfg net drain unmarshalGroup unmarshalWelcome
    alive ev st t w id W Hen Hn1 Ho) Hev) as [Ho1|(fs' & E' & Hc)].
  - destruct IH as (fs1 & E1 & H1); try done. { intros ev' ?. apply Hn. by right. }
    exists (fs ++ fs1). rewrite E1, E, app_assoc. split; [done|]. by apply seamOf_quiet.
  - destruct (steps_emits _ _ _ _ _ _ _ _ Hs W1 Hp1 Ha) as [fs1 E1].
    exists (fs ++ fs1). rewrite E1, E, app_assoc. split; [done|].
    apply seamOf_done; [done|]. rewrite E in E'. by apply app_inv_head in E' as <-.
Qed.

Lemma seam_witness :
  ∃ frames, outbound (runS sessionEvents) = outbound (runS (take 1 subscribeEvents)) ++ frames ∧
    seamOf (BuildMLSV1GroupTopic g1) 5 frames.
Proof.
  destruct (waves (runS (take 1 subscribeEvents)) !! 0%nat) as [ws|] eqn:E;
    [|vm_compute in E; done].
  replace 5 with (mutateID ws) by (vm_compute in E; by injection E as <-).
  apply (seam defaultTunables allAccepted Drained unmarshalGroupSample unmarshalWelcomeSample
    (take 1 subscribeEvents) _ (drop 1 sessionEvents) _ _ 0%nat).
  - exact allAccepted_alive.
  - apply trace_runS. vm_compute. by eexists.
  - repeat constructor; simpl; unfold addressed; simpl; by intros m [= <-].
  - apply (bool_decide_unpack _). vm_compute. exact I.
  - vm_compute. reflexivity.
  - exact E.
  - apply Forall_forall. repeat (constructor; [intros []|]). constructor.
  - apply exec_steps. vm_compute. reflexivity.
Defined.
