(* ===== verification/WriterProtocol.v ===== *)
(** Protocol properties of the writer: its invariant, the cap on buffered live messages, atomic
    rejection of invalid Mutates, what completing a wave announces, what an add does, the
    liveness probe, and termination of the half-closed drain. *)

From S2P Require Import Prelude Topic Types Frames Writer WriterLogic WriterInv WriterOrder WriterAccount WriterSeam Sample.

(** * The cap on buffered live messages *)

(** The bytes held for topics that are catching up. *)
Definition bufferedBytes (st : writer) : Z := map_sum envSize (pending st).

Definition shrinks (st st' : writer) : Prop := pendingBytes st' ≤ pendingBytes st.

#[export] Instance shrinks_preorder : PreOrder shrinks.
Proof. unfold shrinks. split; [intros st; lia|]. intros a b c. lia. Qed.

Lemma shrinks_quiet st st' : pendingBytes st' = pendingBytes st → shrinks st st'.
Proof. unfold shrinks. lia. Qed.

Lemma shrinks_book st st' : same_book st st' → shrinks st st'.
Proof. intros Hb%same_book_fields. apply shrinks_quiet. symmetry. apply Hb. Qed.

Lemma shrinks_stays {A} (m : M A) : stays same_book m → stays shrinks m.
Proof. intros Hm st. apply shrinks_book, Hm. Qed.

Lemma envSize_nonneg es : 0 ≤ envSize es.
Proof.
  unfold envSize. induction es as [|e es IH]; simpl; [lia|].
  pose proof (len_nonneg (Message e)). lia.
Qed.

Section Cap.
Context (cfg : tunables) (net : nat → send_result) (drain : flush_result).
Context (unmarshalGroup : bytes → option GroupMessage).
Context (unmarshalWelcome : bytes → option WelcomeMessage).

Lemma forgetTopic_shrinks t st : shrinks st (forgetTopic t st).
Proof.
  unfold shrinks, forgetTopic. pose proof (envSize_nonneg (pendingOf st t)).
  repeat case_bool_decide; simpl; unfold pendingOf in *; simpl; lia.
Qed.

Lemma dropTopic_shrinks t : stays shrinks (dropTopic net t).
Proof.
  intros st. rewrite dropTopic_eq. trans (releaseTopic t st); [|apply shrinks_book, send_book].
  trans (forgetTopic t st); [apply forgetTopic_shrinks|]. apply shrinks_quiet.
  unfold releaseTopic. destruct (topicWave (forgetTopic t st) !! t); [|done]. simpl.
  destruct (waves (forgetTopic t st) !! _); [|done]. by case_bool_decide.
Qed.

Lemma handleMutate_shrinks m : stays shrinks (handleMutate cfg net m).
Proof.
  assert (Ha : ∀ ho byTopic order acc, stays shrinks (applyAdds net ho byTopic order acc)).
  { intros ho byTopic order. induction order as [|t order IH]; intros acc; simpl;
      [apply stays_ret, _|]. destruct (byTopic !! t); [|apply IH].
    apply stays_bind; [apply _| |intros; apply IH].
    unfold applyAdd. stays_steps; try apply dropTopic_shrinks.
    apply shrinks_quiet. unfold openTopic. by destruct ho. }
  unfold handleMutate. stays_steps; try apply Ha.
  - unfold applyRemove. destruct (splitTopic _) as [[kind i]|]; [|apply stays_fail, _].
    apply dropTopic_shrinks.
  - apply shrinks_quiet. unfold countLive. by case_bool_decide.
  - by apply shrinks_quiet.
  - apply shrinks_stays, send_book.
Qed.

Lemma settle_shrinks wave w : stays shrinks (settle unmarshalGroup unmarshalWelcome wave w).
Proof.
  assert (H1 : ∀ t wire acc st,
    shrinks st (settleTopic unmarshalGroup unmarshalWelcome wave t wire acc st).2).
  { intros t wire acc st. unfold settleTopic. case_bool_decide; [done|]. cbv zeta.
    case_bool_decide; [by apply shrinks_quiet|]. destruct (decodePending _ _ _ _).
    unfold shrinks. simpl. pose proof (envSize_nonneg (pendingOf
      (st <| topicWave := delete t (topicWave st) |>) t)). unfold pendingOf in *. simpl in *. lia. }
  intros st. unfold settle. generalize (mkSettled [] [] []). intros acc.
  revert acc st. generalize (w_wire w). induction (w_topics w) as [|t topics IH];
    intros [|b wire] acc st; try (simpl; reflexivity). simpl. specialize (H1 t b acc st).
  destruct (settleTopic _ _ _ _ _ _ _) as [acc1 st1]. trans st1; [done|].
  specialize (IH wire acc1 st1). by destruct (settleTopics _ _ _ _ _ _ _).
Qed.

Lemma handleBatch_shrinks b :
  stays shrinks (handleBatch cfg net drain unmarshalGroup unmarshalWelcome b).
Proof.
  unfold handleBatch, scanDone, completeWave, flush.
  stays_steps; auto using settle_shrinks, shrinks_stays with node; try by apply shrinks_quiet.
  all: apply shrinks_stays; auto with node.
Qed.

Lemma handle_cap ev st :
  pendingBytes st ≤ maxPendingBytes cfg →
  wp (handle cfg net drain unmarshalGroup unmarshalWelcome ev)
    (λ _ st', pendingBytes st' ≤ maxPendingBytes cfg) noExit st.
Proof.
  intros Hp. assert (Hst : ∀ (m : M unit), stays shrinks m →
    wp m (λ _ st', pendingBytes st' ≤ maxPendingBytes cfg) noExit st).
  { intros m Hm. specialize (Hm st). unfold wp, shrinks in *.
    destruct (m st) as [[a|r] st']; [|done]. simpl in *. lia. }
  destruct ev as [| |e|req|r|b|env| |now sent]; try done; simpl in *.
  - apply Hst. destruct req as [[m|n|n|]|]; simpl.
    + apply handleMutate_shrinks.
    + apply shrinks_stays, send_book.
    + stays_steps. apply shrinks_quiet. by case_bool_decide.
    + stays_steps.
    + stays_steps.
  - apply Hst. unfold handleRequestsClosed, flush. stays_steps. by apply shrinks_quiet.
  - apply Hst, handleBatch_shrinks.
  - unfold handleEnvelope. wp_steps. apply wp_if; intros _.
    + wp_steps. apply wp_if; intros C; [done|]. apply bool_decide_eq_false in C.
      wp_steps. lia.
    + apply Hst. apply stays_bind; [apply _|apply shrinks_stays; auto with node|].
      intros fs. apply shrinks_stays, send_book.
  - apply Hst, shrinks_stays, handlePingTick_book.
Qed.
End Cap.

(** Buffered live messages are capped: whenever the handler goes on, the bytes it holds for
    topics that are catching up are at most maxPendingBytes. *)
Theorem pending_capped cfg net drain unmarshalGroup unmarshalWelcome evs st :
  0 ≤ maxPendingBytes cfg →
  trace cfg net drain unmarshalGroup unmarshalWelcome evs st →
  bufferedBytes st ≤ maxPendingBytes cfg.
Proof.
  intros Hc Ht. destruct (trace_wf _ _ _ _ _ _ _ Ht) as [W _]. unfold bufferedBytes.
  rewrite <- (wf_bytes W).
  clear W. destruct Ht as (now & st0 & Ho & Hs).
  assert (H0 : pendingBytes st0 ≤ maxPendingBytes cfg).
  { pose proof (send_book net (startedFrame cfg) (initWriter now)) as Hb. unfold open in Ho.
    rewrite Ho in Hb. apply shrinks_book in Hb. unfold shrinks in Hb. simpl in Hb. lia. }
  clear Ho. induction Hs as [|ev evs st0 st1 st' _ Hev _ IH]; [done|]. apply IH.
  exact (wp_cont _ _ _ _ _ _ (handle_cap cfg net drain unmarshalGroup unmarshalWelcome ev st0 H0)
    Hev).
Qed.

Lemma pending_capped_witness :
  bufferedBytes (runS subscribeEvents) ≤ maxPendingBytesDefault ∧
  bufferedBytes (runS subscribeEvents) = 2.
Proof.
  split; [|vm_compute; reflexivity].
  apply (pending_capped defaultTunables allAccepted Drained unmarshalGroupSample
    unmarshalWelcomeSample subscribeEvents); [vm_compute; discriminate|].
  apply trace_runS. vm_compute. by eexists.
Defined.

(** * Atomic rejection *)

Definition invalidMutate (cfg : tunables) (m : Mutate) (st : writer) : Prop :=
  (mu_Adds m ≠ [] ∧ mu_MutateId m = 0) ∨
  maxMutateAdds cfg < Z.of_nat (length (mu_Adds m)) ∨
  (mu_MutateId m ≠ 0 ∧ ∃ w ws, waves st !! w = Some ws ∧ mutateID ws = mu_MutateId m) ∨
  (∃ add, add ∈ mu_Adds m ∧ wireTopic (add_Topic add) = None).

Lemma mutate_rejected_upfront cfg net m st :
  invalidMutate cfg m st → ∃ e, handleMutate cfg net m st = (Exit (Some e), st).
Proof.
  intros Hbad. unfold handleMutate, mbind, M_bind, gets.
  destruct (validateMutate cfg m st) as [[]|e] eqn:Hv; [|by exists e].
  destruct (parseAdds ([], ∅) (mu_Adds m)) as [[order byTopic]|e] eqn:Hp; [|by exists e].
  exfalso. destruct Hbad as [[H1 H2]|[H1|[(Hid & w & ws & Hw & E)|(add & Hin & Hnone)]]].
  - apply validateMutate_ok in Hv as [Hv _]. by apply Hv.
  - revert Hv. unfold validateMutate. case_bool_decide; [done|]. by rewrite bool_decide_true.
  - apply validateMutate_ok in Hv as [_ Hv]. by apply (Hv Hid w ws).
  - clear -Hp Hin Hnone. revert Hp. generalize (@nil string, (∅ : gmap string addReq)).
    induction (mu_Adds m) as [|a adds IH]; [by apply elem_of_nil in Hin|]. intros p. simpl.
    apply elem_of_cons in Hin as [<-|Hin].
    + destruct p as [o bt]. unfold parseAdd. unfold wireTopic in Hnone.
      by destruct (splitTopic _) as [[kind i]|].
    + destruct (parseAdd p a); [by apply IH|done].
Qed.

Lemma parseAdds_malformed p adds e :
  parseAdds p adds = Err e → ∃ add, add ∈ adds ∧ wireTopic (add_Topic add) = None.
Proof.
  revert p. induction adds as [|a adds IH]; intros p; simpl; [done|].
  destruct (parseAdd p a) as [p1|e1] eqn:E.
  - intros (add & ? & ?)%IH. exists add. split; [by right|done].
  - intros _. exists a. split; [left|]. unfold wireTopic. destruct p as [order m]. unfold parseAdd in E.
    destruct (splitTopic (add_Topic a)) as [[kind i]|]; [|done].
    destruct (m !! _); [case_bool_decide|]; done.
Qed.

Lemma mutate_accepted_upfront cfg m st :
  ¬ invalidMutate cfg m st →
  ∃ p, validateMutate cfg m st = Ok tt ∧ parseAdds ([], ∅) (mu_Adds m) = Ok p.
Proof.
  intros Hv. unfold invalidMutate in Hv. unfold validateMutate.
  rewrite bool_decide_false by tauto. rewrite bool_decide_false by tauto.
  destruct (parseAdds _ _) as [p|e] eqn:Ep; [|apply parseAdds_malformed in Ep; tauto].
  exists p. split; [|done]. destruct (bool_decide (mu_MutateId m ≠ 0)) eqn:Ei; [|done]. simpl.
  apply bool_decide_eq_true_1 in Ei.
  destruct (existsb _ _) eqn:Ex; [|done]. exfalso. apply Hv. right. right. left. split; [done|].
  apply existsb_exists in Ex as ([w ws] & Hin & Heq%bool_decide_eq_true_1).
  exists w, ws. split; [|done]. by apply elem_of_map_to_list, list_elem_of_In.
Qed.

Lemma forEach_stops {A B} (f : A → M unit) before bad after e (k : unit → M B) st :
  (∀ st, f bad st = fail e st) →
  (forEach f (before ++ bad :: after) ≫= k) st = (forEach f before ≫= λ _, fail e) st.
Proof.
  intros Hbad. revert st. induction before as [|a before IH]; intros st; simpl.
  - unfold mbind, M_bind. simpl. by rewrite Hbad.
  - specialize (IH (f a st).2). unfold mbind, M_bind in *. destruct (f a st) as [[[]|r] st1]; [exact IH|done].
Qed.

(** The order of the adds holds the topic of every add, with its request. *)
Lemma parseAdd_holds p add p' t :
  parsed p → parseAdd p add = Ok p' →
  t ∈ p.1 ∨ wireTopic (add_Topic add) = Some t → t ∈ p'.1.
Proof.
  intros (_ & Hdom & _). destruct p as [order m]. unfold parseAdd, wireTopic.
  destruct (splitTopic (add_Topic add)) as [[kind i]|]; [|done]. simpl in *.
  destruct (m !! buildMLSTopic kind i) as [ex|] eqn:Em.
  - assert (Hin : t ∈ order ∨ Some (buildMLSTopic kind i) = Some t → t ∈ order).
    { intros [?|[= <-]]; [done|]. apply Hdom. by rewrite Em. }
    case_bool_decide; intros [= <-]; exact Hin.
  - intros [= <-]. simpl. rewrite elem_of_app, list_elem_of_singleton. naive_solver.
Qed.

Lemma parseAdds_holds adds p p' t :
  parsed p → parseAdds p adds = Ok p' →
  t ∈ p.1 ∨ (∃ add, add ∈ adds ∧ wireTopic (add_Topic add) = Some t) → t ∈ p'.1.
Proof.
  revert p. induction adds as [|a adds IH]; intros p Hp; simpl.
  { intros [= <-] [?|(add & ?%elem_of_nil & _)]; done. }
  destruct (parseAdd p a) as [p1|] eqn:E; [|done]. intros H Ht.
  apply (IH p1); [by eapply parseAdd_parsed|done|].
  destruct Ht as [Ht|(add & [->|Hin]%elem_of_cons & Ht)]; [left|left|right; by exists add];
    (eapply parseAdd_holds; [done..|]); auto.
Qed.

(** A topic that a history_only add contradicts: live or catching up, or with a catch-up of its own
    in flight. *)
Definition contradicts (st : writer) (t : string) : Prop :=
  isActive st t = true ∨ is_Some (topicWave st !! t).

Definition sameButFloors (st st' : writer) : Prop := st' = st <| highWaterMarks := highWaterMarks st' |>.

Lemma applyAdds_contradicted net byTopic order acc t st :
  t ∈ order → (∀ t, t ∈ order → is_Some (byTopic !! t)) → contradicts st t →
  ∃ e st', applyAdds net true byTopic order acc st = (Exit (Some e), st') ∧
    (e = historyOnlyInFlight ∨ e = historyOnlyOnLive) ∧ sameButFloors st st'.
Proof.
  revert acc st. induction order as [|t0 order IH]; intros acc st Hin Hreq Hc; [by apply elem_of_nil in Hin|].
  destruct (Hreq t0 ltac:(left)) as [a Ea]. cbn [applyAdds]. rewrite Ea. unfold applyAdd, mbind, M_bind, gets. change (id st) with st.
  assert (Hst : sameButFloors st st) by (by destruct st).
  destruct (isActive st t0) eqn:E2; simpl.
  { exists historyOnlyOnLive, st. split; [by destruct (bool_decide (is_Some (topicWave st !! t0)))|auto]. }
  destruct (bool_decide (is_Some (topicWave st !! t0))) eqn:Ew; simpl.
  { exists historyOnlyInFlight, st. auto. }
  apply bool_decide_eq_false_1 in Ew.
  apply elem_of_cons in Hin as [->|Hin]; [destruct Hc as [?|?]; [congruence|done]|].
  set (st1 := openTopic true t0 (ar_cursor a) st).
  destruct (IH (collectAdd t0 a false acc) st1) as (e & st' & E & He & Hs); [done|set_solver|done|].
  exists e, st'. unfold modify. simpl. fold st1. split; [exact E|]. split; [done|].
  unfold sameButFloors in *. rewrite Hs. by destruct st.
Qed.

(** C22. A Mutate that is invalid is rejected, with the part of it that has taken effect by then.
    None, the stream's state being exactly as it was: when adds come without a mutate_id, when
    there are more adds than the limit, when the mutate_id is in flight, and when any add's topic is
    malformed. The removes before it: when a remove's topic is malformed. All the removes, and no
    topic or wave of the adds: when the Mutate is history_only and one of its adds is of a topic
    that is live, or that has a catch-up in flight. *)
Theorem invalid_mutate_rejected cfg net m st :
  (invalidMutate cfg m st → ∃ e, handleMutate cfg net m st = (Exit (Some e), st)) ∧
  (¬ invalidMutate cfg m st → ∀ before bad after, mu_Removes m = before ++ bad :: after →
    wireTopic bad = None →
    handleMutate cfg net m st =
      (forEach (applyRemove net) before ≫= λ _, fail (Status InvalidArgument "remove: %v")) st) ∧
  (¬ invalidMutate cfg m st → ∀ st1 add t, mu_HistoryOnly m = true →
    forEach (applyRemove net) (mu_Removes m) st = (Cont tt, st1) →
    add ∈ mu_Adds m → wireTopic (add_Topic add) = Some t → contradicts st1 t →
    ∃ e st2, handleMutate cfg net m st = (Exit (Some e), st2) ∧
      (e = historyOnlyInFlight ∨ e = historyOnlyOnLive) ∧ sameButFloors st1 st2).
Proof.
  split; [by apply mutate_rejected_upfront|]. split.
  - intros Hv before bad after Er Hbad. destruct (mutate_accepted_upfront cfg m st Hv) as (p & Ev & Ep).
    unfold handleMutate, mbind at 1, M_bind at 1, gets. rewrite Ev, Ep. destruct p as [order byTopic].
    rewrite Er. apply forEach_stops. unfold applyRemove. unfold wireTopic in Hbad.
    by destruct (splitTopic bad) as [[kind i]|].
  - intros Hv st1 add t Hho Hrem Hin Ht Hc. destruct (mutate_accepted_upfront cfg m st Hv) as (p & Ev & Ep).
    destruct p as [order byTopic]. pose proof (parseAdds_parsed _ _ _ parsed_nil Ep) as (_ & Hdom & _).
    pose proof (parseAdds_holds _ _ _ t parsed_nil Ep ltac:(right; by exists add)) as Hord. simpl in *.
    destruct (applyAdds_contradicted net byTopic order noAdds t st1 Hord ltac:(by intros ? ?%Hdom) Hc)
      as (e & st2 & E & He & Hs).
    exists e, st2. unfold handleMutate, mbind, M_bind, gets. rewrite Ev, Ep, Hrem, Hho, E. done.
Qed.

Lemma invalid_mutate_rejected_witness :
  (∃ e, handleMutate defaultTunables allAccepted
    {| mu_Adds := [mkAdd (wireGroup g2) 0]; mu_Removes := [wireGroup g1];
       mu_HistoryOnly := false; mu_MutateId := 5 |}
    (runS subscribeEvents) = (Exit (Some e), runS subscribeEvents)) ∧
  (handleMutate defaultTunables allAccepted
    {| mu_Adds := []; mu_Removes := [wireGroup g1; EmptyString]; mu_HistoryOnly := false; mu_MutateId := 0 |}
    (runS subscribeEvents)).1 = Exit (Some (Status InvalidArgument "remove: %v")).
Proof.
  split.
  - apply (proj1 (invalid_mutate_rejected _ _ _ _)). right. right. left. split; [done|].
    destruct (waves (runS subscribeEvents) !! 0%nat) as [ws|] eqn:E; [|vm_compute in E; done].
    exists 0%nat, ws. split; [exact E|]. vm_compute in E. by injection E as <-.
  - destruct (invalid_mutate_rejected defaultTunables allAccepted
      {| mu_Adds := []; mu_Removes := [wireGroup g1; EmptyString]; mu_HistoryOnly := false; mu_MutateId := 0 |}
      (runS subscribeEvents)) as (_ & H & _).
    rewrite (λ Hv, H Hv [wireGroup g1] EmptyString [] eq_refl eq_refl); [vm_compute; reflexivity|].
    intros [[Hv _]|[Hv|[[Hv _]|(add & Hv%elem_of_nil & _)]]]; [by apply Hv|by vm_compute in Hv|by apply Hv|done].
Defined.

(** * What completing a wave announces *)

(** The wire topics, in the order of the Mutate, of the topics a wave still owns. *)
Fixpoint ownedWires (st : writer) (wave : nat) (topics : list string) (wire : list bytes)
    : list bytes :=
  match topics, wire with
  | t :: topics, b :: wire =>
      if decide (topicWave st !! t = Some wave) then b :: ownedWires st wave topics wire
      else ownedWires st wave topics wire
  | _, _ => []
  end.

Lemma ownedWires_ext st st' wave topics wire :
  (∀ t, t ∈ topics → topicWave st' !! t = topicWave st !! t) →
  ownedWires st' wave topics wire = ownedWires st wave topics wire.
Proof.
  revert wire. induction topics as [|t topics IH]; intros [|b wire] Ht; try done. simpl.
  rewrite (Ht t) by left. rewrite IH; [done|]. intros t' ?. apply Ht. by right.
Qed.

Lemma ownedWires_nonempty st wave topics wire t :
  length topics = length wire → t ∈ topics → topicWave st !! t = Some wave →
  ownedWires st wave topics wire ≠ [].
Proof.
  revert wire. induction topics as [|t' topics IH]; intros [|b wire] Hl Hin Ht;
    try (by apply elem_of_nil in Hin); try done. simpl.
  apply elem_of_cons in Hin as [<-|Hin]; [by rewrite decide_True|].
  case_decide; [done|]. apply IH; [simpl in Hl; lia|done..].
Qed.

(** A wave in flight owns a topic. *)
Lemma wave_owns st w ws :
  wave_ok st w ws → ∃ t, t ∈ w_topics ws ∧ topicWave st !! t = Some w.
Proof.
  intros []. apply (count_pos_inv (λ t, topicWave st !! t = Some w)). by rewrite <- wo_owned.
Qed.

Section Complete.
Context (ug : bytes → option GroupMessage) (uw : bytes → option WelcomeMessage).

Lemma settleTopic_spec wave t b acc st :
  let '(acc', st') := settleTopic ug uw wave t b acc st in
  s_marker acc' = s_marker acc ++ (if decide (topicWave st !! t = Some wave) then [b] else []) ∧
  (topicWave st !! t = Some wave → topicWave st' !! t = None) ∧
  (∀ t', t' ≠ t → topicWave st' !! t' = topicWave st !! t') ∧ subscribed st' = subscribed st.
Proof.
  unfold settleTopic. case_bool_decide as Hw; [by rewrite decide_False, app_nil_r by done|].
  cbv zeta. rewrite decide_True by done.
  case_bool_decide; [|destruct (decodePending _ _ _ _)]; simpl;
    (split_and!; [done|intros _; by rewrite lookup_delete_eq| |done]);
    intros t' Hne; by rewrite lookup_delete_ne.
Qed.

Lemma settleTopics_spec wave topics wire acc st :
  NoDup topics → length topics = length wire →
  let '(acc', st') := settleTopics ug uw wave topics wire acc st in
  s_marker acc' = s_marker acc ++ ownedWires st wave topics wire ∧
  (∀ t, t ∈ topics → topicWave st !! t = Some wave → topicWave st' !! t = None) ∧
  (∀ t, t ∉ topics → topicWave st' !! t = topicWave st !! t) ∧ subscribed st' = subscribed st.
Proof.
  revert wire acc st. induction topics as [|t topics IH]; intros [|b wire] acc st Hd Hl;
    try done; simpl.
  { rewrite app_nil_r. split_and!; try done. by intros t ?%elem_of_nil. }
  apply NoDup_cons in Hd as [Hnt Hd]. pose proof (settleTopic_spec wave t b acc st) as H1.
  destruct (settleTopic _ _ _ _ _ _ _) as [acc1 st1]. destruct H1 as (M1 & T1 & O1 & S1).
  specialize (IH wire acc1 st1 Hd ltac:(simpl in Hl; lia)).
  destruct (settleTopics _ _ _ _ _ _ _) as [acc2 st2]. destruct IH as (M2 & T2 & O2 & S2).
  rewrite (ownedWires_ext st) in M2 by (intros t' ?; apply O1; by intros ->).
  split_and!; [|intros t' [->|Hin]%elem_of_cons Ht'|intros t' Hn|congruence].
  - rewrite M2, M1, <- app_assoc. by case_decide.
  - by rewrite O2, T1.
  - apply T2; [done|]. rewrite O1; [done|by intros ->].
  - apply not_elem_of_cons in Hn as [? ?]. by rewrite O2, O1.
Qed.
End Complete.

(** What a completed wave leaves: its announcement was sent last, its topics are open, nothing is
    buffered for them, and no topic was unregistered. *)
Definition announcedWave (st st' : writer) (wave : nat) (ws : waveState) : Prop :=
  (∃ fs, outbound st' = outbound st ++ fs ++
    [TopicsLive (ownedWires st wave (w_topics ws) (w_wire ws)); CatchupComplete (mutateID ws)]) ∧
  subscribed st' = subscribed st ∧ waves st' = delete wave (waves st) ∧
  ∀ t, topicWave st !! t = Some wave → topicWave st' !! t = None.

Section Completion.
Context (cfg : tunables) (net : nat → send_result) (drain : flush_result).
Context (ug : bytes → option GroupMessage) (uw : bytes → option WelcomeMessage).
Context (alive : ∀ i, net i ≠ SendStreamDone).

Lemma completeWave_announced wave w w0 st :
  wf_upto [] 0 None st → waves st !! wave = Some w0 →
  w_topics w = w_topics w0 → w_wire w = w_wire w0 → mutateID w = mutateID w0 →
  wp (completeWave cfg net ug uw wave w) (λ _ st', announcedWave st st' wave w0) noExit st.
Proof.
  intros W Hw Ht Hwi Hid. unfold completeWave, settle. wp_steps. unfold wp at 1.
  pose proof (wf_waves W _ _ Hw ltac:(done)) as Hok. destruct (wave_owns _ _ _ Hok) as
    (towned & Hin & Hown). destruct Hok. pose proof (Forall2_length _ _ _ wo_wire) as Hl.
  pose proof (settleTopics_spec ug uw wave (w_topics w) (w_wire w) (mkSettled [] [] []) st) as Hs.
  pose proof (settleTopics_outbound ug uw wave (w_topics w) (w_wire w) (mkSettled [] [] []) st)
    as Ho.
  pose proof (proj2 (settleTopics_owed ug uw 0 wave (w_topics w) (w_wire w)
    (mkSettled [] [] []) st)) as Hwv.
  rewrite Ht, Hwi in *. destruct (settleTopics _ _ _ _ _ _ _) as [acc st1]. simpl in *.
  destruct (Hs wo_nodup Hl) as (Hm & Hgone & _ & Hsub). wp_steps.
  assert (Hne : s_marker acc ≠ []).
  { rewrite Hm. by apply (ownedWires_nonempty _ _ _ _ towned). }
  set (st2 := st1 <| waves := delete wave (waves st1) |>).
  eapply wp_conseq; [apply wp_conj; [apply groupFrames_outbound|
    apply stays_wp, (groupFrames_book cfg)]| |done].
  intros gf st3 [O3 B3]. wp_steps. eapply wp_conseq; [apply wp_conj; [apply welcomeFrames_outbound|
    apply stays_wp, (welcomeFrames_book cfg)]| |done].
  intros wf' st4 [O4 B4]. eapply wp_conseq; [apply wp_conj; [by apply send_alive|
    apply stays_wp, (send_book net)]| |done].
  intros [] st5 [O5 B5]. assert (Hb : same_book st2 st5) by (etrans; [|done]; by etrans).
  apply same_book_fields in Hb as (Ew & _ & Et & Es & _). unfold announcedWave.
  rewrite <- Ew, <- Et, <- Es. simpl. rewrite Hwv. split_and!; try done.
  - exists (gf ++ wf'). rewrite O5, O4, O3. simpl. rewrite Ho, <- Hm, Hid.
    destruct (s_marker acc); [done|]. unfold catchupCompleteFrame. simpl.
    by rewrite <- !app_assoc.
  - intros t Hw'. apply Hgone; [|done]. destruct (wf_owner W _ _ Hw') as (? & ? & ?).
    by simplify_eq.
Qed.

Lemma handleBatch_announced b st ws :
  wf st → waves st !! cb_wave b = Some ws → scansLeft ws = 1 → cb_done b = true →
  wp (handleBatch cfg net drain ug uw b) (λ _ st', announcedWave st st' (cb_wave b) ws)
    noExit st.
Proof.
  intros [W Hh] Hw H1 Hd. unfold handleBatch. destruct (cb_err b); [done|]. wp_steps. simpl.
  rewrite Hw. set (st1 := st <| freedBytes := freedBytes st + cb_bytes b |>).
  pose (I := λ st', same_book st1 st' ∧ ∃ fs, outbound st' = outbound st1 ++ fs).
  apply wp_bind, (wp_mono _ (λ _, I)).
  { eapply wp_conseq; [apply wp_conj; [apply stays_wp, (historyFrames_book cfg)|]| |done].
    - instantiate (1 := noExit). instantiate (1 := λ _ st', outbound st' = outbound st1).
      unfold historyFrames. wp_steps. destruct (cb_groupMsgs b);
        [destruct (cb_welcomeMsgs b); [done|]|];
        [apply welcomeFrames_outbound|apply groupFrames_outbound].
    - intros fs st2 [Hb E]. split; [done|]. exists []. by rewrite E, app_nil_r. }
  intros hist st2 [B2 [fs2 O2]]. apply wp_bind, (wp_mono _ (λ _, I)).
  { eapply wp_conseq; [apply wp_conj; [by apply send_alive|apply stays_wp, (send_book net)]|
      |done].
    intros [] st3 [O3 B3]. split; [by etrans|]. exists (fs2 ++ hist).
    by rewrite O3, O2, app_assoc. }
  intros [] st3 [B3 [fs3 O3]]. rewrite Hd. unfold scanDone.
  apply wp_if; [intros C%bool_decide_eq_true; simpl in C; lia|intros _]. wp_steps.
  apply same_book_fields in B3 as Hf. destruct Hf as (Ew & Eh & Et & Es & _).
  eapply wp_mono; [apply (completeWave_announced _ _ ws); simpl; try done|].
  - by apply (wf_upto_book _ _ _ st).
  - by rewrite <- Ew.
  - intros [] st4 ((fs4 & O4) & S4 & W4 & T4). wp_steps. apply wp_if; intros _; [done|]. wp_steps.
    unfold announcedWave. rewrite S4, W4, <- Es, <- Ew. split_and!; try done.
    + exists (fs3 ++ fs4). rewrite O4, O3, <- !app_assoc. simpl. do 4 f_equal.
      by rewrite (ownedWires_ext st) by (intros; by rewrite <- Et).
    + intros t. specialize (T4 t). by rewrite <- Et in T4.
Qed.
End Completion.

(** C19. Completing a wave: when the last scan of a wave drains and the stream goes on, the last
    two frames sent are one TopicsLive naming exactly the wire topics, in order, that the wave
    still owned (there is at least one), and the wave's CatchupComplete; its topics are then out
    of the wave and ungated with nothing buffered, and the registrations are unchanged. *)
Theorem wave_completion cfg net drain unmarshalGroup unmarshalWelcome evs st b ws st' :
  (∀ i, net i ≠ SendStreamDone) →
  trace cfg net drain unmarshalGroup unmarshalWelcome evs st →
  waves st !! cb_wave b = Some ws → scansLeft ws = 1 → cb_done b = true →
  handle cfg net drain unmarshalGroup unmarshalWelcome (EvBatch b) st = (Cont tt, st') →
  ownedWires st (cb_wave b) (w_topics ws) (w_wire ws) ≠ [] ∧
  (∃ fs, outbound st' = outbound st ++ fs ++
    [TopicsLive (ownedWires st (cb_wave b) (w_topics ws) (w_wire ws));
     CatchupComplete (mutateID ws)]) ∧
  subscribed st' = subscribed st ∧
  ∀ t, topicWave st !! t = Some (cb_wave b) →
    (topicWave st' !! t = None) ∧ (t ∉ catchingUp st') ∧ (pending st' !! t = None).
Proof.
  intros alive Ht Hw H1 Hd Hh. pose proof (trace_wf _ _ _ _ _ _ _ Ht) as W.
  destruct (wp_cont _ _ _ _ _ _ (handleBatch_announced cfg net drain unmarshalGroup
    unmarshalWelcome alive b st ws W Hw H1 Hd) Hh) as (Ho & Hs & _ & Ht').
  destruct (wp_cont _ _ _ _ _ _ (handle_wf cfg net drain unmarshalGroup unmarshalWelcome
    (EvBatch b) st W I) Hh) as [W' _].
  split; [|split; [done|split; [done|]]].
  - destruct W as [W _]. pose proof (wf_waves W _ _ Hw ltac:(done)) as Hok.
    destruct (wave_owns _ _ _ Hok) as (t & Hin & Hown). destruct Hok.
    apply (ownedWires_nonempty _ _ _ _ t); [by eapply Forall2_length|done..].
  - intros t Hown. specialize (Ht' t Hown). split; [done|].
    assert (t ∉ catchingUp st').
    { intros [Hx|?%elem_of_nil]%(wf_gate_wave W'); [|done]. rewrite Ht' in Hx. by destruct Hx. }
    split; [done|]. by eapply pending_gated.
Qed.

Lemma wave_completion_witness :
  let st := runS subscribeEvents in
  let st' := (handleS (doneBatch 0%nat) st).2 in
  (∃ fs, outbound st' = outbound st ++ fs ++
    [TopicsLive [wireGroup g1; wireWelcome k1]; CatchupComplete 5]).
Proof.
  destruct (waves (runS subscribeEvents) !! 0%nat) as [ws|] eqn:E; [|vm_compute in E; done].
  assert (E' := E). vm_compute in E'. injection E' as E'.
  pose proof (wave_completion defaultTunables allAccepted Drained unmarshalGroupSample
    unmarshalWelcomeSample subscribeEvents (runS subscribeEvents) (mkBatch [] [] 0 0 true None) ws
    (handleS (doneBatch 0%nat) (runS subscribeEvents)).2 allAccepted_alive) as H.
  destruct H as (_ & Ho & _).
  - apply trace_runS. vm_compute. by eexists.
  - exact E.
  - by rewrite <- E'.
  - done.
  - vm_compute. reflexivity.
  - rewrite <- E' in Ho. exact Ho.
Defined.

(** * The liveness probe *)

(** The probe's fields are untouched. *)
Definition probeKept (st st' : writer) : Prop :=
  awaitingPong st' = awaitingPong st ∧ pingNonce st' = pingNonce st ∧
  pingSentAt st' = pingSentAt st ∧ halfClosed st' = halfClosed st.

#[export] Instance probeKept_preorder : PreOrder probeKept.
Proof.
  split; [by intros st|]. intros a b c (? & ? & ? & ?) (? & ? & ? & ?). split_and!; congruence.
Qed.

Section Probe.
Context (cfg : tunables) (net : nat → send_result) (drain : flush_result).
Context (ug : bytes → option GroupMessage) (uw : bytes → option WelcomeMessage).

Lemma send_probe fs : stays probeKept (send net fs).
Proof. intros st. unfold send. destruct fs; [done|]. simpl. by destruct (net _). Qed.

Lemma groupFrames_probe msgs id : stays probeKept (groupFrames cfg msgs id).
Proof. intros st. unfold groupFrames. by destruct (buildGroupFrames _ _ _ _). Qed.

Lemma welcomeFrames_probe msgs id : stays probeKept (welcomeFrames cfg msgs id).
Proof. intros st. unfold welcomeFrames. by destruct (buildWelcomeFrames _ _ _ _). Qed.

Lemma dropTopic_probe t : stays probeKept (dropTopic net t).
Proof.
  unfold dropTopic. stays_steps; try done; try apply send_probe.
  unfold forgetTopic. by repeat case_bool_decide.
Qed.

Lemma handleMutate_probe m : stays probeKept (handleMutate cfg net m).
Proof.
  assert (Ha : ∀ ho byTopic order acc, stays probeKept (applyAdds net ho byTopic order acc)).
  { intros ho byTopic order. induction order as [|t order IH]; intros acc; simpl;
      [apply stays_ret, _|]. destruct (byTopic !! t); [|apply IH].
    apply stays_bind; [apply _| |intros; apply IH].
    unfold applyAdd. stays_steps; try apply dropTopic_probe.
    unfold openTopic. by destruct ho. }
  unfold handleMutate. stays_steps; try apply Ha; try apply send_probe; try done.
  - unfold applyRemove. destruct (splitTopic _) as [[kind i]|]; [|apply stays_fail, _].
    apply dropTopic_probe.
  - unfold countLive. by case_bool_decide.
Qed.

Lemma settle_probe wave w : stays probeKept (settle ug uw wave w).
Proof.
  intros st. unfold settle. generalize (mkSettled [] [] []). intros acc.
  revert acc st. generalize (w_wire w). induction (w_topics w) as [|t topics IH];
    intros [|b wire] acc st; try (simpl; reflexivity). simpl.
  destruct (settleTopic _ _ _ _ _ _ _) as [acc1 st1] eqn:E. trans st1.
  - revert E. unfold settleTopic. case_bool_decide; [by intros [= <- <-]|]. cbv zeta.
    case_bool_decide; [by intros [= <- <-]|]. destruct (decodePending _ _ _ _).
    by intros [= <- <-].
  - specialize (IH wire acc1 st1). by destruct (settleTopics _ _ _ _ _ _ _).
Qed.

Lemma handleBatch_probe b : stays probeKept (handleBatch cfg net drain ug uw b).
Proof.
  unfold handleBatch, historyFrames, scanDone, completeWave, flush. stays_steps; try done;
    auto using settle_probe, send_probe, groupFrames_probe, welcomeFrames_probe.
Qed.

Lemma handleEnvelope_probe env : stays probeKept (handleEnvelope cfg net ug uw env).
Proof.
  unfold handleEnvelope, liveFrames. stays_steps; try done;
    auto using send_probe, groupFrames_probe, welcomeFrames_probe.
Qed.

(** Events that neither answer the probe nor close the client's side leave it outstanding. *)
Definition unanswered (nonce : Z) (ev : event) : Prop :=
  ev ≠ EvRequest (Some (ReqPong nonce)) ∧ ∀ r, ev ≠ EvRequestsClosed r.

Lemma handle_probe ev st :
  awaitingPong st = true → halfClosed st = false → unanswered (pingNonce st) ev →
  wp (handle cfg net drain ug uw ev) (λ _, probeKept st) noExit st.
Proof.
  intros Ha Hh [Hn Hc]. assert (Hst : ∀ (m : M unit), stays probeKept m →
    wp m (λ _, probeKept st) noExit st) by (intros m; apply stays_wp).
  destruct ev as [| |e|req|r|b|env| |now sent]; try done; simpl in *.
  - destruct req as [[m|n|n|]|]; try done; simpl.
    + apply Hst, handleMutate_probe.
    + apply Hst, send_probe.
    + wp_steps. rewrite bool_decide_false; [done|]. by intros ->.
  - by destruct (Hc r).
  - apply Hst, handleBatch_probe.
  - apply Hst, handleEnvelope_probe.
  - unfold handlePingTick. wp_steps. unfold id. rewrite Hh, Ha. by apply wp_if.
Qed.
End Probe.

(** A peer that stops answering is reaped: once a Ping is outstanding, no other traffic
    (mutations, the client's own Pings, Pongs with another nonce, history, live messages) keeps
    the stream alive; the first tick at or past the pong deadline returns DeadlineExceeded. *)
Theorem silent_peer_reaped cfg net drain unmarshalGroup unmarshalWelcome evs st st' now sent :
  awaitingPong st = true → halfClosed st = false →
  (∀ ev, ev ∈ evs → unanswered (pingNonce st) ev) →
  steps cfg net drain unmarshalGroup unmarshalWelcome evs st st' →
  pongDeadline cfg ≤ now - pingSentAt st →
  handle cfg net drain unmarshalGroup unmarshalWelcome (EvPingTick now sent) st'
    = (Exit (Some (Status DeadlineExceeded "no Pong within deadline")), st').
Proof.
  intros Ha Hh Hn Hs Hd. assert (Hk : probeKept st st').
  { clear Hd. induction Hs as [|ev evs st st1 st' _ Hev _ IH]; [done|].
    pose proof (wp_cont _ _ _ _ _ _ (handle_probe cfg net drain unmarshalGroup unmarshalWelcome
      ev st Ha Hh (Hn ev ltac:(left))) Hev) as H1. trans st1; [done|].
    destruct H1 as (E1 & E2 & _ & E4). apply IH; [congruence..|].
    intros ev' ?. rewrite E2. apply Hn. by right. }
  destruct Hk as (E1 & _ & E3 & E4). simpl. unfold handlePingTick, gets, mbind, M_bind. simpl.
  rewrite E4, Hh, E1, Ha, E3, bool_decide_true by done. done.
Qed.

Lemma silent_peer_reaped_witness :
  let st := runS [EvPingTick (40 * Second) (40 * Second)] in
  let st' := runS ([EvPingTick (40 * Second) (40 * Second)] ++ subscribeEvents) in
  handleS (EvPingTick (75 * Second) (75 * Second)) st'
    = (Exit (Some (Status DeadlineExceeded "no Pong within deadline")), st') ∧
  pingNonce st = 1.
Proof.
  split; [|vm_compute; reflexivity].
  apply (silent_peer_reaped defaultTunables allAccepted Drained unmarshalGroupSample
    unmarshalWelcomeSample subscribeEvents (runS [EvPingTick (40 * Second) (40 * Second)])).
  - vm_compute. reflexivity.
  - vm_compute. reflexivity.
  - apply Forall_forall. repeat (constructor; [by split; [done|intros]|]). constructor.
  - apply exec_steps. vm_compute. reflexivity.
  - vm_compute. discriminate.
Defined.

(** * The half-closed drain terminates *)

Definition accepting (net : nat → send_result) : Prop := ∀ i, ∃ now, net i = Accepted now.

(** The scans the waves in flight still wait for. *)
Definition outstanding (st : writer) : Z := map_sum scansLeft (waves st).

Definition noReturn : option error → writer → Prop := λ _ _, False.

Section Drain.
Context (cfg : tunables) (net : nat → send_result) (drain : flush_result).
Context (ug : bytes → option GroupMessage) (uw : bytes → option WelcomeMessage).
Context (Hnet : accepting net).

Lemma wp_send_accepted fs st : wp (send net fs) (λ _, same_book st) noReturn st.
Proof.
  unfold wp. pose proof (send_book net fs st) as Hb. unfold send in *.
  destruct fs as [|f fs]; [done|]. simpl in *. by destruct (Hnet (length (sendLog st))) as [now ->].
Qed.

Lemma wp_groupFrames_book msgs id st :
  wp (groupFrames cfg msgs id) (λ _, same_book st) noReturn st.
Proof. unfold wp, groupFrames. by destruct (buildGroupFrames _ _ _ _). Qed.

Lemma wp_welcomeFrames_book msgs id st :
  wp (welcomeFrames cfg msgs id) (λ _, same_book st) noReturn st.
Proof. unfold wp, welcomeFrames. by destruct (buildWelcomeFrames _ _ _ _). Qed.

Lemma wp_historyFrames_book b id st :
  wp (historyFrames cfg b id) (λ _, same_book st) noReturn st.
Proof.
  unfold historyFrames. wp_steps. destruct (cb_groupMsgs b); [destruct (cb_welcomeMsgs b)|];
    auto using wp_groupFrames_book, wp_welcomeFrames_book. done.
Qed.

Lemma wp_completeWave_total wave w st :
  wp (completeWave cfg net ug uw wave w)
    (λ _ st', waves st' = delete wave (waves st) ∧ halfClosed st' = halfClosed st) noReturn st.
Proof.
  unfold completeWave, settle. wp_steps. unfold wp at 1.
  pose proof (proj2 (settleTopics_owed ug uw 0 wave (w_topics w) (w_wire w)
    (mkSettled [] [] []) st)) as Hwv.
  pose proof (settle_probe ug uw wave w st) as (_ & _ & _ & Hh). unfold settle in Hh.
  destruct (settleTopics _ _ _ _ _ _ _) as [acc st1]. simpl in *. wp_steps.
  eapply wp_mono; [apply wp_groupFrames_book|]. intros gf st2 B2. wp_steps.
  eapply wp_mono; [apply wp_welcomeFrames_book|]. intros wf' st3 B3.
  eapply wp_mono; [apply wp_send_accepted|]. intros [] st4 B4.
  assert (Hb : same_book (st1 <| waves := delete wave (waves st1) |>) st4)
    by (trans st3; [by trans st2|done]).
  apply same_book_fields in Hb as (<- & <- & _). simpl. by rewrite Hwv.
Qed.

Lemma handleBatch_drains b w st :
  waves st !! cb_wave b = Some w → cb_err b = None → cb_done b = true → halfClosed st = true →
  wp (handleBatch cfg net drain ug uw b)
    (λ _ st', waves st' ≠ ∅ ∧ halfClosed st' = true ∧
      outstanding st' = outstanding st - (if bool_decide (1 < scansLeft w) then 1 else scansLeft w))
    (λ r st', flush (A := unit) drain st' = (Exit r, st') ∧ waves st' = ∅) st.
Proof.
  intros Hw He Hd Hh. unfold handleBatch. rewrite He. wp_steps. simpl. rewrite Hw.
  set (st1 := st <| freedBytes := freedBytes st + cb_bytes b |>).
  apply wp_bind. eapply wp_conseq; [apply wp_historyFrames_book| |done].
  intros hist st2 B2. apply wp_bind. eapply wp_conseq; [apply wp_send_accepted| |done].
  intros [] st3 B3. rewrite Hd. assert (Hb : same_book st1 st3) by by trans st2.
  apply same_book_fields in Hb as (Ew & Eh & _). simpl in Ew, Eh.
  unfold scanDone. case_bool_decide as C; simpl in C.
  - wp_steps. split; [apply insert_non_empty|]. split; [simpl; by rewrite <- Eh|].
    unfold outstanding. simpl. rewrite <- Ew, map_sum_insert, Hw. simpl.
    rewrite bool_decide_true by lia. lia.
  - wp_steps. eapply wp_conseq; [apply wp_completeWave_total| |done].
    intros [] st4 (W4 & H4). wp_steps. rewrite H4, <- Eh, Hh. simpl.
    apply wp_if; intros C4; wp_steps.
    + apply bool_decide_eq_true in C4. unfold flush. by wp_steps.
    + apply bool_decide_eq_false in C4. split; [done|]. split; [by rewrite H4, <- Eh|].
      unfold outstanding. rewrite W4, <- Ew, map_sum_delete, Hw. simpl.
      rewrite bool_decide_false by lia. lia.
Qed.
End Drain.

(** C21. A half-closed stream ends by itself: after half-close, with the sender accepting frames,
    each done marker of a wave in flight either makes the handler return flush's result, with
    every wave answered, or leaves strictly fewer scans outstanding and a wave still in flight
    (whose markers its scans will send); it never waits on the client. *)
Theorem half_close_drains cfg net drain unmarshalGroup unmarshalWelcome evs st b :
  accepting net →
  trace cfg net drain unmarshalGroup unmarshalWelcome evs st →
  halfClosed st = true → is_Some (waves st !! cb_wave b) →
  cb_err b = None → cb_done b = true →
  ∃ res st', handle cfg net drain unmarshalGroup unmarshalWelcome (EvBatch b) st = (res, st') ∧
    match res with
    | Exit r => flush (A := unit) drain st' = (Exit r, st') ∧ waves st' = ∅
    | Cont _ => waves st' ≠ ∅ ∧ halfClosed st' = true ∧ 0 < outstanding st' < outstanding st
    end.
Proof.
  intros Hnet Ht Hh [w Hw] He Hd. destruct (trace_wf _ _ _ _ _ _ _ Ht) as [W Hne].
  pose proof (handleBatch_drains cfg net drain unmarshalGroup unmarshalWelcome Hnet b w st
    Hw He Hd Hh) as H.
  pose proof (handle_wf cfg net drain unmarshalGroup unmarshalWelcome (EvBatch b) st
    (conj W Hne) I) as W'. unfold wp in H, W'. simpl in *.
  destruct (handleBatch _ _ _ _ _ b st) as [[[]|r] st'] eqn:E; eexists _, _; (split; [done|]);
    [|done]. destruct H as (H1 & H2 & H3). split; [done|]. split; [done|].
  destruct (wf_waves W _ _ Hw) as []; [done|]. split.
  - apply map_choose in H1 as (i & x & Hx). destruct W' as [W' _].
    unfold outstanding. apply (map_sum_pos scansLeft _ i x); [|done|].
    + intros j y Hy. destruct (wf_waves W' _ _ Hy) as []; [done|lia].
    + destruct (wf_waves W' _ _ Hx) as []; [done|lia].
  - case_bool_decide; lia.
Qed.

Lemma half_close_drains_witness :
  let st := runS (subscribeEvents ++ [EvRequestsClosed None]) in
  ∃ res st', handleS (doneBatch 0%nat) st = (res, st') ∧
    match res with
    | Exit r => flush (A := unit) Drained st' = (Exit r, st') ∧ waves st' = ∅
    | Cont _ => waves st' ≠ ∅ ∧ halfClosed st' = true ∧ 0 < outstanding st' < outstanding st
    end.
Proof.
  apply (half_close_drains defaultTunables allAccepted Drained unmarshalGroupSample
    unmarshalWelcomeSample (subscribeEvents ++ [EvRequestsClosed None])).
  - intros i. by exists 1.
  - apply trace_runS. vm_compute. by eexists.
  - vm_compute. reflexivity.
  - vm_compute. by eexists.
  - reflexivity.
  - reflexivity.
Defined.

(** * What an add does *)

(** The scan an add of a topic starts. *)
Definition scanOf (kind : Z) (id : bytes) (cursor : Z) (wave : nat) : scan :=
  if bool_decide (kind = topicKindGroupMessagesV1)
  then scanGroups [mkGroupCatchup id cursor] wave
  else scanWelcomes [mkWelcomeCatchup id cursor] wave.

(** The Mutate that subscribes to one topic. *)
Definition addOne (wire : bytes) (cursor mutateId : Z) : Mutate :=
  {| mu_Adds := [mkAdd wire cursor]; mu_Removes := []; mu_HistoryOnly := false;
     mu_MutateId := mutateId |}.

(** The topic is freshly catching up from [cursor] in wave [wave]. *)
Definition freshAdd (t : string) (cursor : Z) (wave : nat) (sc : scan) (st st' : writer) : Prop :=
  topicFloor t st' = cursor ∧ t ∈ subscribed st' ∧ t ∈ catchingUp st' ∧
  pending st' !! t = None ∧ topicWave st' !! t = Some wave ∧ launched st' = launched st ++ [sc].

Section Add.
Context (cfg : tunables) (net : nat → send_result).
Context (Hnet : accepting net) (Hmax : 1 ≤ maxMutateAdds cfg).
Context (wire : bytes) (kind : Z) (id : bytes) (cursor mid : Z).
Context (Hsplit : splitTopic wire = Ok (kind, id)) (Hmid : mid ≠ 0).

Local Abbreviation t := (buildMLSTopic kind id).
Local Abbreviation req := (mkAddReq wire kind id cursor).

(** A valid single add runs the body of the loop over the adds once. *)
Lemma addOne_runs st :
  unused mid st →
  handleMutate cfg net (addOne wire cursor mid) st =
    (applyAdd net false t req noAdds ≫= λ acc,
     modify (countLive (newlyLive acc)) ≫= λ _,
     if bool_decide (0 < length (groupAdds acc) + length (welcomeAdds acc))%nat
     then modify (startWave mid acc) else send net (catchupCompleteFrame mid)) st.
Proof.
  intros Hu. unfold handleMutate, mbind, M_bind, gets. simpl.
  assert (Hv : validateMutate cfg (addOne wire cursor mid) st = Ok tt).
  { unfold validateMutate. simpl. rewrite bool_decide_false by naive_solver.
    rewrite bool_decide_false by lia.
    destruct (existsb _ _) eqn:E; [|by rewrite andb_false_r].
    apply existsb_exists in E as ((w & ws) & Hin & Hid%bool_decide_eq_true).
    apply list_elem_of_In, elem_of_map_to_list in Hin. by destruct (Hu w ws Hin). }
  rewrite Hv. unfold parseAdd. simpl. rewrite Hsplit, lookup_empty. simpl.
  unfold applyAdds. rewrite lookup_insert_eq. unfold mbind, M_bind.
  destruct (applyAdd net false _ req noAdds st) as [[acc|r] st']; done.
Qed.

Lemma releaseTopic_quiet t' st :
  nextWave (releaseTopic t' st) = nextWave st ∧ launched (releaseTopic t' st) = launched st.
Proof.
  assert (Hf : nextWave (forgetTopic t' st) = nextWave st ∧
    launched (forgetTopic t' st) = launched st)
    by (unfold forgetTopic; by repeat case_bool_decide).
  destruct Hf as [<- <-]. unfold releaseTopic. generalize (forgetTopic t' st). clear st.
  intros st. destruct (topicWave st !! t'); [|done]. simpl. destruct (waves st !! _); [|done].
  by case_bool_decide.
Qed.

(** Opening the topic and starting its wave. *)
Lemma open_start st :
  pending st !! t = None →
  freshAdd t cursor (nextWave st) (scanOf kind id cursor (nextWave st)) st
    (startWave mid (collectAdd t req true noAdds)
      (countLive (newlyLive (collectAdd t req true noAdds)) (openTopic false t cursor st))).
Proof.
  intros Hp. pose proof (splitTopic_kind _ _ _ Hsplit) as Hk.
  unfold freshAdd, collectAdd, scanOf. simpl.
  destruct (bool_decide (kind = topicKindGroupMessagesV1)) eqn:E1; simpl.
  - rewrite lookup_insert_eq. unfold topicFloor, floorOf. simpl. rewrite lookup_insert_eq.
    split_and!; try done; set_solver.
  - rewrite bool_decide_true by (apply bool_decide_eq_false in E1; naive_solver). simpl.
    rewrite lookup_insert_eq. unfold topicFloor, floorOf. simpl. rewrite lookup_insert_eq.
    split_and!; try done; set_solver.
Qed.

Lemma freshAdd_from st0 st st' wave sc :
  launched st = launched st0 → freshAdd t cursor wave sc st st' → freshAdd t cursor wave sc st0 st'.
Proof. unfold freshAdd. by intros ->. Qed.

Lemma send_quiet fs st :
  wp (send net fs) (λ _ st', same_book st st' ∧ launched st' = launched st ∧
    highWaterMarks st' = highWaterMarks st ∧ nextWave st' = nextWave st ∧
    outbound st' = outbound st ++ fs) noReturn st.
Proof.
  unfold wp, send. destruct fs as [|f fs]; [by rewrite app_nil_r|]. simpl.
  by destruct (Hnet (length (sendLog st))) as [now ->].
Qed.

Lemma collectAdd_starts st :
  (modify (countLive (newlyLive (collectAdd t req true noAdds))) ≫= λ _,
    if bool_decide (0 < length (groupAdds (collectAdd t req true noAdds))
      + length (welcomeAdds (collectAdd t req true noAdds)))%nat
    then modify (startWave mid (collectAdd t req true noAdds))
    else send net (catchupCompleteFrame mid)) st =
  (Cont tt, startWave mid (collectAdd t req true noAdds)
    (countLive (newlyLive (collectAdd t req true noAdds)) st)).
Proof.
  pose proof (splitTopic_kind _ _ _ Hsplit) as Hk. unfold collectAdd. simpl.
  destruct (bool_decide (kind = topicKindGroupMessagesV1)) eqn:E1; [done|].
  rewrite bool_decide_true by (apply bool_decide_eq_false in E1; naive_solver). done.
Qed.

Lemma addOne_spec st :
  wf st → unused mid st →
  (isActive st t = true ∧ topicFloor t st ≤ cursor →
    ∃ st', handleMutate cfg net (addOne wire cursor mid) st = (Cont tt, st') ∧
      same_book st st' ∧ highWaterMarks st' = highWaterMarks st ∧
      launched st' = launched st ∧ outbound st' = outbound st ++ [CatchupComplete mid]) ∧
  (isActive st t = false ∧ is_Some (topicWave st !! t) →
    handleMutate cfg net (addOne wire cursor mid) st = (Exit (Some historyOnlyInFlight), st)) ∧
  ((isActive st t = true ∧ cursor < topicFloor t st) ∨
    (isActive st t = false ∧ topicWave st !! t = None) →
    ∃ st', handleMutate cfg net (addOne wire cursor mid) st = (Cont tt, st') ∧
      freshAdd t cursor (nextWave st) (scanOf kind id cursor (nextWave st)) st st').
Proof.
  intros [W Hh] Hu. rewrite (addOne_runs st Hu). unfold applyAdd. split_and!.
  - intros [Ha Hc]. unfold mbind, M_bind, gets, Datatypes.id. simpl. rewrite Ha, andb_false_r. simpl.
    rewrite bool_decide_true by done. simpl. pose proof (send_quiet [CatchupComplete mid] st) as Hs.
    unfold wp, countLive in *. simpl. unfold catchupCompleteFrame.
    destruct (send net _ st) as [[[]|r] st'] eqn:E; [|done]. exists st'.
    destruct Hs as (? & ? & ? & ? & ?). split; [exact E|]. by split_and!.
  - intros [Ha Hw]. unfold mbind, M_bind, gets, Datatypes.id. simpl. rewrite Ha, bool_decide_true by done.
    done.
  - intros Hcase. unfold mbind, M_bind, gets, Datatypes.id. simpl.
    assert (Hex : ∃ st1, (if isActive st t then dropTopic net t else mret tt) st = (Cont tt, st1)
      ∧ pending st1 !! t = None ∧ nextWave st1 = nextWave st ∧ launched st1 = launched st).
    { destruct Hcase as [[-> _]|[Ha _]].
      - rewrite dropTopic_eq. pose proof (send_quiet (releasedFrames t st) (releaseTopic t st)) as Hs.
        unfold wp in Hs. destruct (send _ _ _) as [[[]|r] st1]; [|done]. exists st1.
        destruct Hs as (Hb & Hl & _ & Hn & _). split; [done|].
        destruct (releaseTopic_quiet t st) as [E1 E2]. rewrite Hl, Hn, E1, E2.
        split; [|done]. apply same_book_fields in Hb as (_ & _ & _ & _ & _ & <- & _).
        unfold releaseTopic. rewrite (forgetTopic_eq [] 0 None) by done.
        simpl. destruct (topicWave st !! t); simpl; [|apply lookup_delete_eq].
        destruct (waves st !! _); [|apply lookup_delete_eq].
        case_bool_decide; apply lookup_delete_eq.
      - rewrite Ha. exists st. split; [done|]. split; [|done].
        apply (pending_gated [] 0 None); [done|]. intros Hg.
        unfold isActive in Ha. apply bool_decide_eq_false in Ha. tauto. }
    destruct Hex as (st1 & E1 & Hp & Hn & Hl).
    assert (Hg1 : (bool_decide (is_Some (topicWave st !! t)) && negb (isActive st t)) = false).
    { destruct Hcase as [[-> _]|[_ ->]]; [by rewrite andb_false_r|].
      by rewrite bool_decide_false by by intros []. }
    assert (Hg2 : (isActive st t && bool_decide (floorOf (highWaterMarks st) t ≤ cursor)) = false).
    { destruct Hcase as [[-> Hc]|[-> _]]; [|done]. simpl. apply bool_decide_eq_false.
      unfold topicFloor in Hc. lia. }
    rewrite Hg1, andb_false_r, Hg2. simpl. rewrite E1.
    pose proof (collectAdd_starts (openTopic false t cursor st1)) as Hs.
    unfold mbind, M_bind in Hs. simpl in Hs. eexists. split; [exact Hs|].
    rewrite <- Hn. apply (freshAdd_from st st1); [done|]. by apply open_start.
Qed.
End Add.

(** Subscribing to one topic, on every branch: an add of an active topic at or above its
    floor changes nothing but sends the acknowledgement; an add of a topic with an in-flight
    history_only catch-up is refused; any other add (a new topic, or an active one at a cursor
    below its floor) sets the floor to the cursor, registers and gates the topic with nothing
    buffered, and gives it a new wave whose only scan replays it from that cursor. *)
Theorem add_one_topic cfg net drain unmarshalGroup unmarshalWelcome evs st wire kind id cursor mid :
  accepting net → 1 ≤ maxMutateAdds cfg →
  trace cfg net drain unmarshalGroup unmarshalWelcome evs st →
  splitTopic wire = Ok (kind, id) → mid ≠ 0 → unused mid st →
  let t := buildMLSTopic kind id in
  let run := handleMutate cfg net (addOne wire cursor mid) st in
  (isActive st t = true ∧ topicFloor t st ≤ cursor →
    ∃ st', run = (Cont tt, st') ∧ same_book st st' ∧ highWaterMarks st' = highWaterMarks st ∧
      launched st' = launched st ∧ outbound st' = outbound st ++ [CatchupComplete mid]) ∧
  (isActive st t = false ∧ is_Some (topicWave st !! t) →
    run = (Exit (Some historyOnlyInFlight), st)) ∧
  ((isActive st t = true ∧ cursor < topicFloor t st) ∨
    (isActive st t = false ∧ topicWave st !! t = None) →
    ∃ st', run = (Cont tt, st') ∧
      freshAdd t cursor (nextWave st) (scanOf kind id cursor (nextWave st)) st st').
Proof.
  intros Hnet Hmax Ht Hs Hm Hu. by apply addOne_spec; eauto using trace_wf.
Qed.

Lemma add_one_topic_witness :
  let st := runS sessionEvents in
  let t := buildMLSTopic 0 g1 in
  ∃ st', handleMutate defaultTunables allAccepted (addOne (wireGroup g1) 3 6) st = (Cont tt, st') ∧
    freshAdd t 3 (nextWave st) (scanOf 0 g1 3 (nextWave st)) st st'.
Proof.
  destruct (add_one_topic defaultTunables allAccepted Drained unmarshalGroupSample
    unmarshalWelcomeSample sessionEvents (runS sessionEvents) (wireGroup g1) 0 g1 3 6)
    as (_ & _ & H).
  - intros i. by exists 1.
  - vm_compute. discriminate.
  - apply trace_runS. vm_compute. by eexists.
  - reflexivity.
  - discriminate.
  - intros w ws. assert (E : waves (runS sessionEvents) = ∅) by (vm_compute; reflexivity).
    rewrite E, lookup_empty. discriminate.
  - apply H. left. split; vm_compute; reflexivity.
Defined.

(** * A live message queued before a reset to history_only hides history

    Removing a live topic and re-adding it history_only in one Mutate clears the floor and starts
    a scan from the new cursor, but a live message dispatched before the removal can still be in
    the subscription's channel. The topic is no longer gated, so the message is sent at once and
    raises the floor; the scan's older rows are then filtered as already sent. *)

Definition raceEvents : list event :=
  [ EvRequest (Some (ReqMutate (addOne (wireGroup g1) 8 5)));
    doneBatch 0%nat;
    EvRequest (Some (ReqMutate
      {| mu_Adds := [mkAdd (wireGroup g1) 0]; mu_Removes := [wireGroup g1];
         mu_HistoryOnly := true; mu_MutateId := 6 |}));
    EvEnvelope (groupEnvelope 9 g1);
    historyBatch [sampleGroup 3 g1; sampleGroup 4 g1; sampleGroup 9 g1] 1%nat;
    doneBatch 1%nat ].

(** The history_only race: there is a run in which the client asks for a topic's history from
    cursor 0, the scan returns rows 3, 4 and 9, and the stream answers the request with its
    CatchupComplete having sent row 9 as a live message of the removed topic and rows 3 and 4
    not at all. *)
Theorem history_only_race :
  traceS raceEvents (runS raceEvents) ∧
  deliveredIn (BuildMLSV1GroupTopic g1) (outbound (runS raceEvents)) = [9] ∧
  outbound (runS raceEvents) =
    [ Started 30000; TopicsLive [wireGroup g1]; CatchupComplete 5;
      Messages [sampleGroup 9 g1] [] 0; TopicsLive [wireGroup g1]; CatchupComplete 6 ].
Proof.
  split; [apply trace_runS; vm_compute; by eexists|]. split; vm_compute; reflexivity.
Qed.
