(* ===== verification/Sender.v ===== *)
(** The goroutines around the writer of a Subscribe stream (pkg/mls/api/v1/subscribe.go): the
    sender, the only caller of stream.Send, which the writer feeds through a bounded channel and
    flushes at a graceful end, and the reader, the only caller of stream.Recv, which feeds the
    writer the client's requests. Each is an object whose turns any schedule may produce; a
    [conversation] is a run of the writer with a run of each that agrees with it on everything
    they exchange. *)

From S2P Require Import Prelude Topic Types Frames Writer WriterLogic WriterInv WriterAccount Sample.

(** * The sender *)

Record pipe := mkPipe {
  queue : list (list SubscribeResponse);   (* the channel outbound *)
  queueClosed : bool;
  current : list SubscribeResponse;   (* what is left of the batch the sender ranges over *)
  senderDone : bool;
  sendErrCh : option error;   (* a channel of capacity one *)
  delivered : list SubscribeResponse;   (* what stream.Send took *)
}.

#[export] Instance pipe_eta : Eta pipe :=
  λ p, mkPipe (queue p) (queueClosed p) (current p) (senderDone p) (sendErrCh p) (delivered p).

Definition newPipe : pipe := mkPipe [] false [] false None [].

(** What happens at the pipe: the writer's select in [send] with its result, a turn of the sender
    with what stream.Send returns, the writer's receive from sendErrCh in the main select, and
    closeOutbound. *)
Inductive pipe_act :=
  | Hand (flat : list SubscribeResponse) (r : send_result)
  | SenderTurn (sendErr : option error)
  | TakeSendErr (e : error)
  | CloseOutbound.

(** The select in send: the arms that wait on the sender's channels are ready only when these
    are; a send on a closed channel would panic. *)
Definition handOff (flat : list SubscribeResponse) (r : send_result) (p : pipe) : option pipe :=
  match r with
  | Accepted _ =>
      if bool_decide (queueClosed p = false ∧ Z.of_nat (length (queue p)) < sendQueueDepth)
      then Some (p <| queue := queue p ++ [flat] |>) else None
  | SendFailed e =>
      if bool_decide (sendErrCh p = Some e) then Some (p <| sendErrCh := None |>) else None
  | SendStreamDone | SendServiceDone | SendStalled => Some p
  end.

(** A turn of the sender goroutine; [None] while it blocks on an empty channel, or is gone. *)
Definition senderTurn (sendErr : option error) (p : pipe) : option pipe :=
  if senderDone p then None
  else
    match current p with
    | resp :: rest =>
        match sendErr with
        | None => Some (p <| delivered := delivered p ++ [resp] |> <| current := rest |>)
        | Some e =>
            Some (p <| sendErrCh := Some (default e (sendErrCh p)) |> <| senderDone := true |>)
        end
    | [] =>
        match queue p with
        | batch :: rest => Some (p <| current := batch |> <| queue := rest |>)
        | [] => if queueClosed p then Some (p <| senderDone := true |>) else None
        end
    end.

Definition closeOutbound (p : pipe) : pipe := p <| queueClosed := true |>.

Definition pipeStep (a : pipe_act) (p : pipe) : option pipe :=
  match a with
  | Hand flat r => handOff flat r p
  | SenderTurn sendErr => senderTurn sendErr p
  | TakeSendErr e =>
      if bool_decide (sendErrCh p = Some e) then Some (p <| sendErrCh := None |>) else None
  | CloseOutbound => Some (closeOutbound p)
  end.

Fixpoint runPipe (acts : list pipe_act) (p : pipe) : option pipe :=
  match acts with
  | [] => Some p
  | a :: acts => p ← pipeStep a p; runPipe acts p
  end.

(** The results flush's selects can find: the sender's end, with or without an error left in
    sendErrCh, or the stream's end or the deadline, at any time. *)
Definition flushFinds (drain : flush_result) (p : pipe) : Prop :=
  queueClosed p = true ∧
  match drain with
  | Drained => senderDone p = true ∧ sendErrCh p = None
  | DrainedWithError e => senderDone p = true ∧ sendErrCh p = Some e
  | FlushStreamDone | FlushTimeout => True
  end.

(** * The reader *)

Definition requestChannelSize : Z := 16.
Definition EOF : error := Plain "EOF".

(** What stream.Recv returns. *)
Inductive recv :=
  | Received (req : SubscribeRequest)
  | RecvFailed (e : error).

Record reader := mkReader {
  requestChannel : list SubscribeRequest;
  requestsClosed : bool;
  recvErr : option error;
  forwarding : option SubscribeRequest;   (* received, waiting for room in the channel *)
  readerGone : bool;
  requests : list SubscribeRequest;   (* all that was received *)
}.

#[export] Instance reader_eta : Eta reader :=
  λ r, mkReader (requestChannel r) (requestsClosed r) (recvErr r) (forwarding r) (readerGone r)
    (requests r).

Definition newReader : reader := mkReader [] false None None false [].

(** The switch on an error of Recv: cancellation and a half-close are not surfaced. *)
Definition surfaced (e : error) : option error :=
  match e with
  | Status Canceled _ => None
  | _ => if bool_decide (e = EOF ∨ e = ContextCanceled) then None else Some e
  end.

Inductive reader_act :=
  | Recv (v : recv)   (* stream.Recv returns *)
  | Forward   (* the request enters the channel *)
  | Abandon   (* or a context is done *)
  | Take.   (* the writer receives from the channel *)

(** A step, with the event the writer's select sees. *)
Definition readerStep (a : reader_act) (r : reader) : option (list event * reader) :=
  match a with
  | Recv v =>
      if readerGone r then None
      else
        match forwarding r, v with
        | Some _, _ => None
        | None, Received req =>
            Some ([], r <| forwarding := Some req |> <| requests := requests r ++ [req] |>)
        | None, RecvFailed e =>
            Some ([], r <| recvErr := surfaced e |> <| requestsClosed := true |>
                        <| readerGone := true |>)
        end
  | Forward =>
      req ← forwarding r;
      if bool_decide (readerGone r = false ∧
                      Z.of_nat (length (requestChannel r)) < requestChannelSize)
      then Some ([], r <| requestChannel := requestChannel r ++ [req] |> <| forwarding := None |>)
      else None
  | Abandon =>
      _ ← forwarding r;
      if readerGone r then None else Some ([], r <| readerGone := true |>)
  | Take =>
      match requestChannel r with
      | req :: rest => Some ([EvRequest req], r <| requestChannel := rest |>)
      | [] => if requestsClosed r then Some ([EvRequestsClosed (recvErr r)], r) else None
      end
  end.

Fixpoint runReader (acts : list reader_act) (r : reader) : option (list event * reader) :=
  match acts with
  | [] => Some ([], r)
  | a :: acts =>
      '(es, r) ← readerStep a r; '(es', r) ← runReader acts r; Some (es ++ es', r)
  end.

(** * The writer with its sender and its reader *)

(** The hand-offs of a run of the writer, with their results. *)
Definition handOffs (net : nat → send_result) (st : writer)
    : list (list SubscribeResponse * send_result) :=
  zip (sendLog st) (net <$> seq 0 (length (sendLog st))).

Definition isHand (a : pipe_act) : option (list SubscribeResponse * send_result) :=
  match a with Hand flat r => Some (flat, r) | _ => None end.

Definition isTakeErr (a : pipe_act) : option error :=
  match a with TakeSendErr e => Some e | _ => None end.

Definition isSendErr (ev : event) : option error :=
  match ev with EvSendErr e => Some e | _ => None end.

(** The events that are receives from the reader's channel. *)
Definition isRequest (ev : event) : bool :=
  match ev with EvRequest _ | EvRequestsClosed _ => true | _ => false end.

Section Conversation.
Context (cfg : tunables) (net : nat → send_result) (drain : flush_result).
Context (ug : bytes → option GroupMessage) (uw : bytes → option WelcomeMessage).

(** Runs of the sender and the reader that agree with what the writer did: its hand-offs in
    order with their results, its receives of Send errors, its receives of requests. *)
Definition agrees (evs : list event) (st : writer) (p : pipe) (r : reader) : Prop :=
  (∃ acts, runPipe acts newPipe = Some p ∧ omap isHand acts = handOffs net st ∧
    omap isTakeErr acts = omap isSendErr evs) ∧
  (∃ acts, runReader acts newReader = Some (filter isRequest evs, r)).

(** The stream in the course of its life: the writer went on through [evs]. *)
Definition conversation (evs : list event) (st : writer) (p : pipe) (r : reader) : Prop :=
  trace cfg net drain ug uw evs st ∧ agrees evs st p r.

(** The end: the handler returned [res] at [ev], and a flush it ended in found what it saw. *)
Definition concluded (evs : list event) (ev : event) (res : option error)
    (st : writer) (p : pipe) (r : reader) : Prop :=
  returns cfg net drain ug uw evs ev res st ∧ agrees (evs ++ [ev]) st p r ∧ flushFinds drain p.
End Conversation.

(** * What the pipe holds *)

Definition acceptedFlat (h : list SubscribeResponse * send_result) : list SubscribeResponse :=
  match h.2 with Accepted _ => h.1 | _ => [] end.

(** The frames the sender's channel accepted. *)
Definition accepted (hs : list (list SubscribeResponse * send_result)) : list SubscribeResponse :=
  hs ≫= acceptedFlat.

Lemma accepted_app hs1 hs2 : accepted (hs1 ++ hs2) = accepted hs1 ++ accepted hs2.
Proof. apply bind_app. Qed.

Lemma accepted_one h : accepted [h] = acceptedFlat h.
Proof. apply app_nil_r. Qed.

(** All that is in the pipe or out of it, in order. *)
Definition carried (p : pipe) : list SubscribeResponse :=
  delivered p ++ current p ++ concat (queue p).

Lemma senderTurn_carried e p p' : senderTurn e p = Some p' → carried p' = carried p.
Proof.
  unfold senderTurn, carried. destruct (senderDone p); [done|].
  destruct (current p) as [|resp rest] eqn:Ec.
  - destruct (queue p) as [|batch q] eqn:Eq.
    + destruct (queueClosed p); [|done]. intros [= <-]. simpl. by rewrite Ec, Eq.
    + intros [= <-]. done.
  - destruct e; intros [= <-]; simpl; [by rewrite Ec|]. by rewrite <- app_assoc.
Qed.

Lemma handOff_carried flat r p p' :
  handOff flat r p = Some p' → carried p' = carried p ++ acceptedFlat (flat, r).
Proof.
  unfold handOff, carried, acceptedFlat. destruct r; simpl;
    try case_bool_decide; intros [= <-]; simpl; rewrite ?app_nil_r; try done.
  rewrite concat_app, !app_assoc. simpl. by rewrite app_nil_r.
Qed.

Lemma pipeStep_carried a p p' :
  pipeStep a p = Some p' → carried p' = carried p ++ accepted (option_list (isHand a)).
Proof.
  destruct a as [flat r|e|e|]; simpl.
  - intros ->%handOff_carried. unfold accepted. cbn. by rewrite app_nil_r.
  - intros ->%senderTurn_carried. symmetry. apply app_nil_r.
  - case_bool_decide; [|done]. intros [= <-]. symmetry. apply app_nil_r.
  - intros [= <-]. symmetry. apply app_nil_r.
Qed.

Lemma omap_cons_list {A B} (f : A → option B) a l :
  omap f (a :: l) = option_list (f a) ++ omap f l.
Proof. simpl. by destruct (f a). Qed.

Lemma runPipe_carried acts p p' :
  runPipe acts p = Some p' → carried p' = carried p ++ accepted (omap isHand acts).
Proof.
  revert p. induction acts as [|a acts IH]; intros p; cbn [runPipe].
  { intros [= <-]. by rewrite app_nil_r. }
  destruct (pipeStep a p) as [p1|] eqn:E; [|done]. intros ->%(IH p1).
  rewrite omap_cons_list, (pipeStep_carried _ _ _ E), accepted_app, app_assoc. done.
Qed.

Lemma pipeStep_bounded a p p' :
  pipeStep a p = Some p' → Z.of_nat (length (queue p)) ≤ sendQueueDepth →
  Z.of_nat (length (queue p')) ≤ sendQueueDepth.
Proof.
  unfold pipeStep, handOff, senderTurn.
  destruct a as [flat [] |e|e|]; try case_bool_decide; try by intros [= <-].
  - intros [= <-] _. simpl. rewrite length_app. simpl. lia.
  - destruct (senderDone p); [done|]. destruct (current p).
    + destruct (queue p) eqn:Eq; [destruct (queueClosed p); [|done]|]; intros [= <-]; simpl;
        rewrite ?Eq; simpl; lia.
    + destruct e; by intros [= <-].
Qed.

Lemma runPipe_bounded acts p p' :
  runPipe acts p = Some p' → Z.of_nat (length (queue p)) ≤ sendQueueDepth →
  Z.of_nat (length (queue p')) ≤ sendQueueDepth.
Proof.
  revert p. induction acts as [|a acts IH]; intros p; cbn [runPipe]; [by intros [= <-]|].
  destruct (pipeStep a p) as [p1|] eqn:E; [|done]. simpl. eauto using pipeStep_bounded.
Qed.

(** * What the writer handed over *)

Definition wentThrough (r : send_result) : Prop := (∃ now, r = Accepted now) ∨ r = SendStreamDone.

(** The writer's books: what it counts as sent is what the channel accepted, and no hand-off
    failed. *)
Definition ledger (net : nat → send_result) (st : writer) : Prop :=
  outbound st = accepted (handOffs net st) ∧
  ∀ i, (i < length (sendLog st))%nat → wentThrough (net i).

(** What every operation but flush keeps: the books, and whether the client's side is closed. *)
Definition ledgerKept (net : nat → send_result) (st st' : writer) : Prop :=
  (ledger net st → ledger net st') ∧ halfClosed st' = halfClosed st.

Definition never : relation writer := λ _ _, False.

#[export] Instance absorbs_never R : Absorbs R never.
Proof. by intros a b c. Qed.

#[export] Instance ledgerKept_preorder net : PreOrder (ledgerKept net).
Proof.
  split; [by intros st|]. intros a b c [? ?] [? ?]. split; [auto|congruence].
Qed.

Lemma handOffs_snoc net st flat st' :
  sendLog st' = sendLog st ++ [flat] →
  handOffs net st' = handOffs net st ++ [(flat, net (length (sendLog st)))].
Proof.
  intros E. unfold handOffs. rewrite E, length_app. simpl.
  rewrite seq_app, fmap_app, zip_with_app; [done|]. by rewrite length_fmap, length_seq.
Qed.

Section Ledger.
Context (cfg : tunables) (net : nat → send_result) (drain : flush_result).
Context (ug : bytes → option GroupMessage) (uw : bytes → option WelcomeMessage).

Local Abbreviation R := (ledgerKept net).

Lemma ledger_quiet st st' :
  outbound st' = outbound st → sendLog st' = sendLog st → halfClosed st' = halfClosed st →
  R st st'.
Proof.
  intros Ho Hl Hc. split; [|done]. intros [E H]. split; unfold handOffs in *; by rewrite ?Ho, Hl.
Qed.

Lemma send_ledger fs : preserves R never (send net fs).
Proof.
  intros st. unfold send, wp. destruct fs as [|f fs]; [done|]. cbv zeta.
  destruct (net (length (sendLog st))) eqn:En; try done; (split; [|done]); intros [E H].
  all: split; [erewrite handOffs_snoc by reflexivity;
    rewrite accepted_app, accepted_one, En, <- E; unfold acceptedFlat; simpl;
    by rewrite ?app_nil_r|].
  all: simpl; intros i Hi; rewrite length_app in Hi; simpl in Hi;
    destruct (decide (i = length (sendLog st))) as [->|];
      [rewrite En; unfold wentThrough; eauto|];
    apply H; lia.
Qed.

Lemma groupFrames_ledger msgs id : preserves R never (groupFrames cfg msgs id).
Proof.
  intros st. unfold wp, groupFrames. destruct (buildGroupFrames _ _ _ _). by apply ledger_quiet.
Qed.

Lemma welcomeFrames_ledger msgs id : preserves R never (welcomeFrames cfg msgs id).
Proof.
  intros st. unfold wp, welcomeFrames. destruct (buildWelcomeFrames _ _ _ _). by apply ledger_quiet.
Qed.

Lemma dropTopic_ledger t : preserves R never (dropTopic net t).
Proof.
  unfold dropTopic. preserves_steps; try by apply ledger_quiet. all: try apply send_ledger.
  apply ledger_quiet; unfold forgetTopic; by repeat case_bool_decide.
Qed.

Lemma applyAdds_ledger ho m order acc : preserves R never (applyAdds net ho m order acc).
Proof.
  revert acc. induction order as [|t order IH]; intros acc; simpl; [apply preserves_ret, _|].
  destruct (m !! t); [|apply IH]. apply preserves_bind; [apply _|apply _| |intros; apply IH].
  unfold applyAdd. preserves_steps; try apply dropTopic_ledger.
  apply ledger_quiet; unfold openTopic; by destruct ho.
Qed.

Lemma handleMutate_ledger m : preserves R never (handleMutate cfg net m).
Proof.
  unfold handleMutate. preserves_steps; try apply applyAdds_ledger; try apply send_ledger;
    try by apply ledger_quiet.
  - unfold applyRemove. destruct (splitTopic _) as [[kind i]|]; [|apply preserves_fail].
    apply dropTopic_ledger.
  - apply ledger_quiet; unfold countLive; by case_bool_decide.
Qed.

Lemma settle_ledger wave w : preserves R never (settle ug uw wave w).
Proof.
  intros st. unfold settle, wp. cut (R st (settleTopics ug uw wave (w_topics w) (w_wire w)
    (mkSettled [] [] []) st).2); [by destruct (settleTopics _ _ _ _ _ _ _)|].
  generalize (mkSettled [] [] []). intros acc.
  revert acc st. generalize (w_wire w). induction (w_topics w) as [|t topics IH];
    intros [|b wire] acc st; try (simpl; reflexivity). simpl.
  destruct (settleTopic _ _ _ _ _ _ _) as [acc1 st1] eqn:E. trans st1; [|apply IH].
  revert E. unfold settleTopic. case_bool_decide; [by intros [= <- <-]|]. cbv zeta.
  case_bool_decide; [|destruct (decodePending _ _ _ _)];
    intros [= <- <-]; by apply ledger_quiet.
Qed.

Lemma historyFrames_ledger b id : preserves R never (historyFrames cfg b id).
Proof.
  unfold historyFrames. preserves_steps; auto using groupFrames_ledger, welcomeFrames_ledger.
Qed.

Lemma completeWave_ledger wave w : preserves R never (completeWave cfg net ug uw wave w).
Proof.
  unfold completeWave. preserves_steps; auto using settle_ledger, groupFrames_ledger,
    welcomeFrames_ledger, send_ledger. by apply ledger_quiet.
Qed.

(** A nil return ends a flush that found the queue drained (or the stream done), on a stream whose
    client has closed its side. *)
Definition flushedNil (st st' : writer) : Prop :=
  R st st' ∧ halfClosed st = true ∧ (drain = Drained ∨ drain = FlushStreamDone).

Definition mayReturnNil (ev : event) (st st' : writer) : Prop :=
  ev = EvStreamDone ∨
  (ledger net st → ledger net st') ∧ (drain = Drained ∨ drain = FlushStreamDone) ∧
  (halfClosed st = true ∨ ev = EvRequestsClosed None).

Lemma drain_nil :
  match drain with
  | Drained => None
  | DrainedWithError e => Some e
  | FlushStreamDone => None
  | FlushTimeout => Some (Status DeadlineExceeded "flush timed out waiting for sender to drain")
  end = None → drain = Drained ∨ drain = FlushStreamDone.
Proof. destruct drain; auto; done. Qed.

Lemma preserves_never {A} (m : M A) (X : relation writer) : preserves R never m → preserves R X m.
Proof. intros Hm st. eapply wp_conseq; [apply Hm|done|]. by intros r st' H ?%H. Qed.

Lemma scanDone_ledger wave w : preserves R flushedNil (scanDone cfg net drain ug uw wave w).
Proof.
  intros st. unfold scanDone. apply wp_if; intros _; [wp_steps; by apply ledger_quiet|].
  apply wp_bind. eapply wp_conseq; [apply completeWave_ledger| |by intros r st' H ?%H].
  intros [] st1 H1. wp_steps. apply wp_if; intros Hl; wp_steps; [|done].
  intros Hd%drain_nil. apply andb_true_iff in Hl as [Hl _]. destruct H1. split_and!; [done| |done].
  congruence.
Qed.

#[local] Instance absorbs_flushedNil : Absorbs R flushedNil.
Proof.
  intros a b c Hab (Hbc & Hh & Hd). split_and!; [by trans b| |done]. destruct Hab. congruence.
Qed.

Lemma handleBatch_ledger b : preserves R flushedNil (handleBatch cfg net drain ug uw b).
Proof.
  unfold handleBatch. preserves_steps; auto using scanDone_ledger; try by apply ledger_quiet.
  all: apply preserves_never; auto using historyFrames_ledger, send_ledger.
Qed.

(** Every handler keeps its books, unless it fails, and only the end of the client's requests
    half-closes the stream. *)
Definition bookKept (ev : event) (st st' : writer) : Prop :=
  (ledger net st → ledger net st') ∧
  (halfClosed st' = halfClosed st ∨ ev = EvRequestsClosed None).

Lemma handle_ledger ev st :
  wp (handle cfg net drain ug uw ev) (λ _, bookKept ev st)
    (λ r st', r = None → mayReturnNil ev st st') st.
Proof.
  assert (HR : ∀ st', R st st' → bookKept ev st st') by (intros st' []; split; auto).
  assert (Hk : ∀ m : M unit, preserves R never m → wp m (λ _, bookKept ev st)
    (λ r st', r = None → mayReturnNil ev st st') st).
  { intros m Hm. eapply wp_conseq; [apply Hm|auto|by intros r st' H ?%H]. }
  destruct ev as [| |e|req|r|b|env| |now sent]; simpl; try done.
  - by left.
  - apply Hk. unfold handleRequest. preserves_steps; auto using handleMutate_ledger, send_ledger.
    apply ledger_quiet; by case_bool_decide.
  - unfold handleRequestsClosed. destruct r; [done|]. wp_steps. apply wp_if; intros _; wp_steps.
    + intros ?%drain_nil. right. auto.
    + split; [|auto]. intros [E H]. by split.
  - eapply wp_conseq; [apply handleBatch_ledger|auto|].
    intros r st' H Hr. destruct (H Hr) as ([? _] & ? & ?). right. auto.
  - apply Hk. unfold handleEnvelope, liveFrames. preserves_steps; auto using send_ledger,
      groupFrames_ledger, welcomeFrames_ledger. by apply ledger_quiet.
  - apply Hk. unfold handlePingTick. preserves_steps; auto using send_ledger; by apply ledger_quiet.
Qed.

Lemma steps_ledger evs st st' :
  steps cfg net drain ug uw evs st st' →
  (ledger net st → ledger net st') ∧
  (halfClosed st' = true → halfClosed st = true ∨ EvRequestsClosed None ∈ evs).
Proof.
  induction 1 as [|ev evs st st1 st' _ Hh _ [IH1 IH2]]; [auto|].
  destruct (wp_cont _ _ _ _ _ _ (handle_ledger ev st) Hh) as [H1 H2].
  split; [auto|]. intros [H|H]%IH2; [|right; by right].
  destruct H2 as [E| ->]; [left; congruence|right; left].
Qed.

Lemma trace_ledger evs st :
  trace cfg net drain ug uw evs st →
  ledger net st ∧ (halfClosed st = true → EvRequestsClosed None ∈ evs).
Proof.
  intros (now & st0 & Ho & Hs). destruct (steps_ledger _ _ _ Hs) as [H1 H2].
  destruct (wp_cont _ _ _ _ _ _ (send_ledger _ _) Ho) as [L E]. split.
  - apply H1, L. split; [done|]. simpl. lia.
  - intros [H|H]%H2; [|done]. by rewrite E in H.
Qed.

(** A nil return with the stream alive. *)
Lemma returns_nil evs ev st :
  returns cfg net drain ug uw evs ev None st → ev ≠ EvStreamDone → drain ≠ FlushStreamDone →
  ledger net st ∧ drain = Drained ∧ EvRequestsClosed None ∈ evs ++ [ev].
Proof.
  intros (st1 & Ht & _ & Hh) Hev Hd. destruct (trace_ledger _ _ Ht) as [L Hc].
  destruct (wp_exit _ _ _ _ _ _ (handle_ledger ev st1) Hh eq_refl) as [|(HL & [|] & H)]; try done.
  split_and!; [auto|done|]. apply elem_of_app.
  destruct H as [H| ->]; [left; auto|right; left].
Qed.
End Ledger.

(** * The sender's end *)

(** Without an error in the channel the sender either still runs, or has emptied a closed queue. *)
Definition soundPipe (p : pipe) : Prop :=
  (senderDone p = false → sendErrCh p = None) ∧
  (senderDone p = true → sendErrCh p = None →
    current p = [] ∧ queue p = [] ∧ queueClosed p = true).

Definition takesNoError (a : pipe_act) : Prop :=
  (∀ flat e, a ≠ Hand flat (SendFailed e)) ∧ (∀ e, a ≠ TakeSendErr e).

Lemma pipeStep_sound a p p' :
  takesNoError a → soundPipe p → pipeStep a p = Some p' → soundPipe p'.
Proof.
  intros [Hh Ht] [H1 H2]. destruct a as [flat r|e|e|]; simpl.
  - unfold handOff. destruct r as [now|e| | |]; [|by destruct (Hh flat e)|..];
      try case_bool_decide as Hc; intros [= <-]; try done.
    split; [done|]. simpl. intros Hd He. destruct (H2 Hd He) as (_ & _ & ?), Hc. congruence.
  - unfold senderTurn. destruct (senderDone p) eqn:Ed; [done|]. specialize (H1 eq_refl).
    destruct (current p) eqn:Ec; [destruct (queue p) eqn:Eq; [destruct (queueClosed p) eqn:Eq'; [|done]|]|
      destruct e]; intros [= <-]; split; simpl; rewrite ?Ed, ?H1; done.
  - by destruct (Ht e).
  - intros [= <-]. split; [done|]. simpl. intros Hd He. by destruct (H2 Hd He) as (? & ? & ?).
Qed.

Lemma runPipe_sound acts p p' :
  Forall takesNoError acts → soundPipe p → runPipe acts p = Some p' → soundPipe p'.
Proof.
  revert p. induction acts as [|a acts IH]; intros p; cbn [runPipe]; [by intros _ ? [= <-]|].
  intros [Ha Hacts]%Forall_cons Hp. destruct (pipeStep a p) as [p1|] eqn:E; [|done].
  intros H. eapply (IH p1); eauto using pipeStep_sound.
Qed.

Lemma newPipe_sound : soundPipe newPipe.
Proof. by split. Qed.

(** A run that agrees with a writer no hand-off of which failed takes no error. *)
Lemma agreed_no_error net st evs acts :
  (∀ i, (i < length (sendLog st))%nat → wentThrough (net i)) → omap isSendErr evs = [] →
  omap isHand acts = handOffs net st → omap isTakeErr acts = omap isSendErr evs →
  Forall takesNoError acts.
Proof.
  intros Hw He Hh Ht. rewrite He in Ht. apply Forall_forall. intros a Ha. split.
  - intros flat e ->.
    assert (Hin : (flat, SendFailed e) ∈ handOffs net st).
    { rewrite <- Hh. apply list_elem_of_omap. by eexists. }
    apply elem_of_zip_r, list_elem_of_fmap in Hin as (i & E & Hi).
    apply elem_of_seq in Hi. destruct (Hw i ltac:(lia)) as [[now E']|E']; congruence.
  - intros e ->. assert (e ∈ omap isTakeErr acts) as Hin by (apply list_elem_of_omap; by eexists).
    rewrite Ht in Hin. by apply elem_of_nil in Hin.
Qed.

Lemma steps_no_send_error cfg net drain ug uw evs st st' :
  steps cfg net drain ug uw evs st st' → omap isSendErr evs = [].
Proof.
  induction 1 as [|ev evs st st1 st' _ Hh _ IH]; [done|]. rewrite omap_cons_list, IH.
  by destruct ev.
Qed.

(** * What the reader passes on *)

Definition requestsOf (evs : list event) : list SubscribeRequest :=
  omap (λ ev, match ev with EvRequest req => Some req | _ => None end) evs.

Definition closesOf (evs : list event) : list (option error) :=
  omap (λ ev, match ev with EvRequestsClosed e => Some e | _ => None end) evs.

(** A closed channel is closed for good: the goroutine is gone and holds nothing. *)
Definition soundReader (r : reader) : Prop :=
  requestsClosed r = true → readerGone r = true ∧ forwarding r = None.

Definition underway (r : reader) : list SubscribeRequest :=
  requestChannel r ++ option_list (forwarding r).

Lemma readerStep_passes a r es r' done :
  readerStep a r = Some (es, r') → soundReader r → requests r = done ++ underway r →
  soundReader r' ∧ requests r' = done ++ requestsOf es ++ underway r' ∧
  (closesOf es ≠ [] → requestsClosed r' = true ∧ requestChannel r' = []) ∧
  (requestsClosed r = true → requestsClosed r' = true ∧ requests r' = requests r).
Proof.
  unfold soundReader, underway, readerStep. intros Hs Hd E. destruct a as [v| | |].
  - destruct (readerGone r) eqn:Eg; [done|]. destruct (forwarding r) eqn:Ef; [by destruct v|].
    assert (requestsClosed r = false) as Ec.
    { destruct (requestsClosed r); [|done]. by destruct (Hd eq_refl). }
    rewrite app_nil_r in E. destruct v as [req|e]; injection Hs as <- <-; simpl.
    + rewrite Ec, E. split_and!; try done. by rewrite app_assoc.
    + rewrite Ec, Ef, app_nil_r. by split_and!.
  - destruct (forwarding r) eqn:Ef; [|done]. simpl in Hs. case_bool_decide as Hc; [|done].
    injection Hs as <- <-. simpl. rewrite app_nil_r. split_and!; try done. intros Hcl.
    by destruct (Hd Hcl).
  - destruct (forwarding r) eqn:Ef; [|done]. simpl in Hs. destruct (readerGone r); [done|].
    injection Hs as <- <-. simpl. rewrite Ef. split_and!; try done. intros Hcl.
    by destruct (Hd Hcl).
  - destruct (requestChannel r) as [|req rest] eqn:Eq.
    + destruct (requestsClosed r) eqn:Ec; [|done]. injection Hs as <- <-. simpl.
      rewrite Ec, Eq. by split_and!.
    + injection Hs as <- <-. simpl. split_and!; done.
Qed.

Lemma requestsOf_app es1 es2 : requestsOf (es1 ++ es2) = requestsOf es1 ++ requestsOf es2.
Proof. apply omap_app. Qed.

(** What the reader has passed on, and what it still holds, is what it received, in order; once the
    writer has seen the channel closed, nothing is left. *)
Lemma runReader_passes acts r es r' done :
  runReader acts r = Some (es, r') → soundReader r → requests r = done ++ underway r →
  soundReader r' ∧ requests r' = done ++ requestsOf es ++ underway r' ∧
  (closesOf es ≠ [] ∨ requestsClosed r = true ∧ underway r = [] →
    requestsClosed r' = true ∧ underway r' = []).
Proof.
  revert r es done. induction acts as [|a acts IH]; intros r es done; cbn [runReader].
  { intros [= <- <-] Hd E. split_and!; [done|by simpl|]. by intros [|]. }
  destruct (readerStep a r) as [[es1 r1]|] eqn:E1; [|done]. simpl.
  destruct (runReader acts r1) as [[es2 r2]|] eqn:E2; [|done]. simpl. intros [= <- <-] Hd E.
  destruct (readerStep_passes _ _ _ _ _ E1 Hd E) as (Hd1 & R1 & C1 & K1).
  rewrite app_assoc in R1. destruct (IH _ _ _ E2 Hd1 R1) as (Hd2 & R2 & C2).
  split_and!; [done|by rewrite requestsOf_app, R2, !app_assoc|].
  assert (Hc1 : requestsClosed r1 = true ∧ underway r1 = [] →
    requestsClosed r2 = true ∧ underway r2 = []) by auto.
  unfold closesOf in *. rewrite omap_app. intros [Hc|[Hc Hu]].
  - destruct (omap _ es1) as [|c cs] eqn:Ec; [auto|]. destruct (C1 ltac:(done)) as (Hc' & Hq).
    apply Hc1. split; [done|]. unfold underway. rewrite Hq. by destruct (Hd1 Hc') as [_ ->].
  - destruct (K1 Hc) as (Hc' & Hr). apply Hc1. split; [done|].
    rewrite R1, E, <- app_assoc, Hu in Hr. apply app_inv_head in Hr.
    by destruct (app_eq_nil _ _ Hr).
Qed.

(** * The claims *)

Lemma agrees_carried net evs st p r :
  agrees net evs st p r → ledger net st → carried p = outbound st.
Proof.
  intros ((acts & Hp & Hh & _) & _) [-> _]. by rewrite (runPipe_carried _ _ _ Hp), Hh.
Qed.

Lemma requestsOf_filter evs : requestsOf (filter isRequest evs) = requestsOf evs.
Proof.
  induction evs as [|ev evs IH]; [done|]. unfold requestsOf in *.
  rewrite filter_cons, (omap_cons_list _ ev evs), <- IH. by destruct ev.
Qed.

Lemma mutatesIn_requests id evs : mutatesIn id (EvRequest <$> requestsOf evs) = mutatesIn id evs.
Proof.
  induction evs as [|ev evs IH]; [done|]. unfold requestsOf in *. rewrite omap_cons_list.
  destruct ev; simpl in *; rewrite <- IH; done.
Qed.

Lemma agrees_requests net evs st p r :
  agrees net evs st p r →
  requestsOf evs ++ underway r = requests r ∧ (closesOf evs ≠ [] → underway r = []).
Proof.
  intros (_ & acts & Hr).
  destruct (runReader_passes acts newReader _ r [] Hr) as (_ & -> & H); [done..|].
  rewrite requestsOf_filter. split; [done|]. intros Hc. apply H. left. intros E. apply Hc.
  clear -E. induction evs as [|ev evs IH]; [done|]. unfold closesOf in *.
  rewrite filter_cons in E. destruct ev; simpl in *; auto; done.
Qed.

(** C20. The goroutines around the writer refine the two ordered channels it is written against:
    at every moment, whatever the schedule, the frames stream.Send took, those of the batch being
    sent and those of the queued batches are together exactly the frames the writer sent, in
    order, with at most eight batches queued; and the requests the writer handled, followed by
    those in the reader's channel, are exactly the requests received, in order. *)
Theorem delivered_in_order cfg net drain unmarshalGroup unmarshalWelcome evs st p r :
  conversation cfg net drain unmarshalGroup unmarshalWelcome evs st p r →
  delivered p ++ current p ++ concat (queue p) = outbound st ∧
  Z.of_nat (length (queue p)) ≤ sendQueueDepth ∧
  requestsOf evs ++ requestChannel r ++ option_list (forwarding r) = requests r.
Proof.
  intros [Ht Ha]. split_and!.
  - by eapply agrees_carried, trace_ledger.
  - destruct Ha as ((acts & Hp & _) & _). by apply (runPipe_bounded _ _ _ Hp).
  - by apply (agrees_requests _ _ _ _ _ Ha).
Qed.

(** C5. A graceful end is complete: when the handler returns nil on a stream that is still
    alive, stream.Send has taken every frame the writer sent, the writer has handled every request
    the client sent, and the client has been sent, for every mutate_id, as many CatchupComplete
    frames as it sent Mutates with it. *)
Theorem graceful_close_delivers cfg net drain unmarshalGroup unmarshalWelcome evs ev st p r :
  (∀ i, net i ≠ SendStreamDone) → drain ≠ FlushStreamDone → ev ≠ EvStreamDone →
  concluded cfg net drain unmarshalGroup unmarshalWelcome evs ev None st p r →
  delivered p = outbound st ∧ requestsOf (evs ++ [ev]) = requests r ∧
  ∀ id, completionsIn id (delivered p) = mutatesIn id (EvRequest <$> requests r).
Proof.
  intros alive Hd Hev (Hret & Ha & _ & Hf).
  destruct (returns_nil _ _ _ _ _ _ _ _ Hret Hev Hd) as (L & -> & Hin). destruct Hf as [Hdone Herr].
  assert (Hp : delivered p = outbound st).
  { rewrite <- (agrees_carried _ _ _ _ _ Ha L). destruct Ha as ((acts & Hp & Hh & Ht) & _).
    assert (He : omap isSendErr (evs ++ [ev]) = []).
    { destruct Hret as (st1 & (now & st0 & _ & Hs) & _ & Hh'). rewrite omap_app.
      rewrite (steps_no_send_error _ _ _ _ _ _ _ _ Hs). by destruct ev. }
    destruct (runPipe_sound acts newPipe p) as [_ H]; [|apply newPipe_sound|done|].
    - by eapply (agreed_no_error net st), Ht; [apply L|..].
    - destruct (H Hdone Herr) as (Ec & Eq & _). unfold carried. by rewrite Ec, Eq, !app_nil_r. }
  destruct (agrees_requests _ _ _ _ _ Ha) as [Er Hu].
  rewrite Hu, app_nil_r in Er.
  2: { intros E. unfold closesOf in E. apply (elem_of_nil (None : option error)). rewrite <- E.
       apply list_elem_of_omap. by eexists. }
  split_and!; [done..|]. intros id. rewrite Hp, <- Er, mutatesIn_requests.
  by apply (returns_answered cfg net Drained unmarshalGroup unmarshalWelcome).
Qed.

(** The sender's turns left on a closed queue. *)
Definition turnsLeft (p : pipe) : nat :=
  length (current p ++ concat (queue p)) + length (queue p) + 1.

Lemma senderTurn_progress p :
  queueClosed p = true → senderDone p = false →
  ∃ p', senderTurn None p = Some p' ∧ queueClosed p' = true ∧ sendErrCh p' = sendErrCh p ∧
    carried p' = carried p ∧
    (if senderDone p' then turnsLeft p = 1%nat ∧ delivered p' = carried p'
     else turnsLeft p = S (turnsLeft p')).
Proof.
  intros Hc Hd. destruct (senderTurn None p) as [p'|] eqn:E.
  - exists p'. pose proof (senderTurn_carried _ _ _ E) as Hcar. revert E.
    unfold senderTurn, turnsLeft, carried in *. rewrite Hd, Hc.
    destruct (current p) as [|f fs] eqn:Ec; [destruct (queue p) as [|b q] eqn:Eq|]; intros [= <-];
      split_and!; simpl in *; rewrite ?Hd, ?Ec, ?Eq; try done; rewrite ?length_app; simpl; try lia.
    by rewrite app_nil_r.
  - unfold senderTurn in E. rewrite Hd, Hc in E. by destruct (current p), (queue p).
Qed.

(** A flush ends when the client reads: once the queue is closed, a sender whose Sends succeed
    ends after one turn per frame, one per batch and a last one, with everything delivered. *)
Theorem sender_drains p :
  queueClosed p = true → senderDone p = false →
  ∃ p', runPipe (replicate (length (current p ++ concat (queue p)) + length (queue p) + 1)%nat
                   (SenderTurn None)) p = Some p' ∧
    senderDone p' = true ∧ sendErrCh p' = sendErrCh p ∧
    delivered p' = delivered p ++ current p ++ concat (queue p).
Proof.
  change (length _ + _ + 1)%nat with (turnsLeft p). change (delivered p ++ _) with (carried p).
  remember (turnsLeft p) as n eqn:Hn. revert p Hn.
  induction n as [|n IH]; intros p Hn Hc Hd; [unfold turnsLeft in Hn; lia|].
  destruct (senderTurn_progress p Hc Hd) as (p1 & E & Hc1 & He1 & Hr1 & H). cbn [replicate runPipe].
  simpl. rewrite E. simpl. destruct (senderDone p1) eqn:Hd1.
  - destruct H as [H1 H2]. assert (n = 0%nat) as -> by lia. exists p1.
    split_and!; [done..|]. by rewrite H2.
  - destruct (IH p1 ltac:(lia) Hc1 Hd1) as (p' & Hrun & ? & ? & ?). exists p'.
    split_and!; [done..|congruence|congruence].
Qed.

(** * Witnesses *)

(** A sender that takes two turns after every hand-off, and a reader that passes each request on
    at once. *)
Definition pipeActs (st : writer) : list pipe_act :=
  handOffs allAccepted st ≫= λ h, [Hand h.1 h.2; SenderTurn None; SenderTurn None].

Definition readerActs (reqs : list SubscribeRequest) : list reader_act :=
  reqs ≫= λ req, [Recv (Received req); Forward; Take].

Definition pipeSample : pipe := default newPipe (runPipe (pipeActs (runS subscribeEvents)) newPipe).

Definition readerSample : reader :=
  (default ([], newReader) (runReader (readerActs [Some (ReqMutate addSample)]) newReader)).2.

Lemma delivered_in_order_witness :
  delivered pipeSample ++ current pipeSample ++ concat (queue pipeSample) =
    outbound (runS subscribeEvents) ∧
  Z.of_nat (length (queue pipeSample)) ≤ sendQueueDepth ∧
  requestsOf subscribeEvents ++ requestChannel readerSample ++
    option_list (forwarding readerSample) = requests readerSample.
Proof.
  apply (delivered_in_order defaultTunables allAccepted Drained unmarshalGroupSample
    unmarshalWelcomeSample). split; [apply trace_runS; vm_compute; by eexists|]. split.
  - exists (pipeActs (runS subscribeEvents)). split_and!; vm_compute; reflexivity.
  - exists (readerActs [Some (ReqMutate addSample)]). vm_compute. reflexivity.
Defined.

(** The client half-closes, the scans end, and the flush drains. *)
Definition closingEvents : list event := subscribeEvents ++ [EvRequestsClosed None].

Definition closedWriter : writer := (handleS (doneBatch 0%nat) (runS closingEvents)).2.

Definition closingActs : list pipe_act :=
  let hands := handOffs allAccepted closedWriter ≫= λ h, [Hand h.1 h.2; SenderTurn None] in
  hands ++ [CloseOutbound] ++
    replicate (turnsLeft (default newPipe (runPipe hands newPipe))) (SenderTurn None).

Definition closedPipe : pipe := default newPipe (runPipe closingActs newPipe).

Definition closingReader : list reader_act :=
  readerActs [Some (ReqMutate addSample)] ++ [Recv (RecvFailed EOF); Take].

Definition closedReader : reader := (default ([], newReader) (runReader closingReader newReader)).2.

Lemma graceful_close_delivers_witness :
  delivered closedPipe = outbound closedWriter ∧
  requestsOf (closingEvents ++ [doneBatch 0%nat]) = requests closedReader ∧
  ∀ id, completionsIn id (delivered closedPipe) = mutatesIn id (EvRequest <$> requests closedReader).
Proof.
  apply (graceful_close_delivers defaultTunables allAccepted Drained unmarshalGroupSample
    unmarshalWelcomeSample); [exact allAccepted_alive|done|done|].
  split; [|split; [split|]].
  - exists (runS closingEvents). split; [apply trace_runS; vm_compute; by eexists|].
    split; [done|]. vm_compute. reflexivity.
  - exists closingActs. split_and!; vm_compute; reflexivity.
  - exists closingReader. vm_compute. reflexivity.
  - vm_compute. split_and!; reflexivity.
Defined.

Definition fullPipe : pipe := mkPipe [[Started 1; Pong 2]; [Pong 3]] true [Ping 4] false None [].

Lemma sender_drains_witness :
  ∃ p', runPipe (replicate 7 (SenderTurn None)) fullPipe = Some p' ∧
    senderDone p' = true ∧ sendErrCh p' = None ∧
    delivered p' = [Ping 4; Started 1; Pong 2; Pong 3].
Proof. exact (sender_drains fullPipe eq_refl eq_refl). Defined.
