(* ===== verification/TopicLane.v ===== *)
(** One live group topic on a Subscribe stream: what each event does to the topic's floor, gate,
    buffer and to the messages sent for it ([lane]). Events about other topics leave it alone. *)

From S2P Require Import Prelude Topic Types Frames Writer WriterLogic WriterInv WriterAccount WriterOrder WriterSeam.

(** * Deduplication of one topic's messages *)

Section FreshOver.
Context {M : Type} (key : M → string) (id : M → Z).

(** What a floor lets through, and the floor afterwards. *)
Fixpoint freshOver (floor : Z) (ms : list M) : list M :=
  match ms with
  | [] => []
  | m :: ms => if bool_decide (id m ≤ floor) then freshOver floor ms else m :: freshOver (id m) ms
  end.

Fixpoint floorAfter (floor : Z) (ms : list M) : Z :=
  match ms with
  | [] => floor
  | m :: ms => if bool_decide (id m ≤ floor) then floorAfter floor ms else floorAfter (id m) ms
  end.

(** The frame builder on one topic. *)
Lemma fresh_topic t hwm ms :
  filter (λ m, key m = t) (fresh key id hwm ms)
    = freshOver (floorOf hwm t) (filter (λ m, key m = t) ms) ∧
  floorOf (raise key id hwm ms) t = floorAfter (floorOf hwm t) (filter (λ m, key m = t) ms).
Proof.
  revert hwm. induction ms as [|m ms IH]; intros hwm; [done|]. cbn [fresh raise].
  rewrite (filter_cons _ m ms). destruct (decide (key m = t)) as [E|E].
  - cbn [freshOver floorAfter]. rewrite <- E. case_bool_decide; [rewrite E; apply IH|].
    rewrite filter_cons, decide_True by done. destruct (IH (<[key m := id m]> hwm)) as [H1 H2].
    rewrite E in *. by rewrite H1, H2, floorOf_insert, decide_True.
  - case_bool_decide; [apply IH|]. rewrite filter_cons, decide_False by done.
    destruct (IH (<[key m := id m]> hwm)) as [H1 H2].
    by rewrite H1, H2, floorOf_insert, decide_False.
Qed.

Lemma freshOver_le floor ms : (∀ m, m ∈ ms → id m ≤ floor) → freshOver floor ms = [] ∧ floorAfter floor ms = floor.
Proof.
  induction ms as [|m ms IH]; [done|]. intros H. simpl.
  rewrite bool_decide_true by (apply H; left). apply IH. intros x Hx. apply H. by right.
Qed.

Lemma freshOver_app floor ms1 ms2 :
  freshOver floor (ms1 ++ ms2) = freshOver floor ms1 ++ freshOver (floorAfter floor ms1) ms2 ∧
  floorAfter floor (ms1 ++ ms2) = floorAfter (floorAfter floor ms1) ms2.
Proof.
  revert floor. induction ms1 as [|m ms1 IH]; intros floor; [done|]. simpl.
  case_bool_decide; [apply IH|]. destruct (IH (id m)) as [-> ->]. done.
Qed.

Lemma freshOver_ascending floor ms :
  ascending id ms → (∀ m, m ∈ ms → floor < id m) →
  freshOver floor ms = ms ∧ floorAfter floor ms = default floor (id <$> last ms).
Proof.
  revert floor. induction ms as [|m ms IH]; intros floor; [done|].
  intros [Hm Ha]%ascending_cons Hf. simpl.
  rewrite bool_decide_false by (specialize (Hf m ltac:(left)); lia).
  destruct (IH (id m) Ha Hm) as [-> ->]. split; [done|]. rewrite last_cons. by destruct (last ms).
Qed.

(** Of a sorted list, the floor lets through what is above it. *)
Lemma freshOver_sorted floor ms a :
  StronglySorted (le_by id) ms → ascending id a → (∀ m, m ∈ a → floor < id m) →
  filter (λ m, floor < id m) ms ≡ₚ a →
  freshOver floor ms = a ∧ floorAfter floor ms = default floor (id <$> last a).
Proof.
  intros Hs Ha Hf Hp.
  assert (Hsplit : ms = filter (λ m, id m ≤ floor) ms ++ filter (λ m, floor < id m) ms).
  { clear -Hs. induction Hs as [|m ms Hs IH Hm]; [done|]. rewrite Forall_forall in Hm.
    rewrite !filter_cons. destruct (decide (id m ≤ floor)).
    - rewrite decide_False by lia. simpl. by rewrite <- IH.
    - rewrite decide_True by lia. rewrite filter_drop_all, filter_keep; [done|..];
        intros x Hx; specialize (Hm x Hx); unfold le_by in Hm; lia. }
  assert (E : filter (λ m, floor < id m) ms = a).
  { apply (ascending_unique id); [|done|done]. apply sorted_ascending.
    - rewrite Hp. by apply (ascending_ids id).
    - rewrite Hsplit in Hs. by apply StronglySorted_app in Hs as (_ & _ & ?). }
  rewrite Hsplit, E. destruct (freshOver_app floor (filter (λ m, id m ≤ floor) ms) a) as [-> ->].
  destruct (freshOver_le floor (filter (λ m, id m ≤ floor) ms)) as [-> ->];
    [by intros m [? _]%list_elem_of_filter|]. by apply freshOver_ascending.
Qed.
End FreshOver.

(** * The lane of a topic *)

(** The group messages of a topic in a list of frames. *)
Definition messagesIn (t : string) (fs : list SubscribeResponse) : list GroupMessage :=
  fs ≫= λ f, match f with Messages gs _ _ => filter (λ m, groupKey m = t) gs | _ => [] end.

Lemma messagesIn_app t fs1 fs2 : messagesIn t (fs1 ++ fs2) = messagesIn t fs1 ++ messagesIn t fs2.
Proof. apply bind_app. Qed.

Record lane := mkLane {
  l_floor : Z;
  l_wave : option nat;   (* the wave it has not opened in yet *)
  l_gated : bool;
  l_pending : list Envelope;
  l_live : bool;
  l_sent : list GroupMessage;
}.

#[export] Instance lane_eta : Eta lane :=
  λ l, mkLane (l_floor l) (l_wave l) (l_gated l) (l_pending l) (l_live l) (l_sent l).

Definition laneOf (t : string) (st : writer) : lane :=
  {| l_floor := topicFloor t st;
     l_wave := topicWave st !! t;
     l_gated := bool_decide (t ∈ catchingUp st);
     l_pending := pendingOf st t;
     l_live := bool_decide (t ∈ subscribed st);
     l_sent := messagesIn t (outbound st) |}.

Definition sameLane (t : string) (st st' : writer) : Prop := laneOf t st' = laneOf t st.

#[export] Instance sameLane_preorder t : PreOrder (sameLane t).
Proof. split; [by intros st|]. unfold sameLane. intros a b c H1 H2. congruence. Qed.

Definition anyExit : relation writer := λ _ _, True.

#[export] Instance absorbs_any R : Absorbs R anyExit.
Proof. by intros a b c. Qed.

(** More messages sent, over a higher floor. *)
Definition extend (ms : list GroupMessage) (l : lane) : lane :=
  l <| l_floor := floorAfter groupID (l_floor l) ms |>
    <| l_sent := l_sent l ++ freshOver groupID (l_floor l) ms |>.

Section Lane.
Context (cfg : tunables) (net : nat → send_result) (drain : flush_result).
Context (ug : bytes → option GroupMessage) (uw : bytes → option WelcomeMessage).
Hypothesis alive : ∀ i, net i ≠ SendStreamDone.
Context (g : bytes).
Local Abbreviation t := (BuildMLSV1GroupTopic g).

Lemma wp_send_lane fs st :
  wp (send net fs) (λ _ st', laneOf t st' = laneOf t st <| l_sent := l_sent (laneOf t st) ++ messagesIn t fs |>)
    noExit st.
Proof.
  unfold send, wp. destruct fs as [|f fs].
  { unfold laneOf. simpl. by rewrite app_nil_r. }
  cbv zeta. specialize (alive (length (sendLog st))).
  destruct (net (length (sendLog st))); try done. unfold laneOf. simpl.
  by rewrite messagesIn_app.
Qed.

Lemma send_other fs : messagesIn t fs = [] → preserves (sameLane t) anyExit (send net fs).
Proof.
  intros Hf st. eapply wp_conseq; [apply wp_send_lane| |done]. intros [] st' E. unfold sameLane.
  rewrite E, Hf. unfold laneOf. simpl. by rewrite app_nil_r.
Qed.

Lemma messagesIn_parts (mk : list GroupMessage → SubscribeResponse) parts :
  (∀ p, ∃ tag, mk p = Messages p [] tag) →
  messagesIn t (mk <$> parts) = filter (λ m, groupKey m = t) (concat parts).
Proof.
  intros Hmk. induction parts as [|p parts IH]; [done|].
  unfold messagesIn in *. rewrite fmap_cons. cbn [concat]. rewrite filter_app, <- IH, bind_cons.
  destruct (Hmk p) as [tag ->]. done.
Qed.

Lemma wp_groupFrames_lane msgs mid st :
  wp (groupFrames cfg msgs mid)
    (λ fs st', let ms := filter (λ m, groupKey m = t) msgs in
       laneOf t st' = laneOf t st <| l_floor := floorAfter groupID (topicFloor t st) ms |> ∧
       messagesIn t fs = freshOver groupID (topicFloor t st) ms) noExit st.
Proof.
  unfold groupFrames, wp, buildGroupFrames.
  destruct (buildFrames_spec groupKey groupID groupSize (λ ms, Messages ms [] mid)
    (maxFrameBytes cfg) (highWaterMarks st) msgs) as (parts & -> & Hc & _).
  destruct (fresh_topic groupKey groupID t (highWaterMarks st) msgs) as [H1 H2].
  split; [unfold laneOf, topicFloor; simpl; by rewrite H2|].
  rewrite messagesIn_parts by (intros p; by eexists). by rewrite Hc, H1.
Qed.

Lemma welcome_key_other m : welcomeKey m ≠ t.
Proof. intros E. symmetry in E. by apply group_not_welcome_topic in E. Qed.

Lemma wp_welcomeFrames_lane msgs mid st :
  wp (welcomeFrames cfg msgs mid) (λ fs st', sameLane t st st' ∧ messagesIn t fs = []) noExit st.
Proof.
  unfold welcomeFrames, wp, buildWelcomeFrames.
  destruct (buildFrames_spec welcomeKey welcomeID welcomeSize (λ ms, Messages [] ms mid)
    (maxFrameBytes cfg) (highWaterMarks st) msgs) as (parts & -> & Hc & _).
  destruct (fresh_topic welcomeKey welcomeID t (highWaterMarks st) msgs) as [_ H2].
  rewrite (filter_drop_all _ msgs) in H2 by (intros m _; apply welcome_key_other). split.
  - unfold sameLane, laneOf, topicFloor. simpl. by rewrite H2.
  - clear. induction parts as [|p parts IH]; [done|]. exact IH.
Qed.

(** ** Mutates about other topics *)

Lemma forgetTopic_lane t' st : t' ≠ t → sameLane t st (forgetTopic t' st).
Proof.
  intros Hne. unfold forgetTopic. repeat case_bool_decide;
    unfold sameLane, laneOf, topicFloor, floorOf, pendingOf; simpl; rewrite ?lookup_delete_ne by done;
    f_equal; apply bool_decide_ext; clear -Hne; set_solver.
Qed.

Lemma dropTopic_lane t' : t' ≠ t → preserves (sameLane t) anyExit (dropTopic net t').
Proof.
  intros Hne. unfold dropTopic. preserves_steps; try by apply send_other.
  - by apply forgetTopic_lane.
  - unfold sameLane, laneOf. simpl. by rewrite lookup_delete_ne.
  - done.
  - done.
Qed.

Lemma applyAdd_lane ho t' a acc : t' ≠ t → preserves (sameLane t) anyExit (applyAdd net ho t' a acc).
Proof.
  intros Hne. unfold applyAdd. preserves_steps; try by apply dropTopic_lane.
  unfold sameLane, laneOf, topicFloor, floorOf, openTopic.
  destruct ho; simpl; rewrite lookup_insert_ne by done; f_equal; apply bool_decide_ext; clear -Hne; set_solver.
Qed.

Lemma applyAdds_lane ho m order acc :
  t ∉ order → preserves (sameLane t) anyExit (applyAdds net ho m order acc).
Proof.
  revert acc. induction order as [|t' order IH]; intros acc Hn; simpl; [apply preserves_ret, _|].
  apply not_elem_of_cons in Hn as [Hne Hn].
  destruct (m !! t'); [|by apply IH].
  apply preserves_bind; [apply _|apply _|by apply applyAdd_lane|intros acc'; by apply IH].
Qed.

Lemma wp_any {A} (m : M A) st : wp m (λ _ _, True) noExit st.
Proof. unfold wp. by destruct (m st) as [[a|r] st']. Qed.

(** The topics collected are those of the order. *)
Lemma collectAdd_in t1 t2 a live acc :
  t2 ∈ accTopics (collectAdd t1 a live acc) → t2 = t1 ∨ t2 ∈ accTopics acc.
Proof. unfold collectAdd, accTopics. repeat case_bool_decide; simpl; set_solver. Qed.

Lemma applyAdds_topics ho m order acc st :
  wp (applyAdds net ho m order acc)
    (λ acc' _, ∀ t', t' ∈ accTopics acc' → t' ∈ accTopics acc ∨ t' ∈ order) noExit st.
Proof.
  revert acc st. induction order as [|t' order IH]; intros acc st; simpl; [wp_steps; auto|].
  destruct (m !! t') as [a|]; [|eapply wp_mono; [apply IH|]; set_solver].
  wp_steps. apply (wp_mono _ (λ acc1 _, ∀ t2, t2 ∈ accTopics acc1 → t2 = t' ∨ t2 ∈ accTopics acc)).
  - unfold applyAdd. wp_steps. repeat (apply wp_if; intros _; [try done; wp_steps; auto|]).
    wp_steps. eapply wp_mono; [apply wp_any|]. intros [] st1 _. wp_steps. intros t2. apply collectAdd_in.
  - intros acc1 st1 H1. eapply wp_mono; [apply IH|]. intros acc2 st2 H2 t2 Ht2.
    destruct (H2 t2 Ht2) as [H|H]; [|set_solver]. destruct (H1 t2 H); set_solver.
Qed.

Lemma startWave_lane mid acc st : t ∉ accTopics acc → sameLane t st (startWave mid acc st).
Proof.
  intros Hn. unfold sameLane, laneOf, startWave. simpl. rewrite lookup_assign.
  by rewrite decide_False by exact Hn.
Qed.

Lemma handleMutate_lane m st :
  t ∉ named m → wp (handleMutate cfg net m) (λ _, sameLane t st) noExit st.
Proof.
  intros Hn. unfold named in Hn. rewrite elem_of_app in Hn. unfold handleMutate. wp_steps.
  destruct (validateMutate cfg m st); [|done].
  destruct (parseAdds ([], ∅) (mu_Adds m)) as [[order byTopic]|e] eqn:Hp; [|done].
  assert (Hno : t ∉ order).
  { intros Hin. destruct (parseAdds_named _ _ _ _ Hp t Hin) as [?%elem_of_nil|?]; tauto. }
  apply wp_bind. eapply wp_conseq; [apply (preserves_forEach (sameLane t) anyExit)| |done].
  { intros wire Hw. unfold applyRemove. destruct (splitTopic wire) as [[kind i]|] eqn:E;
      [|apply preserves_fail]. apply dropTopic_lane. intros Heq. apply Hn. right.
    apply list_elem_of_omap. exists wire. unfold wireTopic. by rewrite E, Heq. }
  intros [] st1 H1. apply wp_bind.
  eapply wp_conseq; [apply wp_conj; [by apply applyAdds_lane|apply applyAdds_topics]| |done].
  intros acc st2 [H2 Ht]. wp_steps.
  assert (Hacc : t ∉ accTopics acc) by (intros Hin; destruct (Ht _ Hin) as [?%elem_of_nil|?]; tauto).
  assert (H3 : sameLane t st (countLive (newlyLive acc) st2)).
  { trans st1; [done|]. trans st2; [done|]. unfold countLive. by case_bool_decide. }
  apply wp_if; intros _; wp_steps.
  - etrans; [exact H3|by apply startWave_lane].
  - eapply wp_conseq; [by apply send_other| |done]. intros [] st3 H4. by etrans.
Qed.

(** ** Completing waves *)

(** An envelope off the welcome topics holds a message of its own topic. *)
Definition ownGroup (env : Envelope) : Prop :=
  IsMLSV1Welcome (ContentTopic env) = false →
  ∀ m, ug (Message env) = Some m → groupKey m = ContentTopic env.

(** The buffers hold envelopes of their own topics. *)
Definition pendingOk (st : writer) : Prop :=
  ∀ t' envs, pending st !! t' = Some envs →
    Forall (λ e, ContentTopic e = t') envs ∧ Forall ownGroup envs.

Lemma pendingOk_wf new n c st : wf_upto new n c st → pendingAll ownGroup st → pendingOk st.
Proof. intros W Hp t' envs E. split; [by apply (wf_pending W)|by eapply Hp]. Qed.

Lemma pendingOk_book st st' : same_book st st' → pendingOk st → pendingOk st'.
Proof. intros (_ & _ & _ & _ & _ & E & _)%same_book_fields Hp t' envs. rewrite <- E. apply Hp. Qed.

Lemma pendingOk_of st t' :
  pendingOk st →
  Forall (λ e, ContentTopic e = t') (pendingOf st t') ∧ Forall ownGroup (pendingOf st t').
Proof. intros Hp. unfold pendingOf. destruct (pending st !! t') eqn:E; [by eapply Hp|by split]. Qed.

Lemma decodePending_groups t' envs :
  Forall (λ e, ContentTopic e = t') envs → Forall ownGroup envs →
  ∀ m, m ∈ (decodePending ug uw t' envs).1 → groupKey m = t'.
Proof.
  rewrite !Forall_forall. intros Ht Ha m. unfold decodePending.
  destruct (IsMLSV1Welcome t') eqn:E; [by intros ?%elem_of_nil|].
  intros (e & He & Hm)%list_elem_of_omap. rewrite <- (Ht e He) in E |- *. by apply (Ha e He).
Qed.

Lemma pendingOk_mono st st' :
  (∀ t' envs, pending st' !! t' = Some envs → pending st !! t' = Some envs) → pendingOk st → pendingOk st'.
Proof. intros H Hp t' envs E. by apply Hp, H. Qed.

(** The topic, opened. *)
Definition opened (l : lane) : lane :=
  l <| l_wave := None |> <| l_gated := false |> <| l_pending := [] |>.

Local Abbreviation ofTopic := (filter (λ m, groupKey m = t)).
Definition buffered (envs : list Envelope) : list GroupMessage := omap (λ e, ug (Message e)) envs.

Lemma settleTopic_other wave t' wire acc st :
  pendingOk st → t' ≠ t ∨ topicWave st !! t ≠ Some wave →
  let '(acc', st') := settleTopic ug uw wave t' wire acc st in
  sameLane t st st' ∧ ofTopic (s_groups acc') = ofTopic (s_groups acc) ∧ pendingOk st'.
Proof.
  intros Hp Ho. unfold settleTopic. case_bool_decide as Hw; [done|]. cbv zeta.
  assert (Hne : t' ≠ t) by (destruct Ho as [|Ho]; [done|by intros ->]).
  case_bool_decide as Hc.
  - split; [|done]. unfold sameLane, laneOf, topicFloor, floorOf. simpl. by rewrite !lookup_delete_ne.
  - destruct (pendingOk_of st t' Hp) as [H1 H2].
    pose proof (decodePending_groups t' (pendingOf st t') H1 H2) as Hk.
    change (pendingOf (st <| topicWave := delete t' (topicWave st) |>) t') with (pendingOf st t').
    destruct (decodePending ug uw t' _) as [gs ws]. split; [|split].
    + unfold sameLane, laneOf, pendingOf. simpl. rewrite !lookup_delete_ne by done. f_equal.
      apply bool_decide_ext. set_solver.
    + simpl. rewrite filter_app, (filter_drop_all _ gs), app_nil_r; [done|].
      intros m Hm. by rewrite (Hk m Hm).
    + eapply pendingOk_mono, Hp. intros t2 envs. simpl. by intros [_ ?]%lookup_delete_Some.
Qed.

Lemma settleTopic_own wave wire acc st :
  pendingOk st → topicWave st !! t = Some wave → t ∈ catchingUp st →
  let '(acc', st') := settleTopic ug uw wave t wire acc st in
  laneOf t st' = opened (laneOf t st) ∧
  s_groups acc' = s_groups acc ++ buffered (pendingOf st t) ∧ pendingOk st'.
Proof.
  intros Hp Hw Hc. unfold settleTopic. rewrite bool_decide_false by (intros H; by apply H).
  cbv zeta. rewrite bool_decide_false by (intros H; by apply H).
  unfold decodePending. rewrite IsMLSV1Welcome_group. split; [|split; [done|]].
  - unfold laneOf, pendingOf, opened. simpl. rewrite !lookup_delete_eq. f_equal.
    apply bool_decide_eq_false. set_solver.
  - eapply pendingOk_mono, Hp. intros t2 envs. simpl. by intros [_ ?]%lookup_delete_Some.
Qed.

Lemma settleTopics_lane wave topics wire acc st :
  pendingOk st → topicWave st !! t ≠ Some wave →
  let '(acc', st') := settleTopics ug uw wave topics wire acc st in
  sameLane t st st' ∧ ofTopic (s_groups acc') = ofTopic (s_groups acc) ∧ pendingOk st'.
Proof.
  revert wire acc st. induction topics as [|t' topics IH]; intros [|b wire] acc st Hp Ho; try done.
  simpl. pose proof (settleTopic_other wave t' b acc st Hp (or_intror Ho)) as H1.
  destruct (settleTopic _ _ _ _ _ _ _) as [acc1 st1]. destruct H1 as (H1 & H2 & H3).
  assert (Ho1 : topicWave st1 !! t ≠ Some wave) by (apply (f_equal l_wave) in H1; simpl in H1; by rewrite H1).
  specialize (IH wire acc1 st1 H3 Ho1). destruct (settleTopics _ _ _ _ _ _ _) as [acc2 st2].
  destruct IH as (H4 & H5 & H6). split; [by etrans|]. split; [by rewrite H5|done].
Qed.

Lemma settleTopics_own wave topics wire acc st :
  pendingOk st → topicWave st !! t = Some wave → t ∈ catchingUp st → t ∈ topics →
  length topics = length wire →
  let '(acc', st') := settleTopics ug uw wave topics wire acc st in
  laneOf t st' = opened (laneOf t st) ∧
  ofTopic (s_groups acc') = ofTopic (s_groups acc) ++ ofTopic (buffered (pendingOf st t)).
Proof.
  revert wire acc st. induction topics as [|t' topics IH]; intros [|b wire] acc st Hp Hw Hc Hin Hl;
    try done; [by apply elem_of_nil in Hin|].
  simpl. destruct (decide (t' = t)) as [->|Hne].
  - pose proof (settleTopic_own wave b acc st Hp Hw Hc) as H1.
    destruct (settleTopic _ _ _ _ _ _ _) as [acc1 st1]. destruct H1 as (H1 & H2 & H3).
    pose proof (settleTopics_lane wave topics wire acc1 st1 H3) as H4.
    destruct (settleTopics _ _ _ _ _ _ _) as [acc2 st2]. destruct H4 as (H4 & H5 & _).
    { apply (f_equal l_wave) in H1. simpl in H1. by rewrite H1. }
    split; [by rewrite H4|]. by rewrite H5, H2, filter_app.
  - pose proof (settleTopic_other wave t' b acc st Hp (or_introl Hne)) as H1.
    destruct (settleTopic _ _ _ _ _ _ _) as [acc1 st1]. destruct H1 as (H1 & H2 & H3).
    apply elem_of_cons in Hin as [?|Hin]; [done|]. injection Hl as Hl.
    pose proof (f_equal l_wave H1) as Ew. pose proof (f_equal l_gated H1) as Eg.
    pose proof (f_equal l_pending H1) as Ep. simpl in *.
    rewrite (bool_decide_eq_true_2 _ Hc) in Eg. apply bool_decide_eq_true_1 in Eg.
    specialize (IH wire acc1 st1 H3 ltac:(by rewrite Ew) Eg Hin Hl).
    destruct (settleTopics _ _ _ _ _ _ _) as [acc2 st2]. destruct IH as [H4 H5].
    split; [by rewrite H4, H1|]. by rewrite H5, H2, Ep.
Qed.

(** The end of a wave opens its topics: the buffered messages go out sorted, over the floor. *)
Lemma wp_sendWave_lane fs ws tl st :
  messagesIn t ws = [] → messagesIn t tl = [] →
  wp (send net (fs ++ ws ++ tl)) (λ _ st', laneOf t st' = laneOf t st <| l_sent := l_sent (laneOf t st) ++ messagesIn t fs |>)
    noExit st.
Proof.
  intros H1 H2. eapply wp_mono; [apply wp_send_lane|]. intros [] st' ->.
  by rewrite !messagesIn_app, H1, H2, !app_nil_r.
Qed.

Lemma completeWave_frames groups welcomes tl id st :
  messagesIn t tl = [] →
  wp (groupFrames cfg groups id ≫= λ gf, welcomeFrames cfg welcomes id ≫= λ wf,
      send net (gf ++ wf ++ tl))
    (λ _ st', laneOf t st' = extend (ofTopic groups) (laneOf t st)) noExit st.
Proof.
  intros Htl. apply wp_bind. eapply wp_mono; [apply wp_groupFrames_lane|]. intros gf st1 [H1 M1]. simpl.
  apply wp_bind. eapply wp_mono; [apply wp_welcomeFrames_lane|]. intros wf st2 [H2 M2]. simpl.
  eapply wp_mono; [by apply (wp_sendWave_lane gf wf)|].
  intros [] st3 ->. rewrite H2, H1, M1. done.
Qed.

Lemma completeWave_other wave w st :
  pendingOk st → topicWave st !! t ≠ Some wave →
  wp (completeWave cfg net ug uw wave w) (λ _, sameLane t st) noExit st.
Proof.
  intros Hp Ho. unfold completeWave, settle. wp_steps. unfold wp at 1.
  pose proof (settleTopics_lane wave (w_topics w) (w_wire w) (mkSettled [] [] []) st Hp Ho) as Hs.
  destruct (settleTopics _ _ _ _ _ _ _) as [acc st1]. destruct Hs as (H1 & H2 & _). apply wp_bind, wp_modify.
  eapply wp_mono; [apply completeWave_frames; by destruct (s_marker acc)|]. intros [] st3 H4. unfold sameLane. rewrite H4.
  assert (E : ofTopic (order_by_asc groupID (s_groups acc)) = []).
  { apply Permutation_nil. by rewrite order_by_asc_Permutation, H2. }
  rewrite E. etrans; [|exact H1]. unfold extend, laneOf. simpl. by rewrite app_nil_r.
Qed.

Lemma completeWave_own wave w st :
  pendingOk st → topicWave st !! t = Some wave → t ∈ catchingUp st → t ∈ w_topics w →
  length (w_topics w) = length (w_wire w) →
  wp (completeWave cfg net ug uw wave w)
    (λ _ st', ∃ l, StronglySorted (le_by groupID) l ∧ l ≡ₚ ofTopic (buffered (pendingOf st t)) ∧
       laneOf t st' = extend l (opened (laneOf t st))) noExit st.
Proof.
  intros Hp Hw Hc Hin Hl. unfold completeWave, settle. wp_steps. unfold wp at 1.
  pose proof (settleTopics_own wave (w_topics w) (w_wire w) (mkSettled [] [] []) st Hp Hw Hc Hin Hl) as Hs.
  destruct (settleTopics _ _ _ _ _ _ _) as [acc st1]. destruct Hs as (H1 & H2). apply wp_bind, wp_modify.
  eapply wp_mono; [apply completeWave_frames; by destruct (s_marker acc)|]. intros [] st3 H4.
  exists (ofTopic (order_by_asc groupID (s_groups acc))). split_and!.
  - apply sorted_filter, order_by_asc_sorted.
  - by rewrite order_by_asc_Permutation, H2.
  - by rewrite H4, <- H1.
Qed.
(** ** What each event does to the lane *)

Lemma extend_nil l : extend [] l = l.
Proof. unfold extend. destruct l. simpl. by rewrite app_nil_r. Qed.

(** A batch's messages, for a topic the batch's wave owns. *)
Definition history (b : catchUpBatch) (st : writer) : list GroupMessage :=
  if decide (topicWave st !! t = Some (cb_wave b)) then ofTopic (cb_groupMsgs b) else [].

Lemma wp_history_lane b mid st :
  wp (historyFrames cfg b mid ≫= λ h, send net h)
    (λ _ st', laneOf t st' = extend (history b st) (laneOf t st) ∧ same_book st st') noExit st.
Proof.
  eapply wp_conseq; [apply (wp_conj _ (λ _ st', laneOf t st' = extend (history b st) (laneOf t st))
    (λ _, same_book st) noExit noExit); [|apply stays_wp]| |done]; [|apply stays_bind; [apply _|auto with node..]|done].
  assert (Hq : ofTopic (filter (λ m, topicWave st !! groupKey m = Some (cb_wave b)) (cb_groupMsgs b))
    = history b st).
  { unfold history. rewrite list_filter_filter. case_decide as Ht.
    - apply list_filter_iff. intros m. split; [by intros [? _]|]. intros Hm. by rewrite Hm.
    - apply filter_drop_all. intros m _ [E Ho]. by rewrite E in Ho. }
  unfold historyFrames. wp_steps. unfold id in *. destruct (cb_groupMsgs b) as [|m ms] eqn:Eg.
  - assert (E0 : history b st = []) by (unfold history; rewrite Eg; by case_decide).
    rewrite E0, extend_nil. destruct (cb_welcomeMsgs b) as [|m ws]; [by wp_steps|].
    eapply wp_mono; [apply wp_welcomeFrames_lane|]. intros fs st1 [H1 M1]. simpl.
    eapply wp_mono; [apply wp_send_lane|]. intros [] st2 ->. rewrite M1, app_nil_r, H1. done.
  - eapply wp_mono; [apply wp_groupFrames_lane|]. rewrite Hq. intros fs st1 [H1 M1]. simpl in H1, M1.
    eapply wp_mono; [apply wp_send_lane|]. intros [] st2 ->. by rewrite H1, M1.
Qed.

Lemma wp_batch_lane b w st (Q : () → writer → Prop) :
  waves st !! cb_wave b = Some w →
  (∀ st1, laneOf t st1 = extend (history b st) (laneOf t st) → same_book st st1 →
     wp (if cb_done b then scanDone cfg net drain ug uw (cb_wave b) w else mret tt) Q noExit st1) →
  wp (handleBatch cfg net drain ug uw b) Q noExit st.
Proof.
  intros Ew HQ. unfold handleBatch. destruct (cb_err b); [done|]. apply wp_bind, wp_modify. wp_step. wp_step.
  simpl. rewrite Ew. apply wp_assoc, wp_bind. eapply wp_mono; [apply (wp_history_lane b (mutateID w))|].
  intros [] st1 [H1 B1]. by apply HQ.
Qed.

(** Whether a batch ends the wave [w]. *)
Definition lastBatch (b : catchUpBatch) (w : waveState) : bool :=
  cb_done b && bool_decide (scansLeft w ≤ 1).

Lemma handleBatch_other b st :
  pendingOk st → topicWave st !! t ≠ Some (cb_wave b) →
  wp (handleBatch cfg net drain ug uw b) (λ _, sameLane t st) noExit st.
Proof.
  intros Hp Ho. destruct (waves st !! cb_wave b) as [w|] eqn:Ew; last first.
  { unfold handleBatch. destruct (cb_err b); [done|]. wp_steps. simpl. rewrite Ew. by wp_steps. }
  apply (wp_batch_lane b w); [done|]. intros st1 H1 B1. unfold history in H1.
  rewrite decide_False, extend_nil in H1 by done.
  assert (Ho1 : topicWave st1 !! t ≠ Some (cb_wave b))
    by (apply (f_equal l_wave) in H1; simpl in H1; by rewrite H1).
  apply wp_if; intros _; [|by wp_steps]. unfold scanDone. apply wp_if; intros _.
  { wp_steps. exact H1. }
  apply wp_bind. eapply wp_mono; [apply completeWave_other; [by apply (pendingOk_book st)|done]|].
  intros [] st2 H2. wp_steps. apply wp_if; intros _; [done|]. wp_steps. by trans st1.
Qed.

(** A batch of the topic's wave extends the topic by its messages; the wave's last batch opens it,
    the buffered live messages sorted behind the history. *)
Lemma handleBatch_own b w st :
  wf st → pendingOk st → topicWave st !! t = Some (cb_wave b) → waves st !! cb_wave b = Some w →
  t ∈ catchingUp st →
  wp (handleBatch cfg net drain ug uw b)
    (λ _ st', let l1 := extend (ofTopic (cb_groupMsgs b)) (laneOf t st) in
      if lastBatch b w then
        ∃ l, StronglySorted (le_by groupID) l ∧ l ≡ₚ ofTopic (buffered (pendingOf st t)) ∧
          laneOf t st' = extend l (opened l1)
      else laneOf t st' = l1) noExit st.
Proof.
  intros [W _] Hp Ho Ew Hc. apply (wp_batch_lane b w); [done|]. intros st1 H1 B1.
  unfold history in H1. rewrite decide_True in H1 by done. unfold lastBatch.
  assert (Hp1 : pendingOk st1) by (by apply (pendingOk_book st)).
  apply same_book_fields in B1 as (_ & _ & Etw & _ & Ecu & Epd & _).
  destruct (wf_owner W _ _ Ho) as (w' & Ew' & Hin). rewrite Ew in Ew'. injection Ew' as <-.
  destruct (wf_waves W _ _ Ew) as [_ _ _ _ _ Hwire _]; [done|]. apply Forall2_length in Hwire.
  apply wp_if; intros Hd; [|wp_steps; by rewrite Hd]. unfold scanDone. rewrite Hd. simpl.
  apply wp_if; intros Hl; simpl in Hl.
  { apply bool_decide_eq_true_1 in Hl. wp_steps. rewrite bool_decide_false by lia. done. }
  apply bool_decide_eq_false in Hl. rewrite bool_decide_true by lia. apply wp_bind.
  eapply wp_mono; [apply completeWave_own; [done|by rewrite <- Etw|by rewrite <- Ecu|done|done]|].
  intros [] st2 (l & Hs & Hl2 & H2). wp_steps. apply wp_if; intros _; [done|]. wp_steps.
  exists l. split; [done|]. unfold pendingOf in *. rewrite Epd. split; [done|]. by rewrite H2, H1.
Qed.

(** An envelope of the topic is buffered while the topic is gated, and sent over the floor once it
    is open; other envelopes leave the lane alone. *)
Lemma handleEnvelope_lane env st :
  ownGroup env →
  wp (handleEnvelope cfg net ug uw env)
    (λ _ st', laneOf t st' =
      if decide (ContentTopic env = t) then
        if decide (t ∈ catchingUp st) then laneOf t st <| l_pending := pendingOf st t ++ [env] |>
        else extend (option_list (ug (Message env))) (laneOf t st)
      else laneOf t st) noExit st.
Proof.
  intros Ha. unfold handleEnvelope. wp_steps. apply wp_if; intros Hg.
  { apply bool_decide_eq_true_1 in Hg. wp_steps. apply wp_if; intros _; [done|]. wp_steps.
    unfold laneOf, topicFloor, pendingOf, bufferEnvelope. simpl. case_decide as Ht.
    - rewrite Ht, decide_True by (by rewrite <- Ht). unfold pendingOf. by rewrite lookup_insert_eq.
    - by rewrite lookup_insert_ne. }
  apply bool_decide_eq_false in Hg. wp_steps. unfold liveFrames.
  destruct (IsMLSV1Welcome (ContentTopic env)) eqn:Ew.
  - rewrite decide_False by (intros E; by rewrite E, IsMLSV1Welcome_group in Ew).
    destruct (uw (Message env)) as [m|]; [|wp_steps; by apply (send_other [])].
    eapply wp_mono; [apply wp_welcomeFrames_lane|]. intros fs st1 [H1 M1]. simpl.
    eapply wp_mono; [apply wp_send_lane|]. intros [] st2 ->. rewrite M1, app_nil_r, H1. done.
  - specialize (Ha Ew). destruct (ug (Message env)) as [m|]; last first.
    { wp_steps. cbn. case_decide as Ht; [|done].
      rewrite decide_False by (by rewrite <- Ht). exact (eq_sym (extend_nil _)). }
    eapply wp_mono; [apply wp_groupFrames_lane|]. intros fs st1 [H1 M1]. simpl in H1, M1.
    eapply wp_mono; [apply wp_send_lane|]. intros [] st2 ->. rewrite H1, M1.
    rewrite filter_cons, filter_nil, (Ha m eq_refl).
    destruct (decide (ContentTopic env = t)) as [Ht|Ht]; [|exact (extend_nil (laneOf t st))].
    rewrite Ht in Hg. by rewrite (decide_False (P:=t ∈ catchingUp st)).
Qed.

(** Events that are neither batches nor envelopes, and name other topics. *)
Lemma handle_other_lane ev st :
  ¬ names t ev → match ev with EvBatch _ | EvEnvelope _ => False | _ => True end →
  wp (handle cfg net drain ug uw ev) (λ _, sameLane t st) noExit st.
Proof.
  intros Hn Hev. destruct ev as [| |e|req|r|b|env| |now sent]; try done; simpl in *.
  - destruct req as [[m|n|n|]|]; simpl; [by apply handleMutate_lane| | | |done].
    + eapply wp_conseq; [by apply send_other|done..].
    + wp_steps. by case_bool_decide.
    + by wp_steps.
  - unfold handleRequestsClosed, flush. destruct r; [done|]. wp_steps.
    apply wp_if; intros _; [done|]. by wp_steps.
  - unfold handlePingTick. wp_steps. apply wp_if; intros _; [by wp_steps|].
    apply wp_if; intros _; [apply wp_if; intros _; [done|by wp_steps]|].
    apply wp_if; intros _; [|by wp_steps]. wp_steps.
    eapply wp_conseq; [by apply send_other| |done]. intros [] st1 H1. wp_steps. exact H1.
Qed.
End Lane.
