(* ===== verification/Dispatcher.v ===== *)
(** The subscription dispatcher (pkg/subscriptions): the live lane between the database workers
    and the streams. A subscription is a bounded channel with a topic set; the dispatcher offers
    every envelope to every active subscription that selects it and drops a subscription whose
    channel is full. The dispatcher's mutex makes each operation one atomic step. *)

From S2P Require Import Prelude Topic.

Definition allTopicsBacklogLength : Z := 4096.
Definition minBacklogBufferLength : Z := 1024.
Definition WILDCARD_TOPIC : string := "*".
Definition v2TopicPrefix : string := "/xmtp/0/".

(** A subscription: its channel (contents, capacity, whether it is closed), its topic set (a Go
    map to bool) and whether it listens to all topics. *)
Record Subscription := mkSubscription {
  MessagesCh : list Envelope;
  capacity : Z;
  closed : bool;
  topics : gmap string bool;
  all : bool;
}.

#[export] Instance Subscription_eta : Eta Subscription :=
  λ s, mkSubscription (MessagesCh s) (capacity s) (closed s) (topics s) (all s).

(** The dispatcher, with the subscription objects (they outlive their place in the dispatcher's
    map, since the consumer still holds them) and the map's keys. *)
Record SubscriptionDispatcher := mkDispatcher {
  objects : gmap nat Subscription;
  subscriptions : gset nat;
  nextSub : nat;
}.

#[export] Instance SubscriptionDispatcher_eta : Eta SubscriptionDispatcher :=
  λ d, mkDispatcher (objects d) (subscriptions d) (nextSub d).

Definition NewSubscriptionDispatcher : SubscriptionDispatcher := mkDispatcher ∅ ∅ 0.

Definition isValidSubscribeAllTopic (contentTopic : string) : bool :=
  HasPrefix contentTopic v2TopicPrefix || IsMLSV1 contentTopic.

(** Whether HandleEnvelope offers the envelope to the subscription. *)
Definition selects (s : Subscription) (env : Envelope) : bool :=
  if all s then isValidSubscribeAllTopic (ContentTopic env)
  else default false (topics s !! ContentTopic env).

(** One turn of HandleEnvelope's loop: a non-blocking send, or closing and dropping the
    subscription when its channel is full. *)
Definition offer (env : Envelope) (k : nat) (d : SubscriptionDispatcher) : SubscriptionDispatcher :=
  match objects d !! k with
  | None => d
  | Some s =>
      if selects s env then
        if bool_decide (Z.of_nat (length (MessagesCh s)) < capacity s) then
          d <| objects := <[k := s <| MessagesCh := MessagesCh s ++ [env] |>]> (objects d) |>
        else
          d <| objects := <[k := s <| closed := true |>]> (objects d) |>
            <| subscriptions := subscriptions d ∖ {[k]} |>
      else d
  end.

Definition HandleEnvelope (env : option Envelope) (d : SubscriptionDispatcher)
    : SubscriptionDispatcher :=
  match env with
  | None => d
  | Some env => foldl (λ d k, offer env k d) d (elements (subscriptions d))
  end.

(** log2's loop, on a 64-bit uint: [fuel] bounds the shifts. *)
Fixpoint log2Loop (fuel : nat) (n log2 : Z) : Z :=
  match fuel with
  | O => log2
  | S fuel => if bool_decide (1 < n) then log2Loop fuel (Z.shiftr n 1) (log2 + 1) else log2
  end.

Definition log2 (n : Z) : Z := if bool_decide (n = 0) then 0 else log2Loop 64 n 0.

Definition register (s : Subscription) (d : SubscriptionDispatcher) : SubscriptionDispatcher :=
  {| objects := <[nextSub d := s]> (objects d);
     subscriptions := {[nextSub d]} ∪ subscriptions d;
     nextSub := S (nextSub d) |}.

Definition Subscribe (ts : gmap string bool) (d : SubscriptionDispatcher)
    : SubscriptionDispatcher :=
  register
    (if bool_decide (is_Some (ts !! WILDCARD_TOPIC)) then
       mkSubscription [] allTopicsBacklogLength false ∅ true
     else
       mkSubscription [] (Z.max (log2 (Z.of_nat (size ts)) + 1) minBacklogBufferLength) false ts false)
    d.

Definition NewSubscription (bufferSize : Z) (d : SubscriptionDispatcher)
    : SubscriptionDispatcher :=
  register (mkSubscription [] (Z.max bufferSize minBacklogBufferLength) false ∅ false) d.

Definition Unsubscribe (k : nat) (d : SubscriptionDispatcher) : SubscriptionDispatcher :=
  d <| subscriptions := subscriptions d ∖ {[k]} |>.

Definition updateSub (k : nat) (f : Subscription → Subscription) (d : SubscriptionDispatcher)
    : SubscriptionDispatcher :=
  d <| objects := alter f k (objects d) |>.

Definition Add (k : nat) (ts : list string) : SubscriptionDispatcher → SubscriptionDispatcher :=
  updateSub k (λ s, if all s then s
                    else s <| topics := foldl (λ m t, <[t := true]> m) (topics s) ts |>).

Definition Remove (k : nat) (ts : list string) : SubscriptionDispatcher → SubscriptionDispatcher :=
  updateSub k (λ s, s <| topics := foldl (λ m t, delete t m) (topics s) ts |>).

(** A receive by the consumer: the head of the channel, which stays readable after close. *)
Definition receive (k : nat) (d : SubscriptionDispatcher)
    : option Envelope * SubscriptionDispatcher :=
  match objects d !! k with
  | Some s =>
      match MessagesCh s with
      | env :: rest => (Some env, updateSub k (λ s, s <| MessagesCh := rest |>) d)
      | [] => (None, d)
      end
  | None => (None, d)
  end.

(** * Runs *)

Inductive op :=
  | OpEnvelope (env : option Envelope)
  | OpSubscribe (ts : gmap string bool)
  | OpNewSubscription (bufferSize : Z)
  | OpUnsubscribe (k : nat)
  | OpAdd (k : nat) (ts : list string)
  | OpRemove (k : nat) (ts : list string)
  | OpReceive (k : nat).

Definition apply_op (o : op) (d : SubscriptionDispatcher) : SubscriptionDispatcher :=
  match o with
  | OpEnvelope env => HandleEnvelope env d
  | OpSubscribe ts => Subscribe ts d
  | OpNewSubscription n => NewSubscription n d
  | OpUnsubscribe k => Unsubscribe k d
  | OpAdd k ts => Add k ts d
  | OpRemove k ts => Remove k ts d
  | OpReceive k => (receive k d).2
  end.

(** The envelopes an operation lets subscription [k] receive, and those it offers to it. *)
Definition received (k : nat) (o : op) (d : SubscriptionDispatcher) : list Envelope :=
  match o with
  | OpReceive k' => if decide (k = k') then option_list (receive k d).1 else []
  | _ => []
  end.

Definition offered (k : nat) (o : op) (d : SubscriptionDispatcher) : list Envelope :=
  match o, objects d !! k with
  | OpEnvelope (Some env), Some s => if selects s env then [env] else []
  | _, _ => []
  end.

(** A run: the final dispatcher, what [k] received, and what was dispatched for it. *)
Fixpoint run (k : nat) (ops : list op) (d : SubscriptionDispatcher)
    : SubscriptionDispatcher * list Envelope * list Envelope :=
  match ops with
  | [] => (d, [], [])
  | o :: ops =>
      let '(d', rs, os) := run k ops (apply_op o d) in
      (d', received k o d ++ rs, offered k o d ++ os)
  end.

(** * Lemmas *)

Lemma log2Loop_spec fuel n acc :
  0 < n < 2 ^ Z.of_nat fuel → log2Loop fuel n acc = acc + Z.log2 n.
Proof.
  revert n acc. induction fuel as [|fuel IH]; intros n acc Hn; [simpl in Hn; lia|].
  cbn [log2Loop]. rewrite Nat2Z.inj_succ, Z.pow_succ_r in Hn by lia.
  assert (Hs : Z.shiftr n 1 = n / 2) by (rewrite Z.shiftr_div_pow2 by lia; done).
  case_bool_decide as H1.
  - rewrite IH by (rewrite Hs; split;
      [apply Z.div_str_pos; lia|apply Z.div_lt_upper_bound; lia]).
    rewrite Z.log2_shiftr by lia. pose proof (Z.log2_le_mono 2 n ltac:(lia)) as Hl.
    change (Z.log2 2) with 1 in Hl. lia.
  - replace n with 1 by lia. simpl. lia.
Qed.

(** What one turn of the loop does to a subscription, its own or another. *)
Lemma offer_other env k k' d :
  k' ≠ k → objects (offer env k d) !! k' = objects d !! k' ∧
    (k' ∈ subscriptions (offer env k d) ↔ k' ∈ subscriptions d).
Proof.
  intros Hne. unfold offer. destruct (objects d !! k) as [s|]; [|done].
  destruct (selects s env); [|done]. case_bool_decide; simpl;
    rewrite lookup_insert_ne by done; (split; [done|]); set_solver.
Qed.

Lemma offers_other env ks k d :
  k ∉ ks → let d' := foldl (λ d k, offer env k d) d ks in
  objects d' !! k = objects d !! k ∧ (k ∈ subscriptions d' ↔ k ∈ subscriptions d).
Proof.
  revert d. induction ks as [|k' ks IH]; intros d Hk; [done|].
  apply not_elem_of_cons in Hk as [Hne Hk]. simpl.
  destruct (IH (offer env k' d) Hk) as [E1 E2].
  destruct (offer_other env k' k d Hne) as [E3 E4]. by rewrite E1, E2, E3, E4.
Qed.

(** Subscriptions do not disturb each other: HandleEnvelope offers the envelope once to each
    active subscription. *)
Lemma HandleEnvelope_at env k d :
  let d' := HandleEnvelope (Some env) d in
  (k ∈ subscriptions d → objects d' !! k = objects (offer env k d) !! k ∧
    (k ∈ subscriptions d' ↔ k ∈ subscriptions (offer env k d))) ∧
  (k ∉ subscriptions d → objects d' !! k = objects d !! k ∧ k ∉ subscriptions d').
Proof.
  simpl. split; intros Hk.
  - apply elem_of_elements, list_elem_of_split in Hk as (l1 & l2 & E).
    pose proof (NoDup_elements (subscriptions d)) as Hd. rewrite E in Hd |- *.
    apply NoDup_app in Hd as (_ & Hd1 & [Hd2 _]%NoDup_cons).
    rewrite foldl_app. simpl.
    assert (Hn1 : k ∉ l1) by (intros Hin; apply (Hd1 _ Hin); left).
    destruct (offers_other env l1 k d Hn1) as [E1 E2]. set (d1 := foldl _ d l1) in *.
    destruct (offers_other env l2 k (offer env k d1) Hd2) as [E3 E4]. rewrite E3, E4.
    unfold offer. rewrite E1. destruct (objects d !! k) as [s|] eqn:Hs; [|by rewrite E1, Hs].
    destruct (selects s env); [|by rewrite E1, Hs].
    case_bool_decide; simpl; rewrite !lookup_insert_eq; (split; [done|]); set_solver.
  - destruct (offers_other env (elements (subscriptions d)) k d) as [E1 E2].
    { by rewrite elem_of_elements. }
    split; [done|]. by rewrite E2.
Qed.

(** Only [k]'s own consumer takes from its channel. *)
Lemma alter_chan k k' (f : Subscription → Subscription) d s :
  (∀ s, MessagesCh (f s) = MessagesCh s ∧ capacity (f s) = capacity s ∧ closed (f s) = closed s) →
  objects d !! k = Some s →
  ∃ s', objects (updateSub k' f d) !! k = Some s' ∧ MessagesCh s' = MessagesCh s ∧
    capacity s' = capacity s ∧ closed s' = closed s.
Proof.
  intros Hf Hs. unfold updateSub. simpl. destruct (decide (k = k')) as [<-|Hne].
  - rewrite lookup_alter_eq, Hs. simpl. exists (f s). split; [done|apply Hf].
  - rewrite lookup_alter_ne by done. by exists s.
Qed.

(** The channel's account: [sent] is what was put in it, of which [got] was received. *)
Definition accounted (k : nat) (d : SubscriptionDispatcher) (sent : list Envelope) : Prop :=
  ∃ s, objects d !! k = Some s ∧ (k < nextSub d)%nat ∧ MessagesCh s = sent ∧
    Z.of_nat (length sent) ≤ capacity s ∧
    (k ∈ subscriptions d → closed s = false).

Definition intact (k : nat) (d : SubscriptionDispatcher) : Prop := k ∈ subscriptions d.

Lemma HandleEnvelope_next env d : nextSub (HandleEnvelope env d) = nextSub d.
Proof.
  destruct env as [env|]; [|done]. simpl. generalize (elements (subscriptions d)). intros ks.
  revert d. induction ks as [|x ks IH]; intros d; simpl; [done|]. rewrite IH. unfold offer.
  destruct (objects d !! x) as [sx|]; [|done]. destruct (selects sx env); [|done].
  by case_bool_decide.
Qed.

(** An operation that does not touch the channel. *)
Lemma accounted_keep k d d' sent s' :
  accounted k d sent → (nextSub d ≤ nextSub d')%nat →
  (∀ s, objects d !! k = Some s → objects d' !! k = Some s' ∧
    MessagesCh s' = MessagesCh s ∧ capacity s' = capacity s ∧ closed s' = closed s) →
  (k ∈ subscriptions d' → k ∈ subscriptions d) →
  accounted k d' sent.
Proof.
  intros (s & Hs & Hk & Hch & Hcap & Hcl) Hn Ho Hin.
  destruct (Ho s Hs) as (E & E1 & E2 & E3). exists s'.
  rewrite E1, E2, E3. split_and!; auto; lia.
Qed.

(** One operation: what it puts in the channel is what it offers, unless the subscription is (or
    becomes) inactive. *)
Lemma envelope_step k env d ch :
  accounted k d ch →
  let d' := HandleEnvelope (Some env) d in
  ∃ put, accounted k d' (ch ++ put) ∧
    (put = offered k (OpEnvelope (Some env)) d ∨ (put = [] ∧ k ∉ subscriptions d')) ∧
    (k ∈ subscriptions d' → k ∈ subscriptions d) ∧ (k ∉ subscriptions d → put = []).
Proof.
  intros (s & Hs & Hk & <- & Hcap & Hcl). destruct (HandleEnvelope_at env k d) as [Ha Hn].
  unfold accounted, offered. rewrite Hs, HandleEnvelope_next.
  cbv zeta. destruct (decide (k ∈ subscriptions d)) as [Hin|Hni].
  - destruct (Ha Hin) as [E1 E2]. rewrite E1. clear Ha Hn E1.
    unfold offer in *. rewrite Hs in *. destruct (selects s env); [case_bool_decide as Hroom|].
    + exists [env]. simpl in *. rewrite lookup_insert_eq. split_and!; auto; try done.
      exists (s <| MessagesCh := MessagesCh s ++ [env] |>). simpl. rewrite length_app. simpl.
      split_and!; auto. lia.
    + exists []. rewrite app_nil_r. simpl in *. rewrite lookup_insert_eq.
      split_and!; [|right; split; [done|]; rewrite E2; set_solver|auto..].
      exists (s <| closed := true |>). simpl. split_and!; auto. rewrite E2. set_solver.
    + exists []. rewrite app_nil_r. split_and!; auto. exists s. split_and!; auto.
  - destruct (Hn Hni) as [E1 E2]. exists []. rewrite app_nil_r, E1. split_and!; auto.
    + exists s. split_and!; auto. tauto.
    + tauto.
Qed.

Lemma apply_op_step k o d ch :
  accounted k d ch →
  ∃ put rest, accounted k (apply_op o d) rest ∧ received k o d ++ rest = ch ++ put ∧
    (put = offered k o d ∨ (put = [] ∧ k ∉ subscriptions (apply_op o d))) ∧
    (k ∈ subscriptions (apply_op o d) → k ∈ subscriptions d) ∧
    (k ∉ subscriptions d → put = []).
Proof.
  intros Hacc. pose proof Hacc as (s & Hs & Hk & Hch & Hcap & Hcl).
  assert (Hoff : ∀ o, (∀ env, o ≠ OpEnvelope (Some env)) → offered k o d = []).
  { intros o' Ho. unfold offered. destruct o' as [[env|]| | | | | |]; try done. by destruct (Ho env). }
  assert (Hquiet : received k o d = [] → offered k o d = [] → accounted k (apply_op o d) ch →
    (k ∈ subscriptions (apply_op o d) → k ∈ subscriptions d) →
    ∃ put rest, accounted k (apply_op o d) rest ∧ received k o d ++ rest = ch ++ put ∧
    (put = offered k o d ∨ (put = [] ∧ k ∉ subscriptions (apply_op o d))) ∧
    (k ∈ subscriptions (apply_op o d) → k ∈ subscriptions d) ∧
    (k ∉ subscriptions d → put = [])).
  { intros Hr Ho Ha Hi. exists [], ch. rewrite Hr, Ho, app_nil_r. auto. }
  assert (Hreg : ∀ s0, accounted k (register s0 d) ch ∧
    (k ∈ subscriptions (register s0 d) → k ∈ subscriptions d)).
  { intros s0. unfold register. assert (k ∈ {[nextSub d]} ∪ subscriptions d → k ∈ subscriptions d)
      by (intros [->%elem_of_singleton|?]%elem_of_union; [lia|done]).
    split; [|done]. apply (accounted_keep k d _ ch s); simpl; auto.
    intros s1 Hs1. rewrite Hs in Hs1. injection Hs1 as <-.
    rewrite lookup_insert_ne by lia. auto. }
  destruct o as [[env|]|ts|n|k'|k' ts|k' ts|k'].
  - destruct (envelope_step k env d ch Hacc) as (put & H1 & H2 & H3 & H4).
    exists put, (ch ++ put). auto 6.
  - by apply Hquiet.
  - apply Hquiet; try apply Hreg; auto.
  - apply Hquiet; try apply Hreg; auto.
  - apply Hquiet; auto; simpl; [|set_solver]. apply (accounted_keep k d _ ch s); simpl; auto.
    + intros s1 Hs1. rewrite Hs in Hs1. by injection Hs1 as <-.
    + set_solver.
  - apply Hquiet; auto. simpl.
    destruct (alter_chan k k' (λ s, if all s then s
      else s <| topics := foldl (λ m t, <[t := true]> m) (topics s) ts |>) d s) as (s' & E & ?);
      [intros x; by destruct (all x)|done|].
    apply (accounted_keep k d _ ch s'); auto. intros s1 Hs1. rewrite Hs in Hs1.
    by injection Hs1 as <-.
  - apply Hquiet; auto. simpl.
    destruct (alter_chan k k' (λ s, s <| topics := foldl (λ m t, delete t m) (topics s) ts |>) d s)
      as (s' & E & ?); [done..|].
    apply (accounted_keep k d _ ch s'); auto. intros s1 Hs1. rewrite Hs in Hs1.
    by injection Hs1 as <-.
  - exists []. rewrite app_nil_r. rewrite Hoff by done. unfold received, apply_op, receive.
    case_decide as E; [subst k'|].
    + rewrite Hs. destruct (MessagesCh s) as [|env rest] eqn:Em; simpl; rewrite <- Hch.
      * exists []. rewrite <- Hch in Hacc. auto.
      * exists rest. split; [|auto]. exists (s <| MessagesCh := rest |>). unfold updateSub. simpl.
        rewrite lookup_alter_eq, Hs. rewrite <- Hch in Hcap. simpl in *. split_and!; auto. lia.
    + exists ch. split; [|split; [done|]].
      * destruct (objects d !! k') as [s1|] eqn:E1; [|done].
        destruct (MessagesCh s1) as [|env rest]; [done|].
        apply (accounted_keep k d _ ch s); simpl; auto. intros s2 Hs2.
        rewrite lookup_alter_ne by done. rewrite Hs in Hs2. by injection Hs2 as <-.
      * destruct (objects d !! k') as [s1|]; [|auto]. destruct (MessagesCh s1); auto.
Qed.

Lemma accounted_fun k d ch1 ch2 : accounted k d ch1 → accounted k d ch2 → ch1 = ch2.
Proof.
  intros (s1 & H1 & _ & <- & _) (s2 & H2 & _ & <- & _). rewrite H1 in H2. by injection H2 as <-.
Qed.

(** What is in a channel leaves it only by being received. *)
Lemma run_account_grows k ops d ch :
  accounted k d ch →
  ∃ rest put, accounted k (run k ops d).1.1 rest ∧ (run k ops d).1.2 ++ rest = ch ++ put.
Proof.
  revert d ch. induction ops as [|o ops IH]; intros d ch Hacc; simpl.
  { exists ch, []. by rewrite app_nil_r. }
  destruct (apply_op_step k o d ch Hacc) as (put & rest & Hacc1 & Er & _).
  destruct (IH (apply_op o d) rest Hacc1) as (rest' & put' & Ha & E).
  destruct (run k ops (apply_op o d)) as [[d' rs] os]. simpl in *. exists rest', (put ++ put').
  by rewrite <- app_assoc, E, !app_assoc, Er.
Qed.

Lemma run_account k ops d ch :
  accounted k d ch →
  let '(d', rs, os) := run k ops d in
  ∃ rest, accounted k d' rest ∧ rs ++ rest `prefix_of` ch ++ os ∧
    (k ∈ subscriptions d' → k ∈ subscriptions d ∧ rs ++ rest = ch ++ os) ∧
    (k ∉ subscriptions d → rs ++ rest = ch).
Proof.
  revert d ch. induction ops as [|o ops IH]; intros d ch Hacc; simpl.
  { exists ch. rewrite app_nil_r. split_and!; auto. }
  destruct (apply_op_step k o d ch Hacc) as (put & rest & Hacc1 & Er & Hput & Hin & Hout).
  specialize (IH (apply_op o d) rest Hacc1).
  destruct (run k ops (apply_op o d)) as [[d' rs] os]. destruct IH as (rest' & Ha & Hp & Hi & Hq).
  exists rest'. split; [done|]. split_and!.
  - destruct Hput as [->|[-> Hn]].
    + destruct Hp as [l El]. exists l. by rewrite app_assoc, <- Er, <- !app_assoc, El, <- !app_assoc.
    + rewrite app_nil_r in Er.
      assert (E : (received k o d ++ rs) ++ rest' = ch) by (by rewrite <- app_assoc, Hq).
      rewrite E. by exists (offered k o d ++ os).
  - intros Hd. destruct (Hi Hd) as [Hd1 E]. split; [auto|].
    destruct Hput as [->|[-> Hn]]; [|done].
    by rewrite app_assoc, <- Er, <- !app_assoc, E.
  - intros Hn. rewrite <- app_assoc, Hq by tauto. rewrite Er, (Hout Hn), app_nil_r. done.
Qed.

(** C24. What a consumer of the live lane may rely on: a subscription's consumer receives, in
    dispatch order and without gaps, a prefix of the envelopes dispatched while its topic set
    selected them, and what it has not yet received of that prefix is in its channel, never
    beyond the channel's capacity; as long as the dispatcher has not dropped it, that prefix is
    everything. *)
Theorem consumer_sees_prefix k ops d s :
  objects d !! k = Some s → (k < nextSub d)%nat → k ∈ subscriptions d →
  closed s = false → Z.of_nat (length (MessagesCh s)) ≤ capacity s →
  let '(d', got, dispatched) := run k ops d in
  ∃ s', objects d' !! k = Some s' ∧
    got ++ MessagesCh s' `prefix_of` MessagesCh s ++ dispatched ∧
    Z.of_nat (length (MessagesCh s')) ≤ capacity s' ∧
    (k ∈ subscriptions d' → got ++ MessagesCh s' = MessagesCh s ++ dispatched ∧ closed s' = false).
Proof.
  intros Hs Hk Hin Hcl Hcap. assert (Ha : accounted k d (MessagesCh s)) by (exists s; by split_and!).
  pose proof (run_account k ops d _ Ha) as H. destruct (run k ops d) as [[d' got] dispatched].
  destruct H as (rest & (s' & Hs' & _ & Er & Hc & Hcl') & Hp & Hi & _). exists s'.
  rewrite Er. split_and!; auto. intros Hd. destruct (Hi Hd). auto.
Qed.

(** A topic's envelope, for the witnesses. *)
Definition on (t : string) : op := OpEnvelope (Some (mkEnvelope t 0 EmptyString)).

Lemma consumer_sees_prefix_witness :
  let d := Add 0 ["a"; "b"] (NewSubscription 5 NewSubscriptionDispatcher) in
  let r := run 0 [on "a"; on "c"; OpReceive 0; on "b"] d in
  (let '(d', got, dispatched) := r in
   ∃ s', objects d' !! 0%nat = Some s' ∧
    got ++ MessagesCh s' `prefix_of` [] ++ dispatched ∧
    Z.of_nat (length (MessagesCh s')) ≤ capacity s' ∧
    (0%nat ∈ subscriptions d' → got ++ MessagesCh s' = [] ++ dispatched ∧ closed s' = false)) ∧
  length r.1.2 = 1%nat ∧ length r.2 = 2%nat.
Proof.
  split; [|split; vm_compute; reflexivity].
  apply (consumer_sees_prefix 0 [on "a"; on "c"; OpReceive 0; on "b"]
    (Add 0 ["a"; "b"] (NewSubscription 5 NewSubscriptionDispatcher))
    (mkSubscription [] 1024 false {["a" := true; "b" := true]} false)).
  - vm_compute. reflexivity.
  - vm_compute. lia.
  - apply (bool_decide_unpack _). vm_compute. exact I.
  - reflexivity.
  - vm_compute. discriminate.
Defined.

(** The size of a subscription's channel: log2 is the floor of the base-2 logarithm of every
    64-bit count, and a subscription's channel holds at least 1024 envelopes. *)
Theorem backlog_size :
  (∀ n, 0 ≤ n < 2 ^ 64 → log2 n = Z.log2 n) ∧
  (∀ ts d, ∃ s, objects (Subscribe ts d) !! nextSub d = Some s ∧
    minBacklogBufferLength ≤ capacity s ∧ MessagesCh s = [] ∧ closed s = false) ∧
  (∀ n d, ∃ s, objects (NewSubscription n d) !! nextSub d = Some s ∧
    capacity s = Z.max n minBacklogBufferLength ∧ MessagesCh s = [] ∧ closed s = false).
Proof.
  split; [|split].
  - intros n Hn. unfold log2. case_bool_decide as E; [by subst|].
    rewrite log2Loop_spec; [lia|]. change (Z.of_nat 64) with 64. lia.
  - intros ts d. unfold Subscribe, register. simpl. rewrite lookup_insert_eq.
    eexists. split; [done|]. case_bool_decide; simpl; (split; [|done]).
    + unfold minBacklogBufferLength, allTopicsBacklogLength. lia.
    + lia.
  - intros n d. unfold NewSubscription, register. simpl. rewrite lookup_insert_eq.
    by eexists.
Qed.
