(* ===== verification/MlsDb.v ===== *)
(** The MLS database: the tables of pkg/migrations/mls as lists of rows (the order of a list is
    the physical order of the table, which no query relies on), and every query of
    pkg/mls/store/queries/queries.sql.go as a function on them. A query's failure (a lost
    connection, a cancelled context) is not part of the query: the operations that issue it take
    it as an argument. Times are nanoseconds since the epoch, in UTC. *)

From S2P Require Import Prelude.

(** * Hexadecimal text, as PostgreSQL's encode and decode read and write it *)

Definition hexDigit (n : Z) : Ascii.ascii :=
  Ascii.ascii_of_nat (Z.to_nat (if bool_decide (n < 10) then 48 + n else 87 + n)).

Definition hexValue (c : Ascii.ascii) : option Z :=
  let n := Z.of_nat (Ascii.nat_of_ascii c) in
  if bool_decide (48 ≤ n ∧ n ≤ 57) then Some (n - 48)
  else if bool_decide (97 ≤ n ∧ n ≤ 102) then Some (n - 87)
  else if bool_decide (65 ≤ n ∧ n ≤ 70) then Some (n - 55)
  else None.

Fixpoint encodeHex (b : bytes) : string :=
  match b with
  | EmptyString => EmptyString
  | String c b =>
      let n := Z.of_nat (Ascii.nat_of_ascii c) in
      String (hexDigit (n / 16)) (String (hexDigit (n mod 16)) (encodeHex b))
  end.

(** decode skips white space between the pairs and fails on anything else. *)
Definition isHexSpace (c : Ascii.ascii) : bool :=
  bool_decide (Ascii.nat_of_ascii c ∈ [32; 9; 10; 13]%nat).

Fixpoint decodeHex (s : string) : option bytes :=
  match s with
  | EmptyString => Some EmptyString
  | String c s' =>
      if isHexSpace c then decodeHex s'
      else match s' with
           | String d s'' =>
               match hexValue c, hexValue d, decodeHex s'' with
               | Some x, Some y, Some b =>
                   Some (String (Ascii.ascii_of_nat (Z.to_nat (16 * x + y))) b)
               | _, _, _ => None
               end
           | EmptyString => None
           end
  end.

Definition invalidHex : error := Plain "invalid hexadecimal data".

Definition decoded (s : string) : result bytes :=
  match decodeHex s with Some b => Ok b | None => Err invalidHex end.

(** * Tables *)

(** A nullable boolean ([sql.NullBool]) is an option; its [.Bool] reads NULL as false. *)
Definition Bool (b : option bool) : bool := default false b.

Record GroupMessageRow := mkGroupMessageRow {
  g_ID : Z;
  g_CreatedAt : Z;
  g_GroupID : bytes;
  g_Data : bytes;
  g_GroupIDDataHash : bytes;
  g_IsCommit : option bool;
  g_SenderHmac : bytes;
  g_ShouldPush : option bool;
}.

Record WelcomeMessageRow := mkWelcomeMessageRow {
  w_ID : Z;
  w_CreatedAt : Z;
  w_InstallationKey : bytes;
  w_Data : bytes;
  w_HpkePublicKey : bytes;
  w_InstallationKeyDataHash : bytes;
  w_WrapperAlgorithm : Z;   (* int16 *)
  w_WelcomeMetadata : bytes;
  w_MessageType : Z;        (* int16: 0 for a welcome, 1 for a welcome pointer *)
}.

Record InboxLogRow := mkInboxLogRow {
  l_SequenceID : Z;
  l_InboxID : bytes;
  l_ServerTimestampNs : Z;
  l_IdentityUpdateProto : bytes;
}.

Record AddressLogRow := mkAddressLogRow {
  a_Address : string;
  a_InboxID : bytes;
  a_AssociationSequenceID : option Z;
  a_RevocationSequenceID : option Z;
}.

Record InstallationRow := mkInstallationRow {
  i_ID : bytes;
  i_CreatedAt : Z;
  i_UpdatedAt : Z;
  i_KeyPackage : bytes;
  i_IsAppended : option bool;
}.

Record KeyPackageRow := mkKeyPackageRow {
  k_SequenceID : Z;
  k_InstallationID : bytes;
  k_KeyPackage : bytes;
  k_CreatedAt : Z;
}.

Record CommitLogRow := mkCommitLogRow {
  c_ID : Z;
  c_CreatedAt : Z;
  c_GroupID : bytes;
  c_SerializedEntry : bytes;
  c_SerializedSignature : bytes;
}.

(** The database. Each BIGSERIAL column draws from a sequence, which keeps the last value it
    gave out: a failed insert consumes one. *)
Record Db := mkDb {
  group_messages : list GroupMessageRow;
  group_messages_seq : Z;
  welcome_messages : list WelcomeMessageRow;
  welcome_messages_seq : Z;
  inbox_log : list InboxLogRow;
  inbox_log_seq : Z;
  address_log : list AddressLogRow;
  installations : list InstallationRow;
  key_packages : list KeyPackageRow;
  key_packages_seq : Z;
  commit_log_v2 : list CommitLogRow;
  commit_log_v2_seq : Z;
  inboxes : gmap bytes Z;   (* id to updated_at *)
}.

#[export] Instance Db_eta : Eta Db :=
  λ d, mkDb (group_messages d) (group_messages_seq d) (welcome_messages d)
    (welcome_messages_seq d) (inbox_log d) (inbox_log_seq d) (address_log d) (installations d)
    (key_packages d) (key_packages_seq d) (commit_log_v2 d) (commit_log_v2_seq d) (inboxes d).

#[export] Instance GroupMessageRow_eta : Eta GroupMessageRow :=
  λ r, mkGroupMessageRow (g_ID r) (g_CreatedAt r) (g_GroupID r) (g_Data r) (g_GroupIDDataHash r)
    (g_IsCommit r) (g_SenderHmac r) (g_ShouldPush r).
#[export] Instance InstallationRow_eta : Eta InstallationRow :=
  λ r, mkInstallationRow (i_ID r) (i_CreatedAt r) (i_UpdatedAt r) (i_KeyPackage r)
    (i_IsAppended r).
#[export] Instance AddressLogRow_eta : Eta AddressLogRow :=
  λ r, mkAddressLogRow (a_Address r) (a_InboxID r) (a_AssociationSequenceID r)
    (a_RevocationSequenceID r).

#[export] Instance GroupMessageRow_eq_dec : EqDecision GroupMessageRow.
Proof. solve_decision. Defined.
#[export] Instance WelcomeMessageRow_eq_dec : EqDecision WelcomeMessageRow.
Proof. solve_decision. Defined.
#[export] Instance InboxLogRow_eq_dec : EqDecision InboxLogRow.
Proof. solve_decision. Defined.
#[export] Instance AddressLogRow_eq_dec : EqDecision AddressLogRow.
Proof. solve_decision. Defined.

Definition emptyDb : Db := mkDb [] 0 [] 0 [] 0 [] [] [] 0 [] 0 ∅.

(** * SQL *)

(** [LIMIT n], for the non-negative limits the program passes. *)
Definition LIMIT {A} (n : Z) (l : list A) : list A := take (Z.to_nat n) l.

(** [SELECT DISTINCT ON (key)] of an ordered result: the first row of each key. *)
Fixpoint distinct_on {A} (key : A → bytes) (l : list A) : list A :=
  match l with
  | [] => []
  | a :: l => a :: filter (λ b, key b ≠ key a) (distinct_on key l)
  end.

(** [max(x)]: NULL when there is no row. *)
Definition max_of (l : list Z) : option Z :=
  foldr (λ z m, Some (match m with Some m => Z.max z m | None => z end)) None l.

Definition days (n : Z) : Z := n * (24 * 60 * 60 * 1000000000).

(** The error of a unique index, as the driver words it. *)
Definition duplicateKey : error := Plain "pq: duplicate key value violates unique constraint".

(** [ORDER BY] of a BYTEA column. *)
Definition bytea_le {A} (key : A → bytes) (a b : A) : Prop := String.le (key a) (key b).

#[export] Instance bytea_le_dec {A} (key : A → bytes) : RelDecision (bytea_le key).
Proof. intros a b. unfold bytea_le. apply _. Defined.

(** [ORDER BY group_id, id DESC] *)
Definition group_then_newest (a b : GroupMessageRow) : Prop :=
  bytea_le g_GroupID a b ∧ (g_GroupID a = g_GroupID b → g_ID b ≤ g_ID a).

#[export] Instance group_then_newest_dec : RelDecision group_then_newest.
Proof. intros a b. unfold group_then_newest, bytea_le. apply _. Defined.

(** ** Group messages *)

Definition CountDeletableGroupMessages (now ageDays : Z) (d : Db) : Z :=
  Z.of_nat (length (filter (λ r, g_IsCommit r = Some false ∧ g_CreatedAt r < now - days ageDays)
    (group_messages d))).

(** [locked] are the rows other transactions hold, which [SKIP LOCKED] passes over. *)
Definition DeleteOldGroupMessagesBatch (locked : gset Z) (now ageDays batchSize : Z) (d : Db)
    : list (Z * Z) * Db :=
  let to_delete := g_ID <$> LIMIT batchSize (order_by_asc g_ID
    (filter (λ r, (g_IsCommit r = Some false ∧ g_CreatedAt r < now - days ageDays)
                  ∧ g_ID r ∉ locked) (group_messages d))) in
  ((λ r, (g_ID r, g_CreatedAt r)) <$> filter (λ r, g_ID r ∈ to_delete) (group_messages d),
   d <| group_messages := filter (λ r, g_ID r ∉ to_delete) (group_messages d) |>).

Definition GetAllGroupMessages (d : Db) : list GroupMessageRow :=
  order_by_asc g_ID (group_messages d).

Definition GetAllGroupMessagesWithCursor (Cursor Numrows : Z) (d : Db) : list GroupMessageRow :=
  LIMIT Numrows (order_by_asc g_ID (filter (λ r, Cursor < g_ID r) (group_messages d))).

Definition GetLatestGroupMessageID (d : Db) : Z :=
  default 0 (max_of (g_ID <$> group_messages d)).

Definition newest_rows (groupIds : list bytes) (d : Db) : list GroupMessageRow :=
  distinct_on g_GroupID (merge_sort group_then_newest
    (filter (λ r, g_GroupID r ∈ groupIds) (group_messages d))).

Definition GetNewestGroupMessage (groupIds : list bytes) (d : Db) : list GroupMessageRow :=
  newest_rows groupIds d.

Record GetNewestGroupMessageMetadataRow := mkNewestMetadata {
  m_ID : Z;
  m_GroupID : bytes;
  m_CreatedAt : Z;
  m_IsCommit : option bool;
}.

Definition GetNewestGroupMessageMetadata (groupIds : list bytes) (d : Db)
    : list GetNewestGroupMessageMetadataRow :=
  (λ r, mkNewestMetadata (g_ID r) (g_GroupID r) (g_CreatedAt r) (g_IsCommit r))
    <$> newest_rows groupIds d.

(** insert_group_message_v3: the row takes the sequence's next id; the unique index on the hash
    rejects a duplicate after the id was drawn. *)
Definition InsertGroupMessage (now : Z) (GroupID Data GroupIDDataHash SenderHmac : bytes)
    (ShouldPush IsCommit : bool) (d : Db) : result GroupMessageRow * Db :=
  let id := group_messages_seq d + 1 in
  let d := d <| group_messages_seq := id |> in
  if bool_decide (GroupIDDataHash ∈ g_GroupIDDataHash <$> group_messages d)
  then (Err duplicateKey, d)
  else
    let r := mkGroupMessageRow id now GroupID Data GroupIDDataHash (Some IsCommit) SenderHmac
      (Some ShouldPush) in
    (Ok r, d <| group_messages := group_messages d ++ [r] |>).

Definition QueryGroupMessages (GroupID : bytes) (SortDesc : bool) (Numrows : Z) (d : Db)
    : list GroupMessageRow :=
  LIMIT Numrows ((if SortDesc then order_by_desc g_ID else order_by_asc g_ID)
    (filter (λ r, g_GroupID r = GroupID) (group_messages d))).

Definition QueryGroupMessagesWithCursorAsc (GroupID : bytes) (Cursor Numrows : Z) (d : Db)
    : list GroupMessageRow :=
  LIMIT Numrows (order_by_asc g_ID
    (filter (λ r, g_GroupID r = GroupID ∧ Cursor < g_ID r) (group_messages d))).

Definition QueryGroupMessagesWithCursorDesc (GroupID : bytes) (Cursor Numrows : Z) (d : Db)
    : list GroupMessageRow :=
  LIMIT Numrows (order_by_desc g_ID
    (filter (λ r, g_GroupID r = GroupID ∧ g_ID r < Cursor) (group_messages d))).

Definition SelectEnvelopesForIsCommitBackfill (locked : gset Z) (d : Db) : list (Z * bytes) :=
  (λ r, (g_ID r, g_Data r)) <$>
    LIMIT 100 (order_by_asc g_ID
      (filter (λ r, g_IsCommit r = None ∧ g_ID r ∉ locked) (group_messages d))).

Definition UpdateIsCommitStatus (IsCommit : option bool) (ID : Z) (d : Db) : Db :=
  d <| group_messages :=
    (λ r, if decide (g_ID r = ID) then r <| g_IsCommit := IsCommit |> else r)
      <$> group_messages d |>.

(** ** Welcome messages *)

Definition GetOldWelcomeMessages (now ageDays : Z) (d : Db) : Z :=
  Z.of_nat (length (filter (λ r, w_CreatedAt r < now - days ageDays) (welcome_messages d))).

Definition DeleteOldWelcomeMessagesBatch (locked : gset Z) (now ageDays batchSize : Z) (d : Db)
    : list (Z * Z) * Db :=
  let to_delete := w_ID <$> LIMIT batchSize (order_by_asc w_ID
    (filter (λ r, w_CreatedAt r < now - days ageDays ∧ w_ID r ∉ locked) (welcome_messages d))) in
  ((λ r, (w_ID r, w_CreatedAt r)) <$> filter (λ r, w_ID r ∈ to_delete) (welcome_messages d),
   d <| welcome_messages := filter (λ r, w_ID r ∉ to_delete) (welcome_messages d) |>).

Definition GetAllWelcomeMessages (d : Db) : list WelcomeMessageRow :=
  order_by_asc w_ID (welcome_messages d).

Definition GetAllWelcomeMessagesWithCursor (Cursor Numrows : Z) (d : Db)
    : list WelcomeMessageRow :=
  LIMIT Numrows (order_by_asc w_ID (filter (λ r, Cursor < w_ID r) (welcome_messages d))).

Definition GetLatestWelcomeMessageID (d : Db) : Z :=
  default 0 (max_of (w_ID <$> welcome_messages d)).

Definition insert_welcome (now : Z) (InstallationKey Data Hash HpkePublicKey : bytes)
    (WrapperAlgorithm : Z) (WelcomeMetadata : bytes) (MessageType : Z) (d : Db)
    : result WelcomeMessageRow * Db :=
  let id := welcome_messages_seq d + 1 in
  let d := d <| welcome_messages_seq := id |> in
  if bool_decide (Hash ∈ w_InstallationKeyDataHash <$> welcome_messages d)
  then (Err duplicateKey, d)
  else
    let r := mkWelcomeMessageRow id now InstallationKey Data HpkePublicKey Hash WrapperAlgorithm
      WelcomeMetadata MessageType in
    (Ok r, d <| welcome_messages := welcome_messages d ++ [r] |>).

(** insert_welcome_message_v4 and insert_welcome_pointer_message_v1. *)
Definition InsertWelcomeMessage (now : Z)
    (InstallationKey Data InstallationKeyDataHash HpkePublicKey : bytes) (WrapperAlgorithm : Z)
    (WelcomeMetadata : bytes) : Db → result WelcomeMessageRow * Db :=
  insert_welcome now InstallationKey Data InstallationKeyDataHash HpkePublicKey WrapperAlgorithm
    WelcomeMetadata 0.

Definition InsertWelcomePointerMessage (now : Z)
    (InstallationKey WelcomePointerData InstallationKeyDataHash HpkePublicKey : bytes)
    (WrapperAlgorithm : Z) : Db → result WelcomeMessageRow * Db :=
  insert_welcome now InstallationKey WelcomePointerData InstallationKeyDataHash HpkePublicKey
    WrapperAlgorithm EmptyString 1.

Definition QueryWelcomeMessages (InstallationKey : bytes) (SortDesc : bool) (Numrows : Z) (d : Db)
    : list WelcomeMessageRow :=
  LIMIT Numrows ((if SortDesc then order_by_desc w_ID else order_by_asc w_ID)
    (filter (λ r, w_InstallationKey r = InstallationKey) (welcome_messages d))).

Definition QueryWelcomeMessagesWithCursorAsc (InstallationKey : bytes) (Cursor Numrows : Z)
    (d : Db) : list WelcomeMessageRow :=
  LIMIT Numrows (order_by_asc w_ID
    (filter (λ r, w_InstallationKey r = InstallationKey ∧ Cursor < w_ID r) (welcome_messages d))).

Definition QueryWelcomeMessagesWithCursorDesc (InstallationKey : bytes) (Cursor Numrows : Z)
    (d : Db) : list WelcomeMessageRow :=
  LIMIT Numrows (order_by_desc w_ID
    (filter (λ r, w_InstallationKey r = InstallationKey ∧ w_ID r < Cursor) (welcome_messages d))).

(** ** Installations and key packages *)

Definition CreateOrUpdateInstallation (ID : bytes) (CreatedAt UpdatedAt : Z) (KeyPackage : bytes)
    (IsAppended : option bool) (d : Db) : Db :=
  if bool_decide (ID ∈ i_ID <$> installations d)
  then d <| installations :=
         (λ r, if decide (i_ID r = ID)
               then r <| i_KeyPackage := KeyPackage |> <| i_UpdatedAt := UpdatedAt |> else r)
           <$> installations d |>
  else d <| installations :=
         installations d ++ [mkInstallationRow ID CreatedAt UpdatedAt KeyPackage IsAppended] |>.

Definition DeleteOldInstallationsBatch (locked : gset bytes) (now ageDays batchSize : Z) (d : Db)
    : list (bytes * Z) * Db :=
  let to_delete := i_ID <$> LIMIT batchSize (merge_sort (bytea_le i_ID)
    (filter (λ r, i_CreatedAt r < now - days ageDays ∧ i_ID r ∉ locked) (installations d))) in
  ((λ r, (i_ID r, i_CreatedAt r)) <$> filter (λ r, i_ID r ∈ to_delete) (installations d),
   d <| installations := filter (λ r, i_ID r ∉ to_delete) (installations d) |>).

(** The rows to delete are named by their installation, so every key package of an installation
    that has an old one goes. *)
Definition DeleteOldKeyPackagesBatch (locked : gset Z) (now ageDays batchSize : Z) (d : Db)
    : list (bytes * Z) * Db :=
  let to_delete := k_InstallationID <$> LIMIT batchSize (merge_sort (bytea_le k_InstallationID)
    (filter (λ r, k_CreatedAt r < now - days ageDays ∧ k_SequenceID r ∉ locked)
      (key_packages d))) in
  ((λ r, (k_InstallationID r, k_CreatedAt r))
     <$> filter (λ r, k_InstallationID r ∈ to_delete) (key_packages d),
   d <| key_packages := filter (λ r, k_InstallationID r ∉ to_delete) (key_packages d) |>).

Definition FetchKeyPackages (installationIds : list bytes) (d : Db) : list (bytes * bytes) :=
  (λ r, (i_ID r, i_KeyPackage r)) <$> filter (λ r, i_ID r ∈ installationIds) (installations d).

Definition GetInstallation (id : bytes) (d : Db) : option InstallationRow :=
  head (filter (λ r, i_ID r = id) (installations d)).

Definition InsertKeyPackage (InstallationID KeyPackage : bytes) (CreatedAt : Z) (d : Db) : Db :=
  let id := key_packages_seq d + 1 in
  let d := d <| key_packages_seq := id |> in
  if bool_decide
       ((InstallationID, KeyPackage)
          ∈ ((λ r, (k_InstallationID r, k_KeyPackage r)) <$> key_packages d))
  then d
  else d <| key_packages :=
         key_packages d ++ [mkKeyPackageRow id InstallationID KeyPackage CreatedAt] |>.

Definition SelectInstallationsToBackfill (locked : gset bytes) (d : Db)
    : list (bytes * bytes * Z) :=
  (λ r, (i_ID r, i_KeyPackage r, i_CreatedAt r)) <$>
    LIMIT 100 (merge_sort (bytea_le i_ID)
      (filter (λ r, i_IsAppended r = None ∧ i_ID r ∉ locked) (installations d))).

Definition UpdateIsAppendedStatus (IsAppended : option bool) (ID : bytes) (d : Db) : Db :=
  d <| installations :=
    (λ r, if decide (i_ID r = ID) then r <| i_IsAppended := IsAppended |> else r)
      <$> installations d |>.

(** ** The commit log *)

Definition InsertCommitLogV2 (now : Z) (GroupID SerializedEntry SerializedSignature : bytes)
    (d : Db) : CommitLogRow * Db :=
  let id := commit_log_v2_seq d + 1 in
  let r := mkCommitLogRow id now GroupID SerializedEntry SerializedSignature in
  (r, d <| commit_log_v2_seq := id |> <| commit_log_v2 := commit_log_v2 d ++ [r] |>).

Definition QueryCommitLogV2 (GroupID : bytes) (Cursor Numrows : Z) (d : Db) : list CommitLogRow :=
  LIMIT Numrows (order_by_asc c_ID
    (filter (λ r, c_GroupID r = GroupID ∧ Cursor < c_ID r) (commit_log_v2 d))).

(** ** Identities *)

Record AddressLogsRow := mkAddressLogsRow {
  al_Address : string;
  al_InboxID : string;
  al_AssociationSequenceID : option Z;
}.

(** The subquery of GetAddressLogs: the newest unrevoked association of an address. *)
Definition max_association (addresses : list string) (address : string) (d : Db) : option Z :=
  max_of (omap a_AssociationSequenceID
    (filter (λ a, a_Address a = address ∧ a_Address a ∈ addresses
                  ∧ a_RevocationSequenceID a = None) (address_log d))).

Definition GetAddressLogs (addresses : list string) (d : Db) : list AddressLogsRow :=
  (λ a, mkAddressLogsRow (a_Address a) (encodeHex (a_InboxID a)) (a_AssociationSequenceID a)) <$>
    filter (λ a, is_Some (a_AssociationSequenceID a)
                 ∧ a_AssociationSequenceID a = max_association addresses (a_Address a) d)
      (address_log d).

Record InboxLogsRow := mkInboxLogsRow {
  il_SequenceID : Z;
  il_InboxID : string;
  il_IdentityUpdateProto : bytes;
  il_ServerTimestampNs : Z;
}.

Definition inboxLogsRow (r : InboxLogRow) : InboxLogsRow :=
  mkInboxLogsRow (l_SequenceID r) (encodeHex (l_InboxID r)) (l_IdentityUpdateProto r)
    (l_ServerTimestampNs r).

Definition GetAllInboxLogs (inboxID : string) (d : Db) : result (list InboxLogsRow) :=
  id ← decoded inboxID;
  Ok (inboxLogsRow <$> order_by_asc l_SequenceID
        (filter (λ r, l_InboxID r = id) (inbox_log d))).

(** An InboxLogFilter (queries/filters.go). *)
Record InboxLogFilter := mkInboxLogFilter { f_InboxId : string; f_SequenceId : Z }.

Definition GetInboxLogFiltered (filters : list InboxLogFilter) (d : Db)
    : result (list InboxLogsRow) :=
  bs ← mapErr (λ f, id ← decoded (f_InboxId f); Ok (id, f_SequenceId f)) filters;
  Ok (inboxLogsRow <$> order_by_asc l_SequenceID
        (a ← inbox_log d;
         b ← filter (λ b, b.1 = l_InboxID a ∧ b.2 < l_SequenceID a) bs;
         [a])).

Definition InsertAddressLog (Address InboxID : string)
    (AssociationSequenceID RevocationSequenceID : option Z) (d : Db) : result (AddressLogRow * Db) :=
  id ← decoded InboxID;
  let r := mkAddressLogRow Address id AssociationSequenceID RevocationSequenceID in
  Ok (r, d <| address_log := address_log d ++ [r] |>).

(** insert_inbox_log draws the row's id when it runs; the row is there once its transaction
    commits. *)
Definition nextInboxSeq (d : Db) : Z := inbox_log_seq d + 1.

Definition drawInboxSeq (d : Db) : Db := d <| inbox_log_seq := nextInboxSeq d |>.

Definition addInboxLog (seq : Z) (id : bytes) (ServerTimestampNs : Z) (IdentityUpdateProto : bytes)
    (d : Db) : Db :=
  d <| inbox_log :=
    inbox_log d ++ [mkInboxLogRow seq id ServerTimestampNs IdentityUpdateProto] |>.

Definition InsertInboxLog (InboxID : string) (ServerTimestampNs : Z) (IdentityUpdateProto : bytes)
    (d : Db) : result (Z * Db) :=
  id ← decoded InboxID;
  let seq := nextInboxSeq d in
  Ok (seq, addInboxLog seq id ServerTimestampNs IdentityUpdateProto (drawInboxSeq d)).

(** The newest association of the address with the inbox, revoked or not, is marked revoked;
    with none, or only NULL ones, the comparison is NULL and no row is updated. *)
Definition RevokeAddressFromLog (RevocationSequenceID : option Z) (Address InboxID : string)
    (d : Db) : result Db :=
  id ← decoded InboxID;
  let newest := max_of (omap a_AssociationSequenceID
    (filter (λ a, a_Address a = Address ∧ a_InboxID a = id) (address_log d))) in
  Ok (d <| address_log :=
    (λ a, if decide (a_Address a = Address ∧ a_InboxID a = id
                     ∧ is_Some newest ∧ a_AssociationSequenceID a = newest)
          then a <| a_RevocationSequenceID := RevocationSequenceID |> else a)
      <$> address_log d |>).

Definition TouchInbox (now : Z) (inboxID : string) (d : Db) : result Db :=
  id ← decoded inboxID;
  Ok (d <| inboxes := <[id := now]> (inboxes d) |>).

(** * Tables keyed by an id

    The rows of a table have distinct ids drawn from the table's sequence, which is below the
    largest BIGINT. *)

Definition keyed {R} (id : R → Z) (seq : Z) (t : list R) : Prop :=
  NoDup (id <$> t) ∧ (∀ r, r ∈ t → 0 < id r ≤ seq) ∧ 0 ≤ seq ≤ maxInt64.

(** The database's own invariant: the primary keys and the unique indexes. *)
Record wf_db (d : Db) : Prop := {
  wf_group_ids : keyed g_ID (group_messages_seq d) (group_messages d);
  wf_group_hashes : NoDup (g_GroupIDDataHash <$> group_messages d);
  wf_welcome_ids : keyed w_ID (welcome_messages_seq d) (welcome_messages d);
  wf_welcome_hashes : NoDup (w_InstallationKeyDataHash <$> welcome_messages d);
  wf_inbox_ids : keyed l_SequenceID (inbox_log_seq d) (inbox_log d);
  wf_commit_ids : keyed c_ID (commit_log_v2_seq d) (commit_log_v2 d);
  wf_installation_ids : NoDup (i_ID <$> installations d);
}.

Section Keyed.
Context {R : Type} (id : R → Z).
Implicit Types t : list R.

Lemma fmap_filter_NoDup {B} (f : R → B) (P : R → Prop) `{∀ x, Decision (P x)} t :
  NoDup (f <$> t) → NoDup (f <$> filter P t).
Proof.
  induction t as [|r t IH]; [done|]. rewrite fmap_cons, NoDup_cons. intros [Hr Ht].
  rewrite filter_cons. case_decide; [|auto]. rewrite fmap_cons. constructor; [|auto].
  intros (x & E & [_ Hx]%list_elem_of_filter)%list_elem_of_fmap. apply Hr. rewrite E.
  by apply list_elem_of_fmap_2.
Qed.

(** Sorting the rows a WHERE clause keeps is filtering the sorted table. *)
Lemma order_filter (P : R → Prop) `{∀ x, Decision (P x)} t :
  NoDup (id <$> t) → order_by_asc id (filter P t) = filter P (order_by_asc id t).
Proof.
  intros Hd. apply (ascending_unique id).
  - by apply order_by_asc_ascending, fmap_filter_NoDup.
  - by apply ascending_filter, order_by_asc_ascending.
  - rewrite order_by_asc_Permutation. by rewrite order_by_asc_Permutation.
Qed.

Lemma ascending_reverse t : ascending id t → ascending (λ r, - id r) (reverse t).
Proof.
  induction t as [|r t IH]; [constructor|]. intros [Hr Ht]%ascending_cons.
  rewrite reverse_cons. apply ascending_app. split; [|split; [auto|apply ascending_singleton]].
  intros a b Ha ->%list_elem_of_singleton. rewrite elem_of_reverse in Ha.
  specialize (Hr a Ha). lia.
Qed.

Lemma order_desc t : NoDup (id <$> t) → order_by_desc id t = reverse (order_by_asc id t).
Proof.
  intros Hd. apply (ascending_unique (λ r, - id r)).
  - apply sorted_ascending.
    + rewrite order_by_desc_Permutation. clear -Hd.
      induction t as [|r t IH]; [constructor|]. rewrite fmap_cons, NoDup_cons in *.
      destruct Hd as [Hr Ht]. split; [|auto].
      intros (x & E & Hx)%list_elem_of_fmap. apply Hr.
      replace (id r) with (id x) by lia. by apply list_elem_of_fmap_2.
    + assert (Hs : StronglySorted (ge_by id) (order_by_desc id t))
        by (apply StronglySorted_merge_sort; apply _).
      induction Hs as [|a l Hl IH Ha]; constructor; [done|].
      eapply Forall_impl; [done|]. unfold ge_by, le_by. simpl. lia.
  - by apply ascending_reverse, order_by_asc_ascending.
  - rewrite order_by_desc_Permutation. rewrite reverse_Permutation.
    by rewrite order_by_asc_Permutation.
Qed.

Lemma keyed_elem seq t r : keyed id seq t → r ∈ t → 0 < id r ≤ maxInt64.
Proof. intros (_ & H & ?) Hr. specialize (H r Hr). lia. Qed.

Lemma keyed_insert seq t r :
  keyed id seq t → id r = seq + 1 → seq + 1 ≤ maxInt64 → keyed id (seq + 1) (t ++ [r]).
Proof.
  intros (Hd & Hr & Hs) E Hmax. split; [|split; [|lia]].
  - rewrite fmap_app. apply NoDup_app. split; [done|]. split; [|apply NoDup_singleton].
    intros x (a & -> & Ha)%list_elem_of_fmap Hx%list_elem_of_singleton.
    specialize (Hr a Ha). simpl in Hx. lia.
  - intros a [Ha| ->%list_elem_of_singleton]%elem_of_app; [|lia]. specialize (Hr a Ha). lia.
Qed.

Lemma keyed_consume seq t : keyed id seq t → seq + 1 ≤ maxInt64 → keyed id (seq + 1) t.
Proof.
  intros (Hd & Hr & Hs) ?. split; [done|]. split; [|lia]. intros a Ha. specialize (Hr a Ha). lia.
Qed.

Lemma keyed_filter seq t (P : R → Prop) `{∀ x, Decision (P x)} :
  keyed id seq t → keyed id seq (filter P t).
Proof.
  intros (Hd & Hr & Hs). split; [by apply fmap_filter_NoDup|]. split; [|done].
  intros a [_ Ha]%list_elem_of_filter. auto.
Qed.

Lemma NoDup_fmap_fst_inj {B} (f : R → B) t x y :
  NoDup (f <$> t) → x ∈ t → y ∈ t → f x = f y → x = y.
Proof.
  induction t as [|r t IH]; [by intros _ ?%elem_of_nil|]. rewrite fmap_cons, NoDup_cons.
  intros [Hr Ht] [->|Hx]%elem_of_cons [->|Hy]%elem_of_cons E; [done|..|auto].
  - destruct Hr. rewrite E. by apply list_elem_of_fmap_2.
  - destruct Hr. rewrite <- E. by apply list_elem_of_fmap_2.
Qed.

(** The last row of an ordered table is the one with the largest id. *)
Lemma last_order t r :
  NoDup (id <$> t) → last (order_by_asc id t) = Some r ↔ r ∈ t ∧ ∀ x, x ∈ t → id x ≤ id r.
Proof.
  intros Hd. pose proof (order_by_asc_ascending id t Hd) as Ha.
  assert (Ht : ∀ x, x ∈ t ↔ x ∈ order_by_asc id t) by (intros; by rewrite order_by_asc_Permutation).
  setoid_rewrite Ht. clear Ht. revert Ha. generalize (order_by_asc id t). clear Hd t.
  intros t Ha. split.
  - intros [t' ->]%last_Some. split; [set_solver|].
    apply ascending_app in Ha as (H & _ & _). intros x [Hx| ->%list_elem_of_singleton]%elem_of_app.
    + specialize (H x r Hx ltac:(left)). lia.
    + done.
  - intros [Hr Hmax]. destruct (last t) as [x|] eqn:E; [|apply last_None in E; by rewrite E, elem_of_nil in Hr].
    f_equal. apply last_Some in E as [t' ->].
    apply (ascending_inj id _ _ _ Ha); [set_solver|done|].
    assert (id x ≤ id r) by (apply Hmax; set_solver).
    apply ascending_app in Ha as (Hlt & _ & _).
    apply elem_of_app in Hr as [Hr| ->%list_elem_of_singleton]; [|done].
    specialize (Hlt r x Hr ltac:(left)). lia.
Qed.

Lemma max_of_spec (l : list Z) m : max_of l = Some m ↔ m ∈ l ∧ ∀ z, z ∈ l → z ≤ m.
Proof.
  revert m. induction l as [|z l IH]; intros m; simpl.
  { split; [done|]. by intros [?%elem_of_nil _]. }
  fold (max_of l). destruct (max_of l) as [m'|] eqn:E.
  - destruct (IH m') as [[Hm' Hle] _]; [done|]. split.
    + intros [= <-]. split.
      * destruct (Z.max_spec z m') as [[_ ->]|[_ ->]]; [by right|left].
      * intros y [->|Hy]%elem_of_cons; [lia|]. specialize (Hle y Hy). lia.
    + intros [Hm Hge]. f_equal. pose proof (Hge z ltac:(left)).
      pose proof (Hge m' ltac:(by right)).
      apply elem_of_cons in Hm as [->|Hm]; [lia|]. specialize (Hle m Hm). lia.
  - split.
    + intros [= <-]. split; [left|]. intros y [->|Hy]%elem_of_cons; [done|].
      destruct l; [by apply elem_of_nil in Hy|]. simpl in E. by destruct (max_of l).
    + intros [Hm Hge]. f_equal. apply elem_of_cons in Hm as [->|Hm]; [done|].
      destruct l; [by apply elem_of_nil in Hm|]. simpl in E. by destruct (max_of l).
Qed.

(** The first row of a key in an ordered result. *)
Lemma distinct_on_spec (key : R → bytes) t r :
  r ∈ distinct_on key t ↔ ∃ t1 t2, t = t1 ++ r :: t2 ∧ ∀ x, x ∈ t1 → key x ≠ key r.
Proof.
  revert r. induction t as [|a t IH]; intros r; simpl.
  { split; [by intros ?%elem_of_nil|]. by intros ([|? ?] & ? & ? & ?). }
  rewrite elem_of_cons, list_elem_of_filter, IH. split.
  - intros [->|[Hk (t1 & t2 & -> & H)]]; [by exists [], t; split; [|intros ? ?%elem_of_nil]|].
    exists (a :: t1), t2. split; [done|]. intros x [->|Hx]%elem_of_cons; auto.
  - intros ([|a' t1] & t2 & E & H); simplify_eq/=; [by left|]. right.
    split; [apply not_eq_sym, H; left|]. exists t1, t2. split; [done|].
    intros x Hx. apply H. by right.
Qed.

Lemma distinct_on_NoDup (key : R → bytes) t : NoDup (key <$> distinct_on key t).
Proof.
  induction t as [|a t IH]; simpl; constructor.
  - intros (x & E & [Hx _]%list_elem_of_filter)%list_elem_of_fmap. congruence.
  - by apply fmap_filter_NoDup.
Qed.
End Keyed.

#[export] Instance group_then_newest_total : Total group_then_newest.
Proof.
  intros a b. unfold group_then_newest, bytea_le.
  destruct (decide (g_GroupID a = g_GroupID b)) as [E|E].
  - rewrite E. destruct (Z.le_ge_cases (g_ID a) (g_ID b)); [right|left]; (split; [done|lia]).
  - destruct (total String.le (g_GroupID a) (g_GroupID b)); [left|right];
      (split; [done|congruence]).
Qed.

#[export] Instance group_then_newest_trans : Transitive group_then_newest.
Proof.
  intros a b c [H1 H2] [H3 H4]. unfold group_then_newest, bytea_le in *. split; [by etrans|].
  intros E. assert (Eb : g_GroupID a = g_GroupID b).
  { apply (anti_symm String.le); [done|]. by rewrite E. }
  specialize (H2 Eb). rewrite Eb in E. specialize (H4 E). lia.
Qed.

#[export] Hint Resolve keyed_insert keyed_consume keyed_filter : node.

(** * Hexadecimal round trip *)

Lemma hexDigit_spec n : 0 ≤ n < 16 → isHexSpace (hexDigit n) = false ∧ hexValue (hexDigit n) = Some n.
Proof.
  intros Hn. assert (Hk : ∃ k : nat, n = Z.of_nat k ∧ (k < 16)%nat).
  { exists (Z.to_nat n). lia. }
  destruct Hk as (k & -> & Hk). clear Hn.
  do 16 (destruct k as [|k]; [by vm_compute|]). lia.
Qed.

Lemma decodeHex_encodeHex b : decodeHex (encodeHex b) = Some b.
Proof.
  induction b as [|c b IH]; [done|]. cbn [encodeHex decodeHex].
  set (n := Z.of_nat (Ascii.nat_of_ascii c)).
  assert (Hn : 0 ≤ n < 256) by (pose proof (Ascii.nat_ascii_bounded c); lia).
  destruct (hexDigit_spec (n / 16)) as [-> ->].
  { split; [apply Z.div_pos; lia|apply Z.div_lt_upper_bound; lia]. }
  destruct (hexDigit_spec (n mod 16)) as [_ ->]; [by apply Z.mod_pos_bound|].
  rewrite IH, <- Z.div_mod by lia. unfold n. by rewrite Nat2Z.id, Ascii.ascii_nat_embedding.
Qed.

Lemma encodeHex_inj b1 b2 : encodeHex b1 = encodeHex b2 → b1 = b2.
Proof. intros E. apply (f_equal decodeHex) in E. rewrite !decodeHex_encodeHex in E. congruence. Qed.

Lemma decoded_encode b : decoded (encodeHex b) = Ok b.
Proof. unfold decoded. by rewrite decodeHex_encodeHex. Qed.
