(* ===== verification/ReadStore.v ===== *)
(** The read store (pkg/mls/store/readStore.go): paged queries of groups, welcomes and commit
    logs, the bounded per-topic probes of a catch-up wave, newest messages, inbox logs and inbox
    ids. A database call that fails returns [dbErr]; [None] is a call that succeeds. *)

From S2P Require Import Prelude Types MlsDb.

Definition maxPageSize : Z := 100.

Definition call {A} (dbErr : option error) (a : A) : result A :=
  match dbErr with Some e => Err e | None => Ok a end.

(** * Rows to messages *)

Definition toGroupMessage (r : GroupMessageRow) : GroupMessage :=
  mkGroupMessage (Some
    {| gm_Id := u64 (g_ID r); gm_CreatedNs := u64 (g_CreatedAt r); gm_GroupId := g_GroupID r;
       gm_Data := g_Data r; gm_SenderHmac := g_SenderHmac r;
       gm_ShouldPush := Bool (g_ShouldPush r); gm_IsCommit := Bool (g_IsCommit r) |}).

(** A row with an unknown message type has no message. *)
Definition toWelcomeMessage (r : WelcomeMessageRow) : option WelcomeMessage :=
  if bool_decide (w_MessageType r = 0) then
    Some (WelcomeV1
      {| wm_Id := u64 (w_ID r); wm_CreatedNs := u64 (w_CreatedAt r);
         wm_InstallationKey := w_InstallationKey r; wm_Data := w_Data r;
         wm_HpkePublicKey := w_HpkePublicKey r;
         wm_WrapperAlgorithm := WrapperAlgorithmToProto (w_WrapperAlgorithm r);
         wm_WelcomeMetadata := w_WelcomeMetadata r |})
  else if bool_decide (w_MessageType r = 1) then
    Some (WelcomePointerV
      {| wp_Id := u64 (w_ID r); wp_CreatedNs := u64 (w_CreatedAt r);
         wp_InstallationKey := w_InstallationKey r; wp_WelcomePointer := w_Data r;
         wp_HpkePublicKey := w_HpkePublicKey r;
         wp_WrapperAlgorithm :=
           WrapperAlgorithmToWelcomePointerWrapperAlgorithm (w_WrapperAlgorithm r) |})
  else None.

(** * Paged queries *)

Record QueryGroupMessagesRequest := mkQueryGroupMessagesRequest {
  qg_GroupId : bytes;
  qg_PagingInfo : option PagingInfo;
}.

Record QueryGroupMessagesResponse := mkQueryGroupMessagesResponse {
  rg_Messages : list GroupMessage;
  rg_PagingInfo : PagingInfo;
}.

Record QueryWelcomeMessagesRequest := mkQueryWelcomeMessagesRequest {
  qw_InstallationKey : bytes;
  qw_PagingInfo : option PagingInfo;
}.

Record QueryWelcomeMessagesResponse := mkQueryWelcomeMessagesResponse {
  rw_Messages : list WelcomeMessage;
  rw_PagingInfo : PagingInfo;
}.

(** The three settings a paged query reads off the request. *)
Definition sortDescOf (p : option PagingInfo) : bool :=
  match p with
  | Some p => negb (bool_decide (pi_Direction p = SORT_DIRECTION_ASCENDING))
  | None => true
  end.

Definition pageSizeOf (p : option PagingInfo) : Z :=
  match p with
  | Some p => if bool_decide (0 < pi_Limit p ∧ pi_Limit p ≤ maxPageSize)
              then i32 (pi_Limit p) else maxPageSize
  | None => maxPageSize
  end.

Definition idCursorOf (p : option PagingInfo) : Z :=
  match p with
  | Some p => if bool_decide (pi_IdCursor p ≠ 0) then i64 (pi_IdCursor p) else 0
  | None => 0
  end.

Definition directionOf (sortDesc : bool) : SortDirection :=
  if sortDesc then SORT_DIRECTION_DESCENDING else SORT_DIRECTION_ASCENDING.

(** The next cursor: the last row's id, when the page is full. *)
Definition nextCursor (ids : list Z) (pageSize : Z) : Z :=
  if bool_decide (pageSize ≤ Z.of_nat (length ids)) then u64 (default 0 (last ids)) else 0.

Definition QueryGroupMessagesV1 (dbErr : option error) (req : QueryGroupMessagesRequest) (d : Db)
    : result QueryGroupMessagesResponse :=
  if bool_decide (len (qg_GroupId req) = 0) then Err (Plain "group is required")
  else
    let sortDesc := sortDescOf (qg_PagingInfo req) in
    let pageSize := pageSizeOf (qg_PagingInfo req) in
    let idCursor := idCursorOf (qg_PagingInfo req) in
    messages ← call dbErr
      (if bool_decide (0 < idCursor) then
         if sortDesc then QueryGroupMessagesWithCursorDesc (qg_GroupId req) idCursor pageSize d
         else QueryGroupMessagesWithCursorAsc (qg_GroupId req) idCursor pageSize d
       else QueryGroupMessages (qg_GroupId req) sortDesc pageSize d);
    Ok {| rg_Messages := toGroupMessage <$> messages;
          rg_PagingInfo := mkPagingInfo (directionOf sortDesc) (u32 pageSize)
                             (nextCursor (g_ID <$> messages) pageSize) |}.

Definition QueryWelcomeMessagesV1 (dbErr : option error) (req : QueryWelcomeMessagesRequest)
    (d : Db) : result QueryWelcomeMessagesResponse :=
  if bool_decide (len (qw_InstallationKey req) = 0) then Err (Plain "installation is required")
  else
    let sortDesc := sortDescOf (qw_PagingInfo req) in
    let pageSize := pageSizeOf (qw_PagingInfo req) in
    let idCursor := idCursorOf (qw_PagingInfo req) in
    let key := qw_InstallationKey req in
    messages ← call dbErr
      (if bool_decide (0 < idCursor) then
         if sortDesc then QueryWelcomeMessagesWithCursorDesc key idCursor pageSize d
         else QueryWelcomeMessagesWithCursorAsc key idCursor pageSize d
       else QueryWelcomeMessages key sortDesc pageSize d);
    Ok {| rw_Messages := omap toWelcomeMessage messages;
          rw_PagingInfo := mkPagingInfo (directionOf sortDesc) (u32 pageSize)
                             (nextCursor (w_ID <$> messages) pageSize) |}.

(** * Catch-up probes *)

Record WaveScanTopicProgress := mkProgress { RawCount : Z; LastRawID : Z }.

(** clampCursor saturates at the largest id a row can have. *)
Definition clampCursor (c : Z) : Z := if bool_decide (maxInt64 < c) then maxInt64 else i64 c.

(** queryGroupMessagesWaveScan: per filter the first [limit] rows in its range (the LATERAL
    probe), merged by id. *)
Definition groupProbe (scanCursor ceiling limit : Z) (d : Db) (f : bytes * Z)
    : list GroupMessageRow :=
  LIMIT limit (order_by_asc g_ID
    (filter (λ m, g_GroupID m = f.1 ∧ Z.max f.2 scanCursor < g_ID m ∧ g_ID m ≤ ceiling)
      (group_messages d))).

Definition queryGroupMessagesWaveScan (filters : list (bytes * Z)) (scanCursor ceiling limit : Z)
    (d : Db) : list GroupMessageRow :=
  order_by_asc g_ID (filters ≫= groupProbe scanCursor ceiling limit d).

Definition QueryGroupMessagesWaveScan (dbErr : option error) (filters : list GroupCatchup)
    (scanCursor ceiling limit : Z) (d : Db) : result (list GroupMessage) :=
  if bool_decide (filters = [] ∨ ceiling = 0) then Ok []
  else
    rows ← call dbErr (queryGroupMessagesWaveScan
      ((λ f, (gc_GroupID f, clampCursor (gc_IdCursor f))) <$> filters)
      (clampCursor scanCursor) (clampCursor ceiling) limit d);
    Ok (fmap (M:=list) toGroupMessage rows).

Definition welcomeProbe (scanCursor ceiling limit : Z) (d : Db) (f : bytes * Z)
    : list WelcomeMessageRow :=
  LIMIT limit (order_by_asc w_ID
    (filter (λ m, w_InstallationKey m = f.1 ∧ Z.max f.2 scanCursor < w_ID m ∧ w_ID m ≤ ceiling)
      (welcome_messages d))).

Definition queryWelcomeMessagesWaveScan (filters : list (bytes * Z))
    (scanCursor ceiling limit : Z) (d : Db) : list WelcomeMessageRow :=
  order_by_asc w_ID (filters ≫= welcomeProbe scanCursor ceiling limit d).

(** One row noted in its topic's progress: one more, and the last id seen. *)
Definition note (key : string) (id : Z) (progress : gmap string WaveScanTopicProgress)
    : gmap string WaveScanTopicProgress :=
  let p := default (mkProgress 0 0) (progress !! key) in
  <[key := mkProgress (RawCount p + 1) id]> progress.

Definition addProgress (progress : gmap string WaveScanTopicProgress) (r : WelcomeMessageRow)
    : gmap string WaveScanTopicProgress :=
  note (w_InstallationKey r) (u64 (w_ID r)) progress.

Definition QueryWelcomeMessagesWaveScan (dbErr : option error) (filters : list WelcomeCatchup)
    (scanCursor ceiling limit : Z) (d : Db)
    : result (list WelcomeMessage * gmap string WaveScanTopicProgress) :=
  if bool_decide (filters = [] ∨ ceiling = 0) then Ok ([], ∅)
  else
    rows ← call dbErr (queryWelcomeMessagesWaveScan
      ((λ f, (wc_InstallationKey f, clampCursor (wc_IdCursor f))) <$> filters)
      (clampCursor scanCursor) (clampCursor ceiling) limit d);
    Ok (omap (M:=list) toWelcomeMessage rows, foldl addProgress ∅ rows).

(** * The newest message of each group *)

Definition resultMapOf {R} (key : R → bytes) (results : list R) : gmap bytes R :=
  foldl (λ m r, <[key r := r]> m) ∅ results.

Definition ReadStore_GetNewestGroupMessage (dbErr : option error) (groupIds : list bytes) (d : Db)
    : result (list (option GroupMessageRow)) :=
  results ← call dbErr (MlsDb.GetNewestGroupMessage groupIds d);
  let resultMap := resultMapOf g_GroupID results in
  Ok ((λ g, resultMap !! g) <$> groupIds).

Definition ReadStore_GetNewestGroupMessageMetadata (dbErr : option error) (groupIds : list bytes)
    (d : Db) : result (list (option GetNewestGroupMessageMetadataRow)) :=
  results ← call dbErr (MlsDb.GetNewestGroupMessageMetadata groupIds d);
  let resultMap := resultMapOf m_GroupID results in
  Ok ((λ g, resultMap !! g) <$> groupIds).

Definition ReadStore_FetchKeyPackages (dbErr : option error) (installationIds : list bytes)
    (d : Db) : result (list (bytes * bytes)) :=
  call dbErr (MlsDb.FetchKeyPackages installationIds d).

(** * Inbox ids *)

Record GetInboxIdsResponse_Response := mkGetInboxIdsResponse_Response {
  ri_Identifier : string;
  ri_InboxId : option string;
}.

(** The last entry of the address wins. *)
Definition inboxIdOf (entries : list AddressLogsRow) (identifier : string) : option string :=
  foldl (λ acc e, if bool_decide (al_Address e = identifier) then Some (al_InboxID e) else acc)
    None entries.

Definition GetInboxIds (dbErr : option error) (identifiers : list string) (d : Db)
    : result (list GetInboxIdsResponse_Response) :=
  addressLogEntries ← call dbErr (GetAddressLogs identifiers d);
  Ok ((λ identifier, mkGetInboxIdsResponse_Response identifier
        (inboxIdOf addressLogEntries identifier)) <$> identifiers).

(** * Inbox logs *)

(** Protobuf decoding of identity updates and signatures is generated code. *)
Section Decoding.
Context {IdentityUpdate Signature : Type}.
Context (unmarshalUpdate : bytes → result IdentityUpdate).
Context (unmarshalSignature : bytes → result Signature).

Record GetIdentityUpdatesRequest_Request := mkGetIdentityUpdatesRequest_Request {
  qi_InboxId : string;
  qi_SequenceId : Z;
}.

Record IdentityUpdateLog := mkIdentityUpdateLog {
  ru_SequenceId : Z;
  ru_ServerTimestampNs : Z;
  ru_Update : IdentityUpdate;
}.

Record GetIdentityUpdatesResponse_Response := mkGetIdentityUpdatesResponse_Response {
  ru_InboxId : string;
  ru_Updates : list IdentityUpdateLog;
}.

(** The rows grouped by inbox id, in order. *)
Definition groupByInbox (results : list InboxLogsRow) : gmap string (list InboxLogsRow) :=
  foldl (λ m r, <[il_InboxID r := default [] (m !! il_InboxID r) ++ [r]]> m) ∅ results.

Definition toUpdateLog (entry : InboxLogsRow) : result IdentityUpdateLog :=
  update ← unmarshalUpdate (il_IdentityUpdateProto entry);
  Ok {| ru_SequenceId := u64 (il_SequenceID entry);
        ru_ServerTimestampNs := u64 (il_ServerTimestampNs entry); ru_Update := update |}.

Definition GetInboxLogs (dbErr : option error) (reqs : list GetIdentityUpdatesRequest_Request)
    (d : Db) : result (list GetIdentityUpdatesResponse_Response) :=
  let filters := (λ req, mkInboxLogFilter (qi_InboxId req) (i64 (qi_SequenceId req))) <$> reqs in
  rows ← call dbErr (GetInboxLogFiltered filters d);
  results ← rows;
  let resultMap := groupByInbox results in
  mapErr (λ req,
    updates ← mapErr toUpdateLog (default [] (resultMap !! qi_InboxId req));
    Ok (mkGetIdentityUpdatesResponse_Response (qi_InboxId req) updates)) reqs.

(** * Commit logs *)

Record QueryCommitLogRequest := mkQueryCommitLogRequest {
  qc_GroupId : bytes;
  qc_PagingInfo : option PagingInfo;
}.

Record CommitLogEntry := mkCommitLogEntry {
  ce_SequenceId : Z;
  ce_SerializedCommitLogEntry : bytes;
  ce_Signature : Signature;
}.

Record QueryCommitLogResponse := mkQueryCommitLogResponse {
  rc_GroupId : bytes;
  rc_CommitLogEntries : list CommitLogEntry;
  rc_PagingInfo : PagingInfo;
}.

Definition commitPageSizeOf (p : option PagingInfo) : Z :=
  let pageSize := i32 (default 0 (pi_Limit <$> p)) in
  if bool_decide (pageSize ≤ 0 ∨ maxPageSize < pageSize) then maxPageSize else pageSize.

Definition toCommitLogEntry (entry : CommitLogRow) : result CommitLogEntry :=
  signature ← unmarshalSignature (c_SerializedSignature entry);
  Ok {| ce_SequenceId := u64 (c_ID entry);
        ce_SerializedCommitLogEntry := c_SerializedEntry entry; ce_Signature := signature |}.

Definition QueryCommitLog (dbErr : option error) (req : QueryCommitLogRequest) (d : Db)
    : result QueryCommitLogResponse :=
  if bool_decide (len (qc_GroupId req) = 0) then Err (Plain "group is required")
  else if bool_decide ((pi_Direction <$> qc_PagingInfo req) = Some SORT_DIRECTION_DESCENDING)
  then Err (Plain "descending direction is not supported")
  else
    let pageSize := commitPageSizeOf (qc_PagingInfo req) in
    let idCursor := i64 (default 0 (pi_IdCursor <$> qc_PagingInfo req)) in
    entries ← call dbErr (QueryCommitLogV2 (qc_GroupId req) idCursor pageSize d);
    out ← mapErr toCommitLogEntry entries;
    Ok {| rc_GroupId := qc_GroupId req; rc_CommitLogEntries := out;
          rc_PagingInfo := mkPagingInfo SORT_DIRECTION_ASCENDING (u32 pageSize)
                             (nextCursor (c_ID <$> entries) pageSize) |}.
End Decoding.

(** * Following a query's cursor

    A client that repeats a query with the paging info of the last response, until the response
    has no cursor. [None] is a client that is still paging when its fuel runs out. *)

Fixpoint drain {M} (fuel : nat) (query : PagingInfo → result (list M * PagingInfo))
    (p : PagingInfo) : option (list M) :=
  match fuel with
  | O => None
  | S fuel =>
      match query p with
      | Ok (ms, p') =>
          if bool_decide (pi_IdCursor p' = 0) then Some ms
          else (λ rest, ms ++ rest) <$> drain fuel query p'
      | Err _ => None
      end
  end.

(** The rows a query with cursor [c] ranges over, in the order it reads them. *)
Definition window {R} (id : R → Z) (desc : bool) (c : Z) (rows : list R) : list R :=
  if bool_decide (0 < c)
  then if desc then reverse (filter (λ r, id r < c) rows) else above id c rows
  else if desc then reverse rows else rows.

Section Window.
Context {R : Type} (id : R → Z).
Implicit Types rows : list R.

Definition page_table rows : Prop :=
  ascending id rows ∧ ∀ r, r ∈ rows → 0 < id r ≤ maxInt64.

Lemma reverse_filter (P : R → Prop) `{∀ x, Decision (P x)} rows :
  reverse (filter P rows) = filter P (reverse rows).
Proof.
  induction rows as [|r rows IH]; [done|]. rewrite filter_cons, reverse_cons, filter_app.
  rewrite filter_cons, filter_nil. case_decide; simpl; rewrite ?reverse_cons, IH; [done|].
  by rewrite app_nil_r.
Qed.

Lemma window_below c rows :
  reverse (filter (λ r, id r < c) rows) = above (λ r, - id r) (- c) (reverse rows).
Proof.
  rewrite reverse_filter. apply list_filter_iff. intros r. lia.
Qed.

Lemma window_elem desc c rows r : r ∈ window id desc c rows → r ∈ rows.
Proof.
  unfold window. case_bool_decide; destruct desc; try rewrite elem_of_reverse; [..|done|done].
  - by intros [_ ?]%list_elem_of_filter.
  - by intros [_ ?]%list_elem_of_filter.
Qed.

Lemma window_length desc c rows : (length (window id desc c rows) ≤ length rows)%nat.
Proof.
  unfold window. case_bool_decide; destruct desc; rewrite ?length_reverse;
    try apply length_filter; done.
Qed.

(** A window is the part above a cursor of the table read in the query's direction. *)
Definition by_dir (desc : bool) (r : R) : Z := if desc then - id r else id r.
Definition in_dir (desc : bool) rows : list R := if desc then reverse rows else rows.

Lemma window_at desc c rows :
  0 < c → window id desc c rows = above (by_dir desc) (if desc then - c else c) (in_dir desc rows).
Proof.
  intros Hc. unfold window. rewrite bool_decide_true by done.
  destruct desc; [apply window_below|done].
Qed.

Lemma window_start desc c rows :
  page_table rows → c ≤ 0 →
  window id desc c rows
    = above (by_dir desc) (if desc then - (maxInt64 + 1) else 0) (in_dir desc rows).
Proof.
  intros [_ Hid] Hc. unfold window. rewrite bool_decide_false by lia. symmetry.
  destruct desc; apply above_all; unfold by_dir, in_dir; simpl.
  - intros r Hr. rewrite elem_of_reverse in Hr. specialize (Hid r Hr). lia.
  - intros r Hr. specialize (Hid r Hr). lia.
Qed.

Lemma in_dir_ascending desc rows :
  ascending id rows → ascending (by_dir desc) (in_dir desc rows).
Proof. destruct desc; [apply ascending_reverse|done]. Qed.

(** The window after a page is what the page left of its own window. *)
Lemma window_next desc c n rows r :
  page_table rows → last (take n (window id desc c rows)) = Some r →
  0 < id r ≤ maxInt64 ∧ window id desc (id r) rows = drop n (window id desc c rows).
Proof.
  intros Ht Hlast.
  assert (Hr : 0 < id r ≤ maxInt64).
  { apply Ht, (window_elem desc c). apply last_Some_elem_of, elem_of_take in Hlast
      as (i & Hi & _). by apply list_elem_of_lookup_2 in Hi. }
  split; [done|]. rewrite window_at by lia.
  replace (if desc then - id r else id r) with (by_dir desc r) by done.
  destruct (decide (0 < c)) as [Hc|Hc].
  - rewrite window_at in * by done. apply page_next; [by apply in_dir_ascending, Ht|done].
  - rewrite window_start in * by (done || lia).
    apply page_next; [by apply in_dir_ascending, Ht|done].
Qed.
End Window.

Section Drain.
Context {R M : Type} (id : R → Z) (conv : list R → list M) (rows : list R) (desc : bool) (n : Z).
Context (valid : PagingInfo → Prop) (query : PagingInfo → result (list M * PagingInfo)).
Hypothesis Hconv : ∀ a b, conv (a ++ b) = conv a ++ conv b.
Hypothesis Hrows : page_table id rows.
Hypothesis Hn : 1 ≤ n.
Hypothesis Hquery : ∀ p, valid p → 0 ≤ pi_IdCursor p ≤ maxInt64 →
  ∃ p', query p = Ok (conv (LIMIT n (window id desc (pi_IdCursor p) rows)), p') ∧ valid p' ∧
    pi_IdCursor p' = nextCursor (id <$> LIMIT n (window id desc (pi_IdCursor p) rows)) n.

Lemma drain_window fuel p :
  valid p → 0 ≤ pi_IdCursor p ≤ maxInt64 →
  (length (window id desc (pi_IdCursor p) rows) < fuel)%nat →
  drain fuel query p = Some (conv (window id desc (pi_IdCursor p) rows)).
Proof.
  revert p. induction fuel as [|fuel IH]; intros p Hp Hc Hf; [lia|]. cbn [drain].
  destruct (Hquery p Hp Hc) as (p' & -> & Hp' & E). rewrite E.
  set (w := window id desc (pi_IdCursor p) rows) in *. unfold nextCursor, LIMIT in *.
  rewrite length_fmap, length_take in *. rewrite fmap_last in *.
  case_bool_decide as Hfull; last first.
  { rewrite bool_decide_true by done. f_equal. f_equal. rewrite take_ge; [done|]. lia. }
  destruct (last (take (Z.to_nat n) w)) as [r|] eqn:Hlast; last first.
  { apply last_None in Hlast. apply (f_equal length) in Hlast. rewrite length_take in Hlast.
    simpl in Hlast. lia. }
  destruct (window_next id desc _ _ _ _ Hrows Hlast) as [Hr Hw]. simpl in *.
  assert (E64 : u64 (id r) = id r) by (apply u64_small; unfold_widths; lia).
  rewrite E64 in *. rewrite bool_decide_false by lia.
  rewrite IH; [|done|rewrite E; lia|].
  - rewrite E, Hw. simpl. by rewrite <- Hconv, take_drop.
  - rewrite E, Hw, length_drop. fold w. lia.
Qed.
End Drain.

(** * The paged queries read windows of their table *)

Definition group_rows (g : bytes) (d : Db) : list GroupMessageRow :=
  order_by_asc g_ID (filter (λ r, g_GroupID r = g) (group_messages d)).

Definition welcome_rows (k : bytes) (d : Db) : list WelcomeMessageRow :=
  order_by_asc w_ID (filter (λ r, w_InstallationKey r = k) (welcome_messages d)).

Definition commit_rows (g : bytes) (d : Db) : list CommitLogRow :=
  order_by_asc c_ID (filter (λ r, c_GroupID r = g) (commit_log_v2 d)).

Section Table.
Context {R : Type} (id : R → Z) (seq : Z) (t : list R).
Hypothesis Hkeyed : keyed id seq t.
Context (P : R → Prop) `{∀ r, Decision (P r)}.
Local Abbreviation rows := (order_by_asc id (filter P t)).

Lemma table_NoDup : NoDup (id <$> filter P t).
Proof. apply fmap_filter_NoDup, Hkeyed. Qed.

Lemma table_page_table : page_table id rows.
Proof.
  split; [apply order_by_asc_ascending, table_NoDup|].
  intros r. rewrite order_by_asc_Permutation. intros [_ Hr]%list_elem_of_filter.
  by eapply keyed_elem.
Qed.

Lemma asc_rows c :
  order_by_asc id (filter (λ r, P r ∧ c < id r) t) = above id c rows.
Proof.
  unfold above. rewrite <- order_filter by apply table_NoDup. f_equal.
  rewrite list_filter_filter. apply list_filter_iff. intros r. tauto.
Qed.

Lemma desc_rows c :
  order_by_desc id (filter (λ r, P r ∧ id r < c) t) = reverse (filter (λ r, id r < c) rows).
Proof.
  rewrite order_desc by apply fmap_filter_NoDup, Hkeyed.
  rewrite <- order_filter by apply table_NoDup. f_equal. f_equal.
  rewrite list_filter_filter. apply list_filter_iff. intros r. tauto.
Qed.

Lemma window_rows (desc : bool) c :
  (if bool_decide (0 < c) then
     if desc then order_by_desc id (filter (λ r, P r ∧ id r < c) t)
     else order_by_asc id (filter (λ r, P r ∧ c < id r) t)
   else (if desc then order_by_desc id else order_by_asc id) (filter P t))
  = window id desc c rows.
Proof.
  unfold window. rewrite asc_rows, desc_rows. destruct desc; [|done].
  by rewrite order_desc by apply table_NoDup.
Qed.
End Table.

Lemma LIMIT_if {A} (b : bool) n (l1 l2 : list A) :
  (if b then LIMIT n l1 else LIMIT n l2) = LIMIT n (if b then l1 else l2).
Proof. by destruct b. Qed.

Lemma pageSizeOf_bounds p : 1 ≤ pageSizeOf p ≤ maxPageSize.
Proof.
  unfold pageSizeOf, maxPageSize. destruct p as [p|]; [|lia]. case_bool_decide; [|lia].
  unfold i32. rewrite wrapS_small; lia.
Qed.

Lemma pageSizeOf_echo n dir c :
  1 ≤ n ≤ maxPageSize → pageSizeOf (Some (mkPagingInfo dir (u32 n) c)) = n.
Proof.
  unfold maxPageSize. intros Hn. unfold pageSizeOf, maxPageSize, u32, i32. simpl.
  rewrite !wrapU_small by lia. rewrite bool_decide_true by lia. rewrite wrapS_small; lia.
Qed.

Lemma sortDescOf_echo desc n c : sortDescOf (Some (mkPagingInfo (directionOf desc) n c)) = desc.
Proof. by destruct desc. Qed.

Lemma idCursorOf_small p :
  0 ≤ pi_IdCursor p ≤ maxInt64 → idCursorOf (Some p) = pi_IdCursor p.
Proof.
  intros H. unfold idCursorOf. case_bool_decide as E; [by apply i64_small|].
  done.
Qed.

Lemma query_group_window g p d :
  wf_db d → len g ≠ 0 →
  QueryGroupMessagesV1 None (mkQueryGroupMessagesRequest g p) d =
  let rows := LIMIT (pageSizeOf p) (window g_ID (sortDescOf p) (idCursorOf p) (group_rows g d)) in
  Ok {| rg_Messages := toGroupMessage <$> rows;
        rg_PagingInfo := mkPagingInfo (directionOf (sortDescOf p)) (u32 (pageSizeOf p))
                           (nextCursor (g_ID <$> rows) (pageSizeOf p)) |}.
Proof.
  intros Hd Hg. unfold QueryGroupMessagesV1. simpl. rewrite bool_decide_false by done.
  unfold QueryGroupMessagesWithCursorDesc, QueryGroupMessagesWithCursorAsc, QueryGroupMessages.
  rewrite !LIMIT_if. rewrite (window_rows g_ID _ _ (wf_group_ids d Hd)). done.
Qed.

Lemma query_welcome_window k p d :
  wf_db d → len k ≠ 0 →
  QueryWelcomeMessagesV1 None (mkQueryWelcomeMessagesRequest k p) d =
  let rows := LIMIT (pageSizeOf p) (window w_ID (sortDescOf p) (idCursorOf p) (welcome_rows k d)) in
  Ok {| rw_Messages := omap toWelcomeMessage rows;
        rw_PagingInfo := mkPagingInfo (directionOf (sortDescOf p)) (u32 (pageSizeOf p))
                           (nextCursor (w_ID <$> rows) (pageSizeOf p)) |}.
Proof.
  intros Hd Hg. unfold QueryWelcomeMessagesV1. simpl. rewrite bool_decide_false by done.
  unfold QueryWelcomeMessagesWithCursorDesc, QueryWelcomeMessagesWithCursorAsc,
    QueryWelcomeMessages.
  rewrite !LIMIT_if. rewrite (window_rows w_ID _ _ (wf_welcome_ids d Hd)). done.
Qed.

(** The client's two queries, as pages. *)
Definition groupPage (g : bytes) (d : Db) (p : PagingInfo)
    : result (list GroupMessage * PagingInfo) :=
  r ← QueryGroupMessagesV1 None (mkQueryGroupMessagesRequest g (Some p)) d;
  Ok (rg_Messages r, rg_PagingInfo r).

Definition welcomePage (k : bytes) (d : Db) (p : PagingInfo)
    : result (list WelcomeMessage * PagingInfo) :=
  r ← QueryWelcomeMessagesV1 None (mkQueryWelcomeMessagesRequest k (Some p)) d;
  Ok (rw_Messages r, rw_PagingInfo r).

(** C27. Paging through a group's messages or an installation's welcomes is complete: a client
    that follows the cursors from any starting cursor, in either direction and with any page
    size, ends, and has then seen every row beyond its cursor exactly once, in order (welcome
    rows of an unknown type are left out of the messages but do not stop the paging). *)
Theorem query_pages_complete d key dir limit c fuel :
  wf_db d → len key ≠ 0 → 0 ≤ c ≤ maxInt64 →
  let p := mkPagingInfo dir limit c in
  let desc := negb (bool_decide (dir = SORT_DIRECTION_ASCENDING)) in
  ((length (group_rows key d) < fuel)%nat →
   drain fuel (groupPage key d) p
     = Some (toGroupMessage <$> window g_ID desc c (group_rows key d))) ∧
  ((length (welcome_rows key d) < fuel)%nat →
   drain fuel (welcomePage key d) p
     = Some (omap toWelcomeMessage (window w_ID desc c (welcome_rows key d)))).
Proof.
  intros Hd Hk Hc p desc.
  pose proof (pageSizeOf_bounds (Some p)) as Hn.
  set (valid q := sortDescOf (Some q) = desc ∧ pageSizeOf (Some q) = pageSizeOf (Some p)).
  split; intros Hf.
  - apply (drain_window g_ID (fmap toGroupMessage) _ desc (pageSizeOf (Some p)) valid);
      [intros; apply fmap_app|by eapply table_page_table, wf_group_ids|lia| |done|done|].
    + intros q [E1 E2] Hq. unfold groupPage. rewrite query_group_window by done.
      rewrite E1, E2, idCursorOf_small by done. simpl. eexists. split; [done|]. split; [|done].
      split; [apply sortDescOf_echo|by apply pageSizeOf_echo].
    + eapply Nat.le_lt_trans, Hf. apply window_length.
  - apply (drain_window w_ID (omap toWelcomeMessage) _ desc (pageSizeOf (Some p)) valid);
      [intros; apply omap_app|by eapply table_page_table, wf_welcome_ids|lia| |done|done|].
    + intros q [E1 E2] Hq. unfold welcomePage. rewrite query_welcome_window by done.
      rewrite E1, E2, idCursorOf_small by done. simpl. eexists. split; [done|]. split; [|done].
      split; [apply sortDescOf_echo|by apply pageSizeOf_echo].
    + eapply Nat.le_lt_trans, Hf. apply window_length.
Qed.

(** * The newest message of each group *)

Lemma resultMapOf_lookup {R} (key : R → bytes) results g r :
  NoDup (key <$> results) → resultMapOf key results !! g = Some r ↔ r ∈ results ∧ key r = g.
Proof.
  unfold resultMapOf. induction results as [|x results IH] using rev_ind; intros Hd.
  { simpl. rewrite lookup_empty. split; [done|]. by intros [?%elem_of_nil _]. }
  rewrite fmap_app in Hd. apply NoDup_app in Hd as (Hd & Hx & _).
  rewrite foldl_app. simpl. rewrite elem_of_app, list_elem_of_singleton, lookup_insert_Some, IH
    by done.
  split; [naive_solver|]. intros [[Hr| ->] E]; [|auto]. right. split_and!; auto.
  intros Ek. apply (Hx (key r)); [by apply list_elem_of_fmap_2|].
  rewrite E, <- Ek. by apply list_elem_of_here.
Qed.

Lemma newest_rows_elem gs d r :
  wf_db d →
  r ∈ newest_rows gs d ↔ g_GroupID r ∈ gs ∧ last (group_rows (g_GroupID r) d) = Some r.
Proof.
  intros Hd. destruct (wf_group_ids d Hd) as (Hids & _).
  unfold group_rows. rewrite last_order by (by apply fmap_filter_NoDup).
  unfold newest_rows. rewrite distinct_on_spec.
  set (t := merge_sort _ _).
  assert (Hs : StronglySorted group_then_newest t) by (apply StronglySorted_merge_sort; apply _).
  assert (Ht : ∀ x, x ∈ t ↔ g_GroupID x ∈ gs ∧ x ∈ group_messages d).
  { intros x. unfold t. by rewrite merge_sort_Permutation, list_elem_of_filter. }
  split.
  - intros (t1 & t2 & E & Hfirst).
    assert (Hr : r ∈ t) by (rewrite E; set_solver). apply Ht in Hr as [Hg Hr]. split; [done|].
    split; [by apply list_elem_of_filter|]. intros x [Hx Hin]%list_elem_of_filter.
    assert (Hxt : x ∈ t1 ++ r :: t2) by (rewrite <- E; apply Ht; by rewrite Hx).
    rewrite E in Hs. apply StronglySorted_app in Hs as (_ & _ & Hs).
    apply StronglySorted_cons in Hs as [Hs _]. rewrite Forall_forall in Hs.
    apply elem_of_app in Hxt as [Hxt|[->|Hxt]%elem_of_cons]; [by apply Hfirst in Hxt|lia|].
    destruct (Hs x Hxt) as [_ Hle]. by apply Hle.
  - intros (Hg & [_ Hr]%list_elem_of_filter & Hmax).
    assert (Hrt : r ∈ t) by (by apply Ht).
    apply list_elem_of_split_l in Hrt as (t1 & t2 & E & Hn). exists t1, t2. split; [done|].
    intros x Hx Ek. rewrite E in Hs. apply StronglySorted_app in Hs as (Hs & _ & _).
    destruct (Hs x r Hx ltac:(left)) as [_ Hle]. specialize (Hle Ek).
    assert (Hxd : x ∈ group_messages d) by (apply Ht; rewrite E; set_solver).
    assert (g_ID x ≤ g_ID r) by (apply Hmax, list_elem_of_filter; done).
    assert (x = r); [|congruence].
    apply (NoDup_fmap_fst_inj g_ID (group_messages d)); [done..|lia].
Qed.

(** The newest message of each requested group, in request order: GetNewestGroupMessage and
    GetNewestGroupMessageMetadata answer every position with the row of the largest id in its
    group, or with nothing when the group has no message. *)
Theorem newest_per_group gs d :
  wf_db d →
  ReadStore_GetNewestGroupMessage None gs d = Ok ((λ g, last (group_rows g d)) <$> gs) ∧
  ReadStore_GetNewestGroupMessageMetadata None gs d
    = Ok ((λ g, (λ r, mkNewestMetadata (g_ID r) (g_GroupID r) (g_CreatedAt r) (g_IsCommit r))
                  <$> last (group_rows g d)) <$> gs).
Proof.
  intros Hd.
  assert (Hl : ∀ g r, g ∈ gs →
    r ∈ newest_rows gs d ∧ g_GroupID r = g ↔ last (group_rows g d) = Some r).
  { intros g r Hg. rewrite newest_rows_elem by done. split; [by intros [[_ ?] <-]|].
    intros E. assert (Eg : g_GroupID r = g); [|by rewrite Eg].
    apply last_order in E; [|apply fmap_filter_NoDup, wf_group_ids, Hd].
    by destruct E as [[? _]%list_elem_of_filter _]. }
  assert (Hn : NoDup (g_GroupID <$> newest_rows gs d)) by apply distinct_on_NoDup.
  split; unfold ReadStore_GetNewestGroupMessage, ReadStore_GetNewestGroupMessageMetadata,
    MlsDb.GetNewestGroupMessage, MlsDb.GetNewestGroupMessageMetadata; simpl; f_equal;
    apply list_fmap_ext; intros i g Hg%list_elem_of_lookup_2; apply option_eq; intros r.
  - by rewrite resultMapOf_lookup, Hl by done.
  - rewrite resultMapOf_lookup by (rewrite <- list_fmap_compose; done).
    rewrite list_elem_of_fmap, fmap_Some. split.
    + intros [(x & -> & Hx) Ex]. exists x. split; [|done]. by apply Hl.
    + intros (x & Hx & ->). apply Hl in Hx as [Hx Ex]; [|done]. split; [|done]. by exists x.
Qed.

(** * Cursors beyond the largest id *)

(** A cursor above the largest BIGINT: the catch-up probe saturates it and finds nothing,
    while the paged query's conversion wraps it negative and answers as if there were no cursor,
    so that a client paging with one starts over. *)
Theorem oversized_cursor d g dir limit c scanCursor ceiling n :
  wf_db d → 2 ^ 63 ≤ c < 2 ^ 64 →
  QueryGroupMessagesWaveScan None [mkGroupCatchup g c] scanCursor ceiling n d = Ok [] ∧
  QueryGroupMessagesV1 None
    (mkQueryGroupMessagesRequest g (Some (mkPagingInfo dir limit c))) d
  = QueryGroupMessagesV1 None
    (mkQueryGroupMessagesRequest g (Some (mkPagingInfo dir limit 0))) d.
Proof.
  intros Hd Hc. split.
  - unfold QueryGroupMessagesWaveScan. case_bool_decide; [done|]. simpl.
    unfold queryGroupMessagesWaveScan, groupProbe. simpl.
    rewrite (filter_drop_all _ (group_messages d)); 
      [unfold LIMIT; simpl; rewrite (order_by_asc_id g_ID []) by constructor; by rewrite take_nil|].
    intros r Hr. pose proof (keyed_elem _ _ _ _ (wf_group_ids d Hd) Hr).
    unfold clampCursor. rewrite (bool_decide_true (maxInt64 < c)) by (unfold maxInt64; lia). lia.
  - unfold QueryGroupMessagesV1, idCursorOf. simpl.
    rewrite (bool_decide_true (c ≠ 0)) by lia. rewrite i64_big by (unfold maxInt64; lia).
    rewrite (bool_decide_false (0 < c - 2 ^ 64)) by lia. done.
Qed.

(** * Commit logs *)

Lemma commitPageSizeOf_bounds p : 1 ≤ commitPageSizeOf p ≤ maxPageSize.
Proof. unfold commitPageSizeOf, maxPageSize. case_bool_decide; lia. Qed.

Lemma commitPageSizeOf_echo n dir c :
  1 ≤ n ≤ maxPageSize → commitPageSizeOf (Some (mkPagingInfo dir (u32 n) c)) = n.
Proof.
  unfold maxPageSize. intros Hn. unfold commitPageSizeOf, maxPageSize, u32, i32. simpl.
  rewrite wrapU_small, wrapS_small by lia. rewrite bool_decide_false by lia. done.
Qed.

Definition commitPage {Signature} (unmarshalSignature : bytes → result Signature) (g : bytes)
    (d : Db) (p : PagingInfo) : result (list CommitLogEntry * PagingInfo) :=
  r ← QueryCommitLog unmarshalSignature None (mkQueryCommitLogRequest g (Some p)) d;
  Ok (rc_CommitLogEntries r, rc_PagingInfo r).

Lemma mapErr_total {A B} (f : A → result B) (h : A → B) l :
  (∀ a, a ∈ l → f a = Ok (h a)) → mapErr f l = Ok (h <$> l).
Proof.
  induction l as [|a l IH]; intros Hf; [done|]. simpl.
  rewrite Hf by left. rewrite IH; [done|]. intros b Hb. apply Hf. by right.
Qed.

(** The commit log is readable in full: a client that follows the cursors from any starting
    cursor (in the one supported direction) ends with every entry of the group above its cursor,
    once and in order, provided every stored signature decodes. *)
Theorem commit_log_pages_complete {Signature} (unmarshalSignature : bytes → result Signature)
    (signature : bytes → Signature) d g dir limit c fuel :
  wf_db d → len g ≠ 0 → dir ≠ SORT_DIRECTION_DESCENDING → 0 ≤ c ≤ maxInt64 →
  (∀ r, r ∈ commit_rows g d →
     unmarshalSignature (c_SerializedSignature r) = Ok (signature (c_SerializedSignature r))) →
  (length (commit_rows g d) < fuel)%nat →
  drain fuel (commitPage unmarshalSignature g d) (mkPagingInfo dir limit c)
    = Some ((λ r, mkCommitLogEntry (u64 (c_ID r)) (c_SerializedEntry r)
                    (signature (c_SerializedSignature r)))
              <$> above c_ID c (commit_rows g d)).
Proof.
  intros Hd Hg Hdir Hc Hsig Hf. set (p := mkPagingInfo dir limit c).
  pose proof (commitPageSizeOf_bounds (Some p)) as Hn.
  assert (Ht : page_table c_ID (commit_rows g d)) by eapply table_page_table, wf_commit_ids, Hd.
  assert (Hw : ∀ k, 0 ≤ k → window c_ID false k (commit_rows g d) = above c_ID k (commit_rows g d)).
  { intros k Hk. unfold window. case_bool_decide; [done|]. symmetry. apply above_all.
    intros r Hr. destruct Ht as [_ Hr']. specialize (Hr' r Hr). lia. }
  rewrite <- Hw by lia.
  set (valid q := pi_Direction q ≠ SORT_DIRECTION_DESCENDING
    ∧ commitPageSizeOf (Some q) = commitPageSizeOf (Some p)).
  apply (drain_window c_ID (fmap _) _ false (commitPageSizeOf (Some p)) valid);
    [intros; apply fmap_app|done|lia| |done|done|].
  - intros q [E1 E2] Hq. unfold commitPage, QueryCommitLog. simpl.
    rewrite bool_decide_false by done. rewrite bool_decide_false by congruence.
    rewrite E2, i64_small by done. unfold QueryCommitLogV2.
    rewrite (asc_rows c_ID _ _ (wf_commit_ids d Hd)). rewrite Hw by lia.
    erewrite mapErr_total; simpl.
    + eexists. split; [done|]. split; [|done]. split; [done|by apply commitPageSizeOf_echo].
    + intros r Hr%elem_of_take. destruct Hr as (i & Hr%list_elem_of_lookup_2 & _).
      apply elem_of_above in Hr as [_ Hr]. unfold toCommitLogEntry. by rewrite Hsig.
  - eapply Nat.le_lt_trans, Hf. apply window_length.
Qed.

(** * Inbox ids *)

Lemma inboxIdOf_spec entries identifier ib :
  NoDup (al_Address <$> entries) →
  inboxIdOf entries identifier = Some ib
    ↔ ∃ e, e ∈ entries ∧ al_Address e = identifier ∧ al_InboxID e = ib.
Proof.
  unfold inboxIdOf. induction entries as [|e entries IH] using rev_ind; intros Hd.
  { simpl. split; [done|]. by intros (? & ?%elem_of_nil & _). }
  rewrite fmap_app in Hd. apply NoDup_app in Hd as (Hd & Hx & _).
  rewrite foldl_app. simpl. case_bool_decide as E; [|rewrite IH by done]; split.
  - intros [= <-]. exists e. split; [|done]. set_solver.
  - intros (e' & [He'| ->%list_elem_of_singleton]%elem_of_app & E' & <-); [|done].
    exfalso. apply (Hx (al_Address e')); [by apply list_elem_of_fmap_2|].
    rewrite E', <- E. by apply list_elem_of_here.
  - intros (e' & He' & ?). exists e'. split; [set_solver|done].
  - intros (e' & [He'| ->%list_elem_of_singleton]%elem_of_app & E' & ?); [|done]. by exists e'.
Qed.

Lemma NoDup_fmap_coarser {A B C} (f : A → B) (g : A → C) (l : list A) :
  NoDup (f <$> l) → (∀ x y, x ∈ l → y ∈ l → g x = g y → f x = f y) → NoDup (g <$> l).
Proof.
  induction l as [|a l IH]; [constructor|]. rewrite !fmap_cons, !NoDup_cons.
  intros [Ha Hl] Hfg. split; [|apply IH; [done|]; intros; apply Hfg; [by right..|done]].
  intros (b & E & Hb)%list_elem_of_fmap. apply Ha.
  rewrite (Hfg a b); [by apply list_elem_of_fmap_2|left|by right|done].
Qed.

Definition associations_keyed (d : Db) : Prop :=
  NoDup ((λ a, (a_Address a, a_AssociationSequenceID a)) <$> address_log d).

(** [a] is the newest unrevoked association of its address. *)
Definition newest_association (d : Db) (a : AddressLogRow) : Prop :=
  a ∈ address_log d ∧ a_RevocationSequenceID a = None ∧
  ∃ m, a_AssociationSequenceID a = Some m ∧
    ∀ b m', b ∈ address_log d → a_Address b = a_Address a → a_RevocationSequenceID b = None →
      a_AssociationSequenceID b = Some m' → m' ≤ m.

Lemma max_association_spec addresses address d m :
  address ∈ addresses →
  max_association addresses address d = Some m ↔
  (∃ a, a ∈ address_log d ∧ a_Address a = address ∧ a_RevocationSequenceID a = None
        ∧ a_AssociationSequenceID a = Some m) ∧
  (∀ b m', b ∈ address_log d → a_Address b = address → a_RevocationSequenceID b = None →
      a_AssociationSequenceID b = Some m' → m' ≤ m).
Proof.
  intros Hin. unfold max_association. rewrite max_of_spec.
  setoid_rewrite list_elem_of_omap. setoid_rewrite list_elem_of_filter. split.
  - intros [(a & ((<- & _ & Hr) & Ha) & Hm) Hmax]. split; [by exists a|].
    intros b m' Hb Eb Hrb Hmb. apply Hmax. exists b. split; [|done]. by rewrite Eb.
  - intros [(a & Ha & <- & Hr & Hm) Hmax]. split; [by exists a|].
    intros z (b & ((Eb & _ & Hrb) & Hb) & Hmb). by apply (Hmax b).
Qed.

Lemma address_logs_elem addresses d a :
  associations_keyed d → a_Address a ∈ addresses → a ∈ address_log d →
  is_Some (a_AssociationSequenceID a) ∧
    a_AssociationSequenceID a = max_association addresses (a_Address a) d ↔
  newest_association d a.
Proof.
  intros Hk Hin Ha. split.
  - intros [[m Hm] E]. rewrite Hm in E. symmetry in E.
    apply max_association_spec in E as [(b & Hb & Eb & Hr & Hmb) Hmax]; [|done].
    assert (b = a) as ->.
    { apply (NoDup_fmap_fst_inj (λ a, (a_Address a, a_AssociationSequenceID a))
        (address_log d)); [done..|]. by rewrite Eb, Hmb, Hm. }
    split_and!; [done..|]. exists m. split; [done|]. eauto.
  - intros (_ & Hr & m & Hm & Hmax). split; [by exists m|]. rewrite Hm. symmetry.
    apply max_association_spec; [done|]. split; [by exists a|]. eauto.
Qed.

(** The inbox of an address is the one of its newest unrevoked association, for every
    identifier of the request in order: the answer names an inbox exactly when such an
    association exists, and then names that association's inbox. *)
Theorem inbox_id_of_newest_association d identifiers :
  associations_keyed d →
  ∃ resps, GetInboxIds None identifiers d = Ok resps ∧ ri_Identifier <$> resps = identifiers ∧
    ∀ resp ib, resp ∈ resps →
      ri_InboxId resp = Some ib ↔
      ∃ a, newest_association d a ∧ a_Address a = ri_Identifier resp
           ∧ ib = encodeHex (a_InboxID a).
Proof.
  intros Hk. unfold GetInboxIds. simpl. eexists. split; [done|]. split.
  { rewrite <- list_fmap_compose. apply list_fmap_id. }
  intros resp ib (identifier & -> & Hin)%list_elem_of_fmap. simpl.
  unfold GetAddressLogs. set (keep := filter _ (address_log d)).
  assert (Hkeep : ∀ a, a ∈ keep ∧ a_Address a = identifier
                       ↔ newest_association d a ∧ a_Address a = identifier).
  { intros a. unfold keep. rewrite list_elem_of_filter. split.
    - intros [[H1 H2] <-]. split; [|done]. by apply (address_logs_elem identifiers).
    - intros [H <-]. assert (a ∈ address_log d) by apply H.
      split; [|done]. split; [|done]. by apply (address_logs_elem identifiers). }
  rewrite inboxIdOf_spec.
  - setoid_rewrite list_elem_of_fmap. split.
    + intros (e & (a & -> & Ha) & E & <-). exists a. split; [|done]. by apply Hkeep.
    + intros (a & Ha & E & ->). eexists. split; [exists a; split; [done|]|done].
      by apply Hkeep.
  - rewrite <- list_fmap_compose. unfold compose. simpl.
    apply (NoDup_fmap_coarser (λ a, (a_Address a, a_AssociationSequenceID a))).
    + by apply fmap_filter_NoDup.
    + intros a b [[_ Ha] _]%list_elem_of_filter [[_ Hb] _]%list_elem_of_filter E.
      by rewrite Ha, Hb, E.
Qed.

(** * Inbox logs *)

Definition inbox_rows (b : bytes) (d : Db) : list InboxLogRow :=
  order_by_asc l_SequenceID (filter (λ r, l_InboxID r = b) (inbox_log d)).

Lemma groupByInbox_lookup results k :
  default [] (groupByInbox results !! k) = filter (λ r, il_InboxID r = k) results.
Proof.
  unfold groupByInbox. induction results as [|r results IH] using rev_ind; [done|].
  rewrite foldl_app, filter_app, filter_cons, filter_nil. simpl.
  case_decide as E; [subst k; rewrite lookup_insert_eq|rewrite lookup_insert_ne, app_nil_r by done];
    simpl; by rewrite IH.
Qed.

Lemma fmap_filter_comm {A B} (f : A → B) (P : B → Prop) (Q : A → Prop)
    `{∀ b, Decision (P b), ∀ a, Decision (Q a)} (l : list A) :
  (∀ a, P (f a) ↔ Q a) → filter P (f <$> l) = f <$> filter Q l.
Proof.
  intros HPQ. induction l as [|a l IH]; [done|]. rewrite fmap_cons, !filter_cons.
  destruct (decide (Q a)) as [HQ|HQ].
  - rewrite decide_True by (by apply HPQ). by rewrite fmap_cons, IH.
  - rewrite decide_False by (by rewrite HPQ). done.
Qed.

(** A join on a key the other side lists once. *)
Lemma join_unique {A B} (bs : list B) (key : B → bytes) (l : list A) (P : A → B → Prop)
    `{∀ a b, Decision (P a b)} (inbox : A → bytes) :
  NoDup (key <$> bs) → (∀ a b, P a b → key b = inbox a) →
  (a ← l; b ← filter (P a) bs; [a]) = filter (λ a, Exists (P a) bs) l.
Proof.
  intros Hd HP. induction l as [|a l IH]; [done|]. rewrite bind_cons, IH, filter_cons.
  assert (E : (b ← filter (P a) bs; [a]) = if decide (Exists (P a) bs) then [a] else []);
    [|rewrite E; by case_decide].
  clear IH. case_decide as Hex.
  - apply Exists_exists in Hex as (b & Hb & Hab).
    apply list_elem_of_split in Hb as (b1 & b2 & ->).
    rewrite fmap_app, fmap_cons in Hd. apply NoDup_app in Hd as (_ & Hd1 & Hd2).
    apply NoDup_cons in Hd2 as [Hd2 _].
    rewrite filter_app, filter_cons_True by done.
    rewrite (filter_drop_all _ b1), (filter_drop_all _ b2); [done|..]; intros x Hx Hax.
    + apply Hd2. replace (key b) with (key x); [by apply list_elem_of_fmap_2|].
      by rewrite (HP a x), (HP a b).
    + apply (Hd1 (key x)); [by apply list_elem_of_fmap_2|].
      rewrite (HP a x), <- (HP a b) by done. by apply list_elem_of_here.
  - rewrite filter_drop_all; [done|]. intros x Hx Hax. apply Hex, Exists_exists. by exists x.
Qed.

Lemma mapErr_fmap {A B C} (f : B → result C) (g : A → B) (l : list A) :
  mapErr f (g <$> l) = mapErr (λ a, f (g a)) l.
Proof. induction l as [|a l IH]; [done|]. rewrite fmap_cons. cbn [mapErr]. by rewrite IH. Qed.

Lemma mapErr_ext {A B} (f g : A → result B) l :
  (∀ a, a ∈ l → f a = g a) → mapErr f l = mapErr g l.
Proof.
  induction l as [|a l IH]; intros Hfg; [done|]. simpl. rewrite Hfg by left.
  rewrite IH; [done|]. intros b Hb. apply Hfg. by right.
Qed.

(** The batch on any log whose entries have an id of their own. *)
Lemma inbox_logs_batch {IdentityUpdate} (unmarshal : bytes → result IdentityUpdate) d
    (qs : list (bytes * Z)) :
  NoDup (l_SequenceID <$> inbox_log d) → NoDup qs.*1 →
  GetInboxLogs unmarshal None
    ((λ q, mkGetIdentityUpdatesRequest_Request (encodeHex q.1) q.2) <$> qs) d
  = mapErr (λ q,
      updates ← mapErr (toUpdateLog unmarshal)
        (inboxLogsRow <$> above l_SequenceID (i64 q.2) (inbox_rows q.1 d));
      Ok (mkGetIdentityUpdatesResponse_Response (encodeHex q.1) updates)) qs.
Proof.
  intros Hids Hqs.
  unfold GetInboxLogs, GetInboxLogFiltered. simpl. rewrite !mapErr_fmap. simpl.
  rewrite (mapErr_total _ (λ q, (q.1, i64 q.2))) by (intros; by rewrite decoded_encode). simpl.
  rewrite mapErr_fmap. apply mapErr_ext. intros [b s] Hq. simpl.
  rewrite groupByInbox_lookup.
  rewrite (join_unique _ fst (inbox_log d) (λ a b, b.1 = l_InboxID a ∧ b.2 < l_SequenceID a)
    l_InboxID); [|by rewrite <- list_fmap_compose|tauto].
  rewrite (fmap_filter_comm _ _ (λ r, l_InboxID r = b)).
  2:{ intros r. simpl. split; [apply encodeHex_inj|by intros ->]. }
  rewrite order_filter by done. unfold inbox_rows, above. rewrite order_filter by done.
  rewrite !list_filter_filter. do 2 f_equal. do 2 f_equal. apply list_filter_iff. intros r.
  rewrite Exists_fmap, Exists_exists. simpl. split.
  - intros [<- ([b' s'] & Hq' & E & ?)]. simpl in *. subst b'. split; [|done].
    assert ((l_InboxID r, s) = (l_InboxID r, s')) as [= ->]; [|done].
    by apply (NoDup_fmap_fst_inj fst qs).
  - intros [? <-]. split; [done|]. by exists (l_InboxID r, s).
Qed.

(** The updates of every requested inbox: for a batch that names each inbox once, by its
    canonical hexadecimal id, position [i] of the answer holds the log entries of the [i]-th
    inbox above its cursor, all of them, in sequence order; the batch fails only where an entry
    does not decode. *)
Theorem inbox_logs_complete {IdentityUpdate} (unmarshal : bytes → result IdentityUpdate) d
    (qs : list (bytes * Z)) :
  wf_db d → NoDup qs.*1 →
  GetInboxLogs unmarshal None
    ((λ q, mkGetIdentityUpdatesRequest_Request (encodeHex q.1) q.2) <$> qs) d
  = mapErr (λ q,
      updates ← mapErr (toUpdateLog unmarshal)
        (inboxLogsRow <$> above l_SequenceID (i64 q.2) (inbox_rows q.1 d));
      Ok (mkGetIdentityUpdatesResponse_Response (encodeHex q.1) updates)) qs.
Proof. intros Hd. apply inbox_logs_batch. by destruct (wf_inbox_ids d Hd) as (Hids & _). Qed.

(** * Concrete inputs *)

(** Two groups (three messages in one, inserted out of id order, one in the other), two welcomes
    of which one has an unknown type, an inbox with two entries whose address was associated
    twice, and a commit log of two entries. *)
Definition sampleDb : Db := {|
  group_messages :=
    [mkGroupMessageRow 1 1000 "g" "x" "h1" (Some false) "" (Some true);
     mkGroupMessageRow 4 1000 "g" "z" "h4" (Some false) "" None;
     mkGroupMessageRow 2 2000 "h" "x" "h2" None "" None;
     mkGroupMessageRow 3 3000 "g" "y" "h3" (Some true) "" (Some true)];
  group_messages_seq := 4;
  welcome_messages :=
    [mkWelcomeMessageRow 1 1000 "k" "w" "p" "h1" 0 "" 7;
     mkWelcomeMessageRow 2 2000 "k" "v" "p" "h2" 1 "" 1];
  welcome_messages_seq := 3;
  inbox_log := [mkInboxLogRow 1 "ab" 10 "u1"; mkInboxLogRow 2 "cd" 20 "u2";
                mkInboxLogRow 3 "ab" 30 "u3"];
  inbox_log_seq := 3;
  address_log := [mkAddressLogRow "0x1" "ab" (Some 1) (Some 3);
                  mkAddressLogRow "0x1" "cd" (Some 2) None];
  installations := [mkInstallationRow "k" 1000 1000 "kp" (Some true)];
  key_packages := [];
  key_packages_seq := 0;
  commit_log_v2 := [mkCommitLogRow 1 1000 "g" "e1" "s"; mkCommitLogRow 2 1000 "g" "e2" "s"];
  commit_log_v2_seq := 2;
  inboxes := ∅;
|}.

Lemma keyed_intro {R} (id : R → Z) seq (t : list R) :
  bool_decide (NoDup (id <$> t) ∧ Forall (λ r, 0 < id r ∧ id r ≤ seq) t
               ∧ 0 ≤ seq ∧ seq ≤ maxInt64) = true → keyed id seq t.
Proof.
  intros (H1 & H2 & H3)%bool_decide_eq_true. rewrite Forall_forall in H2.
  split; [done|]. split; [|done]. intros r Hr. specialize (H2 r Hr). lia.
Qed.

Lemma sampleDb_wf : wf_db sampleDb.
Proof.
  split; try (apply keyed_intro; by vm_compute);
    apply (bool_decide_unpack _); by vm_compute.
Qed.

Lemma query_pages_complete_witness :
  drain 4 (groupPage "g" sampleDb) (mkPagingInfo SORT_DIRECTION_ASCENDING 2 0)
    = Some (toGroupMessage <$> group_rows "g" sampleDb) ∧
  length (group_rows "g" sampleDb) = 3%nat ∧
  drain 3 (welcomePage "k" sampleDb) (mkPagingInfo SORT_DIRECTION_UNSPECIFIED 1 3)
    = Some (omap toWelcomeMessage (window w_ID true 3 (welcome_rows "k" sampleDb))).
Proof.
  split_and!; [|by vm_compute|].
  - apply (query_pages_complete sampleDb "g" SORT_DIRECTION_ASCENDING 2 0 4 sampleDb_wf);
      [done|unfold maxInt64; lia|by vm_compute; lia].
  - apply (query_pages_complete sampleDb "k" SORT_DIRECTION_UNSPECIFIED 1 3 3 sampleDb_wf);
      [done|unfold maxInt64; lia|by vm_compute; lia].
Defined.

Lemma newest_per_group_witness :
  ReadStore_GetNewestGroupMessage None ["h"; "none"; "g"] sampleDb
    = Ok [Some (mkGroupMessageRow 2 2000 "h" "x" "h2" None "" None); None;
          Some (mkGroupMessageRow 4 1000 "g" "z" "h4" (Some false) "" None)].
Proof.
  exact (proj1 (newest_per_group ["h"; "none"; "g"] sampleDb sampleDb_wf)).
Defined.

Lemma oversized_cursor_witness :
  QueryGroupMessagesWaveScan None [mkGroupCatchup "g" (2 ^ 63)] 0 4 10 sampleDb = Ok [] ∧
  (length ∘ rg_Messages <$> match QueryGroupMessagesV1 None (mkQueryGroupMessagesRequest "g"
     (Some (mkPagingInfo SORT_DIRECTION_ASCENDING 10 (2 ^ 63)))) sampleDb with
     Ok r => Some r | Err _ => None end) = Some 3%nat.
Proof.
  destruct (oversized_cursor sampleDb "g" SORT_DIRECTION_ASCENDING 10 (2 ^ 63) 0 4 10
    sampleDb_wf ltac:(lia)) as [H ->].
  split; [exact H|by vm_compute].
Defined.

Lemma commit_log_pages_complete_witness :
  drain 3 (commitPage Ok "g" sampleDb) (mkPagingInfo SORT_DIRECTION_UNSPECIFIED 1 0)
    = Some [mkCommitLogEntry 1 "e1" "s"; mkCommitLogEntry 2 "e2" "s"].
Proof.
  apply (commit_log_pages_complete Ok (λ s, s) sampleDb "g" SORT_DIRECTION_UNSPECIFIED 1 0 3
    sampleDb_wf); [done..|unfold maxInt64; lia|done|vm_compute; lia].
Defined.

Lemma inbox_id_of_newest_association_witness :
  ∃ resps, GetInboxIds None ["0x1"; "0x2"] sampleDb = Ok resps ∧
    (∃ resp, resp ∈ resps ∧ ri_InboxId resp = Some "6364").
Proof.
  destruct (inbox_id_of_newest_association sampleDb ["0x1"; "0x2"]) as (resps & E & Hid & H).
  { apply (bool_decide_unpack _). by vm_compute. }
  exists resps. split; [exact E|].
  exists (mkGetInboxIdsResponse_Response "0x1" (Some "6364")).
  vm_compute in E. injection E as <-. split; [left|done].
Defined.

Lemma inbox_logs_complete_witness :
  GetInboxLogs Ok None [mkGetIdentityUpdatesRequest_Request "6162" 1;
                        mkGetIdentityUpdatesRequest_Request "6364" 0] sampleDb
    = Ok [mkGetIdentityUpdatesResponse_Response "6162" [mkIdentityUpdateLog 3 30 "u3"];
          mkGetIdentityUpdatesResponse_Response "6364" [mkIdentityUpdateLog 2 20 "u2"]].
Proof.
  apply (inbox_logs_complete Ok sampleDb [("ab", 1); ("cd", 0)] sampleDb_wf).
  apply (bool_decide_unpack _). by vm_compute.
Defined.
