(* ===== verification/Rotation.v ===== *)
(** The rotating scan, in the abstract: what a catch-up scan computes on rows, independent of the
    lane (groups or welcomes) and of how a lane encodes its queue and its progress. A queue of
    keys with cursors is served in batches of [B]; a turn takes up to [L] rows above each
    cursor; a key that filled its limit goes to the back of the queue. *)

From S2P Require Import Prelude MlsDb.

(** What a table promises to the scan: for each topic its rows, in ascending order, told apart
    from the rows of every other topic by their key and their id. *)
Class Topics {R} (key : R → bytes) (id : R → Z) (T : bytes → list R) : Prop := {
  topics_ascending : ∀ k, ascending id (T k);
  topics_key : ∀ k r, r ∈ T k → key r = k;
  topics_inj : ∀ k1 k2 r1 r2, r1 ∈ T k1 → r2 ∈ T k2 → id r1 = id r2 → r1 = r2;
}.

Section Rotation.
Context {R : Type} (key : R → bytes) (id : R → Z) (T : bytes → list R) (B L : nat).

Definition fetch (f : bytes * Z) : list R := take L (above id f.2 (T f.1)).

Definition turn (batch : list (bytes * Z)) : list R := order_by_asc id (batch ≫= fetch).

Definition rotate (f : bytes * Z) : option (bytes * Z) :=
  if decide (length (fetch f) < L)%nat then None
  else Some (f.1, default f.2 (id <$> last (fetch f))).

Definition requeue (queue : list (bytes * Z)) : list (bytes * Z) :=
  drop B queue ++ omap rotate (take B queue).

Fixpoint rotation (fuel : nat) (queue : list (bytes * Z)) : option (list (list R)) :=
  match queue, fuel with
  | [], _ => Some []
  | _, O => None
  | _, S fuel => cons (turn (take B queue)) <$> rotation fuel (requeue queue)
  end.

(** The work a queue stands for: one turn per key, and one per row it can still return. *)
Definition work (queue : list (bytes * Z)) : nat :=
  sum_list_with (λ f, S (length (above id f.2 (T f.1)))) queue.

Hypothesis HB : (1 ≤ B)%nat.
Hypothesis HL : (1 ≤ L)%nat.
Context {Htopics : Topics key id T}.

Lemma fetch_elem f r : r ∈ fetch f → f.2 < id r ∧ r ∈ T f.1 ∧ key r = f.1.
Proof.
  intros (i & Hr%list_elem_of_lookup_2 & _)%elem_of_take.
  apply elem_of_above in Hr as [? Hr]. eauto using topics_key.
Qed.

Lemma fetch_ascending f : ascending id (fetch f).
Proof. apply ascending_take, above_ascending, topics_ascending. Qed.

Lemma turn_elem batch r : r ∈ turn batch ↔ ∃ f, f ∈ batch ∧ r ∈ fetch f.
Proof.
  unfold turn. rewrite order_by_asc_Permutation, list_elem_of_bind. naive_solver.
Qed.

Lemma turn_ids batch : NoDup batch.*1 → NoDup (id <$> (batch ≫= fetch)).
Proof.
  induction batch as [|f batch IH]; [constructor|]. rewrite fmap_cons, NoDup_cons.
  intros [Hf Hb]. rewrite bind_cons, fmap_app. apply NoDup_app. split_and!; [| |by apply IH].
  - assert (Ha := fetch_ascending f). clear -Ha.
    induction (fetch f) as [|r l IH]; [constructor|]. apply ascending_cons in Ha as [Hr Ha].
    rewrite fmap_cons. constructor; [|auto].
    intros (x & E & Hx)%list_elem_of_fmap. specialize (Hr x Hx). lia.
  - intros z (r1 & -> & H1)%list_elem_of_fmap (r2 & E & H2)%list_elem_of_fmap.
    apply list_elem_of_bind in H2 as (g & H2 & Hg).
    apply fetch_elem in H1 as (_ & H1 & K1). apply fetch_elem in H2 as (_ & H2 & K2).
    assert (r1 = r2) as -> by (by eapply topics_inj). apply Hf. rewrite <- K1, K2.
    by apply list_elem_of_fmap_2.
Qed.

Lemma turn_ascending batch : NoDup batch.*1 → ascending id (turn batch).
Proof. intros. by apply order_by_asc_ascending, turn_ids. Qed.

(** What a turn returns for one key. *)
Lemma turn_key batch k c :
  NoDup batch.*1 → (k, c) ∈ batch → filter (λ r, key r = k) (turn batch) = fetch (k, c).
Proof.
  intros Hd Hk. unfold turn. rewrite <- order_filter by (by apply turn_ids).
  assert (E : filter (λ r, key r = k) (batch ≫= fetch) = fetch (k, c));
    [|rewrite E; apply order_by_asc_id, fetch_ascending].
  apply list_elem_of_split in Hk as (b1 & b2 & ->).
  rewrite fmap_app, fmap_cons in Hd. apply NoDup_app in Hd as (_ & Hd1 & Hd2).
  apply NoDup_cons in Hd2 as [Hd2 _]. simpl in *.
  rewrite bind_app, bind_cons, !filter_app.
  rewrite (filter_keep _ (fetch (k, c))) by (by intros r (_ & _ & ?)%fetch_elem).
  rewrite (filter_drop_all _ (b1 ≫= fetch)), (filter_drop_all _ (b2 ≫= fetch)).
  - by rewrite app_nil_r.
  - intros r (f & Hr & Hf)%list_elem_of_bind E. apply fetch_elem in Hr as (_ & _ & Kr).
    apply Hd2. rewrite <- E, Kr. by apply list_elem_of_fmap_2.
  - intros r (f & Hr & Hf)%list_elem_of_bind E. apply fetch_elem in Hr as (_ & _ & Kr).
    apply (Hd1 f.1); [by apply list_elem_of_fmap_2|]. rewrite <- Kr, E. by left.
Qed.

Lemma turn_other batch k : k ∉ batch.*1 → filter (λ r, key r = k) (turn batch) = [].
Proof.
  intros Hk. apply filter_drop_all. intros r (f & Hf & Hr)%turn_elem E.
  apply fetch_elem in Hr as (_ & _ & Kr). apply Hk. rewrite <- E, Kr.
  by apply list_elem_of_fmap_2.
Qed.

Lemma turn_length batch :
  (length (turn batch) ≤ length batch * L)%nat.
Proof.
  unfold turn. rewrite order_by_asc_Permutation. induction batch as [|f batch IH]; [simpl; lia|].
  rewrite bind_cons, length_app. unfold fetch at 1. rewrite length_take. simpl. lia.
Qed.

(** ** Rotating *)

Lemma rotate_key f f' : rotate f = Some f' → f'.1 = f.1.
Proof. unfold rotate. case_decide; [done|]. by intros [= <-]. Qed.

Lemma omap_rotate_keys batch k : k ∈ (omap rotate batch).*1 → k ∈ batch.*1.
Proof.
  intros (f' & -> & Hf')%list_elem_of_fmap. apply list_elem_of_omap in Hf' as (f & Hf & E).
  rewrite (rotate_key _ _ E). by apply list_elem_of_fmap_2.
Qed.

Lemma omap_rotate_NoDup batch : NoDup batch.*1 → NoDup (omap rotate batch).*1.
Proof.
  induction batch as [|f batch IH]; [done|]. rewrite fmap_cons, NoDup_cons. intros [Hf Hb].
  simpl. destruct (rotate f) as [f'|] eqn:E; [|auto]. rewrite fmap_cons. constructor; [|auto].
  rewrite (rotate_key _ _ E). by intros ?%omap_rotate_keys.
Qed.

Lemma requeue_NoDup queue : NoDup queue.*1 → NoDup (requeue queue).*1.
Proof.
  intros Hd. unfold requeue. rewrite <- (take_drop B queue), fmap_app in Hd.
  apply NoDup_app in Hd as (H1 & H12 & H2). rewrite fmap_app. apply NoDup_app.
  split_and!; [done| |by apply omap_rotate_NoDup].
  intros k Hk Hk'%omap_rotate_keys. by apply (H12 k).
Qed.

(** A key that stays in the queue has been advanced past the rows of its turn, one that retires
    has returned all it had. *)
Lemma rotate_Some f f' :
  rotate f = Some f' → f'.1 = f.1 ∧ f.2 < f'.2 ∧ length (fetch f) = L ∧
  fetch f ++ above id f'.2 (T f'.1) = above id f.2 (T f.1).
Proof.
  unfold rotate. case_decide as Hlen; [done|]. intros [= <-]. simpl.
  assert (Hl : length (fetch f) = L).
  { unfold fetch in *. rewrite length_take in *. lia. }
  destruct (last (fetch f)) as [r|] eqn:E; simpl.
  - split_and!; [done| |done|].
    + by apply last_Some_elem_of, fetch_elem in E as (? & _).
    + rewrite (page_next id _ f.2 L r); [apply take_drop|apply topics_ascending|exact E].
  - apply last_None in E. rewrite E in Hl. simpl in Hl. lia.
Qed.

Lemma rotate_None f : rotate f = None → fetch f = above id f.2 (T f.1).
Proof.
  unfold rotate, fetch. case_decide as Hlen; [|done]. intros _. rewrite length_take in Hlen.
  apply take_ge. lia.
Qed.

Lemma rotate_work f :
  let w f := S (length (above id f.2 (T f.1))) in
  (match rotate f with Some f' => w f' | None => 0 end < w f)%nat.
Proof.
  simpl. destruct (rotate f) as [f'|] eqn:E; [|lia].
  apply rotate_Some in E as (_ & _ & Hl & E). rewrite <- E, length_app. lia.
Qed.

Lemma requeue_work queue : queue ≠ [] → (work (requeue queue) < work queue)%nat.
Proof.
  intros Hq. unfold work, requeue. rewrite <- (take_drop B queue) at 3.
  rewrite !sum_list_with_app. pose proof rotate_work as Hw. revert Hw.
  generalize (λ f : bytes * Z, S (length (above id f.2 (T f.1)))). intros w Hw.
  assert (Hle : ∀ l, (sum_list_with w (omap rotate l) + length l ≤ sum_list_with w l)%nat).
  { induction l as [|f l IH]; [simpl; lia|]. specialize (Hw f). simpl in *.
    destruct (rotate f) as [f'|]; simpl; fold (omap rotate l); lia. }
  specialize (Hle (take B queue)). rewrite length_take in Hle.
  destruct queue; [done|]. simpl length in Hle. lia.
Qed.

(** ** What a rotation does *)

Lemma rotation_terminates fuel queue : (work queue ≤ fuel)%nat → is_Some (rotation fuel queue).
Proof.
  revert queue. induction fuel as [|fuel IH]; intros queue Hf.
  - destruct queue as [|f queue]; [done|]. unfold work in Hf. simpl in Hf. lia.
  - destruct queue as [|f queue]; [done|]. cbn [rotation].
    destruct (IH (requeue (f :: queue))) as [turns E]; [|by rewrite E].
    pose proof (requeue_work (f :: queue) ltac:(done)). lia.
Qed.

Lemma rotation_elem fuel queue turns rows r :
  rotation fuel queue = Some turns → rows ∈ turns → r ∈ rows → key r ∈ queue.*1.
Proof.
  revert queue turns. induction fuel as [|fuel IH]; intros queue turns E Hrows Hr;
    (destruct queue as [|f queue]; [injection E as <-; by apply elem_of_nil in Hrows|]); [done|].
  cbn [rotation] in E. destruct (rotation fuel _) as [turns'|] eqn:E'; [|done].
  injection E as <-. apply elem_of_cons in Hrows as [->|Hrows].
  - apply turn_elem in Hr as (g & Hg & Hr). apply fetch_elem in Hr as (_ & _ & ->).
    apply elem_of_take in Hg as (i & Hg%list_elem_of_lookup_2 & _).
    by apply list_elem_of_fmap_2.
  - specialize (IH _ _ E' Hrows Hr). unfold requeue in IH.
    rewrite fmap_app, elem_of_app in IH. rewrite <- (take_drop B (f :: queue)), fmap_app.
    apply elem_of_app. destruct IH as [IH|IH%omap_rotate_keys]; [by right|by left].
Qed.

Lemma rotation_src fuel queue turns rows r :
  rotation fuel queue = Some turns → rows ∈ turns → r ∈ rows → ∃ k, r ∈ T k.
Proof.
  revert queue turns. induction fuel as [|fuel IH]; intros queue turns E Hrows Hr;
    (destruct queue as [|f queue]; [injection E as <-; by apply elem_of_nil in Hrows|]); [done|].
  cbn [rotation] in E. destruct (rotation fuel _) as [turns'|] eqn:E'; [|done].
  injection E as <-. apply elem_of_cons in Hrows as [->|Hrows]; [|by eapply IH].
  apply turn_elem in Hr as (g & _ & Hr). apply fetch_elem in Hr as (_ & Hr & _). eauto.
Qed.

Lemma rotation_turns fuel queue turns :
  NoDup queue.*1 → rotation fuel queue = Some turns →
  Forall (λ rows, ascending id rows ∧ (length rows ≤ B * L)%nat) turns.
Proof.
  revert queue turns. induction fuel as [|fuel IH]; intros queue turns Hd E;
    (destruct queue as [|f queue]; [by injection E as <-|]); [done|].
  cbn [rotation] in E. set (q := f :: queue) in *.
  destruct (rotation fuel _) as [turns'|] eqn:E'; [|done]. injection E as <-.
  constructor; [|by eapply IH, E'; apply requeue_NoDup]. split.
  - apply turn_ascending. rewrite <- (take_drop B q), fmap_app in Hd.
    by apply NoDup_app in Hd as [? _].
  - etrans; [apply turn_length|]. apply Nat.mul_le_mono_r. rewrite length_take. lia.
Qed.

Theorem rotation_complete fuel queue turns k c :
  NoDup queue.*1 → rotation fuel queue = Some turns → (k, c) ∈ queue →
  filter (λ r, key r = k) (mjoin turns) = above id c (T k).
Proof.
  revert queue turns c. induction fuel as [|fuel IH]; intros queue turns c Hd E Hk;
    (destruct queue as [|f queue]; [by apply elem_of_nil in Hk|]); [done|].
  cbn [rotation] in E. set (q := f :: queue) in *.
  destruct (rotation fuel _) as [turns'|] eqn:E'; [|done]. injection E as <-.
  simpl. rewrite filter_app. assert (Hd' := requeue_NoDup q Hd).
  rewrite <- (take_drop B q) in Hk, Hd. rewrite fmap_app in Hd.
  apply NoDup_app in Hd as (H1 & H12 & _). apply elem_of_app in Hk as [Hk|Hk].
  - rewrite (turn_key _ k c) by done.
    destruct (rotate (k, c)) as [[k' c']|] eqn:Er.
    + pose proof (rotate_Some _ _ Er) as (Ek & _ & _ & Hs). simpl in *. subst k'.
      rewrite (IH _ _ c' Hd' E'); [done|]. unfold requeue. apply elem_of_app. right.
      apply list_elem_of_omap. by exists (k, c).
    + rewrite (rotate_None _ Er). simpl. rewrite (filter_drop_all _ (mjoin turns')).
      { by rewrite app_nil_r. }
      intros r (rows & Hr & Hrows)%list_elem_of_join Ekr.
      pose proof (rotation_elem _ _ _ _ _ E' Hrows Hr) as Hin. rewrite Ekr in Hin.
      unfold requeue in Hin. rewrite fmap_app, elem_of_app in Hin. destruct Hin as [Hin|Hin].
      * apply (H12 k); [|done]. apply list_elem_of_fmap. by exists (k, c).
      * apply list_elem_of_fmap in Hin as ([k' c'] & -> & Hin).
        apply list_elem_of_omap in Hin as ([k2 c2] & Hin & Er2).
        pose proof (rotate_key _ _ Er2) as Ek2. simpl in Ek2.
        assert (Ep : (k2, c2) = (k', c)); [|rewrite Ep in Er2; simpl in Er; congruence].
        apply (NoDup_fmap_fst_inj fst (take B q)); [done..|by rewrite Ek2].
  - rewrite turn_other.
    + simpl. apply (IH _ _ c Hd' E'). unfold requeue. apply elem_of_app. by left.
    + intros Hin. apply (H12 k); [done|]. apply list_elem_of_fmap. by exists (k, c).
Qed.
End Rotation.
