(* ===== verification/CatchUp.v ===== *)
(** The catch-up scans of the Subscribe stream (catchUpGroups and catchUpWelcomes in
    pkg/mls/api/v1/subscribe.go): a wave's topics are replayed in rotating batches of bounded
    per-topic probes, up to a ceiling pinned when the scan starts. *)

From S2P Require Import Prelude Topic Types MlsDb ReadStore Rotation Frames Writer.

(** * What a scan meets

    [snapshot k] is the database its [k]-th query sees (0 and 1 are the ceiling snapshots, [2+k]
    the probe of turn [k]); the stream may die at a turn's check, while parked for a slot, or
    while parked for the byte budget. *)
Record scanEnv := mkScanEnv {
  snapshot : nat → Db;
  queryErr : nat → option error;
  slotGranted : bool;
  streamAlive : nat → bool;
  bytesGranted : nat → bool;
}.

(** A failed query is reported to the writer, unless the stream's own cancellation failed it. *)
Definition errBatch (e : error) : list catchUpBatch :=
  if bool_decide (e = ContextCanceled) then [] else [mkBatch [] [] 0 0 false (Some e)].

Definition doneMarker (wave : nat) : catchUpBatch := mkBatch [] [] wave 0 true None.

Definition atLeast1 (n : Z) : Z := if bool_decide (n < 1) then 1 else n.

(** * Groups *)

Definition groupTally (msgs : list GroupMessage) : gmap string WaveScanTopicProgress :=
  foldl (λ p m, note (groupGroupId m) (groupID m) p) ∅ msgs.

Definition groupBytes (msgs : list GroupMessage) : Z :=
  foldl (λ n m, n + len (groupData m)) 0 msgs.

(** What becomes of a topic after its turn: it rotates to the back, advanced, or retires. *)
Definition rotateGroup (limit : Z) (tally : gmap string WaveScanTopicProgress) (b : GroupCatchup)
    : option GroupCatchup :=
  let p := default (mkProgress 0 0) (tally !! gc_GroupID b) in
  if bool_decide (RawCount p < limit) then None
  else if bool_decide (gc_IdCursor b < LastRawID p)
       then Some (mkGroupCatchup (gc_GroupID b) (LastRawID p))
       else Some b.

(** The turns of a scan, with what they forward; [None] is a scan still turning when its fuel
    runs out. *)
Fixpoint groupTurns (env : scanEnv) (batchTopics limit ceiling : Z) (wave : nat) (fuel k : nat)
    (queue : list GroupCatchup) : option (list catchUpBatch) :=
  match queue, fuel with
  | [], _ => Some [doneMarker wave]
  | _, O => None
  | _, S fuel =>
      if negb (streamAlive env k) then Some []
      else
        let batch := take (Z.to_nat batchTopics) queue in
        let rest := drop (Z.to_nat batchTopics) queue in
        match QueryGroupMessagesWaveScan (queryErr env (2 + k)) batch 0 (u64 ceiling) limit
                (snapshot env (2 + k)) with
        | Err e => Some (errBatch e)
        | Ok msgs =>
            let queue := rest ++ omap (rotateGroup limit (groupTally msgs)) batch in
            let next := groupTurns env batchTopics limit ceiling wave fuel (S k) queue in
            match msgs with
            | [] => next
            | _ => if bytesGranted env k
                   then cons (mkBatch msgs [] wave (groupBytes msgs) false None) <$> next
                   else Some []
            end
        end
  end.

(** The ceiling of a scan with rows to replay, refreshed under its slot. *)
Definition refreshCeiling (ceiling : Z) (again : result Z) : Z :=
  match again with
  | Ok c => if bool_decide (ceiling < c) then c else ceiling
  | Err _ => ceiling
  end.

Definition catchUpGroups (t : tunables) (env : scanEnv) (fuel : nat) (adds : list GroupCatchup)
    (wave : nat) : option (list catchUpBatch) :=
  match call (queryErr env 0) (GetLatestGroupMessageID (snapshot env 0)) with
  | Err e => Some (errBatch e)
  | Ok ceiling =>
      let queue := filter (λ a, gc_IdCursor a < u64 ceiling) adds in
      let turns ceiling := groupTurns env (atLeast1 (scanBatchTopics t))
                             (atLeast1 (scanTopicPageLimit t)) ceiling wave fuel 0 queue in
      match queue with
      | [] => turns ceiling
      | _ =>
          if slotGranted env
          then turns (refreshCeiling ceiling
                 (call (queryErr env 1) (GetLatestGroupMessageID (snapshot env 1))))
          else Some []
      end
  end.

(** * Welcomes *)

Definition welcomeBytes (msgs : list WelcomeMessage) : Z :=
  foldl (λ n m, n + len (welcomeData m)) 0 msgs.

Definition rotateWelcome (limit : Z) (progress : gmap string WaveScanTopicProgress)
    (b : WelcomeCatchup) : option WelcomeCatchup :=
  let p := default (mkProgress 0 0) (progress !! wc_InstallationKey b) in
  if bool_decide (RawCount p < limit) then None
  else if bool_decide (wc_IdCursor b < LastRawID p)
       then Some (mkWelcomeCatchup (wc_InstallationKey b) (LastRawID p))
       else Some b.

Fixpoint welcomeTurns (env : scanEnv) (batchTopics limit ceiling : Z) (wave : nat) (fuel k : nat)
    (queue : list WelcomeCatchup) : option (list catchUpBatch) :=
  match queue, fuel with
  | [], _ => Some [doneMarker wave]
  | _, O => None
  | _, S fuel =>
      if negb (streamAlive env k) then Some []
      else
        let batch := take (Z.to_nat batchTopics) queue in
        let rest := drop (Z.to_nat batchTopics) queue in
        match QueryWelcomeMessagesWaveScan (queryErr env (2 + k)) batch 0 (u64 ceiling) limit
                (snapshot env (2 + k)) with
        | Err e => Some (errBatch e)
        | Ok (msgs, progress) =>
            let queue := rest ++ omap (rotateWelcome limit progress) batch in
            let next := welcomeTurns env batchTopics limit ceiling wave fuel (S k) queue in
            match msgs with
            | [] => next
            | _ => if bytesGranted env k
                   then cons (mkBatch [] msgs wave (welcomeBytes msgs) false None) <$> next
                   else Some []
            end
        end
  end.

Definition catchUpWelcomes (t : tunables) (env : scanEnv) (fuel : nat)
    (adds : list WelcomeCatchup) (wave : nat) : option (list catchUpBatch) :=
  match call (queryErr env 0) (GetLatestWelcomeMessageID (snapshot env 0)) with
  | Err e => Some (errBatch e)
  | Ok ceiling =>
      let queue := filter (λ a, wc_IdCursor a < u64 ceiling) adds in
      let turns ceiling := welcomeTurns env (atLeast1 (scanBatchTopics t))
                             (atLeast1 (scanTopicPageLimit t)) ceiling wave fuel 0 queue in
      match queue with
      | [] => turns ceiling
      | _ =>
          if slotGranted env
          then turns (refreshCeiling ceiling
                 (call (queryErr env 1) (GetLatestWelcomeMessageID (snapshot env 1))))
          else Some []
      end
  end.

(** * Both lanes are the same rotation

    [laneTurns] is the turn loop with the lane's own parts (its probe, its requeuing, the batch
    it packs a turn's rows in) as parameters. *)

Section Lane.
Context {Add Row : Type} (alive granted : nat → bool) (wave : nat) (B : nat).
Context (scan : nat → list Add → result (list Row)) (rotateAdd : list Row → Add → option Add).
Context (pack : list Row → option catchUpBatch).

Fixpoint laneTurns (fuel k : nat) (queue : list Add) : option (list catchUpBatch) :=
  match queue, fuel with
  | [], _ => Some [doneMarker wave]
  | _, O => None
  | _, S fuel =>
      if negb (alive k) then Some []
      else
        match scan k (take B queue) with
        | Err e => Some (errBatch e)
        | Ok rows =>
            let next := laneTurns fuel (S k)
                          (drop B queue ++ omap (rotateAdd rows) (take B queue)) in
            match pack rows with
            | None => next
            | Some b => if granted k then cons b <$> next else Some []
            end
        end
  end.

Context (key : Row → bytes) (id : Row → Z) (T : bytes → list Row) (L : nat).
Context (pair : Add → bytes * Z) (ok : Add → Prop).
Hypothesis Hscan : ∀ k batch, Forall ok batch → NoDup (pair <$> batch).*1 → batch ≠ [] →
  scan k batch = Ok (turn id T L (pair <$> batch)) ∨ ∃ e, scan k batch = Err e.
Hypothesis Hrotate : ∀ batch b, Forall ok batch → NoDup (pair <$> batch).*1 → b ∈ batch →
  pair <$> rotateAdd (turn id T L (pair <$> batch)) b = rotate id T L (pair b) ∧
  ∀ b', rotateAdd (turn id T L (pair <$> batch)) b = Some b' → ok b'.
Hypothesis Hpack : ∀ rows b, pack rows = Some b → cb_done b = false.
Hypothesis HB : (1 ≤ B)%nat.

Lemma lane_requeue queue :
  Forall ok queue → NoDup (pair <$> queue).*1 →
  let rows := turn id T L (pair <$> take B queue) in
  let queue' := drop B queue ++ omap (rotateAdd rows) (take B queue) in
  Forall ok queue' ∧ pair <$> queue' = requeue id T B L (pair <$> queue).
Proof.
  intros Hok Hd rows queue'. unfold queue', requeue.
  rewrite fmap_app, fmap_drop, <- fmap_take.
  assert (Hokt : Forall ok (take B queue)) by (by apply Forall_take).
  assert (Hdt : NoDup (pair <$> take B queue).*1).
  { rewrite <- (take_drop B queue) in Hd. rewrite !fmap_app in Hd. by apply NoDup_app in Hd as [? _]. }
  assert (Hr := λ b, Hrotate (take B queue) b Hokt Hdt). fold rows in Hr. clearbody rows.
  assert (E : Forall ok (omap (rotateAdd rows) (take B queue)) ∧
    pair <$> omap (rotateAdd rows) (take B queue)
      = omap (rotate id T L) (pair <$> take B queue)).
  { revert Hr. generalize (take B queue). clear. intros l Hr.
    induction l as [|b l IH]; [done|].
    destruct IH as [IH1 IH2]; [intros b' Hb'; exact (Hr b' ltac:(by right))|].
    destruct (Hr b ltac:(left)) as [E1 E2]. simpl. rewrite <- E1.
    destruct (rotateAdd rows b) as [b'|]; simpl; [|done].
    split; [constructor; auto|]. f_equal. exact IH2. }
  destruct E as [E1 ->]. split; [|done]. apply Forall_app. split; [by apply Forall_drop|done].
Qed.

(** What a lane hands to the writer: all of the rotation's turns and the done marker, or, when it
    is cut short, no done marker. *)
Lemma lane_rotation fuel k queue out :
  Forall ok queue → NoDup (pair <$> queue).*1 → laneTurns fuel k queue = Some out →
  (∃ turns, rotation id T B L fuel (pair <$> queue) = Some turns
            ∧ out = omap pack turns ++ [doneMarker wave])
  ∨ (∀ b, b ∈ out → cb_done b = false).
Proof.
  revert k queue out. induction fuel as [|fuel IH]; intros k queue out Hok Hd E.
  { destruct queue; [|done]. injection E as <-. left. by exists []. }
  destruct queue as [|q queue]; [injection E as <-; left; by exists []|].
  cbn [laneTurns] in E. set (qs := q :: queue) in *.
  destruct (alive k); simpl in E; [|injection E as <-; right; by intros b ?%elem_of_nil].
  assert (Hokt : Forall ok (take B qs)) by (by apply Forall_take).
  assert (Hdt : NoDup (pair <$> take B qs).*1).
  { rewrite <- (take_drop B qs) in Hd. rewrite !fmap_app in Hd. by apply NoDup_app in Hd as [? _]. }
  destruct (Hscan k (take B qs)) as [Es|[e Es]]; [done|done|by destruct B; [lia|]| |];
    rewrite Es in E; last first.
  { injection E as <-. right. unfold errBatch. case_bool_decide; [by intros b ?%elem_of_nil|].
    by intros b ->%list_elem_of_singleton. }
  destruct (lane_requeue qs Hok Hd) as [Hok' Hq].
  set (rows := turn id T L (pair <$> take B qs)) in *.
  set (queue' := drop B qs ++ omap (rotateAdd rows) (take B qs)) in *.
  assert (Hd' : NoDup (pair <$> queue').*1) by (rewrite Hq; by apply requeue_NoDup).
  cbn [rotation fmap list_fmap]. change (pair q :: list_fmap _ _ pair queue) with (pair <$> qs).
  destruct (laneTurns fuel (S k) queue') as [out'|] eqn:E'; last first.
  { destruct (pack rows); [|done]. destruct (granted k); [done|]. injection E as <-. right.
    by intros b ?%elem_of_nil. }
  destruct (IH _ _ _ Hok' Hd' E') as [(turns & Et & ->)|Hnd].
  - rewrite Hq in Et. rewrite Et, <- fmap_take. fold rows. simpl.
    destruct (pack rows) as [b|] eqn:Ep.
    + destruct (granted k); injection E as <-; [|right; by intros b' ?%elem_of_nil].
      left. exists (rows :: turns). split; [done|]. simpl. by rewrite Ep.
    + injection E as <-. left. exists (rows :: turns). split; [done|]. simpl. by rewrite Ep.
  - right. destruct (pack rows) as [b|] eqn:Ep; [|by injection E as <-].
    destruct (granted k); injection E as <-; [|by intros b' ?%elem_of_nil].
    intros b' [->|Hb']%elem_of_cons; eauto.
Qed.

(** Without failures a lane ends as soon as the rotation does. *)
Lemma lane_ends fuel k queue :
  Forall ok queue → NoDup (pair <$> queue).*1 →
  (∀ k, alive k = true) → (∀ k, granted k = true) → (∀ k b e, scan k b ≠ Err e) →
  is_Some (rotation id T B L fuel (pair <$> queue)) →
  ∃ out, laneTurns fuel k queue = Some out ∧ doneMarker wave ∈ out.
Proof.
  intros Hok Hd Ha Hg Hs. revert k queue Hok Hd.
  induction fuel as [|fuel IH]; intros k queue Hok Hd [turns E].
  { destruct queue; [|done]. exists [doneMarker wave]. split; [done|left]. }
  destruct queue as [|q queue]; [exists [doneMarker wave]; split; [done|left]|].
  cbn [laneTurns]. rewrite Ha. simpl negb. set (qs := q :: queue) in *.
  assert (Hokt : Forall ok (take B qs)) by (by apply Forall_take).
  assert (Hdt : NoDup (pair <$> take B qs).*1).
  { rewrite <- (take_drop B qs) in Hd. rewrite !fmap_app in Hd. by apply NoDup_app in Hd as [? _]. }
  destruct (Hscan k (take B qs)) as [Es|[e Es]]; [done|done|by destruct B; [lia|]| |];
    [|by apply Hs in Es]. rewrite Es.
  destruct (lane_requeue qs Hok Hd) as [Hok' Hq].
  set (rows := turn id T L (pair <$> take B qs)) in *.
  set (queue' := drop B qs ++ omap (rotateAdd rows) (take B qs)) in *.
  cbn [rotation fmap list_fmap] in E.
  change (pair q :: list_fmap _ _ pair queue) with (pair <$> qs) in E.
  destruct (rotation id T B L fuel (requeue id T B L (pair <$> qs))) as [turns'|] eqn:Et;
    [|done].
  destruct (IH (S k) queue' Hok') as (out & -> & Hout).
  { rewrite Hq. by apply requeue_NoDup. }
  { by rewrite Hq, Et. }
  rewrite Hg. destruct (pack rows); eexists; (split; [done|]); [by right|done].
Qed.
End Lane.

(** * From tables to rotations *)

Section Table.
Context {R : Type} (key : R → bytes) (id : R → Z).
Implicit Types S table : list R.

(** The rows of a topic up to the pinned ceiling, [S] being all rows up to it. *)
Definition topicRows S (k : bytes) : list R := order_by_asc id (filter (λ r, key r = k) S).

Lemma order_perm (l1 l2 : list R) :
  NoDup (id <$> l1) → l1 ≡ₚ l2 → order_by_asc id l1 = order_by_asc id l2.
Proof.
  intros Hd E. apply (ascending_unique id).
  - by apply order_by_asc_ascending.
  - apply order_by_asc_ascending. by rewrite <- E.
  - by rewrite !order_by_asc_Permutation.
Qed.

Lemma pinned_keyed seq table ceiling S :
  keyed id seq table → filter (λ r, id r ≤ ceiling) table ≡ₚ S →
  NoDup (id <$> S) ∧ ∀ r, r ∈ S → 0 < id r ≤ maxInt64.
Proof.
  intros Hk E. split.
  - rewrite <- E. apply fmap_filter_NoDup, Hk.
  - intros r. rewrite <- E. intros [_ Hr]%list_elem_of_filter. by eapply keyed_elem.
Qed.

Lemma probe_fetch seq table ceiling limit S f :
  keyed id seq table → filter (λ r, id r ≤ ceiling) table ≡ₚ S → 0 ≤ f.2 →
  LIMIT limit (order_by_asc id
    (filter (λ m, key m = f.1 ∧ Z.max f.2 0 < id m ∧ id m ≤ ceiling) table))
  = fetch id (topicRows S) (Z.to_nat limit) f.
Proof.
  intros Hk E Hf. destruct (pinned_keyed _ _ _ _ Hk E) as [Hd _].
  unfold fetch, LIMIT, topicRows, above. f_equal.
  rewrite <- order_filter by (by apply fmap_filter_NoDup).
  apply order_perm; [apply fmap_filter_NoDup, Hk|].
  rewrite list_filter_filter, <- E, list_filter_filter.
  rewrite (list_filter_iff _ (λ m, (f.2 < id m ∧ key m = f.1) ∧ id m ≤ ceiling)); [done|].
  intros m. rewrite Z.max_l by lia. tauto.
Qed.

Context (S : list R).
Hypothesis HS : NoDup (id <$> S).

Lemma topicRows_ascending k : ascending id (topicRows S k).
Proof. by apply order_by_asc_ascending, fmap_filter_NoDup. Qed.

Lemma topicRows_elem k r : r ∈ topicRows S k ↔ r ∈ S ∧ key r = k.
Proof.
  unfold topicRows. rewrite order_by_asc_Permutation, list_elem_of_filter. tauto.
Qed.

Lemma topicRows_topics : Topics key id (topicRows S).
Proof.
  split; [apply topicRows_ascending|by intros k r [_ ?]%topicRows_elem|].
  intros k1 k2 r1 r2 [H1 _]%topicRows_elem [H2 _]%topicRows_elem.
  by apply (NoDup_fmap_fst_inj id S).
Qed.

(** The work of a queue: at most one turn per topic and per row. *)
Lemma work_bound (queue : list (bytes * Z)) :
  NoDup queue.*1 → (work id (topicRows S) queue ≤ length queue + length S)%nat.
Proof.
  unfold work. intros Hq.
  assert (Hle : (sum_list_with (λ f : bytes * Z, length (topicRows S f.1)) queue
                 ≤ length S)%nat).
  { clear HS. revert S. induction queue as [|f queue IH]; intros S; [simpl; lia|].
    rewrite fmap_cons, NoDup_cons in Hq. destruct Hq as [Hf Hq]. simpl.
    specialize (IH Hq (filter (λ r, key r ≠ f.1) S)).
    assert (E : sum_list_with (λ g : bytes * Z, length (topicRows S g.1)) queue
      = sum_list_with (λ g : bytes * Z,
          length (topicRows (filter (λ r, key r ≠ f.1) S) g.1)) queue).
    { clear IH Hq. induction queue as [|g queue IH]; [done|]. rewrite fmap_cons in Hf.
      apply not_elem_of_cons in Hf as [Hg Hf]. simpl. f_equal; [|by apply IH].
      unfold topicRows. rewrite list_filter_filter_l; [done|]. intros r E1 E2. congruence. }
    rewrite E. unfold topicRows at 1. rewrite order_by_asc_Permutation.
    pose proof (Permutation_length (filter_app_complement (λ r, key r = f.1) S)) as El.
    rewrite length_app in El. lia. }
  etrans; [|apply Nat.add_le_mono_l, Hle]. clear Hq Hle.
  induction queue as [|f queue IH]; [simpl; lia|]. simpl.
  pose proof (length_filter (λ r, f.2 < id r) (topicRows S f.1)) as Ha.
  unfold above in *. lia.
Qed.
End Table.

(** A tally counts a key's rows and ends at its last one. *)
Lemma tally_lookup {R} (key : R → string) (id : R → Z) (rows : list R) k :
  foldl (λ p r, note (key r) (id r) p) ∅ rows !! k
  = (λ r, mkProgress (Z.of_nat (length (filter (λ r, key r = k) rows))) (id r))
      <$> last (filter (λ r, key r = k) rows).
Proof.
  induction rows as [|r rows IH] using rev_ind; [done|].
  rewrite foldl_app, filter_app, filter_cons, filter_nil. simpl. unfold note at 1.
  case_decide as E.
  - subst k. rewrite lookup_insert_eq, IH, last_snoc. simpl. do 2 f_equal.
    rewrite length_app. simpl. destruct (last _) eqn:El; simpl; [lia|].
    apply last_None in El. rewrite El. done.
  - rewrite lookup_insert_ne by done. by rewrite app_nil_r.
Qed.

(** One topic's progress after a turn that covered it. *)
Lemma turn_progress {R} (key : R → bytes) (id : R → Z) S L batch k c (idz : R → Z) :
  NoDup (id <$> S) → NoDup batch.*1 → (k, c) ∈ batch →
  default (mkProgress 0 0)
    (foldl (λ p r, note (key r) (idz r) p) ∅ (turn id (topicRows key id S) L batch) !! k)
  = match last (fetch id (topicRows key id S) L (k, c)) with
    | Some r => mkProgress (Z.of_nat (length (fetch id (topicRows key id S) L (k, c)))) (idz r)
    | None => mkProgress 0 0
    end.
Proof.
  intros HS Hd Hk. rewrite tally_lookup.
  pose proof (topicRows_topics key id S HS).
  rewrite (turn_key key id _ L batch k c) by done. by destruct (last _).
Qed.

(** Requeuing a topic by its progress is the abstract rotation. *)
Lemma progress_rotates {R} (key : R → bytes) (id : R → Z) S limit k c :
  NoDup (id <$> S) → (∀ r, r ∈ S → 0 < id r ≤ maxInt64) → 1 ≤ limit →
  let T := topicRows key id S in let L := Z.to_nat limit in
  let p := match last (fetch id T L (k, c)) with
           | Some r => mkProgress (Z.of_nat (length (fetch id T L (k, c)))) (u64 (id r))
           | None => mkProgress 0 0
           end in
  (if bool_decide (RawCount p < limit) then None
   else if bool_decide (c < LastRawID p) then Some (k, LastRawID p) else Some (k, c))
  = rotate id T L (k, c) ∧
  (bool_decide (RawCount p < limit) = false →
     bool_decide (c < LastRawID p) = true ∧ 0 ≤ LastRawID p ≤ maxInt64).
Proof.
  intros HS Hr Hlim T L p. unfold rotate. set (l := fetch id T L (k, c)) in *.
  assert (Hl : ∀ r, last l = Some r → c < id r ∧ 0 < id r ≤ maxInt64).
  { intros r Hlast%last_Some_elem_of.
    pose proof (topicRows_topics key id S HS : Topics key id T).
    apply (fetch_elem key id T L (k, c)) in Hlast as (? & Hin & _).
    split; [done|]. apply Hr. by apply topicRows_elem in Hin as [? _]. }
  unfold p. destruct (last l) as [r|] eqn:E; simpl.
  - destruct (Hl r eq_refl) as [Hc Hid].
    assert (Eu : u64 (id r) = id r) by (apply u64_small; unfold_widths; lia). rewrite Eu.
    rewrite (bool_decide_true (c < id r)) by done.
    repeat case_bool_decide; repeat case_decide; try (unfold L in *; lia);
      (split; [done|]); intros; (split; [done|lia]).
  - apply last_None in E. rewrite E. simpl. rewrite bool_decide_true by lia.
    rewrite decide_True by (unfold L; lia). done.
Qed.

Lemma atLeast1_pos n : 1 ≤ atLeast1 n.
Proof. unfold atLeast1. case_bool_decide; lia. Qed.

Lemma latest_bounds {R} (id : R → Z) seq t :
  keyed id seq t → 0 ≤ default 0 (max_of (id <$> t)) ≤ maxInt64.
Proof.
  intros Hk. destruct (max_of (id <$> t)) as [m|] eqn:E; simpl; [|unfold maxInt64; lia].
  apply max_of_spec in E as [(r & -> & Hr)%list_elem_of_fmap _].
  pose proof (keyed_elem _ _ _ _ Hk Hr). lia.
Qed.

(** * The group lane *)

Definition groups_keyed (d : Db) : Prop := keyed g_ID (group_messages_seq d) (group_messages d).

Section Groups.
Context (env : scanEnv) (batchTopics limit ceiling : Z) (wave : nat) (S : list GroupMessageRow).
Hypothesis Hwf : ∀ k, groups_keyed (snapshot env k).
Hypothesis Hpinned : ∀ k,
  filter (λ r, g_ID r ≤ ceiling) (group_messages (snapshot env (2 + k))) ≡ₚ S.
Hypothesis Hceiling : 0 < ceiling ≤ maxInt64.
Hypothesis HbatchTopics : 1 ≤ batchTopics.
Hypothesis Hlimit : 1 ≤ limit.

Definition groupPair (a : GroupCatchup) : bytes * Z := (gc_GroupID a, gc_IdCursor a).
Definition groupOk (a : GroupCatchup) : Prop := 0 ≤ gc_IdCursor a ≤ maxInt64.
Local Abbreviation T := (topicRows g_GroupID g_ID S).

Definition groupScan (k : nat) (batch : list GroupCatchup) : result (list GroupMessageRow) :=
  call (queryErr env (2 + k)) (queryGroupMessagesWaveScan
    ((λ f, (gc_GroupID f, clampCursor (gc_IdCursor f))) <$> batch)
    (clampCursor 0) (clampCursor (u64 ceiling)) limit (snapshot env (2 + k))).

Definition groupRotate (rows : list GroupMessageRow) (b : GroupCatchup) : option GroupCatchup :=
  rotateGroup limit (groupTally (toGroupMessage <$> rows)) b.

Definition groupPack (rows : list GroupMessageRow) : option catchUpBatch :=
  match toGroupMessage <$> rows with
  | [] => None
  | msgs => Some (mkBatch msgs [] wave (groupBytes msgs) false None)
  end.

Lemma groupTurns_lane fuel k queue :
  groupTurns env batchTopics limit ceiling wave fuel k queue
  = laneTurns (streamAlive env) (bytesGranted env) wave (Z.to_nat batchTopics) groupScan
      groupRotate groupPack fuel k queue.
Proof.
  revert k queue. induction fuel as [|fuel IH]; intros k [|q queue]; try done.
  cbn [groupTurns laneTurns]. destruct (streamAlive env k); [|done]. simpl negb. cbn iota.
  unfold QueryGroupMessagesWaveScan.
  assert (Hb : take (Z.to_nat batchTopics) (q :: queue) ≠ []).
  { destruct (Z.to_nat batchTopics) eqn:E; [lia|done]. }
  assert (Hu : u64 ceiling = ceiling) by (apply u64_small; unfold_widths; lia).
  rewrite bool_decide_false by (rewrite Hu; intros [?|?]; [done|lia]).
  unfold groupScan. destruct (queryErr env (2 + k)); simpl; [done|].
  rewrite IH. unfold groupRotate, groupPack. by destruct (fmap toGroupMessage _).
Qed.

Lemma groupScan_turn k batch :
  Forall groupOk batch →
  groupScan k batch = Ok (turn g_ID T (Z.to_nat limit) (groupPair <$> batch))
  ∨ ∃ e, groupScan k batch = Err e.
Proof.
  intros Hok. unfold groupScan. destruct (queryErr env (2 + k)) as [e|]; [by right; exists e|].
  left. simpl. f_equal. unfold queryGroupMessagesWaveScan, turn. f_equal.
  rewrite !list_fmap_bind. apply Forall_bind_ext. eapply Forall_impl; [exact Hok|].
  clear Hok. intros a Hok. unfold groupOk in Hok. unfold compose, groupProbe.
  assert (Hc : ∀ c, 0 ≤ c ≤ maxInt64 → clampCursor c = c).
  { intros c ?. unfold clampCursor. rewrite bool_decide_false by lia. by apply i64_small. }
  assert (Hu : u64 ceiling = ceiling) by (apply u64_small; unfold_widths; lia).
  rewrite Hu, !Hc by (unfold maxInt64 in *; lia).
  apply (probe_fetch _ _ _ _ _ _ _ (groupPair a) (Hwf (2 + k)) (Hpinned k)).
  apply Hok.
Qed.

Lemma groupRotate_rotate batch b :
  NoDup (groupPair <$> batch).*1 → b ∈ batch → groupOk b →
  let rows := turn g_ID T (Z.to_nat limit) (groupPair <$> batch) in
  groupPair <$> groupRotate rows b = rotate g_ID T (Z.to_nat limit) (groupPair b) ∧
  ∀ b', groupRotate rows b = Some b' → groupOk b'.
Proof.
  intros Hd Hb Hok rows.
  destruct (pinned_keyed g_ID _ _ _ _ (Hwf 2%nat) (Hpinned 0)) as [HS Hr].
  assert (Hin : (gc_GroupID b, gc_IdCursor b) ∈ groupPair <$> batch)
    by (by apply (list_elem_of_fmap_2 groupPair)).
  pose proof (progress_rotates g_GroupID g_ID S limit (gc_GroupID b) (gc_IdCursor b)
    HS Hr Hlimit) as [E1 E2].
  rewrite <- (turn_progress g_GroupID g_ID S _ _ _ _ (λ r, u64 (g_ID r)) HS Hd Hin) in E1, E2.
  unfold groupRotate, rotateGroup, groupTally. rewrite foldl_fmap. simpl.
  change (rotate g_ID T (Z.to_nat limit) (groupPair b))
    with (rotate g_ID T (Z.to_nat limit) (gc_GroupID b, gc_IdCursor b)).
  rewrite <- E1. fold rows in E1, E2 |- *. set (p := default _ _) in *.
  destruct (bool_decide (RawCount p < limit)); [done|].
  destruct E2 as [Hlt Hp]; [done|]. rewrite Hlt. simpl. split; [done|].
  by intros b' [= <-].
Qed.

Lemma groupPack_msgs turns :
  omap groupPack turns ≫= cb_groupMsgs = toGroupMessage <$> mjoin turns.
Proof.
  induction turns as [|rows turns IH]; [done|]. simpl. rewrite fmap_app, <- IH.
  unfold groupPack at 1. destruct rows; [done|]. simpl. done.
Qed.

Lemma groupPack_batches turns :
  Forall (λ rows, ascending g_ID rows ∧ (length rows ≤ Z.to_nat batchTopics * Z.to_nat limit)%nat
                  ∧ ∀ r, r ∈ rows → r ∈ S) turns →
  Forall (λ b, cb_wave b = wave ∧ cb_done b = false ∧ cb_err b = None ∧ cb_welcomeMsgs b = []
    ∧ cb_groupMsgs b ≠ [] ∧ Z.of_nat (length (cb_groupMsgs b)) ≤ batchTopics * limit
    ∧ cb_bytes b = groupBytes (cb_groupMsgs b) ∧ ascending groupID (cb_groupMsgs b))
    (omap groupPack turns).
Proof.
  destruct (pinned_keyed g_ID _ _ _ _ (Hwf 2%nat) (Hpinned 0)) as [_ Hr].
  induction 1 as [|rows turns (Ha & Hl & Hin) _ IH]; [constructor|].
  destruct rows as [|r rows]; [exact IH|].
  set (msgs := toGroupMessage <$> (r :: rows)).
  change (omap groupPack ((r :: rows) :: turns))
    with (mkBatch msgs [] wave (groupBytes msgs) false None :: omap groupPack turns).
  constructor; [|exact IH]. cbn [cb_wave cb_done cb_err cb_welcomeMsgs cb_groupMsgs cb_bytes].
  split_and!; [done..| |done|].
  - unfold msgs. rewrite length_fmap. lia.
  - unfold msgs. clear Hl IH msgs. induction (r :: rows) as [|x l IH]; [constructor|].
    apply ascending_cons in Ha as [Hx Ha]. rewrite fmap_cons. apply ascending_cons.
    split; [|apply IH; [done|intros; apply Hin; by right]].
    intros m (y & -> & Hy)%list_elem_of_fmap. unfold groupID. simpl.
    pose proof (Hr x (Hin x ltac:(left))). pose proof (Hr y (Hin y ltac:(by right))).
    rewrite !u64_small by (unfold maxInt64 in *; lia). by apply Hx.
Qed.

Lemma groupTurns_complete fuel k queue out :
  Forall groupOk queue → NoDup (groupPair <$> queue).*1 →
  groupTurns env batchTopics limit ceiling wave fuel k queue = Some out →
  (∃ b, b ∈ out ∧ cb_done b = true) →
  ∃ turns, out = omap groupPack turns ++ [doneMarker wave] ∧
    Forall (λ rows, ascending g_ID rows
      ∧ (length rows ≤ Z.to_nat batchTopics * Z.to_nat limit)%nat ∧ ∀ r, r ∈ rows → r ∈ S) turns ∧
    (∀ r, r ∈ mjoin turns → g_GroupID r ∈ gc_GroupID <$> queue) ∧
    (∀ a, a ∈ queue → filter (λ r, g_GroupID r = gc_GroupID a) (mjoin turns)
                      = above g_ID (gc_IdCursor a) (T (gc_GroupID a))).
Proof.
  intros Hok Hd E (b & Hb & Hdone). rewrite groupTurns_lane in E.
  destruct (pinned_keyed g_ID _ _ _ _ (Hwf 2%nat) (Hpinned 0)) as [HS _].
  pose proof (topicRows_topics g_GroupID g_ID S HS) as HT.
  eapply (lane_rotation _ _ _ _ _ _ _ g_ID T (Z.to_nat limit) groupPair groupOk) in E
    as [(turns & E & ->)|Hno]; [|by rewrite (Hno b Hb) in Hdone|..|done|done].
  - assert (HB : (1 ≤ Z.to_nat batchTopics)%nat) by lia.
    assert (HL : (1 ≤ Z.to_nat limit)%nat) by lia.
    exists turns. split; [done|]. split_and!.
    + assert (Ht := E). apply (rotation_turns g_GroupID) in Ht; [|done..].
      assert (Hsrc : ∀ rows r, rows ∈ turns → r ∈ rows → ∃ k, r ∈ T k).
      { intros rows r Hrows Hr. revert E Hrows Hr. by apply (rotation_src g_GroupID). }
      rewrite Forall_forall in *. intros rows Hrows. destruct (Ht rows Hrows).
      split_and!; [done..|]. intros r Hr. destruct (Hsrc rows r Hrows Hr) as [k' Hk'].
      by apply topicRows_elem in Hk' as [? _].
    + intros r (rows & Hr & Hrows)%list_elem_of_join.
      assert (Hin := E). apply (rotation_elem g_GroupID) with (rows := rows) (r := r) in Hin;
        [|done..].
      by rewrite <- list_fmap_compose in Hin.
    + intros a Ha. eapply (rotation_complete g_GroupID); try exact E; try done.
      by apply (list_elem_of_fmap_2 groupPair).
  - intros k' batch Hbatch _ _. by apply groupScan_turn.
  - intros batch b' Hbatch Hdb Hb'. apply groupRotate_rotate; [done..|].
    by eapply Forall_forall in Hbatch.
  - intros rows b' Eb. unfold groupPack in Eb. destruct (fmap toGroupMessage rows); [done|].
    by injection Eb as <-.
  - lia.
Qed.

Lemma groupTurns_ends fuel k queue :
  Forall groupOk queue → NoDup (groupPair <$> queue).*1 →
  (∀ k, streamAlive env k = true) → (∀ k, bytesGranted env k = true) →
  (∀ k, queryErr env k = None) → (length queue + length S ≤ fuel)%nat →
  ∃ out, groupTurns env batchTopics limit ceiling wave fuel k queue = Some out
         ∧ doneMarker wave ∈ out.
Proof.
  intros Hok Hd Ha Hg He Hf. rewrite groupTurns_lane.
  destruct (pinned_keyed g_ID _ _ _ _ (Hwf 2%nat) (Hpinned 0)) as [HS _].
  pose proof (topicRows_topics g_GroupID g_ID S HS) as HT.
  eapply (lane_ends _ _ _ _ _ _ _ g_ID T (Z.to_nat limit) groupPair groupOk);
    [..|done|done|done|done| |].
  - intros k' batch Hbatch _ _. by apply groupScan_turn.
  - intros batch b' Hbatch Hdb Hb'. apply groupRotate_rotate; [done..|].
    by eapply Forall_forall in Hbatch.
  - lia.
  - intros k' b e. unfold groupScan. by rewrite He.
  - apply (rotation_terminates g_GroupID); try lia; [exact HT|].
    etrans; [by apply work_bound|]. by rewrite length_fmap.
Qed.
End Groups.

(** ** Whole scans of groups *)

(** The topics a scan does not prune, and the ceiling it pins. *)
Definition groupQueue (env : scanEnv) (adds : list GroupCatchup) : list GroupCatchup :=
  filter (λ a, gc_IdCursor a < GetLatestGroupMessageID (snapshot env 0)) adds.

Definition groupCeiling (env : scanEnv) (adds : list GroupCatchup) : Z :=
  let ceiling := GetLatestGroupMessageID (snapshot env 0) in
  match groupQueue env adds with
  | [] => ceiling
  | _ => refreshCeiling ceiling
           (call (queryErr env 1) (GetLatestGroupMessageID (snapshot env 1)))
  end.

(** Ids become visible in id order: every query of the scan's turns sees the same rows up to the
    ceiling, the rows [S]. *)
Definition groups_pinned (env : scanEnv) (adds : list GroupCatchup) (S : list GroupMessageRow)
    : Prop :=
  (∀ k, groups_keyed (snapshot env k)) ∧
  ∀ k, filter (λ r, g_ID r ≤ groupCeiling env adds) (group_messages (snapshot env (2 + k))) ≡ₚ S.

Definition group_adds (adds : list GroupCatchup) : Prop :=
  NoDup (gc_GroupID <$> adds) ∧ Forall (λ a, is_u64 (gc_IdCursor a)) adds.

Lemma catchUpGroups_turns t env fuel adds wave out :
  (∀ k, groups_keyed (snapshot env k)) → Forall (λ a, is_u64 (gc_IdCursor a)) adds →
  catchUpGroups t env fuel adds wave = Some out →
  out = [doneMarker wave] ∧ groupQueue env adds = [] ∨
  (out = [] ∨ ∃ e, out = errBatch e) ∨
  0 < groupCeiling env adds ≤ maxInt64 ∧ groupQueue env adds ≠ [] ∧
  groupTurns env (atLeast1 (scanBatchTopics t)) (atLeast1 (scanTopicPageLimit t))
    (groupCeiling env adds) wave fuel 0 (groupQueue env adds) = Some out.
Proof.
  intros Hwf Hu64. unfold catchUpGroups, groupCeiling.
  destruct (queryErr env 0) as [e|]; simpl.
  { intros [= <-]. right; left; right. by exists e. }
  pose proof (latest_bounds g_ID _ _ (Hwf 0%nat)) as H0.
  pose proof (latest_bounds g_ID _ _ (Hwf 1%nat)) as H1.
  assert (Hu : u64 (GetLatestGroupMessageID (snapshot env 0))
               = GetLatestGroupMessageID (snapshot env 0)).
  { apply u64_small. unfold GetLatestGroupMessageID. unfold_widths; lia. }
  rewrite Hu. fold (groupQueue env adds).
  destruct (groupQueue env adds) as [|q queue] eqn:Eq.
  { intros E. left. destruct fuel; simpl in E; by injection E as <-. }
  destruct (slotGranted env).
  - intros E. right; right. split; [|split; [done|exact E]].
    assert (Hq : q ∈ groupQueue env adds) by (rewrite Eq; left).
    unfold groupQueue in Hq. apply list_elem_of_filter in Hq as [Hlt Hq].
    rewrite Forall_forall in Hu64. specialize (Hu64 q Hq). unfold is_u64 in Hu64.
    unfold refreshCeiling, GetLatestGroupMessageID in *.
    destruct (queryErr env 1); simpl; [lia|]. case_bool_decide; lia.
  - intros [= <-]. right; left. by left.
Qed.

Lemma cut_undone out b : out = [] ∨ (∃ e, out = errBatch e) → b ∈ out → cb_done b = false.
Proof.
  intros [->|[e ->]]; [by intros ?%elem_of_nil|]. unfold errBatch.
  case_bool_decide; [by intros ?%elem_of_nil|by intros ->%list_elem_of_singleton].
Qed.

(** A scan's queue: distinct topics, cursors in range. *)
Lemma groupQueue_ok env adds :
  groups_keyed (snapshot env 0) → group_adds adds →
  Forall groupOk (groupQueue env adds) ∧ NoDup (groupPair <$> groupQueue env adds).*1.
Proof.
  intros Hk [Hnd Hu64]. split.
  - apply Forall_forall. intros a [Hlt Ha]%list_elem_of_filter.
    rewrite Forall_forall in Hu64. specialize (Hu64 a Ha). unfold is_u64, groupOk in *.
    pose proof (latest_bounds g_ID _ _ Hk). unfold GetLatestGroupMessageID in Hlt. lia.
  - rewrite <- list_fmap_compose. by apply fmap_filter_NoDup.
Qed.

(** What all the turns together hold of one added topic. *)
Lemma turns_of_add env adds S (rows : list GroupMessageRow) a :
  group_adds adds → a ∈ adds →
  (∀ r, r ∈ rows → g_GroupID r ∈ gc_GroupID <$> groupQueue env adds) →
  (∀ a, a ∈ groupQueue env adds → filter (λ r, g_GroupID r = gc_GroupID a) rows
     = above g_ID (gc_IdCursor a) (topicRows g_GroupID g_ID S (gc_GroupID a))) →
  filter (λ m, groupGroupId m = gc_GroupID a) (toGroupMessage <$> rows)
  = if decide (gc_IdCursor a < GetLatestGroupMessageID (snapshot env 0))
    then toGroupMessage <$> above g_ID (gc_IdCursor a) (topicRows g_GroupID g_ID S (gc_GroupID a))
    else [].
Proof.
  intros [Hnd _] Ha Hkeys Hrows.
  rewrite (fmap_filter_comm _ _ (λ r, g_GroupID r = gc_GroupID a)) by done. case_decide as Hlt.
  - f_equal. apply Hrows. by apply list_elem_of_filter.
  - rewrite filter_drop_all; [done|]. intros r Hr Ek. specialize (Hkeys r Hr).
    apply list_elem_of_fmap in Hkeys as (a' & Ea & [Hlt' Ha']%list_elem_of_filter).
    assert (a = a') as ->; [|done].
    apply (NoDup_fmap_fst_inj gc_GroupID adds); [done..|congruence].
Qed.

(** C28. A group scan that reports done has replayed everything it answers for. Whatever happens
    to it (failed queries, a dying stream, parking) and however many messages are published while
    it runs, a scan's done marker comes last, and then: each topic whose cursor was behind the
    newest message gets every message above its cursor up to the pinned ceiling, once and in
    ascending order; a topic that was current gets nothing; no other topic gets anything; and
    each batch is non-empty, ascending, bounded by batch size times page limit, labelled with its
    wave and with the bytes it reserved. *)
Theorem catch_up_groups_complete t env S fuel adds wave out :
  groups_pinned env adds S → group_adds adds →
  catchUpGroups t env fuel adds wave = Some out → (∃ b, b ∈ out ∧ cb_done b = true) →
  ∃ history, out = history ++ [doneMarker wave] ∧
    Forall (λ b, cb_wave b = wave ∧ cb_done b = false ∧ cb_err b = None ∧ cb_welcomeMsgs b = []
      ∧ cb_groupMsgs b ≠ []
      ∧ Z.of_nat (length (cb_groupMsgs b))
          ≤ atLeast1 (scanBatchTopics t) * atLeast1 (scanTopicPageLimit t)
      ∧ cb_bytes b = groupBytes (cb_groupMsgs b) ∧ ascending groupID (cb_groupMsgs b)) history ∧
    (∀ m, m ∈ history ≫= cb_groupMsgs → groupGroupId m ∈ gc_GroupID <$> adds) ∧
    (∀ a, a ∈ adds →
       filter (λ m, groupGroupId m = gc_GroupID a) (history ≫= cb_groupMsgs)
       = if decide (gc_IdCursor a < GetLatestGroupMessageID (snapshot env 0))
         then toGroupMessage <$> above g_ID (gc_IdCursor a)
                (topicRows g_GroupID g_ID S (gc_GroupID a))
         else []).
Proof.
  intros [Hwf Hpin] [Hnd Hu64] E Hdone.
  destruct (catchUpGroups_turns _ _ _ _ _ _ Hwf Hu64 E) as [[-> Hq]|[Hno|(Hc & Hq & E')]].
  - exists []. split; [done|]. split; [constructor|]. split; [by intros m ?%elem_of_nil|].
    intros a Ha. rewrite decide_False; [done|]. intros Hlt.
    assert (Hin : a ∈ groupQueue env adds) by (by apply list_elem_of_filter).
    rewrite Hq in Hin. by apply elem_of_nil in Hin.
  - destruct Hdone as (b & Hb & Hd). by rewrite (cut_undone out b Hno Hb) in Hd.
  - destruct (groupQueue_ok env adds (Hwf 0%nat) ltac:(by split)) as [Hok Hd].
    destruct (groupTurns_complete env _ _ _ wave S Hwf Hpin Hc (atLeast1_pos _) (atLeast1_pos _)
      _ _ _ _ Hok Hd E' Hdone) as (turns & -> & Hturns & Hkeys & Hrows).
    exists (omap (groupPack wave) turns). split; [done|]. split.
    { apply (groupPack_batches env _ _ (groupCeiling env adds) wave S Hwf Hpin); try done; apply atLeast1_pos. }
    rewrite groupPack_msgs. split.
    + intros m (r & -> & Hr)%list_elem_of_fmap. specialize (Hkeys r Hr).
      apply list_elem_of_fmap in Hkeys as (a & Ea & [_ Ha]%list_elem_of_filter).
      change (groupGroupId (toGroupMessage r)) with (g_GroupID r). rewrite Ea.
      by apply list_elem_of_fmap_2.
    + intros a Ha. by apply (turns_of_add env adds).
Qed.

(** C30. A group scan ends: on a stream that stays up and with queries that succeed, it hands over
    its done marker after at most one turn per topic and per message up to the ceiling. *)
Theorem catch_up_groups_ends t env S fuel adds wave :
  groups_pinned env adds S → group_adds adds →
  (∀ k, queryErr env k = None) → slotGranted env = true → (∀ k, streamAlive env k = true) →
  (∀ k, bytesGranted env k = true) → (length adds + length S ≤ fuel)%nat →
  ∃ out, catchUpGroups t env fuel adds wave = Some out ∧ doneMarker wave ∈ out.
Proof.
  intros [Hwf Hpin] [Hnd Hu64] He Hs Ha Hg Hf.
  pose proof (latest_bounds g_ID _ _ (Hwf 0%nat)) as H0.
  pose proof (latest_bounds g_ID _ _ (Hwf 1%nat)) as H1.
  assert (Hu : u64 (GetLatestGroupMessageID (snapshot env 0))
               = GetLatestGroupMessageID (snapshot env 0)).
  { apply u64_small. unfold GetLatestGroupMessageID. unfold_widths; lia. }
  unfold catchUpGroups. rewrite !He. simpl. rewrite Hu. fold (groupQueue env adds).
  unfold groupCeiling in Hpin. rewrite He in Hpin. simpl in Hpin.
  assert (Hlen : (length (groupQueue env adds) ≤ length adds)%nat) by apply length_filter.
  destruct (groupQueue_ok env adds (Hwf 0%nat) ltac:(by split)) as [Hok Hd].
  assert (Hpos : groupQueue env adds ≠ [] → 0 < GetLatestGroupMessageID (snapshot env 0)).
  { destruct (groupQueue env adds) as [|a l] eqn:E; [done|]. intros _.
    assert (Hin : a ∈ groupQueue env adds) by (rewrite E; left).
    apply list_elem_of_filter in Hin as [Hlt Hin]. rewrite Forall_forall in Hu64.
    specialize (Hu64 a Hin). unfold is_u64 in Hu64. lia. }
  destruct (groupQueue env adds) as [|q queue]; [by exists [doneMarker wave]; split;
    [destruct fuel|left]|].
  rewrite Hs. specialize (Hpos ltac:(done)).
  eapply groupTurns_ends; try done; [|apply atLeast1_pos..|lia].
  unfold refreshCeiling, GetLatestGroupMessageID in *. case_bool_decide; lia.
Qed.

(** * Concrete inputs *)

Definition sampleEnv : scanEnv :=
  mkScanEnv (λ _, sampleDb) (λ _, None) true (λ _, true) (λ _, true).

(** One row per topic and two topics per turn. *)
Definition sampleTunables : tunables :=
  mkTunables 1 1 1000 100 1 2 1 100 10.

Lemma catch_up_groups_complete_witness :
  ∃ history,
    catchUpGroups sampleTunables sampleEnv 20
      [mkGroupCatchup "g" 1; mkGroupCatchup "none" 9; mkGroupCatchup "h" 0] 5
    = Some (history ++ [doneMarker 5]) ∧
    filter (λ m, groupGroupId m = "g") (history ≫= cb_groupMsgs)
    = toGroupMessage <$> [mkGroupMessageRow 3 3000 "g" "y" "h3" (Some true) "" (Some true);
                          mkGroupMessageRow 4 1000 "g" "z" "h4" (Some false) "" None].
Proof.
  set (adds := [mkGroupCatchup "g" 1; mkGroupCatchup "none" 9; mkGroupCatchup "h" 0]).
  destruct (catchUpGroups sampleTunables sampleEnv 20 adds 5) as [out|] eqn:E;
    [|vm_compute in E; discriminate].
  destruct (catch_up_groups_complete sampleTunables sampleEnv (group_messages sampleDb) 20 adds 5
    out) as (history & -> & _ & _ & H).
  - split; [intros; exact (wf_group_ids _ sampleDb_wf)|]. intros k. by vm_compute.
  - split; [apply (bool_decide_unpack _); by vm_compute|].
    apply Forall_forall. intros a Ha. apply (Forall_forall (λ a, is_u64 (gc_IdCursor a)) adds);
      [|exact Ha]. unfold is_u64. repeat constructor; simpl; lia.
  - exact E.
  - exists (doneMarker 5). split; [|done]. vm_compute in E. injection E as <-. right; right; left.
  - exists history. split; [done|].
    etrans; [exact (H (mkGroupCatchup "g" 1) ltac:(left))|]. by vm_compute.
Defined.

Lemma catch_up_groups_ends_witness :
  ∃ out, catchUpGroups sampleTunables sampleEnv 6 [mkGroupCatchup "g" 1; mkGroupCatchup "h" 0] 5
         = Some out ∧ doneMarker 5 ∈ out.
Proof.
  apply (catch_up_groups_ends sampleTunables sampleEnv (group_messages sampleDb)); try done.
  - split; [intros; exact (wf_group_ids _ sampleDb_wf)|]. intros k. by vm_compute.
  - split; [apply (bool_decide_unpack _); by vm_compute|].
    unfold is_u64. repeat constructor; simpl; lia.
Defined.
