(* ===== verification/WelcomeCatchUp.v ===== *)
(** The welcome lane of the catch-up scans: catchUpWelcomes is the rotation of Rotation.v too,
    with its turns measured on raw rows, since a row of an unknown type has no message. *)

From S2P Require Import Prelude Topic Types MlsDb ReadStore Rotation Frames Writer CatchUp.

(** * The welcome lane *)

Lemma length_omap_le {A B} (f : A → option B) (l : list A) :
  (length (omap f l) ≤ length l)%nat.
Proof.
  induction l as [|a l IH]; [done|]. simpl. fold (omap f l). destruct (f a); simpl; lia.
Qed.

Lemma omap_filter_comm {A B} (f : A → option B) (P : B → Prop) (Q : A → Prop)
    `{∀ b, Decision (P b), ∀ a, Decision (Q a)} (l : list A) :
  (∀ a b, f a = Some b → P b ↔ Q a) → filter P (omap f l) = omap f (filter Q l).
Proof.
  intros HPQ. induction l as [|a l IH]; [done|]. rewrite filter_cons.
  change (omap f (a :: l)) with (match f a with Some b => b :: omap f l | None => omap f l end).
  destruct (f a) as [b|] eqn:E.
  - rewrite filter_cons, IH. destruct (decide (Q a)) as [HQ|HQ].
    + rewrite decide_True by (by apply (HPQ a b E)). simpl. by rewrite E.
    + rewrite decide_False; [done|]. by rewrite (HPQ a b E).
  - case_decide; [|done]. simpl. by rewrite E.
Qed.

Lemma toWelcomeMessage_key r m :
  toWelcomeMessage r = Some m → welcomeInstallationKey m = w_InstallationKey r.
Proof. unfold toWelcomeMessage. intros E. repeat case_bool_decide; by simplify_eq/=. Qed.

Section Welcomes.
Context (env : scanEnv) (batchTopics limit ceiling : Z) (wave : nat) (S : list WelcomeMessageRow).
Hypothesis Hwf : ∀ k, wf_db (snapshot env k).
Hypothesis Hpinned : ∀ k,
  filter (λ r, w_ID r ≤ ceiling) (welcome_messages (snapshot env (2 + k))) ≡ₚ S.
Hypothesis Hceiling : 0 < ceiling ≤ maxInt64.
Hypothesis HbatchTopics : 1 ≤ batchTopics.
Hypothesis Hlimit : 1 ≤ limit.

Definition welcomePair (a : WelcomeCatchup) : bytes * Z := (wc_InstallationKey a, wc_IdCursor a).
Definition welcomeOk (a : WelcomeCatchup) : Prop := 0 ≤ wc_IdCursor a ≤ maxInt64.
Local Abbreviation T := (topicRows w_InstallationKey w_ID S).

Definition welcomeScan (k : nat) (batch : list WelcomeCatchup) : result (list WelcomeMessageRow) :=
  call (queryErr env (2 + k)) (queryWelcomeMessagesWaveScan
    ((λ f, (wc_InstallationKey f, clampCursor (wc_IdCursor f))) <$> batch)
    (clampCursor 0) (clampCursor (u64 ceiling)) limit (snapshot env (2 + k))).

Definition welcomeRotate (rows : list WelcomeMessageRow) (b : WelcomeCatchup) : option WelcomeCatchup :=
  rotateWelcome limit (foldl addProgress ∅ rows) b.

Definition welcomePack (rows : list WelcomeMessageRow) : option catchUpBatch :=
  match omap toWelcomeMessage rows with
  | [] => None
  | msgs => Some (mkBatch [] msgs wave (welcomeBytes msgs) false None)
  end.

Lemma welcomeTurns_lane fuel k queue :
  welcomeTurns env batchTopics limit ceiling wave fuel k queue
  = laneTurns (streamAlive env) (bytesGranted env) wave (Z.to_nat batchTopics) welcomeScan
      welcomeRotate welcomePack fuel k queue.
Proof.
  revert k queue. induction fuel as [|fuel IH]; intros k [|q queue]; try done.
  cbn [welcomeTurns laneTurns]. destruct (streamAlive env k); [|done]. simpl negb. cbn iota.
  unfold QueryWelcomeMessagesWaveScan.
  assert (Hb : take (Z.to_nat batchTopics) (q :: queue) ≠ []).
  { destruct (Z.to_nat batchTopics) eqn:E; [lia|done]. }
  assert (Hu : u64 ceiling = ceiling) by (apply u64_small; unfold_widths; lia).
  rewrite bool_decide_false by (rewrite Hu; intros [?|?]; [done|lia]).
  unfold welcomeScan. destruct (queryErr env (2 + k)); simpl; [done|].
  rewrite IH. unfold welcomeRotate, welcomePack. by destruct (omap toWelcomeMessage _).
Qed.

Lemma welcomeScan_turn k batch :
  Forall welcomeOk batch →
  welcomeScan k batch = Ok (turn w_ID T (Z.to_nat limit) (welcomePair <$> batch))
  ∨ ∃ e, welcomeScan k batch = Err e.
Proof.
  intros Hok. unfold welcomeScan. destruct (queryErr env (2 + k)) as [e|]; [by right; exists e|].
  left. simpl. f_equal. unfold queryWelcomeMessagesWaveScan, turn. f_equal.
  rewrite !list_fmap_bind. apply Forall_bind_ext. eapply Forall_impl; [exact Hok|].
  clear Hok. intros a Hok. unfold welcomeOk in Hok. unfold compose, welcomeProbe.
  assert (Hc : ∀ c, 0 ≤ c ≤ maxInt64 → clampCursor c = c).
  { intros c ?. unfold clampCursor. rewrite bool_decide_false by lia. by apply i64_small. }
  assert (Hu : u64 ceiling = ceiling) by (apply u64_small; unfold_widths; lia).
  rewrite Hu, !Hc by (unfold maxInt64 in *; lia).
  apply (probe_fetch _ _ _ _ _ _ _ (welcomePair a) (wf_welcome_ids _ (Hwf (2 + k))) (Hpinned k)).
  apply Hok.
Qed.

Lemma welcomeRotate_rotate batch b :
  NoDup (welcomePair <$> batch).*1 → b ∈ batch → welcomeOk b →
  let rows := turn w_ID T (Z.to_nat limit) (welcomePair <$> batch) in
  welcomePair <$> welcomeRotate rows b = rotate w_ID T (Z.to_nat limit) (welcomePair b) ∧
  ∀ b', welcomeRotate rows b = Some b' → welcomeOk b'.
Proof.
  intros Hd Hb Hok rows.
  destruct (pinned_keyed w_ID _ _ _ _ (wf_welcome_ids _ (Hwf 2)) (Hpinned 0)) as [HS Hr].
  assert (Hin : (wc_InstallationKey b, wc_IdCursor b) ∈ welcomePair <$> batch)
    by (by apply (list_elem_of_fmap_2 welcomePair)).
  pose proof (progress_rotates w_InstallationKey w_ID S limit (wc_InstallationKey b) (wc_IdCursor b)
    HS Hr Hlimit) as [E1 E2].
  rewrite <- (turn_progress w_InstallationKey w_ID S _ _ _ _ (λ r, u64 (w_ID r)) HS Hd Hin) in E1, E2.
  unfold welcomeRotate, rotateWelcome. simpl.
  change (rotate w_ID T (Z.to_nat limit) (welcomePair b))
    with (rotate w_ID T (Z.to_nat limit) (wc_InstallationKey b, wc_IdCursor b)).
  rewrite <- E1. fold rows in E1, E2 |- *. set (p := default _ _) in *.
  destruct (bool_decide (RawCount p < limit)); [done|].
  destruct E2 as [Hlt Hp]; [done|]. rewrite Hlt. simpl. split; [done|].
  by intros b' [= <-].
Qed.

Lemma welcomePack_msgs turns :
  omap welcomePack turns ≫= cb_welcomeMsgs = omap toWelcomeMessage (mjoin turns).
Proof.
  induction turns as [|rows turns IH]; [done|].
  change (mjoin (rows :: turns)) with (rows ++ mjoin turns). rewrite omap_app, <- IH.
  unfold welcomePack at 1. simpl. fold (omap toWelcomeMessage rows).
  by destruct (omap toWelcomeMessage rows).
Qed.

Lemma toWelcomeMessage_id r m :
  0 < w_ID r ≤ maxInt64 → toWelcomeMessage r = Some m →
  welcomeID m = w_ID r.
Proof.
  unfold toWelcomeMessage. intros Hr E.
  assert (Hu : u64 (w_ID r) = w_ID r) by (apply u64_small; unfold_widths; lia).
  repeat case_bool_decide; simplify_eq/=; by rewrite Hu.
Qed.

Lemma welcome_ids_ascending rows :
  (∀ r, r ∈ rows → 0 < w_ID r ≤ maxInt64) → ascending w_ID rows →
  ascending welcomeID (omap toWelcomeMessage rows).
Proof.
  intros Hr Ha. induction rows as [|x l IH]; [constructor|].
  apply ascending_cons in Ha as [Hx Ha]. simpl. fold (omap toWelcomeMessage l).
  specialize (IH ltac:(intros; apply Hr; by right) Ha).
  destruct (toWelcomeMessage x) as [m|] eqn:E; [|done]. apply ascending_cons. split; [|done].
  intros m' (y & Hy & Ey)%list_elem_of_omap.
  rewrite (toWelcomeMessage_id x m), (toWelcomeMessage_id y m'); [by apply Hx|..|done].
  - apply Hr. by right.
  - done.
  - apply Hr. left.
Qed.

Lemma welcomePack_batches turns :
  Forall (λ rows, ascending w_ID rows ∧ (length rows ≤ Z.to_nat batchTopics * Z.to_nat limit)%nat
                  ∧ ∀ r, r ∈ rows → r ∈ S) turns →
  Forall (λ b, cb_wave b = wave ∧ cb_done b = false ∧ cb_err b = None ∧ cb_groupMsgs b = []
    ∧ cb_welcomeMsgs b ≠ [] ∧ Z.of_nat (length (cb_welcomeMsgs b)) ≤ batchTopics * limit
    ∧ cb_bytes b = welcomeBytes (cb_welcomeMsgs b) ∧ ascending welcomeID (cb_welcomeMsgs b))
    (omap welcomePack turns).
Proof.
  destruct (pinned_keyed w_ID _ _ _ _ (wf_welcome_ids _ (Hwf 2)) (Hpinned 0)) as [_ Hr].
  intros Ht. apply Forall_forall. intros b (rows & Hrows & E)%list_elem_of_omap.
  rewrite Forall_forall in Ht. destruct (Ht rows Hrows) as (Ha & Hl & Hin).
  unfold welcomePack in E. destruct (omap toWelcomeMessage rows) as [|m msgs] eqn:Em; [done|].
  injection E as <-. cbn [cb_wave cb_done cb_err cb_welcomeMsgs cb_groupMsgs cb_bytes].
  split_and!; [done..| |done|]; rewrite <- Em.
  - pose proof (length_omap_le toWelcomeMessage rows). lia.
  - apply welcome_ids_ascending; auto.
Qed.

Lemma welcomeTurns_complete fuel k queue out :
  Forall welcomeOk queue → NoDup (welcomePair <$> queue).*1 →
  welcomeTurns env batchTopics limit ceiling wave fuel k queue = Some out →
  (∃ b, b ∈ out ∧ cb_done b = true) →
  ∃ turns, out = omap welcomePack turns ++ [doneMarker wave] ∧
    Forall (λ rows, ascending w_ID rows
      ∧ (length rows ≤ Z.to_nat batchTopics * Z.to_nat limit)%nat ∧ ∀ r, r ∈ rows → r ∈ S) turns ∧
    (∀ r, r ∈ mjoin turns → w_InstallationKey r ∈ wc_InstallationKey <$> queue) ∧
    (∀ a, a ∈ queue → filter (λ r, w_InstallationKey r = wc_InstallationKey a) (mjoin turns)
                      = above w_ID (wc_IdCursor a) (T (wc_InstallationKey a))).
Proof.
  intros Hok Hd E (b & Hb & Hdone). rewrite welcomeTurns_lane in E.
  destruct (pinned_keyed w_ID _ _ _ _ (wf_welcome_ids _ (Hwf 2)) (Hpinned 0)) as [HS _].
  pose proof (topicRows_topics w_InstallationKey w_ID S HS) as HT.
  eapply (lane_rotation _ _ _ _ _ _ _ w_ID T (Z.to_nat limit) welcomePair welcomeOk) in E
    as [(turns & E & ->)|Hno]; [|by rewrite (Hno b Hb) in Hdone|..|done|done].
  - assert (HB : (1 ≤ Z.to_nat batchTopics)%nat) by lia.
    assert (HL : (1 ≤ Z.to_nat limit)%nat) by lia.
    exists turns. split; [done|]. split_and!.
    + assert (Ht := E). apply (rotation_turns w_InstallationKey) in Ht; [|done..].
      assert (Hsrc : ∀ rows r, rows ∈ turns → r ∈ rows → ∃ k, r ∈ T k).
      { intros rows r Hrows Hr. revert E Hrows Hr. by apply (rotation_src w_InstallationKey). }
      rewrite Forall_forall in *. intros rows Hrows. destruct (Ht rows Hrows).
      split_and!; [done..|]. intros r Hr. destruct (Hsrc rows r Hrows Hr) as [k' Hk'].
      by apply topicRows_elem in Hk' as [? _].
    + intros r (rows & Hr & Hrows)%list_elem_of_join.
      assert (Hin := E). apply (rotation_elem w_InstallationKey) with (rows := rows) (r := r) in Hin;
        [|done..].
      by rewrite <- list_fmap_compose in Hin.
    + intros a Ha. eapply (rotation_complete w_InstallationKey); try exact E; try done.
      by apply (list_elem_of_fmap_2 welcomePair).
  - intros k' batch Hbatch _ _. by apply welcomeScan_turn.
  - intros batch b' Hbatch Hdb Hb'. apply welcomeRotate_rotate; [done..|].
    by eapply Forall_forall in Hbatch.
  - intros rows b' Eb. unfold welcomePack in Eb. destruct (omap toWelcomeMessage rows); [done|].
    by injection Eb as <-.
  - lia.
Qed.

Lemma welcomeTurns_ends fuel k queue :
  Forall welcomeOk queue → NoDup (welcomePair <$> queue).*1 →
  (∀ k, streamAlive env k = true) → (∀ k, bytesGranted env k = true) →
  (∀ k, queryErr env k = None) → (length queue + length S ≤ fuel)%nat →
  ∃ out, welcomeTurns env batchTopics limit ceiling wave fuel k queue = Some out
         ∧ doneMarker wave ∈ out.
Proof.
  intros Hok Hd Ha Hg He Hf. rewrite welcomeTurns_lane.
  destruct (pinned_keyed w_ID _ _ _ _ (wf_welcome_ids _ (Hwf 2)) (Hpinned 0)) as [HS _].
  pose proof (topicRows_topics w_InstallationKey w_ID S HS) as HT.
  eapply (lane_ends _ _ _ _ _ _ _ w_ID T (Z.to_nat limit) welcomePair welcomeOk);
    [..|done|done|done|done| |].
  - intros k' batch Hbatch _ _. by apply welcomeScan_turn.
  - intros batch b' Hbatch Hdb Hb'. apply welcomeRotate_rotate; [done..|].
    by eapply Forall_forall in Hbatch.
  - lia.
  - intros k' b e. unfold welcomeScan. by rewrite He.
  - apply (rotation_terminates w_InstallationKey); try lia; [exact HT|].
    etrans; [by apply work_bound|]. by rewrite length_fmap.
Qed.
End Welcomes.

(** ** Whole scans of welcomes *)

(** The topics a scan does not prune, and the ceiling it pins. *)
Definition welcomeQueue (env : scanEnv) (adds : list WelcomeCatchup) : list WelcomeCatchup :=
  filter (λ a, wc_IdCursor a < GetLatestWelcomeMessageID (snapshot env 0)) adds.

Definition welcomeCeiling (env : scanEnv) (adds : list WelcomeCatchup) : Z :=
  let ceiling := GetLatestWelcomeMessageID (snapshot env 0) in
  match welcomeQueue env adds with
  | [] => ceiling
  | _ => refreshCeiling ceiling
           (call (queryErr env 1) (GetLatestWelcomeMessageID (snapshot env 1)))
  end.

(** Ids become visible in id order: every query of the scan's turns sees the same rows up to the
    ceiling, the rows [S]. *)
Definition welcomes_pinned (env : scanEnv) (adds : list WelcomeCatchup) (S : list WelcomeMessageRow)
    : Prop :=
  (∀ k, wf_db (snapshot env k)) ∧
  ∀ k, filter (λ r, w_ID r ≤ welcomeCeiling env adds) (welcome_messages (snapshot env (2 + k))) ≡ₚ S.

Definition welcome_adds (adds : list WelcomeCatchup) : Prop :=
  NoDup (wc_InstallationKey <$> adds) ∧ Forall (λ a, is_u64 (wc_IdCursor a)) adds.

Lemma catchUpWelcomes_turns t env fuel adds wave out :
  (∀ k, wf_db (snapshot env k)) → Forall (λ a, is_u64 (wc_IdCursor a)) adds →
  catchUpWelcomes t env fuel adds wave = Some out →
  out = [doneMarker wave] ∧ welcomeQueue env adds = [] ∨
  (∀ b, b ∈ out → cb_done b = false) ∨
  0 < welcomeCeiling env adds ≤ maxInt64 ∧ welcomeQueue env adds ≠ [] ∧
  welcomeTurns env (atLeast1 (scanBatchTopics t)) (atLeast1 (scanTopicPageLimit t))
    (welcomeCeiling env adds) wave fuel 0 (welcomeQueue env adds) = Some out.
Proof.
  intros Hwf Hu64. unfold catchUpWelcomes, welcomeCeiling.
  destruct (queryErr env 0) as [e|]; simpl.
  { intros [= <-]. right; left. unfold errBatch. case_bool_decide; [by intros b ?%elem_of_nil|].
    by intros b ->%list_elem_of_singleton. }
  pose proof (latest_bounds w_ID _ _ (wf_welcome_ids _ (Hwf 0%nat))) as H0.
  pose proof (latest_bounds w_ID _ _ (wf_welcome_ids _ (Hwf 1%nat))) as H1.
  assert (Hu : u64 (GetLatestWelcomeMessageID (snapshot env 0))
               = GetLatestWelcomeMessageID (snapshot env 0)).
  { apply u64_small. unfold GetLatestWelcomeMessageID. unfold_widths; lia. }
  rewrite Hu. fold (welcomeQueue env adds).
  destruct (welcomeQueue env adds) as [|q queue] eqn:Eq.
  { intros E. left. destruct fuel; simpl in E; by injection E as <-. }
  destruct (slotGranted env).
  - intros E. right; right. split; [|split; [done|exact E]].
    assert (Hq : q ∈ welcomeQueue env adds) by (rewrite Eq; left).
    unfold welcomeQueue in Hq. apply list_elem_of_filter in Hq as [Hlt Hq].
    rewrite Forall_forall in Hu64. specialize (Hu64 q Hq). unfold is_u64 in Hu64.
    unfold refreshCeiling, GetLatestWelcomeMessageID in *.
    destruct (queryErr env 1); simpl; [lia|]. case_bool_decide; lia.
  - intros [= <-]. right; left. by intros b ?%elem_of_nil.
Qed.

(** C29. A welcome scan that reports done has replayed everything it answers for, as a group scan
    has: each installation whose cursor was behind the newest welcome gets the message of every
    row above its cursor up to the pinned ceiling, once and in ascending order. Rows of an unknown
    type have no message but do not end or truncate the replay, even where they fill a whole
    turn. *)
Theorem catch_up_welcomes_complete t env S fuel adds wave out :
  welcomes_pinned env adds S → welcome_adds adds →
  catchUpWelcomes t env fuel adds wave = Some out → (∃ b, b ∈ out ∧ cb_done b = true) →
  ∃ history, out = history ++ [doneMarker wave] ∧
    Forall (λ b, cb_wave b = wave ∧ cb_done b = false ∧ cb_err b = None ∧ cb_groupMsgs b = []
      ∧ cb_welcomeMsgs b ≠ []
      ∧ Z.of_nat (length (cb_welcomeMsgs b))
          ≤ atLeast1 (scanBatchTopics t) * atLeast1 (scanTopicPageLimit t)
      ∧ cb_bytes b = welcomeBytes (cb_welcomeMsgs b)
      ∧ ascending welcomeID (cb_welcomeMsgs b)) history ∧
    (∀ m, m ∈ history ≫= cb_welcomeMsgs → welcomeInstallationKey m ∈ wc_InstallationKey <$> adds) ∧
    (∀ a, a ∈ adds →
       filter (λ m, welcomeInstallationKey m = wc_InstallationKey a) (history ≫= cb_welcomeMsgs)
       = if decide (wc_IdCursor a < GetLatestWelcomeMessageID (snapshot env 0))
         then omap toWelcomeMessage (above w_ID (wc_IdCursor a)
                (topicRows w_InstallationKey w_ID S (wc_InstallationKey a)))
         else []).
Proof.
  intros [Hwf Hpin] [Hnd Hu64] E Hdone.
  destruct (catchUpWelcomes_turns _ _ _ _ _ _ Hwf Hu64 E) as [[-> Hq]|[Hno|(Hc & Hq & E')]].
  - exists []. split; [done|]. split; [constructor|]. split; [by intros m ?%elem_of_nil|].
    intros a Ha. rewrite decide_False; [done|]. intros Hlt.
    assert (Hin : a ∈ welcomeQueue env adds) by (by apply list_elem_of_filter).
    rewrite Hq in Hin. by apply elem_of_nil in Hin.
  - destruct Hdone as (b & Hb & Hd). by rewrite (Hno b Hb) in Hd.
  - assert (Hok : Forall welcomeOk (welcomeQueue env adds)).
    { apply Forall_forall. intros a [Hlt Ha]%list_elem_of_filter.
      rewrite Forall_forall in Hu64. specialize (Hu64 a Ha). unfold is_u64, welcomeOk in *.
      pose proof (latest_bounds w_ID _ _ (wf_welcome_ids _ (Hwf 0%nat))).
      unfold GetLatestWelcomeMessageID in Hlt. lia. }
    assert (Hd : NoDup (welcomePair <$> welcomeQueue env adds).*1).
    { rewrite <- list_fmap_compose. by apply fmap_filter_NoDup. }
    destruct (welcomeTurns_complete env _ _ _ wave S Hwf Hpin Hc (atLeast1_pos _) (atLeast1_pos _)
      _ _ _ _ Hok Hd E' Hdone) as (turns & -> & Hturns & Hkeys & Hrows).
    exists (omap (welcomePack wave) turns). split; [done|]. split.
    { apply (welcomePack_batches env _ _ (welcomeCeiling env adds) wave S Hwf Hpin); try done; apply atLeast1_pos. }
    rewrite welcomePack_msgs. split.
    + intros m (r & Hr & Em)%list_elem_of_omap. specialize (Hkeys r Hr).
      apply list_elem_of_fmap in Hkeys as (a & Ea & [_ Ha]%list_elem_of_filter).
      rewrite (toWelcomeMessage_key r m), Ea by done.
      by apply list_elem_of_fmap_2.
    + intros a Ha. rewrite (omap_filter_comm _ _ (λ r, w_InstallationKey r = wc_InstallationKey a))
        by (by intros r m ->%toWelcomeMessage_key).
      case_decide as Hlt.
      * f_equal. apply Hrows. by apply list_elem_of_filter.
      * rewrite filter_drop_all; [done|]. intros r Hr Ek. specialize (Hkeys r Hr).
        apply list_elem_of_fmap in Hkeys as (a' & Ea & [Hlt' Ha']%list_elem_of_filter).
        assert (a = a') as ->; [|done].
        apply (NoDup_fmap_fst_inj wc_InstallationKey adds); [done..|congruence].
Qed.

(** A welcome scan ends: on a stream that stays up and with queries that succeed, it hands over
    its done marker after at most one turn per topic and per message up to the ceiling. *)
Theorem catch_up_welcomes_ends t env S fuel adds wave :
  welcomes_pinned env adds S → welcome_adds adds →
  (∀ k, queryErr env k = None) → slotGranted env = true → (∀ k, streamAlive env k = true) →
  (∀ k, bytesGranted env k = true) → (length adds + length S ≤ fuel)%nat →
  ∃ out, catchUpWelcomes t env fuel adds wave = Some out ∧ doneMarker wave ∈ out.
Proof.
  intros [Hwf Hpin] [Hnd Hu64] He Hs Ha Hg Hf.
  pose proof (latest_bounds w_ID _ _ (wf_welcome_ids _ (Hwf 0%nat))) as H0.
  pose proof (latest_bounds w_ID _ _ (wf_welcome_ids _ (Hwf 1%nat))) as H1.
  assert (Hu : u64 (GetLatestWelcomeMessageID (snapshot env 0))
               = GetLatestWelcomeMessageID (snapshot env 0)).
  { apply u64_small. unfold GetLatestWelcomeMessageID. unfold_widths; lia. }
  unfold catchUpWelcomes. rewrite !He. simpl. rewrite Hu. fold (welcomeQueue env adds).
  unfold welcomeCeiling in Hpin. rewrite He in Hpin. simpl in Hpin.
  assert (Hlen : (length (welcomeQueue env adds) ≤ length adds)%nat) by apply length_filter.
  assert (Hok : Forall welcomeOk (welcomeQueue env adds) ∧
    NoDup (welcomePair <$> welcomeQueue env adds).*1 ∧
    (welcomeQueue env adds ≠ [] → 0 < GetLatestWelcomeMessageID (snapshot env 0))).
  { split_and!.
    - apply Forall_forall. intros a [Hlt Hin]%list_elem_of_filter.
      rewrite Forall_forall in Hu64. specialize (Hu64 a Hin). unfold is_u64, welcomeOk in *.
      unfold GetLatestWelcomeMessageID in Hlt. lia.
    - rewrite <- list_fmap_compose. by apply fmap_filter_NoDup.
    - destruct (welcomeQueue env adds) as [|a l] eqn:E; [done|]. intros _.
      assert (Hin : a ∈ welcomeQueue env adds) by (rewrite E; left).
      apply list_elem_of_filter in Hin as [Hlt Hin]. rewrite Forall_forall in Hu64.
      specialize (Hu64 a Hin). unfold is_u64 in Hu64. lia. }
  destruct Hok as (Hok & Hd & Hpos).
  destruct (welcomeQueue env adds) as [|q queue]; [by exists [doneMarker wave]; split;
    [destruct fuel|left]|].
  rewrite Hs. specialize (Hpos ltac:(done)).
  eapply welcomeTurns_ends; try done; [|apply atLeast1_pos..|lia].
  unfold refreshCeiling, GetLatestWelcomeMessageID in *. case_bool_decide; lia.
Qed.

(** * Concrete inputs *)

Lemma catch_up_welcomes_complete_witness :
  ∃ history,
    catchUpWelcomes sampleTunables sampleEnv 20 [mkWelcomeCatchup "k" 0] 5
    = Some (history ++ [doneMarker 5]) ∧
    welcomeID <$> filter (λ m, welcomeInstallationKey m = "k") (history ≫= cb_welcomeMsgs) = [2].
Proof.
  set (adds := [mkWelcomeCatchup "k" 0]).
  destruct (catchUpWelcomes sampleTunables sampleEnv 20 adds 5) as [out|] eqn:E;
    [|vm_compute in E; discriminate].
  destruct (catch_up_welcomes_complete sampleTunables sampleEnv (welcome_messages sampleDb) 20
    adds 5 out) as (history & -> & _ & _ & H).
  - split; [intros; exact sampleDb_wf|]. intros k. by vm_compute.
  - split; [apply (bool_decide_unpack _); by vm_compute|].
    unfold is_u64. repeat constructor; simpl; lia.
  - exact E.
  - exists (doneMarker 5). split; [|done]. vm_compute in E. injection E as <-. right; left.
  - exists history. split; [done|].
    etrans; [exact (f_equal (fmap (M:=list) welcomeID) (H (mkWelcomeCatchup "k" 0) ltac:(left)))|].
    by vm_compute.
Defined.

Lemma catch_up_welcomes_ends_witness :
  ∃ out, catchUpWelcomes sampleTunables sampleEnv 3 [mkWelcomeCatchup "k" 0] 5 = Some out
         ∧ doneMarker 5 ∈ out.
Proof.
  apply (catch_up_welcomes_ends sampleTunables sampleEnv (welcome_messages sampleDb)); try done.
  - split; [intros; exact sampleDb_wf|]. intros k. by vm_compute.
  - split; [apply (bool_decide_unpack _); by vm_compute|].
    unfold is_u64. repeat constructor; simpl; lia.
Defined.
