(* ===== verification/ByteBudget.v ===== *)
(** The byte budget of the catch-up lane (reserveCatchUpBytes and freeCatchUpBytes in
    pkg/mls/api/v1/subscribe.go): concurrent fetchers reserve a turn's bytes with a
    compare-and-swap loop, park on a one-slot wake-up channel when the turn does not fit, and the
    writer frees what it takes. Every atomic operation is one step, so the interleavings of the
    fetchers and the writer are all there. *)

From S2P Require Import Prelude.

(** Where a fetcher stands: between turns, about to load the counter for a turn of [n] bytes,
    about to act on the value it loaded, or parked. *)
Inductive phase :=
  | Idle
  | Want (n : Z)
  | Loaded (n cur : Z)
  | Parked (n : Z).

#[export] Instance phase_eq_dec : EqDecision phase.
Proof. solve_decision. Defined.

(** The shared state, and the reserved turns the writer has not freed yet. *)
Record lane := mkLane {
  catchUpBytes : Z;
  catchUpBytesFreed : bool;   (* the wake-up channel holds its one token *)
  fetchers : gmap nat phase;
  reserved : list Z;
}.

#[export] Instance lane_eta : Eta lane :=
  λ s, mkLane (catchUpBytes s) (catchUpBytesFreed s) (fetchers s) (reserved s).

Inductive label :=
  | Query (i : nat) (n : Z)   (* a fetcher has a turn of n bytes *)
  | Load (i : nat)
  | Try (i : nat)             (* the test on the loaded value, and the compare-and-swap *)
  | Wake (i : nat)
  | Free (n : Z).             (* the writer takes a batch *)

Definition initLane : lane := mkLane 0 false ∅ [].

(** The budget, guarded against a non-positive tunable. *)
Definition byteBudget (scanMaxPendingBytes : Z) : Z :=
  if bool_decide (scanMaxPendingBytes < 1) then 1 else scanMaxPendingBytes.

Definition setPhase (i : nat) (p : phase) (s : lane) : lane :=
  s <| fetchers := <[i := p]> (fetchers s) |>.

Definition tryReserve (budget : Z) (i : nat) (n cur : Z) (s : lane) : lane :=
  if bool_decide (cur = 0 ∨ cur + n ≤ budget) then
    if bool_decide (catchUpBytes s = cur)
    then setPhase i Idle (s <| catchUpBytes := cur + n |> <| reserved := n :: reserved s |>)
    else setPhase i (Want n) s
  else setPhase i (Parked n) s.

Definition freeCatchUpBytes (n : Z) (s : lane) : lane :=
  if bool_decide (n = 0) then s
  else s <| catchUpBytes := catchUpBytes s - n |> <| catchUpBytesFreed := true |>.

(** Removing one reservation of [n] bytes. *)
Fixpoint removeOne (n : Z) (l : list Z) : option (list Z) :=
  match l with
  | [] => None
  | m :: l => if decide (m = n) then Some l else cons m <$> removeOne n l
  end.

Definition step (budget : Z) (a : label) (s : lane) : option lane :=
  match a with
  | Query i n =>
      match fetchers s !! i with
      | None | Some Idle => if bool_decide (0 ≤ n) then Some (setPhase i (Want n) s) else None
      | _ => None
      end
  | Load i =>
      match fetchers s !! i with
      | Some (Want n) => Some (setPhase i (Loaded n (catchUpBytes s)) s)
      | _ => None
      end
  | Try i =>
      match fetchers s !! i with
      | Some (Loaded n cur) => Some (tryReserve budget i n cur s)
      | _ => None
      end
  | Wake i =>
      match fetchers s !! i with
      | Some (Parked n) =>
          if catchUpBytesFreed s
          then Some (setPhase i (Want n) (s <| catchUpBytesFreed := false |>)) else None
      | _ => None
      end
  | Free n =>
      match removeOne n (reserved s) with
      | Some rest => Some (freeCatchUpBytes n (s <| reserved := rest |>))
      | None => None
      end
  end.

Fixpoint exec (budget : Z) (as_ : list label) (s : lane) : option lane :=
  match as_ with
  | [] => Some s
  | a :: as_ => match step budget a s with Some s => exec budget as_ s | None => None end
  end.

(** * Invariants *)

Definition total (l : list Z) : Z := foldr Z.add 0 l.

Lemma removeOne_Permutation n l rest : removeOne n l = Some rest → l ≡ₚ n :: rest.
Proof.
  revert rest. induction l as [|m l IH]; intros rest; simpl; [done|].
  case_decide as E; [by intros [= <-]; subst|].
  destruct (removeOne n l) as [rest'|] eqn:Er; simpl; [|done]. intros [= <-].
  rewrite (IH rest' eq_refl). constructor.
Qed.

Lemma removeOne_elem n l : n ∈ l → is_Some (removeOne n l).
Proof.
  induction l as [|m l IH]; [by intros ?%elem_of_nil|]. intros Hn. simpl.
  case_decide; [done|]. apply elem_of_cons in Hn as [->|Hn]; [done|].
  destruct (IH Hn) as [rest ->]. done.
Qed.

#[export] Instance total_Permutation : Proper ((≡ₚ) ==> (=)) total.
Proof. intros l1 l2 E. unfold total. induction E; simpl; lia. Qed.

Lemma total_nonneg l : Forall (λ n, 0 ≤ n) l → 0 ≤ total l.
Proof. induction 1; simpl; unfold total in *; simpl; lia. Qed.

Lemma total_zero l : Forall (λ n, 0 ≤ n) l → total l = 0 → Forall (λ n, n = 0) l.
Proof.
  induction 1 as [|n l Hn Hl IH]; [done|]. unfold total. simpl. fold (total l). intros E.
  pose proof (total_nonneg l Hl). constructor; [lia|]. apply IH. lia.
Qed.

Definition phase_size (p : phase) : Z :=
  match p with Idle => 0 | Want n | Loaded n _ | Parked n => n end.

Record accounted (budget : Z) (s : lane) : Prop := {
  acc_total : catchUpBytes s = total (reserved s);
  acc_reserved : Forall (λ n, 0 ≤ n) (reserved s);
  acc_sizes : ∀ i p, fetchers s !! i = Some p → 0 ≤ phase_size p;
  acc_bound : catchUpBytes s ≤ budget
    ∨ ∃ n rest, reserved s ≡ₚ n :: rest ∧ Forall (λ m, m = 0) rest;
}.

Lemma setPhase_accounted budget i p s :
  accounted budget s → 0 ≤ phase_size p → accounted budget (setPhase i p s).
Proof.
  intros [H1 H2 H3 H4] Hp. split; simpl; [done..| |done].
  intros j q [[<- <-]|[_ ?]]%lookup_insert_Some; eauto.
Qed.

Lemma step_accounted budget a s s' :
  1 ≤ budget → accounted budget s → step budget a s = Some s' → accounted budget s'.
Proof.
  intros Hb Hacc. pose proof Hacc as [H1 H2 H3 H4].
  destruct a as [i n|i|i|i|n]; simpl.
  - intros E. assert (Hn : s' = setPhase i (Want n) s ∧ 0 ≤ n)
      by (destruct (fetchers s !! i) as [[]|]; try done; case_bool_decide; by simplify_eq).
    destruct Hn as [-> Hn]. by apply setPhase_accounted.
  - destruct (fetchers s !! i) as [[|n| |]|] eqn:E; intros ?; simplify_eq.
    apply setPhase_accounted; [done|]. by apply (H3 i) in E.
  - destruct (fetchers s !! i) as [[| |n cur|]|] eqn:E; intros ?; simplify_eq.
    assert (Hn : 0 ≤ n) by (by apply (H3 i) in E). unfold tryReserve.
    case_bool_decide as Hfit; [|by apply setPhase_accounted].
    case_bool_decide as Hcas; [|by apply setPhase_accounted].
    apply setPhase_accounted; [|done]. split; simpl; [|by constructor|done|].
    + unfold total in *. simpl. lia.
    + destruct Hfit as [->|Hfit]; [|by left]. right. exists n, (reserved s). split; [done|].
      apply total_zero; [done|lia].
  - destruct (fetchers s !! i) as [[| | |n]|] eqn:E; try done.
    destruct (catchUpBytesFreed s); intros ?; simplify_eq.
    apply setPhase_accounted; [by split|]. by apply (H3 i) in E.
  - destruct (removeOne n (reserved s)) as [rest|] eqn:E; intros ?; simplify_eq.
    apply removeOne_Permutation in E. rewrite E in H2. apply Forall_cons in H2 as [Hn Hrest].
    assert (Ht : catchUpBytes s = n + total rest) by (rewrite H1, E; done).
    assert (Hbound : catchUpBytes s - n ≤ budget
      ∨ ∃ m rest', rest ≡ₚ m :: rest' ∧ Forall (λ k, k = 0) rest').
    { destruct H4 as [?|(m & rest' & E' & Hz)]; [left; lia|]. rewrite E in E'.
      pose proof (total_nonneg rest' ltac:(eapply Forall_impl; [exact Hz|simpl; lia])).
      assert (Hm : total rest' = 0).
      { clear -Hz. induction Hz as [|k l -> _ IH]; [done|]. unfold total in *. simpl. lia. }
      destruct (decide (m = n)) as [->|Hne].
      - apply Permutation.Permutation_cons_inv in E'. rewrite E', Hm in Ht. left. lia.
      - assert (Hin : n ∈ m :: rest') by (rewrite <- E'; left).
        apply elem_of_cons in Hin as [?|Hin]; [congruence|].
        right. assert (n = 0) as -> by (rewrite Forall_forall in Hz; auto).
        apply elem_of_Permutation in Hin as [r'' Er]. exists m, r''. split.
        + rewrite Er in E'. apply (Permutation.Permutation_cons_inv (a := 0)).
          rewrite E'. constructor.
        + rewrite Er in Hz. by apply Forall_cons in Hz as [_ ?]. }
    unfold freeCatchUpBytes. case_bool_decide as Hz.
    + subst n. split; simpl; [lia|done|done|].
      destruct Hbound as [?|?]; [left; lia|by right].
    + split; simpl; [lia|done|done|done].
Qed.

(** ** Every parked fetcher is owed a wake-up *)

Definition busy (p : phase) : bool :=
  match p with Want _ => true | Loaded _ cur => bool_decide (cur = 0) | _ => false end.

(** A fetcher that has parked, or loaded a value that may make it park. *)
Definition waiting (p : phase) : bool :=
  match p with Parked _ => true | Loaded _ cur => bool_decide (cur ≠ 0) | _ => false end.

Definition has_size (p : phase) : Prop := p = Idle ∨ 0 < phase_size p.

Record awake (s : lane) : Prop := {
  aw_total : catchUpBytes s = total (reserved s);
  aw_reserved : Forall (λ n, 0 < n) (reserved s);
  aw_sizes : ∀ i p, fetchers s !! i = Some p → has_size p;
  aw_owed : (∃ i p, fetchers s !! i = Some p ∧ waiting p = true) →
    catchUpBytesFreed s = true ∨ 0 < catchUpBytes s
    ∨ ∃ i p, fetchers s !! i = Some p ∧ busy p = true;
}.

(** A fetcher that becomes busy settles the debt; so does one that waits while bytes are held. *)
Lemma awake_busy i p s s' :
  awake s → has_size p → busy p = true → catchUpBytes s' = total (reserved s') →
  Forall (λ n, 0 < n) (reserved s') → fetchers s' = <[i := p]> (fetchers s) → awake s'.
Proof.
  intros [_ _ H _] Hp Hb ? ? Ef. split; [done..| |].
  - rewrite Ef. intros j q [[<- <-]|[_ ?]]%lookup_insert_Some; eauto.
  - intros _. right; right. exists i, p. by rewrite Ef, lookup_insert_eq.
Qed.

Lemma awake_held i p s s' :
  awake s → has_size p → 0 < catchUpBytes s' → catchUpBytes s' = total (reserved s') →
  Forall (λ n, 0 < n) (reserved s') → fetchers s' = <[i := p]> (fetchers s) → awake s'.
Proof.
  intros [_ _ H _] Hp Hb ? ? Ef. split; [done..| |].
  - rewrite Ef. intros j q [[<- <-]|[_ ?]]%lookup_insert_Some; eauto.
  - intros _. by right; left.
Qed.

Lemma total_pos l : Forall (λ n, 0 < n) l → l ≠ [] → 0 < total l.
Proof.
  destruct 1 as [|n l Hn Hl]; [done|]. intros _. unfold total. simpl. fold (total l).
  assert (0 ≤ total l) by (apply total_nonneg; eapply Forall_impl; [done|simpl; lia]). lia.
Qed.

Definition sized (a : label) : Prop := match a with Query _ n => 0 < n | _ => True end.

Lemma step_awake budget a s s' :
  sized a → awake s → step budget a s = Some s' → awake s'.
Proof.
  intros Ha Haw. pose proof Haw as [H1 H2 H3 H4]. destruct a as [i n|i|i|i|n]; simpl in *.
  - intros E. assert (s' = setPhase i (Want n) s) as ->
      by (destruct (fetchers s !! i) as [[]|]; try done; case_bool_decide; by simplify_eq).
    eapply (awake_busy i (Want n) s); try done. by right.
  - destruct (fetchers s !! i) as [[|n| |]|] eqn:E; intros ?; simplify_eq.
    assert (Hn : has_size (Loaded n (catchUpBytes s))).
    { destruct (H3 i _ E) as [?|?]; [done|by right]. }
    destruct (decide (catchUpBytes s = 0)) as [Ez|Ez].
    + eapply (awake_busy i _ s); try done. simpl. by rewrite bool_decide_true.
    + eapply (awake_held i _ s); try done. simpl. destruct (reserved s) as [|m l]; [done|].
      rewrite H1. by apply total_pos.
  - destruct (fetchers s !! i) as [[| |n cur|]|] eqn:E; intros ?; simplify_eq.
    assert (Hn : 0 < n) by (destruct (H3 i _ E) as [?|?]; done).
    unfold tryReserve. case_bool_decide as Hfit; [case_bool_decide as Hcas|].
    + eapply (awake_held i Idle s); [done|by left|..|done]; simpl.
      * assert (0 ≤ total (reserved s)); [|lia].
        apply total_nonneg. eapply Forall_impl; [done|simpl; lia].
      * unfold total in *. simpl. lia.
      * by constructor.
    + eapply (awake_busy i (Want n) s); try done. by right.
    + assert (Hcur : cur ≠ 0) by tauto.
      assert (Ho := H4 (ex_intro _ i (ex_intro _ _ (conj E (bool_decide_eq_true_2 _ Hcur))))).
      split; simpl; [done..| |].
      * intros j q [[<- <-]|[_ ?]]%lookup_insert_Some; [by right|eauto].
      * intros _. destruct Ho as [?|[?|(j & q & Hj & Hq)]]; [by left|by right; left|].
        right; right. exists j, q. split; [|done]. rewrite lookup_insert_ne; [done|].
        intros <-. rewrite E in Hj. injection Hj as <-. simpl in Hq.
        by apply bool_decide_eq_true in Hq.
  - destruct (fetchers s !! i) as [[| | |n]|] eqn:E; try done.
    destruct (catchUpBytesFreed s); intros ?; simplify_eq.
    eapply (awake_busy i (Want n) s); try done. destruct (H3 i _ E) as [?|?]; [done|by right].
  - destruct (removeOne n (reserved s)) as [rest|] eqn:E; intros ?; simplify_eq.
    apply removeOne_Permutation in E. rewrite E in H2. apply Forall_cons in H2 as [Hn Hrest].
    assert (Ht : catchUpBytes s = n + total rest) by (rewrite H1, E; done).
    unfold freeCatchUpBytes. rewrite bool_decide_false by lia.
    split; simpl; [lia|done|done|by left].
Qed.

Lemma exec_preserves (P : lane → Prop) (Q : label → Prop) budget as_ s s' :
  (∀ a s s', Q a → P s → step budget a s = Some s' → P s') →
  Forall Q as_ → P s → exec budget as_ s = Some s' → P s'.
Proof.
  intros Hstep Hq. revert s. induction Hq as [|a as_ Ha _ IH]; intros s Hs E; simpl in E.
  - by injection E as <-.
  - destruct (step budget a s) as [s1|] eqn:E1; [|done]. eauto.
Qed.

(** The catch-up lane's byte bound, under every interleaving of fetchers and writer: the
    counter is the sum of the reserved turns that the writer has not taken yet, and it never
    exceeds the budget unless it is the size of one single turn, which holds the lane alone. *)
Theorem catch_up_bytes_bounded scanMaxPendingBytes as_ s :
  exec (byteBudget scanMaxPendingBytes) as_ initLane = Some s →
  catchUpBytes s = total (reserved s) ∧ 0 ≤ catchUpBytes s ∧
  (catchUpBytes s ≤ byteBudget scanMaxPendingBytes ∨ catchUpBytes s ∈ reserved s).
Proof.
  intros E. assert (Hb : 1 ≤ byteBudget scanMaxPendingBytes)
    by (unfold byteBudget; case_bool_decide; lia).
  assert (Hacc : accounted (byteBudget scanMaxPendingBytes) s).
  { apply (exec_preserves (accounted (byteBudget scanMaxPendingBytes)) (λ _, True) _ as_ initLane) in E; [done|..].
    - intros a s1 s2 _. by apply step_accounted.
    - by apply Forall_true.
    - split; simpl; [done|constructor|by intros ? ? ?%lookup_empty_Some|left; lia]. }
  destruct Hacc as [H1 H2 _ H4]. split; [done|]. split; [rewrite H1; by apply total_nonneg|].
  destruct H4 as [?|(n & rest & Er & Hz)]; [by left|]. right.
  assert (Hm : total rest = 0).
  { clear -Hz. induction Hz as [|k l -> _ IH]; [done|]. unfold total in *. simpl. lia. }
  assert (Ht : total (reserved s) = n) by (rewrite Er; unfold total in *; simpl; lia).
  rewrite H1, Ht, Er. left.
Qed.

(** No fetcher parks forever: as long as every turn carries payload bytes, a reachable lane
    with a parked fetcher always has an enabled step that is not a new query (a wake-up, a
    fetcher re-checking the budget, or the writer freeing a reserved turn). *)
Theorem parked_fetcher_progresses scanMaxPendingBytes as_ s i n :
  exec (byteBudget scanMaxPendingBytes) as_ initLane = Some s → Forall sized as_ →
  fetchers s !! i = Some (Parked n) →
  ∃ a, (∀ j m, a ≠ Query j m) ∧ is_Some (step (byteBudget scanMaxPendingBytes) a s).
Proof.
  intros E Hs Hi.
  assert (Haw : awake s).
  { apply (exec_preserves awake sized _ as_ initLane) in E; [done| |done|].
    - intros a s1 s2. apply step_awake.
    - split; simpl; [done|constructor|by intros ? ? ?%lookup_empty_Some|].
      by intros (? & ? & ?%lookup_empty_Some & _). }
  destruct Haw as [H1 H2 H3 H4].
  destruct H4 as [Ht|[Hb|(j & p & Hj & Hp)]]; [by exists i, (Parked n)| | |].
  - exists (Wake i). split; [done|]. simpl. by rewrite Hi, Ht.
  - destruct (reserved s) as [|m l] eqn:Er; [rewrite H1 in Hb; done|].
    exists (Free m). split; [done|]. simpl. rewrite Er. simpl. by rewrite decide_True.
  - destruct p as [|m|m cur|m]; try done.
    + exists (Load j). split; [done|]. simpl. by rewrite Hj.
    + exists (Try j). split; [done|]. simpl. by rewrite Hj.
Qed.

(** The run in which a turn without payload bytes swallows the only wake-up: fetcher 1 holds a
    turn over the budget, 2 (with an empty turn) and 3 park, freeing 1's turn wakes 2, which
    reserves nothing, and freeing nothing wakes nobody. *)
Definition lostWakeup : list label :=
  [Query 1 20; Load 1; Try 1; Query 2 0; Load 2; Try 2; Query 3 5; Load 3; Try 3; Free 20;
   Wake 2; Load 2; Try 2; Free 0].

(** A turn without payload bytes can lose a wake-up: in a reachable lane with nothing
    reserved, a fetcher stays parked although its turn fits the budget, and no step but a new
    query is enabled. *)
Theorem empty_turn_loses_wakeup :
  ∃ s, exec (byteBudget 10) lostWakeup initLane = Some s ∧
    fetchers s !! 3%nat = Some (Parked 5) ∧ catchUpBytes s = 0 ∧ reserved s = [] ∧
    ∀ a, is_Some (step (byteBudget 10) a s) → ∃ j m, a = Query j m.
Proof.
  set (m := <[1%nat := Idle]> (<[2%nat := Idle]> (<[3%nat := Parked 5]> (∅ : gmap nat phase)))).
  exists (mkLane 0 false m []). split; [by vm_compute|]. split_and!; [done..|].
  assert (Hm : ∀ j p, m !! j = Some p → p = Idle ∨ p = Parked 5).
  { intros j p. unfold m. rewrite !lookup_insert_Some, lookup_empty. naive_solver. }
  intros [j n|j|j|j|n]; [by exists j, n|..]; intros [s' E]; exfalso; revert E; cbn [step fetchers];
    [..|done]; destruct (m !! j) as [p|] eqn:E; try done;
    by destruct (Hm j p E) as [->| ->].
Qed.

Lemma catch_up_bytes_bounded_witness :
  ∃ s, exec (byteBudget 10) (take 3 lostWakeup) initLane = Some s ∧ catchUpBytes s = 20 ∧
  (catchUpBytes s ≤ byteBudget 10 ∨ catchUpBytes s ∈ reserved s).
Proof.
  destruct (exec (byteBudget 10) (take 3 lostWakeup) initLane) as [s|] eqn:E;
    [|vm_compute in E; discriminate].
  exists s. split; [done|]. split.
  - vm_compute in E. by injection E as <-.
  - exact (proj2 (proj2 (catch_up_bytes_bounded 10 _ s E))).
Defined.

Lemma parked_fetcher_progresses_witness :
  ∃ s a, exec (byteBudget 10)
    [Query 1 20; Load 1; Try 1; Query 2 3; Load 2; Try 2] initLane = Some s ∧
    is_Some (step (byteBudget 10) a s).
Proof.
  destruct (exec (byteBudget 10) [Query 1 20; Load 1; Try 1; Query 2 3; Load 2; Try 2] initLane)
    as [s|] eqn:E; [|vm_compute in E; discriminate].
  destruct (parked_fetcher_progresses 10 _ s 2 3 E) as (a & _ & Ha).
  - repeat constructor.
  - vm_compute in E. by injection E as <-.
  - by exists s, a.
Defined.
