(* ===== verification/CatchUpLane.v ===== *)
(** The catch-up lane of a Subscribe stream (pkg/mls/api/v1/subscribe.go) as a whole: any number of
    scans that compete for the fetch slots (acquireScanSlot), reserve the bytes of each turn
    (ByteBudget.v), hand their batches over a bounded channel (forward) to the writer, which frees
    what it takes, and quit when the stream dies. Every schedule is a run ([laneRun]): the lane's
    bounds hold in all of them, none can go on for ever, and one that is stuck is finished. *)

From S2P Require Import Prelude ByteBudget.

(** * The lane *)

Definition catchUpChannelBuffer : nat := 4.

(** The cap on slots, guarded against a non-positive tunable. *)
Definition maxScans (scanMaxConcurrent : Z) : Z :=
  if bool_decide (scanMaxConcurrent < 1) then 1 else scanMaxConcurrent.

(** A batch: the payload bytes of a turn's messages, the done marker, or a query's error. *)
Inductive batch := Turn (n : Z) | Done | Failed.

#[export] Instance batch_eq_dec : EqDecision batch.
Proof. solve_decision. Defined.

(** Where a scan stands. Its [turns] are the bytes of the turns it has not fetched; a turn without
    messages hands nothing over and is left out. *)
Inductive stage :=
  | Current                            (* all cursors at the ceiling: no slot needed *)
  | Stale (turns : list Z)             (* rows to replay, no slot yet *)
  | Scanning (turns : list Z)
  | Reserving (n : Z) (turns : list Z) (* in reserveCatchUpBytes *)
  | Reserved (n : Z) (turns : list Z)  (* about to forward the turn *)
  | Failing (slot : bool)              (* about to forward the error *)
  | Releasing                          (* returning, with a slot *)
  | Finished.

#[export] Instance stage_eq_dec : EqDecision stage.
Proof. solve_decision. Defined.

Definition holdsSlot (s : stage) : bool :=
  match s with
  | Scanning _ | Reserving _ _ | Reserved _ _ | Releasing => true
  | Failing slot => slot
  | _ => false
  end.

Record fetchLane := mkFetchLane {
  l_bytes : lane;                        (* catchUpBytes and its wake-up channel *)
  scanSlots : Z;                         (* how many slots are taken *)
  scans : gmap nat stage;
  catchUpCh : list (nat * batch);
  writerHas : option (nat * batch);      (* received, not freed yet *)
  taken : list (nat * batch);
  streamDead : bool;
}.

#[export] Instance fetchLane_eta : Eta fetchLane := λ l,
  mkFetchLane (l_bytes l) (scanSlots l) (scans l) (catchUpCh l) (writerHas l) (taken l) (streamDead l).

(** The atomic operations of reserveCatchUpBytes. *)
Inductive reserveOp := OpLoad | OpTry | OpWake.
Definition labelOf (op : reserveOp) (i : nat) : label :=
  match op with OpLoad => Load i | OpTry => Try i | OpWake => Wake i end.

Inductive action :=
  | Acquire (i : nat)
  | NextTurn (i : nat)                   (* the query of a turn that has messages *)
  | Reserve (op : reserveOp) (i : nat)
  | Put (i : nat)                        (* forward, into the channel *)
  | Release (i : nat)
  | Receive                              (* the writer takes a batch from the channel *)
  | Consume                              (* and frees its bytes, or fails the stream *)
  | Skip (i : nat)                       (* forward, on a dead stream *)
  | Abandon (i : nat)                    (* the other returns on a dead stream *)
  | QueryFails (i : nat)
  | Die.

Definition setScan (i : nat) (s : stage) (l : fetchLane) : fetchLane :=
  l <| scans := <[i := s]> (scans l) |>.

(** What a scan forwards next, and where it goes on. *)
Definition forwards (s : stage) : option (batch * stage) :=
  match s with
  | Current => Some (Done, Finished)
  | Scanning [] => Some (Done, Releasing)
  | Reserved n turns => Some (Turn n, Scanning turns)
  | Failing slot => Some (Failed, if slot then Releasing else Finished)
  | _ => None
  end.

Definition abandon (i : nat) (s : stage) (l : fetchLane) : option fetchLane :=
  match s with
  | Current | Stale _ => Some (setScan i Finished l)
  | Scanning _ => Some (setScan i Releasing l)
  | Reserving n _ =>
      match fetchers (l_bytes l) !! i with
      | Some (Parked _) =>
          Some (setScan i Releasing (l <| l_bytes := setPhase i Idle (l_bytes l) |>))
      | _ => None
      end
  | _ => None
  end.

Section Lane.
Context (budget cap : Z).

Definition laneStep (a : action) (l : fetchLane) : option fetchLane :=
  match a with
  | Acquire i =>
      match scans l !! i with
      | Some (Stale turns) =>
          if bool_decide (scanSlots l < cap)
          then Some (setScan i (Scanning turns) (l <| scanSlots := scanSlots l + 1 |>)) else None
      | _ => None
      end
  | NextTurn i =>
      match scans l !! i with
      | Some (Scanning (n :: turns)) =>
          b ← step budget (Query i n) (l_bytes l);
          Some (setScan i (Reserving n turns) (l <| l_bytes := b |>))
      | _ => None
      end
  | Reserve op i =>
      match scans l !! i with
      | Some (Reserving n turns) =>
          b ← step budget (labelOf op i) (l_bytes l);
          Some (setScan i (if bool_decide (fetchers b !! i = Some Idle)
                           then Reserved n turns else Reserving n turns) (l <| l_bytes := b |>))
      | _ => None
      end
  | Put i =>
      s ← scans l !! i; '(b, s') ← forwards s;
      if bool_decide (length (catchUpCh l) < catchUpChannelBuffer)%nat
      then Some (setScan i s' (l <| catchUpCh := catchUpCh l ++ [(i, b)] |>)) else None
  | Release i =>
      match scans l !! i with
      | Some Releasing => Some (setScan i Finished (l <| scanSlots := scanSlots l - 1 |>))
      | _ => None
      end
  | Receive =>
      match writerHas l, catchUpCh l with
      | None, b :: rest => Some (l <| writerHas := Some b |> <| catchUpCh := rest |>)
      | _, _ => None
      end
  | Consume =>
      match writerHas l with
      | Some (i, b) =>
          let l := l <| writerHas := None |> <| taken := taken l ++ [(i, b)] |> in
          match b with
          | Turn n => by_ ← step budget (Free n) (l_bytes l); Some (l <| l_bytes := by_ |>)
          | Done => Some l
          | Failed => Some (l <| streamDead := true |>)
          end
      | None => None
      end
  | Skip i =>
      if streamDead l then s ← scans l !! i; '(_, s') ← forwards s; Some (setScan i s' l) else None
  | Abandon i => if streamDead l then s ← scans l !! i; abandon i s l else None
  | QueryFails i =>
      match scans l !! i with
      | Some (Current | Stale _) => Some (setScan i (Failing false) l)
      | Some (Scanning _) => Some (setScan i (Failing true) l)
      | _ => None
      end
  | Die => if streamDead l then None else Some (l <| streamDead := true |>)
  end.

Fixpoint laneRun (as_ : list action) (l : fetchLane) : option fetchLane :=
  match as_ with
  | [] => Some l
  | a :: as_ => l ← laneStep a l; laneRun as_ l
  end.
End Lane.

(** What is to be replayed: nothing for a scan that is current, else the bytes of its turns. *)
Definition plan : Type := option (list Z).
Definition planStage (p : plan) : stage := match p with None => Current | Some turns => Stale turns end.
Definition planBatches (p : plan) : list batch := (Turn <$> default [] p) ++ [Done].

Definition startLane (plans : gmap nat plan) : fetchLane :=
  mkFetchLane initLane 0 (planStage <$> plans) [] None [] false.

(** The steps the lane takes by itself, as against a query that fails and a stream that dies. *)
Definition ownStep (a : action) : bool := match a with QueryFails _ | Die => false | _ => true end.

(** * Steps by what they change *)

Section Moves.
Context (budget cap : Z).

(** A scan's move: its stage before and after, the bytes' lane after, by how much the slots in use
    change, and what it puts in the channel. *)
Inductive scanMove (l : fetchLane) (i : nat) : stage → stage → lane → Z → list batch → Prop :=
  | Move_acquire turns :
      scanSlots l < cap → scanMove l i (Stale turns) (Scanning turns) (l_bytes l) 1 []
  | Move_turn n turns b :
      step budget (Query i n) (l_bytes l) = Some b →
      scanMove l i (Scanning (n :: turns)) (Reserving n turns) b 0 []
  | Move_reserve op n turns b :
      step budget (labelOf op i) (l_bytes l) = Some b →
      scanMove l i (Reserving n turns)
        (if bool_decide (fetchers b !! i = Some Idle) then Reserved n turns else Reserving n turns) b 0 []
  | Move_put s b s' :
      forwards s = Some (b, s') → (length (catchUpCh l) < catchUpChannelBuffer)%nat →
      scanMove l i s s' (l_bytes l) 0 [b]
  | Move_release : scanMove l i Releasing Finished (l_bytes l) (-1) []
  | Move_skip s b s' :
      streamDead l = true → forwards s = Some (b, s') → scanMove l i s s' (l_bytes l) 0 []
  | Move_abandon s s' :
      streamDead l = true → s' = match s with Scanning _ => Releasing | _ => Finished end →
      (s = Current ∨ (∃ turns, s = Stale turns) ∨ ∃ turns, s = Scanning turns) →
      scanMove l i s s' (l_bytes l) 0 []
  | Move_unpark n m turns :
      streamDead l = true → fetchers (l_bytes l) !! i = Some (Parked m) →
      scanMove l i (Reserving n turns) Releasing (setPhase i Idle (l_bytes l)) 0 []
  | Move_fails s slot :
      (slot = false ∧ (s = Current ∨ ∃ turns, s = Stale turns)
       ∨ slot = true ∧ ∃ turns, s = Scanning turns) →
      scanMove l i s (Failing slot) (l_bytes l) 0 [].

Inductive moves : fetchLane → fetchLane → Prop :=
  | Moves_scan l i s s' b d put :
      scans l !! i = Some s → scanMove l i s s' b d put →
      moves l (mkFetchLane b (scanSlots l + d) (<[i := s']> (scans l))
                 (catchUpCh l ++ ((i,.) <$> put)) (writerHas l) (taken l) (streamDead l))
  | Moves_receive l b rest :
      writerHas l = None → catchUpCh l = b :: rest →
      moves l (mkFetchLane (l_bytes l) (scanSlots l) (scans l) rest (Some b) (taken l) (streamDead l))
  | Moves_free l i n b :
      writerHas l = Some (i, Turn n) → step budget (Free n) (l_bytes l) = Some b →
      moves l (mkFetchLane b (scanSlots l) (scans l) (catchUpCh l) None (taken l ++ [(i, Turn n)])
                 (streamDead l))
  | Moves_done l i :
      writerHas l = Some (i, Done) →
      moves l (mkFetchLane (l_bytes l) (scanSlots l) (scans l) (catchUpCh l) None
                 (taken l ++ [(i, Done)]) (streamDead l))
  | Moves_failed l i :
      writerHas l = Some (i, Failed) →
      moves l (mkFetchLane (l_bytes l) (scanSlots l) (scans l) (catchUpCh l) None
                 (taken l ++ [(i, Failed)]) true)
  | Moves_die l :
      streamDead l = false →
      moves l (mkFetchLane (l_bytes l) (scanSlots l) (scans l) (catchUpCh l) (writerHas l) (taken l) true).

Lemma scan_moves l i s s' b d put l' :
  scans l !! i = Some s → scanMove l i s s' b d put →
  l' = mkFetchLane b (scanSlots l + d) (<[i := s']> (scans l)) (catchUpCh l ++ ((i,.) <$> put))
         (writerHas l) (taken l) (streamDead l) → moves l l'.
Proof. intros ? ? ->. by eapply Moves_scan. Qed.

Lemma abandon_moves i s l l' :
  streamDead l = true → scans l !! i = Some s → abandon i s l = Some l' → moves l l'.
Proof.
  intros Hd Hs Ha. destruct s as [|turns|turns|n turns| | | |]; simpl in Ha; try done.
  - injection Ha as <-. eapply scan_moves; [done|by eapply Move_abandon; [..|left]|].
    by rewrite Z.add_0_r, app_nil_r.
  - injection Ha as <-. eapply scan_moves; [done|eapply Move_abandon; [..|right; left]; eauto|].
    by rewrite Z.add_0_r, app_nil_r.
  - injection Ha as <-. eapply scan_moves; [done|eapply Move_abandon; [..|right; right]; eauto|].
    by rewrite Z.add_0_r, app_nil_r.
  - destruct (fetchers (l_bytes l) !! i) as [[| | |m]|] eqn:Hf; try done. injection Ha as <-.
    eapply scan_moves; [done|by eapply Move_unpark|]. by rewrite Z.add_0_r, app_nil_r.
Qed.

Lemma laneStep_moves a l l' : laneStep budget cap a l = Some l' → moves l l'.
Proof.
  intros H. destruct a as [i|i|op i|i|i| | |i|i|i|]; cbn [laneStep] in H.
  - destruct (scans l !! i) as [[|turns| | | | | |]|] eqn:Hs; try done.
    case_bool_decide as Hc; [|done]. injection H as <-.
    eapply scan_moves; [done|by eapply Move_acquire|]. by rewrite app_nil_r.
  - destruct (scans l !! i) as [[| |[|n turns]| | | | |]|] eqn:Hs; try done.
    destruct (step budget _ _) as [b|] eqn:Hb; [|done]. injection H as <-.
    eapply scan_moves; [done|by eapply Move_turn|]. by rewrite Z.add_0_r, app_nil_r.
  - destruct (scans l !! i) as [[| | |n turns| | | |]|] eqn:Hs; try done.
    destruct (step budget _ _) as [b|] eqn:Hb; [|done]. injection H as <-.
    eapply scan_moves; [done|by eapply Move_reserve|]. by rewrite Z.add_0_r, app_nil_r.
  - destruct (scans l !! i) as [s|] eqn:Hs; [|done]. cbn [mbind option_bind] in H.
    destruct (forwards s) as [[b s']|] eqn:Hf; [|done]. cbn [mbind option_bind] in H.
    case_bool_decide as Hc; [|done]. injection H as <-.
    eapply scan_moves; [done|by eapply Move_put|]. by rewrite Z.add_0_r.
  - destruct (scans l !! i) as [[]|] eqn:Hs; try done. injection H as <-.
    eapply scan_moves; [done|by eapply Move_release|]. by rewrite app_nil_r.
  - destruct (writerHas l) eqn:Hw; [done|]. destruct (catchUpCh l) as [|b rest] eqn:Hc; [done|].
    injection H as <-. by apply Moves_receive.
  - destruct (writerHas l) as [[i [n| |]]|] eqn:Hw; [| | |done]; simpl in H.
    + destruct (removeOne _ _) as [rest|] eqn:Hr; [|done]. injection H as <-.
      eapply Moves_free; [done|]. simpl. by rewrite Hr.
    + injection H as <-. by apply Moves_done.
    + injection H as <-. by apply Moves_failed.
  - destruct (streamDead l) eqn:Hd; [|done]. destruct (scans l !! i) as [s|] eqn:Hs; [|done].
    cbn [mbind option_bind] in H. destruct (forwards s) as [[b s']|] eqn:Hf; [|done].
    injection H as <-. eapply scan_moves; [done|by eapply Move_skip|]. by rewrite Z.add_0_r, app_nil_r.
  - destruct (streamDead l) eqn:Hd; [|done]. destruct (scans l !! i) as [s|] eqn:Hs; [|done].
    by eapply abandon_moves.
  - destruct (scans l !! i) as [[|turns|turns| | | | |]|] eqn:Hs; try done; injection H as <-;
      (eapply scan_moves; [done|eapply Move_fails; naive_solver|by rewrite Z.add_0_r, app_nil_r]).
  - destruct (streamDead l) eqn:Hd; [done|]. injection H as <-. by apply Moves_die.
Qed.
End Moves.

(** * What a step of the byte budget does to one scan *)

Lemma query_step budget i n b b' :
  step budget (Query i n) b = Some b' → 0 ≤ n ∧ b' = setPhase i (Want n) b.
Proof.
  simpl. destruct (fetchers b !! i) as [[]|]; try done; case_bool_decide; intros; simplify_eq; done.
Qed.

(** One operation of the reservation loop: the scan stays in it, or has reserved its turn. *)
Lemma reserve_step budget op i b b' :
  step budget (labelOf op i) b = Some b' →
  ∃ p p', fetchers b !! i = Some p ∧ p ≠ Idle ∧ fetchers b' = <[i := p']> (fetchers b) ∧
    (p' ≠ Idle ∧ phase_size p' = phase_size p ∧ reserved b' = reserved b ∧ catchUpBytes b' = catchUpBytes b
     ∨ p' = Idle ∧ reserved b' = phase_size p :: reserved b).
Proof.
  destruct op; simpl; destruct (fetchers b !! i) as [[|n|n cur|n]|] eqn:E; try done.
  - intros [= <-]. exists (Want n), (Loaded n (catchUpBytes b)). by split_and!; [..|left].
  - intros [= <-]. unfold tryReserve. exists (Loaded n cur). case_bool_decide; [case_bool_decide|].
    + exists Idle. by split_and!; [..|right].
    + exists (Want n). by split_and!; [..|left].
    + exists (Parked n). by split_and!; [..|left].
  - destruct (catchUpBytesFreed b); [|done]. intros [= <-]. exists (Parked n), (Want n).
    by split_and!; [..|left].
Qed.

Lemma free_step budget n b b' :
  step budget (Free n) b = Some b' → fetchers b' = fetchers b ∧ reserved b ≡ₚ n :: reserved b'.
Proof.
  simpl. destruct (removeOne n (reserved b)) as [rest|] eqn:E; [|done]. intros [= <-].
  apply removeOne_Permutation in E. unfold freeCatchUpBytes. by case_bool_decide.
Qed.

(** * The lane's invariant *)

Definition inFlight (l : fetchLane) : list (nat * batch) := option_list (writerHas l) ++ catchUpCh l.

(** Turns of [n] bytes that are reserved and not freed: in flight, or about to be. *)
Definition aboutTo (n : Z) (s : stage) : Z :=
  match s with Reserved m _ => if bool_decide (m = n) then 1 else 0 | _ => 0 end.
Definition onWay (n : Z) (l : fetchLane) : Z :=
  count (λ b, b.2 = Turn n) (inFlight l) + map_sum (aboutTo n) (scans l).

Definition slotOf (s : stage) : Z := if holdsSlot s then 1 else 0.

(** A scan is in the reservation loop of the bytes' lane exactly when its stage says so. *)
Definition linked (s : stage) (p : option phase) : Prop :=
  match s with
  | Reserving n _ => ∃ q, p = Some q ∧ q ≠ Idle ∧ phase_size q = n
  | _ => p = None ∨ p = Some Idle
  end.

Definition turnsOf (s : stage) : list Z :=
  match s with
  | Stale turns | Scanning turns => turns
  | Reserving n turns | Reserved n turns => n :: turns
  | _ => []
  end.

Record laneOk (budget cap : Z) (l : fetchLane) : Prop := {
  lo_slots : scanSlots l = map_sum slotOf (scans l);
  lo_cap : 0 ≤ scanSlots l ≤ cap;
  lo_ch : (length (catchUpCh l) ≤ catchUpChannelBuffer)%nat;
  lo_accounted : accounted budget (l_bytes l);
  lo_awake : awake (l_bytes l);
  lo_linked : ∀ i s, scans l !! i = Some s → linked s (fetchers (l_bytes l) !! i);
  lo_known : ∀ i, scans l !! i = None → fetchers (l_bytes l) !! i = None;
  lo_sized : ∀ i s, scans l !! i = Some s → Forall (λ n, 0 < n) (turnsOf s);
  lo_flow : ∀ n, onWay n l ≤ count (λ m, m = n) (reserved (l_bytes l)) ∧
    (streamDead l = false → onWay n l = count (λ m, m = n) (reserved (l_bytes l)));
}.

Section Invariant.
Context (budget cap : Z) (Hbudget : 1 ≤ budget).

(** A scan's move and the slots. *)
Lemma move_slots l i s s' b d put :
  scanMove budget cap l i s s' b d put → d = slotOf s' - slotOf s ∧ (d ≤ 0 ∨ scanSlots l < cap).
Proof.
  unfold slotOf. intros [| |op n turns b'|? ? ? Hf|  |? ? ? ? Hf|? ? ? -> Hs| |? ? Hs]; simpl; try (split; lia).
  - case_bool_decide; simpl; split; lia.
  - destruct s0 as [| |[]| | | | |]; simpl in Hf; simplify_eq; simpl; try (split; lia).
    destruct slot; simpl; split; lia.
  - destruct s0 as [| |[]| | | | |]; simpl in Hf; simplify_eq; simpl; try (split; lia).
    destruct slot; simpl; split; lia.
  - destruct Hs as [->|[[? ->]|[? ->]]]; simpl; split; lia.
  - destruct Hs as [[-> [->|[? ->]]]|[-> [? ->]]]; simpl; split; lia.
Qed.

(** Leaving the reservation loop wakes nobody and needs no wake-up. *)
Lemma unpark_awake i m b :
  fetchers b !! i = Some (Parked m) → awake b → awake (setPhase i Idle b).
Proof.
  intros Hi [H1 H2 H3 H4]. split; simpl; [done..| |].
  - intros j q [[<- <-]|[_ ?]]%lookup_insert_Some; [by left|eauto].
  - intros (j & p & [[<- <-]|[Hne Hj]]%lookup_insert_Some & Hp); [done|].
    destruct H4 as [?|[?|(k & q & Hk & Hq)]]; [by exists j, p|by left|by right; left|].
    right; right. exists k, q. split; [|done]. rewrite lookup_insert_ne; [done|].
    intros <-. rewrite Hi in Hk. by injection Hk as <-.
Qed.

Lemma move_bytes l i s s' b d put :
  scans l !! i = Some s → laneOk budget cap l → scanMove budget cap l i s s' b d put →
  accounted budget b ∧ awake b ∧ linked s' (fetchers b !! i) ∧
  (∀ j, j ≠ i → fetchers b !! j = fetchers (l_bytes l) !! j) ∧ Forall (λ n, 0 < n) (turnsOf s').
Proof.
  intros Hs [_ _ _ Ha Hw Hl _ Hz _] Hm. specialize (Hl i s Hs). specialize (Hz i s Hs).
  destruct Hm as [turns|n turns b Hb|op n turns b Hb|s b s' Hf| |s b s' _ Hf|s s' _ -> Hs'|n m turns _ Hp|s slot Hs'].
  - done.
  - apply Forall_cons in Hz as Hn. destruct Hn as [Hn _].
    split; [by eapply step_accounted|].
    split; [by apply (step_awake budget (Query i n) (l_bytes l))|].
    apply query_step in Hb as [_ ->]. simpl. rewrite lookup_insert_eq.
    split; [by exists (Want n)|]. split; [|done]. intros j Hj. by rewrite lookup_insert_ne.
  - split; [by eapply step_accounted|]. split; [by eapply (step_awake budget (labelOf op i)); [destruct op|..]|].
    destruct Hl as (q & Hq & Hni & Hsz). apply reserve_step in Hb as (p & p' & Hp & _ & Ef & Hc).
    rewrite Hq in Hp. injection Hp as <-. rewrite Ef, lookup_insert_eq.
    split; [|split; [intros j Hj; by rewrite lookup_insert_ne|by case_bool_decide]].
    destruct Hc as [(Hp' & Esz & _)|[-> _]].
    + rewrite bool_decide_eq_false_2 by congruence. exists p'. by rewrite Esz.
    + rewrite bool_decide_eq_true_2 by done. by right.
  - destruct s as [| |[]| |m ts| | |]; simpl in Hf; simplify_eq; try done.
    + apply Forall_cons in Hz as [_ Hz]. done.
    + by destruct slot.
  - done.
  - destruct s as [| |[]| |m ts| | |]; simpl in Hf; simplify_eq; try done.
    + apply Forall_cons in Hz as [_ Hz]. done.
    + by destruct slot.
  - destruct Hs' as [->|[[? ->]|[? ->]]]; simpl in *; done.
  - split; [by apply setPhase_accounted|]. split; [by eapply unpark_awake|]. simpl.
    rewrite lookup_insert_eq. split; [by right|]. split; [|done]. intros j Hj. by rewrite lookup_insert_ne.
  - destruct Hs' as [[-> [->|[? ->]]]|[-> [? ->]]]; simpl in *; done.
Qed.

(** What a move puts on its way is what it reserves; a dead stream may lose some. *)
Lemma move_flow l i s s' b d put n :
  linked s (fetchers (l_bytes l) !! i) → scanMove budget cap l i s s' b d put →
  let sent := aboutTo n s' - aboutTo n s + count (λ b, b = Turn n) put in
  let more := count (λ m, m = n) (reserved b) - count (λ m, m = n) (reserved (l_bytes l)) in
  sent ≤ more ∧ (streamDead l = false → sent = more).
Proof.
  intros Hl Hm.
  assert (Hf : ∀ s b s', forwards s = Some (b, s') →
    aboutTo n s' = 0 ∧ aboutTo n s = count (λ b, b = Turn n) [b]).
  { intros t x t' Ht. destruct t as [| |[]| |m ts| | |]; simpl in Ht; simplify_eq; try done; try (by destruct slot).
    simpl. rewrite count_cons, count_nil. repeat case_decide; repeat case_bool_decide; naive_solver. }
  assert (Hpos : ∀ s, 0 ≤ aboutTo n s) by (intros []; simpl; try lia; case_bool_decide; lia).
  destruct Hm as [turns|m turns b Hb|op m turns b Hb|s b s' Hfw| |s b s' Hd Hfw|s s' _ -> Hs'|m k turns _ Hp|s slot Hs'];
    cbn zeta; rewrite ?count_nil; try (simpl; split; [lia|intros; lia]).
  - apply query_step in Hb as [_ ->]. simpl. lia.
  - destruct Hl as (q & Hq & Hni & Hsz). apply reserve_step in Hb as (p & p' & Hp & _ & Ef & Hc).
    rewrite Hq in Hp. injection Hp as <-. rewrite Ef, lookup_insert_eq.
    destruct Hc as [(Hp' & _ & -> & _)|[-> ->]].
    + rewrite bool_decide_eq_false_2 by congruence. simpl. lia.
    + rewrite bool_decide_eq_true_2 by done. rewrite count_cons, Hsz. simpl.
      case_bool_decide; case_decide; simplify_eq; lia.
  - destruct (Hf s b s' Hfw) as [-> ->]. lia.
  - destruct (Hf s b s' Hfw) as [-> _]. specialize (Hpos s). split; [lia|congruence].
  - destruct Hs' as [->|[[? ->]|[? ->]]]; simpl; lia.
  - destruct Hs' as [[-> [->|[? ->]]]|[-> [? ->]]]; simpl; lia.
Qed.

Lemma scan_ok l i s s' b d put :
  scans l !! i = Some s → scanMove budget cap l i s s' b d put → laneOk budget cap l →
  laneOk budget cap (mkFetchLane b (scanSlots l + d) (<[i := s']> (scans l))
    (catchUpCh l ++ ((i,.) <$> put)) (writerHas l) (taken l) (streamDead l)).
Proof.
  intros Hs Hm Hok. pose proof Hok as [H1 H2 H3 H4 H5 H6 H7 H8 H9].
  destruct (move_slots l i s s' b d put Hm) as [Hd Hcap].
  destruct (move_bytes l i s s' b d put Hs Hok Hm) as (B1 & B2 & B3 & B4 & B5).
  assert (Hsum : map_sum slotOf (<[i := s']> (scans l)) = scanSlots l + d)
    by (rewrite map_sum_insert, Hs, H1; simpl; lia).
  assert (Hnn : 0 ≤ map_sum slotOf (<[i := s']> (scans l)))
    by (apply map_sum_nonneg; intros ? t _; unfold slotOf; destruct (holdsSlot t); lia).
  split; simpl; [by rewrite Hsum|rewrite Hsum in Hnn; unfold slotOf in Hd; destruct (holdsSlot s), (holdsSlot s'); lia|..].
  - rewrite length_app, length_fmap. destruct Hm; simpl; unfold catchUpChannelBuffer in *; lia.
  - done.
  - done.
  - intros j t [[<- <-]|[Hne Ht]]%lookup_insert_Some; [done|]. rewrite B4 by done. auto.
  - intros j [Hj Hne]%lookup_insert_None. rewrite B4 by done. auto.
  - intros j t [[<- <-]|[_ Ht]]%lookup_insert_Some; [done|eauto].
  - intros n. pose proof (move_flow l i s s' b d put n (H6 i s Hs) Hm) as [F1 F2]. cbv zeta in *.
    destruct (H9 n) as [G1 G2].
    assert (E : onWay n (mkFetchLane b (scanSlots l + d) (<[i := s']> (scans l))
      (catchUpCh l ++ ((i,.) <$> put)) (writerHas l) (taken l) (streamDead l)) =
      onWay n l + (aboutTo n s' - aboutTo n s + count (λ b, b = Turn n) put)).
    { unfold onWay, inFlight. simpl. rewrite map_sum_insert, Hs, !count_app. simpl.
      assert (count (λ b, b.2 = Turn n) ((i,.) <$> put) = count (λ b, b = Turn n) put) as ->; [|lia].
      clear. induction put as [|x put IH]; [done|]. rewrite fmap_cons, !count_cons, IH. done. }
    rewrite E. split; [lia|]. intros Hdead. specialize (F2 Hdead). specialize (G2 Hdead). lia.
Qed.

Lemma moves_ok l l' : moves budget cap l l' → laneOk budget cap l → laneOk budget cap l'.
Proof.
  intros Hm Hok. destruct Hm as [l i s s' b d put Hs Hm|l b rest Hw Hc|l i n b Hw Hb|l i Hw|l i Hw|l Hd];
    [by eapply scan_ok|pose proof Hok as [H1 H2 H3 H4 H5 H6 H7 H8 H9]..].
  - split; simpl; try done; [rewrite Hc in H3; simpl in H3; lia|].
    intros n. specialize (H9 n). unfold onWay, inFlight in *. rewrite Hw, Hc in H9. done.
  - pose proof (free_step _ _ _ _ Hb) as [Ef Er].
    split; simpl; try done; [by eapply step_accounted|by eapply (step_awake budget (Free n))|..].
    + intros j s Hj. rewrite Ef. auto.
    + intros j Hj. rewrite Ef. auto.
    + intros m. destruct (H9 m) as [G1 G2].
      assert (E : onWay m l = (if decide (n = m) then 1 else 0) + onWay m (mkFetchLane b (scanSlots l)
        (scans l) (catchUpCh l) None (taken l ++ [(i, Turn n)]) (streamDead l))).
      { unfold onWay, inFlight. rewrite Hw. simpl. rewrite count_cons. simpl.
        repeat case_decide; simplify_eq; try done; lia. }
      assert (Er' : count (λ k, k = m) (reserved (l_bytes l)) =
        (if decide (n = m) then 1 else 0) + count (λ k, k = m) (reserved b))
        by (by rewrite (count_perm _ _ _ Er), count_cons).
      split; [lia|]. intros Hdead. specialize (G2 Hdead). lia.
  - split; simpl; try done. intros n. specialize (H9 n). unfold onWay, inFlight in *. rewrite Hw in H9.
    simpl in H9. by rewrite count_cons in H9.
  - split; simpl; try done. intros n. specialize (H9 n). unfold onWay, inFlight in *. rewrite Hw in H9.
    simpl in H9. rewrite count_cons in H9. split; [by destruct H9|done].
  - split; simpl; try done. intros n. destruct (H9 n) as [G _]. split; [exact G|done].
Qed.
End Invariant.

(** * Progress *)

Lemma aboutTo_nonneg n s : 0 ≤ aboutTo n s.
Proof. destruct s; simpl; try lia. case_bool_decide; lia. Qed.

Section Progress.
Context (budget cap : Z) (Hcap : 1 ≤ cap).

Definition canMove (l : fetchLane) : Prop :=
  ∃ a, ownStep a = true ∧ is_Some (laneStep budget cap a l).

Lemma put_moves l i s x :
  scans l !! i = Some s → forwards s = Some x → catchUpCh l = [] → canMove l.
Proof.
  intros Hs Hf Hc. exists (Put i). split; [done|]. simpl. rewrite Hs, Hc. cbn [mbind option_bind].
  rewrite Hf. destruct x. by eexists.
Qed.

Lemma reserving_moves l i n turns :
  laneOk budget cap l → scans l !! i = Some (Reserving n turns) → inFlight l = [] → canMove l.
Proof.
  intros [_ _ _ _ Hw Hl Hk _ Hf] Hs Hq.
  assert (Hop : ∀ j op m ts, scans l !! j = Some (Reserving m ts) →
    is_Some (step budget (labelOf op j) (l_bytes l)) → canMove l).
  { intros j op m ts Hj [b Hb]. exists (Reserve op j). split; [done|]. simpl. rewrite Hj, Hb. by eexists. }
  destruct (Hl i _ Hs) as (q & Hi & Hni & _). destruct q as [|m|m cur|m]; [done|..].
  - apply (Hop i OpLoad n turns Hs). simpl. by rewrite Hi.
  - apply (Hop i OpTry n turns Hs). simpl. by rewrite Hi.
  - destruct (aw_owed _ Hw) as [Ht|[Hb|(j & p & Hj & Hp)]]; [by exists i, (Parked m)|..].
    + apply (Hop i OpWake n turns Hs). simpl. by rewrite Hi, Ht.
    + rewrite (aw_total _ Hw) in Hb. destruct (reserved (l_bytes l)) as [|k rest] eqn:Er; [done|].
      destruct (streamDead l) eqn:Hd.
      { exists (Abandon i). split; [done|]. simpl. rewrite Hd, Hs. simpl. rewrite Hi. by eexists. }
      destruct (Hf k) as [_ E]. specialize (E eq_refl). unfold onWay in E.
      rewrite Hq, count_nil, ?Er, count_cons, decide_True in E by done.
      destruct (map_sum_pos_inv (aboutTo k) (scans l)) as (j & s & Hj & Hp);
        [apply aboutTo_nonneg|pose proof (count_nonneg (λ m, m = k) rest); lia|].
      destruct s as [| | | |k' ts| | |]; simpl in Hp; try lia.
      eapply put_moves; [exact Hj|done|]. unfold inFlight in Hq. by apply app_eq_nil in Hq as [_ ?].
    + destruct (scans l !! j) as [s|] eqn:Hsj; [|by rewrite (Hk j Hsj) in Hj].
      specialize (Hl j s Hsj). rewrite Hj in Hl.
      destruct s as [| | |k ts| | | |]; simpl in Hl; try (destruct Hl as [?|[= ->]]; done).
      destruct p as [|k'|k' cur|k']; try done.
      * apply (Hop j OpLoad k ts Hsj). simpl. by rewrite Hj.
      * apply (Hop j OpTry k ts Hsj). simpl. by rewrite Hj.
Qed.

Lemma holder_moves l i s :
  laneOk budget cap l → scans l !! i = Some s → s ≠ Finished → (∀ turns, s ≠ Stale turns) →
  inFlight l = [] → canMove l.
Proof.
  intros Hok Hs Hne Hst Hq. pose proof Hok as [_ _ _ _ _ Hl _ Hz _].
  assert (Hc : catchUpCh l = []) by (unfold inFlight in Hq; by apply app_eq_nil in Hq as [_ ?]).
  destruct s as [|turns|[|n turns]|n turns|n turns|slot| |].
  - by eapply put_moves.
  - by destruct (Hst turns).
  - by eapply put_moves.
  - exists (NextTurn i). split; [done|]. specialize (Hl i _ Hs). specialize (Hz i _ Hs).
    apply Forall_cons in Hz as [Hn _]. cbn [laneStep]. rewrite Hs. simpl.
    rewrite bool_decide_eq_true_2 by lia. destruct Hl as [->| ->]; by eexists.
  - by eapply reserving_moves.
  - by eapply put_moves.
  - by eapply put_moves.
  - exists (Release i). split; [done|]. simpl. rewrite Hs. by eexists.
  - done.
Qed.

Lemma lane_progress l :
  laneOk budget cap l → inFlight l ≠ [] ∨ (∃ i s, scans l !! i = Some s ∧ s ≠ Finished) → canMove l.
Proof.
  intros Hok Hwork. destruct (inFlight l) as [|x rest] eqn:Hq.
  - destruct Hwork as [?|(i & s & Hs & Hne)]; [done|].
    destruct s as [|turns| | | | | |] eqn:Es; try (by eapply holder_moves).
    destruct (decide (scanSlots l < cap)) as [Hfree|Hfull].
    + exists (Acquire i). split; [done|]. simpl. rewrite Hs, bool_decide_eq_true_2 by done. by eexists.
    + pose proof (lo_slots _ _ _ Hok) as Hsum.
      destruct (map_sum_pos_inv slotOf (scans l)) as (j & t & Hj & Ht);
        [intros t; unfold slotOf; destruct (holdsSlot t); lia|lia|].
      unfold slotOf in Ht. destruct (holdsSlot t) eqn:Hh; [|lia].
      eapply (holder_moves l j t); try done; [by intros ->|by intros turns' ->].
  - unfold inFlight in Hq. destruct (writerHas l) as [[i b]|] eqn:Hw.
    + exists Consume. split; [done|]. simpl. rewrite Hw. destruct b as [n| |]; [|by eexists..].
      destruct (lo_flow _ _ _ Hok n) as [Hle _]. unfold onWay, inFlight in Hle. rewrite Hw in Hle.
      simpl in Hle. rewrite count_cons, decide_True in Hle by done.
      pose proof (count_nonneg (λ b, b.2 = Turn n) (catchUpCh l)).
      assert (0 ≤ map_sum (aboutTo n) (scans l)) by (apply map_sum_nonneg; intros; apply aboutTo_nonneg).
      destruct (count_pos_inv (λ m, m = n) (reserved (l_bytes l))) as (m & Hm & Em); [lia|].
      subst m. destruct (removeOne_elem n _ Hm) as [r Hr]. simpl. rewrite Hr. by eexists.
    + exists Receive. split; [done|]. simpl in Hq. simpl. rewrite Hw, Hq. by eexists.
Qed.
End Progress.

(** * Every schedule ends *)

(** What is left to do for a scan, in steps, and what one loop of its reservation may still cost. *)
Definition workOf (s : stage) : Z :=
  match s with
  | Current => 4
  | Stale turns => 5 * Z.of_nat (length turns) + 6
  | Scanning turns => 5 * Z.of_nat (length turns) + 5
  | Reserving _ turns => 5 * Z.of_nat (length turns) + 9
  | Reserved _ turns => 5 * Z.of_nat (length turns) + 8
  | Failing slot => if slot then 4 else 3
  | Releasing => 1
  | Finished => 0
  end.

Definition retriesOf (bytes : Z) (p : phase) : Z :=
  match p with
  | Idle | Parked _ => 0
  | Want _ => 2
  | Loaded _ cur => if bool_decide (cur = bytes) then 1 else 3
  end.

Definition retries (b : lane) : Z :=
  map_sum (retriesOf (catchUpBytes b)) (fetchers b) + (if catchUpBytesFreed b then 3 else 0).

Definition events (l : fetchLane) : Z :=
  map_sum workOf (scans l) + 2 * Z.of_nat (length (catchUpCh l))
  + match writerHas l with Some _ => 1 | None => 0 end + (if streamDead l then 0 else 1).

Definition laneWork (l : fetchLane) : Z :=
  events l * (3 * Z.of_nat (size (scans l)) + 4) + retries (l_bytes l).

Lemma reserve_retries budget op i b b' :
  step budget (labelOf op i) b = Some b' → fetchers b' !! i ≠ Some Idle → retries b' < retries b.
Proof.
  unfold retries. destruct op; simpl; destruct (fetchers b !! i) as [[|n|n cur|n]|] eqn:E; try done.
  - intros [= <-] _. simpl. rewrite map_sum_insert, E. simpl. rewrite bool_decide_eq_true_2 by done. lia.
  - intros [= <-]. unfold tryReserve. case_bool_decide as Hfit; [case_bool_decide as Hcas|]; simpl.
    + by rewrite lookup_insert_eq.
    + intros _. rewrite map_sum_insert, E. simpl. rewrite bool_decide_eq_false_2 by congruence. lia.
    + intros _. rewrite map_sum_insert, E. simpl. case_bool_decide; lia.
  - destruct (catchUpBytesFreed b) eqn:Ht; [|done]. intros [= <-] _. simpl.
    rewrite map_sum_insert, E. simpl. lia.
Qed.

Section Ends.
Context (budget cap : Z).

Lemma move_work l i s s' b d put :
  scanMove budget cap l i s s' b d put →
  workOf s' + 2 * Z.of_nat (length put) < workOf s ∨
  s' = s ∧ put = [] ∧ retries b < retries (l_bytes l).
Proof.
  assert (Hf : ∀ s x s', forwards s = Some (x, s') → workOf s' + 2 < workOf s).
  { intros t x t' Ht. destruct t as [| |[]| | |[]| |]; simpl in Ht; simplify_eq; simpl; lia. }
  intros [turns|n turns b' Hb|op n turns b' Hb|? ? ? Hfw| |? ? ? _ Hfw|? ? _ -> Hs|? ? ? _ _|? ? Hs]; simpl; try (left; lia).
  - case_bool_decide as Hi; [left; simpl; lia|]. right. split; [done|]. split; [done|].
    by eapply reserve_retries.
  - apply Hf in Hfw. left. lia.
  - apply Hf in Hfw. left. lia.
  - left. destruct Hs as [->|[[? ->]|[? ->]]]; simpl; lia.
  - left. destruct Hs as [[-> [->|[? ->]]]|[-> [? ->]]]; simpl; lia.
Qed.

Lemma retries_bound l : laneOk budget cap l → 0 ≤ retries (l_bytes l) ≤ 3 * Z.of_nat (size (scans l)) + 3.
Proof.
  intros Hok. unfold retries. set (f := retriesOf _).
  assert (Hf : ∀ p, 0 ≤ f p ≤ 3) by (intros []; unfold f; simpl; try lia; case_bool_decide; lia).
  assert (0 ≤ map_sum f (fetchers (l_bytes l))) by (apply map_sum_nonneg; intros; apply Hf).
  assert (map_sum f (fetchers (l_bytes l)) ≤ 3 * Z.of_nat (size (fetchers (l_bytes l))))
    by (apply map_sum_le; intros; apply Hf).
  assert (size (fetchers (l_bytes l)) ≤ size (scans l))%nat.
  { rewrite <- !size_dom. apply subseteq_size. intros j [p Hj]%elem_of_dom. apply elem_of_dom.
    destruct (scans l !! j) eqn:E; [by eexists|]. by rewrite (lo_known _ _ _ Hok j E) in Hj. }
  destruct (catchUpBytesFreed _); lia.
Qed.

(** Fewer events are left, or as many and fewer retries. *)
Lemma work_less l l' :
  laneOk budget cap l → laneOk budget cap l' → size (scans l') = size (scans l) → 0 ≤ events l' →
  events l' < events l ∨ events l' = events l ∧ retries (l_bytes l') < retries (l_bytes l) →
  laneWork l' < laneWork l.
Proof.
  intros H1%retries_bound H2%retries_bound Hs Hn. unfold laneWork. rewrite Hs in *.
  set (c := 3 * Z.of_nat (size (scans l)) + 4). intros [Hlt|[-> ?]]; [|lia].
  assert (events l' * c + c ≤ events l * c) by nia. lia.
Qed.

Lemma events_nonneg l : 0 ≤ events l.
Proof.
  unfold events. assert (0 ≤ map_sum workOf (scans l)).
  { apply map_sum_nonneg. intros _ [| | | | |[]| |] _; simpl; lia. }
  destruct (writerHas l), (streamDead l); lia.
Qed.

Lemma moves_work l l' : moves budget cap l l' → laneOk budget cap l → laneOk budget cap l' → laneWork l' < laneWork l.
Proof.
  intros Hm Hok Hok'. apply work_less; [done|done| |apply events_nonneg|].
  - destruct Hm as [l i s s' b d put Hs _| | | | |]; try done. simpl. by apply map_size_insert_Some.
  - destruct Hm as [l i s s' b d put Hs Hm|l b rest Hw Hc|l i n b Hw _|l i Hw|l i Hw|l Hd];
      unfold events; simpl; [|left..].
    + rewrite map_sum_insert, Hs, length_app, length_fmap. simpl.
      apply move_work in Hm as [?|(-> & -> & ?)]; simpl; [left; lia|right; split; [lia|done]].
    + rewrite Hw, Hc. simpl. lia.
    + rewrite Hw. lia.
    + rewrite Hw. lia.
    + rewrite Hw. destruct (streamDead l); lia.
    + rewrite Hd. lia.
Qed.
End Ends.

(** * What the writer takes *)

(** The batches of one scan, in order. *)
Definition ofScan (i : nat) (l : list (nat * batch)) : list batch := snd <$> filter (λ b, b.1 = i) l.

(** What a scan has still to forward. *)
Definition remaining (s : stage) : list batch :=
  match s with
  | Current => [Done]
  | Stale turns | Scanning turns => (Turn <$> turns) ++ [Done]
  | Reserving n turns | Reserved n turns => Turn n :: (Turn <$> turns) ++ [Done]
  | Failing _ => [Failed]
  | Releasing | Finished => []
  end.

Definition account (i : nat) (s : stage) (l : fetchLane) : list batch :=
  ofScan i (taken l ++ inFlight l) ++ remaining s.

(** On a living stream a scan's batches are those of its plan, or one of them is an error, which
    the writer has not taken. *)
Record honest (plans : gmap nat plan) (l : fetchLane) : Prop := {
  ho_scans : ∀ i s, scans l !! i = Some s → streamDead l = false →
    ∃ p, plans !! i = Some p ∧ (account i s l = planBatches p ∨ Failed ∈ account i s l);
  ho_taken : ∀ i, streamDead l = false → Failed ∉ ofScan i (taken l);
  ho_dom : dom (scans l) = dom plans;
}.

Lemma ofScan_app i l1 l2 : ofScan i (l1 ++ l2) = ofScan i l1 ++ ofScan i l2.
Proof. unfold ofScan. by rewrite filter_app, fmap_app. Qed.

Lemma ofScan_put i j (put : list batch) : ofScan j ((i,.) <$> put) = if decide (i = j) then put else [].
Proof.
  unfold ofScan. case_decide as E; induction put as [|x put IH]; try done; rewrite fmap_cons.
  - rewrite filter_cons_True by done. rewrite fmap_cons. by f_equal.
  - by rewrite filter_cons_False.
Qed.

(** A move forwards the next batch, or fails. *)
Lemma move_account budget cap l i s s' b d put :
  streamDead l = false → scanMove budget cap l i s s' b d put →
  put ++ remaining s' = remaining s ∨ Failed ∈ put ++ remaining s'.
Proof.
  intros Hd [turns| |op n turns b'|t x t' Hf| |? ? ? Hd'|? ? Hd'|? ? ? Hd'|? slot _]; simpl; try (by left); try congruence.
  - case_bool_decide; by left.
  - left. destruct t as [| |[]| | |[]| |]; simpl in Hf; by simplify_eq.
  - right. left.
Qed.

Lemma scan_honest budget cap plans l i s s' b d put :
  scans l !! i = Some s → scanMove budget cap l i s s' b d put → honest plans l →
  honest plans (mkFetchLane b (scanSlots l + d) (<[i := s']> (scans l))
    (catchUpCh l ++ ((i,.) <$> put)) (writerHas l) (taken l) (streamDead l)).
Proof.
  intros Hs Hm [H1 H2 H3]. split; simpl; [|done|rewrite dom_insert_L, H3;
    assert (i ∈ dom plans) by (rewrite <- H3; by eapply elem_of_dom_2); set_solver].
  intros j t Hj Hd.
  assert (E : ∀ t', account j t' (mkFetchLane b (scanSlots l + d) (<[i := s']> (scans l))
      (catchUpCh l ++ ((i,.) <$> put)) (writerHas l) (taken l) (streamDead l))
    = ofScan j (taken l ++ inFlight l) ++ (if decide (i = j) then put else []) ++ remaining t').
  { intros t'. unfold account, inFlight. simpl. by rewrite !app_assoc, ofScan_app, ofScan_put, <- !app_assoc. }
  rewrite E. apply lookup_insert_Some in Hj as [[<- <-]|[Hne Hj]].
  - rewrite decide_True by done. destruct (H1 i s Hs Hd) as (p & Hp & Ha). exists p. split; [done|].
    unfold account in Ha. destruct (move_account _ _ _ _ _ _ _ _ _ Hd Hm) as [->|Hf]; [done|].
    right. set_solver.
  - rewrite decide_False by done. exact (H1 j t Hj Hd).
Qed.

Lemma moves_honest budget cap plans l l' : moves budget cap l l' → honest plans l → honest plans l'.
Proof.
  intros Hm Hh. destruct Hm as [l i s s' b d put Hs Hm|l b rest Hw Hc|l i n b Hw _|l i Hw|l i Hw|l Hd];
    [by eapply scan_honest|destruct Hh as [H1 H2 H3]..].
  - split; [|done|done]. intros j s Hj Hd. specialize (H1 j s Hj Hd). unfold account, inFlight in *.
    by rewrite Hw, Hc in H1.
  - assert (E : taken l ++ inFlight l = (taken l ++ [(i, Turn n)]) ++ catchUpCh l)
      by (unfold inFlight; by rewrite Hw, <- app_assoc).
    split; simpl; [|intros j Hd; rewrite ofScan_app; specialize (H2 j Hd);
      unfold ofScan at 2; rewrite filter_cons; case_decide; set_solver|done].
    intros j s Hj Hd. specialize (H1 j s Hj Hd). unfold account in *. by rewrite E in H1.
  - assert (E : taken l ++ inFlight l = (taken l ++ [(i, Done)]) ++ catchUpCh l)
      by (unfold inFlight; by rewrite Hw, <- app_assoc).
    split; simpl; [|intros j Hd; rewrite ofScan_app; specialize (H2 j Hd);
      unfold ofScan at 2; rewrite filter_cons; case_decide; set_solver|done].
    intros j s Hj Hd. specialize (H1 j s Hj Hd). unfold account in *. by rewrite E in H1.
  - split; [done|done|done].
  - split; [done|done|done].
Qed.

(** * Runs *)

(** Every turn that is replayed carries payload. *)
Definition plansSized (plans : gmap nat plan) : Prop :=
  map_Forall (λ _ p, Forall (λ n, 0 < n) (default [] p)) plans.

Section Runs.
Context (scanMaxConcurrent scanMaxPendingBytes : Z) (plans : gmap nat plan) (Hsized : plansSized plans).
Local Abbreviation budget := (byteBudget scanMaxPendingBytes).
Local Abbreviation cap := (maxScans scanMaxConcurrent).

Lemma budget_pos : 1 ≤ budget.
Proof. unfold byteBudget. case_bool_decide; lia. Qed.
Lemma cap_pos : 1 ≤ cap.
Proof. unfold maxScans. case_bool_decide; lia. Qed.

Lemma startLane_ok : laneOk budget cap (startLane plans).
Proof.
  pose proof cap_pos. split; simpl.
  - symmetry. apply map_sum_none. by intros [].
  - lia.
  - unfold catchUpChannelBuffer. lia.
  - split; simpl; [done|constructor|by intros ? ? ?%lookup_empty_Some|left; pose proof budget_pos; lia].
  - split; simpl; [done|constructor|by intros ? ? ?%lookup_empty_Some|].
    by intros (? & ? & ?%lookup_empty_Some & _).
  - intros i s Hs. apply lookup_fmap_Some in Hs as ([|] & <- & _); by left.
  - done.
  - intros i s Hs. apply lookup_fmap_Some in Hs as (p & <- & Hp). specialize (Hsized i p Hp). by destruct p.
  - intros n. unfold onWay, inFlight. simpl. rewrite map_sum_none by (by intros []). by split.
Qed.

Lemma start_honest : honest plans (startLane plans).
Proof.
  split; simpl; [|intros i _; apply not_elem_of_nil|by rewrite dom_fmap_L].
  intros i s Hs _. apply lookup_fmap_Some in Hs as (p & <- & Hp). exists p. split; [done|]. left. by destruct p.
Qed.

Lemma run_ok as_ l :
  laneRun budget cap as_ (startLane plans) = Some l →
  laneOk budget cap l ∧ honest plans l ∧
  Z.of_nat (length as_) + laneWork l ≤ laneWork (startLane plans).
Proof.
  assert (H : ∀ l0, laneOk budget cap l0 → honest plans l0 → laneRun budget cap as_ l0 = Some l →
    laneOk budget cap l ∧ honest plans l ∧ Z.of_nat (length as_) + laneWork l ≤ laneWork l0).
  { induction as_ as [|a as_ IH]; intros l0 H1 H2 E; simpl in E; [injection E as <-; simpl; split_and!; [done..|lia]|].
    destruct (laneStep budget cap a l0) as [l1|] eqn:Ea; [|done]. apply laneStep_moves in Ea.
    pose proof (moves_ok budget cap budget_pos l0 l1 Ea H1) as H1'.
    pose proof (moves_work budget cap l0 l1 Ea H1 H1').
    destruct (IH l1 H1' (moves_honest _ _ _ _ _ Ea H2) E) as (? & ? & ?). split_and!; [done..|simpl; lia]. }
  apply H; [apply startLane_ok|apply start_honest].
Qed.

(** C31. The lane's bounds, whatever the schedule: the slots in use are those of the scans between
    their first query and their done marker, and at most the cap; the channel holds at most four
    batches; the bytes fetched and not consumed stay within the budget, or are one turn's alone;
    and while the stream lives, exactly the turns on their way to the writer hold a reservation. *)
Theorem catch_up_lane_bounded as_ l :
  laneRun budget cap as_ (startLane plans) = Some l →
  scanSlots l = map_sum slotOf (scans l) ∧ 0 ≤ scanSlots l ≤ cap ∧
  (length (catchUpCh l) ≤ catchUpChannelBuffer)%nat ∧
  (catchUpBytes (l_bytes l) ≤ budget ∨ reserved (l_bytes l) = [catchUpBytes (l_bytes l)]) ∧
  (streamDead l = false → ∀ n, count (λ m, m = n) (reserved (l_bytes l)) = onWay n l).
Proof.
  intros ([H1 H2 H3 [A1 _ _ A4] [_ W2 _ _] _ _ _ H9] & _ & _)%run_ok.
  refine (conj H1 (conj H2 (conj H3 (conj _ _)))).
  - destruct A4 as [?|(n & rest & Er & Hz)]; [by left|right].
    destruct rest as [|m rest].
    + apply Permutation_singleton_r in Er. by rewrite A1, Er; unfold total; simpl; rewrite Z.add_0_r.
    + exfalso. apply Forall_cons in Hz as [-> _]. rewrite Er, !Forall_cons in W2. lia.
  - intros Hd n. symmetry. by apply H9.
Qed.

(** C32. The lane drains. Where every turn carries payload, no schedule of the scans, their
    reservations, the channel and the writer runs for more steps than the work there was at the
    start, failing queries and a dying stream included; and a lane where nothing can move is
    finished: every scan has returned, every slot is free, and if the stream lives, no byte is
    reserved and the writer has taken every turn of every scan, in order, and its done marker. *)
Theorem catch_up_lane_drains as_ l :
  laneRun budget cap as_ (startLane plans) = Some l →
  Z.of_nat (length as_) ≤ laneWork (startLane plans) ∧
  ((∀ a, ownStep a = true → laneStep budget cap a l = None) →
   (∀ i s, scans l !! i = Some s → s = Finished) ∧ scanSlots l = 0 ∧
   (streamDead l = false → catchUpBytes (l_bytes l) = 0 ∧
    ∀ i p, plans !! i = Some p → ofScan i (taken l) = planBatches p)).
Proof.
  intros (Hok & Hh & Hw)%run_ok.
  assert (0 ≤ laneWork l).
  { unfold laneWork. pose proof (events_nonneg l). pose proof (retries_bound _ _ l Hok). nia. }
  split; [lia|]. intros Hstuck.
  assert (Hno : ¬ canMove budget cap l).
  { intros (a & Ha & [l' Hl']). by rewrite (Hstuck a Ha) in Hl'. }
  assert (Hfin : ∀ i s, scans l !! i = Some s → s = Finished).
  { intros i s Hs. destruct (decide (s = Finished)) as [|Hne]; [done|]. destruct Hno.
    apply lane_progress; [apply cap_pos|done|right; by exists i, s]. }
  assert (Hq : inFlight l = []).
  { destruct (inFlight l) eqn:Hq; [done|]. destruct Hno.
    apply lane_progress; [apply cap_pos|done|left; by rewrite Hq]. }
  assert (Hsum : ∀ f, f Finished = 0 → map_sum f (scans l) = 0).
  { intros f Hf. rewrite <- (map_fmap_id (scans l)).
    rewrite (map_fmap_ext _ (λ _, Finished)) by (intros i s Hs; by apply Hfin in Hs).
    by apply map_sum_none. }
  split; [done|]. split; [rewrite (lo_slots _ _ _ Hok); by apply Hsum|]. intros Hd. split.
  - rewrite (aw_total _ (lo_awake _ _ _ Hok)). destruct (reserved (l_bytes l)) as [|n rest] eqn:Er; [done|].
    destruct (lo_flow _ _ _ Hok n) as [_ E]. specialize (E Hd). unfold onWay in E.
    rewrite Hq, count_nil, Hsum, Er, count_cons, decide_True in E by done.
    pose proof (count_nonneg (λ m, m = n) rest). lia.
  - intros i p Hp. assert (Hi : is_Some (scans l !! i)).
    { apply elem_of_dom. rewrite (ho_dom _ _ Hh). by eapply elem_of_dom_2. }
    destruct Hi as [s Hs]. destruct (ho_scans _ _ Hh i s Hs Hd) as (p' & Hp' & Ha).
    rewrite Hp in Hp'. injection Hp' as <-. rewrite (Hfin i s Hs) in Ha. unfold account in Ha.
    rewrite Hq, !app_nil_r in Ha. destruct Ha as [?|Hf]; [done|]. by destruct (ho_taken _ _ Hh i Hd).
Qed.
End Runs.

(** A lane whose scans have all returned and whose batches are consumed has nothing left to do. *)
Lemma finished_stuck budget cap l :
  map_Forall (λ _ s, s = Finished) (scans l) → inFlight l = [] →
  ∀ a, ownStep a = true → laneStep budget cap a l = None.
Proof.
  intros Hf [Hw Hc]%app_eq_nil a Ha.
  assert (Hs : ∀ i, scans l !! i = None ∨ scans l !! i = Some Finished).
  { intros i. destruct (scans l !! i) as [s|] eqn:E; [right|by left]. by rewrite (Hf i s E). }
  destruct (writerHas l) eqn:Ew; [done|].
  destruct a as [i|i|op i|i|i| | |i|i|i|]; try done; simpl; rewrite ?Ew, ?Hc; try done;
    destruct (Hs i) as [->| ->]; try done; by destruct (streamDead l).
Qed.

(** * Two stale scans and one that is current, over a budget of ten bytes *)

Definition samplePlans : gmap nat plan :=
  {[ 1%nat := Some [20; 3]; 2%nat := Some [5]; 3%nat := None ]}.

(** Scan 1 parks with twenty bytes until scan 2's five are consumed, then holds the lane alone. *)
Definition sampleSchedule : list action :=
  [Acquire 2; NextTurn 2; Reserve OpLoad 2; Reserve OpTry 2; Acquire 1; NextTurn 1; Reserve OpLoad 1;
   Reserve OpTry 1; Put 3; Put 2; Put 2; Release 2; Receive; Consume; Receive; Consume;
   Reserve OpWake 1; Reserve OpLoad 1; Reserve OpTry 1; Put 1; NextTurn 1; Reserve OpLoad 1;
   Reserve OpTry 1; Receive; Consume; Receive; Consume; Reserve OpWake 1; Reserve OpLoad 1;
   Reserve OpTry 1; Put 1; Put 1; Release 1; Receive; Consume; Receive; Consume].

Lemma samplePlans_sized : plansSized samplePlans.
Proof. apply (bool_decide_unpack _). vm_compute. exact I. Qed.

Lemma catch_up_lane_bounded_witness :
  ∃ l, laneRun (byteBudget 10) (maxScans 2) (take 20 sampleSchedule) (startLane samplePlans) = Some l ∧
    catchUpBytes (l_bytes l) = 20 ∧ scanSlots l = 1 ∧
    (catchUpBytes (l_bytes l) ≤ byteBudget 10 ∨ reserved (l_bytes l) = [catchUpBytes (l_bytes l)]).
Proof.
  destruct (laneRun (byteBudget 10) (maxScans 2) (take 20 sampleSchedule) (startLane samplePlans))
    as [l|] eqn:E; [|vm_compute in E; discriminate].
  destruct (catch_up_lane_bounded 2 10 samplePlans samplePlans_sized _ l E) as (_ & _ & _ & Hb & _).
  exists l. split; [reflexivity|]. split; [|split; [|exact Hb]]; vm_compute in E; by injection E as <-.
Defined.

Lemma catch_up_lane_drains_witness :
  ∃ l, laneRun (byteBudget 10) (maxScans 2) sampleSchedule (startLane samplePlans) = Some l ∧
    scanSlots l = 0 ∧ catchUpBytes (l_bytes l) = 0 ∧ ofScan 1 (taken l) = [Turn 20; Turn 3; Done].
Proof.
  destruct (laneRun (byteBudget 10) (maxScans 2) sampleSchedule (startLane samplePlans))
    as [l|] eqn:E; [|vm_compute in E; discriminate].
  destruct (catch_up_lane_drains 2 10 samplePlans samplePlans_sized _ l E) as [_ H].
  destruct H as (_ & Hslots & Hlive).
  - apply finished_stuck; vm_compute in E; injection E as <-; [|reflexivity].
    apply (bool_decide_unpack _). vm_compute. exact I.
  - exists l. split; [reflexivity|]. split; [exact Hslots|].
    destruct Hlive as [Hb Ht]; [vm_compute in E; by injection E as <-|]. split; [exact Hb|].
    apply (Ht 1%nat (Some [20; 3])). reflexivity.
Defined.
