(* ===== verification/Store.v ===== *)
(** The write store (pkg/mls/store/store.go): inserting messages with duplicate detection,
    installations with their key packages, and commit log entries. The identity log is in
    Publish.v. [sha256] is the Go library's hash, of which nothing is assumed. *)

From S2P Require Import Prelude Types MlsDb ReadStore.

(** [strings.Contains] *)
Definition Contains (s sub : string) : bool :=
  match String.index 0 sub s with Some _ => true | None => false end.

Definition NewAlreadyExistsError (e : error) : error := AlreadyExists e.

Definition IsAlreadyExistsError (e : error) : bool :=
  match e with AlreadyExists _ => true | _ => false end.

(** How the insert methods report a failed insert. *)
Definition insertError (e : error) : error :=
  if Contains (errorString e) "duplicate key value violates unique constraint"
  then NewAlreadyExistsError e else e.

Section Store.
Context (sha256 : bytes → bytes).

(** The statement's failure, when it never reached the table. *)
Definition insert {A} (dbErr : option error) (q : Db → result A * Db) (d : Db) : result A * Db :=
  match dbErr with
  | Some e => (Err (insertError e), d)
  | None => match q d with
            | (Ok a, d) => (Ok a, d)
            | (Err e, d) => (Err (insertError e), d)
            end
  end.

Definition InsertGroupMessage (dbErr : option error) (now : Z) (groupId data senderHmac : bytes)
    (shouldPush isCommit : bool) (d : Db) : result GroupMessageRow * Db :=
  let dataHash := sha256 (groupId +:+ data) in
  insert dbErr
    (MlsDb.InsertGroupMessage now groupId data dataHash senderHmac shouldPush isCommit) d.

Definition InsertWelcomeMessage (dbErr : option error) (now : Z)
    (installationId data hpkePublicKey : bytes) (wrapperAlgorithm : Z) (welcomeMetadata : bytes)
    (d : Db) : result WelcomeMessageRow * Db :=
  let dataHash := sha256 (installationId +:+ data) in
  insert dbErr (MlsDb.InsertWelcomeMessage now installationId data dataHash hpkePublicKey
    wrapperAlgorithm welcomeMetadata) d.

Definition InsertWelcomePointerMessage (dbErr : option error) (now : Z)
    (installationKey welcomePointerData hpkePublicKey : bytes) (wrapperAlgorithm : Z) (d : Db)
    : result WelcomeMessageRow * Db :=
  if bool_decide (len hpkePublicKey = 0) then (Err (Plain "hpke public key is required"), d)
  else
    let dataHash := sha256 (installationKey +:+ welcomePointerData) in
    insert dbErr (MlsDb.InsertWelcomePointerMessage now installationKey welcomePointerData
      dataHash hpkePublicKey wrapperAlgorithm) d.

Definition InsertCommitLog (dbErr : option error) (now : Z)
    (groupId serialized_entry serialized_signature : bytes) (d : Db) : result CommitLogRow * Db :=
  match dbErr with
  | Some e => (Err e, d)
  | None => let '(r, d) := InsertCommitLogV2 now groupId serialized_entry serialized_signature d in
            (Ok r, d)
  end.

(** RunInTx: the statements' effects are kept when they all succeed and the commit does. A rolled
    back transaction would still consume the sequence values it drew, a gap in the ids of later
    key packages which is left out here. *)
Definition RunInTx (beginErr commitErr : option error) (fn : Db → result Db) (d : Db)
    : result () * Db :=
  match beginErr with
  | Some e => (Err e, d)
  | None =>
      match fn d with
      | Err e => (Err e, d)
      | Ok d' => match commitErr with Some e => (Err e, d) | None => (Ok (), d') end
      end
  end.

(** [dbErr k] is the failure of the transaction's k-th statement. *)
Definition Store_CreateOrUpdateInstallation (beginErr commitErr : option error)
    (dbErr : nat → option error) (now : Z) (installationId keyPackage : bytes)
    : Db → result () * Db :=
  RunInTx beginErr commitErr (λ d,
    d ← call (dbErr 0%nat)
          (CreateOrUpdateInstallation installationId now now keyPackage (Some true) d);
    call (dbErr 1%nat) (InsertKeyPackage installationId keyPackage now d)).

(** * Properties *)

(** The table of an insert is extended by the row it returns, or by nothing. *)
Lemma group_insert_cases dbErr now g data hmac push commit d r d' :
  InsertGroupMessage dbErr now g data hmac push commit d = (r, d') →
  (∃ row, r = Ok row ∧ group_messages d' = group_messages d ++ [row]
     ∧ g_ID row = group_messages_seq d' ∧ group_messages_seq d' = group_messages_seq d + 1
     ∧ g_GroupID row = g ∧ g_Data row = data ∧ g_CreatedAt row = now
     ∧ g_ShouldPush row = Some push ∧ g_IsCommit row = Some commit ∧ g_SenderHmac row = hmac
     ∧ g_GroupIDDataHash row = sha256 (g +:+ data)
     ∧ sha256 (g +:+ data) ∉ g_GroupIDDataHash <$> group_messages d)
  ∨ (∃ e, r = Err e ∧ group_messages d' = group_messages d
     ∧ (dbErr = None → IsAlreadyExistsError e = true
                       ∧ sha256 (g +:+ data) ∈ g_GroupIDDataHash <$> group_messages d)).
Proof.
  unfold InsertGroupMessage, insert, MlsDb.InsertGroupMessage. destruct dbErr as [e|].
  { intros [= <- <-]. right. by eexists. }
  simpl. case_bool_decide as Hh; simpl; intros [= <- <-]; [right|left]; eexists.
  - split; [done|]. split; [done|]. by intros _.
  - split_and!; done.
Qed.

Lemma group_rows_app g d d' row :
  wf_db d → wf_db d' → group_messages d' = group_messages d ++ [row] →
  (∀ r, r ∈ group_messages d → g_ID r < g_ID row) →
  group_rows g d' = if decide (g_GroupID row = g) then group_rows g d ++ [row] else group_rows g d.
Proof.
  intros Hd Hd' E Hlt. unfold group_rows. rewrite E, filter_app, filter_cons, filter_nil.
  destruct (wf_group_ids d Hd) as [Hids _]. destruct (wf_group_ids d' Hd') as [Hids' _].
  case_decide as Hg; [|by rewrite app_nil_r].
  apply (ascending_unique g_ID).
  - apply order_by_asc_ascending. rewrite E in Hids'.
    apply (fmap_filter_NoDup g_ID (λ r, g_GroupID r = g)) in Hids'.
    by rewrite filter_app, filter_cons_True, filter_nil in Hids'.
  - apply ascending_app. split_and!.
    + intros a b Ha ->%list_elem_of_singleton. rewrite order_by_asc_Permutation in Ha.
      apply list_elem_of_filter in Ha as [_ Ha]. by apply Hlt.
    + by apply order_by_asc_ascending, fmap_filter_NoDup.
    + apply ascending_singleton.
  - by rewrite !order_by_asc_Permutation.
Qed.

Lemma group_insert_wf dbErr now g data hmac push commit d r d' :
  wf_db d → group_messages_seq d < maxInt64 →
  InsertGroupMessage dbErr now g data hmac push commit d = (r, d') → wf_db d'.
Proof.
  intros Hd Hseq. unfold InsertGroupMessage, insert, MlsDb.InsertGroupMessage.
  destruct dbErr; [by intros [= _ <-]|]. simpl.
  pose proof (wf_group_ids d Hd) as Hk.
  case_bool_decide as Hh; intros [= _ <-]; destruct Hd; split; simpl; try done.
  - apply keyed_consume; [done|lia].
  - apply keyed_insert; [done|done|lia].
  - rewrite fmap_app. apply NoDup_app. split; [done|]. split; [|apply NoDup_singleton].
    intros h Hin ->%list_elem_of_singleton. by apply Hh.
Qed.

(** C26. Publishing a group message. The insert either fails and leaves every group's messages as
    they were, and then, if the statement ran, it is because the hash is already there and the
    error is an AlreadyExists; or it appends the message to its own group, newest, with the next
    id and the fields it was given, and touches no other group. Publishing the same bytes to the
    same group again is then rejected as existing. The database stays well formed. *)
Theorem insert_group_message_spec dbErr now g data hmac push commit d r d' :
  wf_db d → group_messages_seq d < maxInt64 →
  InsertGroupMessage dbErr now g data hmac push commit d = (r, d') →
  wf_db d' ∧
  match r with
  | Ok row =>
      group_rows g d' = group_rows g d ++ [row] ∧
      (∀ g', g' ≠ g → group_rows g' d' = group_rows g' d) ∧
      toGroupMessage row = mkGroupMessage (Some (mkGroupMessage_V1
        (group_messages_seq d + 1) (u64 now) g data hmac push commit)) ∧
      (∀ now2 hmac2 push2 commit2, ∃ e,
         (InsertGroupMessage None now2 g data hmac2 push2 commit2 d').1 = Err e
         ∧ IsAlreadyExistsError e = true)
  | Err e =>
      (∀ g', group_rows g' d' = group_rows g' d) ∧
      (dbErr = None → IsAlreadyExistsError e = true
                      ∧ sha256 (g +:+ data) ∈ g_GroupIDDataHash <$> group_messages d)
  end.
Proof.
  intros Hd Hseq E. pose proof (group_insert_wf _ _ _ _ _ _ _ _ _ _ Hd Hseq E) as Hd'.
  split; [done|].
  destruct (group_insert_cases _ _ _ _ _ _ _ _ _ _ E)
    as [(row & -> & Et & Eid & Es & Eg & Ed & En & Ep & Ec & Eh & Ehash & _)|(e & -> & Et & He)].
  - destruct (wf_group_ids d Hd) as (_ & Hle & Hs).
    assert (Hlt : ∀ x, x ∈ group_messages d → g_ID x < g_ID row).
    { intros x Hx. specialize (Hle x Hx). lia. }
    pose proof (λ g', group_rows_app g' d d' row Hd Hd' Et Hlt) as Hrows. rewrite Eg in Hrows.
    split_and!.
    + by rewrite Hrows, decide_True.
    + intros g' Hg'. by rewrite Hrows, decide_False.
    + unfold toGroupMessage. rewrite Eid, Es, Eg, Ed, En, Ep, Ec, Eh. simpl.
      rewrite (u64_small (group_messages_seq d + 1)); [done|]. unfold maxInt64 in *. lia.
    + intros now2 hmac2 push2 commit2.
      destruct (InsertGroupMessage None now2 g data hmac2 push2 commit2 d') as [r2 d2] eqn:E2.
      destruct (group_insert_cases _ _ _ _ _ _ _ _ _ _ E2)
        as [(row2 & _ & _ & _ & _ & _ & _ & _ & _ & _ & _ & _ & Hfresh)|(e & -> & _ & He)].
      * destruct Hfresh. rewrite Et, fmap_app. simpl. rewrite Ehash. set_solver.
      * exists e. split; [done|]. by apply He.
  - split; [|done]. intros g'. unfold group_rows. by rewrite Et.
Qed.

(** The duplicate test does not separate a group id from the data: two messages whose group id
    and data concatenate to the same bytes count as duplicates, so once one is stored the other,
    to another group, is refused as existing. *)
Theorem hash_boundary now1 now2 g1 data1 g2 data2 hmac push commit d row d' :
  g1 +:+ data1 = g2 +:+ data2 →
  InsertGroupMessage None now1 g1 data1 hmac push commit d = (Ok row, d') →
  ∃ e, (InsertGroupMessage None now2 g2 data2 hmac push commit d').1 = Err e
       ∧ IsAlreadyExistsError e = true.
Proof.
  intros Eb E.
  destruct (InsertGroupMessage None now2 g2 data2 hmac push commit d') as [r2 d2] eqn:E2.
  destruct (group_insert_cases _ _ _ _ _ _ _ _ _ _ E)
    as [(row' & _ & Et & _ & _ & _ & _ & _ & _ & _ & _ & Ehash & _)|(e & ? & _)]; [|done].
  destruct (group_insert_cases _ _ _ _ _ _ _ _ _ _ E2)
    as [(row2 & _ & _ & _ & _ & _ & _ & _ & _ & _ & _ & _ & Hfresh)|(e & -> & _ & He)].
  - destruct Hfresh. rewrite Et, fmap_app, <- Eb. simpl. rewrite Ehash. set_solver.
  - exists e. split; [done|]. by apply He.
Qed.

(** ** Welcomes *)

Lemma welcome_insert_cases now key data hash hpke alg meta kind d r d' :
  insert None (insert_welcome now key data hash hpke alg meta kind) d = (r, d') →
  (r = Ok (mkWelcomeMessageRow (welcome_messages_seq d + 1) now key data hpke hash alg meta kind)
    ∧ welcome_messages d' = welcome_messages d
        ++ [mkWelcomeMessageRow (welcome_messages_seq d + 1) now key data hpke hash alg meta kind])
  ∨ (∃ e, r = Err e ∧ IsAlreadyExistsError e = true ∧ welcome_messages d' = welcome_messages d).
Proof.
  unfold insert, insert_welcome. simpl.
  case_bool_decide; intros [= <- <-]; [right; by eexists|by left].
Qed.

(** C33. A stored welcome reads back as it was sent: the row of an accepted welcome converts to a
    V1 message with the fields given and the next id, the row of an accepted welcome pointer to a
    welcome pointer; a pointer without an HPKE key is refused and changes nothing. *)
Theorem welcome_insert_roundtrip now key data hpke meta proto d :
  0 ≤ welcome_messages_seq d < maxInt64 →
  (∀ row d', (proto = ProtoAlg.CURVE25519 ∨ proto = ProtoAlg.XWING_MLKEM_768_DRAFT_6
              ∨ proto = ProtoAlg.SYMMETRIC_KEY) →
    InsertWelcomeMessage None now key data hpke (WrapperAlgorithmFromProto proto) meta d
      = (Ok row, d') →
    welcome_messages d' = welcome_messages d ++ [row] ∧
    toWelcomeMessage row = Some (WelcomeV1 (mkWelcomeMessage_V1 (welcome_messages_seq d + 1)
      (u64 now) key data hpke proto meta))) ∧
  (∀ alg row d', WelcomePointerWrapperAlgorithmFromProto proto = Ok alg →
    InsertWelcomePointerMessage None now key data hpke alg d = (Ok row, d') →
    hpke ≠ EmptyString ∧ welcome_messages d' = welcome_messages d ++ [row] ∧
    toWelcomeMessage row = Some (WelcomePointerV (mkWelcomePointer (welcome_messages_seq d + 1)
      (u64 now) key data hpke proto))) ∧
  (∀ alg, InsertWelcomePointerMessage None now key data EmptyString alg d
          = (Err (Plain "hpke public key is required"), d)).
Proof.
  intros Hseq.
  assert (Hu : u64 (welcome_messages_seq d + 1) = welcome_messages_seq d + 1).
  { apply u64_small. unfold maxInt64 in *. lia. }
  split_and!.
  - intros row d' Hp E. apply welcome_insert_cases in E as [[[= ->] Et]|(e & ? & _)]; [|done].
    split; [done|]. unfold toWelcomeMessage. simpl. rewrite Hu. do 3 f_equal.
    by destruct Hp as [->|[->| ->]].
  - intros alg row d' Hp E. unfold InsertWelcomePointerMessage in E.
    case_bool_decide as Hk; [done|].
    apply welcome_insert_cases in E as [[[= ->] Et]|(e & ? & _)]; [|done].
    split; [by intros ->|]. split; [done|]. unfold toWelcomeMessage. simpl. rewrite Hu.
    do 3 f_equal. revert Hp. unfold WelcomePointerWrapperAlgorithmFromProto.
    case_bool_decide as Ep; [|done]. intros [= <-]. by rewrite Ep.
  - intros alg. done.
Qed.
End Store.

(** * Installations *)

Lemma fetch_one id d :
  NoDup (i_ID <$> installations d) →
  MlsDb.FetchKeyPackages [id] d
  = match GetInstallation id d with Some r => [(i_ID r, i_KeyPackage r)] | None => [] end.
Proof.
  unfold MlsDb.FetchKeyPackages, GetInstallation. intros Hd.
  rewrite (list_filter_iff _ (λ r, i_ID r = id)) by (intros; apply list_elem_of_singleton).
  induction (installations d) as [|r l IH]; [done|]. rewrite fmap_cons, NoDup_cons in Hd.
  destruct Hd as [Hr Hd]. rewrite filter_cons. case_decide as E; [|by apply IH].
  simpl. rewrite filter_drop_all; [done|]. intros x Hx Ex. apply Hr. rewrite E, <- Ex.
  by apply list_elem_of_fmap_2.
Qed.

Lemma GetInstallation_id id d r : GetInstallation id d = Some r → i_ID r = id.
Proof.
  unfold GetInstallation. intros E%head_Some_elem_of. by apply list_elem_of_filter in E as [? _].
Qed.

Lemma head_map {A B} (f : A → B) (l : list A) : head (f <$> l) = f <$> head l.
Proof. by destruct l. Qed.

Lemma upsert_NoDup id created updated kp appended d :
  NoDup (i_ID <$> installations d) →
  NoDup (i_ID <$> installations (CreateOrUpdateInstallation id created updated kp appended d)).
Proof.
  intros Hd. unfold CreateOrUpdateInstallation. case_bool_decide as Hin; simpl.
  - rewrite <- list_fmap_compose. erewrite list_fmap_ext; [exact Hd|].
    intros i r _. simpl. by case_decide.
  - rewrite fmap_app. apply NoDup_app. split; [done|]. split; [|apply NoDup_singleton].
    intros x Hx ->%list_elem_of_singleton. by apply Hin.
Qed.

Lemma upsert_lookup id created updated kp appended d id' :
  GetInstallation id' (CreateOrUpdateInstallation id created updated kp appended d)
  = if decide (id' = id) then
      Some (match GetInstallation id d with
            | Some r => r <| i_KeyPackage := kp |> <| i_UpdatedAt := updated |>
            | None => mkInstallationRow id created updated kp appended
            end)
    else GetInstallation id' d.
Proof.
  unfold CreateOrUpdateInstallation, GetInstallation. case_bool_decide as Hin; simpl.
  - rewrite (fmap_filter_comm _ _ (λ r, i_ID r = id')) by (intros r; by case_decide).
    rewrite head_map. case_decide as Ei; [subst id'|].
    + assert (Hex : ∃ r, head (filter (λ r, i_ID r = id) (installations d)) = Some r).
      { apply list_elem_of_fmap in Hin as (r & Er & Hr).
        destruct (filter _ (installations d)) as [|x l] eqn:Ef; [|by exists x].
        assert (Hrf : r ∈ filter (λ r, i_ID r = id) (installations d))
          by (by apply list_elem_of_filter).
        rewrite Ef in Hrf. by apply elem_of_nil in Hrf. }
      destruct Hex as [r Er]. rewrite Er. simpl. f_equal.
      apply head_Some_elem_of, list_elem_of_filter in Er as [Er _]. by rewrite decide_True.
    + destruct (head _) as [r|] eqn:Er; [|done]. simpl. f_equal.
      apply head_Some_elem_of, list_elem_of_filter in Er as [Er _].
      rewrite decide_False; [done|]. congruence.
  - rewrite filter_app, filter_cons, filter_nil. simpl. case_decide as Ei; [subst id'|].
    + rewrite decide_True by done. rewrite (filter_drop_all _ (installations d)); [done|].
      intros r Hr Er. apply Hin. rewrite <- Er. by apply list_elem_of_fmap_2.
    + rewrite decide_False by congruence. by rewrite app_nil_r.
Qed.

Lemma insert_key_package_elem id kp now d :
  (id, kp) ∈ ((λ k, (k_InstallationID k, k_KeyPackage k))
                <$> key_packages (InsertKeyPackage id kp now d)).
Proof.
  unfold InsertKeyPackage. case_bool_decide as Hin; simpl in *; [done|].
  rewrite fmap_app. apply elem_of_app. right. left.
Qed.

(** Registering an installation, or refreshing its key package. When the transaction succeeds
    the installation's key package is the new one and is in its key package history, a first
    registration stamps both times and a refresh keeps the creation time, and no other
    installation changes; when it fails nothing does. *)
Theorem installation_registered beginErr commitErr dbErr now id kp d r d' :
  wf_db d →
  Store_CreateOrUpdateInstallation beginErr commitErr dbErr now id kp d = (r, d') →
  match r with
  | Err _ => d' = d
  | Ok _ =>
      NoDup (i_ID <$> installations d') ∧
      MlsDb.FetchKeyPackages [id] d' = [(id, kp)] ∧
      (id, kp) ∈ ((λ k, (k_InstallationID k, k_KeyPackage k)) <$> key_packages d') ∧
      (i_CreatedAt <$> GetInstallation id d')
        = Some (default now (i_CreatedAt <$> GetInstallation id d)) ∧
      (i_UpdatedAt <$> GetInstallation id d') = Some now ∧
      (∀ id', id' ≠ id → GetInstallation id' d' = GetInstallation id' d)
  end.
Proof.
  intros Hd E. unfold Store_CreateOrUpdateInstallation, RunInTx in E.
  destruct beginErr; [by simplify_eq|].
  destruct (dbErr 0%nat); simpl in E; [by simplify_eq|].
  destruct (dbErr 1%nat); simpl in E; [by simplify_eq|].
  destruct commitErr; [by simplify_eq|]. injection E as <- <-. cbv beta iota.
  assert (Hi : NoDup (i_ID <$> installations d)) by apply Hd.
  pose proof (upsert_NoDup id now now kp (Some true) d Hi) as Hi'.
  set (d1 := CreateOrUpdateInstallation id now now kp (Some true) d) in *.
  assert (Einst : installations (InsertKeyPackage id kp now d1) = installations d1)
    by (unfold InsertKeyPackage; by case_bool_decide).
  assert (Eget : ∀ id', GetInstallation id' (InsertKeyPackage id kp now d1)
                        = GetInstallation id' d1)
    by (intros; unfold GetInstallation; by rewrite Einst).
  rewrite fetch_one by (by rewrite Einst). rewrite Einst, Eget. unfold d1.
  rewrite upsert_lookup, decide_True by done.
  split_and!.
  - done.
  - pose proof (GetInstallation_id id d) as Hid.
    destruct (GetInstallation id d) as [x|]; simpl; [|done]. by rewrite (Hid x).
  - apply insert_key_package_elem.
  - by destruct (GetInstallation id d).
  - by destruct (GetInstallation id d).
  - intros id' Hne. rewrite Eget. unfold d1. by rewrite upsert_lookup, decide_False.
Qed.

(** * Concrete inputs *)

Lemma insert_group_message_spec_witness :
  ∃ row d', InsertGroupMessage (λ b, b) None 5000 "g" "new" "" true false sampleDb = (Ok row, d')
    ∧ wf_db d' ∧ group_rows "g" d' = group_rows "g" sampleDb ++ [row] ∧ g_ID row = 5.
Proof.
  destruct (InsertGroupMessage (λ b, b) None 5000 "g" "new" "" true false sampleDb)
    as [r d'] eqn:E.
  destruct (insert_group_message_spec (λ b, b) None 5000 "g" "new" "" true false sampleDb r d'
    sampleDb_wf ltac:(done) E) as [Hwf H].
  destruct r as [row|e]; [|vm_compute in E; discriminate].
  exists row, d'. split; [done|]. split; [done|]. split; [apply H|].
  vm_compute in E. by injection E as <- _.
Defined.

Lemma hash_boundary_witness :
  ∃ row d' e,
    InsertGroupMessage (λ b, b) None 5000 "ab" "c" "" true false sampleDb = (Ok row, d') ∧
    (InsertGroupMessage (λ b, b) None 6000 "a" "bc" "" true false d').1 = Err e ∧
    IsAlreadyExistsError e = true.
Proof.
  destruct (InsertGroupMessage (λ b, b) None 5000 "ab" "c" "" true false sampleDb)
    as [[row|e] d'] eqn:E; [|vm_compute in E; discriminate].
  destruct (hash_boundary (λ b, b) 5000 6000 "ab" "c" "a" "bc" "" true false sampleDb row d')
    as (e & He); [done|done|]. by exists row, d', e.
Defined.

Lemma welcome_insert_roundtrip_witness :
  ∃ row d', InsertWelcomeMessage (λ b, b) None 5000 "k" "w" "p"
      (WrapperAlgorithmFromProto ProtoAlg.SYMMETRIC_KEY) "m" sampleDb = (Ok row, d') ∧
    toWelcomeMessage row = Some (WelcomeV1
      (mkWelcomeMessage_V1 4 5000 "k" "w" "p" ProtoAlg.SYMMETRIC_KEY "m")).
Proof.
  destruct (InsertWelcomeMessage (λ b, b) None 5000 "k" "w" "p"
      (WrapperAlgorithmFromProto ProtoAlg.SYMMETRIC_KEY) "m" sampleDb) as [[row|e] d'] eqn:E;
    [|vm_compute in E; discriminate].
  exists row, d'. split; [done|].
  destruct (welcome_insert_roundtrip (λ b, b) 5000 "k" "w" "p" "m" ProtoAlg.SYMMETRIC_KEY
    sampleDb ltac:(done)) as (H & _ & _).
  apply (H row d' ltac:(by right; right) E).
Defined.

Lemma installation_registered_witness :
  ∃ d', Store_CreateOrUpdateInstallation None None (λ _, None) 5000 "k" "kp2" sampleDb
        = (Ok (), d') ∧
    MlsDb.FetchKeyPackages ["k"] d' = [("k", "kp2")] ∧
    (i_CreatedAt <$> GetInstallation "k" d') = Some 1000.
Proof.
  destruct (Store_CreateOrUpdateInstallation None None (λ _, None) 5000 "k" "kp2" sampleDb)
    as [[[]|e] d'] eqn:E; [|vm_compute in E; discriminate].
  destruct (installation_registered None None (λ _, None) 5000 "k" "kp2" sampleDb (Ok ()) d'
    sampleDb_wf E) as (_ & H1 & _ & H2 & _).
  exists d'. split; [done|]. split; [done|]. by rewrite H2.
Defined.
