(* ===== verification/Publish.v ===== *)
(** Publishing identity updates (Store.PublishIdentityUpdate and RunInRepeatableReadTx in
    pkg/mls/store/store.go), with any number of concurrent publishers. A transaction is the
    sequence of its statements; PostgreSQL's repeatable read is modelled by the snapshot a
    transaction takes at its first statement, by sequence values drawn outside the transaction,
    and by the conflict TouchInbox raises when the inbox's row changed after the snapshot. BEGIN, any
    statement, the validation service or COMMIT may fail at any point, as they do when the request is
    cancelled, and a COMMIT may take effect without its answer arriving. Decoding
    and encoding updates (protobuf), validating them (a remote service) and hashtext are
    parameters, of which nothing is assumed. *)

From S2P Require Import Prelude MlsDb ReadStore.

Inductive MemberIdentifier :=
  | EthereumAddress (address : string)
  | OtherMember.

Record StateDiff := mkStateDiff {
  NewMembers : list MemberIdentifier;
  RemovedMembers : list MemberIdentifier;
}.

Definition inboxLogLimit : Z := 256.
Definition numRetries : nat := 3.

Definition serializationFailure : error :=
  Plain "pq: could not serialize access due to concurrent update".

Section Publish.
Context {IdentityUpdate : Type}.
Context (GetInboxId : IdentityUpdate → string).
Context (Unmarshal : bytes → result IdentityUpdate) (Marshal : IdentityUpdate → result bytes).
Context (GetAssociationState : list IdentityUpdate → list IdentityUpdate → result StateDiff).
Context (hashtext : string → Z).

(** * The body of the transaction *)

(** Up to the insert: read the log, check its length, validate the new update against it. *)
Definition prepare (newUpdate : IdentityUpdate) (d : Db) : result (bytes * StateDiff) :=
  inboxLogEntries ← GetAllInboxLogs (GetInboxId newUpdate) d;
  if bool_decide (inboxLogLimit ≤ Z.of_nat (length inboxLogEntries))
  then Err (Plain "inbox log is full")
  else
    updates ← mapErr (λ log, Unmarshal (il_IdentityUpdateProto log)) inboxLogEntries;
    diff ← GetAssociationState updates [newUpdate];
    protoBytes ← Marshal newUpdate;
    Ok (protoBytes, diff).

Fixpoint insertMembers (inboxId : string) (sequence_id : Z) (members : list MemberIdentifier)
    (d : Db) : result Db :=
  match members with
  | [] => Ok d
  | EthereumAddress address :: members =>
      r ← InsertAddressLog address inboxId (Some sequence_id) None d;
      insertMembers inboxId sequence_id members r.2
  | OtherMember :: members => insertMembers inboxId sequence_id members d
  end.

Fixpoint revokeMembers (inboxId : string) (sequence_id : Z) (members : list MemberIdentifier)
    (d : Db) : result Db :=
  match members with
  | [] => Ok d
  | EthereumAddress address :: members =>
      d ← RevokeAddressFromLog (Some sequence_id) address inboxId d;
      revokeMembers inboxId sequence_id members d
  | OtherMember :: members => revokeMembers inboxId sequence_id members d
  end.

(** The rows the transaction leaves, once the log entry's sequence id is drawn. *)
Definition writes (now : Z) (newUpdate : IdentityUpdate) (sequence_id : Z) (protoBytes : bytes)
    (diff : StateDiff) (d : Db) : result Db :=
  let inboxId := GetInboxId newUpdate in
  id ← decoded inboxId;
  d ← insertMembers inboxId sequence_id (NewMembers diff)
        (addInboxLog sequence_id id now protoBytes d);
  d ← revokeMembers inboxId sequence_id (RemovedMembers diff) d;
  TouchInbox now inboxId d.

(** The transaction on its own. *)
Definition publishTx (now : Z) (newUpdate : IdentityUpdate) (d : Db) : result Db :=
  p ← prepare newUpdate d;
  writes now newUpdate (nextInboxSeq d) p.1 p.2 (drawInboxSeq d).

(** * Concurrent publishers *)

(** Where a publisher stands in RunInRepeatableReadTx: at the top of the loop, after its first
    statement took the snapshot (which is when LockInboxLog starts waiting), with the lock, with
    the log entry's id drawn, or done. [version] counts the changes of the inbox's row the
    snapshot sees. *)
Inductive txPhase :=
  | Ready (attempts : nat)
  | Begun (attempts : nat) (snap : Db) (version : nat)
  | Locked (attempts : nat) (snap : Db) (version : nat)
  | Inserted (attempts : nat) (snap : Db) (version : nat) (seq : Z) (proto : bytes)
      (diff : StateDiff)
  | Published
  | Failed (e : error).

Record sys := mkSys {
  live : Db;                                  (* what is committed *)
  versions : gmap bytes nat;                  (* changes of each inbox row *)
  locks : gmap Z nat;                         (* advisory locks and their holders *)
  procs : gmap nat (IdentityUpdate * txPhase);
}.

#[export] Instance sys_eta : Eta sys := λ s, mkSys (live s) (versions s) (locks s) (procs s).

Inductive label :=
  | Arrive (i : nat) (newUpdate : IdentityUpdate)
  | Begin (i : nat)
  | Lock (i : nat)
  | Insert (i : nat)
  | Commit (i : nat) (now : Z)
  | Fails (i : nat) (e : error)    (* BEGIN, a statement, the validation or COMMIT fails *)
  | LoseAnswer (i : nat) (now : Z) (e : error)    (* COMMIT takes effect, the connection breaks *)
  | Cancel (i : nat).    (* the request's context ends, seen at the top of the loop *)

Definition versionOf (id : bytes) (s : sys) : nat := default 0%nat (versions s !! id).

Definition setProc (i : nat) (u : IdentityUpdate) (p : txPhase) (s : sys) : sys :=
  s <| procs := <[i := (u, p)]> (procs s) |>.

Definition releaseLock (u : IdentityUpdate) (s : sys) : sys :=
  s <| locks := delete (hashtext (GetInboxId u)) (locks s) |>.

(** The rest of the loop after a failed attempt. *)
Definition retry (i : nat) (u : IdentityUpdate) (attempts : nat) (e : error) (s : sys) : sys :=
  setProc i u (match attempts with S (S n) => Ready (S n) | _ => Failed e end) s.

Definition inboxOf (u : IdentityUpdate) : option bytes := decodeHex (GetInboxId u).

(** The statements after the insert, and COMMIT, whose answer may be lost: the loop then goes on as
    after any error. *)
Definition commitTx (i : nat) (now : Z) (lost : option error) (s : sys) : option sys :=
  match procs s !! i, (procs s !! i) ≫= inboxOf ∘ fst with
  | Some (u, Inserted n snap v seq proto diff), Some id =>
      let s := releaseLock u s in
      if bool_decide (versionOf id s = v) then
        match writes now u seq proto diff (live s) with
        | Ok d =>
            let s := s <| live := d |> <| versions := <[id := S v]> (versions s) |> in
            Some (match lost with None => setProc i u Published s | Some e => retry i u n e s end)
        | Err e => Some (retry i u n e s)
        end
      else Some (retry i u n serializationFailure s)
  | _, _ => None
  end.

(** An attempt that fails is rolled back: only the sequence value stays drawn. *)
Definition failTx (i : nat) (e : error) (s : sys) : option sys :=
  match procs s !! i with
  | Some (u, Ready n) | Some (u, Begun n _ _) => Some (retry i u n e s)
  | Some (u, Locked n _ _) | Some (u, Inserted n _ _ _ _ _) => Some (retry i u n e (releaseLock u s))
  | _ => None
  end.

Definition step (a : label) (s : sys) : option sys :=
  match a with
  | Arrive i u =>
      match procs s !! i with
      | None => Some (setProc i u (Ready numRetries) s)
      | Some _ => None
      end
  | Begin i =>
      match procs s !! i with
      | Some (u, Ready n) =>
          Some (setProc i u (Begun n (live s) (default 0%nat (flip versionOf s <$> inboxOf u))) s)
      | _ => None
      end
  | Lock i =>
      match procs s !! i with
      | Some (u, Begun n snap v) =>
          match locks s !! hashtext (GetInboxId u) with
          | None => Some (setProc i u (Locked n snap v)
                      (s <| locks := <[hashtext (GetInboxId u) := i]> (locks s) |>))
          | Some _ => None
          end
      | _ => None
      end
  | Insert i =>
      match procs s !! i with
      | Some (u, Locked n snap v) =>
          match prepare u snap with
          | Err e => Some (retry i u n e (releaseLock u s))
          | Ok (proto, diff) =>
              Some (setProc i u (Inserted n snap v (nextInboxSeq (live s)) proto diff)
                (s <| live := drawInboxSeq (live s) |>))
          end
      | _ => None
      end
  | Commit i now => commitTx i now None s
  | Fails i e => failTx i e s
  | LoseAnswer i now e => commitTx i now (Some e) s
  | Cancel i =>
      match procs s !! i with
      | Some (u, Ready n) => Some (setProc i u (Failed ContextCanceled) s)
      | _ => None
      end
  end.

Fixpoint exec (as_ : list label) (s : sys) : option sys :=
  match as_ with
  | [] => Some s
  | a :: as_ => match step a s with Some s => exec as_ s | None => None end
  end.

(** No publisher yet. *)
Definition start (d : Db) : sys := mkSys d ∅ ∅ ∅.

(** * Valid logs *)

(** A log each of whose entries was accepted by the validation service as the next update after
    exactly the entries before it, and that never outgrew the limit. *)
Inductive valid_log : list bytes → Prop :=
  | valid_empty : valid_log []
  | valid_next ps updates u diff p :
      valid_log ps → Z.of_nat (length ps) < inboxLogLimit → mapErr Unmarshal ps = Ok updates →
      GetAssociationState updates [u] = Ok diff → Marshal u = Ok p → valid_log (ps ++ [p]).

Definition protos (id : bytes) (d : Db) : list bytes := l_IdentityUpdateProto <$> inbox_rows id d.

Lemma prepare_spec u d proto diff :
  prepare u d = Ok (proto, diff) →
  ∃ id updates, inboxOf u = Some id ∧ Z.of_nat (length (protos id d)) < inboxLogLimit ∧
    mapErr Unmarshal (protos id d) = Ok updates ∧
    GetAssociationState updates [u] = Ok diff ∧ Marshal u = Ok proto.
Proof.
  unfold prepare, GetAllInboxLogs, decoded, inboxOf. destruct (decodeHex (GetInboxId u)) as [id|];
    [|done]. simpl. case_bool_decide as Hl; [done|]. rewrite mapErr_fmap.
  fold (inbox_rows id d) in *. intros E.
  assert (Ep : mapErr Unmarshal (protos id d)
    = mapErr (λ a, Unmarshal (il_IdentityUpdateProto (inboxLogsRow a))) (inbox_rows id d))
    by apply mapErr_fmap.
  destruct (mapErr _ (inbox_rows id d)) as [updates|]; [|done]. simpl in E.
  destruct (GetAssociationState updates [u]) as [diff'|] eqn:Eg; [|done]. simpl in E.
  destruct (Marshal u) as [p|] eqn:Em; [|done]. injection E as -> ->.
  exists id, updates. split_and!; try done.
  unfold protos. rewrite length_fmap. rewrite length_fmap in Hl. lia.
Qed.

(** The body reads nothing of the database but the inbox's own log. *)
Lemma prepare_reads u d d' :
  (∀ id, inboxOf u = Some id → inbox_rows id d = inbox_rows id d') → prepare u d = prepare u d'.
Proof.
  unfold prepare, GetAllInboxLogs, decoded, inboxOf. intros H.
  destruct (decodeHex (GetInboxId u)) as [id|]; [|done]. simpl.
  specialize (H id eq_refl). unfold inbox_rows in H. by rewrite H.
Qed.

(** ** What the writes do to the log *)

Definition same_log (d d' : Db) : Prop :=
  inbox_log d' = inbox_log d ∧ inbox_log_seq d' = inbox_log_seq d.

Lemma insertMembers_spec inboxId id seq members d :
  decodeHex inboxId = Some id → ∃ d', insertMembers inboxId seq members d = Ok d' ∧ same_log d d'.
Proof.
  intros Hid. revert d. induction members as [|[address|] members IH]; intros d; simpl.
  - by exists d.
  - unfold InsertAddressLog, decoded. rewrite Hid. simpl.
    match goal with |- ∃ _, insertMembers _ _ _ ?d1 = _ ∧ _ =>
      destruct (IH d1) as (d' & -> & E1 & E2) end.
    exists d'. split; [done|]. split; [exact E1|exact E2].
  - apply IH.
Qed.

Lemma revokeMembers_spec inboxId id seq members d :
  decodeHex inboxId = Some id → ∃ d', revokeMembers inboxId seq members d = Ok d' ∧ same_log d d'.
Proof.
  intros Hid. revert d. induction members as [|[address|] members IH]; intros d; simpl.
  - by exists d.
  - unfold RevokeAddressFromLog, decoded. rewrite Hid. simpl.
    match goal with |- ∃ _, revokeMembers _ _ _ ?d1 = _ ∧ _ =>
      destruct (IH d1) as (d' & -> & E1 & E2) end.
    exists d'. split; [done|]. split; [exact E1|exact E2].
  - apply IH.
Qed.

(** The writes fail only where the inbox id does not decode; they add one row to the log. *)
Lemma writes_spec now u id seq proto diff d :
  inboxOf u = Some id →
  ∃ d', writes now u seq proto diff d = Ok d' ∧ inbox_log_seq d' = inbox_log_seq d ∧
    inbox_log d' = inbox_log d ++ [mkInboxLogRow seq id now proto].
Proof.
  unfold inboxOf. intros Hid. unfold writes, decoded. rewrite Hid. simpl.
  edestruct insertMembers_spec as (d1 & -> & E1 & E2); [done|]. simpl.
  edestruct revokeMembers_spec as (d2 & -> & E3 & E4); [done|]. simpl.
  unfold TouchInbox, decoded. rewrite Hid. simpl. eexists. split; [done|]. simpl.
  by rewrite E4, E2, E3, E1.
Qed.

(** ** Log tables *)

Definition log_keyed (d : Db) : Prop :=
  NoDup (l_SequenceID <$> inbox_log d) ∧
  ∀ r, r ∈ inbox_log d → l_SequenceID r ≤ inbox_log_seq d.

Lemma inbox_rows_app id row d d' :
  log_keyed d' → inbox_log d' = inbox_log d ++ [row] →
  (∀ r, r ∈ inbox_rows (l_InboxID row) d → l_SequenceID r < l_SequenceID row) →
  inbox_rows id d' = inbox_rows id d ++ (if decide (l_InboxID row = id) then [row] else []).
Proof.
  intros [Hd' _] E Hlt. unfold inbox_rows in *. rewrite E, filter_app, filter_cons, filter_nil.
  rewrite E in Hd'. case_decide as Hid; [|by rewrite !app_nil_r].
  apply (fmap_filter_NoDup l_SequenceID (λ r, l_InboxID r = id)) in Hd'.
  rewrite filter_app, filter_cons_True, filter_nil in Hd' by done. subst id.
  apply (ascending_unique l_SequenceID).
  - by apply order_by_asc_ascending.
  - apply ascending_app. split_and!; [|apply order_by_asc_ascending|apply ascending_singleton].
    + intros a b Ha ->%list_elem_of_singleton. by apply Hlt.
    + rewrite fmap_app in Hd'. by apply NoDup_app in Hd' as [? _].
  - by rewrite !order_by_asc_Permutation.
Qed.

(** ** The invariant of the publishers *)

(** A snapshot is older than what is committed, and has the inbox's current log as long as the
    inbox's row has not changed since. *)
Definition snap_ok (s : sys) (u : IdentityUpdate) (snap : Db) (v : nat) : Prop :=
  log_keyed snap ∧ inbox_log_seq snap ≤ inbox_log_seq (live s) ∧
  ∀ id, inboxOf u = Some id →
    (v ≤ versionOf id s)%nat ∧ (versionOf id s = v → inbox_rows id (live s) = inbox_rows id snap).

Definition seqOf (p : txPhase) : option Z :=
  match p with Inserted _ _ _ seq _ _ => Some seq | _ => None end.

Definition proc_ok (s : sys) (u : IdentityUpdate) (p : txPhase) : Prop :=
  match p with
  | Begun _ snap v | Locked _ snap v => snap_ok s u snap v
  | Inserted _ snap v seq proto diff =>
      snap_ok s u snap v ∧ prepare u snap = Ok (proto, diff) ∧
      inbox_log_seq snap < seq ≤ inbox_log_seq (live s) ∧
      seq ∉ l_SequenceID <$> inbox_log (live s)
  | _ => True
  end.

Record inv (s : sys) : Prop := {
  inv_keyed : log_keyed (live s);
  inv_valid : ∀ id, valid_log (protos id (live s));
  inv_proc : ∀ i u p, procs s !! i = Some (u, p) → proc_ok s u p;
  inv_seqs : ∀ i j u u' p p' seq, procs s !! i = Some (u, p) → procs s !! j = Some (u', p') →
    seqOf p = Some seq → seqOf p' = Some seq → i = j;
}.

Lemma inv_locks s l : inv s → inv (s <| locks := l |>).
Proof. intros [H1 H2 H3 H4]. by split. Qed.

(** A publisher moves without changing what is committed. *)
Lemma inv_setProc i u p s : inv s → proc_ok s u p → seqOf p = None → inv (setProc i u p s).
Proof.
  intros [H1 H2 H3 H4] Hp Hs. split; [done|done| |]; simpl.
  - intros j u' p' [[<- [= <- <-]]|[_ Hj]]%lookup_insert_Some; [exact Hp|exact (H3 j u' p' Hj)].
  - intros j k u1 u2 p1 p2 seq [[<- [= <- <-]]|[_ Hj]]%lookup_insert_Some
      [[<- [= <- <-]]|[_ Hk]]%lookup_insert_Some; [done|congruence|congruence|].
    by eapply H4.
Qed.

Lemma inv_retry i u n e s : inv s → inv (retry i u n e s).
Proof. intros. apply inv_setProc; [done|..]; by destruct n as [|[|n]]. Qed.

Lemma snap_ok_now s u :
  log_keyed (live s) → snap_ok s u (live s) (default 0%nat (flip versionOf s <$> inboxOf u)).
Proof. intros H. split; [done|]. split; [lia|]. intros id ->. simpl. by split. Qed.

(** Drawing a sequence value. *)
Lemma inv_insert i u n snap v proto diff s :
  inv s → procs s !! i = Some (u, Locked n snap v) → prepare u snap = Ok (proto, diff) →
  inv (setProc i u (Inserted n snap v (nextInboxSeq (live s)) proto diff)
    (s <| live := drawInboxSeq (live s) |>)).
Proof.
  intros [H1 H2 H3 H4] Hi Hp. destruct H1 as [Hnd Hle].
  pose proof (H3 _ _ _ Hi) as (Hk & Hseq & Hsnap). unfold nextInboxSeq.
  assert (Hold : ∀ j u' p' seq, procs s !! j = Some (u', p') → seqOf p' = Some seq →
    seq ≤ inbox_log_seq (live s)).
  { intros j u' p' seq Hj Hs. apply H3 in Hj. destruct p'; simplify_eq/=. lia. }
  split; simpl.
  - split; [done|]. simpl. intros r Hr. specialize (Hle r Hr). unfold nextInboxSeq. lia.
  - done.
  - intros j u' p' [[<- [= <- <-]]|[_ Hj]]%lookup_insert_Some.
    + split; [|split; [done|split]]; simpl.
      * split; [done|]. split; [simpl; unfold nextInboxSeq; lia|]. exact Hsnap.
      * unfold nextInboxSeq. lia.
      * intros (r & Er & Hr)%list_elem_of_fmap. specialize (Hle r Hr). lia.
    + apply H3 in Hj. destruct p' as [|m sn w|m sn w|m sn w sq pr df| |]; try done.
      * destruct Hj as (? & ? & ?). split; [done|]. split; [simpl; unfold nextInboxSeq; lia|done].
      * destruct Hj as (? & ? & ?). split; [done|]. split; [simpl; unfold nextInboxSeq; lia|done].
      * destruct Hj as ((? & ? & ?) & ? & ? & ?). split; [|split; [done|split; [|done]]].
        { split; [done|]. split; [simpl; unfold nextInboxSeq; lia|done]. }
        simpl. unfold nextInboxSeq. lia.
  - intros j k u1 u2 p1 p2 seq [[<- [= <- <-]]|[? Hj]]%lookup_insert_Some
      [[<- [= <- <-]]|[? Hk']]%lookup_insert_Some E1 E2; simplify_eq/=; [done|..].
    + specialize (Hold _ _ _ _ Hk' E2). lia.
    + specialize (Hold _ _ _ _ Hj E1). lia.
    + by eapply H4.
Qed.

(** A transaction that meets no conflict read the inbox's current log. *)
Lemma commit_reads_current i u id n snap v seq proto diff s :
  inv s → procs s !! i = Some (u, Inserted n snap v seq proto diff) → inboxOf u = Some id →
  versionOf id s = v →
  prepare u (live s) = Ok (proto, diff) ∧
  ∀ r, r ∈ inbox_rows id (live s) → l_SequenceID r < seq.
Proof.
  intros [_ _ H3 _] Hi Hid Hv. destruct (H3 _ _ _ Hi) as (([_ Hk] & _ & Hs) & Hp & Hseq & _).
  destruct (Hs id Hid) as [_ Hrows]. specialize (Hrows Hv). split.
  - rewrite <- Hp. apply prepare_reads. intros id'. rewrite Hid. by intros [= <-].
  - rewrite Hrows. intros r Hr. unfold inbox_rows in Hr.
    rewrite order_by_asc_Permutation, list_elem_of_filter in Hr. destruct Hr as [_ Hr].
    specialize (Hk r Hr). lia.
Qed.

Lemma snap_ok_commit s u snap w id row d v :
  snap_ok s u snap w → log_keyed d → inbox_log d = inbox_log (live s) ++ [row] →
  l_InboxID row = id → (∀ r, r ∈ inbox_rows id (live s) → l_SequenceID r < l_SequenceID row) →
  inbox_log_seq d = inbox_log_seq (live s) → versionOf id s = v →
  snap_ok (s <| live := d |> <| versions := <[id := S v]> (versions s) |>) u snap w.
Proof.
  intros (Hk & Hseq & Hs) Hd E Hid Hlt Eseq Hv. split; [done|]. split; [simpl; lia|].
  intros id' Hid'. destruct (Hs id' Hid') as [Hle Hrows]. unfold versionOf in *. simpl.
  destruct (decide (id' = id)) as [->|Hne].
  - rewrite lookup_insert_eq. simpl. split; [lia|]. intros Ew. lia.
  - rewrite lookup_insert_ne by done. split; [done|]. intros Ew. rewrite <- Hrows by done.
    rewrite (inbox_rows_app id' row (live s) d); [|done|done|by rewrite Hid].
    rewrite decide_False by congruence. apply app_nil_r.
Qed.

Definition outside (p : txPhase) : Prop :=
  match p with Ready _ | Published | Failed _ => True | _ => False end.

Lemma inv_commit i u id n snap v seq proto diff now d p s :
  inv s → procs s !! i = Some (u, Inserted n snap v seq proto diff) → inboxOf u = Some id →
  versionOf id s = v → writes now u seq proto diff (live s) = Ok d → outside p →
  inv (setProc i u p (s <| live := d |> <| versions := <[id := S v]> (versions s) |>)).
Proof.
  intros Hinv Hi Hid Hv Hw Hout.
  destruct (commit_reads_current _ _ _ _ _ _ _ _ _ _ Hinv Hi Hid Hv) as [Hp Hlt].
  destruct Hinv as [H1 H2 H3 H4]. destruct H1 as [Hnd Hle].
  destruct (H3 _ _ _ Hi) as (_ & _ & Hseq & Hfresh).
  destruct (writes_spec now u id seq proto diff (live s) Hid) as (d' & Hw' & Es & El).
  rewrite Hw in Hw'. injection Hw' as <-. set (row := mkInboxLogRow seq id now proto) in *.
  assert (Hd : log_keyed d).
  { split.
    - rewrite El, fmap_app. apply NoDup_app. split; [done|]. split; [|apply NoDup_singleton].
      intros x Hx ->%list_elem_of_singleton. by apply Hfresh.
    - rewrite El, Es. intros r [Hr| ->%list_elem_of_singleton]%elem_of_app; [by apply Hle|].
      simpl. lia. }
  assert (Hsnap : ∀ u' sn w, snap_ok s u' sn w →
    snap_ok (s <| live := d |> <| versions := <[id := S v]> (versions s) |>) u' sn w)
    by (intros; by eapply snap_ok_commit).
  split; simpl.
  - done.
  - intros id'. unfold protos. rewrite (inbox_rows_app id' row (live s) d) by done.
    case_decide as E; [simpl in E; subst id'|rewrite app_nil_r; apply H2].
    rewrite fmap_app. simpl. apply prepare_spec in Hp as (id2 & us & Hid2 & Hl & Hm & Hg & Hma).
    assert (id2 = id) as -> by congruence. eapply valid_next; try done. apply H2.
  - intros j u' p' [[<- [= <- <-]]|[Hne Hj]]%lookup_insert_Some; [by destruct p|].
    pose proof (H3 _ _ _ Hj) as Hok.
    destruct p' as [|m sn w|m sn w|m sn w sq pr df| |]; try done; [by apply Hsnap..|].
    destruct Hok as (? & ? & Hsq & Hfr). split; [by apply Hsnap|]. split; [done|]. simpl.
    rewrite Es, El, fmap_app. split; [done|]. rewrite not_elem_of_app. split; [done|].
    intros E%list_elem_of_singleton. simpl in E. apply Hne.
    by apply (H4 i j _ _ _ _ seq Hi Hj); [|simpl; congruence].
  - intros j k u1 u2 p1 p2 sq [[<- [= <- <-]]|[_ Hj]]%lookup_insert_Some
      [[<- [= <- <-]]|[_ Hk]]%lookup_insert_Some; [done|by destruct p..|]. by eapply H4.
Qed.

(** What the end of a transaction does: it is rolled back, or its writes are committed. *)
Lemma commitTx_spec i now lost s s' :
  commitTx i now lost s = Some s' →
  ∃ u id n snap v seq proto diff, procs s !! i = Some (u, Inserted n snap v seq proto diff) ∧
    inboxOf u = Some id ∧
    ((∃ e, s' = retry i u n e (releaseLock u s)) ∨
     ∃ d p, versionOf id s = v ∧ writes now u seq proto diff (live s) = Ok d ∧ outside p ∧
       s' = setProc i u p
              (releaseLock u s <| live := d |> <| versions := <[id := S v]> (versions s) |>)).
Proof.
  unfold commitTx. destruct (procs s !! i) as [[u p]|] eqn:Hi; [|done]. simpl.
  destruct p as [| | |n snap v seq proto diff| |]; try done.
  destruct (inboxOf u) as [id|] eqn:Hid; [|done]. intros H.
  exists u, id, n, snap, v, seq, proto, diff. split; [done|]. split; [done|].
  case_bool_decide as Hv; [|left; eexists; by injection H as <-].
  destruct (writes _ _ _ _ _ _) as [d|e] eqn:Hw; [|left; exists e; by injection H as <-].
  right. destruct lost as [e|]; injection H as <-.
  - eexists d, _. split_and!; [exact Hv|done| |done]. by destruct n as [|[|?]].
  - by exists d, Published.
Qed.

Lemma failTx_spec i e s s' :
  failTx i e s = Some s' →
  ∃ u p n l, procs s !! i = Some (u, p) ∧ match p with Published | Failed _ => False | _ => True end ∧
    s' = retry i u n e (s <| locks := l |>).
Proof.
  unfold failTx. destruct (procs s !! i) as [[u p]|]; [|done].
  destruct p as [n|n ? ?|n ? ?|n ? ? ? ? ?| |]; intros [= <-]; eexists u, _, n;
    [exists (locks s); by destruct s..| |]; by eexists.
Qed.

Lemma inv_commitTx i now lost s s' : inv s → commitTx i now lost s = Some s' → inv s'.
Proof.
  intros Hinv (u & id & n & snap & v & seq & proto & diff & Hi & Hid & [[e ->]|(d & p & Hv & Hw & Hp & ->)])
    %commitTx_spec; [by apply inv_retry, inv_locks|].
  assert (Hl : inv (releaseLock u s)) by (by apply inv_locks).
  exact (inv_commit i u id n snap v seq proto diff now d p (releaseLock u s) Hl Hi Hid Hv Hw Hp).
Qed.

Lemma step_inv a s s' : inv s → step a s = Some s' → inv s'.
Proof.
  intros Hinv. destruct a as [i u|i|i|i|i now|i e|i now e|i]; simpl.
  - destruct (procs s !! i); intros ?; simplify_eq. by apply inv_setProc.
  - destruct (procs s !! i) as [[u [n| | | | |]]|] eqn:Hi; intros ?; simplify_eq.
    apply inv_setProc; [done| |done]. simpl. apply snap_ok_now, Hinv.
  - destruct (procs s !! i) as [[u [|n snap v| | | |]]|] eqn:Hi; try done.
    destruct (locks s !! _); intros ?; simplify_eq.
    apply inv_setProc; [by apply inv_locks| |done].
    exact (inv_proc s Hinv _ _ _ Hi).
  - destruct (procs s !! i) as [[u [| |n snap v| | |]]|] eqn:Hi; try done.
    destruct (prepare u snap) as [[proto diff]|e] eqn:Hp; intros ?; simplify_eq.
    + by apply inv_insert.
    + by apply inv_retry, inv_locks.
  - by apply inv_commitTx.
  - intros (u & p & n & l & _ & _ & ->)%failTx_spec. by apply inv_retry, inv_locks.
  - by apply inv_commitTx.
  - destruct (procs s !! i) as [[u [n| | | | |]]|] eqn:Hi; intros ?; simplify_eq.
    by apply inv_setProc.
Qed.

Lemma exec_inv as_ s s' : inv s → exec as_ s = Some s' → inv s'.
Proof.
  revert s. induction as_ as [|a as_ IH]; intros s Hs; simpl; [by intros [= <-]|].
  destruct (step a s) as [s1|] eqn:E; [|done]. apply IH. by eapply step_inv.
Qed.

Lemma start_inv d : log_keyed d → (∀ id, valid_log (protos id d)) → inv (start d).
Proof. intros H1 H2. split; [done|done|..]; by intros. Qed.

(** ** The log only grows *)

Lemma commitTx_log_grows i now lost s s' id :
  inv s → commitTx i now lost s = Some s' → inbox_rows id (live s) `prefix_of` inbox_rows id (live s').
Proof.
  intros Hinv (u & id' & n & snap & v & seq & proto & diff & Hi & Hid & [[e ->]|(d & p & Hv & Hw & Hp & ->)])
    %commitTx_spec; [done|].
  destruct (commit_reads_current _ _ _ _ _ _ _ _ _ _ Hinv Hi Hid Hv) as [_ Hlt].
  destruct (writes_spec now u id' seq proto diff (live s) Hid) as (d' & Hw' & _ & El).
  rewrite Hw in Hw'. injection Hw' as <-. simpl.
  pose proof (inv_commit _ _ _ _ _ _ _ _ _ now _ p _ Hinv Hi Hid Hv Hw Hp) as [Hk _ _ _]. simpl in Hk.
  rewrite (inbox_rows_app id (mkInboxLogRow seq id' now proto) (live s) d Hk El Hlt). by eexists.
Qed.

Lemma step_log_grows a s s' id :
  inv s → step a s = Some s' → inbox_rows id (live s) `prefix_of` inbox_rows id (live s').
Proof.
  intros Hinv Hstep. destruct a as [i u|i|i|i|i now|i e|i now e|i]; simpl in Hstep.
  - destruct (procs s !! i); by simplify_eq.
  - destruct (procs s !! i) as [[u [n| | | | |]]|]; by simplify_eq.
  - destruct (procs s !! i) as [[u [|n snap v| | | |]]|]; try done. destruct (locks s !! _); by simplify_eq.
  - destruct (procs s !! i) as [[u [| |n snap v| | |]]|]; try done.
    destruct (prepare u snap) as [[proto diff]|e]; by simplify_eq.
  - by eapply commitTx_log_grows.
  - by apply failTx_spec in Hstep as (u & p & n & l & _ & _ & ->).
  - by eapply commitTx_log_grows.
  - destruct (procs s !! i) as [[u [n| | | | |]]|]; by simplify_eq.
Qed.

Lemma exec_log_grows as_ s s' id :
  inv s → exec as_ s = Some s' → inbox_rows id (live s) `prefix_of` inbox_rows id (live s').
Proof.
  revert s. induction as_ as [|a as_ IH]; intros s Hs; simpl; [by intros [= <-]|].
  destruct (step a s) as [s1|] eqn:E; [|done]. intros H. etrans; [by eapply step_log_grows|].
  apply IH; [by eapply step_inv|done].
Qed.

(** C11. The identity log is linear. However publishers interleave, wait, fail at any point of their
    transactions and retry, every inbox's log stays one that was built one update at a time: each
    entry was accepted by the validation service as the next update after exactly the entries before
    it, in sequence order, and the log never holds more than 256 entries. *)
Theorem inbox_log_linear d as_ s id :
  log_keyed d → (∀ id, valid_log (protos id d)) → exec as_ (start d) = Some s →
  valid_log (protos id (live s)) ∧ Z.of_nat (length (protos id (live s))) ≤ inboxLogLimit.
Proof.
  intros H1 H2 E. pose proof (exec_inv _ _ _ (start_inv d H1 H2) E) as Hinv.
  pose proof (inv_valid s Hinv id) as Hv. split; [done|].
  destruct Hv as [|ps us u diff p _ Hl _ _ _]; [done|]. rewrite length_app. simpl. lia.
Qed.

(** C12. A published update is as good as a transaction run alone: when a publisher commits, its
    validation and its writes are those of the whole transaction run at that moment on what is
    committed, with a sequence id above every entry of its inbox. *)
Theorem publish_serializable d as_ s i now s' u :
  log_keyed d → (∀ id, valid_log (protos id d)) → exec as_ (start d) = Some s →
  step (Commit i now) s = Some s' → procs s' !! i = Some (u, Published) →
  ∃ seq proto diff, prepare u (live s) = Ok (proto, diff) ∧
    writes now u seq proto diff (live s) = Ok (live s') ∧
    ∀ id, inboxOf u = Some id →
      (∀ r, r ∈ inbox_rows id (live s) → l_SequenceID r < seq) ∧
      inbox_rows id (live s') = inbox_rows id (live s) ++ [mkInboxLogRow seq id now proto].
Proof.
  intros H1 H2 E Hstep Hdone. pose proof (exec_inv _ _ _ (start_inv d H1 H2) E) as Hinv.
  pose proof (step_inv _ _ _ Hinv Hstep) as Hinv'. simpl in Hstep. unfold commitTx in Hstep.
  destruct (procs s !! i) as [[u0 p]|] eqn:Hi; [|done]. simpl in Hstep.
  destruct p as [| | |n snap v seq proto diff| |]; try done.
  destruct (inboxOf u0) as [id|] eqn:Hid; [|done].
  assert (Hretry : ∀ e s0, procs (retry i u0 n e s0) !! i = Some (u, Published) → False).
  { intros e s0. unfold retry, setProc. simpl. rewrite lookup_insert_eq.
    by destruct n as [|[|n]]. }
  case_bool_decide as Hv; [|injection Hstep as <-; by apply Hretry in Hdone].
  destruct (writes _ _ _ _ _ _) as [d'|e] eqn:Hw; injection Hstep as <-;
    [|by apply Hretry in Hdone].
  simpl in Hdone. rewrite lookup_insert_eq in Hdone. injection Hdone as <-.
  destruct (commit_reads_current _ _ _ _ _ _ _ _ _ _ Hinv Hi Hid Hv) as [Hp Hlt].
  exists seq, proto, diff. split; [done|]. split; [done|]. rewrite Hid. intros id' [= <-].
  split; [done|].
  destruct (writes_spec now u0 id seq proto diff (live s) Hid) as (d2 & Hw2 & _ & El).
  simpl in Hw. rewrite Hw in Hw2. injection Hw2 as <-.
  assert (Hk : log_keyed d') by apply Hinv'.
  simpl. rewrite (inbox_rows_app id _ (live s) d' Hk El) by done. by rewrite decide_True.
Qed.

(** Waiting is losing. A publisher whose snapshot predates another commit to its inbox cannot
    commit in this attempt: its commit step is a serialization failure, whatever it validated, and
    it is at the top of the loop again with one attempt less, or has failed. Since the snapshot is
    taken by the statement that waits for the inbox's lock, this is every publisher that waited. *)
Theorem waiter_must_retry s i u id n snap v seq proto diff now :
  procs s !! i = Some (u, Inserted n snap v seq proto diff) → inboxOf u = Some id →
  (v < versionOf id s)%nat →
  ∃ s', step (Commit i now) s = Some s' ∧ live s' = live s ∧
    procs s' !! i = Some (u, match n with
                             | S (S m) => Ready (S m)
                             | _ => Failed serializationFailure
                             end).
Proof.
  intros Hi Hid Hv. simpl. unfold commitTx. rewrite Hi. simpl. rewrite Hid. rewrite bool_decide_false.
  - eexists. split; [done|]. split; [done|]. simpl. apply lookup_insert_eq.
  - unfold versionOf in *. simpl. lia.
Qed.
End Publish.

(** * Concrete runs

    Updates of one inbox, each a name that the validation service accepts as a new address. *)

Definition sampleInboxId (u : string) : string := "6162".
Definition sampleValidate (old new : list string) : result StateDiff :=
  Ok (mkStateDiff (EthereumAddress <$> new) []).
Definition sampleExec : list (label (IdentityUpdate := string)) → sys → option sys :=
  exec sampleInboxId Ok Ok sampleValidate (λ _, 0).

Definition attempt (i : nat) : list (label (IdentityUpdate := string)) :=
  [Lock i; Insert i; Commit i 7].

(** Four publishers arrive together: all take their snapshots, one after the other gets the lock,
    and each round only the first of them commits. *)
Definition fourPublishers : list (label (IdentityUpdate := string)) :=
  [Arrive 1 "a"; Arrive 2 "b"; Arrive 3 "c"; Arrive 4 "d"; Begin 1; Begin 2; Begin 3; Begin 4]
  ++ attempt 1 ++ attempt 2 ++ attempt 3 ++ attempt 4
  ++ [Begin 2; Begin 3; Begin 4] ++ attempt 2 ++ attempt 3 ++ attempt 4
  ++ [Begin 3; Begin 4] ++ attempt 3 ++ [Lock 4; Insert 4].

(** The fourth has then used up its attempts although its update is valid. *)
Example fourth_publisher_fails :
  (λ s, (protos "ab" (live s), snd <$> procs s !! 4%nat))
    <$> sampleExec (fourPublishers ++ [Commit 4 7]) (start emptyDb)
  = Some (["a"; "b"; "c"], Some (Failed serializationFailure)).
Proof. by vm_compute. Qed.

(** A lost answer: the update is in the log, the loop goes on with one attempt less, and what the
    client is told is what the later attempts give. *)
Example lost_answer_retries :
  (λ s, (protos "ab" (live s), snd <$> procs s !! 1%nat))
    <$> sampleExec ([Arrive 1 "a"; Begin 1; Lock 1; Insert 1; LoseAnswer 1 7 (Plain "broken pipe");
                     Begin 1; Fails 1 ContextCanceled; Cancel 1]) (start emptyDb)
  = Some (["a"], Some (Failed ContextCanceled)).
Proof. by vm_compute. Qed.

Lemma emptyDb_log_keyed : log_keyed emptyDb.
Proof. split; [constructor|]. by intros r ?%elem_of_nil. Qed.

Lemma inbox_log_linear_witness :
  ∃ s, sampleExec fourPublishers (start emptyDb) = Some s ∧
    valid_log Ok Ok sampleValidate ["a"; "b"; "c"].
Proof.
  destruct (sampleExec fourPublishers (start emptyDb)) as [s|] eqn:E;
    [|vm_compute in E; discriminate].
  exists s. split; [reflexivity|].
  destruct (inbox_log_linear sampleInboxId Ok Ok sampleValidate (λ _, 0) emptyDb fourPublishers s
    "ab" emptyDb_log_keyed ltac:(constructor) E) as [H _].
  assert (Hp : (λ s, protos "ab" (live s)) <$> sampleExec fourPublishers (start emptyDb)
    = Some ["a"; "b"; "c"]) by (by vm_compute).
  rewrite E in Hp. injection Hp as Hp. by rewrite <- Hp.
Defined.

Lemma publish_serializable_witness :
  ∃ s s' seq, sampleExec ([Arrive 1 "a"; Begin 1; Lock 1; Insert 1]) (start emptyDb) = Some s ∧
    step sampleInboxId Ok Ok sampleValidate (λ _, 0) (Commit 1 7) s = Some s' ∧
    inbox_rows "ab" (live s') = [mkInboxLogRow seq "ab" 7 "a"].
Proof.
  destruct (sampleExec [Arrive 1 "a"; Begin 1; Lock 1; Insert 1] (start emptyDb)) as [s|] eqn:E;
    [|vm_compute in E; discriminate].
  destruct (step sampleInboxId Ok Ok sampleValidate (λ _, 0) (Commit 1 7) s) as [s'|] eqn:E';
    [|vm_compute in E; injection E as <-; vm_compute in E'; discriminate].
  assert (Hp : procs s' !! 1%nat = Some ("a", Published) ∧ protos "ab" (live s) = []).
  { vm_compute in E. injection E as <-. vm_compute in E'. by injection E' as <-. }
  destruct Hp as [Hp He].
  destruct (publish_serializable sampleInboxId Ok Ok sampleValidate (λ _, 0) emptyDb _ s 1 7 s' "a"
    emptyDb_log_keyed ltac:(constructor) E E' Hp) as (seq & proto & diff & Hpre & _ & H).
  exists s, s', seq. split; [done|]. split; [done|].
  destruct (H "ab" ltac:(done)) as [_ ->].
  destruct (prepare_spec sampleInboxId Ok Ok sampleValidate "a" (live s) proto diff Hpre)
    as (_ & _ & _ & _ & _ & _ & [= <-]).
  unfold protos in He. apply fmap_nil_inv in He. by rewrite He.
Defined.

Lemma waiter_must_retry_witness :
  ∃ s s', sampleExec fourPublishers (start emptyDb) = Some s ∧
    step sampleInboxId Ok Ok sampleValidate (λ _, 0) (Commit 4 7) s = Some s' ∧
    procs s' !! 4%nat = Some ("d", Failed serializationFailure).
Proof.
  destruct (sampleExec fourPublishers (start emptyDb)) as [s|] eqn:E;
    [|vm_compute in E; discriminate].
  assert (Hp : (λ s, (match procs s !! 4%nat with
                      | Some (u, Inserted n _ v _ _ _) => Some (u, n, v)
                      | _ => None
                      end, versionOf "ab" s)) <$> sampleExec fourPublishers (start emptyDb)
               = Some (Some ("d", 1%nat, 2%nat), 3%nat)) by (by vm_compute).
  rewrite E in Hp. injection Hp as Hp Hver.
  destruct (procs s !! 4%nat) as [[u [| | |n snap v seq proto diff| |]]|] eqn:Hi; try discriminate Hp.
  injection Hp as -> -> ->.
  assert (Hv : (2 < versionOf "ab" s)%nat) by (rewrite Hver; lia).
  destruct (waiter_must_retry sampleInboxId Ok Ok sampleValidate (λ _, 0) s 4 "d" "ab" 1 snap 2 seq
    proto diff 7 Hi ltac:(done) Hv) as (s' & Hs & _ & Hp).
  exists s, s'. exact (conj eq_refl (conj Hs Hp)).
Defined.
