(* ===== verification/RateLimiter.v ===== *)
(** The token-bucket rate limiter (pkg/ratelimiter): buckets refilled by the minute, spent under
    a per-entry mutex by any number of concurrent requests, and swept of idle entries by the
    janitor. Entries are shared objects: a request keeps its pointer while the janitor may delete
    the bucket, so they live in a heap beside the two bucket maps. Times are nanoseconds. *)

From S2P Require Import Prelude.

Abbreviation LimitType := string.

Definition DEFAULT_PRIORITY_MULTIPLIER : Z := 2.
Definition PUBLISH_PRIORITY_MULTIPLIER : Z := 4.
Definition DEFAULT_RATE_PER_MINUTE : Z := 4000.
Definition DEFAULT_MAX_TOKENS : Z := 20000.
Definition PUBLISH_RATE_PER_MINUTE : Z := 600.
Definition PUBLISH_MAX_TOKENS : Z := 3000.
Definition MAX_UINT_16 : Z := 65535.
Definition DEFAULT : LimitType := "DEF".
Definition PUBLISH : LimitType := "PUB".

(** The sweep's settings in the API server. *)
Definition Minute : Z := 60000000000.
Definition RATE_LIMITER_EXPIRES_AFTER : Z := 60 * Minute.

Record Entry := mkEntry { lastSeen : Z; tokens : Z }.

Record Limit := mkLimit { MaxTokens : Z; RatePerMinute : Z }.

Record Settings := mkSettings {
  PriorityMultiplier : Z;
  PublishPriorityMultiplier : Z;
  Limits : gmap LimitType Limit;
}.

(** The limiter: the entries, the two maps of buckets to entries, and the settings, which never
    change. *)
Record Limiter := mkLimiter {
  heap : gmap nat Entry;
  nextEntry : nat;
  newBuckets : gmap string nat;
  oldBuckets : gmap string nat;
  settings : Settings;
}.

#[export] Instance Limiter_eta : Eta Limiter :=
  λ l, mkLimiter (heap l) (nextEntry l) (newBuckets l) (oldBuckets l) (settings l).

Definition minUint16 (x y : Z) : Z := if bool_decide (x ≤ y) then x else y.

(** [int(minutes)] truncates a float64. Below 2^16 minutes the float's fraction is exact enough
    for the result to be the whole minutes; above, rounding may add one minute, which changes
    nothing since the sum saturates (or the rate is 0). *)
Definition Refill (l : Limit) (now multiplier : Z) (e : Entry) : Entry :=
  let ratePerMinute := u16 (RatePerMinute l * multiplier) in
  let maxTokens := u16 (MaxTokens l * multiplier) in
  let sinceLastSeen := now - lastSeen e in
  if bool_decide (0 < sinceLastSeen) then
    let additionalTokens := ratePerMinute * (sinceLastSeen / Minute) in
    let additionalTokens :=
      if bool_decide (MAX_UINT_16 < additionalTokens + tokens e)
      then MAX_UINT_16 - tokens e else additionalTokens in
    mkEntry now (minUint16 (u16 (tokens e + u16 additionalTokens)) maxTokens)
  else e.

Definition NewTokenBucketRateLimiter : Limiter :=
  {| heap := ∅; nextEntry := 0; newBuckets := ∅; oldBuckets := ∅;
     settings := mkSettings DEFAULT_PRIORITY_MULTIPLIER PUBLISH_PRIORITY_MULTIPLIER
       {[ DEFAULT := mkLimit DEFAULT_MAX_TOKENS DEFAULT_RATE_PER_MINUTE;
          PUBLISH := mkLimit PUBLISH_MAX_TOKENS PUBLISH_RATE_PER_MINUTE ]} |}.

(** A nil limit is [None]. *)
Definition getLimit (limitType : LimitType) (st : Settings) : option Limit :=
  match Limits st !! limitType with Some l => Some l | None => Limits st !! "default" end.

Definition multiplierOf (limitType : LimitType) (isPriority : bool) (st : Settings) : Z :=
  if isPriority then
    if bool_decide (limitType = PUBLISH) then PublishPriorityMultiplier st
    else PriorityMultiplier st
  else 1.

(** The steps of getAndRefill, each under a lock of its own. *)
Definition createEntry (bucket : string) (l : Limit) (now multiplier : Z) (rl : Limiter)
    : nat * Limiter :=
  let k := nextEntry rl in
  (k, rl <| heap := <[k := mkEntry now (u16 (MaxTokens l * multiplier))]> (heap rl) |>
         <| nextEntry := S k |>
         <| newBuckets := <[bucket := k]> (newBuckets rl) |>).

Definition refillEntry (k : nat) (l : Limit) (now multiplier : Z) (rl : Limiter) : Limiter :=
  rl <| heap := alter (Refill l now multiplier) k (heap rl) |>.

(** getAndRefill on the old buckets (never creating) and on the new ones (creating). The outer
    [None] is the nil dereference when there is no limit. *)
Definition getAndRefillOld (bucket : string) (limit : option Limit) (now multiplier : Z)
    (rl : Limiter) : option (option nat * Limiter) :=
  match oldBuckets rl !! bucket with
  | None => Some (None, rl)
  | Some k => l ← limit; Some (Some k, refillEntry k l now multiplier rl)
  end.

Definition getAndRefillNew (bucket : string) (limit : option Limit) (now multiplier : Z)
    (rl : Limiter) : option (nat * Limiter) :=
  l ← limit;
  match newBuckets rl !! bucket with
  | None => Some (createEntry bucket l now multiplier rl)
  | Some k => Some (k, refillEntry k l now multiplier rl)
  end.

Definition fillAndReturnEntry (limitType : LimitType) (bucket : string) (isPriority : bool)
    (now : Z) (rl : Limiter) : option (nat * Limiter) :=
  let limit := getLimit limitType (settings rl) in
  let multiplier := multiplierOf limitType isPriority (settings rl) in
  '(entry, rl) ← getAndRefillOld bucket limit now multiplier rl;
  match entry with
  | Some k => Some (k, rl)
  | None => getAndRefillNew bucket limit now multiplier rl
  end.

Definition rateLimited : error := Plain "%d exceeds rate limit %s".

(** The last part of Spend, under the entry's mutex. *)
Definition charge (k : nat) (cost : Z) (rl : Limiter) : option (result () * Limiter) :=
  e ← heap rl !! k;
  Some (if bool_decide (tokens e < cost) then (Err rateLimited, rl)
        else (Ok (), rl <| heap := <[k := mkEntry (lastSeen e) (u16 (tokens e - cost))]> (heap rl) |>)).

Definition Spend (limitType : LimitType) (bucket : string) (cost : Z) (isPriority : bool)
    (now : Z) (rl : Limiter) : option (result () * Limiter) :=
  '(k, rl) ← fillAndReturnEntry limitType bucket isPriority now rl;
  charge k cost rl.

(** ** The janitor *)

Definition isExpired (now expiresAfter : Z) (rl : Limiter) (k : nat) : Prop :=
  match heap rl !! k with Some e => expiresAfter < now - lastSeen e | None => False end.

#[export] Instance isExpired_dec now expiresAfter rl k : Decision (isExpired now expiresAfter rl k).
Proof. unfold isExpired. destruct (heap rl !! k); apply _. Defined.

(** Deleting one bucket, which checks again that it is expired. *)
Definition deleteBucket (now expiresAfter : Z) (bucket : string) (rl : Limiter) : Limiter :=
  match oldBuckets rl !! bucket with
  | Some k => if decide (isExpired now expiresAfter rl k)
              then rl <| oldBuckets := delete bucket (oldBuckets rl) |> else rl
  | None => rl
  end.

Definition deleteExpired (now expiresAfter : Z) (rl : Limiter) : Limiter :=
  let expired := (filter (λ '(_, k), isExpired now expiresAfter rl k)
                    (map_to_list (oldBuckets rl))).*1 in
  foldl (λ rl bucket, deleteBucket now expiresAfter bucket rl) rl expired.

Definition swap (rl : Limiter) : Limiter :=
  rl <| newBuckets := oldBuckets rl |> <| oldBuckets := newBuckets rl |>.

Definition sweepAndSwap (now expiresAfter : Z) (rl : Limiter) : Limiter :=
  swap (deleteExpired now expiresAfter rl).

(** * Refilling *)

(** The saturating 16-bit arithmetic of a refill computes the plain minimum. *)
Lemma Refill_spec l now m e :
  is_u16 (tokens e) →
  Refill l now m e =
  if decide (lastSeen e < now) then
    mkEntry now (Z.min (tokens e + u16 (RatePerMinute l * m) * ((now - lastSeen e) / Minute))
                       (u16 (MaxTokens l * m)))
  else e.
Proof.
  intros Ht. unfold Refill. case_bool_decide; case_decide; try lia; [|done]. f_equal.
  pose proof (u16_range (RatePerMinute l * m)) as Hr.
  pose proof (u16_range (MaxTokens l * m)) as Hm. unfold is_u16 in Ht.
  assert (Hd : 0 ≤ (now - lastSeen e) / Minute) by (apply Z.div_pos; unfold Minute; lia).
  set (add := u16 (RatePerMinute l * m) * _).
  assert (Ha : 0 ≤ add) by (unfold add; nia). unfold MAX_UINT_16.
  case_bool_decide as Hs; unfold minUint16.
  - rewrite (u16_small (65535 - _)), (u16_small (tokens e + _)) by lia. case_bool_decide; lia.
  - rewrite (u16_small add), (u16_small (tokens e + _)) by lia. case_bool_decide; lia.
Qed.

Lemma Refill_tokens l now m e :
  is_u16 (tokens e) → is_u16 (tokens (Refill l now m e)).
Proof.
  intros Ht. rewrite Refill_spec by done. case_decide; [|done].
  pose proof (u16_range (MaxTokens l * m)). pose proof (u16_range (RatePerMinute l * m)).
  assert (0 ≤ (now - lastSeen e) / Minute) by (apply Z.div_pos; unfold Minute; lia).
  unfold is_u16 in *. simpl. nia.
Qed.

Lemma minutes_add a b : 0 ≤ a → 0 ≤ b → a / Minute + b / Minute ≤ (a + b) / Minute.
Proof.
  intros. unfold Minute. pose proof (Z.div_mod a 60000000000). pose proof (Z.div_mod b 60000000000).
  apply Z.div_le_lower_bound; [lia|]. pose proof (Z.mod_pos_bound a 60000000000).
  pose proof (Z.mod_pos_bound b 60000000000). lia.
Qed.

(** * The limiter as a map of wallets *)

(** The pointers of a bucket, and the entry a request for it would find. *)
Definition owns (rl : Limiter) (b : string) (k : nat) : Prop :=
  oldBuckets rl !! b = Some k ∨ newBuckets rl !! b = Some k.

Definition pointerOf (rl : Limiter) (b : string) : option nat :=
  match oldBuckets rl !! b with Some k => Some k | None => newBuckets rl !! b end.

Definition entryOf (rl : Limiter) (b : string) : option Entry :=
  k ← pointerOf rl b; heap rl !! k.

(** The two maps are disjoint and share no entry, and their pointers are allocated. *)
Record wf_limiter (rl : Limiter) : Prop := {
  wf_owner : ∀ b b' k, owns rl b k → owns rl b' k → b = b';
  wf_disjoint : ∀ b k, oldBuckets rl !! b = Some k → newBuckets rl !! b = None;
  wf_alloc : ∀ b k, owns rl b k → is_Some (heap rl !! k) ∧ (k < nextEntry rl)%nat;
}.

Lemma pointerOf_owns rl b k : wf_limiter rl → owns rl b k ↔ pointerOf rl b = Some k.
Proof.
  intros W. unfold owns, pointerOf. destruct (oldBuckets rl !! b) as [k'|] eqn:E.
  - rewrite (wf_disjoint rl W b k' E). naive_solver.
  - naive_solver.
Qed.

Lemma pointerOf_entry rl b k :
  wf_limiter rl → pointerOf rl b = Some k → ∃ e, heap rl !! k = Some e ∧ entryOf rl b = Some e.
Proof.
  intros W E. destruct (wf_alloc rl W b k) as [[e He] _]; [by apply pointerOf_owns|].
  exists e. unfold entryOf. by rewrite E.
Qed.

(** Writing through a bucket's pointer changes the entry of that bucket only. *)
Lemma heap_update rl b k e :
  wf_limiter rl → pointerOf rl b = Some k →
  let rl' := rl <| heap := <[k := e]> (heap rl) |> in
  wf_limiter rl' ∧ pointerOf rl' b = Some k ∧
  (∀ b', entryOf rl' b' = if decide (b' = b) then Some e else entryOf rl b').
Proof.
  intros W E rl'.
  assert (Hp : ∀ b', pointerOf rl' b' = pointerOf rl b') by done.
  split_and!; [|by rewrite Hp|].
  - destruct W as [W1 W2 W3]. split; simpl; [exact W1|exact W2|].
    intros b' k' Ho. destruct (W3 b' k' Ho) as [? ?]. split; [|done].
    by rewrite lookup_insert_is_Some'; right.
  - intros b'. unfold entryOf. rewrite Hp.
    case_decide as Eb; [subst b'; rewrite E; simpl; by rewrite lookup_insert_eq|].
    destruct (pointerOf rl b') as [k'|] eqn:E'; [|done]. simpl. rewrite lookup_insert_ne; [done|].
    intros ->. apply Eb. by apply (wf_owner rl W b' b k'); apply pointerOf_owns.
Qed.

Lemma refill_update rl b k l now m :
  wf_limiter rl → pointerOf rl b = Some k →
  let rl' := refillEntry k l now m rl in
  wf_limiter rl' ∧ pointerOf rl' b = Some k ∧ settings rl' = settings rl ∧
  (∀ b', entryOf rl' b' = if decide (b' = b) then Refill l now m <$> entryOf rl b
                          else entryOf rl b').
Proof.
  intros W E. destruct (pointerOf_entry rl b k W E) as (e & He & Eb).
  unfold refillEntry. rewrite (alter_alt_Some _ _ _ e He).
  destruct (heap_update rl b k (Refill l now m e) W E) as (W' & E' & Hv).
  split_and!; [done..|]. intros b'. rewrite Hv, Eb. by case_decide.
Qed.

Lemma create_update rl b l now m :
  wf_limiter rl → pointerOf rl b = None →
  let '(k, rl') := createEntry b l now m rl in
  wf_limiter rl' ∧ pointerOf rl' b = Some k ∧ settings rl' = settings rl ∧
  (∀ b', entryOf rl' b' = if decide (b' = b) then Some (mkEntry now (u16 (MaxTokens l * m)))
                          else entryOf rl b').
Proof.
  intros W E. assert (Eo : oldBuckets rl !! b = None ∧ newBuckets rl !! b = None).
  { unfold pointerOf in E. by destruct (oldBuckets rl !! b). }
  destruct Eo as [Eo En]. unfold createEntry. set (rl' := _ <| newBuckets := _ |>).
  assert (Hp : ∀ b', pointerOf rl' b' = if decide (b' = b) then Some (nextEntry rl)
                                        else pointerOf rl b').
  { intros b'. unfold pointerOf, rl'. simpl. case_decide as Eb.
    - subst b'. rewrite Eo. by rewrite lookup_insert_eq.
    - destruct (oldBuckets rl !! b'); [done|]. by rewrite lookup_insert_ne. }
  assert (Ho : ∀ b' k', owns rl' b' k' →
    (b' = b ∧ k' = nextEntry rl) ∨ (b' ≠ b ∧ owns rl b' k' ∧ k' ≠ nextEntry rl)).
  { intros b' k' Ho. destruct (decide (b' = b)) as [->|Hne].
    - left. split; [done|]. destruct Ho as [Ho|Ho]; simpl in Ho; [congruence|].
      rewrite lookup_insert_eq in Ho. by injection Ho.
    - right. split; [done|].
      assert (owns rl b' k') as Hk.
      { destruct Ho as [Ho|Ho]; [by left|right]. simpl in Ho. by rewrite lookup_insert_ne in Ho. }
      split; [done|]. destruct (wf_alloc rl W b' k' Hk) as [_ ?]. lia. }
  split_and!.
  - split.
    + intros b1 b2 k' [[-> ->]|(? & O1 & N1)]%Ho [[-> ?]|(? & O2 & N2)]%Ho; try done.
      by apply (wf_owner rl W b1 b2 k').
    + intros b' k' Hk. simpl in *. rewrite lookup_insert_ne by congruence.
      by apply (wf_disjoint rl W b' k').
    + intros b' k' [[-> ->]|(? & O1 & N1)]%Ho; unfold rl'; simpl.
      * rewrite lookup_insert_eq. split; [done|lia].
      * rewrite lookup_insert_ne by done. destruct (wf_alloc rl W b' k' O1). split; [done|lia].
  - rewrite Hp. by rewrite decide_True.
  - done.
  - intros b'. unfold entryOf. rewrite Hp. case_decide as Eb; simpl; [by rewrite lookup_insert_eq|].
    destruct (pointerOf rl b') as [k'|] eqn:E'; [|done]. simpl. rewrite lookup_insert_ne; [done|].
    apply pointerOf_owns in E'; [|done]. destruct (wf_alloc rl W b' k' E'). lia.
Qed.

(** What a request finds: its entry refilled, or a full one. *)
Definition found (l : Limit) (now m : Z) (o : option Entry) : Entry :=
  match o with Some e => Refill l now m e | None => mkEntry now (u16 (MaxTokens l * m)) end.

Lemma fillAndReturnEntry_spec rl limitType b isPriority now :
  wf_limiter rl →
  match getLimit limitType (settings rl) with
  | None => fillAndReturnEntry limitType b isPriority now rl = None
  | Some l => ∃ k rl', fillAndReturnEntry limitType b isPriority now rl = Some (k, rl') ∧
      wf_limiter rl' ∧ pointerOf rl' b = Some k ∧ settings rl' = settings rl ∧
      (∀ b', entryOf rl' b' = if decide (b' = b) then
          Some (found l now (multiplierOf limitType isPriority (settings rl)) (entryOf rl b))
        else entryOf rl b')
  end.
Proof.
  intros W. unfold fillAndReturnEntry, getAndRefillOld, getAndRefillNew.
  set (m := multiplierOf _ _ _). destruct (getLimit limitType (settings rl)) as [l|];
    [|by destruct (oldBuckets rl !! b)].
  assert (Hhit : ∀ k, pointerOf rl b = Some k → ∃ k0 rl',
    Some (k, refillEntry k l now m rl) = Some (k0, rl') ∧
      wf_limiter rl' ∧ pointerOf rl' b = Some k0 ∧ settings rl' = settings rl ∧
      (∀ b', entryOf rl' b' = if decide (b' = b) then Some (found l now m (entryOf rl b))
                              else entryOf rl b')).
  { intros k Ek. destruct (refill_update rl b k l now m W Ek) as (W' & E' & Es & Hv).
    exists k, (refillEntry k l now m rl). split_and!; [done..|]. intros b'. rewrite Hv.
    destruct (pointerOf_entry rl b k W Ek) as (e & _ & ->). done. }
  destruct (oldBuckets rl !! b) as [k|] eqn:Eo.
  { simpl. apply Hhit. unfold pointerOf. by rewrite Eo. }
  simpl. destruct (newBuckets rl !! b) as [k|] eqn:En.
  { apply Hhit. unfold pointerOf. by rewrite Eo. }
  assert (Ek : pointerOf rl b = None) by (unfold pointerOf; by rewrite Eo).
  pose proof (create_update rl b l now m W Ek) as H.
  destruct (createEntry b l now m rl) as [k rl'] eqn:Ec. destruct H as (W' & E' & Es & Hv).
  exists k, rl'. split_and!; [done..|]. intros b'. rewrite Hv. unfold entryOf at 2. by rewrite Ek.
Qed.

(** Spending against an entry. *)
Definition spendEntry (cost : Z) (e : Entry) : result () * Entry :=
  if bool_decide (tokens e < cost) then (Err rateLimited, e)
  else (Ok (), mkEntry (lastSeen e) (u16 (tokens e - cost))).

Lemma Spend_spec rl limitType b cost isPriority now :
  wf_limiter rl →
  match getLimit limitType (settings rl) with
  | None => Spend limitType b cost isPriority now rl = None
  | Some l =>
      let '(r, e) := spendEntry cost
        (found l now (multiplierOf limitType isPriority (settings rl)) (entryOf rl b)) in
      ∃ rl', Spend limitType b cost isPriority now rl = Some (r, rl') ∧
        wf_limiter rl' ∧ settings rl' = settings rl ∧
        (∀ b', entryOf rl' b' = if decide (b' = b) then Some e else entryOf rl b')
  end.
Proof.
  intros W. pose proof (fillAndReturnEntry_spec rl limitType b isPriority now W) as H.
  unfold Spend. destruct (getLimit limitType (settings rl)) as [l|]; [|by rewrite H].
  destruct H as (k & rl1 & -> & W1 & E1 & Es & Hv). simpl. unfold charge.
  set (e1 := found _ _ _ _) in *.
  destruct (pointerOf_entry rl1 b k W1 E1) as (e & He & Ee).
  rewrite Hv, decide_True in Ee by done. injection Ee as <-. rewrite He. simpl.
  unfold spendEntry. case_bool_decide.
  - exists rl1. done.
  - destruct (heap_update rl1 b k (mkEntry (lastSeen e1) (u16 (tokens e1 - cost))) W1 E1)
      as (W' & _ & Hv'). eexists. split; [done|]. split_and!; [done..|].
    intros b'. rewrite Hv', Hv. by case_decide.
Qed.

(** ** Sweeping *)

(** What a sweep may do to a bucket: nothing, or forget an expired entry. *)
Definition forgets (now expiresAfter : Z) (rl rl' : Limiter) : Prop :=
  wf_limiter rl' ∧ settings rl' = settings rl ∧ heap rl' = heap rl ∧
  ∀ b, entryOf rl' b = entryOf rl b ∨
    (entryOf rl' b = None ∧
     ∃ e, entryOf rl b = Some e ∧ expiresAfter < now - lastSeen e).

Lemma forgets_refl now exp rl : wf_limiter rl → forgets now exp rl rl.
Proof. intros W. split_and!; [done..|]. by left. Qed.

Lemma forgets_trans now exp rl1 rl2 rl3 :
  forgets now exp rl1 rl2 → forgets now exp rl2 rl3 → forgets now exp rl1 rl3.
Proof.
  intros (_ & E1 & H1 & F1) (W & E2 & H2 & F2). split_and!; [done|congruence..|].
  intros b. destruct (F2 b) as [->|[E (e & Ee & ?)]]; [done|].
  right. split; [done|]. destruct (F1 b) as [Eb|[Eb _]]; [|congruence].
  exists e. by rewrite <- Eb.
Qed.

Lemma deleteBucket_forgets now exp b rl :
  wf_limiter rl → forgets now exp rl (deleteBucket now exp b rl).
Proof.
  intros W. unfold deleteBucket. destruct (oldBuckets rl !! b) as [k|] eqn:Eo;
    [|by apply forgets_refl]. case_decide as He; [|by apply forgets_refl].
  assert (En : newBuckets rl !! b = None) by (by apply (wf_disjoint rl W b k)).
  set (rl' := rl <| oldBuckets := _ |>).
  assert (Hp : ∀ b', pointerOf rl' b' = if decide (b' = b) then None else pointerOf rl b').
  { intros b'. unfold pointerOf, rl'. simpl. case_decide as Eb.
    - subst b'. by rewrite lookup_delete_eq.
    - by rewrite lookup_delete_ne. }
  assert (Ho : ∀ b' k', owns rl' b' k' → owns rl b' k').
  { intros b' k' [H|H]; [left|by right]. simpl in H. by apply lookup_delete_Some in H as [_ ?]. }
  split_and!.
  - destruct W as [W1 W2 W3]. split.
    + intros b1 b2 k' O1%Ho O2%Ho. by apply (W1 b1 b2 k').
    + intros b' k' H. simpl in *. apply lookup_delete_Some in H as [_ ?]. by apply (W2 b' k').
    + intros b' k' O%Ho. by apply (W3 b').
  - done.
  - done.
  - intros b'. unfold entryOf. rewrite Hp. case_decide as Eb; [subst b'|by left].
    right. split; [done|]. unfold pointerOf. rewrite Eo. simpl. unfold isExpired in He.
    destruct (heap rl !! k) as [e|]; [by exists e|done].
Qed.

Lemma sweep_forgets now exp rl : wf_limiter rl → forgets now exp rl (sweepAndSwap now exp rl).
Proof.
  intros W. unfold sweepAndSwap.
  assert (Hd : forgets now exp rl (deleteExpired now exp rl)).
  { unfold deleteExpired. generalize ((filter (λ '(_, k), isExpired now exp rl k)
      (map_to_list (oldBuckets rl))).*1). intros bs.
    assert (G : ∀ rl0, forgets now exp rl rl0 →
      forgets now exp rl (foldl (λ rl bucket, deleteBucket now exp bucket rl) rl0 bs)).
    { induction bs as [|b bs IH]; intros rl0 F; [done|]. simpl. apply IH.
      eapply forgets_trans; [exact F|]. apply deleteBucket_forgets. apply F. }
    by apply G, forgets_refl. }
  eapply forgets_trans; [exact Hd|]. destruct Hd as (W' & _). set (rl1 := deleteExpired _ _ _) in *.
  clearbody rl1. clear rl W.
  assert (Ho : ∀ b k, owns (swap rl1) b k ↔ owns rl1 b k) by (intros; unfold owns; simpl; tauto).
  assert (Wn : ∀ b k, newBuckets rl1 !! b = Some k → oldBuckets rl1 !! b = None).
  { intros b k En. destruct (oldBuckets rl1 !! b) as [k'|] eqn:Eo; [|done].
    by rewrite (wf_disjoint rl1 W' b k' Eo) in En. }
  split_and!; [|done|done|].
  - destruct W' as [W1 W2 W3]. split.
    + intros b b' k O1%Ho O2%Ho. by apply (W1 b b' k).
    + exact Wn.
    + intros b k O%Ho. by apply (W3 b).
  - intros b. left. unfold entryOf, pointerOf, swap. simpl.
    destruct (newBuckets rl1 !! b) as [k|] eqn:En; [by rewrite (Wn b k En)|].
    by destruct (oldBuckets rl1 !! b).
Qed.

(** * Sweeps are invisible

    The specification has no janitor, no heap and no pair of maps: one wallet per bucket, kept
    forever. *)

Definition walletSpend (st : Settings) (limitType : LimitType) (b : string) (cost : Z)
    (isPriority : bool) (now : Z) (ws : gmap string Entry)
    : option (result () * gmap string Entry) :=
  l ← getLimit limitType st;
  let '(r, e) := spendEntry cost (found l now (multiplierOf limitType isPriority st) (ws !! b)) in
  Some (r, <[b := e]> ws).

Inductive op :=
  | OpSpend (limitType : LimitType) (b : string) (cost : Z) (isPriority : bool) (now : Z)
  | OpSweep (now : Z).

Definition opTime (o : op) : Z :=
  match o with OpSpend _ _ _ _ now => now | OpSweep now => now end.

(** The answers of the spends of a run; [None] when one of them panics. *)
Fixpoint run (expiresAfter : Z) (ops : list op) (rl : Limiter) : option (list (result ())) :=
  match ops with
  | [] => Some []
  | OpSpend limitType b cost isPriority now :: ops =>
      '(r, rl) ← Spend limitType b cost isPriority now rl;
      rs ← run expiresAfter ops rl; Some (r :: rs)
  | OpSweep now :: ops => run expiresAfter ops (sweepAndSwap now expiresAfter rl)
  end.

Fixpoint runWallets (st : Settings) (ops : list op) (ws : gmap string Entry)
    : option (list (result ())) :=
  match ops with
  | [] => Some []
  | OpSpend limitType b cost isPriority now :: ops =>
      '(r, ws) ← walletSpend st limitType b cost isPriority now ws;
      rs ← runWallets st ops ws; Some (r :: rs)
  | OpSweep _ :: ops => runWallets st ops ws
  end.

Record simulates (expiresAfter clock : Z) (rl : Limiter) (ws : gmap string Entry) : Prop := {
  sim_wf : wf_limiter rl;
  sim_tokens : ∀ b e, ws !! b = Some e → is_u16 (tokens e);
  sim_entry : ∀ b, entryOf rl b = ws !! b ∨
    (entryOf rl b = None ∧ ∃ e, ws !! b = Some e ∧ expiresAfter < clock - lastSeen e);
}.

(** A limit whose bucket fills up in less time than it takes to expire. *)
Definition refillsBefore (expiresAfter : Z) (st : Settings) (o : op) : Prop :=
  match o with
  | OpSpend limitType _ cost isPriority _ => ∀ l, getLimit limitType st = Some l →
      u16 (MaxTokens l * multiplierOf limitType isPriority st)
      ≤ u16 (RatePerMinute l * multiplierOf limitType isPriority st) * (expiresAfter / Minute)
  | OpSweep _ => True
  end.

Lemma found_tokens l now m o :
  (∀ e, o = Some e → is_u16 (tokens e)) → is_u16 (tokens (found l now m o)).
Proof.
  intros H. destruct o as [e|]; simpl; [by apply Refill_tokens, H|apply u16_range].
Qed.

Lemma spendEntry_tokens cost e : is_u16 (tokens e) → is_u16 (tokens (spendEntry cost e).2).
Proof. unfold spendEntry. case_bool_decide; [done|]. intros _. apply u16_range. Qed.

(** A forgotten entry and the one kept refill to the same. *)
Lemma found_forgotten expiresAfter clock rl ws b l now m :
  simulates expiresAfter clock rl ws → 0 ≤ expiresAfter → clock ≤ now →
  u16 (MaxTokens l * m) ≤ u16 (RatePerMinute l * m) * (expiresAfter / Minute) →
  found l now m (entryOf rl b) = found l now m (ws !! b).
Proof.
  intros S Hexp Hclock Hfull. destruct (sim_entry _ _ _ _ S b) as [->|(E & e & Ew & Hold)]; [done|].
  rewrite E, Ew. simpl. rewrite Refill_spec by (by eapply sim_tokens).
  rewrite decide_True by lia. f_equal. symmetry. apply Z.min_r.
  pose proof (sim_tokens _ _ _ _ S b e Ew) as Ht. unfold is_u16 in Ht.
  pose proof (u16_range (RatePerMinute l * m)) as Hr.
  assert (Hd : expiresAfter / Minute ≤ (now - lastSeen e) / Minute)
    by (apply Z.div_le_mono; unfold Minute; lia). nia.
Qed.

Lemma simulates_clock exp clock clock' rl ws :
  clock ≤ clock' → simulates exp clock rl ws → simulates exp clock' rl ws.
Proof.
  intros ? [W T E]. split; [done..|]. intros b. destruct (E b) as [?|(? & e & ? & ?)]; [by left|].
  right. split; [done|]. exists e. split; [done|lia].
Qed.

Lemma Spend_simulates exp clock rl ws limitType b cost isPriority now :
  simulates exp clock rl ws → 0 ≤ exp → clock ≤ now →
  refillsBefore exp (settings rl) (OpSpend limitType b cost isPriority now) →
  match Spend limitType b cost isPriority now rl,
        walletSpend (settings rl) limitType b cost isPriority now ws with
  | None, None => True
  | Some (r, rl'), Some (r', ws') =>
      r = r' ∧ simulates exp now rl' ws' ∧ settings rl' = settings rl
  | _, _ => False
  end.
Proof.
  intros S Hexp Hclock Hfull. pose proof (Spend_spec rl limitType b cost isPriority now) as H.
  specialize (H (sim_wf _ _ _ _ S)). unfold walletSpend. simpl in Hfull.
  destruct (getLimit limitType (settings rl)) as [l|]; [|by rewrite H]. simpl.
  rewrite (found_forgotten exp clock rl ws b l now _ S Hexp Hclock (Hfull l eq_refl)) in H.
  set (e0 := found _ _ _ (ws !! b)) in *.
  assert (He0 : is_u16 (tokens e0)) by (apply found_tokens; intros e Ee; by eapply sim_tokens).
  pose proof (spendEntry_tokens cost e0 He0) as Ht.
  destruct (spendEntry cost e0) as [r e]. destruct H as (rl' & -> & W' & Es & Hv).
  split_and!; [done| |done]. split.
  - done.
  - intros b' e'. destruct (decide (b' = b)) as [->|Hne].
    + rewrite lookup_insert_eq. by intros [= <-].
    + rewrite lookup_insert_ne by done. apply S.
  - intros b'. rewrite Hv. case_decide as Eb; [subst b'; rewrite lookup_insert_eq; by left|].
    rewrite lookup_insert_ne by done. by apply (simulates_clock exp clock).
Qed.

Lemma sweep_simulates exp clock rl ws now :
  simulates exp clock rl ws → clock ≤ now → simulates exp now (sweepAndSwap now exp rl) ws.
Proof.
  intros S Hclock. destruct (sweep_forgets now exp rl (sim_wf _ _ _ _ S)) as (W & _ & _ & F).
  destruct (simulates_clock exp clock now rl ws Hclock S) as [_ T E]. split; [done..|].
  intros b. destruct (F b) as [->|[-> (e & Ee & ?)]]; [done|]. right. split; [done|].
  exists e. destruct (E b) as [E'|[E' _]]; [by rewrite <- E'|congruence].
Qed.

Lemma run_simulates exp clock rl ws ops :
  simulates exp clock rl ws → 0 ≤ exp →
  StronglySorted Z.le (clock :: (opTime <$> ops)) →
  Forall (refillsBefore exp (settings rl)) ops →
  run exp ops rl = runWallets (settings rl) ops ws.
Proof.
  revert clock rl ws. induction ops as [|o ops IH]; intros clock rl ws S Hexp; [done|].
  rewrite fmap_cons. intros [[Hc _]%Forall_cons Hs]%StronglySorted_cons [Ho Hf]%Forall_cons.
  destruct o as [limitType b cost isPriority now|now].
  - pose proof (Spend_simulates exp clock rl ws limitType b cost isPriority now S Hexp Hc Ho) as H.
    cbn [run runWallets].
    destruct (Spend _ _ _ _ _ _) as [[r rl']|], (walletSpend _ _ _ _ _ _ _) as [[r' ws']|];
      try done. destruct H as (<- & S' & Es). cbn.
    rewrite (IH now rl' ws'); [by rewrite Es|done..|by rewrite Es].
  - simpl in *. destruct (sweep_forgets now exp rl (sim_wf _ _ _ _ S)) as (_ & Es & _).
    rewrite (IH now _ ws); [by rewrite Es|by apply (sweep_simulates exp clock)|done..|by rewrite Es].
Qed.

(** C15. The janitor cannot be observed. Provided a bucket fills up in no more time than it takes
    to expire (the defaults fill in 5 minutes and expire after an hour), any sequence of Spends
    and sweeps at nondecreasing times gets from the limiter (with its heap of entries, its two
    maps, deletions and swaps) the answers of the specification, which keeps one wallet per
    bucket forever. *)
Theorem sweeps_invisible expiresAfter st start ops :
  0 ≤ expiresAfter → StronglySorted Z.le (start :: (opTime <$> ops)) →
  Forall (refillsBefore expiresAfter st) ops →
  run expiresAfter ops (mkLimiter ∅ 0 ∅ ∅ st) = runWallets st ops ∅.
Proof.
  intros Hexp Hs Hf. apply (run_simulates expiresAfter start); [|done..].
  split; [|done|by left]. split.
  - by intros b b' k [?|?].
  - done.
  - by intros b k [?|?].
Qed.

Definition serverSettings : Settings := settings NewTokenBucketRateLimiter.

(** The limits in force. *)
Lemma getLimit_server limitType l :
  getLimit limitType serverSettings = Some l →
  (limitType = DEFAULT ∧ l = mkLimit DEFAULT_MAX_TOKENS DEFAULT_RATE_PER_MINUTE) ∨
  (limitType = PUBLISH ∧ l = mkLimit PUBLISH_MAX_TOKENS PUBLISH_RATE_PER_MINUTE).
Proof.
  unfold getLimit. cbn [serverSettings settings NewTokenBucketRateLimiter Limits].
  replace ((_ : gmap LimitType Limit) !! "default") with (@None Limit) by (vm_compute; reflexivity).
  destruct (decide (limitType = DEFAULT)) as [->|H1]; [|destruct (decide (limitType = PUBLISH)) as [->|H2]].
  - intros [= <-]. by left.
  - intros [= <-]. by right.
  - rewrite lookup_insert_ne, lookup_singleton_ne by done. done.
Qed.

Lemma server_refills o : refillsBefore RATE_LIMITER_EXPIRES_AFTER serverSettings o.
Proof.
  destruct o as [limitType b cost isPriority now|]; [|done]. intros l.
  intros [[-> ->]|[-> ->]]%getLimit_server; destruct isPriority;
    apply (bool_decide_unpack _); vm_compute; exact I.
Qed.

(** A client that uses up its bucket, sweeps an hour later, and its return. *)
Definition sweptSession : list op :=
  [OpSpend PUBLISH "b" 3000 false 0; OpSpend PUBLISH "b" 1 false 1;
   OpSpend DEFAULT "c" 5 true (30 * Minute); OpSweep (61 * Minute); OpSweep (62 * Minute);
   OpSpend PUBLISH "b" 3000 false (63 * Minute); OpSpend PUBLISH "b" 1 false (63 * Minute)].

Lemma sweeps_invisible_witness :
  run RATE_LIMITER_EXPIRES_AFTER sweptSession NewTokenBucketRateLimiter
    = runWallets serverSettings sweptSession ∅ ∧
  runWallets serverSettings sweptSession ∅
    = Some [Ok (); Err rateLimited; Ok (); Ok (); Err rateLimited].
Proof.
  split; [|vm_compute; reflexivity].
  apply (sweeps_invisible RATE_LIMITER_EXPIRES_AFTER serverSettings 0 sweptSession).
  - done.
  - vm_compute. repeat first [apply SSorted_cons | apply SSorted_nil | apply List.Forall_cons
      | apply List.Forall_nil | discriminate].
  - apply Forall_forall. intros o _. apply server_refills.
Defined.

(** * A busy bucket *)

(** Requests to one bucket, each less than a minute after the one before. *)
Fixpoint busy (t : Z) (reqs : list (Z * Z)) : Prop :=
  match reqs with
  | [] => True
  | (cost, now) :: reqs => is_u16 cost ∧ t ≤ now < t + Minute ∧ busy now reqs
  end.

(** The total cost of the accepted ones. *)
Fixpoint accepted (reqs : list (Z * Z)) (rs : list (result ())) : Z :=
  match reqs, rs with
  | (cost, _) :: reqs, r :: rs =>
      match r with Ok _ => cost | Err _ => 0 end + accepted reqs rs
  | _, _ => 0
  end.

Lemma Refill_busy l now m e :
  is_u16 (tokens e) → lastSeen e ≤ now < lastSeen e + Minute →
  tokens (Refill l now m e) ≤ tokens e ∧ lastSeen (Refill l now m e) = now.
Proof.
  intros Ht Hn. rewrite Refill_spec by done. case_decide; simpl; [|split; lia].
  rewrite Z.div_small by lia. rewrite Z.mul_0_r, Z.add_0_r. split; lia.
Qed.

Lemma spendEntry_tokens_le cost e r e' :
  is_u16 (tokens e) → is_u16 cost → spendEntry cost e = (r, e') →
  lastSeen e' = lastSeen e ∧ is_u16 (tokens e') ∧
  tokens e' + match r with Ok _ => cost | Err _ => 0 end = tokens e.
Proof.
  unfold spendEntry, is_u16. intros Ht Hc. case_bool_decide; intros [= <- <-]; simpl;
    [lia|rewrite u16_small by lia; lia].
Qed.

(** A bucket used at least once a minute is never refilled: Refill moves lastSeen to the time
    of every request, however recent the last one, so the minutes since it are always zero. Over
    any time, such a client's accepted requests cost no more than its balance at the start. *)
Theorem busy_bucket_never_refills expiresAfter limitType b isPriority reqs rl e rs :
  wf_limiter rl → entryOf rl b = Some e → is_u16 (tokens e) → busy (lastSeen e) reqs →
  run expiresAfter ((λ '(cost, now), OpSpend limitType b cost isPriority now) <$> reqs) rl
    = Some rs →
  accepted reqs rs ≤ tokens e.
Proof.
  revert rl e rs. induction reqs as [|[cost now] reqs IH]; intros rl e rs W Ee Ht Hb.
  { intros [= <-]. simpl. unfold is_u16 in Ht. lia. }
  destruct Hb as (Hcost & Hnow & Hb). rewrite fmap_cons. cbn [run].
  pose proof (Spend_spec rl limitType b cost isPriority now W) as H. rewrite Ee in H. simpl in H.
  destruct (getLimit limitType (settings rl)) as [l|]; [|rewrite H; by intros].
  destruct (Refill_busy l now (multiplierOf limitType isPriority (settings rl)) e Ht Hnow)
    as [Hle Hseen].
  pose proof (Refill_tokens l now (multiplierOf limitType isPriority (settings rl)) e Ht) as Ht1.
  destruct (spendEntry cost _) as [r e'] eqn:Es.
  destruct (spendEntry_tokens_le cost _ r e' Ht1 Hcost Es) as (Hseen' & Ht' & Hsum).
  destruct H as (rl' & -> & W' & _ & Hv). specialize (Hv b). rewrite decide_True in Hv by done.
  cbn. destruct (run _ _ rl') as [rs'|] eqn:Er; [|done]. intros [= <-].
  rewrite Hseen in Hseen'. rewrite <- Hseen' in Hb.
  specialize (IH rl' e' rs' W' Hv Ht' Hb Er). simpl. lia.
Qed.

(** A client sends one message every 50 seconds, on a bucket with 2 tokens left. *)
Lemma busy_bucket_never_refills_witness :
  let rl := mkLimiter {[ 0%nat := mkEntry 0 2 ]} 1 {[ "b" := 0%nat ]} ∅ serverSettings in
  let s := 50000000000 in
  let reqs := [(1, s); (1, 2 * s); (1, 3 * s); (1, 4 * s)] in
  let rs := [Ok (); Ok (); Err rateLimited; Err rateLimited] in
  run RATE_LIMITER_EXPIRES_AFTER
    ((λ '(cost, now), OpSpend PUBLISH "b" cost false now) <$> reqs) rl = Some rs ∧
  accepted reqs rs ≤ 2.
Proof.
  intros rl s reqs rs.
  assert (E : run RATE_LIMITER_EXPIRES_AFTER
    ((λ '(cost, now), OpSpend PUBLISH "b" cost false now) <$> reqs) rl = Some rs)
    by (vm_compute; reflexivity).
  split; [exact E|].
  apply (busy_bucket_never_refills RATE_LIMITER_EXPIRES_AFTER PUBLISH "b" false reqs rl
    (mkEntry 0 2) rs).
  - split.
    + intros b b' k [Hb|Hb] [Hb'|Hb']; simpl in *; try by rewrite lookup_empty in *.
      apply lookup_singleton_Some in Hb as [<- _], Hb' as [<- _]. done.
    + intros b k Hb. simpl in Hb. by rewrite lookup_empty in Hb.
    + intros b k [Hb|Hb]; simpl in *; [by rewrite lookup_empty in Hb|].
      apply lookup_singleton_Some in Hb as [<- <-]. split; [done|lia].
  - reflexivity.
  - done.
  - unfold reqs, s, busy, is_u16, Minute. simpl. lia.
  - exact E.
Defined.
