(* ===== verification/RateLimiterConc.v ===== *)
(** Concurrent requests to the rate limiter: each Spend is a thread of atomic steps (one per lock
    it takes), interleaved with each other, with the clock and with the janitor's deletions and
    swaps. What any interleaving may spend is bounded. *)

From S2P Require Import Prelude RateLimiter.

Record Request := mkRequest {
  rq_limitType : LimitType;
  rq_bucket : string;
  rq_cost : Z;
  rq_isPriority : bool;
}.

(** Where a Spend stands. From [Arrived] to the end of the refill it holds the read lock of
    rl.mutex; a created entry is not refilled. *)
Inductive phase :=
  | Arrived                        (* about to look the bucket up in oldBuckets *)
  | MissedOld                      (* about to look it up, or create it, in newBuckets *)
  | Found (k : nat)                (* has the entry, about to read the clock *)
  | Refilling (k : nat) (now : Z)  (* about to lock the entry and refill it *)
  | Charging (k : nat)             (* about to lock the entry and spend *)
  | Answered (r : result ()).

(** The limiter, the clock and the threads; [born] and [spent] record, per entry, the bucket and
    time it was created for and the total cost accepted through it. *)
Record Sys := mkSys {
  lim : Limiter;
  clock : Z;
  threads : gmap nat (Request * phase);
  born : gmap nat (string * Z);
  spent : gmap nat Z;
}.

#[export] Instance Sys_eta : Eta Sys :=
  λ s, mkSys (lim s) (clock s) (threads s) (born s) (spent s).

Definition initSys (st : Settings) (now : Z) : Sys :=
  mkSys (mkLimiter ∅ 0 ∅ ∅ st) now ∅ ∅ ∅.

Definition setPhase (i : nat) (rq : Request) (ph : phase) (s : Sys) : Sys :=
  s <| threads := <[i := (rq, ph)]> (threads s) |>.

(** The step of thread [i]. *)
Definition stepThread (i : nat) (s : Sys) : option Sys :=
  '(rq, ph) ← threads s !! i;
  l ← getLimit (rq_limitType rq) (settings (lim s));
  let m := multiplierOf (rq_limitType rq) (rq_isPriority rq) (settings (lim s)) in
  match ph with
  | Arrived =>
      Some (setPhase i rq
        (match oldBuckets (lim s) !! rq_bucket rq with Some k => Found k | None => MissedOld end) s)
  | MissedOld =>
      match newBuckets (lim s) !! rq_bucket rq with
      | Some k => Some (setPhase i rq (Found k) s)
      | None =>
          let '(k, rl) := createEntry (rq_bucket rq) l (clock s) m (lim s) in
          Some (setPhase i rq (Charging k) s <| lim := rl |>
                  <| born := <[k := (rq_bucket rq, clock s)]> (born s) |>
                  <| spent := <[k := 0]> (spent s) |>)
      end
  | Found k => Some (setPhase i rq (Refilling k (clock s)) s)
  | Refilling k now => Some (setPhase i rq (Charging k) s <| lim := refillEntry k l now m (lim s) |>)
  | Charging k =>
      '(r, rl) ← charge k (rq_cost rq) (lim s);
      Some (setPhase i rq (Answered r) s <| lim := rl |>
              <| spent := match r with Ok _ => alter (Z.add (rq_cost rq)) k (spent s)
                                     | Err _ => spent s end |>)
  | Answered _ => None
  end.

(** Whether a thread holds the read lock of rl.mutex, which a swap waits for. *)
Definition reading (ph : phase) : bool :=
  match ph with MissedOld | Found _ | Refilling _ _ => true | _ => false end.

Inductive label :=
  | LSpend (i : nat) (rq : Request)    (* a request arrives *)
  | LThread (i : nat)                  (* a request's next step *)
  | LTick (now : Z)                    (* time passes *)
  | LDelete (b : string)               (* the janitor deletes a bucket it found expired *)
  | LSwap.                             (* the janitor swaps the maps *)

Definition step (expiresAfter : Z) (a : label) (s : Sys) : option Sys :=
  match a with
  | LSpend i rq => match threads s !! i with
                   | None => Some (setPhase i rq Arrived s)
                   | Some _ => None
                   end
  | LThread i => stepThread i s
  | LTick now => if bool_decide (clock s ≤ now) then Some (s <| clock := now |>) else None
  | LDelete b => Some (s <| lim := deleteBucket (clock s) expiresAfter b (lim s) |>)
  | LSwap => if bool_decide (map_Forall (λ _ '(_, ph), reading ph = false) (threads s))
             then Some (s <| lim := swap (lim s) |>) else None
  end.

Fixpoint exec (expiresAfter : Z) (ls : list label) (s : Sys) : option Sys :=
  match ls with
  | [] => Some s
  | a :: ls => s ← step expiresAfter a s; exec expiresAfter ls s
  end.

(** * The invariant *)

Section Account.
Context (expiresAfter : Z) (st : Settings) (cfg : string → LimitType * bool).

(** All requests for a bucket use the same limit and priority. *)
Definition fits (rq : Request) : Prop :=
  cfg (rq_bucket rq) = (rq_limitType rq, rq_isPriority rq) ∧ is_u16 (rq_cost rq).

Definition fits_label (a : label) : Prop :=
  match a with LSpend _ rq => fits rq | _ => True end.

Definition mult (b : string) : Z := multiplierOf (cfg b).1 (cfg b).2 st.

(** The most a bucket can hold, and what it gains each minute. *)
Definition cap (b : string) : Z :=
  match getLimit (cfg b).1 st with Some l => u16 (MaxTokens l * mult b) | None => 0 end.
Definition rate (b : string) : Z :=
  match getLimit (cfg b).1 st with Some l => u16 (RatePerMinute l * mult b) | None => 0 end.

Definition account (now : Z) (b : string) (c0 sp : Z) (e : Entry) : Prop :=
  0 ≤ tokens e ≤ cap b ∧ c0 ≤ lastSeen e ≤ now ∧ 0 ≤ sp ∧
  sp + tokens e ≤ cap b + rate b * ((lastSeen e - c0) / Minute).

Definition for_bucket (s : Sys) (b : string) (k : nat) : Prop :=
  ∃ c0, born s !! k = Some (b, c0).

Definition thread_ok (s : Sys) (rq : Request) (ph : phase) : Prop :=
  fits rq ∧
  match ph with
  | MissedOld => oldBuckets (lim s) !! rq_bucket rq = None
  | Found k | Charging k => for_bucket s (rq_bucket rq) k
  | Refilling k now => for_bucket s (rq_bucket rq) k ∧ now ≤ clock s
  | _ => True
  end.

Record Inv (s : Sys) : Prop := {
  inv_settings : settings (lim s) = st;
  inv_wf : wf_limiter (lim s);
  inv_owner : ∀ b k, owns (lim s) b k → for_bucket s b k;
  inv_born : ∀ k b c0, born s !! k = Some (b, c0) →
    (k < nextEntry (lim s))%nat ∧
    ∃ e sp, heap (lim s) !! k = Some e ∧ spent s !! k = Some sp ∧ account (clock s) b c0 sp e;
  inv_thread : ∀ i rq ph, threads s !! i = Some (rq, ph) → thread_ok s rq ph;
}.

Lemma cap_range b : is_u16 (cap b).
Proof. unfold cap. destruct (getLimit _ _); [apply u16_range|done]. Qed.

Lemma rate_nonneg b : 0 ≤ rate b.
Proof. unfold rate. destruct (getLimit _ _); [apply u16_range|done]. Qed.

Lemma fits_limit rq l :
  fits rq → getLimit (rq_limitType rq) st = Some l →
  u16 (MaxTokens l * multiplierOf (rq_limitType rq) (rq_isPriority rq) st) = cap (rq_bucket rq) ∧
  u16 (RatePerMinute l * multiplierOf (rq_limitType rq) (rq_isPriority rq) st)
    = rate (rq_bucket rq).
Proof. intros [E _] El. unfold cap, rate, mult. rewrite E. simpl. by rewrite El. Qed.

(** ** The account under each change *)

Lemma account_later now now' b c0 sp e :
  now ≤ now' → account now b c0 sp e → account now' b c0 sp e.
Proof. unfold account. intros. naive_solver lia. Qed.

Lemma account_refill now b c0 sp e l m t :
  account now b c0 sp e → t ≤ now →
  u16 (MaxTokens l * m) = cap b → u16 (RatePerMinute l * m) = rate b →
  account now b c0 sp (Refill l t m e).
Proof.
  intros (Ht & Hl & Hsp & Ha) Hnow Ec Er. pose proof (cap_range b) as Hc. unfold is_u16 in Hc.
  rewrite Refill_spec by (unfold is_u16; lia). case_decide as Hlt; [|exact (conj Ht (conj Hl (conj Hsp Ha)))].
  rewrite Ec, Er. pose proof (rate_nonneg b) as Hr. unfold account. simpl.
  assert (Hd : 0 ≤ (t - lastSeen e) / Minute) by (apply Z.div_pos; unfold Minute; lia).
  pose proof (minutes_add (lastSeen e - c0) (t - lastSeen e) ltac:(lia) ltac:(lia)) as Hm.
  replace (lastSeen e - c0 + (t - lastSeen e)) with (t - c0) in Hm by lia.
  split_and!; try lia; nia.
Qed.

Lemma account_charge now b c0 sp e cost :
  account now b c0 sp e → is_u16 cost → cost ≤ tokens e →
  account now b c0 (cost + sp) (mkEntry (lastSeen e) (u16 (tokens e - cost))).
Proof.
  intros (Ht & Hl & Hsp & Ha) Hcost Hle. pose proof (cap_range b) as Hc. unfold is_u16 in *.
  unfold account. simpl. rewrite u16_small by lia. split_and!; lia.
Qed.

Lemma account_create now b l m :
  u16 (MaxTokens l * m) = cap b → account now b now 0 (mkEntry now (u16 (MaxTokens l * m))).
Proof.
  intros Ec. pose proof (cap_range b) as [? ?]. unfold account. simpl. rewrite Ec, Z.sub_diag.
  change (0 / Minute) with 0. lia.
Qed.

(** ** Preservation *)

(** A thread's new phase, when the rest of the state stays. *)
Lemma inv_setPhase i rq ph s : Inv s → thread_ok s rq ph → Inv (setPhase i rq ph s).
Proof.
  intros [I1 I2 I3 I4 I5] Hok. split; [done..|]. intros j rq' ph'. simpl.
  rewrite lookup_insert_Some. intros [[-> [= <- <-]]|[_ Hj]]; [done|by apply (I5 j)].
Qed.

(** Writing one entry, with its account, keeps the invariant. *)
Lemma inv_write k b c0 e sp sp' e' s :
  Inv s → born s !! k = Some (b, c0) → heap (lim s) !! k = Some e → spent s !! k = Some sp →
  account (clock s) b c0 sp' e' →
  Inv (s <| lim := lim s <| heap := <[k := e']> (heap (lim s)) |> |>
         <| spent := <[k := sp']> (spent s) |>).
Proof.
  intros [I1 I2 I3 I4 I5] Hb He Hs Ha. split; simpl.
  - done.
  - destruct I2 as [W1 W2 W3]. split; simpl; [exact W1|exact W2|].
    intros b' k' Ho. destruct (W3 b' k' Ho) as [? ?]. split; [|done].
    rewrite lookup_insert_is_Some'. by right.
  - exact I3.
  - intros k' b' c0' Hb'. destruct (I4 k' b' c0' Hb') as (Hn & e1 & sp1 & He1 & Hs1 & Ha1).
    split; [done|]. destruct (decide (k' = k)) as [->|Hne].
    + rewrite !lookup_insert_eq. exists e', sp'. split_and!; [done..|]. by simplify_eq.
    + rewrite !lookup_insert_ne by done. by exists e1, sp1.
  - intros i rq ph Hi. specialize (I5 i rq ph Hi). exact I5.
Qed.

Lemma inv_create b l m s :
  Inv s → pointerOf (lim s) b = None → u16 (MaxTokens l * m) = cap b →
  let '(k, rl) := createEntry b l (clock s) m (lim s) in
  Inv (s <| lim := rl |> <| born := <[k := (b, clock s)]> (born s) |>
         <| spent := <[k := 0]> (spent s) |>) ∧
  (∀ b' k', for_bucket s b' k' → k' ≠ k).
Proof.
  intros [I1 I2 I3 I4 I5] Hp Hcap. pose proof (create_update (lim s) b l (clock s) m I2 Hp) as Hc.
  destruct (createEntry b l (clock s) m (lim s)) as [k rl] eqn:E. injection E as <- <-.
  destruct Hc as (W & _ & Es & _).
  assert (Hold : ∀ b' k', for_bucket s b' k' → k' ≠ nextEntry (lim s)).
  { intros b' k' [c0 Hb]. destruct (I4 k' b' c0 Hb). lia. }
  assert (Hfb : ∀ b' k', for_bucket s b' k' →
    ∃ c0, <[nextEntry (lim s) := (b, clock s)]> (born s) !! k' = Some (b', c0)).
  { intros b' k' Hb. pose proof (Hold b' k' Hb). destruct Hb as [c0 Hb]. exists c0.
    by rewrite lookup_insert_ne. }
  split; [|exact Hold]. split; simpl.
  - exact I1.
  - exact W.
  - intros b' k' [Ho|Ho]; simpl in Ho.
    + apply Hfb, I3. by left.
    + apply lookup_insert_Some in Ho as [[<- <-]|[_ Ho]].
      * exists (clock s). simpl. by rewrite lookup_insert_eq.
      * apply Hfb, I3. by right.
  - intros k' b' c0 [[<- [= <- <-]]|[Hne Hb]]%lookup_insert_Some.
    + split; [lia|]. rewrite !lookup_insert_eq. do 2 eexists. split_and!; [done..|].
      by apply account_create.
    + destruct (I4 k' b' c0 Hb) as (? & e & sp & ? & ? & ?). split; [lia|].
      rewrite !lookup_insert_ne by done. by exists e, sp.
  - intros i rq ph Hi. destruct (I5 i rq ph Hi) as [Hf Hph]. split; [done|]. destruct ph; simpl; try done.
    + by apply Hfb.
    + destruct Hph as [Hb ?]. split; [by apply Hfb|done].
    + by apply Hfb.
Qed.

Lemma forgets_owns now exp rl b :
  let rl' := deleteBucket now exp b rl in
  (∀ b' k, owns rl' b' k → owns rl b' k) ∧ nextEntry rl' = nextEntry rl ∧
  (∀ b', oldBuckets rl !! b' = None → oldBuckets rl' !! b' = None).
Proof.
  simpl. unfold deleteBucket. destruct (oldBuckets rl !! b) as [k0|]; [|done].
  case_decide; [|done]. split_and!; [|done|]; simpl.
  - intros b' k [Ho|Ho]; [left|by right]. simpl in Ho. by apply lookup_delete_Some in Ho as [_ ?].
  - intros b' Hb. destruct (decide (b' = b)) as [->|]; [by rewrite lookup_delete_eq|].
    by rewrite lookup_delete_ne.
Qed.

Lemma inv_delete b s :
  Inv s → Inv (s <| lim := deleteBucket (clock s) expiresAfter b (lim s) |>).
Proof.
  intros [I1 I2 I3 I4 I5].
  destruct (deleteBucket_forgets (clock s) expiresAfter b (lim s) I2) as (W & Es & Eh & _).
  destruct (forgets_owns (clock s) expiresAfter (lim s) b) as (Ho & En & Hn).
  split; simpl; [congruence|done| | |].
  - intros b' k Hk. by apply (I3 b' k), Ho.
  - intros k b' c0 Hb. rewrite En, Eh. by apply I4.
  - intros i rq ph Hi. destruct (I5 i rq ph Hi) as [Hf Hph]. split; [done|].
    destruct ph; try done. simpl. by apply Hn.
Qed.

Lemma inv_swap s :
  Inv s → map_Forall (λ _ '(_, ph), reading ph = false) (threads s) →
  Inv (s <| lim := swap (lim s) |>).
Proof.
  intros [I1 I2 I3 I4 I5] Hr. split; simpl; [done| | |done|].
  - destruct I2 as [W1 W2 W3]. split; simpl.
    + intros b b' k O1 O2. apply (W1 b b' k); unfold owns in *; tauto.
    + intros b k En. destruct (oldBuckets (lim s) !! b) as [k'|] eqn:Eo; [|done].
      by rewrite (W2 b k' Eo) in En.
    + intros b k O. apply (W3 b k). unfold owns in *. tauto.
  - intros b k O. apply (I3 b k). unfold owns in *. tauto.
  - intros i rq ph Hi. destruct (I5 i rq ph Hi) as [Hf Hph]. split; [done|].
    specialize (Hr i (rq, ph) Hi). by destruct ph.
Qed.

Lemma inv_thread_step i s s' : Inv s → stepThread i s = Some s' → Inv s'.
Proof.
  intros I. unfold stepThread. destruct (threads s !! i) as [[rq ph]|] eqn:Hi; [|done]. simpl.
  destruct (inv_thread s I i rq ph Hi) as [Hf Hph].
  destruct (getLimit (rq_limitType rq) (settings (lim s))) as [l|] eqn:El; [|done]. simpl.
  destruct (fits_limit rq l Hf ltac:(by rewrite <- (inv_settings s I))) as [Ecap Erate].
  rewrite <- (inv_settings s I) in Ecap, Erate.
  set (m := multiplierOf _ _ _) in *. destruct ph as [| |k|k now|k|r]; [..|done].
  - intros [= <-]. apply inv_setPhase; [done|]. split; [done|].
    destruct (oldBuckets (lim s) !! rq_bucket rq) as [k|] eqn:Eo; simpl; [|done].
    apply (inv_owner s I). by left.
  - destruct (newBuckets (lim s) !! rq_bucket rq) as [k|] eqn:En.
    + intros [= <-]. apply inv_setPhase; [done|]. split; [done|]. apply (inv_owner s I). by right.
    + intros [= <-]. simpl in Hph.
      assert (Hp : pointerOf (lim s) (rq_bucket rq) = None) by (unfold pointerOf; by rewrite Hph).
      destruct (inv_create (rq_bucket rq) l m s I Hp Ecap) as [I' _].
      apply (inv_setPhase i rq (Charging (nextEntry (lim s)))) in I'; [exact I'|].
      split; [done|]. exists (clock s). simpl. by rewrite lookup_insert_eq.
  - intros [= <-]. apply inv_setPhase; [done|]. split; [done|]. split; [done|]. simpl. lia.
  - intros [= <-]. destruct Hph as [[c0 Hb] Hnow].
    destruct (inv_born s I k _ c0 Hb) as (_ & e & sp & He & Hs & Ha).
    pose proof (inv_write k _ c0 e sp sp (Refill l now m e) s I Hb He Hs
      (account_refill _ _ _ _ _ l m now Ha Hnow Ecap Erate)) as I'.
    rewrite (insert_id (spent s)) in I' by done.
    apply (inv_setPhase i rq (Charging k)) in I'; [|split; [done|by exists c0]].
    unfold refillEntry. rewrite (alter_alt_Some _ _ _ e He). exact I'.
  - destruct Hph as [c0 Hb]. destruct (inv_born s I k _ c0 Hb) as (_ & e & sp & He & Hs & Ha).
    unfold charge. rewrite He. simpl. case_bool_decide as Hle; intros [= <-].
    + apply (inv_setPhase i rq (Answered (Err rateLimited))) in I; [exact I|done].
    + pose proof (inv_write k _ c0 e sp _ _ s I Hb He Hs
        (account_charge _ _ _ _ _ (rq_cost rq) Ha (proj2 Hf) ltac:(lia))) as I'.
      apply (inv_setPhase i rq (Answered (Ok ()))) in I'; [|done].
      rewrite (alter_alt_Some _ _ _ sp Hs). exact I'.
Qed.

Lemma inv_step a s s' : fits_label a → Inv s → step expiresAfter a s = Some s' → Inv s'.
Proof.
  destruct a as [i rq|i|now|b|]; simpl; intros Hf I.
  - destruct (threads s !! i); [done|]. intros [= <-]. by apply inv_setPhase.
  - by apply inv_thread_step.
  - case_bool_decide as Hle; [|done]. intros [= <-]. destruct I as [I1 I2 I3 I4 I5].
    split; simpl; [done..| |].
    + intros k b c0 Hb. destruct (I4 k b c0 Hb) as (? & e & sp & ? & ? & ?). split; [done|].
      exists e, sp. split_and!; [done..|]. by apply (account_later (clock s)).
    + intros i rq ph Hi. destruct (I5 i rq ph Hi) as [? Hph]. split; [done|].
      destruct ph; try done. destruct Hph. split; [done|]. simpl. lia.
  - intros [= <-]. by apply inv_delete.
  - case_bool_decide; [|done]. intros [= <-]. by apply inv_swap.
Qed.

Lemma inv_exec ls s s' : Forall fits_label ls → Inv s → exec expiresAfter ls s = Some s' → Inv s'.
Proof.
  revert s. induction ls as [|a ls IH]; intros s; [by intros _ ? [= <-]|].
  intros [Ha Hls]%Forall_cons I. cbn [exec].
  destruct (step expiresAfter a s) as [s1|] eqn:E; [|intros H; discriminate H]. simpl.
  apply IH; [done|]. by apply (inv_step a s).
Qed.

Lemma inv_init now : Inv (initSys st now).
Proof.
  split; simpl; try done.
  - split; [by intros b b' k [?|?]|done|by intros b k [?|?]].
  - by intros b k [?|?].
Qed.

(** C16. The types the code declares hold under every interleaving of requests, clock and janitor:
    the balance a request for a bucket finds is a uint16 between 0 and the bucket's cap, its
    lastSeen is not in the future, and no bucket ever has two live entries, so all requests that
    find one spend from the same balance. *)
Theorem limiter_well_typed start ls s :
  Forall fits_label ls → exec expiresAfter ls (initSys st start) = Some s →
  (∀ b k, owns (lim s) b k → ∃ e, heap (lim s) !! k = Some e ∧
    0 ≤ tokens e ≤ cap b ∧ is_u16 (tokens e) ∧ lastSeen e ≤ clock s) ∧
  (∀ b b' k k', owns (lim s) b k → owns (lim s) b' k' → b = b' ↔ k = k').
Proof.
  intros Hf Hs. pose proof (inv_exec ls _ s Hf (inv_init start) Hs) as I.
  pose proof (inv_wf s I) as W. split.
  - intros b k [c0 Hb]%(inv_owner s I).
    destruct (inv_born s I k b c0 Hb) as (_ & e & sp & He & _ & Ht & Hl & _).
    exists e. pose proof (cap_range b) as Hc. unfold is_u16 in *. split_and!; [done|lia..].
  - intros b b' k k' O O'. split; [intros <-|intros <-; by apply (wf_owner _ W b b' k)].
    apply pointerOf_owns in O, O'; [|done..]. congruence.
Qed.

(** No interleaving overdraws a bucket: whatever the requests, the clock and the janitor do,
    the total cost accepted through an entry is at most its bucket's cap plus the bucket's rate
    for every whole minute since the entry was created. *)
Lemma never_overdrawn start ls s k b c0 sp :
  Forall fits_label ls → exec expiresAfter ls (initSys st start) = Some s →
  born s !! k = Some (b, c0) → spent s !! k = Some sp →
  0 ≤ sp ≤ cap b + rate b * ((clock s - c0) / Minute).
Proof.
  intros Hf Hs Hb Hsp. pose proof (inv_exec ls _ s Hf (inv_init start) Hs) as I.
  destruct (inv_born s I k b c0 Hb) as (_ & e & sp' & _ & Hsp' & Ht & Hl & H0 & Ha).
  assert (sp' = sp) as -> by congruence. split; [done|].
  assert (Hm : (lastSeen e - c0) / Minute ≤ (clock s - c0) / Minute)
    by (apply Z.div_le_mono; unfold Minute; lia).
  pose proof (rate_nonneg b). nia.
Qed.
End Account.

(** ** Concrete inputs *)

(** Two requests race for a new bucket; the janitor swaps the maps, the bucket expires and is
    deleted while a third request holds its entry. *)
Definition racers : list label :=
  let rq := mkRequest PUBLISH "bPUB" 2000 false in
  [LSpend 0 rq; LSpend 1 rq; LThread 0; LThread 1; LThread 0; LThread 1; LThread 0; LThread 1;
   LThread 1; LThread 1; LSwap; LTick (61 * Minute); LSpend 2 rq; LThread 2; LDelete "bPUB";
   LThread 2; LThread 2; LThread 2].

Definition racersCfg (b : string) : LimitType * bool := (PUBLISH, false).

Lemma racers_fit : Forall (fits_label racersCfg) racers.
Proof.
  apply Forall_forall. intros a Ha. destruct a as [i rq|i|now|b|]; try done.
  assert (rq = mkRequest PUBLISH "bPUB" 2000 false) as ->
    by (unfold racers in Ha; set_solver). done.
Qed.

Lemma limiter_well_typed_witness :
  ∃ s, exec RATE_LIMITER_EXPIRES_AFTER racers (initSys serverSettings 0) = Some s ∧
    (∀ b b' k k', owns (lim s) b k → owns (lim s) b' k' → b = b' ↔ k = k') ∧
    tokens <$> heap (lim s) !! 0%nat = Some 1000.
Proof.
  destruct (exec RATE_LIMITER_EXPIRES_AFTER racers (initSys serverSettings 0)) as [s|] eqn:E;
    [|vm_compute in E; discriminate E].
  exists s. split; [reflexivity|]. split.
  - exact (proj2 (limiter_well_typed RATE_LIMITER_EXPIRES_AFTER serverSettings racersCfg 0 racers s
      racers_fit E)).
  - vm_compute in E. injection E as <-. vm_compute. reflexivity.
Defined.
