(* ===== verification/Interceptor.v ===== *)
(** What stands between a gRPC request and its handler (pkg/api): version gating
    (pkg/api/gating.go, pkg/api/message/v1/context), rate limiting by client address
    (pkg/api/interceptor.go, pkg/utils/ip.go) with the permissions of the allow list (pkg/authz),
    request telemetry (pkg/api/telemetry.go) and the migration cutover (pkg/migration). *)

From S2P Require Import Prelude Topic RateLimiter RateLimiterConc.

(** * Strings and the request's context *)

(** [strings.Split] at a one-character separator: never empty. *)
Fixpoint Split (c : Ascii.ascii) (s : string) : list string :=
  match s with
  | EmptyString => [EmptyString]
  | String d s =>
      if Ascii.eqb c d then EmptyString :: Split c s
      else match Split c s with
           | part :: parts => String d part :: parts
           | [] => [String d EmptyString]
           end
  end.

(** The ASCII white space [strings.TrimSpace] trims. Metadata values are ASCII by the gRPC
    specification; of one that is not, TrimSpace would trim Unicode white space as well. *)
Definition isSpace (c : Ascii.ascii) : bool :=
  let n := Ascii.N_of_ascii c in (N.leb 9 n && N.leb n 13 || N.eqb n 32)%N.

Fixpoint trimLeft (s : string) : string :=
  match s with
  | String c s' => if isSpace c then trimLeft s' else s
  | EmptyString => s
  end.

Fixpoint trimRight (s : string) : string :=
  match s with
  | String c s' =>
      match trimRight s' with
      | EmptyString => if isSpace c then EmptyString else String c EmptyString
      | t => String c t
      end
  | EmptyString => s
  end.

Definition TrimSpace (s : string) : string := trimRight (trimLeft s).

(** What the interceptors read of the context: the incoming metadata and the peer's address. *)
Record Ctx := mkCtx {
  metadata : option (gmap string (list string));
  peerAddr : option string;
}.

(** [md.Get], which a nil metadata answers with nothing. *)
Definition Get (md : option (gmap string (list string))) (key : string) : list string :=
  match md with Some md => default [] (md !! key) | None => [] end.

Definition ClientIPFromContext (ctx : Ctx) : string :=
  match Get (metadata ctx) "x-forwarded-for" with
  | [] => match peerAddr ctx with
          | Some addr => default EmptyString (head (Split colon addr))
          | None => EmptyString
          end
  | v :: _ => TrimSpace (default EmptyString (head (Split comma v)))
  end.

Definition splitMethodName (fullMethodName : string) : string * string :=
  let fullMethodName := TrimPrefix fullMethodName "/" in
  match String.index 0 "/" fullMethodName with
  | Some i => (String.substring 0 i fullMethodName,
               String.substring (S i) (String.length fullMethodName) fullMethodName)
  | None => ("unknown", "unknown")
  end.

(** * Version gating *)

Definition parseVersionHeaderValue (vals : list string) : string * string * string :=
  match vals with
  | [] => (EmptyString, EmptyString, EmptyString)
  | full :: _ =>
      match Split slash full with
      | name :: version :: _ => (name, version, full)
      | [name] => (name, EmptyString, full)
      | [] => (EmptyString, EmptyString, full)
      end
  end.

Record requesterInfo := mkRequesterInfo {
  AppName : string;
  AppVersion : string;
  ClientName : string;
  ClientVersion : string;
  IsSupportedClient : bool;
  LibxmtpVersion : string;
}.

Section Gating.
(** The process environment's ENV, and golang.org/x/mod/semver. *)
Context (ENV : string) (semver_IsValid : string → bool) (semver_Compare : string → string → Z).

Definition normalizedVersion (v : string) : string :=
  match v with
  | String c _ => if Ascii.eqb c (Ascii.ascii_of_nat 118) then v else "v" +:+ v
  | EmptyString => "v" +:+ v
  end.

Definition isSupportedClient (libxmtpVersion : string) : bool :=
  if bool_decide (ENV ≠ "production") then true
  else
    let v := normalizedVersion libxmtpVersion in
    if negb (semver_IsValid v) then true
    else bool_decide (0 ≤ semver_Compare v "v1.1.5").

Definition NewRequesterInfo (ctx : Ctx) : requesterInfo :=
  match metadata ctx with
  | None => mkRequesterInfo EmptyString EmptyString EmptyString EmptyString false EmptyString
  | Some _ =>
      let '(appName, _, appVersion) := parseVersionHeaderValue (Get (metadata ctx) "x-app-version") in
      let '(clientName, _, clientVersion) :=
        parseVersionHeaderValue (Get (metadata ctx) "x-client-version") in
      let '(_, _, libxmtpVersion) :=
        parseVersionHeaderValue (Get (metadata ctx) "x-libxmtp-version") in
      mkRequesterInfo appName appVersion clientName clientVersion
        (isSupportedClient libxmtpVersion) libxmtpVersion
  end.

Definition IS_GATING_ENABLED : bool := true.

Definition unsupportedVersion (libxmtpVersion : string) : error :=
  Status Unimplemented ("unsupported libxmtp version " +:+ libxmtpVersion).

(** GatingInterceptor: the error it answers instead of calling the handler. *)
Definition gate (ctx : Ctx) : option error :=
  let ri := NewRequesterInfo ctx in
  if IS_GATING_ENABLED && negb (IsSupportedClient ri)
  then Some (unsupportedVersion (LibxmtpVersion ri)) else None.
End Gating.

(** * The allow list *)

Inductive Permission := Unspecified | AllowAll | Priority | Denied.

#[export] Instance Permission_eq_dec : EqDecision Permission.
Proof. solve_decision. Defined.

Definition Permission_String (p : Permission) : string :=
  match p with
  | AllowAll => "allow_all"
  | Priority => "priority"
  | Denied => "denied"
  | Unspecified => "unspecified"
  end.

Definition permissionFromString (permission : string) : Permission :=
  if bool_decide (permission = "allow_all") then AllowAll
  else if bool_decide (permission = "priority") then Priority
  else if bool_decide (permission = "denied") then Denied
  else Unspecified.

(** A row of ip_addresses. *)
Record IPAddress := mkIPAddress {
  ip_IPAddress : string;
  ip_DeletedAt : option Z;
  ip_Permission : string;
}.

Abbreviation permissionMap := (gmap string Permission).

Definition GetPermission (permissions : permissionMap) (ipAddress : string) : Permission :=
  default Unspecified (permissions !! ipAddress).

(** loadPermissions: the new map, from the rows in the order the query returned them; a query
    that fails keeps the old one. *)
Definition loadPermissions (dbErr : option error) (table : list IPAddress)
    (permissions : permissionMap) : result () * permissionMap :=
  match dbErr with
  | Some e => (Err e, permissions)
  | None =>
      let ips := filter (λ r, ip_DeletedAt r = None) table in
      (Ok (), foldl (λ m r, <[ip_IPAddress r := permissionFromString (ip_Permission r)]> m) ∅ ips)
  end.

(** listenForChanges: a refresh that fails is logged. *)
Definition refreshPermissions (dbErr : option error) (table : list IPAddress)
    (permissions : permissionMap) : permissionMap :=
  (loadPermissions dbErr table permissions).2.

(** * Rate limiting *)

(** The request types the interceptor tells apart, with the length of their batch. A streaming
    call hands it the service instead of a request, which is [OtherRequest]. *)
Inductive AnyRequest :=
  | RegisterInstallationRequest
  | UploadKeyPackageRequest
  | PublishIdentityUpdateRequest
  | SendWelcomeMessagesRequest (messages : Z)
  | SendGroupMessagesRequest (messages : Z)
  | PublishRequest (envelopes : Z)
  | BatchQueryRequest (requests : Z)
  | OtherRequest.

Definition costOf (req : AnyRequest) : Z * LimitType :=
  match req with
  | RegisterInstallationRequest | UploadKeyPackageRequest | PublishIdentityUpdateRequest =>
      (1, PUBLISH)
  | SendWelcomeMessagesRequest n | SendGroupMessagesRequest n | PublishRequest n => (n, PUBLISH)
  | BatchQueryRequest n => (n, DEFAULT)
  | OtherRequest => (1, DEFAULT)
  end.

Definition bucketName (isPriority : bool) (ip : string) (limitType : LimitType) : string :=
  (if isPriority then "P" else "R") +:+ ip +:+ limitType.

Definition requestIP (ctx : Ctx) : string :=
  let ip := ClientIPFromContext ctx in
  if bool_decide (len ip = 0) then "ip_unknown" else ip.

(** The Spend of a request that is limited. *)
Definition spendRequest (isPriority : bool) (ip : string) (req : AnyRequest) : Request :=
  let '(cost, limitType) := costOf req in
  mkRequest limitType (bucketName isPriority ip limitType) (u16 cost) isPriority.

Definition applyLimits (permissions : permissionMap) (now : Z) (ctx : Ctx) (req : AnyRequest)
    (rl : Limiter) : option (result () * Limiter) :=
  let ip := requestIP ctx in
  let permission := GetPermission permissions ip in
  if bool_decide (permission = Denied)
  then Some (Err (Status PermissionDenied "request blocked"), rl)
  else if bool_decide (permission = AllowAll) then Some (Ok (), rl)
  else
    let rq := spendRequest (bool_decide (permission = Priority)) ip req in
    '(r, rl) ← Spend (rq_limitType rq) (rq_bucket rq) (rq_cost rq) (rq_isPriority rq) now rl;
    Some (match r with
          | Ok _ => Ok ()
          | Err e => Err (Status ResourceExhausted (errorString e))
          end, rl).

(** * Telemetry *)

Inductive level := DebugLevel | ErrorLevel.

(** record: the level a request is logged at. *)
Definition recordLevel (err : option error) : level :=
  match err with
  | None => DebugLevel
  | Some (Status ResourceExhausted _) | Some (Status InvalidArgument _) => DebugLevel
  | Some _ => ErrorLevel
  end.

(** * The migration cutover *)

(** [None] is a nil checker. *)
Definition IsMigrationComplete (now : Z) (c : option Z) : bool :=
  match c with
  | None => false
  | Some cutoverNs => if bool_decide (cutoverNs = 0) then false
                      else bool_decide (cutoverNs ≤ u64 now)
  end.

Definition CutoverNs (c : option Z) : Z := default 0 c.

Definition FetchD14NCutover (d14nCutoverNs : Z) : result Z := Ok d14nCutoverNs.

(** * Buckets *)

(** What a bucket's name says: its limit type (the last three characters) and its priority. *)
Definition bucketKind (b : string) : LimitType * bool :=
  (String.substring (String.length b - 3) 3 b, HasPrefix b "P").

Lemma string_app_length (a b : string) : String.length (a +:+ b) = (String.length a + String.length b)%nat.
Proof. induction a as [|c a IH]; [done|]. exact (f_equal S IH). Qed.

Lemma substring_suffix (a b : string) :
  String.substring (String.length a) (String.length b) (a +:+ b) = b.
Proof.
  induction a as [|c a IH]; [|exact IH]. induction b as [|c b IH]; [done|].
  exact (f_equal (String c) IH).
Qed.

Lemma string_app_inj a a' b b' :
  String.length b = String.length b' → a +:+ b = a' +:+ b' → a = a' ∧ b = b'.
Proof.
  intros Hl E. assert (Ha : String.length a = String.length a').
  { apply (f_equal String.length) in E. rewrite !string_app_length in E. lia. }
  revert a' Ha E. induction a as [|c a IH]; intros [|c' a'] Ha; try done.
  intros [= -> E]. injection Ha as Ha. by destruct (IH a' Ha E) as [-> ->].
Qed.

Definition limited (limitType : LimitType) : Prop := limitType = DEFAULT ∨ limitType = PUBLISH.

Lemma costOf_limited req : limited (costOf req).2.
Proof. unfold limited. destruct req; simpl; auto. Qed.

Lemma bucketKind_name isPriority ip limitType :
  limited limitType → bucketKind (bucketName isPriority ip limitType) = (limitType, isPriority).
Proof.
  intros Hl. unfold bucketKind, bucketName. f_equal; [|destruct isPriority; [apply (prefix_app "P")|done]].
  rewrite <- string_app_assoc. set (a := _ +:+ ip).
  assert (E3 : String.length limitType = 3%nat) by (by destruct Hl as [->| ->]).
  rewrite string_app_length, E3, Nat.add_sub, <- E3. apply substring_suffix.
Qed.

Lemma bucketName_inj p ip lt p' ip' lt' :
  limited lt → limited lt' → bucketName p ip lt = bucketName p' ip' lt' →
  p = p' ∧ ip = ip' ∧ lt = lt'.
Proof.
  intros Hl Hl' E. unfold bucketName in E.
  assert (Ep : p = p') by (by destruct p, p'). subst p'. apply string_app_inj_l in E.
  apply string_app_inj in E as [-> ->]; [done|].
  by destruct Hl as [->| ->], Hl' as [->| ->].
Qed.

(** The requests the interceptor makes fit the limiter: a bucket is always used with the limit
    and the priority its name says. *)
Lemma spendRequest_fits isPriority ip req : fits bucketKind (spendRequest isPriority ip req).
Proof.
  unfold spendRequest. pose proof (costOf_limited req) as Hl.
  destruct (costOf req) as [cost limitType]. split; simpl; [by apply bucketKind_name|apply u16_range].
Qed.

Definition from_interceptor (a : label) : Prop :=
  match a with LSpend _ rq => ∃ isPriority ip req, rq = spendRequest isPriority ip req | _ => True end.

(** What the server allows a bucket: at once, and per minute. *)
Definition burst (isPriority : bool) (limitType : LimitType) : Z :=
  (if bool_decide (limitType = PUBLISH) then 3000 else 20000)
  * (if isPriority then if bool_decide (limitType = PUBLISH) then 4 else 2 else 1).
Definition perMinute (isPriority : bool) (limitType : LimitType) : Z :=
  (if bool_decide (limitType = PUBLISH) then 600 else 4000)
  * (if isPriority then if bool_decide (limitType = PUBLISH) then 4 else 2 else 1).

Lemma server_cap isPriority ip limitType :
  limited limitType →
  cap serverSettings bucketKind (bucketName isPriority ip limitType) = burst isPriority limitType ∧
  rate serverSettings bucketKind (bucketName isPriority ip limitType)
    = perMinute isPriority limitType.
Proof.
  intros Hl. unfold cap, rate, mult. rewrite bucketKind_name by done.
  destruct Hl as [->| ->], isPriority; split; vm_compute; reflexivity.
Qed.

(** Under every interleaving of requests, clock and janitor, the cost charged to an entry of a
    bucket, from its creation on, is at most the burst (3000 publishes or 20000 other requests; times
    4 and 2 for priority clients) plus the rate (600 and 4000, times the same) per whole minute. *)
Theorem entry_rate_limited expiresAfter start ls s k isPriority ip limitType c0 sp :
  Forall from_interceptor ls → limited limitType →
  exec expiresAfter ls (initSys serverSettings start) = Some s →
  born s !! k = Some (bucketName isPriority ip limitType, c0) → spent s !! k = Some sp →
  0 ≤ sp ≤ burst isPriority limitType + perMinute isPriority limitType * ((clock s - c0) / Minute).
Proof.
  intros Hf Hl Hs Hb Hsp. destruct (server_cap isPriority ip limitType Hl) as [<- <-].
  apply (never_overdrawn expiresAfter serverSettings bucketKind start ls s k); [|done..].
  eapply Forall_impl; [exact Hf|]. intros [i rq| | | |]; try done.
  intros (p & ip' & req & ->). apply spendRequest_fits.
Qed.

Lemma getLimit_limited limitType :
  limited limitType → is_Some (getLimit limitType serverSettings).
Proof. intros [->| ->]; vm_compute; by eexists. Qed.

(** ** What a client gets accepted

    The server's requests and the janitor's sweeps, one after the other. *)

Inductive limiterEvent :=
  | Served (now : Z) (ctx : Ctx) (req : AnyRequest)
  | Swept (now : Z).

Definition timeOf (ev : limiterEvent) : Z := match ev with Served now _ _ | Swept now => now end.

(** The requests of a run with their answers, and the limiter at its end. [None] when one panics. *)
Fixpoint limitRun (permissions : permissionMap) (evs : list limiterEvent) (rl : Limiter)
    : option (list (Ctx * AnyRequest * result ()) * Limiter) :=
  match evs with
  | [] => Some ([], rl)
  | Served now ctx req :: evs =>
      '(r, rl) ← applyLimits permissions now ctx req rl;
      '(rs, rl) ← limitRun permissions evs rl; Some ((ctx, req, r) :: rs, rl)
  | Swept now :: evs => limitRun permissions evs (sweepAndSwap now RATE_LIMITER_EXPIRES_AFTER rl)
  end.

(** The messages (or other units) of a request that was let through, when it is of the address and
    of the type. *)
Definition unitsOf (ip : string) (limitType : LimitType) (a : Ctx * AnyRequest * result ()) : Z :=
  let '(ctx, req, r) := a in
  match r with
  | Ok _ => if decide (requestIP ctx = ip ∧ (costOf req).2 = limitType) then (costOf req).1 else 0
  | Err _ => 0
  end.

Definition acceptedFrom (ip : string) (limitType : LimitType) (rs : list (Ctx * AnyRequest * result ())) : Z :=
  foldr (λ a n, unitsOf ip limitType a + n) 0 rs.

(** A request whose batch the limiter's 16 bits can count. *)
Definition countable (ev : limiterEvent) : Prop :=
  match ev with Served _ _ req => 0 ≤ (costOf req).1 ≤ MAX_UINT_16 | Swept _ => True end.

Section Window.
Context (permissions : permissionMap) (ip : string) (limitType : LimitType).
Hypothesis Hl : limited limitType.
Hypothesis Hallow : GetPermission permissions ip ≠ AllowAll.

Local Abbreviation p := (bool_decide (GetPermission permissions ip = Priority)).
Local Abbreviation bucket := (bucketName p ip limitType).
Local Abbreviation top := (burst p limitType).
Local Abbreviation perMin := (perMinute p limitType).
Local Abbreviation exp := RATE_LIMITER_EXPIRES_AFTER.

(** The window begins at [from]. *)
Context (from : Z).

(** What the client's wallet [o] will hold at [now], and its bound: with what was accepted in the
    window so far it never exceeds the burst and the refills. *)
Definition balance (o : option Entry) (now : Z) : Z :=
  match o with
  | Some e => if decide (lastSeen e < now)
              then Z.min (tokens e + perMin * ((now - lastSeen e) / Minute)) top else tokens e
  | None => top
  end.

Definition walletOk (clock : Z) (o : option Entry) : Prop :=
  ∀ e, o = Some e → lastSeen e ≤ clock ∧ 0 ≤ tokens e ≤ top.

Definition underBound (clock sp : Z) (o : option Entry) : Prop :=
  ∀ now, clock ≤ now → sp + balance o now ≤ top + perMin * ((now - from) / Minute).

Lemma bounds_nonneg : 0 ≤ top ≤ MAX_UINT_16 ∧ 0 ≤ perMin.
Proof. unfold burst, perMinute. destruct Hl as [->| ->], p; vm_compute; split_and!; discriminate. Qed.

Lemma refills_nonneg t : 0 ≤ t → 0 ≤ perMin * (t / Minute).
Proof.
  intros Ht. apply Z.mul_nonneg_nonneg; [apply bounds_nonneg|]. apply Z.div_pos; unfold Minute; lia.
Qed.

Lemma limit_server :
  ∃ l, getLimit limitType serverSettings = Some l ∧
    u16 (MaxTokens l * multiplierOf limitType p serverSettings) = top ∧
    u16 (RatePerMinute l * multiplierOf limitType p serverSettings) = perMin.
Proof. destruct Hl as [->| ->], p; (eexists; split; [vm_compute; reflexivity|split; vm_compute; reflexivity]). Qed.

Lemma balance_range clock o now : walletOk clock o → clock ≤ now → 0 ≤ balance o now ≤ top.
Proof.
  intros Ho Hn. pose proof bounds_nonneg as [? ?]. unfold balance. destruct o as [e|]; [|lia].
  destruct (Ho e eq_refl) as [? ?]. destruct (decide (lastSeen e < now)); [|lia].
  pose proof (refills_nonneg (now - lastSeen e) ltac:(lia)). lia.
Qed.

(** A window begins with nothing accepted. *)
Lemma underBound_start o : walletOk from o → underBound from 0 o.
Proof.
  intros Ho now Hn. pose proof (balance_range from o now Ho Hn). pose proof bounds_nonneg as [? ?].
  pose proof (refills_nonneg (now - from) ltac:(lia)). lia.
Qed.

(** A request takes its cost from the balance of its moment, or nothing. *)
Lemma underBound_spend clock now sp o cost :
  from ≤ clock ≤ now → walletOk clock o → underBound clock sp o → 0 ≤ cost ≤ balance o now →
  let o' := Some (mkEntry now (balance o now - cost)) in
  walletOk now o' ∧ underBound now (sp + cost) o'.
Proof.
  intros Hn Ho Hu Hc o'. pose proof (balance_range clock o now Ho ltac:(lia)) as Hr.
  split; [intros e [= <-]; simpl; lia|]. intros now' Hn'. unfold o', balance at 1. simpl.
  specialize (Hu now ltac:(lia)). pose proof bounds_nonneg as [? ?].
  pose proof (minutes_add (now - from) (now' - now) ltac:(lia) ltac:(lia)) as Hm.
  replace (now - from + (now' - now)) with (now' - from) in Hm by lia.
  apply (Z.mul_le_mono_nonneg_l _ _ perMin) in Hm; [|done]. rewrite Z.mul_add_distr_l in Hm.
  pose proof (refills_nonneg (now' - now) ltac:(lia)). destruct (decide (now < now')); lia.
Qed.

(** *** The limiter's answers *)

Lemma later_ok clock now sp o :
  clock ≤ now → walletOk clock o → underBound clock sp o → walletOk now o ∧ underBound now sp o.
Proof.
  intros Hn Ho Hu. split; [|intros now' ?; apply Hu; lia].
  intros e He. destruct (Ho e He). split; [lia|done].
Qed.

Lemma found_balance l clock o now :
  u16 (MaxTokens l * multiplierOf limitType p serverSettings) = top →
  u16 (RatePerMinute l * multiplierOf limitType p serverSettings) = perMin →
  walletOk clock o → clock ≤ now →
  found l now (multiplierOf limitType p serverSettings) o = mkEntry now (balance o now).
Proof.
  intros Et Er Ho Hn. pose proof bounds_nonneg as [Hb _]. unfold MAX_UINT_16 in Hb.
  destruct o as [e|]; simpl; [|by rewrite Et]. destruct (Ho e eq_refl) as [Hs Ht].
  rewrite Refill_spec by (unfold is_u16; lia). rewrite Et, Er.
  destruct (decide (lastSeen e < now)); [done|]. destruct e as [seen tok]. simpl in *. f_equal. lia.
Qed.

Lemma walletSpend_own clock now cost sp ws :
  from ≤ clock ≤ now → 0 ≤ cost ≤ MAX_UINT_16 →
  walletOk clock (ws !! bucket) → underBound clock sp (ws !! bucket) →
  ∃ r ws', walletSpend serverSettings limitType bucket cost p now ws = Some (r, ws') ∧
    walletOk now (ws' !! bucket) ∧
    underBound now (sp + match r with Ok _ => cost | Err _ => 0 end) (ws' !! bucket).
Proof.
  intros Hn Hc Ho Hu. destruct limit_server as (l & El & Et & Er). unfold walletSpend. rewrite El. simpl.
  rewrite (found_balance l clock) by (done || lia).
  pose proof (balance_range clock (ws !! bucket) now Ho ltac:(lia)) as Hr.
  pose proof bounds_nonneg as [Hb _]. unfold MAX_UINT_16 in *. unfold spendEntry. simpl.
  destruct (decide (balance (ws !! bucket) now < cost)) as [Hlt|Hlt];
    [rewrite bool_decide_true by done|rewrite bool_decide_false by done];
    do 2 eexists; (split; [reflexivity|]); rewrite lookup_insert_eq.
  - pose proof (underBound_spend clock now sp _ 0 Hn Ho Hu ltac:(lia)) as H. by rewrite Z.sub_0_r in H.
  - rewrite u16_small by lia. apply (underBound_spend clock now sp _ cost Hn Ho Hu). lia.
Qed.

Lemma applyLimits_window clock now ctx req rl ws sp :
  from ≤ clock ≤ now → countable (Served now ctx req) →
  simulates exp clock rl ws → settings rl = serverSettings →
  walletOk clock (ws !! bucket) → underBound clock sp (ws !! bucket) →
  ∃ r rl' ws', applyLimits permissions now ctx req rl = Some (r, rl') ∧
    simulates exp now rl' ws' ∧ settings rl' = serverSettings ∧ walletOk now (ws' !! bucket) ∧
    underBound now (sp + unitsOf ip limitType (ctx, req, r)) (ws' !! bucket).
Proof.
  intros Hn Hc S Es Ho Hu. simpl in Hc. destruct (later_ok clock now sp _ ltac:(lia) Ho Hu) as [Ho' Hu'].
  assert (S' : simulates exp now rl ws) by (by apply (simulates_clock exp clock); [lia|]).
  unfold applyLimits. destruct (decide (GetPermission permissions (requestIP ctx) = Denied)) as [Ed|Ed];
    [rewrite bool_decide_true by done|rewrite bool_decide_false by done].
  { exists (Err (Status PermissionDenied "request blocked")), rl, ws. simpl. by rewrite Z.add_0_r. }
  destruct (decide (GetPermission permissions (requestIP ctx) = AllowAll)) as [Ea|Ea];
    [rewrite bool_decide_true by done|rewrite bool_decide_false by done].
  { exists (Ok ()), rl, ws. simpl. rewrite decide_False by (intros [E _]; by rewrite E in Ea).
    by rewrite Z.add_0_r. }
  unfold spendRequest. pose proof (costOf_limited req) as Hlr. unfold unitsOf.
  destruct (costOf req) as [cost lt]. simpl in Hc, Hlr |- *.
  set (p' := bool_decide (GetPermission permissions (requestIP ctx) = Priority)).
  set (b' := bucketName p' (requestIP ctx) lt).
  rewrite u16_small by (unfold MAX_UINT_16 in Hc; lia).
  pose proof (Spend_simulates exp clock rl ws lt b' cost p' now S ltac:(by vm_compute) ltac:(lia)) as H.
  rewrite Es in H. specialize (H (server_refills _)).
  destruct (decide (requestIP ctx = ip ∧ lt = limitType)) as [[Ei ->]|Hne].
  - assert (Ep : p' = p) by (unfold p'; by rewrite Ei). unfold b' in *. rewrite Ep, Ei in *.
    destruct (walletSpend_own clock now cost sp ws Hn Hc Ho Hu) as (r & ws' & Ew & H1 & H2).
    rewrite Ew in H. destruct (Spend _ _ _ _ _ _) as [[r' rl']|]; [|done].
    destruct H as (-> & H3 & H4). do 2 eexists. exists ws'. simpl. split; [done|]. split; [done|].
    split; [congruence|]. split; [done|]. by destruct r.
  - destruct (getLimit_limited lt Hlr) as [l El]. unfold walletSpend in H. rewrite El in H. simpl in H.
    destruct (spendEntry _ _) as [r e]. destruct (Spend _ _ _ _ _ _) as [[r' rl']|]; [|done].
    destruct H as (-> & H3 & H4). do 2 eexists. exists (<[b':=e]> ws). simpl. split; [done|].
    split; [done|]. split; [congruence|].
    rewrite lookup_insert_ne by (intros (_ & ? & ?)%bucketName_inj; [tauto|done..]).
    split; [done|]. replace (sp + _) with sp by (destruct r; lia). done.
Qed.

Lemma limitRun_window evs until clock rl ws sp :
  StronglySorted Z.le (clock :: (timeOf <$> evs) ++ [until]) → Forall countable evs → from ≤ clock →
  simulates exp clock rl ws → settings rl = serverSettings →
  walletOk clock (ws !! bucket) → underBound clock sp (ws !! bucket) →
  ∃ rs rl' ws', limitRun permissions evs rl = Some (rs, rl') ∧ simulates exp until rl' ws' ∧
    settings rl' = serverSettings ∧ walletOk until (ws' !! bucket) ∧
    sp + acceptedFrom ip limitType rs ≤ top + perMin * ((until - from) / Minute).
Proof.
  revert clock rl ws sp. induction evs as [|ev evs IH]; intros clock rl ws sp Hs Hc Hf S Es Ho Hu.
  { apply StronglySorted_cons in Hs as [[Hle _]%Forall_cons _].
    exists [], rl, ws. split; [done|]. split; [by apply (simulates_clock exp clock)|]. split; [done|].
    destruct (later_ok clock until sp _ Hle Ho Hu) as [Ho' Hu']. split; [done|]. simpl.
    specialize (Hu' until ltac:(lia)). pose proof (balance_range until _ until Ho' ltac:(lia)). lia. }
  rewrite fmap_cons in Hs. apply StronglySorted_cons in Hs as [[Hle _]%Forall_cons Hs].
  apply Forall_cons in Hc as [Hc1 Hc]. destruct ev as [now ctx req|now]; simpl in Hle, Hs |- *.
  - destruct (applyLimits_window clock now ctx req rl ws sp) as (r & rl1 & ws1 & -> & S1 & E1 & O1 & U1);
      [lia|done..|]. simpl.
    destruct (IH now rl1 ws1 _ Hs Hc ltac:(lia) S1 E1 O1 U1) as (rs & rl2 & ws2 & -> & S2 & E2 & O2 & HB).
    do 3 eexists. split; [done|]. split; [done|]. split; [done|]. split; [done|]. simpl in *. lia.
  - destruct (later_ok clock now sp _ Hle Ho Hu) as [O1 U1]. apply (IH now _ ws); try done; [lia| |].
    + by apply (sweep_simulates exp clock).
    + destruct (sweep_forgets now exp rl (sim_wf _ _ _ _ S)) as (_ & -> & _). done.
Qed.
End Window.

(** C17. The limits the server advertises hold for every client, in every window of time: of the
    requests that come from an address between two moments, one after the other, the accepted ones
    carry at most the burst (3000 messages to publish, or 20000 other units) plus the rate (600 and
    4000) per whole minute of the window, times 4 and 2 when the address has priority. This counts
    the messages themselves, over all lives of the client's bucket in the limiter, which the
    janitor may have deleted in between. It takes batches of at most 65535, which is what the
    limiter's 16 bits can count, and an address that is not exempt. *)
Theorem client_rate_limited permissions before during from until ip limitType :
  limited limitType → GetPermission permissions ip ≠ AllowAll →
  StronglySorted Z.le ((timeOf <$> before) ++ from :: (timeOf <$> during) ++ [until]) →
  Forall countable (before ++ during) →
  let isPriority := bool_decide (GetPermission permissions ip = Priority) in
  ∃ rs0 rl rs rl', limitRun permissions before NewTokenBucketRateLimiter = Some (rs0, rl) ∧
    limitRun permissions during rl = Some (rs, rl') ∧
    acceptedFrom ip limitType rs
      ≤ burst isPriority limitType + perMinute isPriority limitType * ((until - from) / Minute).
Proof.
  intros Hl Ha Hs [Hc1 Hc2]%Forall_app isPriority.
  set (c0 := match before with [] => from | ev :: _ => timeOf ev end).
  assert (S0 : simulates RATE_LIMITER_EXPIRES_AFTER c0 NewTokenBucketRateLimiter ∅).
  { split; [apply (inv_init serverSettings bucketKind 0)|done|]. intros b. by left. }
  assert (Hs1 : StronglySorted Z.le (c0 :: (timeOf <$> before) ++ [from]) ∧
    StronglySorted Z.le (from :: (timeOf <$> during) ++ [until])).
  { apply StronglySorted_app in Hs as (Hx & H1 & H2). split; [|done].
    assert (H3 : StronglySorted Z.le ((timeOf <$> before) ++ [from])).
    { apply StronglySorted_app. split; [|split; [done|by repeat constructor]].
      intros x y Hin ->%list_elem_of_singleton. apply Hx; [done|left]. }
    constructor; [done|]. unfold c0. destruct before as [|ev before]; [by repeat constructor|].
    rewrite fmap_cons in H3 |- *. apply StronglySorted_cons in H3 as [H3 _]. by constructor. }
  destruct Hs1 as [Hs1 Hs2].
  destruct (limitRun_window permissions ip limitType Hl Ha c0 before from c0 _ ∅ 0 Hs1 Hc1 ltac:(lia) S0 eq_refl)
    as (rs0 & rl & ws & E0 & S1 & Es1 & O1 & _).
  { by intros e. }
  { by apply underBound_start. }
  destruct (limitRun_window permissions ip limitType Hl Ha from during until from rl ws 0 Hs2 Hc2 ltac:(lia) S1 Es1 O1)
    as (rs & rl' & _ & E1 & _ & _ & _ & HB).
  { by apply underBound_start. }
  exists rs0, rl, rs, rl'. split; [done|]. split; [done|]. exact HB.
Qed.

(** ** Isolation *)

(** A sequence of limited requests, each with its time; the answers with the address each went
    to. [None] when one panics. *)
Fixpoint limitAll (permissions : permissionMap) (reqs : list (Z * Ctx * AnyRequest)) (rl : Limiter)
    : option (list (string * result ())) :=
  match reqs with
  | [] => Some []
  | (now, ctx, req) :: reqs =>
      '(r, rl) ← applyLimits permissions now ctx req rl;
      rs ← limitAll permissions reqs rl; Some ((requestIP ctx, r) :: rs)
  end.

(** Two limiters that look the same to one client. *)
Record alike (ip : string) (rl1 rl2 : Limiter) : Prop := {
  alike_wf1 : wf_limiter rl1;
  alike_wf2 : wf_limiter rl2;
  alike_settings1 : settings rl1 = serverSettings;
  alike_settings2 : settings rl2 = serverSettings;
  alike_entry : ∀ isPriority limitType, limited limitType →
    entryOf rl1 (bucketName isPriority ip limitType)
    = entryOf rl2 (bucketName isPriority ip limitType);
}.

(** A Spend of the server's limiter never panics, and touches the bucket it names only. *)
Lemma Spend_total rl limitType b cost isPriority now :
  wf_limiter rl → settings rl = serverSettings → limited limitType →
  ∃ r rl' e, Spend limitType b cost isPriority now rl = Some (r, rl') ∧ wf_limiter rl' ∧
    settings rl' = serverSettings ∧
    (∀ b', entryOf rl' b' = if decide (b' = b) then Some e else entryOf rl b') ∧
    ∀ rl2, wf_limiter rl2 → settings rl2 = serverSettings → entryOf rl2 b = entryOf rl b →
      ∃ rl2', Spend limitType b cost isPriority now rl2 = Some (r, rl2') ∧ wf_limiter rl2' ∧
        settings rl2' = serverSettings ∧
        (∀ b', entryOf rl2' b' = if decide (b' = b) then Some e else entryOf rl2 b').
Proof.
  intros W Es Hl. destruct (getLimit_limited limitType Hl) as [l El].
  pose proof (Spend_spec rl limitType b cost isPriority now W) as H. rewrite Es, El in H.
  destruct (spendEntry cost _) as [r e] eqn:Ee. destruct H as (rl' & H & W' & Es' & Hv).
  exists r, rl', e. split_and!; [done..|]. intros rl2 W2 Es2 E2.
  pose proof (Spend_spec rl2 limitType b cost isPriority now W2) as H2.
  rewrite Es2, El, E2, Ee in H2. exact H2.
Qed.

Lemma applyLimits_other permissions now ctx req rl1 rl2 ip :
  alike ip rl1 rl2 → requestIP ctx ≠ ip →
  ∃ r rl1', applyLimits permissions now ctx req rl1 = Some (r, rl1') ∧ alike ip rl1' rl2.
Proof.
  intros [W1 W2 S1 S2 E] Hne. unfold applyLimits.
  case_bool_decide; [by do 2 eexists|]. case_bool_decide; [by do 2 eexists|].
  unfold spendRequest. pose proof (costOf_limited req) as Hl.
  destruct (costOf req) as [cost limitType]. cbn [rq_limitType rq_bucket rq_cost rq_isPriority].
  set (p := bool_decide _) in *.
  destruct (Spend_total rl1 limitType (bucketName p (requestIP ctx) limitType) (u16 cost) p now
    W1 S1 Hl) as (r & rl1' & e & -> & W1' & S1' & Hv & _). simpl.
  do 2 eexists. split; [done|]. split; [done..|]. intros p' lt' Hl'.
  rewrite Hv, decide_False by (by intros (_ & ? & _)%bucketName_inj). by apply E.
Qed.

Lemma applyLimits_own permissions now ctx req rl1 rl2 :
  alike (requestIP ctx) rl1 rl2 →
  ∃ r rl1' rl2', applyLimits permissions now ctx req rl1 = Some (r, rl1') ∧
    applyLimits permissions now ctx req rl2 = Some (r, rl2') ∧ alike (requestIP ctx) rl1' rl2'.
Proof.
  intros A. destruct A as [W1 W2 S1 S2 E] eqn:EA. unfold applyLimits.
  case_bool_decide; [by do 3 eexists|]. case_bool_decide; [by do 3 eexists|].
  unfold spendRequest. pose proof (costOf_limited req) as Hl.
  destruct (costOf req) as [cost limitType]. cbn [rq_limitType rq_bucket rq_cost rq_isPriority].
  set (p := bool_decide _) in *.
  destruct (Spend_total rl1 limitType (bucketName p (requestIP ctx) limitType) (u16 cost) p now
    W1 S1 Hl) as (r & rl1' & e & -> & W1' & S1' & Hv1 & H2).
  destruct (H2 rl2 W2 S2 ltac:(symmetry; by apply E)) as (rl2' & -> & W2' & S2' & Hv2). simpl.
  do 3 eexists. split; [done|]. split; [done|]. split; [done..|]. intros p' lt' Hl'.
  rewrite Hv1, Hv2. case_decide; [done|]. by apply E.
Qed.

(** C18. Clients do not share a budget: whatever the other clients send, a client gets the answers
    it would get alone. (The other requests may change the state of the limiter, but no entry of
    this client's buckets.) No request panics. *)
Theorem client_isolation permissions ip reqs rl :
  wf_limiter rl → settings rl = serverSettings →
  ∃ rs, limitAll permissions reqs rl = Some rs ∧
    limitAll permissions (filter (λ '(_, ctx, _), requestIP ctx = ip) reqs) rl
      = Some (filter (λ '(ip', _), ip' = ip) rs).
Proof.
  intros W Es. assert (A : alike ip rl rl) by done. clear W Es. revert A.
  generalize rl at 1 3. revert rl. induction reqs as [|[[now ctx] req] reqs IH]; intros rl2 rl1 A.
  { by exists []. }
  rewrite filter_cons. cbn [limitAll]. case_decide as Eip.
  - subst ip. destruct (applyLimits_own permissions now ctx req rl1 rl2 A)
      as (r & rl1' & rl2' & -> & E2 & A'). destruct (IH rl2' rl1' A') as (rs & E1 & E3).
    exists ((requestIP ctx, r) :: rs). simpl. rewrite E1. split; [done|].
    rewrite E2. simpl. rewrite E3. simpl. by rewrite filter_cons, decide_True.
  - destruct (applyLimits_other permissions now ctx req rl1 rl2 ip A Eip) as (r & rl1' & -> & A').
    destruct (IH rl2 rl1' A') as (rs & E1 & E3). exists ((requestIP ctx, r) :: rs).
    simpl. rewrite E1. split; [done|]. rewrite E3. by rewrite filter_cons, decide_False.
Qed.

(** ** The width of a cost *)

(** The cost of a request is the low 16 bits of its batch's length. So a batch of a multiple of
    65536 messages is free: a client that is not denied gets it accepted whatever its balance, and
    (counting from its last request) pays nothing for it. *)
Theorem batch_cost_wraps permissions now ctx k rl :
  wf_limiter rl → settings rl = serverSettings →
  (∀ b e, entryOf rl b = Some e → is_u16 (tokens e)) →
  GetPermission permissions (requestIP ctx) ≠ Denied →
  (∀ isPriority ip n, rq_cost (spendRequest isPriority ip (SendGroupMessagesRequest n))
                      = n mod 65536) ∧
  ∃ rl', applyLimits permissions now ctx (SendGroupMessagesRequest (k * 65536)) rl
           = Some (Ok (), rl') ∧
    ∀ b e, entryOf rl b = Some e → lastSeen e = now → entryOf rl' b = Some e.
Proof.
  intros W Es Ht Hd. split; [done|]. unfold applyLimits. rewrite bool_decide_eq_false_2 by done.
  case_bool_decide; [by exists rl|]. unfold spendRequest.
  cbn [costOf rq_limitType rq_bucket rq_cost rq_isPriority]. set (p := bool_decide _).
  assert (Ec : u16 (k * 65536) = 0) by (unfold u16, wrapU; apply Z.mod_mul; lia). rewrite Ec.
  set (b := bucketName p (requestIP ctx) PUBLISH).
  pose proof (Spend_spec rl PUBLISH b 0 p now W) as Hs. rewrite Es in Hs.
  change (getLimit PUBLISH serverSettings)
    with (Some (mkLimit PUBLISH_MAX_TOKENS PUBLISH_RATE_PER_MINUTE)) in Hs.
  set (l := mkLimit PUBLISH_MAX_TOKENS PUBLISH_RATE_PER_MINUTE) in *.
  set (m := multiplierOf PUBLISH p serverSettings) in *. cbv beta iota in Hs.
  pose proof (found_tokens l now m (entryOf rl b) (Ht b)) as H0. unfold is_u16 in H0.
  unfold spendEntry in Hs. rewrite bool_decide_eq_false_2 in Hs by lia.
  rewrite Z.sub_0_r, u16_small in Hs by done. destruct Hs as (rl' & -> & _ & _ & Hv).
  exists rl'. split; [done|]. intros b' e Ee En. rewrite Hv. case_decide; [subst b'|done].
  rewrite Ee. simpl. rewrite Refill_spec by (by apply (Ht b)).
  rewrite decide_False by lia. by destruct e.
Qed.

(** * The allow list *)

Lemma foldl_permissions (ips : list IPAddress) (m : permissionMap) ip :
  foldl (λ m r, <[ip_IPAddress r := permissionFromString (ip_Permission r)]> m) m ips !! ip
  = match last (filter (λ r, ip_IPAddress r = ip) ips) with
    | Some r => Some (permissionFromString (ip_Permission r))
    | None => m !! ip
    end.
Proof.
  revert m. induction ips as [|r ips IH] using rev_ind; intros m; [done|].
  rewrite foldl_app, filter_app, filter_cons, filter_nil. simpl. case_decide as E.
  - subst ip. by rewrite lookup_insert_eq, last_snoc.
  - by rewrite lookup_insert_ne, app_nil_r by done.
Qed.

(** What the interceptor reads after a refresh: the permission of the address's last row that is
    not deleted, whatever was loaded before; a failed refresh changes nothing. *)
Lemma refreshed_permission dbErr table permissions ip :
  GetPermission (refreshPermissions dbErr table permissions) ip
  = match dbErr with
    | Some _ => GetPermission permissions ip
    | None =>
        match last (filter (λ r, ip_IPAddress r = ip) (filter (λ r, ip_DeletedAt r = None) table)) with
        | Some r => permissionFromString (ip_Permission r)
        | None => Unspecified
        end
    end.
Proof.
  unfold GetPermission, refreshPermissions, loadPermissions. destruct dbErr; [done|].
  cbn [snd]. rewrite foldl_permissions. by destruct (last _).
Qed.

Lemma permission_roundtrip p : permissionFromString (Permission_String p) = p.
Proof. by destruct p. Qed.

(** * Concrete inputs *)

(** The address of a direct IPv6 client is cut at its first colon: all clients whose addresses
    start with the same group share one bucket. *)
Example ipv6_address :
  requestIP (mkCtx (Some ∅) (Some "[2001:db8::1]:443")) = "[2001" ∧
  requestIP (mkCtx (Some ∅) (Some "10.0.0.1:443")) = "10.0.0.1" ∧
  requestIP (mkCtx (Some {[ "x-forwarded-for" := [" 10.1.1.1 , 10.2.2.2"] ]}) None) = "10.1.1.1" ∧
  requestIP (mkCtx None None) = "ip_unknown".
Proof. vm_compute. done. Qed.

Definition client (ip : string) : Ctx := mkCtx (Some {[ "x-forwarded-for" := [ip] ]}) None.

Lemma initial_wf now : wf_limiter (lim (initSys serverSettings now)).
Proof. apply (inv_init serverSettings bucketKind now). Qed.

Lemma client_isolation_witness :
  let reqs := [(1, client "a", SendGroupMessagesRequest 3000); (2, client "b", OtherRequest);
               (3, client "b", SendGroupMessagesRequest 3000);
               (4, client "a", SendGroupMessagesRequest 1)] in
  ∃ rs, limitAll ∅ reqs NewTokenBucketRateLimiter = Some rs ∧
    limitAll ∅ (filter (λ '(_, ctx, _), requestIP ctx = "a") reqs) NewTokenBucketRateLimiter
      = Some (filter (λ '(ip', _), ip' = "a") rs) ∧
    filter (λ '(ip', _), ip' = "a") rs
      = [("a", Ok ()); ("a", Err (Status ResourceExhausted "%d exceeds rate limit %s"))].
Proof.
  intros reqs. destruct (client_isolation ∅ "a" reqs NewTokenBucketRateLimiter (initial_wf 0) eq_refl)
    as (rs & E1 & E2).
  exists rs. split; [done|]. split; [done|].
  assert (E : limitAll ∅ (filter (λ '(_, ctx, _), requestIP ctx = "a") reqs) NewTokenBucketRateLimiter
    = Some [("a", Ok ()); ("a", Err (Status ResourceExhausted "%d exceeds rate limit %s"))])
    by (vm_compute; reflexivity).
  rewrite E2 in E. by injection E.
Defined.

(** The client has used up its balance, then sends 65536 messages. *)
Lemma batch_cost_wraps_witness :
  let rl := mkLimiter {[ 0%nat := mkEntry 5 0 ]} 1 {[ "RaPUB" := 0%nat ]} ∅ serverSettings in
  ∃ rl', applyLimits ∅ 5 (client "a") (SendGroupMessagesRequest (1 * 65536)) rl
           = Some (Ok (), rl') ∧
    applyLimits ∅ 5 (client "a") (SendGroupMessagesRequest 1) rl
      = Some (Err (Status ResourceExhausted "%d exceeds rate limit %s"), rl) ∧
    entryOf rl' "RaPUB" = Some (mkEntry 5 0).
Proof.
  intros rl.
  assert (Hown : ∀ b k, owns rl b k → b = "RaPUB" ∧ k = 0%nat).
  { intros b k [Hb|Hb]; simpl in Hb; [by rewrite lookup_empty in Hb|].
    by apply lookup_singleton_Some in Hb as [<- <-]. }
  assert (W : wf_limiter rl).
  { split.
    - by intros b b' k [-> _]%Hown [-> _]%Hown.
    - intros b k Hb. simpl in Hb. by rewrite lookup_empty in Hb.
    - intros b k [-> ->]%Hown. split; [by eexists|]. simpl. lia. }
  destruct (batch_cost_wraps ∅ 5 (client "a") 1 rl W eq_refl) as (_ & rl' & E1 & E2).
  - intros b e Ee. unfold entryOf in Ee. destruct (pointerOf rl b) as [k|] eqn:Ek; [|done].
    apply pointerOf_owns, Hown in Ek as [-> ->]; [|done]. by injection Ee as <-.
  - done.
  - exists rl'. split; [exact E1|]. split; [vm_compute; reflexivity|].
    by apply (E2 "RaPUB" (mkEntry 5 0)).
Defined.

(** The publishes of a regular client racing with those of a priority client. *)
Definition clientRacers : list label :=
  [LSpend 0 (spendRequest false "a" (SendGroupMessagesRequest 2000));
   LSpend 1 (spendRequest true "a" (SendGroupMessagesRequest 12000));
   LSpend 2 (spendRequest false "a" UploadKeyPackageRequest);
   LThread 0; LThread 1; LThread 0; LThread 2; LThread 1; LThread 2; LThread 0; LThread 2;
   LTick (2 * Minute); LThread 2; LThread 1; LThread 2].

Lemma entry_rate_limited_witness :
  ∃ s, exec RATE_LIMITER_EXPIRES_AFTER clientRacers (initSys serverSettings 0) = Some s ∧
    0 ≤ 2001 ≤ burst false PUBLISH + perMinute false PUBLISH * ((clock s - 0) / Minute).
Proof.
  destruct (exec RATE_LIMITER_EXPIRES_AFTER clientRacers (initSys serverSettings 0)) as [s|] eqn:E;
    [|vm_compute in E; discriminate E].
  exists s. split; [reflexivity|].
  apply (entry_rate_limited RATE_LIMITER_EXPIRES_AFTER 0 clientRacers s 0 false "a" PUBLISH 0 2001).
  - unfold clientRacers. repeat (apply List.Forall_cons; [simpl; eauto|]). apply List.Forall_nil.
  - by right.
  - exact E.
  - vm_compute in E. injection E as <-. vm_compute. reflexivity.
  - vm_compute in E. injection E as <-. vm_compute. reflexivity.
Defined.

(** A client that spends its burst, comes back after its bucket was deleted, and is refused until it
    has waited; another client in between. *)
Definition clientBefore : list limiterEvent :=
  [Served 1 (client "a") (SendGroupMessagesRequest 3000); Swept (61 * Minute); Swept (62 * Minute)].
Definition clientDuring : list limiterEvent :=
  [Served (63 * Minute) (client "a") (SendGroupMessagesRequest 2999);
   Served (63 * Minute) (client "b") (SendGroupMessagesRequest 5);
   Served (63 * Minute) (client "a") (SendWelcomeMessagesRequest 2);
   Served (64 * Minute) (client "a") (SendWelcomeMessagesRequest 601)].

Lemma client_rate_limited_witness :
  ∃ rs0 rl rs rl', limitRun ∅ clientBefore NewTokenBucketRateLimiter = Some (rs0, rl) ∧
    limitRun ∅ clientDuring rl = Some (rs, rl') ∧ acceptedFrom "a" PUBLISH rs = 3600 ∧
    acceptedFrom "a" PUBLISH rs ≤ 3000 + 600 * ((64 * Minute - 63 * Minute) / Minute).
Proof.
  destruct (client_rate_limited ∅ clientBefore clientDuring (63 * Minute) (64 * Minute) "a" PUBLISH)
    as (rs0 & rl & rs & rl' & E0 & E1 & H).
  - by right.
  - vm_compute. discriminate.
  - vm_compute. repeat first [apply SSorted_cons | apply SSorted_nil | apply List.Forall_cons
      | apply List.Forall_nil | discriminate].
  - unfold clientBefore, clientDuring, MAX_UINT_16. simpl.
    repeat apply List.Forall_cons; try apply List.Forall_nil; simpl; unfold MAX_UINT_16; try exact I; lia.
  - exists rs0, rl, rs, rl'. split; [exact E0|]. split; [exact E1|]. split; [|exact H].
    vm_compute in E0. injection E0 as <- <-. vm_compute in E1. injection E1 as <- <-. vm_compute. reflexivity.
Defined.
