(* ===== verification/Validate.v ===== *)
(** The client of the MLS validation service (pkg/mlsvalidate/service.go): the requests it makes
    and how it reads the answers. The validation service itself is a gRPC service outside this
    repository: a parameter of the definitions that call it. *)

From S2P Require Import Prelude.

(** The service's answers, one per item of a request. *)
Record ValidateKeyPackagesResponse := mkValidateKeyPackagesResponse {
  vk_IsOk : bool;
  vk_ErrorMessage : string;
  vk_InstallationPublicKey : bytes;
  vk_Expiration : Z;
}.

Record ValidateGroupMessagesResponse := mkValidateGroupMessagesResponse {
  vg_IsOk : bool;
  vg_ErrorMessage : string;
  vg_GroupId : string;
  vg_IsCommit : bool;
}.

Record InboxIdValidationResult := mkInboxIdValidationResult {
  InstallationKey : bytes;
  Expiration : Z;
}.

Record GroupMessageValidationResult := mkGroupMessageValidationResult {
  GroupId : string;
  IsCommit : bool;
}.

(** The messages of a SendGroupMessagesRequest: [None] is a nil pointer, [gi_V1 = None] a message
    without a known version. *)
Record GroupMessageInput_V1 := mkGroupMessageInput_V1 {
  gi_Data : bytes;
  gi_SenderHmac : bytes;
  gi_ShouldPush : bool;
}.
Record GroupMessageInput := mkGroupMessageInput { gi_V1 : option GroupMessageInput_V1 }.

(** [m.GetV1()] on a possibly nil message. *)
Definition GetV1 (m : option GroupMessageInput) : option GroupMessageInput_V1 := m ≫= gi_V1.

Definition validationFailed : error := Plain "validation failed with error %s".

Section Client.
Context (grpcValidateKeyPackages : list (bytes * bool) → result (list ValidateKeyPackagesResponse))
  (grpcValidateGroupMessages : list bytes → result (list ValidateGroupMessagesResponse)).

Definition makeValidateKeyPackageRequest (keyPackageBytes : list bytes)
    (isInboxIdCredential : bool) : list (bytes * bool) :=
  (λ kp, (kp, isInboxIdCredential)) <$> keyPackageBytes.

Definition ValidateInboxIdKeyPackages (keyPackages : list bytes)
    : result (list InboxIdValidationResult) :=
  responses ← grpcValidateKeyPackages (makeValidateKeyPackageRequest keyPackages true);
  mapErr (λ r, if vk_IsOk r
               then Ok (mkInboxIdValidationResult (vk_InstallationPublicKey r) (vk_Expiration r))
               else Err validationFailed) responses.

Definition groupMessageResults (responses : list ValidateGroupMessagesResponse)
    : result (list GroupMessageValidationResult) :=
  mapErr (λ r, if vg_IsOk r then Ok (mkGroupMessageValidationResult (vg_GroupId r) (vg_IsCommit r))
               else Err validationFailed) responses.

(** The data of each message; a message without V1 is a nil dereference. *)
Definition makeValidateGroupMessagesRequest (groupMessages : list (option GroupMessageInput))
    : option (list bytes) :=
  mapM (λ m, gi_Data <$> GetV1 m) groupMessages.

Definition ValidateGroupMessages (groupMessages : list (option GroupMessageInput))
    : option (result (list GroupMessageValidationResult)) :=
  req ← makeValidateGroupMessagesRequest groupMessages;
  Some (responses ← grpcValidateGroupMessages req; groupMessageResults responses).

Definition ValidateGroupMessagePayloads (groupMessagePayloads : list bytes)
    : result (list GroupMessageValidationResult) :=
  responses ← grpcValidateGroupMessages groupMessagePayloads; groupMessageResults responses.

Lemma groupMessageResults_length rs out :
  groupMessageResults rs = Ok out → length out = length rs.
Proof. intros H%mapErr_Ok. symmetry. by apply Forall2_length in H. Qed.

Lemma request_of_inputs (inputs : list GroupMessageInput_V1) :
  makeValidateGroupMessagesRequest ((λ v, Some (mkGroupMessageInput (Some v))) <$> inputs)
  = Some (gi_Data <$> inputs).
Proof.
  unfold makeValidateGroupMessagesRequest. induction inputs as [|v l IH]; [done|].
  cbn. by rewrite IH.
Qed.

(** The two ways to validate group messages agree. *)
Lemma validate_payloads_agree (inputs : list GroupMessageInput_V1) :
  ValidateGroupMessages ((λ v, Some (mkGroupMessageInput (Some v))) <$> inputs)
  = Some (ValidateGroupMessagePayloads (gi_Data <$> inputs)).
Proof. unfold ValidateGroupMessages. by rewrite request_of_inputs. Qed.
End Client.
