(* ===== verification/Service.v ===== *)
(** The unary handlers of the MLS API (pkg/mls/api/v1/service.go): validation of requests, calls of
    the validation service and the stores, and the errors each step answers. The older streaming
    handlers are in Streams.v, Subscribe in Writer.v, the identity API in Identity.v. *)

From S2P Require Import Prelude Topic Types Validate MlsDb ReadStore Store Interceptor.

(** * Handlers

    A handler reads and changes the database, answers a result, or panics ([None]). *)

Definition handler (A : Type) : Type := Db → option (result A * Db).

#[export] Instance handler_ret : MRet handler := λ A a d, Some (Ok a, d).
#[export] Instance handler_bind : MBind handler := λ A B f m d,
  match m d with
  | Some (Ok a, d) => f a d
  | Some (Err e, d) => Some (Err e, d)
  | None => None
  end.

Definition fails {A} (e : error) : handler A := λ d, Some (Err e, d).
Definition panics {A} : handler A := λ d, None.

(** A step that does not use the database, a statement, and a step whose error is replaced. *)
Definition pure {A} (r : result A) : handler A := λ d, Some (r, d).
Definition stmt {A} (f : Db → result A * Db) : handler A := λ d, Some (f d).
Definition reads {A} (f : Db → result A) : handler A := λ d, Some (f d, d).
Definition orElse {A} (m : handler A) (f : error → error) : handler A := λ d,
  match m d with
  | Some (Err e, d) => Some (Err (f e), d)
  | r => r
  end.

Definition maxBatchInserts : Z := 10.
Definition maxBatchQueries : Z := 20.

Definition invalid (msg : string) : error := Status InvalidArgument msg.
Definition publishDisabled : error := Status Unavailable
  "publishing to XMTP V3 is no longer available. Please upgrade your client to XMTP D14N.".

(** * Requests

    [None] stands for a nil pointer throughout. *)

Record KeyPackageUpload := mkKeyPackageUpload { KeyPackageTlsSerialized : bytes }.
(** RegisterInstallationRequest and UploadKeyPackageRequest have the same field. *)
Record KeyPackageRequest := mkKeyPackageRequest { kr_KeyPackage : option KeyPackageUpload }.

Record SendGroupMessagesReq := mkSendGroupMessages {
  sg_Messages : list (option GroupMessageInput);
}.

Record WelcomeInput_V1 := mkWelcomeInput_V1 {
  wi_InstallationKey : bytes;
  wi_Data : bytes;
  wi_HpkePublicKey : bytes;
  wi_WrapperAlgorithm : Z;
  wi_WelcomeMetadata : bytes;
}.
Record WelcomeInput_Pointer := mkWelcomeInput_Pointer {
  pi_InstallationKey : bytes;
  pi_WelcomePointer : bytes;
  pi_HpkePublicKey : bytes;
  pi_WrapperAlgorithm : Z;
}.
Inductive WelcomeMessageInput :=
  | WelcomeInputV1 (v : WelcomeInput_V1)
  | WelcomeInputPointer (p : WelcomeInput_Pointer)
  | WelcomeInputNone.

Record SendWelcomeMessagesReq := mkSendWelcomeMessages {
  sw_Messages : list (option WelcomeMessageInput);
}.

Section CommitLogRequests.
Context {Signature : Type}.

Record PublishCommitLogRequest := mkPublishCommitLogRequest {
  pc_GroupId : bytes;
  pc_SerializedCommitLogEntry : bytes;
  pc_Signature : option Signature;
}.
End CommitLogRequests.
Arguments PublishCommitLogRequest : clear implicits.

Record GetNewestGroupMessageReq := mkGetNewestGroupMessage {
  gn_GroupIds : list bytes;
  gn_IncludeContent : bool;
}.

(** * Request validation *)

Definition validateSendGroupMessagesRequest (req : option SendGroupMessagesReq) : result () :=
  match sg_Messages <$> req with
  | None | Some [] => Err (invalid "no group messages to send")
  | Some messages =>
      if bool_decide (Forall (λ input, GetV1 input ≠ None) messages) then Ok ()
      else Err (invalid "invalid group message")
  end.

Definition validateWelcomeInput (input : option WelcomeMessageInput) : result () :=
  match input with
  | None => Err (invalid "invalid welcome message")
  | Some (WelcomeInputV1 v) =>
      if bool_decide (len (wi_Data v) = 0 ∨ len (wi_InstallationKey v) = 0 ∨
           (len (wi_HpkePublicKey v) = 0 ∧ wi_WrapperAlgorithm v ≠ ProtoAlg.SYMMETRIC_KEY))
      then Err (invalid "invalid welcome message") else Ok ()
  | Some (WelcomeInputPointer p) =>
      if bool_decide (len (pi_InstallationKey p) = 0 ∨ len (pi_WelcomePointer p) = 0 ∨
           len (pi_HpkePublicKey p) = 0)
      then Err (invalid "invalid welcome pointer message")
      else match WelcomePointerWrapperAlgorithmFromProto (pi_WrapperAlgorithm p) with
           | Err _ => Err (invalid "invalid welcome pointer wrapper algorithm: %v")
           | Ok _ => Ok ()
           end
  | Some WelcomeInputNone => Err (invalid "invalid welcome message: missing version")
  end.

Definition validateSendWelcomeMessagesRequest (req : option SendWelcomeMessagesReq) : result () :=
  match sw_Messages <$> req with
  | None | Some [] => Err (invalid "no welcome messages to send")
  | Some messages => _ ← mapErr validateWelcomeInput messages; Ok ()
  end.

(** validateRegisterInstallationRequest and validateUploadKeyPackageRequest. *)
Definition validateKeyPackageRequest (req : option KeyPackageRequest) : result bytes :=
  match req ≫= kr_KeyPackage with
  | None => Err (invalid "no key package")
  | Some kp => Ok (KeyPackageTlsSerialized kp)
  end.

Definition validateBatchPublishCommitLogRequest {A} (req : option (list A)) : result (list A) :=
  match req with
  | None | Some [] => Err (invalid "no log entries to publish")
  | Some requests =>
      if bool_decide (maxBatchInserts < Z.of_nat (length requests))
      then Err (invalid "cannot exceed %d inserts in single batch") else Ok requests
  end.

Definition validateBatchQueryCommitLogRequest {A} (req : option (list A)) : result (list A) :=
  match req with
  | None | Some [] => Err (invalid "no requests to query")
  | Some requests =>
      if bool_decide (maxBatchQueries < Z.of_nat (length requests))
      then Err (invalid "cannot exceed %d queries in single batch") else Ok requests
  end.

Definition validateGetNewestGroupMessageRequest (req : option GetNewestGroupMessageReq)
    : result GetNewestGroupMessageReq :=
  match req with
  | None => Err (invalid "no group ids provided")
  | Some r => if bool_decide (gn_GroupIds r = []) then Err (invalid "no group ids provided")
              else Ok r
  end.

Definition requireReadyToSend (groupId : string) (message : bytes) : result () :=
  if bool_decide (len groupId = 0) then Err (invalid "group id is empty")
  else if bool_decide (len message = 0) then Err (invalid "message is empty")
  else Ok ().

(** * The MLS API *)

(** What the outside decides about one insert: whether its statement fails, and the time. *)
Record insertEnv := mkInsertEnv { ie_dbErr : option error; ie_now : Z }.

(** A statement that never reached the table does not report a duplicate key. *)
Definition honest (env : insertEnv) : Prop :=
  ∀ e, ie_dbErr env = Some e → IsAlreadyExistsError (insertError e) = false.

(** What it decides about a transaction. *)
Record txEnv := mkTxEnv {
  tx_beginErr : option error;
  tx_commitErr : option error;
  tx_dbErr : nat → option error;
  tx_now : Z;
}.

Section Service.
Context (sha256 : bytes → bytes)
  (grpcValidateKeyPackages : list (bytes * bool) → result (list ValidateKeyPackagesResponse))
  (grpcValidateGroupMessages : list bytes → result (list ValidateGroupMessagesResponse)).
(** The service's disablePublish flag and its cutover checker. *)
Context (disablePublish : bool) (cutoverChecker : option Z).

Definition isPublishDisabled (now : Z) : bool :=
  disablePublish || IsMigrationComplete now cutoverChecker.
Definition isStreamingDisabled (now : Z) : bool := IsMigrationComplete now cutoverChecker.

(** The first step of every publishing handler. *)
Definition gated {A} (now : Z) (h : handler A) : handler A :=
  if isPublishDisabled now then fails publishDisabled else h.

Definition storeInstallation (tx : txEnv) (installationKey keyPackage : bytes) : handler () :=
  stmt (Store_CreateOrUpdateInstallation (tx_beginErr tx) (tx_commitErr tx) (tx_dbErr tx)
    (tx_now tx) installationKey keyPackage).

Definition validateKeyPackage (keyPackage : bytes) : handler (list InboxIdValidationResult) :=
  orElse (pure (ValidateInboxIdKeyPackages grpcValidateKeyPackages [keyPackage]))
    (λ _, invalid "invalid identity: %s").

Definition RegisterInstallation (now : Z) (tx : txEnv) (req : option KeyPackageRequest)
    : handler bytes :=
  gated now (
    keyPackage ← pure (validateKeyPackageRequest req);
    results ← validateKeyPackage keyPackage;
    match results with
    | [result] =>
        _ ← storeInstallation tx (InstallationKey result) keyPackage;
        mret (InstallationKey result)
    | _ => fails (Status Internal "unexpected number of results: %d")
    end).

(** [validationResults[0]] panics when the service answered with no result. *)
Definition UploadKeyPackage (now : Z) (tx : txEnv) (req : option KeyPackageRequest) : handler () :=
  gated now (
    keyPackage ← pure (validateKeyPackageRequest req);
    results ← validateKeyPackage keyPackage;
    match results with
    | result :: _ =>
        orElse (storeInstallation tx (InstallationKey result) keyPackage)
          (λ _, Status Internal "failed to insert key packages: %s")
    | [] => panics
    end).

(** keyPackageMap: an installation named twice keeps its last index. *)
Definition keyPackageMap (ids : list bytes) : gmap bytes nat :=
  foldl (λ m '(idx, id), <[id := idx]> m) ∅ (zip (seq 0 (length ids)) ids).

Fixpoint placeKeyPackages (m : gmap bytes nat) (installations : list (bytes * bytes))
    (resPackages : list (option bytes)) : result (list (option bytes)) :=
  match installations with
  | [] => Ok resPackages
  | (id, keyPackage) :: installations =>
      match m !! id with
      | None => Err (Status Internal "could not find key package for installation")
      | Some idx => placeKeyPackages m installations (<[idx := Some keyPackage]> resPackages)
      end
  end.

Definition FetchKeyPackages (dbErr : option error) (ids : list bytes)
    : handler (list (option bytes)) :=
  installations ← orElse (reads (λ d, ReadStore_FetchKeyPackages dbErr ids d))
    (λ _, Status Internal "failed to fetch key packages: %s");
  pure (placeKeyPackages (keyPackageMap ids) installations (replicate (length ids) None)).

Definition RevokeInstallation : handler () := fails (Status Unimplemented "unimplemented").
Definition Service_GetIdentityUpdates : handler () := fails (Status Unimplemented "unimplemented").

(** The insert of one message: a duplicate is skipped. *)
Definition insertOrSkip (env : insertEnv) (groupId : bytes) (msgV1 : GroupMessageInput_V1)
    (isCommit : bool) : handler () := λ d,
  match Store.InsertGroupMessage sha256 (ie_dbErr env) (ie_now env) groupId (gi_Data msgV1)
          (gi_SenderHmac msgV1) (gi_ShouldPush msgV1) isCommit d with
  | (Err e, d) => if IsAlreadyExistsError e then Some (Ok (), d)
                  else Some (Err (Status Internal "failed to insert message: %s"), d)
  | (Ok _, d) => Some (Ok (), d)
  end.

(** One turn of SendGroupMessages' loop; [input] is [req.Messages[i]], which panics out of range. *)
Definition sendGroupMessage (env : insertEnv) (result : GroupMessageValidationResult)
    (input : option (option GroupMessageInput)) : handler () :=
  match input ≫= GetV1 with
  | None => panics
  | Some msgV1 =>
      _ ← pure (requireReadyToSend (GroupId result) (gi_Data msgV1));
      match Hex.decode (GroupId result) with
      | None => fails (invalid "invalid group id")
      | Some decodedGroupId => insertOrSkip env decodedGroupId msgV1 (IsCommit result)
      end
  end.

Fixpoint sendGroupMessages (env : nat → insertEnv) (i : nat)
    (results : list GroupMessageValidationResult) (messages : list (option GroupMessageInput))
    : handler () :=
  match results with
  | [] => mret ()
  | result :: results =>
      _ ← sendGroupMessage (env i) result (head messages);
      sendGroupMessages env (S i) results (tail messages)
  end.

Definition SendGroupMessages (now : Z) (env : nat → insertEnv) (req : option SendGroupMessagesReq)
    : handler () :=
  gated now (
    _ ← pure (validateSendGroupMessagesRequest req);
    let messages := default [] (sg_Messages <$> req) in
    match ValidateGroupMessages grpcValidateGroupMessages messages with
    | None => panics
    | Some validated =>
        validationResults ← orElse (pure validated) (λ _, invalid "invalid group message: %s");
        sendGroupMessages env 0 validationResults messages
    end).

(** ** SendWelcomeMessages: one goroutine per message *)

(** A goroutine: its insert, and the error it returns. *)
Definition sendWelcomeMessage (env : insertEnv) (input : option WelcomeMessageInput) (d : Db)
    : result () * Db :=
  let answer (r : result WelcomeMessageRow * Db) : result () * Db :=
    match r with
    | (Ok _, d) => (Ok (), d)
    | (Err e, d) => if IsAlreadyExistsError e then (Ok (), d)
                    else (Err (Status Internal "failed to insert message: %s"), d)
    end in
  match input with
  | Some (WelcomeInputV1 v) =>
      answer (InsertWelcomeMessage sha256 (ie_dbErr env) (ie_now env) (wi_InstallationKey v)
        (wi_Data v) (wi_HpkePublicKey v) (WrapperAlgorithmFromProto (wi_WrapperAlgorithm v))
        (wi_WelcomeMetadata v) d)
  | Some (WelcomeInputPointer p) =>
      match WelcomePointerWrapperAlgorithmFromProto (pi_WrapperAlgorithm p) with
      | Err _ => (Err (invalid "invalid welcome pointer message: %v"), d)
      | Ok wrapperAlgorithm =>
          answer (InsertWelcomePointerMessage sha256 (ie_dbErr env) (ie_now env)
            (pi_InstallationKey p) (pi_WelcomePointer p) (pi_HpkePublicKey p) wrapperAlgorithm d)
      end
  | _ => (Err (Status Internal "failed to insert message: %s"), d)
  end.

(** The goroutines in the order their inserts take effect, and the errors they return. *)
Fixpoint runGoroutines (schedule : list (option WelcomeMessageInput * insertEnv)) (d : Db)
    : list error * Db :=
  match schedule with
  | [] => ([], d)
  | (input, env) :: schedule =>
      let '(r, d) := sendWelcomeMessage env input d in
      let '(errs, d) := runGoroutines schedule d in
      (match r with Err e => e :: errs | Ok _ => errs end, d)
  end.

(** What SendWelcomeMessages may do: its goroutines run in some order, each with its own luck
    (after the first error the others' context is cancelled), and g.Wait returns nil, or the
    error of whichever goroutine returned one first. *)
Inductive SendWelcomeMessages (now : Z) (req : option SendWelcomeMessagesReq)
    : Db → result () → Db → Prop :=
  | SendWelcome_disabled d :
      isPublishDisabled now = true → SendWelcomeMessages now req d (Err publishDisabled) d
  | SendWelcome_invalid d e :
      isPublishDisabled now = false → validateSendWelcomeMessagesRequest req = Err e →
      SendWelcomeMessages now req d (Err e) d
  | SendWelcome_ok d d' schedule :
      isPublishDisabled now = false → validateSendWelcomeMessagesRequest req = Ok () →
      schedule.*1 ≡ₚ default [] (sw_Messages <$> req) →
      Forall (λ '(_, env), honest env) schedule →
      runGoroutines schedule d = ([], d') →
      SendWelcomeMessages now req d (Ok ()) d'
  | SendWelcome_err d d' schedule errs e :
      isPublishDisabled now = false → validateSendWelcomeMessagesRequest req = Ok () →
      schedule.*1 ≡ₚ default [] (sw_Messages <$> req) →
      Forall (λ '(_, env), honest env) schedule →
      runGoroutines schedule d = (errs, d') → e ∈ errs →
      SendWelcomeMessages now req d (Err e) d'.

(** ** Queries *)

Definition Service_QueryGroupMessages (dbErr : option error) (req : QueryGroupMessagesRequest)
    : handler QueryGroupMessagesResponse := reads (QueryGroupMessagesV1 dbErr req).
Definition Service_QueryWelcomeMessages (dbErr : option error) (req : QueryWelcomeMessagesRequest)
    : handler QueryWelcomeMessagesResponse := reads (QueryWelcomeMessagesV1 dbErr req).

(** A stored row as the response carries it, with its content or without. *)
Definition convertNewestMessageToProto (r : GroupMessageRow) : GroupMessage := toGroupMessage r.

Definition convertNewestMessageMetadataToProto (r : GetNewestGroupMessageMetadataRow)
    : GroupMessage :=
  mkGroupMessage (Some
    {| gm_Id := u64 (m_ID r); gm_CreatedNs := u64 (m_CreatedAt r); gm_GroupId := m_GroupID r;
       gm_Data := EmptyString; gm_SenderHmac := EmptyString; gm_ShouldPush := false;
       gm_IsCommit := Bool (m_IsCommit r) |}).

(** The response: per group its newest message, or an empty entry. *)
Definition Service_GetNewestGroupMessage (dbErr : option error)
    (req : option GetNewestGroupMessageReq) : handler (list (option GroupMessage)) :=
  req ← pure (validateGetNewestGroupMessageRequest req);
  orElse (reads (λ d,
    if gn_IncludeContent req then
      results ← ReadStore_GetNewestGroupMessage dbErr (gn_GroupIds req) d;
      Ok (fmap (M:=list) (fmap (M:=option) convertNewestMessageToProto) results)
    else
      results ← ReadStore_GetNewestGroupMessageMetadata dbErr (gn_GroupIds req) d;
      Ok (fmap (M:=list) (fmap (M:=option) convertNewestMessageMetadataToProto) results)))
    (λ _, Status Internal "database query failed").

(** ** The commit log *)

Section CommitLog.
Context {Signature : Type} (marshalSignature : Signature → result bytes)
  (unmarshalSignature : bytes → result Signature).

Definition publishCommitLogEntry (env : insertEnv)
    (entry : option (PublishCommitLogRequest Signature)) : handler () :=
  match entry with
  | None => fails (invalid "invalid commit log entry")
  | Some entry =>
      match pc_Signature entry with
      | None => fails (invalid "invalid commit log entry")
      | Some signature =>
          if bool_decide (len (pc_GroupId entry) = 0 ∨ len (pc_SerializedCommitLogEntry entry) = 0)
          then fails (invalid "invalid commit log entry")
          else
            serializedSignature ← orElse (pure (marshalSignature signature))
              (λ _, invalid "invalid signature");
            _ ← orElse (stmt (InsertCommitLog (ie_dbErr env) (ie_now env) (pc_GroupId entry)
                  (pc_SerializedCommitLogEntry entry) serializedSignature))
              (λ _, Status Internal "failed to insert commit log: %s");
            mret ()
      end
  end.

Fixpoint publishCommitLog (env : nat → insertEnv) (i : nat)
    (entries : list (option (PublishCommitLogRequest Signature))) : handler () :=
  match entries with
  | [] => mret ()
  | entry :: entries =>
      _ ← publishCommitLogEntry (env i) entry; publishCommitLog env (S i) entries
  end.

Definition BatchPublishCommitLog (now : Z) (env : nat → insertEnv)
    (req : option (list (option (PublishCommitLogRequest Signature)))) : handler () :=
  gated now (
    requests ← pure (validateBatchPublishCommitLogRequest req);
    publishCommitLog env 0 requests).

Definition BatchQueryCommitLog (dbErr : nat → option error)
    (req : option (list (option QueryCommitLogRequest)))
    : handler (list (QueryCommitLogResponse (Signature:=Signature))) :=
  requests ← pure (validateBatchQueryCommitLogRequest req);
  reads (λ d, mapErr (λ '(idx, request),
      match request with
      | Some r =>
          if bool_decide (len (qc_GroupId r) = 0) then Err (invalid "invalid request")
          else match QueryCommitLog unmarshalSignature (dbErr idx) r d with
               | Ok response => Ok response
               | Err _ => Err (Status Internal "failed to query commit log: %s")
               end
      | None => Err (invalid "invalid request")
      end) (zip (seq 0 (length requests)) requests)).
End CommitLog.
End Service.
