(* ===== verification/InFlight.v ===== *)
(** Publishing calls in flight (pkg/mls/api/v1/service.go). The handlers of Service.v run a call
    alone; on a node calls interleave, one statement of the store at a time. Here a publishing call
    that has passed the gate is the program it has left ([prog]: its statements, each answered by
    the store), or, for SendWelcomeMessages, its goroutines that have yet to run; and running a
    program alone is the handler ([sendGroupMessages_alone] and the like). *)

From S2P Require Import Prelude Topic Types Validate MlsDb Store Interceptor Service.

(** * Programs of statements *)

(** What a call has left to do: it returns, panics, or makes a statement and goes on with its
    answer. *)
Inductive prog (A : Type) :=
  | Done (r : result A)
  | Panics
  | Stmt (f : Db → result () * Db) (k : result () → prog A).
Arguments Done {_} r.
Arguments Panics {_}.
Arguments Stmt {_} f k.

#[export] Instance prog_ret : MRet prog := λ A a, Done (Ok a).
#[export] Instance prog_bind : MBind prog := λ A B f, fix bind m :=
  match m with
  | Done (Ok a) => f a
  | Done (Err e) => Done (Err e)
  | Panics => Panics
  | Stmt g k => Stmt g (λ r, bind (k r))
  end.

(** A program on its own. *)
Fixpoint alone {A} (p : prog A) : handler A := λ d,
  match p with
  | Done r => Some (r, d)
  | Panics => None
  | Stmt f k => let '(r, d') := f d in alone (k r) d'
  end.

Lemma alone_bind {A B} (p : prog A) (f : A → prog B) d :
  alone (p ≫= f) d = (alone p ≫= λ a, alone (f a)) d.
Proof.
  revert d. induction p as [[a|e]| |g k IH]; intros d; try done.
  change (alone (Stmt g k ≫= f) d) with (let '(r, d') := g d in alone (k r ≫= f) d').
  unfold mbind at 2, handler_bind. simpl. destruct (g d) as [r d']. by rewrite IH.
Qed.

(** Programs and handlers that do the same. *)
Definition runs {A} (p : prog A) (h : handler A) : Prop := ∀ d, alone p d = h d.

Lemma runs_bind {A B} (p : prog A) (h : handler A) (f : A → prog B) (g : A → handler B) :
  runs p h → (∀ a, runs (f a) (g a)) → runs (p ≫= f) (h ≫= g).
Proof.
  intros Hp Hf d. rewrite alone_bind. unfold mbind, handler_bind. rewrite Hp.
  destruct (h d) as [[[a|e] d']|]; [apply Hf|done..].
Qed.

Lemma runs_pure {A} (r : result A) : runs (Done r) (pure r).
Proof. done. Qed.

(** * The publishing handlers after the gate *)

Section InFlight.
Context (sha256 : bytes → bytes)
  (grpcValidateKeyPackages : list (bytes * bool) → result (list ValidateKeyPackagesResponse))
  (grpcValidateGroupMessages : list bytes → result (list ValidateGroupMessagesResponse)).

(** The answer without what the store returned. *)
Definition outcome {A} (r : result A) : result () := _ ← r; Ok ().
Definition replaceErr {A} (f : error → error) (r : result A) : result A :=
  match r with Err e => Err (f e) | Ok a => Ok a end.

Definition storing (tx : txEnv) (installationKey keyPackage : bytes) : Db → result () * Db :=
  Store_CreateOrUpdateInstallation (tx_beginErr tx) (tx_commitErr tx) (tx_dbErr tx) (tx_now tx)
    installationKey keyPackage.

Definition validated (keyPackage : bytes) : result (list InboxIdValidationResult) :=
  replaceErr (λ _, invalid "invalid identity: %s")
    (ValidateInboxIdKeyPackages grpcValidateKeyPackages [keyPackage]).

Definition registering (tx : txEnv) (req : option KeyPackageRequest) : prog () :=
  keyPackage ← Done (validateKeyPackageRequest req);
  results ← Done (validated keyPackage);
  match results with
  | [result] => Stmt (storing tx (InstallationKey result) keyPackage) Done
  | _ => Done (Err (Status Internal "unexpected number of results: %d"))
  end.

Definition uploading (tx : txEnv) (req : option KeyPackageRequest) : prog () :=
  keyPackage ← Done (validateKeyPackageRequest req);
  results ← Done (validated keyPackage);
  match results with
  | result :: _ =>
      Stmt (storing tx (InstallationKey result) keyPackage)
        (λ r, Done (replaceErr (λ _, Status Internal "failed to insert key packages: %s") r))
  | [] => Panics
  end.

(** The statement of one message, and what its turn of the loop makes of the answer. *)
Definition inserting (env : insertEnv) (groupId : bytes) (msgV1 : GroupMessageInput_V1)
    (isCommit : bool) : Db → result () * Db := λ d,
  let '(r, d) := Store.InsertGroupMessage sha256 (ie_dbErr env) (ie_now env) groupId (gi_Data msgV1)
    (gi_SenderHmac msgV1) (gi_ShouldPush msgV1) isCommit d in (outcome r, d).

Definition skipDuplicate (r : result ()) : result () :=
  match r with
  | Err e => if IsAlreadyExistsError e then Ok ()
             else Err (Status Internal "failed to insert message: %s")
  | Ok _ => Ok ()
  end.

Definition sendingOne (env : insertEnv) (result : GroupMessageValidationResult)
    (input : option (option GroupMessageInput)) : prog () :=
  match input ≫= GetV1 with
  | None => Panics
  | Some msgV1 =>
      _ ← Done (requireReadyToSend (GroupId result) (gi_Data msgV1));
      match Hex.decode (GroupId result) with
      | None => Done (Err (invalid "invalid group id"))
      | Some decodedGroupId =>
          Stmt (inserting env decodedGroupId msgV1 (IsCommit result)) (λ r, Done (skipDuplicate r))
      end
  end.

Fixpoint sendingAll (env : nat → insertEnv) (i : nat) (results : list GroupMessageValidationResult)
    (messages : list (option GroupMessageInput)) : prog () :=
  match results with
  | [] => mret ()
  | result :: results =>
      _ ← sendingOne (env i) result (head messages); sendingAll env (S i) results (tail messages)
  end.

Definition sending (env : nat → insertEnv) (req : option SendGroupMessagesReq) : prog () :=
  _ ← Done (validateSendGroupMessagesRequest req);
  let messages := default [] (sg_Messages <$> req) in
  match ValidateGroupMessages grpcValidateGroupMessages messages with
  | None => Panics
  | Some validated =>
      validationResults ← Done (replaceErr (λ _, invalid "invalid group message: %s") validated);
      sendingAll env 0 validationResults messages
  end.

Section CommitLog.
Context {Signature : Type} (marshalSignature : Signature → result bytes).

Definition loggingOne (env : insertEnv) (entry : option (PublishCommitLogRequest Signature)) : prog () :=
  match entry with
  | None => Done (Err (invalid "invalid commit log entry"))
  | Some entry =>
      match pc_Signature entry with
      | None => Done (Err (invalid "invalid commit log entry"))
      | Some signature =>
          if bool_decide (len (pc_GroupId entry) = 0 ∨ len (pc_SerializedCommitLogEntry entry) = 0)
          then Done (Err (invalid "invalid commit log entry"))
          else
            serializedSignature ← Done (replaceErr (λ _, invalid "invalid signature")
              (marshalSignature signature));
            Stmt (λ d, let '(r, d) := InsertCommitLog (ie_dbErr env) (ie_now env) (pc_GroupId entry)
                    (pc_SerializedCommitLogEntry entry) serializedSignature d in (outcome r, d))
              (λ r, Done (replaceErr (λ _, Status Internal "failed to insert commit log: %s") r))
      end
  end.

Fixpoint loggingAll (env : nat → insertEnv) (i : nat)
    (entries : list (option (PublishCommitLogRequest Signature))) : prog () :=
  match entries with
  | [] => mret ()
  | entry :: entries => _ ← loggingOne (env i) entry; loggingAll env (S i) entries
  end.

Definition logging (env : nat → insertEnv)
    (req : option (list (option (PublishCommitLogRequest Signature)))) : prog () :=
  requests ← Done (validateBatchPublishCommitLogRequest req); loggingAll env 0 requests.
End CommitLog.

(** * A call at work *)

(** Where a call that is past the gate stands. *)
Inductive work :=
  | Handling (p : prog ())
  | Goroutines (todo : list (option WelcomeMessageInput)) (errs : list error).

(** The goroutines start when the request is valid. *)
Definition welcoming (req : option SendWelcomeMessagesReq) : work :=
  match validateSendWelcomeMessagesRequest req with
  | Err e => Handling (Done (Err e))
  | Ok _ => Goroutines (default [] (sw_Messages <$> req)) []
  end.

(** One statement of the call: the next of its program, or that of any goroutine that is left. *)
Inductive workStep : work → Db → work → Db → Prop :=
  | Work_stmt f k d r d' : f d = (r, d') → workStep (Handling (Stmt f k)) d (Handling (k r)) d'
  | Work_goroutine todo input todo' errs env d r d' :
      todo ≡ₚ input :: todo' → honest env → sendWelcomeMessage sha256 env input d = (r, d') →
      workStep (Goroutines todo errs) d
        (Goroutines todo' (match r with Err e => e :: errs | Ok _ => errs end)) d'.

(** What a call that has nothing left returns. *)
Inductive workReturns : work → result () → Prop :=
  | Return_handled r : workReturns (Handling (Done r)) r
  | Return_welcomed : workReturns (Goroutines [] []) (Ok ())
  | Return_failed errs e : e ∈ errs → workReturns (Goroutines [] errs) (Err e).

(** A call alone, from where it stands to its answer. *)
Inductive worksAlone : work → Db → result () → Db → Prop :=
  | Alone_returns w d r : workReturns w r → worksAlone w d r d
  | Alone_step w d w1 d1 r d' : workStep w d w1 d1 → worksAlone w1 d1 r d' → worksAlone w d r d'.

(** At most [n] statements are left, whatever the store answers. *)
Fixpoint upTo {A} (n : nat) (p : prog A) : Prop :=
  match p, n with
  | Stmt _ k, S n => ∀ r, upTo n (k r)
  | Stmt _ _, O => False
  | _, _ => True
  end.

Definition atMost (n : nat) (w : work) : Prop :=
  match w with
  | Handling p => upTo n p
  | Goroutines todo _ => (length todo ≤ n)%nat
  end.

Lemma upTo_bind {A B} n m (p : prog A) (f : A → prog B) :
  upTo n p → (∀ a, upTo m (f a)) → upTo (n + m) (p ≫= f).
Proof.
  revert n. induction p as [[a|e]| |g k IH]; intros n Hp Hf; try (by destruct (n + m)%nat).
  - change (upTo (n + m) (f a)). specialize (Hf a). clear -Hf. revert Hf. generalize (f a). intros q.
    induction n as [|n IHn]; [done|]. intros Hq. specialize (IHn Hq). clear Hq. revert IHn. simpl.
    generalize (n + m)%nat. clear. intros j. revert j. induction q as [| |g k IH]; intros j Hq; try done.
    destruct j as [|j]; [done|]. intros r. by apply IH.
  - destruct n as [|n]; [done|]. intros r. by apply IH.
Qed.

Lemma workStep_atMost w d w' d' n :
  workStep w d w' d' → atMost n w → ∃ m, n = S m ∧ atMost m w'.
Proof.
  intros H Hn. destruct H as [f k d r d' _|todo input todo' errs env d r d' Hp _ _].
  - destruct n as [|n]; [done|]. exists n. split; [done|apply Hn].
  - simpl in Hn. rewrite Hp in Hn. simpl in Hn. exists (pred n). simpl. lia.
Qed.

(** * Programs alone *)

Lemma runs_replaceErr {A} (f : error → error) (r : result A) :
  runs (Done (replaceErr f r)) (orElse (pure r) f).
Proof. intros d. by destruct r. Qed.

Lemma registering_alone now tx req disable cutover d :
  isPublishDisabled disable cutover now = false →
  alone (registering tx req) d =
    (λ '(r, d'), (outcome r, d')) <$>
      RegisterInstallation grpcValidateKeyPackages disable cutover now tx req d.
Proof.
  intros Hd. unfold RegisterInstallation, gated, registering. rewrite Hd.
  destruct (validateKeyPackageRequest req) as [kp|e]; [|done]. simpl.
  unfold validated, validateKeyPackage, orElse, pure, mbind, handler_bind.
  destruct (ValidateInboxIdKeyPackages _ _) as [results|e]; [|done]. simpl.
  destruct results as [|result [|? ?]]; try done. unfold storeInstallation, stmt, storing. simpl.
  by destruct (Store_CreateOrUpdateInstallation _ _ _ _ _ _ d) as [[[]|e] d'].
Qed.

Lemma uploading_alone now tx req disable cutover :
  isPublishDisabled disable cutover now = false →
  runs (uploading tx req) (UploadKeyPackage grpcValidateKeyPackages disable cutover now tx req).
Proof.
  intros Hd. unfold UploadKeyPackage, gated. rewrite Hd.
  apply (runs_bind (Done _) (pure _)); [done|]. intros kp.
  apply (runs_bind (Done _) (orElse _ _)); [apply runs_replaceErr|].
  intros [|result results] d; [done|]. unfold orElse, storeInstallation, stmt. simpl.
  unfold storing. by destruct (Store_CreateOrUpdateInstallation _ _ _ _ _ _ d) as [[[]|e] d'].
Qed.

Lemma sendingOne_alone env result input :
  runs (sendingOne env result input) (sendGroupMessage sha256 env result input).
Proof.
  unfold sendingOne, sendGroupMessage. destruct (input ≫= GetV1) as [msg|]; [|done].
  apply (runs_bind (Done _) (pure _)); [done|]. intros _.
  destruct (Hex.decode _) as [id|]; [|done]. intros d. simpl. unfold inserting, insertOrSkip.
  destruct (Store.InsertGroupMessage _ _ _ _ _ _ _ _ d) as [[row|e] d']; [done|]. simpl.
  by destruct (IsAlreadyExistsError e).
Qed.

Lemma sendingAll_alone env i results messages :
  runs (sendingAll env i results messages) (sendGroupMessages sha256 env i results messages).
Proof.
  revert i messages. induction results as [|result results IH]; intros i messages; [done|].
  apply runs_bind; [apply sendingOne_alone|intros _; apply IH].
Qed.

(** A SendGroupMessages call has a statement per message at most. *)
Lemma sendingAll_upTo env i results messages :
  upTo (length results) (sendingAll env i results messages).
Proof.
  revert i messages. induction results as [|result results IH]; intros i messages; [done|].
  apply (upTo_bind 1 (length results)); [|intros _; apply IH].
  unfold sendingOne. destruct (_ ≫= GetV1); [|done]. destruct (requireReadyToSend _ _); [|done].
  unfold mbind, prog_bind. by destruct (Hex.decode _).
Qed.

Lemma sending_alone now env req disable cutover :
  isPublishDisabled disable cutover now = false →
  runs (sending env req)
    (SendGroupMessages sha256 grpcValidateGroupMessages disable cutover now env req).
Proof.
  intros Hd. unfold SendGroupMessages, gated. rewrite Hd.
  apply (runs_bind (Done _) (pure _)); [done|]. intros _. simpl.
  destruct (ValidateGroupMessages _ _) as [v|]; [|done].
  apply (runs_bind (Done _) (orElse _ _)); [apply runs_replaceErr|].
  intros results. apply sendingAll_alone.
Qed.

Section CommitLogAlone.
Context {Signature : Type} (marshalSignature : Signature → result bytes).

Lemma loggingOne_alone env entry :
  runs (loggingOne marshalSignature env entry) (publishCommitLogEntry marshalSignature env entry).
Proof.
  unfold loggingOne, publishCommitLogEntry. destruct entry as [entry|]; [|done].
  destruct (pc_Signature entry) as [sig|]; [|done]. case_bool_decide; [done|].
  apply (runs_bind (Done _) (orElse _ _)); [apply runs_replaceErr|]. intros signature d.
  unfold orElse, stmt, mbind, handler_bind. simpl.
  by destruct (InsertCommitLog _ _ _ _ _ d) as [[row|e] d'].
Qed.

Lemma logging_alone now env req disable cutover :
  isPublishDisabled disable cutover now = false →
  runs (logging marshalSignature env req)
    (BatchPublishCommitLog disable cutover marshalSignature now env req).
Proof.
  intros Hd. unfold BatchPublishCommitLog, gated. rewrite Hd.
  apply (runs_bind (Done _) (pure _)); [done|]. intros entries. generalize 0%nat.
  induction entries as [|entry entries IH]; intros i; [done|].
  apply runs_bind; [apply loggingOne_alone|intros _; apply IH].
Qed.
End CommitLogAlone.

Lemma handling_alone p d r d' : worksAlone (Handling p) d r d' ↔ alone p d = Some (r, d').
Proof.
  split.
  - remember (Handling p) as w eqn:Ew. intros H. revert p Ew.
    induction H as [w d r Hr|w d w1 d1 r d' Hs _ IH]; intros p ->; [by inversion Hr|].
    inversion Hs as [f k ? r1 ? Hf|]; subst. simpl. rewrite Hf. by apply IH.
  - revert d. induction p as [r1| |f k IH]; intros d; simpl; [|done|].
    + intros [= -> ->]. apply Alone_returns. constructor.
    + destruct (f d) as [r1 d1] eqn:Hf. intros H. eapply Alone_step; [by apply Work_stmt|by apply IH].
Qed.

(** The goroutines that have run, in the order of their inserts. *)
Lemma goroutines_alone todo errs d r d' :
  worksAlone (Goroutines todo errs) d r d' →
  ∃ schedule new, schedule.*1 ≡ₚ todo ∧ Forall (λ '(_, env), honest env) schedule ∧
    runGoroutines sha256 schedule d = (new, d') ∧
    match r with Ok _ => new = [] ∧ errs = [] | Err e => e ∈ new ++ errs end.
Proof.
  remember (Goroutines todo errs) as w eqn:Ew. intros H. revert todo errs Ew.
  induction H as [w d r Hr|w d w1 d1 r d' Hs _ IH]; intros todo errs ->.
  - exists [], []. inversion Hr; subst; split_and!; try done; by constructor.
  - inversion Hs as [|? input todo' ? env ? r1 ? Hl He Hw]; subst.
    destruct (IH _ _ eq_refl) as (schedule & new & Hp & Hh & Hrun & Hr).
    exists ((input, env) :: schedule), (match r1 with Err e => e :: new | Ok _ => new end).
    split_and!; [simpl; by rewrite Hp|by constructor|simpl; rewrite Hw, Hrun; by destruct r1|].
    destruct r1, r; set_solver.
Qed.

Lemma schedule_alone schedule todo errs d new d' :
  schedule.*1 ≡ₚ todo → Forall (λ '(_, env), honest env) schedule →
  runGoroutines sha256 schedule d = (new, d') →
  ∀ r, match r with Ok _ => new = [] ∧ errs = [] | Err e => e ∈ new ++ errs end →
  worksAlone (Goroutines todo errs) d r d'.
Proof.
  revert todo errs d new. induction schedule as [|[input env] schedule IH]; intros todo errs d new Hp Hh Hrun r Hr.
  - apply Permutation_nil in Hp as ->. injection Hrun as <- <-. apply Alone_returns.
    destruct r as [[]|e]; [|by constructor]. destruct Hr as [_ ->]. constructor.
  - simpl in Hp, Hrun. apply Forall_cons in Hh as [He Hh].
    destruct (sendWelcomeMessage _ _ _ _) as [r1 d1] eqn:Hw.
    destruct (runGoroutines _ _ _) as [new1 d2] eqn:Hrun1. injection Hrun as <- <-.
    eapply Alone_step; [by apply (Work_goroutine _ input schedule.*1 _ env)|].
    eapply IH; [done..|exact Hrun1|]. destruct r1, r; set_solver.
Qed.

Lemma welcoming_alone now req disable cutover d r d' :
  isPublishDisabled disable cutover now = false →
  worksAlone (welcoming req) d r d' ↔ SendWelcomeMessages sha256 disable cutover now req d r d'.
Proof.
  intros Hd. unfold welcoming. destruct (validateSendWelcomeMessagesRequest req) as [[]|e] eqn:Ev; split.
  - intros (schedule & new & Hp & Hh & Hrun & Hr)%goroutines_alone. rewrite app_nil_r in Hr.
    destruct r as [[]|e]; [destruct Hr as [-> _]; by eapply SendWelcome_ok|by eapply SendWelcome_err].
  - intros H. inversion H; subst; try congruence; eapply schedule_alone; try done.
    by rewrite app_nil_r.
  - intros H. inversion H as [? ? ? Hr|? ? ? ? ? ? Hs]; subst; [|by inversion Hs].
    inversion Hr; subst. by apply SendWelcome_invalid.
  - intros H. inversion H; subst; try congruence. assert (e = e0) as -> by congruence.
    apply Alone_returns. constructor.
Qed.
End InFlight.
