(* ===== verification/ServiceProps.v ===== *)
(** What the unary MLS handlers of Service.v guarantee: publishing group messages under failures
    and retries, publishing welcomes under any interleaving of the goroutines, key packages by
    position, and the two forms of the newest-message query. *)

From S2P Require Import Prelude Topic Types Validate MlsDb ReadStore Store Interceptor Service.

(** * Publishing group messages *)

(** A validated message: its group, what was sent, and whether it is a commit. *)
Definition item : Type := bytes * GroupMessageInput_V1 * bool.

Definition contentOf (r : GroupMessageRow) : item :=
  (g_GroupID r, mkGroupMessageInput_V1 (g_Data r) (g_SenderHmac r) (Bool (g_ShouldPush r)),
   Bool (g_IsCommit r)).

Definition hashes (d : Db) : list bytes := g_GroupIDDataHash <$> group_messages d.
Definition contents (d : Db) : list item := contentOf <$> group_messages d.

Section Publish.
Context (sha256 : bytes → bytes).

Definition hashOf (it : item) : bytes := sha256 (it.1.1 +:+ gi_Data it.1.2).

(** The specification of publishing: the items not yet stored, each once, in order. *)
Fixpoint newItems (seen : list bytes) (items : list item) : list item :=
  match items with
  | [] => []
  | it :: items =>
      if decide (hashOf it ∈ seen) then newItems seen items
      else it :: newItems (seen ++ [hashOf it]) items
  end.

Lemma newItems_app seen a b :
  newItems seen (a ++ b) = newItems seen a ++ newItems (seen ++ (hashOf <$> newItems seen a)) b.
Proof.
  revert seen. induction a as [|it a IH]; intros seen; simpl; [by rewrite app_nil_r|].
  case_decide; [apply IH|]. rewrite IH. simpl. by rewrite <- app_assoc.
Qed.

Lemma newItems_covers seen items it :
  it ∈ items → hashOf it ∈ seen ++ (hashOf <$> newItems seen items).
Proof.
  revert seen. induction items as [|it' items IH]; intros seen; [by intros ?%elem_of_nil|].
  simpl. intros [->|H]%elem_of_cons.
  - case_decide as E; [set_solver|]. rewrite fmap_cons. set_solver.
  - case_decide; [by apply IH|]. specialize (IH (seen ++ [hashOf it']) H).
    rewrite fmap_cons. rewrite <- app_assoc in IH. exact IH.
Qed.

Lemma newItems_seen seen items :
  (∀ it, it ∈ items → hashOf it ∈ seen) → newItems seen items = [].
Proof.
  induction items as [|it items IH]; [done|]. intros H. simpl.
  rewrite decide_True by (apply H; left). apply IH. intros it' ?. apply H. by right.
Qed.

(** Publishing again what a prefix already stored adds the rest. *)
Lemma newItems_retry seen items n :
  newItems seen (take n items)
    ++ newItems (seen ++ (hashOf <$> newItems seen (take n items))) items
  = newItems seen items.
Proof.
  set (seen' := seen ++ _).
  rewrite <- (take_drop n items) at 2. rewrite newItems_app.
  rewrite (newItems_seen seen' (take n items)) by (intros; by apply newItems_covers).
  simpl. rewrite app_nil_r. rewrite <- (take_drop n items) at 3. by rewrite newItems_app.
Qed.

(** The item of one turn of the loop. *)
Definition itemOf (result : GroupMessageValidationResult)
    (input : option (option GroupMessageInput)) : option item :=
  msgV1 ← input ≫= GetV1;
  match requireReadyToSend (GroupId result) (gi_Data msgV1) with
  | Err _ => None
  | Ok _ => groupId ← Hex.decode (GroupId result); Some (groupId, msgV1, IsCommit result)
  end.

Fixpoint itemsOf (results : list GroupMessageValidationResult)
    (messages : list (option GroupMessageInput)) : option (list item) :=
  match results with
  | [] => Some []
  | result :: results =>
      it ← itemOf result (head messages); items ← itemsOf results (tail messages);
      Some (it :: items)
  end.

(** The rows [d'] has over [d] are those of the new items. *)
Definition added (items : list item) (d d' : Db) : Prop :=
  ∃ rows, group_messages d' = group_messages d ++ rows ∧
    contentOf <$> rows = newItems (hashes d) items ∧
    g_GroupIDDataHash <$> rows = hashOf <$> newItems (hashes d) items.

Lemma added_nil d : added [] d d.
Proof. exists []. by rewrite app_nil_r. Qed.

Lemma added_hashes items d d' :
  added items d d' → hashes d' = hashes d ++ (hashOf <$> newItems (hashes d) items).
Proof. intros (rows & E & _ & Eh). unfold hashes at 1. by rewrite E, fmap_app, Eh. Qed.

Lemma added_contents items d d' :
  added items d d' → contents d' = contents d ++ newItems (hashes d) items.
Proof. intros (rows & E & Ec & _). unfold contents at 1. by rewrite E, fmap_app, Ec. Qed.

Lemma added_app a b d1 d2 d3 : added a d1 d2 → added b d2 d3 → added (a ++ b) d1 d3.
Proof.
  intros A (rows2 & E2 & C2 & H2). rewrite (added_hashes _ _ _ A) in C2, H2.
  destruct A as (rows1 & E1 & C1 & H1). exists (rows1 ++ rows2).
  rewrite newItems_app, !fmap_app, C1, C2, H1, H2, E2, E1, app_assoc. done.
Qed.

Lemma insertOrSkip_spec env g v c d r d' :
  honest env → insertOrSkip sha256 env g v c d = Some (r, d') →
  (r = Ok () ∧ added [(g, v, c)] d d') ∨ ((∃ e, r = Err e) ∧ added [] d d').
Proof.
  intros Hh. unfold insertOrSkip. destruct (Store.InsertGroupMessage _ _ _ _ _ _ _ _ _) as [r0 d0] eqn:E.
  pose proof (group_insert_cases _ _ _ _ _ _ _ _ _ _ _ E)
    as [(row & -> & Et & _ & _ & Eg & Ed & _ & Ep & Ec & Eh & Ehash & Hfresh)|(e & -> & Et & Hdup)].
  - intros [= <- <-]. left. split; [done|]. exists [row]. split; [done|].
    cbn [newItems]. unfold hashOf. cbn [fst snd]. rewrite decide_False by done. cbn.
    unfold contentOf. rewrite Eg, Ed, Ep, Ec, Eh, Ehash. by destruct v.
  - destruct (IsAlreadyExistsError e) eqn:Ex; intros [= <- <-].
    + left. split; [done|]. exists []. rewrite app_nil_r. split; [done|].
      assert (Hn : ie_dbErr env = None).
      { destruct (ie_dbErr env) as [e0|] eqn:E0; [|done]. exfalso.
        specialize (Hh e0 E0). unfold Store.InsertGroupMessage, insert in E.
        injection E as <- <-. congruence. }
      destruct (Hdup Hn) as [_ Hin]. cbn [newItems]. by rewrite decide_True.
    + right. split; [by eexists|]. exists []. by rewrite app_nil_r.
Qed.

Lemma sendGroupMessage_spec env result input d r d' :
  honest env → sendGroupMessage sha256 env result input d = Some (r, d') →
  (r = Ok () ∧ ∃ it, itemOf result input = Some it ∧ added [it] d d') ∨
  ((∃ e, r = Err e) ∧ added [] d d').
Proof.
  intros Hh. unfold sendGroupMessage, itemOf.
  destruct (input ≫= GetV1) as [v|]; [|done]. cbv [mbind handler_bind pure fails option_bind].
  destruct (requireReadyToSend (GroupId result) (gi_Data v)) as [[]|e].
  2:{ intros [= <- <-]. right. split; [by eexists|apply added_nil]. }
  destruct (Hex.decode (GroupId result)) as [g|].
  2:{ intros [= <- <-]. right. split; [by eexists|apply added_nil]. }
  intros [[-> A]|[He A]]%insertOrSkip_spec; [left|by right|done]. split; [done|].
  by exists (g, v, IsCommit result).
Qed.

Lemma sendGroupMessages_spec env i results messages d r d' :
  (∀ i, honest (env i)) → sendGroupMessages sha256 env i results messages d = Some (r, d') →
  ∃ n items, itemsOf (take n results) messages = Some items ∧ added items d d' ∧
    (r = Ok () → n = length results).
Proof.
  intros Hh. revert i messages d. induction results as [|result results IH]; intros i messages d.
  { intros [= <- <-]. exists 0%nat, []. split_and!; [done|apply added_nil|done]. }
  cbn [sendGroupMessages]. cbv [mbind handler_bind].
  destruct (sendGroupMessage sha256 (env i) result (head messages) d) as [[r1 d1]|] eqn:Ei; [|done].
  destruct (sendGroupMessage_spec _ _ _ _ _ _ (Hh i) Ei) as [[-> (it & Eit & A)]|[[e ->] A]].
  2:{ intros [= <- <-]. by exists 0%nat, []. }
  intros (n & items & E & A' & Hn)%IH.
  exists (S n), (it :: items). split_and!.
  - cbn [take itemsOf]. rewrite Eit. cbn [mbind option_bind]. by rewrite E.
  - exact (added_app [_] _ _ _ _ A A').
  - intros Hr. simpl. by rewrite (Hn Hr).
Qed.

Lemma itemsOf_take results messages items n :
  itemsOf results messages = Some items → itemsOf (take n results) messages = Some (take n items).
Proof.
  revert messages items n. induction results as [|r results IH]; intros messages items n; simpl.
  { intros [= <-]. by rewrite !take_nil. }
  destruct (itemOf r (head messages)) as [it|] eqn:Ei; [|done]. simpl.
  destruct (itemsOf results (tail messages)) as [rest|] eqn:Er; [|done]. intros [= <-].
  destruct n as [|n]; [done|]. simpl. rewrite Ei. simpl. by rewrite (IH _ _ n Er).
Qed.
End Publish.

Section Retry.
Context (sha256 : bytes → bytes)
  (grpcValidateGroupMessages : list bytes → Prelude.result (list ValidateGroupMessagesResponse))
  (disablePublish : bool) (cutoverChecker : option Z).

Abbreviation sends := (SendGroupMessages sha256 grpcValidateGroupMessages disablePublish
  cutoverChecker).

(** The items a request publishes, when the validation service accepts all of it. *)
Definition requestItems (req : option SendGroupMessagesReq) : option (list item) :=
  let messages := default [] (sg_Messages <$> req) in
  validated ← ValidateGroupMessages grpcValidateGroupMessages messages;
  match validated with
  | Ok results => itemsOf results messages
  | Err _ => None
  end.

Lemma SendGroupMessages_spec now env req d r d' :
  (∀ i, honest (env i)) → sends now env req d = Some (r, d') →
  (r ≠ Ok () ∧ d' = d) ∨
  ∃ results n items,
    let messages := default [] (sg_Messages <$> req) in
    ValidateGroupMessages grpcValidateGroupMessages messages = Some (Ok results) ∧
    itemsOf (take n results) messages = Some items ∧ added sha256 items d d' ∧
    (r = Ok () → n = length results).
Proof.
  intros Hh. unfold SendGroupMessages, gated.
  destruct (isPublishDisabled _ _ _); [intros [= <- <-]; by left|].
  cbn [mbind handler_bind]. unfold pure at 1.
  destruct (validateSendGroupMessagesRequest req); [|intros [= <- <-]; by left].
  destruct (ValidateGroupMessages _ _) as [[results|e]|] eqn:Ev; [| |done].
  - cbn [orElse pure mbind handler_bind]. intros (n & items & ? & ? & ?)%sendGroupMessages_spec;
      [|done]. right. exists results, n, items. done.
  - intros [= <- <-]. by left.
Qed.

(** C25. Publishing survives a failure and a retry. However the first attempt of a request ends
    (refused, failed after some of its messages, or complete), the messages it stored are those of
    a prefix of the request that were not stored before, each once and in order; and when the
    client sends the request again and that succeeds, the messages stored in all are exactly those
    one successful attempt would have stored. *)
Theorem send_retry_completes now1 env1 now2 env2 req d r1 d1 d2 :
  (∀ i, honest (env1 i)) → (∀ i, honest (env2 i)) →
  sends now1 env1 req d = Some (r1, d1) → sends now2 env2 req d1 = Some (Ok (), d2) →
  ∃ items n, requestItems req = Some items ∧
    contents d1 = contents d ++ newItems sha256 (hashes d) (take n items) ∧
    (r1 = Ok () → n = length items) ∧
    contents d2 = contents d ++ newItems sha256 (hashes d) items.
Proof.
  intros Hh1 Hh2 E1 E2.
  apply SendGroupMessages_spec in E2 as [[Hr _]|(results & n2 & items & Ev & Ei & A2 & Hn2)];
    [by destruct Hr| |done].
  rewrite (Hn2 eq_refl), firstn_all in Ei.
  assert (A1 : ∃ n, added sha256 (take n items) d d1 ∧ (r1 = Ok () → n = length items)).
  { apply SendGroupMessages_spec in E1 as [[? ->]|(results' & n & items1 & Ev' & Ei' & A1 & Hn)];
      [exists 0%nat; split; [apply added_nil|done]| |done].
    simpl in *. rewrite Ev in Ev'. injection Ev' as <-.
    pose proof (itemsOf_take _ _ _ n Ei) as Et. rewrite Et in Ei'. injection Ei' as <-.
    destruct r1 as [[]|e]; [|by exists n].
    exists (length items). split; [|done]. rewrite firstn_all.
    rewrite (Hn eq_refl) in A1, Et. rewrite firstn_all, Ei in Et. injection Et as Et.
    by rewrite <- Et in A1. }
  destruct A1 as (n & A1 & Hn). exists items, n. split_and!.
  - unfold requestItems. simpl in Ev. by rewrite Ev.
  - by apply added_contents.
  - done.
  - rewrite (added_contents _ _ _ _ A2), (added_contents _ _ _ _ A1), (added_hashes _ _ _ _ A1).
    by rewrite <- app_assoc, newItems_retry.
Qed.
End Retry.

(** * Publishing welcomes *)

Section Welcomes.
Context (sha256 : bytes → bytes).

Definition welcomeHashes (d : Db) : list bytes :=
  w_InstallationKeyDataHash <$> welcome_messages d.

(** The hash an input is stored under, and a row that stores it. *)
Definition welcomeHash (input : option WelcomeMessageInput) : bytes :=
  match input with
  | Some (WelcomeInputV1 v) => sha256 (wi_InstallationKey v +:+ wi_Data v)
  | Some (WelcomeInputPointer p) => sha256 (pi_InstallationKey p +:+ pi_WelcomePointer p)
  | _ => EmptyString
  end.

Definition stores (row : WelcomeMessageRow) (input : option WelcomeMessageInput) : Prop :=
  match input with
  | Some (WelcomeInputV1 v) =>
      w_InstallationKey row = wi_InstallationKey v ∧ w_Data row = wi_Data v ∧
      w_HpkePublicKey row = wi_HpkePublicKey v ∧
      w_WrapperAlgorithm row = WrapperAlgorithmFromProto (wi_WrapperAlgorithm v) ∧
      w_WelcomeMetadata row = wi_WelcomeMetadata v ∧ w_MessageType row = 0
  | Some (WelcomeInputPointer p) =>
      w_InstallationKey row = pi_InstallationKey p ∧ w_Data row = pi_WelcomePointer p ∧
      w_HpkePublicKey row = pi_HpkePublicKey p ∧
      WelcomePointerWrapperAlgorithmFromProto (pi_WrapperAlgorithm p)
        = Ok (w_WrapperAlgorithm row) ∧ w_MessageType row = 1
  | _ => False
  end.

(** What any insert does to the table: one new row, or none. *)
Definition one_welcome (input : option WelcomeMessageInput) (dbErr : option error)
    (d : Db) (r : result WelcomeMessageRow * Db) : Prop :=
  (∃ row, r.1 = Ok row ∧ welcome_messages r.2 = welcome_messages d ++ [row] ∧
     w_InstallationKeyDataHash row = welcomeHash input ∧ (welcomeHash input ∉ welcomeHashes d) ∧
     stores row input) ∨
  (∃ e, r.1 = Err e ∧ welcome_messages r.2 = welcome_messages d ∧
     (IsAlreadyExistsError e = true → dbErr = None → welcomeHash input ∈ welcomeHashes d) ∧
     (∀ e0, dbErr = Some e0 → e = insertError e0 ∨ e = Plain "hpke public key is required")).

Lemma insert_welcome_one input dbErr now key data hpke alg meta kind d :
  (∀ id row, row = mkWelcomeMessageRow id now key data hpke (welcomeHash input) alg meta kind →
    stores row input) →
  one_welcome input dbErr d
    (insert dbErr (insert_welcome now key data (welcomeHash input) hpke alg meta kind) d).
Proof.
  intros Hst. unfold one_welcome, insert. destruct dbErr as [e|].
  - right. exists (insertError e). split_and!; [done..|]. intros e0 [= ->]. by left.
  - unfold insert_welcome. simpl. case_bool_decide as Hin; simpl.
    + right. eexists. split_and!; [done..|]. by intros e0.
    + left. eexists. split_and!; [done..|]. by eapply Hst.
Qed.

Lemma sendWelcomeMessage_spec env input d r d' :
  (∀ e, ie_dbErr env = Some e → IsAlreadyExistsError (insertError e) = false) →
  sendWelcomeMessage sha256 env input d = (r, d') →
  (∃ row, r = Ok () ∧ welcome_messages d' = welcome_messages d ++ [row] ∧
     w_InstallationKeyDataHash row = welcomeHash input ∧ (welcomeHash input ∉ welcomeHashes d) ∧
     stores row input) ∨
  (welcome_messages d' = welcome_messages d ∧ (r = Ok () → welcomeHash input ∈ welcomeHashes d)).
Proof.
  intros Hh. unfold sendWelcomeMessage.
  assert (Hans : ∀ (r0 : result WelcomeMessageRow * Db), one_welcome input (ie_dbErr env) d r0 →
    match r0 with
    | (Ok _, d) => (Ok (), d)
    | (Err e, d) => if IsAlreadyExistsError e then (Ok (), d)
                    else (Err (Status Internal "failed to insert message: %s"), d)
    end = (r, d') →
    (∃ row, r = Ok () ∧ welcome_messages d' = welcome_messages d ++ [row] ∧
     w_InstallationKeyDataHash row = welcomeHash input ∧ (welcomeHash input ∉ welcomeHashes d) ∧
     stores row input) ∨
    (welcome_messages d' = welcome_messages d ∧ (r = Ok () → welcomeHash input ∈ welcomeHashes d))).
  { intros [r0 d0] [(row & E & Ew & Eh & Hn & Hs)|(e & E & Ew & Hdup & Herr)]; simpl in *; subst r0.
    - intros [= <- <-]. left. by exists row.
    - destruct (IsAlreadyExistsError e) eqn:Ex; intros [= <- <-]; right; (split; [done|]); [|done].
      intros _. apply Hdup; [done|]. destruct (ie_dbErr env) as [e0|] eqn:E0; [|done].
      destruct (Herr e0 eq_refl) as [->| ->]; [|done]. rewrite Hh in Ex; done. }
  destruct input as [[v|p|]|].
  - apply Hans, insert_welcome_one. intros id row ->. simpl. done.
  - destruct (WelcomePointerWrapperAlgorithmFromProto (pi_WrapperAlgorithm p)) as [alg|e] eqn:Ea;
      [|intros [= <- <-]; by right].
    apply Hans. unfold Store.InsertWelcomePointerMessage. case_bool_decide.
    + right. eexists. split_and!; [done..|]. intros e0 _. by right.
    + apply insert_welcome_one. intros id row ->. simpl. by rewrite Ea.
  - intros [= <- <-]. by right.
  - intros [= <- <-]. by right.
Qed.

Lemma runGoroutines_spec schedule d errs d' :
  Forall (λ '(_, env), honest env) schedule → runGoroutines sha256 schedule d = (errs, d') →
  ∃ rows, welcome_messages d' = welcome_messages d ++ rows ∧
    NoDup (w_InstallationKeyDataHash <$> rows) ∧
    (∀ row, row ∈ rows → (w_InstallationKeyDataHash row ∉ welcomeHashes d) ∧
       ∃ input, input ∈ schedule.*1 ∧ stores row input ∧
         w_InstallationKeyDataHash row = welcomeHash input) ∧
    (errs = [] → ∀ input, input ∈ schedule.*1 → welcomeHash input ∈ welcomeHashes d').
Proof.
  revert d errs. induction schedule as [|[input env] schedule IH]; intros d errs.
  { intros _ [= <- <-]. exists []. rewrite app_nil_r. split_and!; [done|constructor| |];
      intros; set_solver. }
  intros [Henv Hs]%Forall_cons. cbn [runGoroutines].
  destruct (sendWelcomeMessage sha256 env input d) as [r d1] eqn:E1.
  destruct (runGoroutines sha256 schedule d1) as [errs1 d2] eqn:E2. intros [= <- <-].
  destruct (IH d1 errs1 Hs E2) as (rows & Er & Hnd & Hrows & Hall).
  pose proof (sendWelcomeMessage_spec _ _ _ _ _ Henv E1) as [(row & -> & Ew & Eh & Hn & Hst)|[Ew Hok]].
  - exists (row :: rows).
    assert (Hh1 : welcomeHashes d1 = welcomeHashes d ++ [welcomeHash input])
      by (unfold welcomeHashes; by rewrite Ew, fmap_app, <- Eh).
    split_and!.
    + by rewrite Er, Ew, <- app_assoc.
    + rewrite fmap_cons. constructor; [|done]. intros (row' & Ee & Hin)%list_elem_of_fmap.
      destruct (Hrows row' Hin) as [Hn' _]. apply Hn'. rewrite <- Ee, Hh1, Eh. set_solver.
    + intros row' [->|Hin]%elem_of_cons.
      * split; [by rewrite Eh|]. exists input. split; [left|done].
      * destruct (Hrows row' Hin) as (Hn' & input' & Hi & Hs' & He). rewrite Hh1 in Hn'.
        split; [set_solver|]. exists input'. split; [by right|done].
    + intros -> input' [->|Hin]%elem_of_cons; [|by apply Hall].
      unfold welcomeHashes. rewrite Er, fmap_app. apply elem_of_app. left.
      fold (welcomeHashes d1). rewrite Hh1. set_solver.
  - assert (Hh1 : welcomeHashes d1 = welcomeHashes d) by (unfold welcomeHashes; by rewrite Ew).
    exists rows. rewrite Er, Ew. split_and!; [done..| |].
    + intros row' Hin. destruct (Hrows row' Hin) as (Hn' & input' & Hi & ?). rewrite <- Hh1.
      split; [done|]. exists input'. split; [by right|done].
    + destruct r as [[]|e]; [|done]. intros -> input' [->|Hin]%elem_of_cons; [|by apply Hall].
      unfold welcomeHashes. rewrite Er, fmap_app. apply elem_of_app. left.
      fold (welcomeHashes d1). rewrite Hh1. by apply Hok.
Qed.

(** Publishing welcomes does not depend on how the goroutines interleave. Whatever the order
    and the luck of the inserts, only inputs of the request are stored, as they were sent, under
    hashes that were not there and each at most once, and everything stored before stays; and when
    the handler answers nil, every input is stored, so the hashes added are exactly those of the
    request that were missing, in every interleaving. *)
Theorem welcomes_any_interleaving disablePublish cutoverChecker now req d r d' :
  SendWelcomeMessages sha256 disablePublish cutoverChecker now req d r d' →
  ∃ rows, welcome_messages d' = welcome_messages d ++ rows ∧
    NoDup (w_InstallationKeyDataHash <$> rows) ∧
    (∀ row, row ∈ rows → (w_InstallationKeyDataHash row ∉ welcomeHashes d) ∧
       ∃ input, input ∈ default [] (sw_Messages <$> req) ∧ stores row input) ∧
    (r = Ok () → ∀ h, (h ∈ (w_InstallationKeyDataHash <$> rows)) ↔
       (h ∉ welcomeHashes d) ∧ ∃ input, input ∈ default [] (sw_Messages <$> req) ∧
                                         welcomeHash input = h).
Proof.
  assert (Hnone : ∀ (r : result ()), r ≠ Ok () →
    ∃ rows, welcome_messages d = welcome_messages d ++ rows ∧
    NoDup (w_InstallationKeyDataHash <$> rows) ∧
    (∀ row, row ∈ rows → (w_InstallationKeyDataHash row ∉ welcomeHashes d) ∧
       ∃ input, input ∈ default [] (sw_Messages <$> req) ∧ stores row input) ∧
    (r = Ok () → ∀ h, (h ∈ (w_InstallationKeyDataHash <$> rows)) ↔
       (h ∉ welcomeHashes d) ∧ ∃ input, input ∈ default [] (sw_Messages <$> req) ∧
                                         welcomeHash input = h)).
  { intros r0 Hr0. exists []. rewrite app_nil_r. split_and!; [done|constructor| |done].
    by intros row ?%elem_of_nil. }
  destruct 1 as [d Hd|d e _ Hv|d d' schedule _ _ Hp Hh Hrun|d d' schedule errs e _ _ Hp Hh Hrun He].
  - by apply Hnone.
  - by apply Hnone.
  - destruct (runGoroutines_spec _ _ _ _ Hh Hrun) as (rows & Er & Hnd & Hrows & Hall).
    exists rows. split_and!; [done..| |].
    + intros row Hin. destruct (Hrows row Hin) as (Hn & input & Hi & Hs & _). split; [done|].
      exists input. by rewrite <- Hp.
    + intros _ h. split.
      * intros (row & -> & Hin)%list_elem_of_fmap. destruct (Hrows row Hin) as (Hn & input & Hi & _ & He).
        split; [done|]. exists input. by rewrite <- Hp.
      * intros (Hn & input & Hi & <-). rewrite <- Hp in Hi. specialize (Hall eq_refl input Hi).
        unfold welcomeHashes in Hall at 1. rewrite Er, fmap_app in Hall.
        apply elem_of_app in Hall as [?|?]; [by destruct Hn|done].
  - destruct (runGoroutines_spec _ _ _ _ Hh Hrun) as (rows & Er & Hnd & Hrows & _).
    exists rows. split_and!; [done..| |done].
    intros row Hin. destruct (Hrows row Hin) as (Hn & input & Hi & Hs & _). split; [done|].
    exists input. by rewrite <- Hp.
Qed.
End Welcomes.

(** * Key packages *)

(** Position [i] holds the last occurrence of its id. *)
Definition last_index (ids : list bytes) (i : nat) (id : bytes) : Prop :=
  ids !! i = Some id ∧ ∀ j, ids !! j = Some id → (j ≤ i)%nat.

Lemma keyPackageMap_spec ids id i : keyPackageMap ids !! id = Some i ↔ last_index ids i id.
Proof.
  unfold keyPackageMap, last_index. revert i. induction ids as [|x ids IH] using rev_ind; intros i.
  { simpl. rewrite lookup_empty, lookup_nil. naive_solver. }
  rewrite length_app, seq_app, zip_with_app, foldl_app by by rewrite length_seq. simpl.
  rewrite lookup_insert_Some, IH. setoid_rewrite lookup_app_Some. split.
  - intros [[-> <-]|[Hne [Hi Hmax]]].
    + split; [right; by rewrite Nat.sub_diag|].
      intros j [Hj%lookup_lt_Some|[Hj Hx]]; [lia|].
      apply lookup_lt_Some in Hx. simpl in Hx. lia.
    + split; [by left|]. intros j [Hj|[Hj Hx]]; [by apply Hmax|].
      apply list_lookup_singleton_Some in Hx as [_ ?]. done.
  - intros [[Hi|[Hle Hx]] Hmax].
    + right. assert (Hne : x ≠ id).
      { intros ->. apply lookup_lt_Some in Hi.
        specialize (Hmax (length ids) ltac:(right; split; [lia|by rewrite Nat.sub_diag])). lia. }
      split; [done|]. split; [done|]. intros j Hj. apply Hmax. by left.
    + apply list_lookup_singleton_Some in Hx as [Hx <-]. left. split; [done|lia].
Qed.

Lemma placeKeyPackages_spec m installations res :
  NoDup installations.*1 →
  (∀ id kp, (id, kp) ∈ installations → ∃ idx, m !! id = Some idx ∧ (idx < length res)%nat) →
  (∀ id id' idx, m !! id = Some idx → m !! id' = Some idx → id = id') →
  ∃ out, placeKeyPackages m installations res = Ok out ∧ length out = length res ∧
    ∀ i, out !! i = match list_find (λ '(id, _), m !! id = Some i) installations with
                    | Some (_, (_, kp)) => Some (Some kp)
                    | None => res !! i
                    end.
Proof.
  revert res. induction installations as [|[id kp] l IH]; intros res Hd Hm Hinj.
  { exists res. done. }
  cbn [placeKeyPackages]. destruct (Hm id kp) as (idx & Eid & Hlt); [left|]. rewrite Eid.
  rewrite fmap_cons in Hd. apply NoDup_cons in Hd as [Hn Hd].
  destruct (IH (<[idx := Some kp]> res) Hd) as (out & -> & Hlen & Hout); [|done|].
  { intros id' kp' Hin. rewrite length_insert. apply (Hm id' kp'). by right. }
  exists out. split; [done|]. rewrite length_insert in Hlen. split; [done|]. intros i.
  rewrite Hout. cbn [list_find]. case_decide as Ei.
  - assert (i = idx) as -> by congruence.
    destruct (list_find _ l) as [[j [id' kp']]|] eqn:Ef.
    + apply list_find_Some in Ef as (Hj & Ej & _). simpl in Ej. exfalso. apply Hn.
      apply list_elem_of_fmap. exists (id', kp'). split; [by apply (Hinj id id' idx)|].
      by apply list_elem_of_lookup_2 in Hj.
    + by rewrite list_lookup_insert_eq.
  - destruct (list_find _ l) as [[j [id' kp']]|]; [done|]. simpl.
    rewrite list_lookup_insert_ne; [done|congruence].
Qed.

Lemma GetInstallation_elem id d r :
  NoDup (i_ID <$> installations d) →
  GetInstallation id d = Some r ↔ r ∈ installations d ∧ i_ID r = id.
Proof.
  intros Hd. unfold GetInstallation. split.
  - by intros [? ?]%head_Some_elem_of%list_elem_of_filter.
  - intros [Hr Hid]. assert (Hf : r ∈ filter (λ r, i_ID r = id) (installations d))
      by (by apply list_elem_of_filter).
    destruct (filter _ _) as [|x l] eqn:Ef; [by apply elem_of_nil in Hf|]. simpl. f_equal.
    assert (Hx : x ∈ filter (λ r, i_ID r = id) (installations d)) by (rewrite Ef; left).
    apply list_elem_of_filter in Hx as [Ex Hx].
    apply (NoDup_fmap_fst_inj i_ID (installations d)); [done..|congruence].
Qed.

(** Key packages come back by position: the answer has an entry per requested id, the current
    key package of its installation or nothing when there is none; but of an id named more than
    once only the last position is filled. *)
Theorem key_packages_by_position ids d :
  wf_db d →
  ∃ out, FetchKeyPackages None ids d = Some (Ok out, d) ∧ length out = length ids ∧
    ∀ i id, ids !! i = Some id →
      (last_index ids i id → out !! i = Some (i_KeyPackage <$> GetInstallation id d)) ∧
      (¬ last_index ids i id → out !! i = Some None).
Proof.
  intros W. assert (Hd : NoDup (i_ID <$> installations d)) by apply W.
  unfold FetchKeyPackages, orElse, reads, pure. cbv [mbind handler_bind].
  unfold ReadStore_FetchKeyPackages, call, MlsDb.FetchKeyPackages.
  set (rows := filter _ (installations d)). set (l := (λ r, (i_ID r, i_KeyPackage r)) <$> rows).
  assert (Hl : ∀ id kp, (id, kp) ∈ l ↔ id ∈ ids ∧ i_KeyPackage <$> GetInstallation id d = Some kp).
  { intros id kp. unfold l. rewrite list_elem_of_fmap, fmap_Some.
    setoid_rewrite GetInstallation_elem; [|done]. unfold rows. split.
    - intros (r & [= -> ->] & [Hin Hr]%list_elem_of_filter). split; [done|]. by exists r.
    - intros [Hid (r & [Hr <-] & ->)]. exists r. by rewrite list_elem_of_filter. }
  assert (Hinj : ∀ id id' idx, keyPackageMap ids !! id = Some idx →
    keyPackageMap ids !! id' = Some idx → id = id')
    by (intros id id' idx [? _]%keyPackageMap_spec [? _]%keyPackageMap_spec; congruence).
  assert (Hmap : ∀ id, id ∈ ids → ∃ idx, keyPackageMap ids !! id = Some idx ∧ (idx < length ids)%nat).
  { intros id Hid. destruct (keyPackageMap ids !! id) as [idx|] eqn:E.
    - exists idx. split; [done|]. apply keyPackageMap_spec in E as [E _]. by apply lookup_lt_Some in E.
    - exfalso. apply list_elem_of_split_r in Hid as (l1 & l2 & -> & Hn).
      assert (keyPackageMap (l1 ++ id :: l2) !! id = Some (length l1)); [|congruence].
      apply keyPackageMap_spec. split; [by rewrite list_lookup_middle|].
      intros j Hj. destruct (decide (j ≤ length l1)%nat) as [|Hgt]; [done|exfalso].
      rewrite lookup_app_r in Hj by lia. apply Hn.
      destruct (j - length l1)%nat as [|k] eqn:Ek; [lia|]. simpl in Hj. by apply list_elem_of_lookup_2 in Hj. }
  destruct (placeKeyPackages_spec (keyPackageMap ids) l (replicate (length ids) None))
    as (out & -> & Hlen & Hout).
  - unfold l. rewrite <- list_fmap_compose. by apply fmap_filter_NoDup.
  - intros id kp [Hid _]%Hl. rewrite length_replicate. by apply Hmap.
  - exact Hinj.
  - rewrite length_replicate in Hlen. exists out. split_and!; [done..|]. intros i id Hi.
    assert (Hlt : (i < length ids)%nat) by (by apply lookup_lt_Some in Hi).
    rewrite Hout, lookup_replicate_2 by done. split.
    + intros Hlast. apply keyPackageMap_spec in Hlast.
      destruct (list_find _ l) as [[j [id' kp]]|] eqn:Ef.
      * apply list_find_Some in Ef as (Hj & Ej & _). simpl in Ej.
        assert (id' = id) as -> by (by apply (Hinj id' id i)).
        apply list_elem_of_lookup_2, Hl in Hj as [_ ->]. done.
      * destruct (GetInstallation id d) as [r|] eqn:Eg; [|done]. exfalso.
        apply list_find_None in Ef. rewrite Forall_forall in Ef.
        assert (Hin : (id, i_KeyPackage r) ∈ l).
        { apply Hl. rewrite Eg. split; [by apply list_elem_of_lookup_2 in Hi|done]. }
        by apply (Ef _ Hin).
    + intros Hnot. destruct (list_find _ l) as [[j [id' kp]]|] eqn:Ef; [|done]. exfalso.
      apply list_find_Some in Ef as (Hj & Ej & _). simpl in Ej.
      apply keyPackageMap_spec in Ej as [Ei Hmax]. apply Hnot. split; [done|].
      intros j'. assert (id' = id) as <- by congruence. apply Hmax.
Qed.

(** * Newest messages *)

(** A message without its content, as the metadata form of the query answers it. *)
Definition withoutContent (m : GroupMessage) : GroupMessage :=
  mkGroupMessage ((λ v, mkGroupMessage_V1 (gm_Id v) (gm_CreatedNs v) (gm_GroupId v) EmptyString
    EmptyString false (gm_IsCommit v)) <$> gm_V1 m).

(** The two forms of GetNewestGroupMessage agree: each answers every requested group, by
    position, with its newest message (or an empty entry when it has none), and the form without
    content, which runs its own query and its own conversion, answers the same messages without
    their data, hmac and push flag. *)
Theorem newest_forms_agree gs d :
  wf_db d → gs ≠ [] →
  let answer includeContent :=
    Service_GetNewestGroupMessage None (Some (mkGetNewestGroupMessage gs includeContent)) d in
  let newest := (λ g, toGroupMessage <$> last (group_rows g d)) <$> gs in
  answer true = Some (Ok newest, d) ∧
  answer false = Some (Ok ((λ m, withoutContent <$> m) <$> newest), d).
Proof.
  intros W Hgs. destruct (newest_per_group gs d W) as [E1 E2].
  unfold Service_GetNewestGroupMessage, validateGetNewestGroupMessageRequest.
  cbn [gn_GroupIds gn_IncludeContent]. rewrite bool_decide_eq_false_2 by done.
  cbv [mbind handler_bind pure orElse reads]. cbn [gn_GroupIds gn_IncludeContent].
  rewrite E1, E2. cbv [result_bind]. rewrite <- !list_fmap_compose. split.
  - do 3 f_equal.
  - do 3 f_equal. apply list_fmap_ext. intros i g _. simpl. by destruct (last (group_rows g d)).
Qed.

(** * Concrete inputs *)

(** A validation service that puts every message in the group "g". *)
Definition sampleGroupValidator (payloads : list bytes)
    : result (list ValidateGroupMessagesResponse) :=
  Ok ((λ p, mkValidateGroupMessagesResponse true EmptyString "67" (bool_decide (p = "commit")))
        <$> payloads).

Definition groupInput (data : bytes) : option GroupMessageInput :=
  Some (mkGroupMessageInput (Some (mkGroupMessageInput_V1 data "hmac" true))).

Definition fine (now : Z) (i : nat) : insertEnv := mkInsertEnv None now.
Definition failsAt (k : nat) (i : nat) : insertEnv :=
  mkInsertEnv (if decide (i = k) then Some (Plain "connection lost") else None) 7.

Lemma fine_honest now i : honest (fine now i).
Proof. by intros e. Qed.
Lemma failsAt_honest k i : honest (failsAt k i).
Proof. intros e. unfold failsAt. simpl. case_decide; [|done]. by intros [= <-]. Qed.

Definition twoMessages : option SendGroupMessagesReq :=
  Some (mkSendGroupMessages [groupInput "new"; groupInput "commit"]).

(** The first attempt loses the connection at the second message. *)
Lemma send_retry_completes_witness :
  let send := SendGroupMessages (λ b, b) sampleGroupValidator false None in
  ∃ d1 d2, send 5 (failsAt 1) twoMessages sampleDb
             = Some (Err (Status Internal "failed to insert message: %s"), d1) ∧
    send 9 (fine 9) twoMessages d1 = Some (Ok (), d2) ∧
    contents d2 = contents sampleDb
      ++ [("g", mkGroupMessageInput_V1 "new" "hmac" true, false);
          ("g", mkGroupMessageInput_V1 "commit" "hmac" true, true)].
Proof.
  intros send.
  destruct (send 5 (failsAt 1) twoMessages sampleDb) as [[r1 d1]|] eqn:E1;
    [|vm_compute in E1; discriminate].
  destruct (send 9 (fine 9) twoMessages d1) as [[r2 d2]|] eqn:E2.
  2:{ vm_compute in E1. injection E1 as <- <-. vm_compute in E2. discriminate. }
  assert (H1 : r1 = Err (Status Internal "failed to insert message: %s") ∧ r2 = Ok ()).
  { vm_compute in E1. injection E1 as <- <-. vm_compute in E2. by injection E2 as <- _. }
  destruct H1 as [-> ->]. exists d1, d2. split; [done|]. split; [done|].
  destruct (send_retry_completes (λ b, b) sampleGroupValidator false None 5 (failsAt 1) 9 (fine 9)
    twoMessages sampleDb _ d1 d2 (failsAt_honest 1) (fine_honest 9) E1 E2)
    as (items & n & Ei & _ & _ & ->).
  vm_compute in Ei. injection Ei as <-. reflexivity.
Defined.

Definition welcomeInput (key data : bytes) : option WelcomeMessageInput :=
  Some (WelcomeInputV1 (mkWelcomeInput_V1 key data "hpke" ProtoAlg.CURVE25519 EmptyString)).

(** Two goroutines run in reverse order; the request also repeats a welcome. *)
Lemma welcomes_any_interleaving_witness :
  let req := Some (mkSendWelcomeMessages
    [welcomeInput "k" "x"; welcomeInput "k" "y"; welcomeInput "k" "x"]) in
  ∃ d' rows, SendWelcomeMessages (λ b, b) false None 5 req sampleDb (Ok ()) d' ∧
    welcome_messages d' = welcome_messages sampleDb ++ rows ∧
    NoDup (w_InstallationKeyDataHash <$> rows) ∧ "ky" ∈ (w_InstallationKeyDataHash <$> rows).
Proof.
  intros req.
  set (schedule := [(welcomeInput "k" "y", fine 6 0); (welcomeInput "k" "x", fine 7 0);
                    (welcomeInput "k" "x", fine 8 0)]).
  destruct (runGoroutines (λ b, b) schedule sampleDb) as [errs d'] eqn:E.
  assert (errs = []) as -> by (vm_compute in E; by injection E).
  assert (Hs : SendWelcomeMessages (λ b, b) false None 5 req sampleDb (Ok ()) d').
  { apply (SendWelcome_ok _ _ _ _ _ _ _ schedule); [done|vm_compute; done| | |exact E].
    - simpl. apply Permutation_swap.
    - repeat (apply List.Forall_cons; [apply fine_honest|]). apply List.Forall_nil. }
  destruct (welcomes_any_interleaving (λ b, b) false None 5 req sampleDb (Ok ()) d' Hs)
    as (rows & Er & Hn & _ & Hall).
  exists d', rows. split; [done|]. split; [done|]. split; [done|].
  apply (Hall eq_refl). split; [|exists (welcomeInput "k" "y"); split; [|done]].
  - intros Hin%(bool_decide_eq_true _). vm_compute in Hin. discriminate.
  - right. left.
Defined.

Lemma key_packages_by_position_witness :
  ∃ out, FetchKeyPackages None ["k"; "nobody"; "k"] sampleDb = Some (Ok out, sampleDb) ∧
    out !! 0%nat = Some None ∧ out !! 2%nat = Some (i_KeyPackage <$> GetInstallation "k" sampleDb).
Proof.
  destruct (key_packages_by_position ["k"; "nobody"; "k"] sampleDb sampleDb_wf) as (out & E & _ & H).
  exists out. split; [done|]. split.
  - apply (H 0%nat "k" eq_refl). intros [_ Hmax]. specialize (Hmax 2%nat eq_refl). lia.
  - apply (H 2%nat "k" eq_refl). split; [done|]. intros [|[|[|j]]] Hj; try lia. discriminate.
Defined.

Lemma newest_forms_agree_witness :
  Service_GetNewestGroupMessage None (Some (mkGetNewestGroupMessage ["g"; "none"] false)) sampleDb
  = Some (Ok ((λ m, withoutContent <$> m) <$>
        ((λ g, toGroupMessage <$> last (group_rows g sampleDb)) <$> ["g"; "none"])), sampleDb).
Proof. apply (newest_forms_agree ["g"; "none"] sampleDb sampleDb_wf). done. Defined.
