(* ===== verification/Worker.v ===== *)
(** The database workers (pkg/mls/api/v1/worker.go): they poll the message tables above the last
    id they saw and hand every new row to the subscription dispatcher; and the live pipeline they
    close, from the insert of a message to the channel of a stream. *)

From S2P Require Import Prelude Topic Types MlsDb ReadStore Store Dispatcher.

(** * Polling *)

Section Poll.
Context {R : Type} (id : R → Z).
(** What becomes of a row: nothing (an unknown type), a marshalling error, or an envelope. *)
Context (emit : R → option (result Envelope)).

(** The loop over a page: the envelopes dispatched, and whether it got to the end. *)
Fixpoint dispatchRows (rows : list R) : bool * list Envelope :=
  match rows with
  | [] => (true, [])
  | r :: rows =>
      match emit r with
      | None => dispatchRows rows
      | Some (Err _) => (false, [])
      | Some (Ok env) => let '(done, envs) := dispatchRows rows in (done, env :: envs)
      end
  end.

(** One tick: the new currentID and the envelopes dispatched. *)
Definition pollPage (page : result (list R)) (currentID : Z) : Z * list Envelope :=
  match page with
  | Err _ => (currentID, [])
  | Ok rows =>
      let '(done, envs) := dispatchRows rows in
      (if done then default currentID (id <$> last rows) else currentID, envs)
  end.
End Poll.

Definition workerPageSize : Z := 500.

Section Worker.
Context (marshalGroup : GroupMessage → result bytes)
  (marshalWelcome : WelcomeMessage → result bytes).

Definition groupEmit (row : GroupMessageRow) : option (result Envelope) :=
  Some (data ← marshalGroup (toGroupMessage row);
        Ok (mkEnvelope (BuildMLSV1GroupTopic (g_GroupID row)) (u64 (g_CreatedAt row)) data)).

Definition welcomeEmit (row : WelcomeMessageRow) : option (result Envelope) :=
  welcome ← toWelcomeMessage row;
  Some (data ← marshalWelcome welcome;
        Ok (mkEnvelope (BuildMLSV1WelcomeTopic (w_InstallationKey row)) (u64 (w_CreatedAt row)) data)).

Definition groupPageAt (dbErr : option error) (currentID : Z) (d : Db)
    : result (list GroupMessageRow) :=
  call dbErr (GetAllGroupMessagesWithCursor currentID workerPageSize d).

Definition welcomePageAt (dbErr : option error) (currentID : Z) (d : Db)
    : result (list WelcomeMessageRow) :=
  call dbErr (GetAllWelcomeMessagesWithCursor currentID workerPageSize d).

(** A tick of listenForGroupMessages and of listenForWelcomeMessages. *)
Definition pollGroups (dbErr : option error) (currentID : Z) (d : Db) : Z * list Envelope :=
  pollPage g_ID groupEmit (groupPageAt dbErr currentID d) currentID.

Definition pollWelcomes (dbErr : option error) (currentID : Z) (d : Db) : Z * list Envelope :=
  pollPage w_ID welcomeEmit (welcomePageAt dbErr currentID d) currentID.

Definition getStartPoints (dbErr1 dbErr2 : option error) (d : Db) : result (Z * Z) :=
  groupMessageID ← call dbErr1 (GetLatestGroupMessageID d);
  welcomeMessageID ← call dbErr2 (GetLatestWelcomeMessageID d);
  Ok (groupMessageID, welcomeMessageID).

(** * The live pipeline

    The database, the two workers' cursors and the dispatcher. [LateCommit] is a message whose id
    was drawn before, by a transaction that commits only now: the insert's lock is per group, so
    ids of different groups need not become visible in order. *)

Record Node := mkNode {
  db : Db;
  groupCursor : Z;
  welcomeCursor : Z;
  dispatcher : SubscriptionDispatcher;
}.

#[export] Instance Node_eta : Eta Node :=
  λ n, mkNode (db n) (groupCursor n) (welcomeCursor n) (dispatcher n).

Inductive nodeEvent :=
  | PublishGroup (dbErr : option error) (now : Z) (groupId data senderHmac : bytes)
      (shouldPush isCommit : bool)
  | PublishWelcome (dbErr : option error) (now : Z) (installationId data hpkePublicKey : bytes)
      (wrapperAlgorithm : Z) (welcomeMetadata : bytes)
  | LateCommit (row : GroupMessageRow)
  | PollGroups (dbErr : option error)
  | PollWelcomes (dbErr : option error)
  | Dispatch (o : op).

Context (sha256 : bytes → bytes).

(** An event's effect, and the dispatcher operations it performs. *)
Definition stepNode (ev : nodeEvent) (n : Node) : Node * list op :=
  match ev with
  | PublishGroup dbErr now g data hmac push commit =>
      (n <| db := (Store.InsertGroupMessage sha256 dbErr now g data hmac push commit (db n)).2 |>, [])
  | PublishWelcome dbErr now key data hpke alg meta =>
      (n <| db := (Store.InsertWelcomeMessage sha256 dbErr now key data hpke alg meta (db n)).2 |>, [])
  | LateCommit row => (n <| db := db n <| group_messages := group_messages (db n) ++ [row] |> |>, [])
  | PollGroups dbErr =>
      let '(cur, envs) := pollGroups dbErr (groupCursor n) (db n) in
      let ops := (λ e, OpEnvelope (Some e)) <$> envs in
      (n <| groupCursor := cur |> <| dispatcher := foldl (flip apply_op) (dispatcher n) ops |>, ops)
  | PollWelcomes dbErr =>
      let '(cur, envs) := pollWelcomes dbErr (welcomeCursor n) (db n) in
      let ops := (λ e, OpEnvelope (Some e)) <$> envs in
      (n <| welcomeCursor := cur |> <| dispatcher := foldl (flip apply_op) (dispatcher n) ops |>, ops)
  | Dispatch o => (n <| dispatcher := apply_op o (dispatcher n) |>, [o])
  end.

Fixpoint runNode (evs : list nodeEvent) (n : Node) : Node * list op :=
  match evs with
  | [] => (n, [])
  | ev :: evs =>
      let '(n1, ops1) := stepNode ev n in
      let '(n2, ops2) := runNode evs n1 in (n2, ops1 ++ ops2)
  end.

(** The rows the group worker's ticks read. *)
Fixpoint polledRows (evs : list nodeEvent) (n : Node) : list GroupMessageRow :=
  match evs with
  | [] => []
  | ev :: evs =>
      match ev with
      | PollGroups dbErr =>
          match groupPageAt dbErr (groupCursor n) (db n) with Ok rows => rows | Err _ => [] end
      | _ => []
      end ++ polledRows evs (stepNode ev n).1
  end.
End Worker.

(** * Lemmas *)

Section PollLemmas.
Context {R : Type} (id : R → Z).
Implicit Types l : list R.

(** The rows above [s], up to [c]. *)
Definition range (s c : Z) (l : list R) : list R := filter (λ r, s < id r ∧ id r ≤ c) l.

Lemma split_at c l : ascending id l → l = filter (λ r, id r ≤ c) l ++ above id c l.
Proof.
  induction l as [|r l IH]; [done|]. intros [Hr Hl]%ascending_cons. unfold above in *.
  rewrite !filter_cons. destruct (decide (id r ≤ c)).
  - rewrite (decide_False (P:=c < id r)) by lia. simpl. by rewrite <- IH.
  - rewrite (decide_True (P:=c < id r)) by lia.
    rewrite (filter_drop_all _ l), (filter_keep _ l); [done| |].
    + intros x Hx. specialize (Hr x Hx). lia.
    + intros x Hx. specialize (Hr x Hx). lia.
Qed.

(** A page extends the range by its rows. *)
Lemma range_page s c l page rest r :
  ascending id l → s ≤ c → above id c l = page ++ rest → last page = Some r →
  range s (id r) l = range s c l ++ page ∧ c < id r ∧ r ∈ l.
Proof.
  intros Hl Hs E Hlast. pose proof (above_ascending id c l Hl) as Ha. rewrite E in Ha.
  apply ascending_app in Ha as (Hpr & Hp & _).
  assert (Hr : r ∈ page) by (by apply last_Some_elem_of).
  assert (Hrl : r ∈ above id c l) by (rewrite E; set_solver).
  apply elem_of_above in Hrl as [Hcr Hrl]. split; [|done].
  assert (Hmax : ∀ x, x ∈ page → id x ≤ id r).
  { apply last_Some in Hlast as [p ->]. apply ascending_app in Hp as (Hp & _ & _).
    intros x [Hx|Hx%list_elem_of_singleton]%elem_of_app; [|by subst].
    specialize (Hp x r Hx ltac:(left)). lia. }
  rewrite (split_at c l Hl) at 1. unfold range. rewrite filter_app. f_equal.
  - rewrite list_filter_filter. apply list_filter_iff. intros x. lia.
  - rewrite E, filter_app, filter_keep, filter_drop_all, app_nil_r; [done| |].
    + intros x Hx [_ Hle]. specialize (Hpr r x Hr Hx). lia.
    + intros x Hx. split; [|by apply Hmax].
      assert (Hxa : x ∈ above id c l) by (rewrite E; set_solver).
      apply elem_of_above in Hxa as [? _]. lia.
Qed.

Context (emit : R → option (result Envelope)).

Lemma dispatchRows_total rows :
  (∀ r, r ∈ rows → ∀ e, emit r ≠ Some (Err e)) →
  dispatchRows emit rows = (true, omap (λ r, emit r ≫= λ x, match x with Ok e => Some e | Err _ => None end) rows).
Proof.
  induction rows as [|r rows IH]; [done|]. intros H. cbn [dispatchRows omap list_omap].
  assert (Hr := H r ltac:(left)). rewrite IH by (intros; apply H; by right).
  destruct (emit r) as [[e|e]|]; [done|by destruct (Hr e)|done].
Qed.
End PollLemmas.

(** New rows sort after the old ones. *)
Lemma order_by_asc_snoc {R} (id : R → Z) (t : list R) r :
  NoDup (id <$> t) → (∀ x, x ∈ t → id x < id r) →
  order_by_asc id (t ++ [r]) = order_by_asc id t ++ [r].
Proof.
  intros Hd Hlt. apply (ascending_unique id).
  - apply order_by_asc_ascending. rewrite fmap_app. apply NoDup_app. split; [done|].
    split; [|apply NoDup_singleton]. intros z (x & -> & Hx)%list_elem_of_fmap Hz%list_elem_of_singleton.
    specialize (Hlt x Hx). simpl in Hz. lia.
  - apply ascending_app. split; [|split; [by apply order_by_asc_ascending|apply ascending_singleton]].
    intros a b Ha ->%list_elem_of_singleton. rewrite order_by_asc_Permutation in Ha. by apply Hlt.
  - by rewrite !order_by_asc_Permutation.
Qed.

(** * What the group worker dispatches *)

Section Pipeline.
Context (marshalGroup : GroupMessage → result bytes)
  (marshalWelcome : WelcomeMessage → result bytes) (sha256 : bytes → bytes).
(** Messages of bytes, integers and booleans always marshal. *)
Context (enc : GroupMessage → bytes).
Hypothesis marshal_total : ∀ m, marshalGroup m = Ok (enc m).

Abbreviation step := (stepNode marshalGroup marshalWelcome sha256).
Abbreviation run := (runNode marshalGroup marshalWelcome sha256).

Definition allGroups (d : Db) : list GroupMessageRow := order_by_asc g_ID (group_messages d).

Definition groupEnvelope (row : GroupMessageRow) : Envelope :=
  mkEnvelope (BuildMLSV1GroupTopic (g_GroupID row)) (u64 (g_CreatedAt row))
    (enc (toGroupMessage row)).

(** The envelopes on a topic among the operations of a run. *)
Definition envelopeOf (o : op) : option Envelope :=
  match o with OpEnvelope env => env | _ => None end.
Definition sentOn (t : string) (ops : list op) : list Envelope :=
  filter (λ e, ContentTopic e = t) (omap envelopeOf ops).

(** The tables' ids, and the cursor, are below the sequence. *)
Record node_ok (n : Node) : Prop := {
  ok_ids : NoDup (g_ID <$> group_messages (db n));
  ok_seq : ∀ r, r ∈ group_messages (db n) → g_ID r ≤ group_messages_seq (db n);
  ok_cursor : groupCursor n ≤ group_messages_seq (db n);
}.

(** An event in which rows become visible in id order, and which leaves the topic to the worker. *)
Definition in_order (t : string) (ev : nodeEvent) : Prop :=
  match ev with
  | LateCommit _ => False
  | Dispatch (OpEnvelope (Some env)) => ContentTopic env ≠ t
  | _ => True
  end.

Lemma groupPage_spec cur d :
  NoDup (g_ID <$> group_messages d) →
  GetAllGroupMessagesWithCursor cur workerPageSize d = take 500 (above g_ID cur (allGroups d)).
Proof.
  intros Hd. unfold GetAllGroupMessagesWithCursor, LIMIT, above, allGroups.
  by rewrite <- order_filter.
Qed.

Lemma pollGroups_spec dbErr cur d :
  NoDup (g_ID <$> group_messages d) →
  pollGroups marshalGroup dbErr cur d
  = match dbErr with
    | Some _ => (cur, [])
    | None => let page := take 500 (above g_ID cur (allGroups d)) in
              (default cur (g_ID <$> last page), groupEnvelope <$> page)
    end.
Proof.
  intros Hd. unfold pollGroups, groupPageAt. rewrite groupPage_spec by done.
  destruct dbErr as [e|]; [done|]. simpl. set (page := take 500 _). clearbody page. clear Hd.
  assert (E : dispatchRows (groupEmit marshalGroup) page = (true, groupEnvelope <$> page)).
  { induction page as [|r page IH]; [done|]. cbn [dispatchRows groupEmit].
    rewrite marshal_total. cbn. by rewrite IH. }
  by rewrite E.
Qed.

Lemma welcomeEmit_topic row e :
  welcomeEmit marshalWelcome row = Some (Ok e) →
  ∃ key, ContentTopic e = BuildMLSV1WelcomeTopic key.
Proof.
  unfold welcomeEmit. destruct (toWelcomeMessage row) as [w|]; [|done]. simpl.
  destruct (marshalWelcome w); simpl; [|done]. intros [= <-]. by eexists.
Qed.

Lemma welcome_topics g dbErr cur d :
  sentOn (BuildMLSV1GroupTopic g)
    ((λ e, OpEnvelope (Some e)) <$> (pollWelcomes marshalWelcome dbErr cur d).2) = [].
Proof.
  unfold pollWelcomes, pollPage. destruct (welcomePageAt dbErr cur d) as [rows|e]; [|done].
  assert (H : ∀ e, e ∈ (dispatchRows (welcomeEmit marshalWelcome) rows).2 →
    ContentTopic e ≠ BuildMLSV1GroupTopic g).
  { induction rows as [|r rows IH]; [by intros e ?%elem_of_nil|]. cbn [dispatchRows].
    destruct (welcomeEmit marshalWelcome r) as [[env|e]|] eqn:E;
      [|by intros e' ?%elem_of_nil|exact IH].
    destruct (dispatchRows _ rows) as [done envs]. simpl in *.
    intros e' [->|He]%elem_of_cons; [|by apply IH].
    apply welcomeEmit_topic in E as [key ->]. intros E'. by apply (group_not_welcome_topic g key). }
  destruct (dispatchRows _ rows) as [done envs]. simpl in *. unfold sentOn.
  apply filter_drop_all. intros e (o & Ho & Eo)%list_elem_of_omap.
  apply list_elem_of_fmap in Ho as (e' & -> & He'). injection Eo as ->. by apply H.
Qed.

Lemma sentOn_app t a b : sentOn t (a ++ b) = sentOn t a ++ sentOn t b.
Proof. unfold sentOn. by rewrite omap_app, filter_app. Qed.

Lemma sentOn_rows g rows :
  sentOn (BuildMLSV1GroupTopic g) ((λ e, OpEnvelope (Some e)) <$> (groupEnvelope <$> rows))
  = groupEnvelope <$> filter (λ r, g_GroupID r = g) rows.
Proof.
  unfold sentOn. induction rows as [|r rows IH]; [done|]. rewrite !fmap_cons.
  change (omap envelopeOf (OpEnvelope (Some (groupEnvelope r)) :: ?l))
    with (groupEnvelope r :: omap envelopeOf l).
  rewrite !filter_cons. destruct (decide (g_GroupID r = g)) as [E|E].
  - rewrite decide_True by (simpl; by rewrite E). rewrite fmap_cons. f_equal. exact IH.
  - rewrite decide_False; [exact IH|]. simpl. intros H%group_topic_inj. done.
Qed.

(** One event: the rows dispatched are those its cursor moves over. *)
Definition advances (g : bytes) (n n' : Node) (ops : list op) : Prop :=
  node_ok n' ∧ groupCursor n ≤ groupCursor n' ∧ ∃ rows,
    (∀ s, s ≤ groupCursor n →
       range g_ID s (groupCursor n') (allGroups (db n'))
       = range g_ID s (groupCursor n) (allGroups (db n)) ++ rows) ∧
    sentOn (BuildMLSV1GroupTopic g) ops = groupEnvelope <$> filter (λ r, g_GroupID r = g) rows.

Lemma advances_still g n n' ops :
  node_ok n → group_messages (db n') = group_messages (db n) →
  group_messages_seq (db n) ≤ group_messages_seq (db n') → groupCursor n' = groupCursor n →
  sentOn (BuildMLSV1GroupTopic g) ops = [] → advances g n n' ops.
Proof.
  intros [I1 I2 I3] E Es Ec Hops. split.
  { split; rewrite ?E, ?Ec; [done| |lia]. intros r Hr. specialize (I2 r Hr). lia. }
  split; [lia|]. exists []. split; [|done]. intros s _. unfold allGroups.
  by rewrite E, Ec, app_nil_r.
Qed.

Lemma advances_insert g n d' row :
  node_ok n → group_messages d' = group_messages (db n) ++ [row] →
  g_ID row = group_messages_seq (db n) + 1 → group_messages_seq d' = g_ID row →
  advances g n (n <| db := d' |>) [].
Proof.
  intros [I1 I2 I3] E Eid Es.
  assert (Hlt : ∀ x, x ∈ group_messages (db n) → g_ID x < g_ID row)
    by (intros x Hx; specialize (I2 x Hx); lia).
  split.
  { split; simpl; rewrite ?E, ?Es.
    - rewrite fmap_app. apply NoDup_app. split; [done|]. split; [|apply NoDup_singleton].
      intros z (x & -> & Hx)%list_elem_of_fmap Hz%list_elem_of_singleton.
      specialize (Hlt x Hx). simpl in Hz. lia.
    - intros r [Hr|Hr%list_elem_of_singleton]%elem_of_app; [specialize (Hlt r Hr); lia|by subst].
    - lia. }
  split; [done|]. exists []. split; [|done]. intros s _. rewrite app_nil_r. unfold allGroups. simpl.
  rewrite E, order_by_asc_snoc by done. unfold range. rewrite filter_app.
  rewrite (filter_drop_all _ [row]); [by rewrite app_nil_r|].
  intros r ->%list_elem_of_singleton. lia.
Qed.

Lemma advances_poll g dbErr n :
  node_ok n →
  let '(n', ops) := step (PollGroups dbErr) n in advances g n n' ops.
Proof.
  intros I. cbn [stepNode]. rewrite pollGroups_spec by apply I. destruct dbErr as [e|].
  { apply advances_still; done. }
  cbv zeta. set (page := take 500 _).
  assert (Ep : above g_ID (groupCursor n) (allGroups (db n))
               = page ++ drop 500 (above g_ID (groupCursor n) (allGroups (db n))))
    by (unfold page; by rewrite take_drop).
  destruct (last page) as [r|] eqn:El; simpl.
  2:{ apply last_None in El. rewrite El. apply advances_still; done. }
  assert (Ha : ascending g_ID (allGroups (db n))) by apply order_by_asc_ascending, I.
  destruct (range_page g_ID (groupCursor n) (groupCursor n) _ _ _ r Ha ltac:(lia) Ep El)
    as (_ & Hlt & Hr).
  unfold allGroups in Hr. rewrite order_by_asc_Permutation in Hr.
  split.
  { destruct I as [I1 I2 I3]. split; simpl; [done..|]. by apply I2. }
  simpl. split; [lia|]. exists page. split; [|apply sentOn_rows].
  intros s Hs. by destruct (range_page g_ID s (groupCursor n) _ _ _ r Ha Hs Ep El) as (-> & _).
Qed.

Lemma advances_step g ev n :
  node_ok n → in_order (BuildMLSV1GroupTopic g) ev →
  let '(n', ops) := step ev n in advances g n n' ops.
Proof.
  intros I Hev. destruct ev as [dbErr now gr data hmac push commit|dbErr now key data hpke alg meta|
    row|dbErr|dbErr|o]; [| |done|by apply advances_poll| |].
  - cbn [stepNode]. unfold Store.InsertGroupMessage, insert.
    destruct dbErr as [e|]; [by apply advances_still|]. unfold MlsDb.InsertGroupMessage.
    simpl. case_bool_decide; simpl.
    + apply advances_still; simpl; try done. lia.
    + eapply advances_insert; done.
  - cbn [stepNode]. unfold Store.InsertWelcomeMessage, insert.
    destruct dbErr as [e|]; [by apply advances_still|].
    unfold MlsDb.InsertWelcomeMessage, insert_welcome. simpl. case_bool_decide; by apply advances_still.
  - cbn [stepNode]. pose proof (welcome_topics g dbErr (welcomeCursor n) (db n)) as Hw.
    destruct (pollWelcomes _ _ _ _) as [cur envs]. by apply advances_still.
  - cbn [stepNode]. apply advances_still; try done. unfold sentOn. cbn.
    destruct o as [[env|]| | | | | |]; try done. simpl. simpl in Hev.
    by rewrite filter_cons_False.
Qed.

Lemma advances_run g evs n :
  node_ok n → Forall (in_order (BuildMLSV1GroupTopic g)) evs →
  let '(n', ops) := run evs n in advances g n n' ops.
Proof.
  revert n. induction evs as [|ev evs IH]; intros n I; [intros _; by apply advances_still|].
  intros [Hev Hevs]%Forall_cons. cbn [runNode].
  pose proof (advances_step g ev n I Hev) as H1.
  destruct (step ev n) as [n1 ops1]. destruct H1 as (I1 & Hc1 & rows1 & Hr1 & Hs1).
  specialize (IH n1 I1 Hevs). destruct (run evs n1) as [n2 ops2].
  destruct IH as (I2 & Hc2 & rows2 & Hr2 & Hs2). split; [done|]. split; [lia|].
  exists (rows1 ++ rows2). split.
  - intros s Hs. by rewrite Hr2, Hr1, app_assoc by lia.
  - by rewrite sentOn_app, Hs1, Hs2, filter_app, fmap_app.
Qed.

Lemma runNode_dispatcher evs n :
  let '(n', ops) := run evs n in dispatcher n' = foldl (flip apply_op) (dispatcher n) ops.
Proof.
  revert n. induction evs as [|ev evs IH]; intros n; [done|]. cbn [runNode].
  assert (H1 : let '(n1, ops1) := step ev n in
    dispatcher n1 = foldl (flip apply_op) (dispatcher n) ops1).
  { destruct ev as [| |row|dbErr|dbErr|o]; try done; cbn [stepNode].
    - by destruct (pollGroups _ _ _ _).
    - by destruct (pollWelcomes _ _ _ _). }
  destruct (step ev n) as [n1 ops1]. specialize (IH n1).
  destruct (run evs n1) as [n2 ops2]. by rewrite foldl_app, <- H1.
Qed.
End Pipeline.

Lemma run_dispatcher k ops d : (Dispatcher.run k ops d).1.1 = foldl (flip apply_op) d ops.
Proof.
  revert d. induction ops as [|o ops IH]; intros d; [done|]. cbn [Dispatcher.run foldl flip].
  rewrite <- IH. by destruct (Dispatcher.run k ops (apply_op o d)) as [[? ?] ?].
Qed.

(** ** The consumer's side *)

(** An operation that does not change what subscription [k] selects. *)
Definition keeps_topics (k : nat) (o : op) : Prop :=
  match o with OpAdd k' _ | OpRemove k' _ => k' ≠ k | _ => True end.

Lemma offer_selects env k' k d s :
  objects d !! k = Some s →
  ∃ s', objects (offer env k' d) !! k = Some s' ∧ topics s' = topics s ∧ all s' = all s.
Proof.
  intros Hs. unfold offer. destruct (decide (k' = k)) as [->|Hne].
  - rewrite Hs. destruct (selects s env); [|by exists s].
    case_bool_decide; simpl; rewrite lookup_insert_eq; by eexists.
  - destruct (objects d !! k') as [s1|]; [|by exists s]. destruct (selects s1 env); [|by exists s].
    case_bool_decide; simpl; rewrite lookup_insert_ne by done; by exists s.
Qed.

Lemma apply_op_selects k o d s :
  objects d !! k = Some s → (k < nextSub d)%nat → keeps_topics k o →
  (k < nextSub (apply_op o d))%nat ∧
  ∃ s', objects (apply_op o d) !! k = Some s' ∧ topics s' = topics s ∧ all s' = all s.
Proof.
  intros Hs Hk Ho.
  assert (Hreg : ∀ s0, (k < nextSub (register s0 d))%nat ∧ ∃ s',
    objects (register s0 d) !! k = Some s' ∧ topics s' = topics s ∧ all s' = all s).
  { intros s0. simpl. split; [lia|]. rewrite lookup_insert_ne by lia. by exists s. }
  destruct o as [[env|]|ts|n|k'|k' ts|k' ts|k']; try (by apply Hreg); try (split; [done|by exists s]).
  - split; [unfold apply_op; by rewrite HandleEnvelope_next|]. simpl.
    generalize (elements (subscriptions d)). intros ks. revert d s Hs Hk Hreg.
    induction ks as [|k' ks IH]; intros d s Hs Hk _; [by exists s|]. simpl.
    destruct (offer_selects env k' k d s Hs) as (s1 & Hs1 & <- & <-).
    apply (IH _ s1 Hs1); [|].
    + pose proof (HandleEnvelope_next (Some env) d). unfold offer.
      destruct (objects d !! k'); [|done]. destruct (selects _ _); [|done]. by case_bool_decide.
    + intros s0. simpl. assert (k < nextSub (offer env k' d))%nat.
      { unfold offer. destruct (objects d !! k'); [|done]. destruct (selects _ _); [|done].
        by case_bool_decide. }
      split; [lia|]. rewrite lookup_insert_ne by lia. by exists s1.
  - split; [done|]. simpl. rewrite lookup_alter_ne by done. by exists s.
  - split; [done|]. simpl. rewrite lookup_alter_ne by done. by exists s.
  - unfold apply_op, receive.
    destruct (objects d !! k') as [s1|] eqn:E1; [|split; [done|by exists s]].
    destruct (MessagesCh s1) as [|env rest]; simpl; (split; [done|]); [by exists s|].
    destruct (decide (k' = k)) as [->|Hne].
    + rewrite lookup_alter_eq, Hs. simpl. by eexists.
    + rewrite lookup_alter_ne by done. by exists s.
Qed.

(** What a subscription that selects a topic is offered on it is everything sent on it. *)
Lemma offered_on k t ops d s :
  objects d !! k = Some s → (k < nextSub d)%nat → Forall (keeps_topics k) ops →
  (∀ e, ContentTopic e = t → selects s e = true) →
  filter (λ e, ContentTopic e = t) (Dispatcher.run k ops d).2 = sentOn t ops.
Proof.
  revert d s. induction ops as [|o ops IH]; intros d s Hs Hk; [done|].
  intros [Ho Hops]%Forall_cons Hsel. cbn [Dispatcher.run].
  destruct (apply_op_selects k o d s Hs Hk Ho) as (Hk' & s' & Hs' & Et & Ea).
  specialize (IH (apply_op o d) s' Hs' Hk' Hops).
  assert (Hsel' : ∀ e, ContentTopic e = t → selects s' e = true).
  { intros e He. specialize (Hsel e He). unfold selects in *. by rewrite Et, Ea. }
  specialize (IH Hsel'). destruct (Dispatcher.run k ops (apply_op o d)) as [[d' rs] os].
  simpl in *. rewrite filter_app, IH. change (o :: ops) with ([o] ++ ops). rewrite sentOn_app.
  f_equal. unfold offered, sentOn. rewrite Hs. destruct o as [[env|]| | | | | |]; try done.
  change (omap envelopeOf [OpEnvelope (Some env)]) with [env].
  destruct (decide (ContentTopic env = t)) as [E|E].
  - by rewrite (Hsel env E).
  - rewrite (filter_cons_False _ env) by done. destruct (selects s env); [|done].
    by rewrite filter_cons_False.
Qed.

(** * Properties *)

Lemma range_group_rows g s c d :
  NoDup (g_ID <$> group_messages d) →
  filter (λ r, g_GroupID r = g) (range g_ID s c (allGroups d)) = range g_ID s c (group_rows g d).
Proof.
  intros Hd. unfold range, allGroups, group_rows. rewrite !order_filter by done.
  rewrite !list_filter_filter. apply list_filter_iff. intros r. tauto.
Qed.

Definition untouched (k : nat) (ev : nodeEvent) : Prop :=
  match ev with Dispatch o => keeps_topics k o | _ => True end.

Lemma runNode_keeps marshalGroup marshalWelcome sha256 k evs n :
  Forall (untouched k) evs →
  Forall (keeps_topics k) (runNode marshalGroup marshalWelcome sha256 evs n).2.
Proof.
  revert n. induction evs as [|ev evs IH]; intros n; [constructor|].
  intros [Hev Hevs]%Forall_cons. cbn [runNode].
  assert (H1 : Forall (keeps_topics k) (stepNode marshalGroup marshalWelcome sha256 ev n).2).
  { assert (Henv : ∀ envs, Forall (keeps_topics k) ((λ e, OpEnvelope (Some e)) <$> envs))
      by (intros; by apply Forall_fmap, Forall_true).
    destruct ev as [| | |dbErr|dbErr|o]; cbn [stepNode]; try constructor.
    - destruct (pollGroups _ _ _ _). apply Henv.
    - destruct (pollWelcomes _ _ _ _). apply Henv.
    - done.
    - constructor. }
  destruct (stepNode _ _ _ ev n) as [n1 ops1]. specialize (IH n1 Hevs).
  destruct (runNode _ _ _ evs n1) as [n2 ops2]. simpl in *. by apply Forall_app.
Qed.

(** C7. From insert to stream. While messages become visible in id order, a consumer subscribed to
    a group's topic finds on it, received or still in its channel, exactly the messages of the
    group that were published since the worker's starting cursor and that the worker has reached,
    each once and in id order: all of them while its subscription is registered, a prefix when it
    was dropped. Publishes that fail or are duplicates, failed polls, other topics, other streams
    and welcomes change nothing to it. *)
Theorem live_pipeline marshalGroup marshalWelcome sha256 enc g k s evs n :
  (∀ m, marshalGroup m = Ok (enc m)) → node_ok n →
  Forall (in_order (BuildMLSV1GroupTopic g)) evs → Forall (untouched k) evs →
  objects (dispatcher n) !! k = Some s → (k < nextSub (dispatcher n))%nat →
  k ∈ subscriptions (dispatcher n) → closed s = false → MessagesCh s = [] → 0 ≤ capacity s →
  (∀ e, ContentTopic e = BuildMLSV1GroupTopic g → selects s e = true) →
  let '(n', ops) := runNode marshalGroup marshalWelcome sha256 evs n in
  let '(d', got, _) := Dispatcher.run k ops (dispatcher n) in
  let expected := groupEnvelope enc <$>
    range g_ID (groupCursor n) (groupCursor n') (group_rows g (db n')) in
  d' = dispatcher n' ∧
  ∃ s', objects d' !! k = Some s' ∧
    filter (λ e, ContentTopic e = BuildMLSV1GroupTopic g) (got ++ MessagesCh s')
      `prefix_of` expected ∧
    (k ∈ subscriptions d' →
     filter (λ e, ContentTopic e = BuildMLSV1GroupTopic g) (got ++ MessagesCh s') = expected).
Proof.
  intros Hm I Hin Hun Hs Hk Hreg Hcl Hch Hcap Hsel.
  pose proof (advances_run marshalGroup marshalWelcome sha256 enc Hm g evs n I Hin) as Ha.
  pose proof (runNode_dispatcher marshalGroup marshalWelcome sha256 evs n) as Hd.
  pose proof (runNode_keeps marshalGroup marshalWelcome sha256 k evs n Hun) as Hkeep.
  destruct (runNode _ _ _ evs n) as [n' ops]. simpl in Hkeep.
  destruct Ha as (I' & _ & rows & Hr & Hsent).
  pose proof (run_dispatcher k ops (dispatcher n)) as Hd'.
  pose proof (offered_on k _ ops (dispatcher n) s Hs Hk Hkeep Hsel) as Hoff.
  assert (Hacc : accounted k (dispatcher n) []) by (exists s; split_and!; try done; simpl; lia).
  pose proof (run_account k ops (dispatcher n) [] Hacc) as Hrun.
  destruct (Dispatcher.run k ops (dispatcher n)) as [[d' got] os]. simpl in *.
  split; [by rewrite Hd', Hd|].
  destruct Hrun as (rest & (s' & Hs' & _ & <- & _) & [post Hp] & Hi & _). exists s'.
  split; [done|]. specialize (Hr (groupCursor n) ltac:(lia)).
  assert (E0 : range g_ID (groupCursor n) (groupCursor n) (allGroups (db n)) = [])
    by (apply filter_drop_all; intros; lia).
  rewrite E0 in Hr. simpl in Hr.
  rewrite <- range_group_rows, Hr, <- Hsent, <- Hoff by apply I'. split.
  - exists (filter (λ e, ContentTopic e = BuildMLSV1GroupTopic g) post).
    by rewrite Hp, filter_app.
  - intros Hsub. by destruct (Hi Hsub) as [_ ->].
Qed.

(** The group worker catches up: with [m] ticks that succeed, and nothing published meanwhile,
    it dispatches every message above its cursor (at most 500 per tick), once and in id order, and
    none is left. *)
Theorem worker_catches_up marshalGroup marshalWelcome sha256 enc m n :
  (∀ m, marshalGroup m = Ok (enc m)) → node_ok n →
  (length (above g_ID (groupCursor n) (allGroups (db n))) ≤ 500 * m)%nat →
  let '(n', ops) := runNode marshalGroup marshalWelcome sha256 (replicate m (PollGroups None)) n in
  db n' = db n ∧
  ops = (λ e, OpEnvelope (Some e))
          <$> (groupEnvelope enc <$> above g_ID (groupCursor n) (allGroups (db n))) ∧
  above g_ID (groupCursor n') (allGroups (db n)) = [].
Proof.
  intros Hm. revert n. induction m as [|m IH]; intros n I Hlen.
  { assert (E : above g_ID (groupCursor n) (allGroups (db n)) = [])
      by (apply length_zero_iff_nil; lia). simpl. by rewrite E. }
  change (replicate (S m) (PollGroups None)) with (PollGroups None :: replicate m (PollGroups None)).
  cbn [runNode].
  pose proof (advances_poll marshalGroup marshalWelcome sha256 enc Hm EmptyString None n I) as Ha.
  cbn [stepNode] in *. rewrite (pollGroups_spec _ enc Hm) in * by apply I.
  assert (Hasc : ascending g_ID (allGroups (db n))) by apply order_by_asc_ascending, I.
  cbv beta zeta iota in *. remember (take 500 (above g_ID (groupCursor n) (allGroups (db n))))
    as page eqn:Ep.
  set (n1 := n <| groupCursor := _ |> <| dispatcher := _ |>) in *. destruct Ha as (I1 & _).
  assert (Hnext : above g_ID (groupCursor n1) (allGroups (db n1))
                  = drop 500 (above g_ID (groupCursor n) (allGroups (db n)))).
  { unfold n1. simpl. destruct (last page) as [r|] eqn:El; simpl.
    - apply page_next; [done|by rewrite <- Ep].
    - apply last_None in El. rewrite El in Ep.
      assert (E : above g_ID (groupCursor n) (allGroups (db n)) = []).
      { destruct (above g_ID (groupCursor n) (allGroups (db n))); done. }
      by rewrite E. }
  specialize (IH n1 I1). rewrite Hnext, length_drop in IH. specialize (IH ltac:(lia)).
  destruct (runNode _ _ _ (replicate m (PollGroups None)) n1) as [n2 ops2].
  destruct IH as (Edb & -> & Enone). split; [done|]. split; [|done].
  rewrite <- !fmap_app. by rewrite Ep, take_drop.
Qed.

(** ** Commits out of order *)

Lemma pollGroups_cursor marshalGroup dbErr cur d :
  cur ≤ (pollGroups marshalGroup dbErr cur d).1.
Proof.
  unfold pollGroups, pollPage, groupPageAt, call. destruct dbErr as [e|]; [done|].
  destruct (dispatchRows _ _) as [[] envs]; simpl; [|lia].
  destruct (last _) as [r|] eqn:El; simpl; [|lia].
  apply last_Some_elem_of in El. unfold GetAllGroupMessagesWithCursor, LIMIT in El.
  apply elem_of_take in El as (i & El%list_elem_of_lookup_2 & _).
  rewrite order_by_asc_Permutation in El. apply list_elem_of_filter in El as [? _]. lia.
Qed.

(** A message whose transaction commits after the worker has passed its id is lost to the live
    lane: whatever happens afterwards, no tick reads its row, although the row is stored. (Ids are
    drawn from one sequence, but the lock that orders commits is per group.) *)
Theorem late_commit_lost marshalGroup marshalWelcome sha256 row evs n :
  g_ID row ≤ groupCursor n →
  let n1 := (stepNode marshalGroup marshalWelcome sha256 (LateCommit row) n).1 in
  row ∈ group_messages (db n1) ∧ (row ∉ polledRows marshalGroup marshalWelcome sha256 evs n1).
Proof.
  intros Hle n1. split; [simpl; set_solver|].
  assert (Hn1 : g_ID row ≤ groupCursor n1) by done. clearbody n1. clear Hle n. revert n1 Hn1.
  induction evs as [|ev evs IH]; intros n Hle; [by intros ?%elem_of_nil|]. cbn [polledRows].
  intros [Hin|Hin]%elem_of_app.
  - destruct ev as [| | |dbErr| |]; try by apply elem_of_nil in Hin.
    unfold groupPageAt, call in Hin. destruct dbErr as [e|]; [by apply elem_of_nil in Hin|].
    unfold GetAllGroupMessagesWithCursor, LIMIT in Hin.
    apply elem_of_take in Hin as (i & Hin%list_elem_of_lookup_2 & _).
    rewrite order_by_asc_Permutation in Hin. apply list_elem_of_filter in Hin as [? _]. lia.
  - revert Hin. apply IH. destruct ev as [| | |dbErr|dbErr|]; try done; cbn [stepNode].
    + pose proof (pollGroups_cursor marshalGroup dbErr (groupCursor n) (db n)).
      destruct (pollGroups _ _ _ _). simpl in *. lia.
    + by destruct (pollWelcomes _ _ _ _).
Qed.

(** * Concrete inputs *)

(** A wire codec for the witnesses: a message as a number, in binary. *)
#[export] Instance GroupMessage_V1_countable : Countable GroupMessage_V1 :=
  inj_countable' (λ m, (gm_Id m, gm_CreatedNs m, gm_GroupId m, gm_Data m, gm_SenderHmac m,
      gm_ShouldPush m, gm_IsCommit m))
    (λ '(a, b, c, d, e, f, g), mkGroupMessage_V1 a b c d e f g) (λ m, match m with mkGroupMessage_V1 _ _ _ _ _ _ _ => eq_refl end).
#[export] Instance GroupMessage_countable : Countable GroupMessage :=
  inj_countable' gm_V1 mkGroupMessage (λ m, match m with mkGroupMessage _ => eq_refl end).

Fixpoint posBytes (p : positive) : bytes :=
  match p with
  | xH => ""
  | xO p => String dash (posBytes p)
  | xI p => String slash (posBytes p)
  end.

Fixpoint bytesPos (b : bytes) : positive :=
  match b with
  | "" => xH
  | String a b => if decide (a = dash) then xO (bytesPos b) else xI (bytesPos b)
  end%string.

Lemma bytesPos_posBytes p : bytesPos (posBytes p) = p.
Proof. induction p as [p IH|p IH|]; simpl; [by rewrite IH..|done]. Qed.

Definition codecEnc (m : GroupMessage) : bytes := posBytes (encode m).
Definition codecDec (b : bytes) : result GroupMessage :=
  match decode (bytesPos b) with Some m => Ok m | None => Err (Plain "proto: cannot parse") end.

Lemma codec_ok m : codecDec (codecEnc m) = Ok m.
Proof. unfold codecDec, codecEnc. by rewrite bytesPos_posBytes, decode_encode. Qed.

(** An envelope the relay hands to the dispatcher, of an older protocol. *)
Definition relayed : Envelope := mkEnvelope "/xmtp/0/m-1/proto" 0 "v2".

Definition sampleNode : Node :=
  mkNode sampleDb 4 3 (Add 0 [BuildMLSV1GroupTopic "g"] (NewSubscription 5 NewSubscriptionDispatcher)).

Lemma sampleNode_ok : node_ok sampleNode.
Proof.
  destruct (wf_group_ids sampleDb sampleDb_wf) as (H1 & H2 & _). split; simpl; [done| |done].
  intros r Hr. specialize (H2 r Hr). simpl in H2. lia.
Qed.

Definition sampleMarshal (m : GroupMessage) : result bytes := Ok (groupData m).

Definition pipelineEvents : list nodeEvent :=
  [PublishGroup None 5 "g" "one" "" true false; PollGroups (Some (Plain "down"));
   PublishGroup None 6 "h" "other" "" true false; PollGroups None;
   PublishGroup None 7 "g" "two" "" true false; PublishGroup None 8 "g" "two" "" true false;
   Dispatch (OpReceive 0); PollGroups None].

Lemma live_pipeline_witness :
  let '(n', ops) := runNode sampleMarshal (λ _, Ok "") (λ b, b) pipelineEvents sampleNode in
  let '(d', got, _) := Dispatcher.run 0 ops (dispatcher sampleNode) in
  ∃ s', objects d' !! 0%nat = Some s' ∧
    filter (λ e, ContentTopic e = BuildMLSV1GroupTopic "g") (got ++ MessagesCh s')
      = groupEnvelope groupData <$> range g_ID 4 (groupCursor n') (group_rows "g" (db n')) ∧
    (Message <$> got, Message <$> MessagesCh s') = (["one"], ["two"]).
Proof.
  pose proof (live_pipeline sampleMarshal (λ _, Ok "") (λ b, b) groupData "g" 0
    (mkSubscription [] 1024 false {[BuildMLSV1GroupTopic "g" := true]} false) pipelineEvents
    sampleNode (λ m, eq_refl) sampleNode_ok) as H.
  assert (H1 : Forall (in_order (BuildMLSV1GroupTopic "g")) pipelineEvents)
    by (repeat (apply List.Forall_cons; [exact I|]); apply List.Forall_nil).
  assert (H2 : Forall (untouched 0) pipelineEvents)
    by (repeat (apply List.Forall_cons; [exact I|]); apply List.Forall_nil).
  specialize (H H1 H2 ltac:(vm_compute; reflexivity) ltac:(vm_compute; lia)
    ltac:(apply (bool_decide_unpack _); vm_compute; exact I) eq_refl eq_refl
    ltac:(vm_compute; discriminate)).
  assert (H3 : ∀ e, ContentTopic e = BuildMLSV1GroupTopic "g" → selects
    (mkSubscription [] 1024 false {[BuildMLSV1GroupTopic "g" := true]} false) e = true).
  { intros e He. unfold selects. simpl. rewrite He. vm_compute. reflexivity. }
  specialize (H H3). destruct (runNode _ _ _ pipelineEvents sampleNode) as [n' ops] eqn:En.
  destruct (Dispatcher.run 0 ops (dispatcher sampleNode)) as [[d' got] os] eqn:Ed.
  destruct H as (_ & s' & Hs' & _ & Heq). exists s'. split; [done|].
  vm_compute in En. injection En as <- <-. vm_compute in Ed. injection Ed as <- <- <-.
  split.
  - apply Heq. apply (bool_decide_unpack _). vm_compute. exact I.
  - vm_compute in Hs'. injection Hs' as <-. vm_compute. reflexivity.
Defined.

Lemma worker_catches_up_witness :
  let run := runNode sampleMarshal (λ _, Ok "") (λ b, b) (replicate 1 (PollGroups None))
    (sampleNode <| groupCursor := 0 |>) in
  above g_ID (groupCursor run.1) (allGroups sampleDb) = [] ∧ length run.2 = 4%nat.
Proof.
  assert (Hok : node_ok (sampleNode <| groupCursor := 0 |>)).
  { destruct sampleNode_ok as [H1 H2 H3]. split; [exact H1|exact H2|vm_compute; discriminate]. }
  pose proof (worker_catches_up sampleMarshal (λ _, Ok "") (λ b, b) groupData 1
    (sampleNode <| groupCursor := 0 |>) (λ m, eq_refl) Hok ltac:(vm_compute; lia)) as H.
  intros run. fold run in H. destruct run as [n' ops]. destruct H as (_ & -> & H).
  split; [exact H|]. vm_compute. reflexivity.
Defined.

(** Id 5 was drawn by a transaction still open when id 6 was committed and dispatched. *)
Lemma late_commit_lost_witness :
  let run := runNode sampleMarshal (λ _, Ok "") (λ b, b) in
  let row := mkGroupMessageRow 5 1 "late" "m" "h" (Some false) "" (Some true) in
  let n := (run [PublishGroup None 5 "g" "one" "" true false; PollGroups None]
    (sampleNode <| db := sampleDb <| group_messages_seq := 5 |> |>)).1 in
  let n1 := (stepNode sampleMarshal (λ _, Ok "") (λ b, b) (LateCommit row) n).1 in
  row ∈ group_messages (db n1) ∧
  (row ∉ polledRows sampleMarshal (λ _, Ok "") (λ b, b) pipelineEvents n1).
Proof.
  intros run row n. apply (late_commit_lost sampleMarshal (λ _, Ok "") (λ b, b)).
  vm_compute. discriminate.
Defined.
