(* ===== verification/LiveRows.v ===== *)
(** What a subscription of the dispatcher gets of one group, row by row: the publishers' inserts,
    the worker's polls and the dispatch to the subscription's channel as one account ([inPipe]),
    which the streams that read the channel share. *)

From S2P Require Import Prelude Topic Types MlsDb ReadStore Store Dispatcher Worker.

Section LiveRows.
Context (marshalGroup : GroupMessage → result bytes) (marshalWelcome : WelcomeMessage → result bytes)
  (sha256 : bytes → bytes) (enc : GroupMessage → bytes).
Hypothesis marshal_total : ∀ m, marshalGroup m = Ok (enc m).
Context (g : bytes).

Local Abbreviation nodeStep := (stepNode marshalGroup marshalWelcome sha256).

(** The group's rows, in order, and their messages. *)
Definition rowsOf (n : Node) : list GroupMessageRow := group_rows g (db n).
Definition seqOf (n : Node) : Z := group_messages_seq (db n).
Definition conv (rows : list GroupMessageRow) : list GroupMessage := toGroupMessage <$> rows.

Definition keyedNode (n : Node) : Prop := keyed g_ID (seqOf n) (group_messages (db n)).

(** Events in which rows become visible in id order, only the workers dispatch on topics of the MLS
    API (the relay shares the dispatcher, and may dispatch anything else at any time), and only its
    consumer touches subscription [k]. Rows that become visible out of order ([LateCommit]) are
    passed over by the worker's cursor ([late_commit_lost] in Worker.v). *)
Definition smoothNode (k : nat) (ev : nodeEvent) : Prop :=
  match ev with
  | LateCommit _ => False
  | Dispatch (OpEnvelope (Some env)) => IsMLSV1 (ContentTopic env) = false
  | Dispatch (OpAdd k' _) | Dispatch (OpRemove k' _) | Dispatch (OpReceive k') => k' ≠ k
  | _ => True
  end.

(** ** Rows only grow *)

Definition grows (n n' : Node) : Prop :=
  ∃ new, rowsOf n' = rowsOf n ++ new ∧ seqOf n ≤ seqOf n' ∧
    ∀ r, r ∈ new → seqOf n < g_ID r ≤ seqOf n'.

Lemma rows_elem n r : r ∈ rowsOf n ↔ g_GroupID r = g ∧ r ∈ group_messages (db n).
Proof. unfold rowsOf, group_rows. by rewrite order_by_asc_Permutation, list_elem_of_filter. Qed.

Lemma rows_ascending n : keyedNode n → ascending g_ID (rowsOf n).
Proof. intros [Hd _]. by apply order_by_asc_ascending, fmap_filter_NoDup. Qed.

Lemma rows_bounds n r : keyedNode n → r ∈ rowsOf n → 0 < g_ID r ≤ seqOf n ∧ g_ID r ≤ maxInt64.
Proof. intros (_ & H & ?) [_ Hr]%rows_elem. specialize (H r Hr). lia. Qed.

Lemma row_above r :
  0 < g_ID r ≤ maxInt64 →
  groupGroupId (toGroupMessage r) = g_GroupID r ∧ groupID (toGroupMessage r) = g_ID r.
Proof. intros H. split; [done|]. apply u64_small. unfold_widths. lia. Qed.

Lemma grows_refl n : grows n n.
Proof. exists []. rewrite app_nil_r. split; [done|]. split; [lia|]. by intros r ?%elem_of_nil. Qed.

Lemma grows_same n n' :
  group_messages (db n') = group_messages (db n) → seqOf n ≤ seqOf n' → grows n n'.
Proof.
  intros E Hs. exists []. unfold rowsOf, group_rows. rewrite E, app_nil_r. split; [done|].
  split; [done|]. by intros r ?%elem_of_nil.
Qed.

Lemma grows_trans n1 n2 n3 : grows n1 n2 → grows n2 n3 → grows n1 n3.
Proof.
  intros (new1 & E1 & H1 & N1) (new2 & E2 & H2 & N2). exists (new1 ++ new2).
  rewrite E2, E1, app_assoc. split; [done|]. split; [lia|].
  intros r [Hr|Hr]%elem_of_app; [specialize (N1 r Hr)|specialize (N2 r Hr)]; lia.
Qed.

(** Ranges within the sequence are settled. *)
Lemma range_grows n n' s w :
  grows n n' → w ≤ Z.max s (seqOf n) → range g_ID s w (rowsOf n') = range g_ID s w (rowsOf n).
Proof.
  intros (new & E & _ & Hnew) Hw. rewrite E. unfold range. rewrite filter_app.
  rewrite (filter_drop_all _ new), app_nil_r; [done|]. intros r Hr. specialize (Hnew r Hr). lia.
Qed.

(** A row at or below the sequence was there already. *)
Lemma grows_old n n' r : grows n n' → r ∈ rowsOf n' → g_ID r ≤ seqOf n → r ∈ rowsOf n.
Proof.
  intros (new & E & _ & Hnew). rewrite E. intros [Hr|Hr]%elem_of_app Hle; [done|].
  specialize (Hnew r Hr). lia.
Qed.

Lemma node_grows k ev n :
  smoothNode k ev → keyedNode n → seqOf (nodeStep ev n).1 ≤ maxInt64 →
  grows n (nodeStep ev n).1 ∧ keyedNode (nodeStep ev n).1.
Proof.
  intros Hev Hk Hmax. unfold keyedNode in *.
  assert (Hsame : ∀ n', group_messages (db n') = group_messages (db n) → seqOf n' = seqOf n →
    grows n n' ∧ keyed g_ID (seqOf n') (group_messages (db n'))).
  { intros n' E1 E2. split; [apply grows_same; [done|lia]|by rewrite E1, E2]. }
  destruct ev as [dbErr now gr data hmac push commit|dbErr now key data hpke alg meta|
    row|dbErr|dbErr|o]; [| |done|..]; cbn [stepNode] in *.
  - unfold Store.InsertGroupMessage, insert in *.
    destruct dbErr as [e|]; [by apply Hsame|]. unfold MlsDb.InsertGroupMessage in *.
    simpl in *. case_bool_decide; simpl in *; unfold seqOf in *; simpl in *.
    + split; [apply grows_same; unfold seqOf; simpl; [done|lia]|by apply keyed_consume].
    + pose proof Hk as (Hd & Hlt & _). split; [|by apply keyed_insert].
      set (row := {| g_ID := _ |}). unfold grows, rowsOf, group_rows, seqOf. simpl.
      rewrite filter_app, filter_cons, filter_nil. case_decide.
      * exists [row]. rewrite order_by_asc_snoc; [|by apply fmap_filter_NoDup|].
        -- split; [done|]. split; [lia|]. intros r ->%list_elem_of_singleton. simpl. lia.
        -- intros x [_ Hx]%list_elem_of_filter. specialize (Hlt x Hx). simpl. lia.
      * exists []. rewrite !app_nil_r. split; [done|]. split; [lia|]. by intros r ?%elem_of_nil.
  - unfold Store.InsertWelcomeMessage, insert in *. destruct dbErr as [e|]; [by apply Hsame|].
    unfold MlsDb.InsertWelcomeMessage, insert_welcome in *. simpl in *.
    case_bool_decide; by apply Hsame.
  - destruct (pollGroups _ _ _ _). by apply Hsame.
  - destruct (pollWelcomes _ _ _ _). by apply Hsame.
  - by apply Hsame.
Qed.

Lemma nodeStep_seq ev n : seqOf n ≤ seqOf (nodeStep ev n).1.
Proof.
  unfold seqOf. destruct ev as [dbErr now gr data hmac push commit|dbErr now key data hpke alg meta|
    row|dbErr|dbErr|o]; cbn [stepNode]; try done.
  - unfold Store.InsertGroupMessage, insert. destruct dbErr; [done|].
    unfold MlsDb.InsertGroupMessage. simpl. case_bool_decide; simpl; lia.
  - unfold Store.InsertWelcomeMessage, insert. destruct dbErr; [done|].
    unfold MlsDb.InsertWelcomeMessage, insert_welcome. simpl. by case_bool_decide.
  - by destruct (pollGroups _ _ _ _).
  - by destruct (pollWelcomes _ _ _ _).
Qed.

(** ** What the workers put in the channel *)

(** An envelope of a worker: a group's message, or something on a welcome topic. *)
Definition fromWorker (e : Envelope) : Prop :=
  (∃ r, e = groupEnvelope enc r) ∨ ∃ key, ContentTopic e = BuildMLSV1WelcomeTopic key.

(** An envelope the workers have dispatched by now. *)
Definition settledEnvelope (n : Node) (e : Envelope) : Prop :=
  (∃ r, r ∈ group_messages (db n) ∧ g_ID r ≤ groupCursor n ∧ e = groupEnvelope enc r) ∨
  ∃ key, ContentTopic e = BuildMLSV1WelcomeTopic key.

Lemma settled_from n e : settledEnvelope n e → fromWorker e.
Proof. intros [(r & _ & _ & ->)|H]; [left; by eexists|by right]. Qed.

(** An operation on the dispatcher that leaves [k]'s channel to its consumer and offers, on topics
    of the MLS API, only what is good. *)
Definition opIn (k : nat) (good : Envelope → Prop) (o : op) : Prop :=
  match o with
  | OpEnvelope (Some e) => good e ∨ IsMLSV1 (ContentTopic e) = false
  | OpAdd k' _ | OpRemove k' _ | OpReceive k' => k' ≠ k
  | _ => True
  end.

Lemma poll_settled dbErr n :
  NoDup (g_ID <$> group_messages (db n)) →
  Forall (settledEnvelope (nodeStep (PollGroups dbErr) n).1)
    (pollGroups marshalGroup dbErr (groupCursor n) (db n)).2.
Proof.
  intros Hd. cbn [stepNode]. rewrite (pollGroups_spec _ enc marshal_total) by done.
  destruct dbErr as [e|]; [constructor|]. cbv beta iota zeta.
  set (page := take 500 _). simpl. apply Forall_fmap, Forall_forall. intros r Hr. left. exists r. simpl.
  assert (Ha : ascending g_ID page) by (by apply ascending_take, above_ascending, order_by_asc_ascending).
  assert (Hin : r ∈ group_messages (db n)).
  { apply elem_of_take in Hr as (i & Hr%list_elem_of_lookup_2 & _). apply elem_of_above in Hr as [_ Hr].
    unfold allGroups in Hr. by rewrite order_by_asc_Permutation in Hr. }
  split; [done|]. split; [|done].
  destruct page as [|y page _] using rev_ind; [by apply elem_of_nil in Hr|]. rewrite last_snoc. simpl.
  apply ascending_app in Ha as (Ha & _ & _).
  apply elem_of_app in Hr as [Hr|Hr%list_elem_of_singleton]; [|by subst].
  specialize (Ha r y Hr ltac:(left)). lia.
Qed.

(** What an event offers has been dispatched once the event is over. *)
Lemma worker_settled k ev n :
  smoothNode k ev → NoDup (g_ID <$> group_messages (db n)) →
  Forall (opIn k (settledEnvelope (nodeStep ev n).1)) (nodeStep ev n).2.
Proof.
  intros Hev Hd. destruct ev as [| |row|dbErr|dbErr|o]; try by constructor.
  - pose proof (poll_settled dbErr n Hd) as H. cbn [stepNode] in *.
    destruct (pollGroups _ _ _ _) as [cur envs]. simpl in *. apply Forall_fmap.
    eapply Forall_impl; [exact H|]. intros e He. by left.
  - cbn [stepNode].
    assert (H : Forall (λ e, ∃ key, ContentTopic e = BuildMLSV1WelcomeTopic key)
      (pollWelcomes marshalWelcome dbErr (welcomeCursor n) (db n)).2).
    { unfold pollWelcomes, pollPage. destruct (welcomePageAt _ _ _) as [rows|e]; [|constructor].
      assert (H : Forall (λ e, ∃ key, ContentTopic e = BuildMLSV1WelcomeTopic key)
        (dispatchRows (welcomeEmit marshalWelcome) rows).2).
      { induction rows as [|r rows IH]; [constructor|]. cbn [dispatchRows].
        destruct (welcomeEmit marshalWelcome r) as [[env|e]|] eqn:E; [|constructor|done].
        destruct (dispatchRows _ rows). constructor; [by eapply welcomeEmit_topic|done]. }
      by destruct (dispatchRows _ rows). }
    destruct (pollWelcomes _ _ _ _) as [cur envs]. simpl in *. apply Forall_fmap.
    eapply Forall_impl; [done|]. intros e He. left. by right.
  - cbn [stepNode]. constructor; [|constructor]. destruct o as [[env|]| | | | | |]; try done. by right.
Qed.

Lemma worker_ops k ev n :
  smoothNode k ev → NoDup (g_ID <$> group_messages (db n)) →
  Forall (opIn k fromWorker) (nodeStep ev n).2.
Proof.
  intros Hev Hd. eapply Forall_impl; [by apply (worker_settled k ev n)|].
  intros [[e|]| | | | | |]; try done. intros [He|He]; [left; by eapply settled_from|by right].
Qed.

Lemma keyed_node_ok n : keyedNode n → groupCursor n ≤ seqOf n → node_ok n.
Proof.
  unfold keyedNode, seqOf. intros (H1 & H2 & _) H3. split; [done| |done].
  intros r Hr. specialize (H2 r Hr). lia.
Qed.

Lemma step_dispatcher ev n :
  dispatcher (nodeStep ev n).1 = foldl (flip apply_op) (dispatcher n) (nodeStep ev n).2.
Proof.
  pose proof (runNode_dispatcher marshalGroup marshalWelcome sha256 [ev] n) as H.
  cbn [runNode] in H. destruct (nodeStep ev n) as [n1 ops]. by rewrite app_nil_r in H.
Qed.
End LiveRows.

Lemma selects_same x x' e : topics x' = topics x → all x' = all x → selects x' e = selects x e.
Proof. unfold selects. by intros -> ->. Qed.

(** A subscription to topics of the MLS API. *)
Definition mlsOnly (x : Subscription) : Prop :=
  all x = false ∧ ∀ t, topics x !! t = Some true → IsMLSV1 t = true.

Lemma mlsOnly_selects x e : mlsOnly x → selects x e = true → IsMLSV1 (ContentTopic e) = true.
Proof.
  intros [Ha Ht]. unfold selects. rewrite Ha. intros E. apply Ht.
  destruct (topics x !! ContentTopic e) as [[]|]; done.
Qed.

Lemma mlsOnly_same x x' : topics x' = topics x → all x' = all x → mlsOnly x → mlsOnly x'.
Proof. unfold mlsOnly. by intros -> ->. Qed.

Lemma group_topic_mls g : IsMLSV1 (BuildMLSV1GroupTopic g) = true.
Proof. apply prefix_app. Qed.

(** What is in a channel is good if what is offered is. *)
Lemma channel_good k (good : Envelope → Prop) ops d ch x :
  accounted k d ch → Forall good ch → Forall (opIn k good) ops → objects d !! k = Some x → mlsOnly x →
  let d' := foldl (flip apply_op) d ops in
  ∃ ch' x', accounted k d' ch' ∧ Forall good ch' ∧
    objects d' !! k = Some x' ∧ topics x' = topics x ∧ all x' = all x.
Proof.
  revert d ch x. induction ops as [|o ops IH]; intros d ch x Hacc Hch Hops Hx Hmls; [by exists ch, x|].
  apply Forall_cons in Hops as [Ho Hops]. cbn [foldl flip].
  assert (Hk : (k < nextSub d)%nat) by (by destruct Hacc as (? & _ & ? & _)).
  assert (Hkeep : keeps_topics k o) by (by destruct o as [[env|]| | | | | |]).
  destruct (apply_op_selects k o d x Hx Hk Hkeep) as (_ & x1 & Hx1 & Et & Ea).
  destruct (apply_op_step k o d ch Hacc) as (put & rest & Hacc1 & Er & Hput & _).
  assert (Hrec : received k o d = []).
  { destruct o as [[env|]| | | | | |k']; try done. simpl in *. by rewrite decide_False by congruence. }
  assert (Hgood : Forall good put).
  { destruct Hput as [->|[-> _]]; [|constructor]. unfold offered. destruct o as [[env|]| | | | | |]; try constructor.
    rewrite Hx. destruct (selects x env) eqn:Es; [|constructor]. apply Forall_singleton.
    destruct Ho as [?|Hno]; [done|]. by rewrite (mlsOnly_selects _ _ Hmls Es) in Hno. }
  rewrite Hrec in Er. simpl in Er. subst rest.
  destruct (IH (apply_op o d) (ch ++ put) x1) as (ch' & x' & H1 & H2 & H3 & H4 & H5);
    [done|by apply Forall_app|done|done|by apply (mlsOnly_same x)|]. exists ch', x'. by rewrite H4, H5.
Qed.

Section Pipe.
Context (marshalGroup : GroupMessage → result bytes) (marshalWelcome : WelcomeMessage → result bytes)
  (sha256 : bytes → bytes) (enc : GroupMessage → bytes).
Hypothesis marshal_total : ∀ m, marshalGroup m = Ok (enc m).

(** The group, the subscription, the worker's cursor at some moment since which the subscription
    selects the group, and what may be in its channel. *)
Context (g : bytes) (k : nat) (c0 : Z) (good : Envelope → Prop).

Local Abbreviation nodeStep := (stepNode marshalGroup marshalWelcome sha256).
Local Abbreviation t := (BuildMLSV1GroupTopic g).

(** A subscription to the group, and to nothing that is not good. *)
Definition subscribedTo (x : Subscription) : Prop :=
  mlsOnly x ∧ topics x !! t = Some true ∧
  ∀ e, fromWorker enc e → selects x e = true → good e.

Lemma subscribedTo_same x x' :
  topics x' = topics x → all x' = all x → subscribedTo x → subscribedTo x'.
Proof.
  intros Et Ea (H1 & H2 & H3). split; [by apply (mlsOnly_same x)|]. split; [congruence|].
  intros e He. rewrite (selects_same x x') by done. by apply H3.
Qed.

Lemma offered_good x ops d :
  objects d !! k = Some x → (k < nextSub d)%nat → subscribedTo x → Forall (opIn k (fromWorker enc)) ops →
  Forall good (Dispatcher.run k ops d).2 ∧ (Dispatcher.run k ops d).1.2 = [] ∧
  ∃ x', objects (Dispatcher.run k ops d).1.1 !! k = Some x' ∧ topics x' = topics x ∧ all x' = all x.
Proof.
  revert d x. induction ops as [|o ops IH]; intros d x Hx Hk Hs.
  { intros _. split_and!; [constructor|done|by exists x]. }
  intros [Ho Hops]%Forall_cons. cbn [Dispatcher.run].
  assert (Hkeep : keeps_topics k o) by (by destruct o as [[env|]| | | | | |]).
  destruct (apply_op_selects k o d x Hx Hk Hkeep) as (Hk' & x' & Hx' & Et' & Ea').
  destruct (IH (apply_op o d) x' Hx' Hk' (subscribedTo_same _ _ Et' Ea' Hs) Hops)
    as (H1 & H2 & x2 & H3 & H4 & H5).
  destruct (Dispatcher.run k ops (apply_op o d)) as [[d' rs] os]. simpl in *. subst rs.
  split; [|split; [|exists x2; split; [done|split; congruence]]].
  - apply Forall_app. split; [|done]. unfold offered. destruct o as [[env|]| | | | | |]; try constructor.
    rewrite Hx. destruct (selects x env) eqn:Es; [|constructor]. constructor; [|constructor].
    destruct Ho as [Ho|Hno]; [by apply Hs|]. by rewrite (mlsOnly_selects _ _ (proj1 Hs) Es) in Hno.
  - unfold received. destruct o as [[env|]| | | | | |k']; try done. simpl in Ho.
    by rewrite decide_False by congruence.
Qed.

Lemma prefix_fmap_inv {A B} (h : A → B) l1 l2 :
  l1 `prefix_of` h <$> l2 → ∃ Q R, l2 = Q ++ R ∧ l1 = h <$> Q.
Proof.
  intros [r E]. exists (take (length l1) l2), (drop (length l1) l2). split; [by rewrite take_drop|].
  rewrite fmap_take, E. by rewrite take_app_length.
Qed.

(** What was dispatched of the group since the moment: the rows [P] its consumer has taken, those
    still in the channel, and those lost because the subscription was dropped. The channel may
    begin with rows [Z] dispatched before. *)
Definition inPipe (n : Node) (Z P : list GroupMessageRow) : Prop :=
  ∃ Q R rest, range g_ID c0 (groupCursor n) (rowsOf g n) = P ++ Q ++ R ∧
    accounted k (dispatcher n) rest ∧ Forall good rest ∧
    filter (λ e, ContentTopic e = t) rest = groupEnvelope enc <$> (Z ++ Q) ∧
    (k ∈ subscriptions (dispatcher n) → R = []).

Lemma inPipe_node ev n Zs P x :
  smoothNode k ev → keyedNode n → c0 ≤ groupCursor n ≤ seqOf n →
  objects (dispatcher n) !! k = Some x → subscribedTo x → inPipe n Zs P →
  let n' := (nodeStep ev n).1 in
  inPipe n' Zs P ∧ c0 ≤ groupCursor n' ≤ seqOf n' ∧
  ∃ x', objects (dispatcher n') !! k = Some x' ∧ topics x' = topics x ∧ all x' = all x.
Proof.
  intros Hev Hk Hcur Hx Hs (Q & R & rest & Er & Hacc & Hgood & Hrest & Hsub). cbv zeta.
  assert (I : node_ok n) by (apply keyed_node_ok; [done|lia]).
  assert (Hin : in_order t ev)
    by (destruct ev as [| | | | |[[env|]| | | | | |]]; try done; simpl in *; intros E;
        by rewrite E, group_topic_mls in Hev).
  pose proof (advances_step marshalGroup marshalWelcome sha256 enc marshal_total g ev n I Hin) as Hadv.
  pose proof (worker_ops marshalGroup marshalWelcome sha256 enc marshal_total k ev n Hev (proj1 Hk)) as Hops.
  pose proof (step_dispatcher marshalGroup marshalWelcome sha256 ev n) as Hd.
  destruct (nodeStep ev n) as [n' ops]. cbn [fst snd] in *.
  destruct Hadv as (I' & Hle & new & Hrange & Hsent). specialize (Hrange c0 ltac:(lia)).
  assert (Er' : range g_ID c0 (groupCursor n') (rowsOf g n')
    = (P ++ Q ++ R) ++ filter (λ r, g_GroupID r = g) new).
  { unfold rowsOf in *. rewrite <- range_group_rows in Er |- * by (apply I || apply I').
    by rewrite Hrange, filter_app, Er. }
  pose proof Hacc as (x0 & Hx0 & Hk0 & _). rewrite Hx in Hx0. injection Hx0 as <-.
  destruct (offered_good x ops _ Hx Hk0 Hs Hops) as (Hg2 & Hr2 & Hx2).
  assert (Hkeep : Forall (keeps_topics k) ops).
  { eapply Forall_impl; [done|]. by intros [[env|]| | | | | |]. }
  pose proof (offered_on k t ops _ x Hx Hk0 Hkeep) as Hoff.
  pose proof (run_account k ops _ _ Hacc) as Hrun.
  pose proof (run_dispatcher k ops (dispatcher n)) as Hd2. rewrite <- Hd in Hd2.
  destruct (Dispatcher.run k ops (dispatcher n)) as [[d' rs] os] eqn:Erun. simpl in *. subst rs d'.
  rewrite Hsent in Hoff. destruct Hs as ((Ha & _) & Et & _).
  specialize (Hoff ltac:(by intros e He; unfold selects; rewrite Ha, He, Et)).
  destruct Hrun as (rest' & Hacc' & Hpre & Hi & Hq). simpl in *.
  split; [|split; [split; [lia|apply I']|done]].
  assert (Hgood' : Forall good rest').
  { destruct Hpre as [z Hz]. assert (H : Forall good (rest ++ os)) by (by apply Forall_app).
    rewrite Hz in H. by apply Forall_app in H as [? _]. }
  destruct (decide (k ∈ subscriptions (dispatcher n))) as [Hin0|Hout]; last first.
  { exists Q, (R ++ filter (λ r, g_GroupID r = g) new), rest'. rewrite (Hq Hout) in *.
    split_and!; try done; [by rewrite Er', <- !app_assoc|]. intros Hin'. by destruct (Hi Hin'). }
  rewrite (Hsub Hin0), app_nil_r in Er'. set (fresh := filter (λ r, g_GroupID r = g) new) in *.
  destruct (run_account_grows k ops (dispatcher n) rest Hacc) as (rest2 & put & Hacc2 & Eput).
  rewrite Erun in Hacc2, Eput. simpl in *.
  rewrite (accounted_fun _ _ _ _ Hacc2 Hacc') in Eput. subst rest'.
  assert (Hp : filter (λ e, ContentTopic e = t) put `prefix_of` groupEnvelope enc <$> fresh).
  { destruct Hpre as [z Hz]. rewrite <- app_assoc in Hz. apply app_inv_head in Hz.
    rewrite <- Hoff, Hz, filter_app. by eexists. }
  destruct (prefix_fmap_inv _ _ _ Hp) as (Q' & R' & EQ & ER). exists (Q ++ Q'), R', (rest ++ put).
  split_and!; try done.
  - by rewrite Er', EQ, <- !app_assoc.
  - by rewrite filter_app, Hrest, ER, <- fmap_app, <- app_assoc.
  - intros Hin'. destruct (Hi Hin') as [_ E]. apply app_inv_head in E. subst put.
    rewrite Hoff, EQ, fmap_app in ER. apply (f_equal length) in ER.
    rewrite length_app, !length_fmap in ER. apply length_zero_iff_nil. lia.
Qed.
Lemma receive_channel d env rest :
  accounted k d (env :: rest) →
  receive k d = (Some env, updateSub k (λ s, s <| MessagesCh := rest |>) d) ∧
  accounted k (updateSub k (λ s, s <| MessagesCh := rest |>) d) rest.
Proof.
  intros (x & Hx & Hk & Hch & Hcap & Hcl). unfold receive. rewrite Hx, Hch. split; [done|].
  unfold updateSub. exists (x <| MessagesCh := rest |>). simpl. rewrite lookup_alter_eq, Hx.
  split_and!; try done. simpl in Hcap. lia.
Qed.

(** The consumer takes an envelope: one of another topic, one dispatched before, or the next row. *)
Lemma inPipe_take n Zs P env d' :
  inPipe n Zs P → receive k (dispatcher n) = (Some env, d') →
  good env ∧ subscriptions d' = subscriptions (dispatcher n) ∧
  (∀ x, objects (dispatcher n) !! k = Some x →
     ∃ x', objects d' !! k = Some x' ∧ topics x' = topics x ∧ all x' = all x) ∧
  (ContentTopic env ≠ t ∧ inPipe (n <| dispatcher := d' |>) Zs P ∨
   (∃ z Zs', Zs = z :: Zs' ∧ env = groupEnvelope enc z ∧ inPipe (n <| dispatcher := d' |>) Zs' P) ∨
   (∃ r rest, Zs = [] ∧ env = groupEnvelope enc r ∧
      range g_ID c0 (groupCursor n) (rowsOf g n) = P ++ r :: rest ∧
      inPipe (n <| dispatcher := d' |>) [] (P ++ [r]))).
Proof.
  intros (Q & R & rest & Er & Hacc & Hgood & Hrest & Hsub) Hrec.
  destruct rest as [|e rest].
  { destruct Hacc as (x & Hx & _ & Hch & _). unfold receive in Hrec. by rewrite Hx, Hch in Hrec. }
  destruct (receive_channel _ _ _ Hacc) as [E Hacc']. rewrite E in Hrec. injection Hrec as -> <-.
  apply Forall_cons in Hgood as [Hg Hgood]. split; [done|]. split; [done|]. split.
  { intros x Hx. exists (x <| MessagesCh := rest |>). unfold updateSub. simpl.
    by rewrite lookup_alter_eq, Hx. }
  rewrite filter_cons in Hrest. case_decide as Ht; last first.
  { left. split; [done|]. by exists Q, R, rest. }
  right. destruct Zs as [|z Zs]; [right|left].
  - destruct Q as [|r Q]; [done|]. injection Hrest as -> Hrest. exists r, (Q ++ R).
    split_and!; [done..|]. exists Q, R, rest. by rewrite <- app_assoc.
  - injection Hrest as -> Hrest. exists z, Zs. split_and!; [done..|]. by exists Q, R, rest.
Qed.
End Pipe.

(** * Ranges of a group's rows *)

Section Ranges.
Context (c c0 : Z) (rows : list GroupMessageRow).
Hypothesis Ha : ascending g_ID rows.
Implicit Types (P : list GroupMessageRow).

(** The last row taken, or the moment's cursor. *)
Definition lastOf P : Z := default c0 (g_ID <$> last P).

Lemma lastOf_snoc P r : lastOf (P ++ [r]) = g_ID r.
Proof. unfold lastOf. by rewrite last_snoc. Qed.

(** The next live row comes right after those already taken. *)
Lemma live_next q P r rest :
  range g_ID c0 q rows = P ++ r :: rest →
  r ∈ rows ∧ c0 < g_ID r ∧ lastOf P < g_ID r ∧
  ∀ x, x ∈ rows → lastOf P < g_ID x < g_ID r → False.
Proof.
  intros Er.
  assert (Har : ascending g_ID (P ++ r :: rest)) by (rewrite <- Er; by apply ascending_filter).
  assert (Hmem : ∀ x, x ∈ P ++ r :: rest ↔ (c0 < g_ID x ∧ g_ID x ≤ q) ∧ x ∈ rows)
    by (intros x; rewrite <- Er; unfold range; by rewrite list_elem_of_filter).
  apply ascending_app in Har as (HPr & HP & [Hrest _]%ascending_cons).
  destruct (proj1 (Hmem r)) as [Hr Hin]; [set_solver|]. unfold lastOf.
  split; [done|]. split; [lia|]. destruct (last P) as [p|] eqn:El; simpl; last first.
  { apply last_None in El. subst P. split; [lia|]. intros x Hx Hx'.
    assert (Hxr : x ∈ r :: rest) by (apply Hmem; split; [lia|done]).
    apply elem_of_cons in Hxr as [->|Hxr]; [lia|]. specialize (Hrest x Hxr). lia. }
  apply last_Some in El as [P' ->]. apply ascending_app in HP as (HP & _ & _).
  assert (Hp : c0 < g_ID p) by (destruct (proj1 (Hmem p)); [set_solver|lia]).
  split; [apply HPr; [set_solver|left]|]. intros x Hx Hx'.
  assert (Hxr : x ∈ (P' ++ [p]) ++ r :: rest) by (apply Hmem; split; [lia|done]).
  apply elem_of_app in Hxr as [[Hxr|Hxr%list_elem_of_singleton]%elem_of_app|
    [->|Hxr]%elem_of_cons]; [|subst x; lia|lia|].
  - specialize (HP x p Hxr ltac:(left)). lia.
  - specialize (Hrest x Hxr). lia.
Qed.

Lemma range_next w r :
  r ∈ rows → c ≤ w < g_ID r → (∀ x, x ∈ rows → w < g_ID x < g_ID r → False) →
  range g_ID c (g_ID r) rows = range g_ID c w rows ++ [r].
Proof.
  intros Hin Hw Hbetween.
  assert (Hs : ascending g_ID (range g_ID c w rows ++ [r])).
  { apply ascending_app. split; [|split; [by apply ascending_filter|apply ascending_singleton]].
    intros a b [Hx _]%list_elem_of_filter ->%list_elem_of_singleton. lia. }
  apply (ascending_unique g_ID); [by apply ascending_filter|done|].
  apply NoDup_Permutation; [by apply (ascending_NoDup g_ID), ascending_filter|
    by apply (ascending_NoDup g_ID)|].
  intros x. rewrite elem_of_app, list_elem_of_singleton. unfold range.
  rewrite !list_elem_of_filter. split.
  - intros [Hx Hxin]. destruct (decide (g_ID x ≤ w)); [left; split; [lia|done]|]. right.
    destruct (decide (g_ID x = g_ID r)) as [E|E]; [by apply (ascending_inj g_ID rows)|].
    destruct (Hbetween x Hxin ltac:(lia)).
  - intros [[Hx ?]| ->]; (split; [lia|done]).
Qed.

Lemma range_prefix w : range g_ID c w rows `prefix_of` above g_ID c rows.
Proof.
  exists (above g_ID (Z.max c w) rows). rewrite (split_at g_ID w (above g_ID c rows)) at 1 by (by apply above_ascending).
  unfold above, range. rewrite !list_filter_filter. f_equal; apply list_filter_iff; intros r; lia.
Qed.

(** With everything dispatched taken and the worker at the newest row, every row above the moment's
    cursor has been taken. *)
Lemma taken_all q P r :
  range g_ID c0 q rows = P → above g_ID q rows = [] → r ∈ rows → c0 < g_ID r → g_ID r ≤ lastOf P.
Proof.
  intros Er Hworker Hr Hlt.
  assert (Hcur : ¬ q < g_ID r).
  { intros Hgt. assert (Hin : r ∈ above g_ID q rows) by (by apply elem_of_above).
    rewrite Hworker in Hin. by apply elem_of_nil in Hin. }
  assert (HP : r ∈ P) by (rewrite <- Er; apply list_elem_of_filter; split; [lia|done]).
  unfold lastOf. assert (Hp : ascending g_ID P) by (rewrite <- Er; by apply ascending_filter).
  destruct (last P) as [y|] eqn:El; [|apply last_None in El; rewrite El in HP; by apply elem_of_nil in HP].
  apply last_Some in El as [P' EP]. rewrite EP in HP, Hp. clear EP.
  apply ascending_app in Hp as (Hp & _ & _). simpl.
  apply elem_of_app in HP as [HP|HP%list_elem_of_singleton]; [|subst; lia].
  specialize (Hp r y HP ltac:(left)). lia.
Qed.
End Ranges.
