(* ===== verification/ScanLive.v ===== *)
(** A catch-up scan beside running publishers: what a scan that may be cut short at any point hands
    to the writer, in terms of the rows of a later database, and how far it reaches compared to a
    worker that polls meanwhile. *)

From S2P Require Import Prelude Topic Types MlsDb ReadStore Rotation Frames Writer CatchUp Store Dispatcher Worker LiveRows.

(** * The shape of a scan's output *)

(** The batches of one scan: its wave's, of its own lane, the done marker last; a failure ends it. *)
Definition historyBatch (wave : nat) (b : catchUpBatch) : Prop :=
  cb_wave b = wave ∧ cb_err b = None ∧ cb_done b = false.

Definition scanShape (lane : catchUpBatch → Prop) (wave : nat) (out : list catchUpBatch) : Prop :=
  ∃ hs tl, out = hs ++ tl ∧ Forall (λ b, historyBatch wave b ∧ lane b) hs ∧
    (tl = [] ∨ tl = [doneMarker wave] ∨ ∃ e, tl = [mkBatch [] [] 0 0 false (Some e)]).

Definition groupLane (b : catchUpBatch) : Prop := cb_welcomeMsgs b = [].
Definition welcomeLane (b : catchUpBatch) : Prop := cb_groupMsgs b = [].

Lemma shape_nil lane wave : scanShape lane wave [].
Proof. exists [], []. split; [done|]. split; [constructor|by left]. Qed.

Lemma shape_err lane wave e : scanShape lane wave (errBatch e).
Proof.
  unfold errBatch. case_bool_decide; [apply shape_nil|]. exists [], [mkBatch [] [] 0 0 false (Some e)].
  split; [done|]. split; [constructor|]. right; right. by eexists.
Qed.

Lemma shape_done lane wave : scanShape lane wave [doneMarker wave].
Proof. exists [], [doneMarker wave]. split; [done|]. split; [constructor|by right; left]. Qed.

Lemma shape_cons (lane : catchUpBatch → Prop) wave b out :
  historyBatch wave b → lane b → scanShape lane wave out → scanShape lane wave (b :: out).
Proof.
  intros Hb Hl (hs & tl & -> & Hh & Ht). exists (b :: hs), tl. split; [done|].
  split; [by constructor|done].
Qed.

Lemma groupTurns_shape env batchTopics limit ceiling wave fuel k queue out :
  groupTurns env batchTopics limit ceiling wave fuel k queue = Some out →
  scanShape groupLane wave out.
Proof.
  revert k queue out. induction fuel as [|fuel IH]; intros k [|q queue] out E;
    cbn [groupTurns] in E; try done; [injection E as <-; apply shape_done..|].
  destruct (negb _); [injection E as <-; apply shape_nil|].
  destruct (QueryGroupMessagesWaveScan _ _ _ _ _ _) as [[|m ms]|e]; [by eapply IH| |].
  - destruct (bytesGranted env k); [|injection E as <-; apply shape_nil].
    destruct (groupTurns _ _ _ _ _ _ _ _) as [out'|] eqn:E'; [|done]. injection E as <-.
    apply shape_cons; [done|done|by eapply IH].
  - injection E as <-. apply shape_err.
Qed.

Lemma welcomeTurns_shape env batchTopics limit ceiling wave fuel k queue out :
  welcomeTurns env batchTopics limit ceiling wave fuel k queue = Some out →
  scanShape welcomeLane wave out.
Proof.
  revert k queue out. induction fuel as [|fuel IH]; intros k [|q queue] out E;
    cbn [welcomeTurns] in E; try done; [injection E as <-; apply shape_done..|].
  destruct (negb _); [injection E as <-; apply shape_nil|].
  destruct (QueryWelcomeMessagesWaveScan _ _ _ _ _ _) as [[[|m ms] progress]|e]; [by eapply IH| |].
  - destruct (bytesGranted env k); [|injection E as <-; apply shape_nil].
    destruct (welcomeTurns _ _ _ _ _ _ _ _) as [out'|] eqn:E'; [|done]. injection E as <-.
    apply shape_cons; [done|done|by eapply IH].
  - injection E as <-. apply shape_err.
Qed.

Lemma catchUpGroups_shape cfg env fuel adds wave out :
  catchUpGroups cfg env fuel adds wave = Some out → scanShape groupLane wave out.
Proof.
  unfold catchUpGroups. destruct (call _ _) as [ceiling|e]; [|intros [= <-]; apply shape_err].
  cbv zeta. destruct (filter _ adds); [apply groupTurns_shape|].
  destruct (slotGranted env); [apply groupTurns_shape|intros [= <-]; apply shape_nil].
Qed.

Lemma catchUpWelcomes_shape cfg env fuel adds wave out :
  catchUpWelcomes cfg env fuel adds wave = Some out → scanShape welcomeLane wave out.
Proof.
  unfold catchUpWelcomes. destruct (call _ _) as [ceiling|e]; [|intros [= <-]; apply shape_err].
  cbv zeta. destruct (filter _ adds); [apply welcomeTurns_shape|].
  destruct (slotGranted env); [apply welcomeTurns_shape|intros [= <-]; apply shape_nil].
Qed.

(** * A scan cut short *)

(** The same scan on a stream that stays up, with nothing failing. *)
Definition undisturbed (env : scanEnv) : scanEnv :=
  mkScanEnv (snapshot env) (λ _, None) true (λ _, true) (λ _, true).

Lemma wave_scan_failing dbErr batch ceiling limit d :
  QueryGroupMessagesWaveScan dbErr batch 0 ceiling limit d
    = QueryGroupMessagesWaveScan None batch 0 ceiling limit d ∨
  ∃ e, QueryGroupMessagesWaveScan dbErr batch 0 ceiling limit d = Err e.
Proof.
  destruct dbErr as [e|]; [|by left]. unfold QueryGroupMessagesWaveScan.
  case_bool_decide; [by left|right]. by exists e.
Qed.

Definition beginsAs (out out' : list catchUpBatch) : Prop :=
  ∃ hs tl, out = hs ++ tl ∧ hs `prefix_of` out' ∧ Forall (λ b, cb_err b ≠ None) tl.

Lemma begins_nil out' : beginsAs [] out'.
Proof. exists [], []. split_and!; [done|apply prefix_nil|constructor]. Qed.

Lemma begins_err e out' : beginsAs (errBatch e) out'.
Proof.
  unfold errBatch. case_bool_decide; [apply begins_nil|].
  exists [], [mkBatch [] [] 0 0 false (Some e)]. split_and!; [done|apply prefix_nil|].
  by apply Forall_singleton.
Qed.

(** Up to a failure, a scan hands over the beginning of what it would hand over undisturbed. *)
Lemma groupTurns_cut env batchTopics limit ceiling wave fuel fuel' k queue out out' :
  groupTurns env batchTopics limit ceiling wave fuel k queue = Some out →
  groupTurns (undisturbed env) batchTopics limit ceiling wave fuel' k queue = Some out' →
  beginsAs out out'.
Proof.
  assert (Hdone : ∀ f k out', groupTurns (undisturbed env) batchTopics limit ceiling wave f k []
    = Some out' → beginsAs [doneMarker wave] out').
  { intros f k0 o E. exists [doneMarker wave], []. split; [done|]. split; [|constructor].
    assert (o = [doneMarker wave]) as -> by (destruct f; simpl in E; congruence). done. }
  revert fuel' k queue out out'. induction fuel as [|fuel IH];
    intros fuel' k [|q queue] out out' E E'; cbn [groupTurns] in E; try done;
    [injection E as <-; by eapply Hdone..|].
  destruct (negb _); [injection E as <-; apply begins_nil|].
  destruct fuel' as [|fuel']; [done|].
  cbn [groupTurns undisturbed streamAlive queryErr snapshot bytesGranted negb] in E'.
  set (batch := take _ _) in *.
  destruct (wave_scan_failing (queryErr env (2 + k)) batch (u64 ceiling) limit (snapshot env (2 + k)))
    as [Eq|[e Eq]]; rewrite Eq in E; [|injection E as <-; apply begins_err].
  destruct (QueryGroupMessagesWaveScan None _ _ _ _ _) as [[|m ms]|e].
  - by eapply IH.
  - destruct (bytesGranted env k); [|injection E as <-; apply begins_nil].
    destruct (groupTurns env _ _ _ _ _ _ _) as [o|] eqn:Eo; [|done]. injection E as <-.
    destruct (groupTurns (undisturbed env) _ _ _ _ _ _ _) as [o'|] eqn:Eo'; [|done]. injection E' as <-.
    destruct (IH _ _ _ _ _ Eo Eo') as (hs & tl & -> & Hp & Ht). eexists (_ :: hs), tl.
    split_and!; [done| |done]. by apply prefix_cons.
  - injection E as <-. apply begins_err.
Qed.

(** * The database grows *)

(** Rows at or below the sequence are settled. *)
Definition dbGrows (d d' : Db) : Prop :=
  group_messages_seq d ≤ group_messages_seq d' ∧
  (∀ r, r ∈ group_messages d → r ∈ group_messages d') ∧
  (∀ r, r ∈ group_messages d' → g_ID r ≤ group_messages_seq d → r ∈ group_messages d).

#[export] Instance dbGrows_preorder : PreOrder dbGrows.
Proof.
  split; [by intros d|]. intros d1 d2 d3 (H1 & H2 & H3) (H4 & H5 & H6).
  split; [lia|]. split; [auto|]. intros r Hr Hle. apply H3; [apply H6; [done|lia]|done].
Qed.

Lemma grows_db n n' : (∀ g, grows g n n') → dbGrows (db n) (db n').
Proof.
  intros H. split; [by destruct (H "") as (_ & _ & ? & _)|]. split.
  - intros r Hr. destruct (H (g_GroupID r)) as (new & E & _).
    apply (rows_elem (g_GroupID r) n'). rewrite E. apply elem_of_app. left. by apply rows_elem.
  - intros r Hr Hle. apply (rows_elem (g_GroupID r) n), (grows_old _ n n'); [done| |done].
    by apply rows_elem.
Qed.

Lemma settled_rows d d' ceiling :
  groups_keyed d → groups_keyed d' → dbGrows d d' → ceiling ≤ group_messages_seq d →
  filter (λ r, g_ID r ≤ ceiling) (group_messages d)
    ≡ₚ filter (λ r, g_ID r ≤ ceiling) (group_messages d').
Proof.
  intros [Hd _] [Hd' _] (_ & H1 & H2) Hc.
  assert (Hn : ∀ l : list GroupMessageRow, NoDup (g_ID <$> l) → NoDup l)
    by (intros l; apply NoDup_fmap_1).
  apply NoDup_Permutation; [by apply Hn, fmap_filter_NoDup..|].
  intros r. rewrite !list_elem_of_filter. split; intros [Hle Hr]; (split; [done|]); [auto|].
  apply H2; [done|lia].
Qed.

Lemma latest_le_seq d : groups_keyed d → GetLatestGroupMessageID d ≤ group_messages_seq d.
Proof.
  intros (_ & H & Hs). unfold GetLatestGroupMessageID.
  destruct (max_of (g_ID <$> group_messages d)) as [m|] eqn:E; simpl; [|lia].
  apply max_of_spec in E as [(r & -> & Hr)%list_elem_of_fmap _]. by apply H.
Qed.

Lemma latest_covers d r : r ∈ group_messages d → g_ID r ≤ GetLatestGroupMessageID d.
Proof.
  intros Hr. unfold GetLatestGroupMessageID.
  destruct (max_of (g_ID <$> group_messages d)) as [m|] eqn:E; simpl.
  - apply max_of_spec in E as [_ H]. apply H. by apply list_elem_of_fmap_2.
  - destruct (group_messages d) as [|x l]; [by apply elem_of_nil in Hr|]. simpl in E.
    by destruct (max_of (g_ID <$> l)).
Qed.

(** * How far a scan reaches *)

Section Reach.
Context (cfg : tunables) (env : scanEnv) (adds : list GroupCatchup) (wave : nat).
Context (g : bytes) (c : Z) (D : Db).
Hypothesis Hkeyed : ∀ i, groups_keyed (snapshot env i).
Hypothesis HD : groups_keyed D.
Hypothesis Hgrow : ∀ i j, (i ≤ j)%nat → dbGrows (snapshot env i) (snapshot env j).
Hypothesis HgrowD : ∀ i, dbGrows (snapshot env i) D.
Hypothesis Hadds : group_adds adds.
Hypothesis Hg : mkGroupCatchup g c ∈ adds.

Local Abbreviation latest := (GetLatestGroupMessageID (snapshot env 0)).

(** The id the scan replays the group up to. *)
Definition reach : Z := if bool_decide (c < latest) then groupCeiling env adds else latest.

Lemma ceiling_bounds : latest ≤ groupCeiling env adds ≤ group_messages_seq (snapshot env 1).
Proof.
  pose proof (latest_le_seq _ (Hkeyed 0%nat)). pose proof (latest_le_seq _ (Hkeyed 1%nat)).
  destruct (Hgrow 0 1 ltac:(lia)) as [? _].
  unfold groupCeiling. destruct (groupQueue env adds); [lia|]. unfold refreshCeiling, call.
  destruct (queryErr env 1); [lia|]. case_bool_decide; lia.
Qed.

(** A row that was in the database when the scan started is within reach. *)
Lemma reach_covers r :
  r ∈ group_messages D → g_ID r ≤ group_messages_seq (snapshot env 0) → g_ID r ≤ reach.
Proof.
  intros Hr Hle. destruct (HgrowD 0) as (_ & _ & H). specialize (H r Hr Hle).
  apply latest_covers in H. unfold reach. pose proof ceiling_bounds. case_bool_decide; lia.
Qed.

Local Abbreviation pinned := (filter (λ r, g_ID r ≤ groupCeiling env adds) (group_messages D)).

Lemma reach_pinned : groups_pinned env adds pinned.
Proof.
  split; [done|]. intros k. apply settled_rows; try done. pose proof ceiling_bounds.
  destruct (Hgrow 1 (2 + k) ltac:(lia)) as [? _]. lia.
Qed.

Lemma reach_rows (Hc : c < latest) :
  above g_ID c (topicRows g_GroupID g_ID pinned g) = range g_ID c reach (group_rows g D).
Proof.
  unfold reach. rewrite bool_decide_true by done. unfold above, range, topicRows, group_rows.
  destruct HD as [Hd _]. rewrite <- !order_filter by (by repeat apply fmap_filter_NoDup).
  f_equal. rewrite !list_filter_filter. apply list_filter_iff. intros r. tauto.
Qed.

Lemma range_unreached (Hc : ¬ c < latest) : range g_ID c reach (group_rows g D) = [].
Proof.
  unfold reach. rewrite bool_decide_false by done. apply filter_drop_all. intros r _. lia.
Qed.

Lemma done_ends (hs X : list catchUpBatch) :
  hs `prefix_of` X ++ [doneMarker wave] → (∀ b, b ∈ X → cb_done b = false) →
  (∃ b, b ∈ hs ∧ cb_done b = true) → hs = X ++ [doneMarker wave].
Proof.
  intros [z E] HX (b & Hb & Hd). destruct z as [|y z _] using rev_ind; [by rewrite app_nil_r in E|].
  rewrite app_assoc in E. apply app_inj_tail in E as [E _].
  rewrite (HX b) in Hd; [done|]. rewrite E. apply elem_of_app. by left.
Qed.

Lemma prefix_bind {A B} (f : A → list B) l1 l2 : l1 `prefix_of` l2 → (l1 ≫= f) `prefix_of` (l2 ≫= f).
Proof. intros [z ->]. rewrite bind_app. by eexists. Qed.

Lemma prefix_filter {A} (P : A → Prop) `{∀ x, Decision (P x)} l1 l2 :
  l1 `prefix_of` l2 → filter P l1 `prefix_of` filter P l2.
Proof. intros [z ->]. rewrite filter_app. by eexists. Qed.

Definition groupPart (bs : list catchUpBatch) : list GroupMessage :=
  filter (λ m, groupGroupId m = g) (bs ≫= cb_groupMsgs).

Local Abbreviation expected := (conv (range g_ID c reach (group_rows g D))).

(** An undisturbed scan's turns. *)
Lemma turns_reach fuel out :
  0 < groupCeiling env adds ≤ maxInt64 →
  groupTurns (undisturbed env) (atLeast1 (scanBatchTopics cfg)) (atLeast1 (scanTopicPageLimit cfg))
    (groupCeiling env adds) wave fuel 0 (groupQueue env adds) = Some out →
  (∃ b, b ∈ out ∧ cb_done b = true) →
  ∃ X, out = X ++ [doneMarker wave] ∧ (∀ b, b ∈ X → cb_done b = false) ∧ groupPart X = expected.
Proof.
  intros Hc E Hdone. destruct (groupQueue_ok env adds (Hkeyed 0%nat) Hadds) as [Hok Hd].
  destruct reach_pinned as [_ Hpin].
  destruct (groupTurns_complete (undisturbed env) _ _ _ wave pinned Hkeyed Hpin Hc (atLeast1_pos _)
    (atLeast1_pos _) _ _ _ _ Hok Hd E Hdone) as (turns & -> & Hturns & Hkeys & Hrows).
  exists (omap (groupPack wave) turns). split; [done|]. split.
  { intros b (rows & _ & Hb)%list_elem_of_omap. unfold groupPack in Hb.
    destruct (toGroupMessage <$> rows); [done|]. by injection Hb as <-. }
  unfold groupPart. rewrite groupPack_msgs.
  etrans; [exact (turns_of_add env adds pinned _ (mkGroupCatchup g c) Hadds Hg Hkeys Hrows)|].
  simpl. case_decide as Hlt; [by rewrite reach_rows|by rewrite range_unreached].
Qed.

(** What the scan hands over of the group, up to a failure, is a prefix of the group's rows from
    its cursor up to the reach, and all of them when the done marker is there. *)
Lemma scan_reaches fuel out :
  catchUpGroups cfg env fuel adds wave = Some out →
  ∃ hs tl, out = hs ++ tl ∧ Forall (λ b, cb_err b ≠ None) tl ∧
    groupPart hs `prefix_of` expected ∧
    ((∃ b, b ∈ hs ∧ cb_done b = true) → groupPart hs = expected).
Proof.
  intros E. pose proof Hadds as [Hnd Hu64].
  destruct (catchUpGroups_turns cfg env fuel adds wave out Hkeyed Hu64 E)
    as [[-> Hq]|[Hcut|(Hc & Hq & E')]].
  - exists [doneMarker wave], []. split; [done|]. split; [constructor|].
    rewrite range_unreached; [done|]. intros Hlt.
    assert (Hin : mkGroupCatchup g c ∈ groupQueue env adds) by (by apply list_elem_of_filter).
    rewrite Hq in Hin. by apply elem_of_nil in Hin.
  - exists [], out. split; [done|]. split; [|split; [apply prefix_nil|by intros (b & ?%elem_of_nil & _)]].
    destruct Hcut as [->|[e ->]]; [constructor|]. unfold errBatch.
    case_bool_decide; [constructor|by apply Forall_singleton].
  - destruct (groupQueue_ok env adds (Hkeyed 0%nat) Hadds) as [Hok Hd].
    destruct reach_pinned as [_ Hpin].
    destruct (groupTurns_ends (undisturbed env) _ _ (groupCeiling env adds) wave pinned Hkeyed Hpin
      Hc (atLeast1_pos (scanBatchTopics cfg)) (atLeast1_pos (scanTopicPageLimit cfg)) _ 0 _ Hok Hd (λ _, eq_refl) (λ _, eq_refl) (λ _, eq_refl) (Nat.le_refl _))
      as (out' & E2 & Hin).
    destruct (turns_reach _ _ Hc E2) as (X & -> & HX & EX); [by exists (doneMarker wave)|].
    destruct (groupTurns_cut _ _ _ _ _ _ _ _ _ _ _ E' E2) as (hs & tl & -> & Hpre & Htl).
    exists hs, tl. split; [done|]. split; [done|].
    assert (Ed : groupPart (X ++ [doneMarker wave]) = expected).
    { unfold groupPart. rewrite bind_app. simpl. by rewrite app_nil_r. }
    rewrite <- Ed. split; [by apply prefix_filter, prefix_bind|].
    intros Hdone. by rewrite (done_ends hs X Hpre HX Hdone).
Qed.
End Reach.
