(* ===== verification/StreamScans.v ===== *)
(** The scans of a Subscribe stream as its writer sees them: which ones each event starts
    ([launches]), how many the waves still wait for ([scansKept]), and what a Mutate that adds a
    group starts ([mutate_opens]). *)

From S2P Require Import Prelude Topic Types Frames Writer WriterLogic WriterInv WriterAccount WriterOrder WriterSeam TopicLane CatchUp.

Definition waveOf (sc : scan) : nat :=
  match sc with scanGroups _ w | scanWelcomes _ w => w end.

(** Scans are started for new waves only. *)
Definition launches (st st' : writer) : Prop :=
  (nextWave st ≤ nextWave st')%nat ∧ ∃ new, launched st' = launched st ++ new ∧
    Forall (λ sc, (nextWave st ≤ waveOf sc < nextWave st')%nat) new.

(** Waves other than [except] that are still there wait for as many scans as before. *)
Definition waits (except : option nat) (st st' : writer) : Prop :=
  ∀ W w', (W < nextWave st)%nat → except ≠ Some W → waves st' !! W = Some w' →
    ∃ w, waves st !! W = Some w ∧ scansLeft w' = scansLeft w.

Definition scansKept (except : option nat) (st st' : writer) : Prop :=
  launches st st' ∧ waits except st st'.

#[export] Instance launches_preorder : PreOrder launches.
Proof.
  split.
  - intros st. split; [done|]. exists []. by rewrite app_nil_r.
  - intros a b c (H1 & new1 & E1 & F1) (H2 & new2 & E2 & F2). split; [lia|]. exists (new1 ++ new2).
    rewrite E2, E1, app_assoc. split; [done|]. apply Forall_app.
    split; (eapply Forall_impl; [done|]); simpl; lia.
Qed.

#[export] Instance scansKept_preorder except : PreOrder (scansKept except).
Proof.
  split.
  - intros st. split; [reflexivity|]. intros W w' _ _ Hw. by exists w'.
  - intros a b c [L1 H1] [L2 H2]. split; [by trans b|]. intros W w' HW He Hw.
    destruct (H2 W w') as (w2 & Hw2 & ->); [destruct L1; lia|done..|]. by apply (H1 W w2).
Qed.

(** What neither starts a scan nor touches a wave. *)
Definition quiet (st st' : writer) : Prop :=
  nextWave st' = nextWave st ∧ launched st' = launched st ∧ waves st' = waves st.

#[export] Instance quiet_preorder : PreOrder quiet.
Proof. unfold quiet. split; [by intros st|]. intros a b c (?&?&?) (?&?&?). split_and!; congruence. Qed.

(** What leaves the subscription's topics alone as well. *)
Definition still (st st' : writer) : Prop := quiet st st' ∧ subTopics st' = subTopics st.

#[export] Instance still_preorder : PreOrder still.
Proof.
  split; [by intros st|]. intros a b c [H1 E1] [H2 E2]. split; [by trans b|congruence].
Qed.

Lemma still_quiet st st' : still st st' → quiet st st'.
Proof. by intros [? _]. Qed.

(** A subscription gains topics of the MLS kinds only. *)
Definition gainsMls (st st' : writer) : Prop :=
  ∀ t, t ∈ subTopics st' → t ∈ subTopics st ∨ IsMLSV1 t = true.

#[export] Instance gainsMls_preorder : PreOrder gainsMls.
Proof. split; [intros st t; auto|]. intros a b c H1 H2 t [?|?]%H2; [by apply H1|by right]. Qed.

Lemma gains_same st st' : subTopics st' = subTopics st → gainsMls st st'.
Proof. intros E t. rewrite E. by left. Qed.

Lemma gains_still st st' : still st st' → gainsMls st st'.
Proof. intros [_ E]. by apply gains_same. Qed.

Lemma kept_quiet except st st' : quiet st st' → scansKept except st st'.
Proof.
  intros (En & El & Ew). split.
  - split; [by rewrite En|]. exists []. by rewrite El, app_nil_r.
  - intros W w'. rewrite Ew. intros _ _ Hw. by exists w'.
Qed.

Lemma stays_mono (R R' : relation writer) {A} (m : M A) :
  (∀ a b, R a b → R' a b) → stays R m → stays R' m.
Proof. intros H Hm st. apply H, Hm. Qed.

Section Scans.
Context (cfg : tunables) (net : nat → send_result) (drain : flush_result).
Context (ug : bytes → option GroupMessage) (uw : bytes → option WelcomeMessage).

Lemma send_still fs : stays still (send net fs).
Proof. intros st. unfold send. destruct fs; [done|]. simpl. by destruct (net _). Qed.

Lemma groupFrames_still msgs id : stays still (groupFrames cfg msgs id).
Proof. intros st. unfold groupFrames. by destruct (buildGroupFrames _ _ _ _). Qed.

Lemma welcomeFrames_still msgs id : stays still (welcomeFrames cfg msgs id).
Proof. intros st. unfold welcomeFrames. by destruct (buildWelcomeFrames _ _ _ _). Qed.

Lemma historyFrames_still b id : stays still (historyFrames cfg b id).
Proof. unfold historyFrames. stays_steps; auto using groupFrames_still, welcomeFrames_still. Qed.

Lemma settle_still wave w : stays still (settle ug uw wave w).
Proof.
  assert (H1 : ∀ t wire acc st, still st (settleTopic ug uw wave t wire acc st).2).
  { intros t wire acc st. unfold settleTopic. case_bool_decide; [done|]. cbv zeta.
    case_bool_decide; [done|]. by destruct (decodePending _ _ _ _). }
  intros st. unfold settle. generalize (mkSettled [] [] []). intros acc.
  revert acc st. generalize (w_wire w). induction (w_topics w) as [|t topics IH];
    intros [|b wire] acc st; try done. simpl. specialize (H1 t b acc st).
  destruct (settleTopic _ _ _ _ _ _ _) as [acc1 st1]. trans st1; [done|].
  specialize (IH wire acc1 st1). by destruct (settleTopics _ _ _ _ _ _ _).
Qed.

Lemma send_silent fs : stays quiet (send net fs).
Proof. eapply stays_mono; [apply still_quiet|apply send_still]. Qed.
Lemma groupFrames_silent msgs id : stays quiet (groupFrames cfg msgs id).
Proof. eapply stays_mono; [apply still_quiet|apply groupFrames_still]. Qed.
Lemma welcomeFrames_silent msgs id : stays quiet (welcomeFrames cfg msgs id).
Proof. eapply stays_mono; [apply still_quiet|apply welcomeFrames_still]. Qed.
Lemma historyFrames_silent b id : stays quiet (historyFrames cfg b id).
Proof. eapply stays_mono; [apply still_quiet|apply historyFrames_still]. Qed.
Lemma settle_silent wave w : stays quiet (settle ug uw wave w).
Proof. eapply stays_mono; [apply still_quiet|apply settle_still]. Qed.

(** Removing a topic may end a wave, not change its scans. *)
Lemma dropTopic_kept except t : stays (scansKept except) (dropTopic net t).
Proof.
  intros st. rewrite dropTopic_eq. trans (releaseTopic t st); [|apply kept_quiet, send_silent].
  trans (forgetTopic t st).
  { apply kept_quiet. unfold forgetTopic. by repeat case_bool_decide. }
  unfold releaseTopic. destruct (topicWave (forgetTopic t st) !! t) as [wave|]; [|done]. simpl.
  destruct (waves (forgetTopic t st) !! wave) as [w|] eqn:Ew; [|by apply kept_quiet].
  case_bool_decide; (split; [split; [done|exists []; by rewrite app_nil_r]|]); intros W w' _ _; simpl.
  - rewrite lookup_insert. case_decide as E; [|intros Hw; by exists w'].
    intros [= <-]. subst W. by exists w.
  - intros [_ Hw]%lookup_delete_Some. by exists w'.
Qed.

Lemma applyAdds_kept except ho m order acc : stays (scansKept except) (applyAdds net ho m order acc).
Proof.
  revert acc. induction order as [|t order IH]; intros acc; simpl; [apply stays_ret, _|].
  destruct (m !! t); [|apply IH]. apply stays_bind; [apply _| |intros; apply IH].
  unfold applyAdd. stays_steps; try apply dropTopic_kept. apply kept_quiet. unfold openTopic. by destruct ho.
Qed.

Lemma startWave_kept except mid acc st : scansKept except st (startWave mid acc st).
Proof.
  split.
  - split; [simpl; lia|]. eexists. split; [done|]. apply Forall_app.
    split; case_bool_decide; constructor; simpl; try lia; constructor.
  - intros W w' HW _. simpl. rewrite lookup_insert_ne by lia. intros Hw. by exists w'.
Qed.

Lemma handleMutate_kept except m : stays (scansKept except) (handleMutate cfg net m).
Proof.
  unfold handleMutate. stays_steps; try apply applyAdds_kept.
  - unfold applyRemove. destruct (splitTopic _) as [[kind i]|]; [|apply stays_fail, _].
    apply dropTopic_kept.
  - apply kept_quiet. unfold countLive. by case_bool_decide.
  - apply startWave_kept.
  - eapply stays_mono; [apply (kept_quiet except)|apply send_silent].
Qed.

Lemma completeWave_kept except wave w : stays (scansKept except) (completeWave cfg net ug uw wave w).
Proof.
  unfold completeWave.
  stays_steps; try (eapply stays_mono; [apply (kept_quiet except)|];
    auto using settle_silent, groupFrames_silent, welcomeFrames_silent, send_silent).
  split; [split; [done|exists []; by rewrite app_nil_r]|]. intros W w' _ _. simpl.
  intros [_ Hw]%lookup_delete_Some. by exists w'.
Qed.

Lemma handleBatch_kept b : stays (scansKept (Some (cb_wave b))) (handleBatch cfg net drain ug uw b).
Proof.
  unfold handleBatch, scanDone, flush. stays_steps; try apply completeWave_kept;
    try (eapply stays_mono; [apply (kept_quiet (Some (cb_wave b)))|];
      auto using historyFrames_silent, send_silent); try by apply kept_quiet.
  split; [split; [done|exists []; by rewrite app_nil_r]|]. intros W w' _ He. simpl.
  rewrite lookup_insert_ne by congruence. intros Hw. by exists w'.
Qed.

(** The wave of a batch waits for one scan less once the scan is done. *)
Lemma handleBatch_left b w st :
  waves st !! cb_wave b = Some w →
  wp (handleBatch cfg net drain ug uw b)
    (λ _ st', ∀ w', waves st' !! cb_wave b = Some w' →
       scansLeft w' = if cb_done b then scansLeft w - 1 else scansLeft w) noExit st.
Proof.
  intros Ew. unfold handleBatch. destruct (cb_err b); [done|]. apply wp_bind, wp_modify. wp_step. wp_step.
  simpl. rewrite Ew. apply wp_assoc, wp_bind. eapply wp_mono; [apply (stays_wp quiet)|].
  { apply stays_bind; [apply _|apply historyFrames_silent|intros; apply send_silent]. }
  intros [] st1 (_ & _ & Ew1). simpl in Ew1. apply wp_if; intros Hd; rewrite ?Hd.
  2:{ wp_steps. intros w'. rewrite Ew1, Ew. by intros [= <-]. }
  unfold scanDone. apply wp_if; intros _; wp_steps.
  { intros w'. simpl. rewrite lookup_insert_eq. by intros [= <-]. }
  apply (wp_mono _ (λ _ st2, waves st2 !! cb_wave b = None)).
  - unfold completeWave. apply wp_bind. eapply wp_mono; [apply (stays_wp quiet), settle_silent|].
    intros acc st2 _. apply wp_bind, wp_modify. eapply wp_mono; [apply (stays_wp quiet)|].
    { stays_steps; auto using groupFrames_silent, welcomeFrames_silent, send_silent. }
    intros [] st3 (_ & _ & ->). simpl. apply lookup_delete_eq.
  - intros [] st2 E2. wp_steps. apply wp_if; intros _; [done|]. wp_steps. intros w'. by rewrite E2.
Qed.

Definition batchWave (ev : event) : option nat :=
  match ev with EvBatch b => Some (cb_wave b) | _ => None end.

Lemma handle_kept ev : stays (scansKept (batchWave ev)) (handle cfg net drain ug uw ev).
Proof.
  assert (Hq : ∀ {A} (m : M A), stays quiet m → stays (scansKept None) m)
    by (intros A m; apply stays_mono, kept_quiet).
  destruct ev as [| |e|req|r|b|env| |now sent]; simpl; try (by apply Hq; stays_steps).
  - destruct req as [[m|n|n|]|]; simpl; [apply handleMutate_kept|apply Hq, send_silent|..];
      apply Hq; stays_steps. by case_bool_decide.
  - apply Hq. unfold handleRequestsClosed, flush. by stays_steps.
  - apply handleBatch_kept.
  - apply Hq. unfold handleEnvelope, liveFrames. stays_steps;
      auto using groupFrames_silent, welcomeFrames_silent, send_silent. done.
  - apply Hq. unfold handlePingTick. stays_steps; auto using send_silent; done.
Qed.

(** *** The subscription's topics *)

Lemma dropTopic_gains t : stays gainsMls (dropTopic net t).
Proof.
  intros st. rewrite dropTopic_eq. trans (releaseTopic t st); [|apply gains_still, send_still].
  assert (Hf : gainsMls st (forgetTopic t st)).
  { intros t'. unfold forgetTopic. repeat case_bool_decide; simpl; set_solver. }
  trans (forgetTopic t st); [done|]. apply gains_same. unfold releaseTopic.
  destruct (topicWave _ !! t) as [wave|]; [|done]. simpl.
  destruct (waves (forgetTopic t st) !! wave) as [w|]; [|done]. by case_bool_decide.
Qed.

Lemma applyAdds_gains ho m order acc :
  (∀ t a, m !! t = Some a → add_ok t a) → stays gainsMls (applyAdds net ho m order acc).
Proof.
  intros Hok. revert acc. induction order as [|t order IH]; intros acc; simpl; [apply stays_ret, _|].
  destruct (m !! t) as [a|] eqn:Ea; [|apply IH]. apply stays_bind; [apply _| |intros; apply IH].
  destruct (Hok t a Ea) as (_ & Et & _). assert (Hmls : IsMLSV1 t = true) by (rewrite <- Et; apply IsMLSV1_built).
  unfold applyAdd. stays_steps; try apply dropTopic_gains. intros t'. unfold openTopic.
  destruct ho; simpl; [by left|]. intros [->%elem_of_singleton|?]%elem_of_union; [by right|by left].
Qed.

Lemma handleMutate_gains m : stays gainsMls (handleMutate cfg net m).
Proof.
  unfold handleMutate. apply stays_bind; [apply _|apply stays_gets, _|]. intros [v|e]; [|apply stays_fail, _].
  destruct (parseAdds _ _) as [[order byTopic]|e] eqn:Ep; [|apply stays_fail, _].
  apply parseAdds_parsed in Ep as (_ & _ & Hok); [|apply parsed_nil]. simpl in Hok.
  stays_steps; try (by apply applyAdds_gains).
  - unfold applyRemove. destruct (splitTopic _) as [[kind i]|]; [|apply stays_fail, _].
    apply dropTopic_gains.
  - apply gains_same. unfold countLive. by case_bool_decide.
  - by apply gains_same.
  - eapply stays_mono; [apply gains_still|apply send_still].
Qed.

Lemma handleBatch_gains b : stays gainsMls (handleBatch cfg net drain ug uw b).
Proof.
  unfold handleBatch, scanDone, completeWave, flush.
  stays_steps; try (eapply stays_mono; [apply gains_still|];
    auto using historyFrames_still, send_still, settle_still, groupFrames_still, welcomeFrames_still);
    by apply gains_same.
Qed.

Lemma handle_gains ev : stays gainsMls (handle cfg net drain ug uw ev).
Proof.
  assert (Hq : ∀ {A} (m : M A), stays still m → stays gainsMls m)
    by (intros A m; apply stays_mono, gains_still).
  destruct ev as [| |e|req|r|b|env| |now sent]; simpl; try (by apply Hq; stays_steps).
  - destruct req as [[m|n|n|]|]; simpl; [apply handleMutate_gains|apply Hq, send_still|..];
      apply Hq; stays_steps. by case_bool_decide.
  - apply Hq. unfold handleRequestsClosed, flush. by stays_steps.
  - apply handleBatch_gains.
  - apply Hq. unfold handleEnvelope, liveFrames. stays_steps;
      auto using groupFrames_still, welcomeFrames_still, send_still. done.
  - apply Hq. unfold handlePingTick. stays_steps; auto using send_still; done.
Qed.
End Scans.

(** ** What a Mutate starts *)

Definition unlaunched (st st' : writer) : Prop :=
  nextWave st' = nextWave st ∧ launched st' = launched st.

#[export] Instance unlaunched_preorder : PreOrder unlaunched.
Proof. unfold unlaunched. split; [by intros st|]. intros a b c (?&?) (?&?). split; congruence. Qed.

Lemma unlaunched_quiet st st' : quiet st st' → unlaunched st st'.
Proof. by intros (? & ? & _). Qed.

(** The cursors of a request are within their width. *)
Definition cursorsOk (m : Mutate) : Prop := Forall (λ a, is_u64 (add_IdCursor a)) (mu_Adds m).

Lemma parseAdds_cursors adds p p' :
  Forall (λ a, is_u64 (add_IdCursor a)) adds → (∀ t a, p.2 !! t = Some a → is_u64 (ar_cursor a)) →
  parseAdds p adds = Ok p' → ∀ t a, p'.2 !! t = Some a → is_u64 (ar_cursor a).
Proof.
  revert p. induction adds as [|add adds IH]; intros p Hc Hp; simpl; [by intros [= <-]|].
  apply Forall_cons in Hc as [Ha Hc]. destruct (parseAdd p add) as [p1|] eqn:E; [|done].
  apply IH; [done|]. destruct p as [o m]. unfold parseAdd in E.
  destruct (splitTopic _) as [[kind i]|]; [|done].
  destruct (m !! buildMLSTopic kind i); [case_bool_decide|]; injection E as <-; try done;
    intros t' x; simpl; rewrite lookup_insert; case_decide; try apply Hp; by intros [= <-].
Qed.

Section Opens.
Context (cfg : tunables) (net : nat → send_result) (drain : flush_result).
Hypothesis alive : ∀ i, net i ≠ SendStreamDone.
Context (g : bytes).
Local Abbreviation t := (BuildMLSV1GroupTopic g).

Lemma dropTopic_unlaunched t' : stays unlaunched (dropTopic net t').
Proof.
  intros st. rewrite dropTopic_eq. trans (releaseTopic t' st); [|apply unlaunched_quiet, send_silent].
  trans (forgetTopic t' st); [unfold forgetTopic; by repeat case_bool_decide|].
  unfold releaseTopic. destruct (topicWave (forgetTopic t' st) !! t') as [wave|]; [|done]. simpl.
  destruct (waves (forgetTopic t' st) !! wave); [|done]. by case_bool_decide.
Qed.

Lemma applyAdds_unlaunched ho m order acc : stays unlaunched (applyAdds net ho m order acc).
Proof.
  revert acc. induction order as [|t' order IH]; intros acc; simpl; [apply stays_ret, _|].
  destruct (m !! t'); [|apply IH]. apply stays_bind; [apply _| |intros; apply IH].
  unfold applyAdd. stays_steps; try apply dropTopic_unlaunched. unfold openTopic. by destruct ho.
Qed.

(** The topic just opened: gated from its cursor, with nothing buffered. *)
Definition freshLane (c : Z) (st : writer) : Prop :=
  topicFloor t st = c ∧ t ∈ catchingUp st ∧ t ∈ subscribed st ∧ pendingOf st t = [].

Lemma freshLane_same c st st' : sameLane t st st' → freshLane c st → freshLane c st'.
Proof.
  intros E (H1 & H2 & H3 & H4). pose proof (f_equal l_floor E) as E1. pose proof (f_equal l_gated E) as E2.
  pose proof (f_equal l_live E) as E3. pose proof (f_equal l_pending E) as E4. simpl in *.
  rewrite (bool_decide_eq_true_2 _ H2) in E2. rewrite (bool_decide_eq_true_2 _ H3) in E3.
  apply bool_decide_eq_true_1 in E2, E3.
  split; [congruence|]. split; [done|]. split; [done|]. congruence.
Qed.

(** The adds collected, and the topic's lane if it is among them. *)
Definition opens (acc : newAdds) (st : writer) : Prop :=
  (∀ c, mkGroupCatchup g c ∈ groupAdds acc → freshLane c st ∧ t ∈ accTopics acc) ∧
  groupTopics acc = (λ a, BuildMLSV1GroupTopic (gc_GroupID a)) <$> groupAdds acc ∧
  Forall (λ a, is_u64 (gc_IdCursor a)) (groupAdds acc).

Lemma collectAdd_opens t' a live acc st st' :
  add_ok t' a → is_u64 (ar_cursor a) → opens acc st →
  (∀ c, mkGroupCatchup g c ∈ groupAdds acc → freshLane c st → freshLane c st') →
  (t' = t → freshLane (ar_cursor a) st') → opens (collectAdd t' a live acc) st'.
Proof.
  intros Ha Hc (H1 & H2 & H3) Hold Hnew. pose proof (collectAdd_topics t' a live acc Ha) as Hp.
  destruct Ha as (_ & Hb & Hk). split; [|split].
  - intros c Hin. setoid_rewrite Hp. setoid_rewrite elem_of_cons.
    assert (Hor : mkGroupCatchup g c ∈ groupAdds acc ∨ t' = t ∧ c = ar_cursor a).
    { revert Hin. unfold collectAdd. case_bool_decide as E1; [|case_bool_decide; auto]. simpl.
      intros [?|Hin%list_elem_of_singleton]%elem_of_app; [by left|right]. injection Hin as -> ->.
      split; [|done]. rewrite <- Hb, E1. done. }
    destruct Hor as [Hin'|[-> ->]]; [|auto]. destruct (H1 c Hin'). auto.
  - unfold collectAdd. case_bool_decide as E1; [|case_bool_decide; done]. simpl.
    rewrite fmap_app, <- H2, <- Hb, E1. done.
  - unfold collectAdd. case_bool_decide as E1; [|case_bool_decide; done]. simpl.
    apply Forall_app. split; [done|]. by apply Forall_singleton.
Qed.

Lemma wp_applyAdd_acc ho t' a acc st :
  wp (applyAdd net ho t' a acc)
    (λ acc' _, acc' = acc ∨ acc' = collectAdd t' a (negb ho) acc) noExit st.
Proof.
  unfold applyAdd. wp_steps. repeat (apply wp_if; intros _; [try done; wp_steps; by left|]).
  wp_steps. eapply wp_mono; [apply wp_any|]. intros [] st1 _. wp_steps. by right.
Qed.

Lemma wp_applyAdd_own id a acc st :
  adding id acc st →
  wp (applyAdd net false t a acc)
    (λ acc' st', acc' = acc ∧ st' = st ∨
       acc' = collectAdd t a true acc ∧ freshLane (ar_cursor a) st') noExit st.
Proof.
  intros [Hm Hacc]. unfold applyAdd. wp_steps.
  apply wp_if; intros C1; [done|]. apply wp_if; intros C2; [done|].
  apply wp_if; intros C3; [wp_steps; by left|]. clear C3.
  wp_steps. eapply wp_mono; [by apply (wp_evict net id (accTopics acc) (newlyLive acc))|].
  intros [] st' [(W & Hu & Hh) [Hs Ht]]. wp_steps. right. split; [done|].
  unfold freshLane, openTopic, topicFloor, floorOf, pendingOf. simpl. rewrite lookup_insert_eq.
  split; [done|]. split; [set_solver|]. split; [set_solver|].
  rewrite (pending_gated _ _ _ _ t W); [done|]. intros Hin. by apply (wf_gated W) in Hin.
Qed.

Lemma wp_applyAdd_opens id t' a acc st :
  adding id acc st → add_ok t' a → t' ∉ accTopics acc → is_u64 (ar_cursor a) → opens acc st →
  wp (applyAdd net false t' a acc) opens noExit st.
Proof.
  intros Hadd Ha Hn Hc Ho. destruct (decide (t' = t)) as [->|Hne].
  - eapply wp_mono; [by apply (wp_applyAdd_own id)|]. intros acc' st' [[-> ->]|[-> Hf]]; [done|].
    eapply collectAdd_opens; [done..| |auto]. intros c Hin. by destruct (proj1 Ho c Hin).
  - eapply wp_conseq; [apply wp_conj; [by apply (applyAdd_lane net alive g)|apply wp_applyAdd_acc]| |done].
    intros acc' st' [Hl [-> | ->]].
    + destruct Ho as (H1 & H2 & H3). split; [|done]. intros c Hin. destruct (H1 c Hin).
      split; [by eapply freshLane_same|done].
    + eapply collectAdd_opens; [done..| |done]. intros c _. by apply freshLane_same.
Qed.

Lemma wp_applyAdds_opens id m order acc st :
  adding id acc st → NoDup order → (∀ t', t' ∈ order → t' ∉ accTopics acc) →
  (∀ t' a, m !! t' = Some a → add_ok t' a ∧ is_u64 (ar_cursor a)) → opens acc st →
  wp (applyAdds net false m order acc) (λ acc' st', adding id acc' st' ∧ opens acc' st') noExit st.
Proof.
  revert acc st. induction order as [|t' order IH]; intros acc st Hst Hd Hn Hm Ho; simpl; [by wp_steps|].
  apply NoDup_cons in Hd as [Ht Hd]. destruct (m !! t') as [a|] eqn:E.
  - destruct (Hm t' a E) as [Ha Hc]. assert (Hnt : t' ∉ accTopics acc) by (apply Hn; left).
    wp_steps. eapply wp_conseq; [apply wp_conj; [by apply (wp_applyAdd net id)|by apply (wp_applyAdd_opens id)]| |done].
    intros acc' st' [[Hst' Hnew] Ho']. apply IH; [done..| |done|done]. intros t2 Ht2 Hin.
    apply Hnew in Hin as [Hin| ->]; [|done]. apply (Hn t2); [by right|done].
  - apply IH; [done..| |done|done]. intros t2 Ht2. apply Hn. by right.
Qed.
(** The collected adds of a Mutate, before its wave starts. *)
Lemma wp_adds_opened m order byTopic st :
  wf st → halfClosed st = false → unused (mu_MutateId m) st → mu_HistoryOnly m = false → cursorsOk m →
  parseAdds ([], ∅) (mu_Adds m) = Ok (order, byTopic) →
  wp (forEach (applyRemove net) (mu_Removes m) ≫= λ _,
      applyAdds net (mu_HistoryOnly m) byTopic order noAdds)
    (λ acc st', unlaunched st st' ∧ acc_ok acc ∧ opens acc st') noExit st.
Proof.
  intros [W _] Hh Hu Hho Hc Hp.
  assert (Hcur : ∀ t' a, byTopic !! t' = Some a → is_u64 (ar_cursor a)).
  { apply (parseAdds_cursors (mu_Adds m) ([], ∅) (order, byTopic)); [done| |done].
    intros t' a. simpl. by rewrite lookup_empty. }
  apply parseAdds_parsed in Hp as (Hd & _ & Hok); [|apply parsed_nil]. simpl in *.
  eapply wp_conseq; [apply (wp_conj _ (λ _, unlaunched st) (λ acc st', adding (mu_MutateId m) acc st' ∧
    opens acc st') noExit noExit); [apply stays_wp|]| |done].
  - apply stays_bind; [apply _|apply stays_forEach; [apply _|]|intros; apply applyAdds_unlaunched].
    intros wire _. unfold applyRemove. destruct (splitTopic wire) as [[kind i]|]; [|apply stays_fail, _].
    apply dropTopic_unlaunched.
  - wp_steps. eapply wp_mono; [apply (wp_forEach (mutating (mu_MutateId m) [] 0)); [by split|]|].
    { intros wire st1 _ Hst. unfold applyRemove. destruct (splitTopic wire) as [[kind i]|]; [|done].
      apply wp_dropTopic; [apply mutating_book|done|]. by apply releaseTopic_mutating. }
    intros [] st1 Hst. rewrite Hho. apply wp_applyAdds_opens; [split; [done|apply acc_ok_nil]|done| | |].
    + by intros t' _ ?%elem_of_nil.
    + intros t' a Ha. split; [by apply Hok|by eapply Hcur].
    + split; [by intros c ?%elem_of_nil|]. split; [done|constructor].
  - by intros acc st' (Hl & (_ & Ha) & Ho).
Qed.

(** The scans a Mutate starts are those of one new wave. A group's catch-up among them replays the
    group from the cursor that is now its floor, with the topic gated and nothing buffered. *)
Lemma handleMutate_opens m st :
  wf st → halfClosed st = false → mu_HistoryOnly m = false → cursorsOk m →
  wp (handleMutate cfg net m)
    (λ _ st', ∃ started, launched st' = launched st ++ started ∧
       ∀ adds wave c, scanGroups adds wave ∈ started → mkGroupCatchup g c ∈ adds →
         wave = nextWave st ∧ nextWave st' = S wave ∧ group_adds adds ∧
         freshLane c st' ∧ topicWave st' !! t = Some wave ∧
         (started = [scanGroups adds wave] ∨
          ∃ ws, started = [scanGroups adds wave; scanWelcomes ws wave]) ∧
         ∃ w, waves st' !! wave = Some w ∧ scansLeft w = Z.of_nat (length started)) noExit st.
Proof.
  intros W Hh Hho Hc. unfold handleMutate. wp_steps.
  destruct (validateMutate cfg m st) as [[]|e] eqn:Hv; [|done].
  apply validateMutate_ok in Hv as [_ Hu].
  destruct (parseAdds ([], ∅) (mu_Adds m)) as [[order byTopic]|e] eqn:Hp; [|done].
  assert (Hid : unused (mu_MutateId m) st).
  { destruct (decide (mu_MutateId m = 0)) as [->|]; [by apply wf_unused|auto]. }
  apply (wp_assoc _ (λ _, applyAdds net _ byTopic order noAdds)).
  apply wp_bind. eapply wp_mono; [by apply wp_adds_opened|].
  intros acc st1 ([En El] & Hacc & H1 & H2 & H3). simpl. wp_steps.
  assert (Hq : quiet st1 (countLive (newlyLive acc) st1)) by (unfold countLive; by case_bool_decide).
  destruct Hq as (En2 & El2 & Ew2). rewrite En in En2. rewrite El in El2.
  apply wp_if; intros _; wp_steps; last first.
  { eapply wp_mono; [apply (stays_wp quiet), send_silent|]. intros [] st2 (_ & El3 & _).
    exists []. rewrite El3, El2, app_nil_r. split; [done|]. by intros ? ? ? ?%elem_of_nil. }
  eexists. split; [simpl; by rewrite El2, En2|]. intros adds wave c Hin Hg.
  assert (Hadds : adds = groupAdds acc ∧ wave = nextWave st ∧ groupAdds acc ≠ []).
  { apply elem_of_app in Hin as [Hin|Hin]; case_bool_decide; try by apply elem_of_nil in Hin.
    all: by apply list_elem_of_singleton in Hin; simplify_eq. }
  clear Hin. destruct Hadds as (-> & -> & Hne). destruct (H1 c Hg) as [Hf Hacc2].
  split; [done|]. split; [simpl; by rewrite En2|]. split; [split; [|done]|].
  { apply (NoDup_fmap_1 BuildMLSV1GroupTopic). pose proof (ao_nodup acc Hacc) as Hnd.
    apply NoDup_app in Hnd as [Hnd _]. rewrite H2 in Hnd. by rewrite <- list_fmap_compose. }
  split; [|split; [|split]].
  - change (freshLane c (countLive (newlyLive acc) st1)). unfold countLive. case_bool_decide; exact Hf.
  - simpl. rewrite lookup_assign, En2. by rewrite decide_True.
  - rewrite bool_decide_false by done. case_bool_decide; [by left|]. right. by eexists.
  - simpl. rewrite En2, lookup_insert_eq. eexists. split; [done|]. simpl.
    rewrite bool_decide_false by done. by case_bool_decide.
Qed.
End Opens.
