(* ===== verification/Subscribe.v ===== *)
(** A Subscribe stream beside its node: the writer, the subscription it grows and shrinks in the
    dispatcher, its catch-up scans, and the publishers and workers that run meanwhile, as one
    transition system ([connRun]); and the invariant of its runs ([held]). *)

From S2P Require Import Prelude Topic Types Frames Writer WriterLogic WriterInv WriterOrder WriterSeam TopicLane Dispatcher MlsDb ReadStore CatchUp StreamScans Store Worker LiveRows ScanLive.

(** * The system *)

(** The node, the stream's writer, and how many batches of each scan it has taken. *)
Record conn := mkConn {
  c_node : Node;
  c_writer : writer;
  c_taken : gmap nat nat;
}.

#[export] Instance conn_eta : Eta conn := λ s, mkConn (c_node s) (c_writer s) (c_taken s).

(** What may happen next: an event of the node; a case of the writer's select other than the two
    below; the select takes an envelope from the subscription; it takes a batch of a scan. *)
Inductive connEvent :=
  | NodeEv (ev : nodeEvent)
  | SelectEv (ev : event)
  | TakeEnvelope
  | TakeBatch (scan : nat).

Section Conn.
Context (cfg : tunables) (net : nat → send_result) (drain : flush_result).
Context (ug : bytes → option GroupMessage) (uw : bytes → option WelcomeMessage).
Context (marshalGroup : GroupMessage → result bytes) (marshalWelcome : WelcomeMessage → result bytes)
  (sha256 : bytes → bytes).
(** The stream's subscription, and what its scans hand over. *)
Context (k : nat) (outs : nat → list catchUpBatch).

(** A handler's sub.Add and sub.Remove calls, together. *)
Definition syncTopics (st st' : writer) (n : Node) : Node :=
  n <| dispatcher := Add k (elements (subTopics st'))
                       (Remove k (elements (subTopics st ∖ subTopics st')) (dispatcher n)) |>.

(** The writer handles an event and goes on. *)
Definition serve (ev : event) (s : conn) : option conn :=
  match handle cfg net drain ug uw ev (c_writer s) with
  | (Cont _, st') =>
      Some (s <| c_node := syncTopics (c_writer s) st' (c_node s) |> <| c_writer := st' |>)
  | (Exit _, _) => None
  end.

(** The cases of the select that [SelectEv] stands for: requests come only before half-close. *)
Definition selectable (ev : event) (st : writer) : bool :=
  match ev with
  | EvBatch _ | EvEnvelope _ => false
  | EvRequest _ | EvRequestsClosed _ => negb (halfClosed st)
  | _ => true
  end.

Definition connStep (ev : connEvent) (s : conn) : option conn :=
  match ev with
  | NodeEv ev =>
      Some (s <| c_node := (stepNode marshalGroup marshalWelcome sha256 ev (c_node s)).1 |>)
  | SelectEv ev => if selectable ev (c_writer s) then serve ev s else None
  | TakeEnvelope =>
      match receive k (dispatcher (c_node s)) with
      | (Some env, d) => serve (EvEnvelope env) (s <| c_node := c_node s <| dispatcher := d |> |>)
      | (None, _) => None
      end
  | TakeBatch j =>
      let i := default 0%nat (c_taken s !! j) in
      match launched (c_writer s) !! j, outs j !! i with
      | Some _, Some b => serve (EvBatch b) (s <| c_taken := <[j := S i]> (c_taken s) |>)
      | _, _ => None
      end
  end.

(** The runs in which the handler goes on throughout. *)
Fixpoint connRun (evs : list connEvent) (s : conn) : option conn :=
  match evs with
  | [] => Some s
  | ev :: evs => match connStep ev s with Some s => connRun evs s | None => None end
  end.

(** The handler's start: its subscription, then the Started frame. *)
Definition openConn (now : Z) (n : Node) : option conn :=
  match open cfg net (initWriter now) with
  | (Cont _, st) =>
      Some {| c_node := n <| dispatcher := NewSubscription subscribeBacklog (dispatcher n) |>;
              c_writer := st; c_taken := ∅ |}
  | (Exit _, _) => None
  end.

(** A scan's run: its queries see the database as it is at increasing points of the system's run,
    once the scan has been started. *)
Definition scanOutput (env : scanEnv) (fuel : nat) (sc : scan) : option (list catchUpBatch) :=
  match sc with
  | scanGroups adds wave => catchUpGroups cfg env fuel adds wave
  | scanWelcomes adds wave => catchUpWelcomes cfg env fuel adds wave
  end.

Definition scanRuns (evs : list connEvent) (s0 : conn) (j : nat) (sc : scan) : Prop :=
  ∃ env fuel (at_ : nat → nat), scanOutput env fuel sc = Some (outs j) ∧
    (∀ p q, (p ≤ q)%nat → (at_ p ≤ at_ q)%nat) ∧
    ∀ q, ∃ s, connRun (take (at_ q) evs) s0 = Some s ∧
      (j < length (launched (c_writer s)))%nat ∧ snapshot env q = db (c_node s).

(** Events in which rows become visible in id order and only the workers dispatch on MLS topics
    ([smoothNode]), and whose Mutates have cursors of their width. *)
Definition smoothConn (ev : connEvent) : Prop :=
  match ev with
  | NodeEv ev => smoothNode k ev
  | SelectEv (EvRequest (Some (ReqMutate m))) => cursorsOk m
  | _ => True
  end.

(** * Runs *)

Lemma connRun_app evs1 evs2 s : connRun (evs1 ++ evs2) s = connRun evs1 s ≫= connRun evs2.
Proof.
  revert s. induction evs1 as [|ev evs1 IH]; intros s; [done|]. simpl.
  destruct (connStep ev s); [apply IH|done].
Qed.

Lemma serve_spec ev s s' :
  serve ev s = Some s' →
  handle cfg net drain ug uw ev (c_writer s) = (Cont tt, c_writer s') ∧
  c_node s' = syncTopics (c_writer s) (c_writer s') (c_node s) ∧ c_taken s' = c_taken s.
Proof.
  unfold serve. destruct (handle _ _ _ _ _ _ _) as [[[]|r] st']; [|done]. by intros [= <-].
Qed.

Lemma foldl_insert_true (ts : list string) (m : gmap string bool) t :
  t ∈ ts ∨ m !! t = Some true → foldl (λ m t, <[t := true]> m) m ts !! t = Some true.
Proof.
  revert m. induction ts as [|t' ts IH]; intros m [Hin|Hm]; simpl; [by apply elem_of_nil in Hin|done|..];
    apply IH.
  - apply elem_of_cons in Hin as [->|Hin]; [|by left]. right. apply lookup_insert_eq.
  - right. rewrite lookup_insert. by case_decide.
Qed.

(** The handler's topic changes leave the channel alone. *)
Lemma foldl_insert_only (ts : list string) (m : gmap string bool) t :
  foldl (λ m t, <[t := true]> m) m ts !! t = Some true → t ∈ ts ∨ m !! t = Some true.
Proof.
  revert m. induction ts as [|t' ts IH]; intros m; simpl; [by right|]. intros [H|H]%IH; [left; by right|].
  apply lookup_insert_Some in H as [[-> _]|[_ H]]; [left; left|by right].
Qed.

Lemma foldl_delete_only (ts : list string) (m : gmap string bool) t :
  foldl (λ m t, delete t m) m ts !! t = Some true → m !! t = Some true.
Proof.
  revert m. induction ts as [|t' ts IH]; intros m; simpl; [done|]. intros H%IH.
  by apply lookup_delete_Some in H as [_ H].
Qed.

Lemma sync_spec st st' n x :
  objects (dispatcher n) !! k = Some x → all x = false →
  let n' := syncTopics st st' n in
  db n' = db n ∧ groupCursor n' = groupCursor n ∧
  subscriptions (dispatcher n') = subscriptions (dispatcher n) ∧
  (∀ ch, accounted k (dispatcher n) ch → accounted k (dispatcher n') ch) ∧
  ∃ x', objects (dispatcher n') !! k = Some x' ∧ all x' = false ∧
    (∀ t, t ∈ subTopics st' → topics x' !! t = Some true) ∧
    (∀ t, topics x' !! t = Some true → t ∈ subTopics st' ∨ topics x !! t = Some true).
Proof.
  intros Hx Ha n'. split; [done|]. split; [done|]. split; [done|].
  unfold n', syncTopics, Add, Remove, updateSub. simpl. rewrite !lookup_alter_eq, Hx. simpl.
  rewrite Ha. split.
  - intros ch (x0 & Hx0 & Hk & Hch & Hcap & Hcl). rewrite Hx in Hx0. injection Hx0 as <-.
    eexists. split; [simpl; by rewrite !lookup_alter_eq, Hx|]. simpl. rewrite Ha. by split_and!.
  - eexists. split; [done|]. split; [done|]. split; intros t Ht; simpl in *.
    + apply foldl_insert_true. left. by apply elem_of_elements.
    + apply foldl_insert_only in Ht as [Ht%elem_of_elements|Ht%foldl_delete_only]; auto.
Qed.

(** * The invariant *)

Section Held.
Context (enc : GroupMessage → bytes).
Hypothesis marshal_total : ∀ m, marshalGroup m = Ok (enc m).
Hypothesis unmarshal_enc : ∀ m, ug (enc m) = Some m.

Local Abbreviation nodeStep := (stepNode marshalGroup marshalWelcome sha256).

Lemma from_own e : fromWorker enc e → ownGroup ug e.
Proof.
  intros [[r ->]|[key Ek]]; unfold ownGroup; simpl.
  - intros _ m. rewrite unmarshal_enc. by intros [= <-].
  - rewrite Ek, IsMLSV1Welcome_welcome. done.
Qed.

Record held (s : conn) : Prop := {
  h_wf : wf (c_writer s);
  h_pending : pendingAll (ownGroup ug) (c_writer s);
  h_waves : Forall (λ sc, (waveOf sc < nextWave (c_writer s))%nat) (launched (c_writer s));
  h_taken : ∀ i n, c_taken s !! i = Some n → (i < length (launched (c_writer s)))%nat;
  h_keyed : keyedNode (c_node s);
  h_cursor : groupCursor (c_node s) ≤ seqOf (c_node s);
  h_mls : ∀ t, t ∈ subTopics (c_writer s) → IsMLSV1 t = true;
  h_topics : ∃ x, objects (dispatcher (c_node s)) !! k = Some x ∧ mlsOnly x ∧
    ∀ t, t ∈ subscribed (c_writer s) → topics x !! t = Some true;
  h_channel : ∃ ch, accounted k (dispatcher (c_node s)) ch ∧
    Forall (settledEnvelope enc (c_node s)) ch;
}.

(** The rows of every group only grow. *)
Definition nodeGrows (n n' : Node) : Prop :=
  (∀ g, grows g n n') ∧ groupCursor n ≤ groupCursor n'.

#[export] Instance nodeGrows_preorder : PreOrder nodeGrows.
Proof.
  split; [intros n; split; [intros g; apply grows_refl|lia]|].
  intros a b c [H1 ?] [H2 ?]. split; [intros g; by eapply grows_trans|lia].
Qed.

Lemma settled_grows n n' e : nodeGrows n n' → settledEnvelope enc n e → settledEnvelope enc n' e.
Proof.
  intros [Hg Hc] [(r & Hr & Hle & ->)|H]; [|by right]. left. exists r. split; [|split; [lia|done]].
  destruct (Hg (g_GroupID r)) as (new & E & _). apply (rows_elem (g_GroupID r) n').
  rewrite E. apply elem_of_app. left. by apply rows_elem.
Qed.

Lemma node_step_grows ev n :
  smoothNode k ev → keyedNode n → groupCursor n ≤ seqOf n → seqOf (nodeStep ev n).1 ≤ maxInt64 →
  nodeGrows n (nodeStep ev n).1 ∧ keyedNode (nodeStep ev n).1 ∧
  groupCursor (nodeStep ev n).1 ≤ seqOf (nodeStep ev n).1.
Proof.
  intros Hev Hk Hc Hmax.
  assert (Hin : in_order (BuildMLSV1GroupTopic "") ev)
    by (destruct ev as [| | | | |[[env|]| | | | | |]]; try done; simpl in *; intros E;
        by rewrite E, group_topic_mls in Hev).
  pose proof (advances_step marshalGroup marshalWelcome sha256 enc marshal_total "" ev n
    (keyed_node_ok n Hk Hc) Hin) as Hadv.
  pose proof (λ g, node_grows marshalGroup marshalWelcome sha256 g k ev n Hev Hk Hmax) as Hg.
  destruct (nodeStep ev n) as [n' ops]. destruct Hadv as (I & Hle & _). simpl in *.
  split; [split; [apply Hg|done]|]. split; [apply (Hg "")|apply I].
Qed.

Lemma held_node ev s :
  held s → smoothNode k ev → seqOf (nodeStep ev (c_node s)).1 ≤ maxInt64 →
  held (s <| c_node := (nodeStep ev (c_node s)).1 |>).
Proof.
  intros [Hw Hp Hl Htk Hk Hc Hmls (x & Hx & Ha & Ht) (ch & Hacc & Hch)] Hev Hmax.
  destruct (node_step_grows ev (c_node s) Hev Hk Hc Hmax) as (Hg & Hk' & Hc').
  pose proof (worker_settled marshalGroup marshalWelcome sha256 enc marshal_total k ev (c_node s) Hev
    (proj1 Hk)) as Hops.
  pose proof (step_dispatcher marshalGroup marshalWelcome sha256 ev (c_node s)) as Hd.
  destruct (channel_good k (settledEnvelope enc (nodeStep ev (c_node s)).1) (nodeStep ev (c_node s)).2
    (dispatcher (c_node s)) ch x) as (ch' & x' & H1 & H2 & H3 & H4 & H5); [done| |done|done|done|].
  { eapply Forall_impl; [done|]. intros e. by apply settled_grows. }
  rewrite <- Hd in *. split; try done; [|by exists ch'].
  exists x'. split; [done|]. rewrite H4. split; [by apply (mlsOnly_same x)|done].
Qed.

(** The writer's part, for any event it handles. *)
Lemma held_serve ev s s' :
  held s → enabled (c_writer s) ev → envelopeIn (ownGroup ug) ev → serve ev s = Some s' →
  held s' ∧ nodeGrows (c_node s) (c_node s').
Proof.
  intros [Hw Hp Hl Htk Hk Hc Hmls (x & Hx & Ha & Ht) (ch & Hacc & Hch)] Hen Hev
    (Hh & En & Et)%serve_spec.
  pose proof (wp_cont _ _ _ _ _ _ (handle_wf cfg net drain ug uw ev _ Hw Hen) Hh) as Hw'. simpl in Hw'.
  pose proof (wp_cont _ _ _ _ _ _ (handle_pending cfg net drain ug uw _ ev _ Hp Hev) Hh) as Hp'.
  pose proof (handle_kept cfg net drain ug uw ev (c_writer s)) as [[Hnw (new & El & Hnew)] _].
  pose proof (handle_gains cfg net drain ug uw ev (c_writer s)) as Hg.
  rewrite Hh in *. simpl in *.
  assert (Hmls' : ∀ t, t ∈ subTopics (c_writer s') → IsMLSV1 t = true) by (intros t [?|?]%Hg; auto).
  destruct (sync_spec (c_writer s) (c_writer s') (c_node s) x Hx (proj1 Ha))
    as (E1 & E2 & E3 & H4 & x' & Hx' & Ha' & Ht' & Hold).
  rewrite <- En in *.
  assert (Hgr : nodeGrows (c_node s) (c_node s')).
  { split; [|lia]. intros g. apply grows_same; [by rewrite E1|unfold seqOf; rewrite E1; lia]. }
  split; [|done]. split; try done.
  - rewrite El. apply Forall_app. split; (eapply Forall_impl; [done|]); simpl; lia.
  - rewrite Et, El, length_app. intros i n Hi. specialize (Htk i n Hi). lia.
  - unfold keyedNode, seqOf. by rewrite E1.
  - unfold seqOf. by rewrite E1, E2.
  - exists x'. split; [done|]. split.
    + split; [done|]. intros t [?|?]%Hold; [by apply Hmls'|by apply Ha].
    + intros t Hin. apply Ht'. by rewrite (wf_sub (proj1 Hw')).
  - exists ch. split; [by apply H4|]. eapply Forall_impl; [done|]. intros e. by apply settled_grows.
Qed.

(** Taking an envelope leaves a good channel. *)
Lemma held_receive s env d :
  held s → receive k (dispatcher (c_node s)) = (Some env, d) →
  settledEnvelope enc (c_node s) env ∧ held (s <| c_node := c_node s <| dispatcher := d |> |>).
Proof.
  intros [Hw Hp Hl Htk Hk Hc Hmls (x & Hx & Ha & Ht) (ch & Hacc & Hch)] Hr.
  destruct ch as [|e ch].
  { destruct Hacc as (x0 & Hx0 & _ & Hem & _). unfold receive in Hr. by rewrite Hx0, Hem in Hr. }
  destruct (receive_channel k _ _ _ Hacc) as [E Hacc']. rewrite E in Hr. injection Hr as -> <-.
  apply Forall_cons in Hch as [He Hch]. split; [done|]. split; try done; [|by exists ch].
  exists (x <| MessagesCh := ch |>). simpl. rewrite lookup_alter_eq, Hx. by split_and!.
Qed.

Lemma selectable_enabled ev st :
  selectable ev st = true → enabled st ev ∧ envelopeIn (ownGroup ug) ev.
Proof.
  unfold selectable, enabled, envelopeIn. destruct ev; try done; intros H; (split; [|done]);
    by destruct (halfClosed st).
Qed.

Lemma held_taken s j n :
  held s → (j < length (launched (c_writer s)))%nat → held (s <| c_taken := <[j := n]> (c_taken s) |>).
Proof.
  intros [] Hj. split; try done. simpl. intros i m. rewrite lookup_insert. case_decide; [by subst|eauto].
Qed.

Lemma held_step ev s s' :
  held s → smoothConn ev → connStep ev s = Some s' → seqOf (c_node s') ≤ maxInt64 →
  held s' ∧ nodeGrows (c_node s) (c_node s').
Proof.
  intros H Hev Hs Hmax. destruct ev as [ev|ev| |j]; simpl in Hs.
  - injection Hs as <-. split; [by apply held_node|]. simpl in *. by apply node_step_grows; [|apply H..|].
  - destruct (selectable ev (c_writer s)) eqn:E; [|done]. apply selectable_enabled in E as [? ?].
    by apply (held_serve ev).
  - destruct (receive k _) as [[env|] d] eqn:E; [|done].
    destruct (held_receive s env d H E) as [He H'].
    apply (held_serve _ _ _ H') in Hs; [done|done|].
    simpl. by apply from_own, (settled_from enc (c_node s)).
  - destruct (launched (c_writer s) !! j) eqn:El; [|done]. destruct (outs j !! _) as [b|]; [|done].
    apply lookup_lt_Some in El. by apply (held_serve _ _ _ (held_taken _ _ _ H El)) in Hs.
Qed.

(** Sequence numbers only grow, so a bound at the end of a run holds throughout. *)
Lemma connStep_seq ev s s' : connStep ev s = Some s' → seqOf (c_node s) ≤ seqOf (c_node s').
Proof.
  assert (Hserve : ∀ ev s s', serve ev s = Some s' → seqOf (c_node s) = seqOf (c_node s'))
    by (intros ? ? ? (_ & -> & _)%serve_spec; done).
  destruct ev as [ev|ev| |j]; simpl.
  - intros [= <-]. simpl. apply nodeStep_seq.
  - destruct (selectable _ _); [|done]. intros ->%Hserve. lia.
  - destruct (receive k _) as [[env|] d]; [|done]. intros E%Hserve. simpl in E. unfold seqOf in *. simpl in E. lia.
  - destruct (launched (c_writer s) !! j); [|done]. destruct (outs j !! _) as [b|]; [|done].
    intros E%Hserve. simpl in E. lia.
Qed.

Lemma run_seq evs s s' : connRun evs s = Some s' → seqOf (c_node s) ≤ seqOf (c_node s').
Proof.
  revert s. induction evs as [|ev evs IH]; intros s; simpl; [intros [= ->]; lia|].
  destruct (connStep ev s) as [s1|] eqn:E; [|done]. intros H. apply connStep_seq in E. apply IH in H. lia.
Qed.

Lemma held_run evs s s' :
  held s → Forall smoothConn evs → connRun evs s = Some s' → seqOf (c_node s') ≤ maxInt64 →
  held s' ∧ nodeGrows (c_node s) (c_node s').
Proof.
  revert s. induction evs as [|ev evs IH]; intros s H Hevs Hr Hmax; simpl in Hr.
  { by injection Hr as <-. }
  apply Forall_cons in Hevs as [Hev Hevs]. destruct (connStep ev s) as [s1|] eqn:E; [|done].
  pose proof (run_seq _ _ _ Hr). destruct (held_step ev s s1 H Hev E ltac:(lia)) as [H1 Hg1].
  destruct (IH s1 H1 Hevs Hr Hmax) as [H2 Hg2]. split; [done|by etrans].
Qed.

(** Scans started stay started, and new ones are for new waves. *)
Lemma step_launches ev s s' : connStep ev s = Some s' → launches (c_writer s) (c_writer s').
Proof.
  assert (Hserve : ∀ ev s s', serve ev s = Some s' → launches (c_writer s) (c_writer s')).
  { intros ev0 s0 s0' (Hh & _)%serve_spec.
    pose proof (handle_kept cfg net drain ug uw ev0 (c_writer s0)) as [Hl _]. by rewrite Hh in Hl. }
  destruct ev as [ev|ev| |j]; simpl.
  - by intros [= <-].
  - destruct (selectable _ _); [|done]. apply Hserve.
  - destruct (receive k _) as [[env|] d]; [|done]. intros H%Hserve. exact H.
  - destruct (launched (c_writer s) !! j); [|done]. destruct (outs j !! _) as [b|]; [|done].
    intros H%Hserve. exact H.
Qed.

Lemma run_launches evs s s' : connRun evs s = Some s' → launches (c_writer s) (c_writer s').
Proof.
  revert s. induction evs as [|ev evs IH]; intros s; simpl; [by intros [= ->]|].
  destruct (connStep ev s) as [s1|] eqn:E; [|done]. intros H. apply step_launches in E.
  etrans; [exact E|by apply IH].
Qed.

Lemma held_open now n s :
  keyedNode n → groupCursor n ≤ seqOf n → k = nextSub (dispatcher n) → openConn now n = Some s → held s.
Proof.
  intros Hk Hc Ek. unfold openConn. destruct (open cfg net (initWriter now)) as [[[]|r] st] eqn:Ho; [|done].
  intros [= <-]. pose proof (open_wf cfg net now st Ho) as Hw.
  assert (Hb : same_book (initWriter now) st ∧ launched st = [] ∧ subTopics st = ∅).
  { unfold open in Ho. pose proof (send_book net (startedFrame cfg) (initWriter now)) as Hb.
    pose proof (send_still net (startedFrame cfg) (initWriter now)) as [(_ & Hl & _) Ht].
    by rewrite Ho in Hb, Hl, Ht. }
  destruct Hb as [(_ & _ & _ & Esub & _ & Ep & _)%same_book_fields [El Et]]. simpl in Esub, Ep.
  split; try done; simpl.
  - intros t envs. rewrite <- Ep. by rewrite lookup_empty.
  - rewrite El. constructor.
  - intros t. rewrite Et. set_solver.
  - exists (mkSubscription [] (Z.max subscribeBacklog minBacklogBufferLength) false ∅ false).
    rewrite Ek, lookup_insert_eq. split; [done|]. split; [split; [done|]|].
    + intros t Ht. simpl in Ht. by rewrite lookup_empty in Ht.
    + intros t. rewrite <- Esub. set_solver.
  - exists []. split; [|constructor]. eexists. simpl. rewrite Ek, lookup_insert_eq.
    split_and!; [done|lia|done|simpl; unfold minBacklogBufferLength; lia|done].
Qed.
End Held.
End Conn.
