(* ===== verification/SubscribeComplete.v ===== *)
(** What a client of a Subscribe stream gets of one group after a Mutate adds it: the catch-up
    scan, the live messages buffered behind it and the live tail together, while other clients
    publish, the worker polls, and other Mutates change the stream. *)

From S2P Require Import Prelude Topic Types Frames Writer Sample WriterLogic WriterInv WriterOrder WriterSeam TopicLane Dispatcher MlsDb ReadStore CatchUp StreamScans Store Worker LiveRows ScanLive Subscribe.

(** * The rows of the group *)

Section Rows.
Context (c c0 reach : Z) (rows : list GroupMessageRow).
Hypothesis Ha : ascending g_ID rows.
Hypothesis Hids : ∀ r, r ∈ rows → 0 < g_ID r ≤ maxInt64.

Lemma conv_id r : r ∈ rows → groupID (toGroupMessage r) = g_ID r.
Proof. intros Hr. by destruct (row_above r (Hids r Hr)). Qed.

Lemma conv_ascending l : (∀ r, r ∈ l → r ∈ rows) → ascending g_ID l → ascending groupID (conv l).
Proof.
  intros Hl. unfold conv. induction l as [|r l IH]; [intros _; constructor|]. intros [Hr H]%ascending_cons.
  apply ascending_cons. split; [|apply IH; [set_solver|done]].
  intros m (x & -> & Hx)%list_elem_of_fmap. rewrite !conv_id by set_solver. by apply Hr.
Qed.

Lemma conv_last l : (∀ r, r ∈ l → r ∈ rows) → groupID <$> last (conv l) = g_ID <$> last l.
Proof.
  intros Hl. unfold conv. rewrite fmap_last. destruct (last l) as [r|] eqn:E; [|done]. simpl.
  rewrite conv_id; [done|]. apply Hl. by apply last_Some_elem_of.
Qed.

(** The rows taken from the subscription are the first ones above the worker's cursor. *)
Lemma taken_elem q P rest x :
  range g_ID c0 q rows = P ++ rest → x ∈ rows → c0 < g_ID x ≤ lastOf c0 P → x ∈ P.
Proof.
  intros Er Hx Hle. destruct P as [|p P _] using rev_ind; [unfold lastOf in Hle; simpl in Hle; lia|].
  rewrite lastOf_snoc in Hle. assert (Hap : ascending g_ID (range g_ID c0 q rows)) by (by apply ascending_filter).
  assert (Hp : p ∈ range g_ID c0 q rows) by (rewrite Er; set_solver).
  apply list_elem_of_filter in Hp as [Hp _].
  assert (Hin : x ∈ range g_ID c0 q rows) by (apply list_elem_of_filter; split; [lia|done]).
  rewrite Er in Hin, Hap. apply elem_of_app in Hin as [?|Hin]; [done|].
  apply ascending_app in Hap as (Hap & _ & _). specialize (Hap p x ltac:(set_solver) Hin). lia.
Qed.

Lemma taken_bounds q P rest x :
  range g_ID c0 q rows = P ++ rest → x ∈ P → x ∈ rows ∧ c0 < g_ID x ≤ lastOf c0 P.
Proof.
  intros Er Hx. assert (Hin : x ∈ range g_ID c0 q rows) by (rewrite Er; set_solver).
  apply list_elem_of_filter in Hin as [Hlt Hin]. split; [done|]. split; [lia|].
  assert (Hap : ascending g_ID (P ++ rest)) by (rewrite <- Er; by apply ascending_filter).
  apply ascending_app in Hap as (_ & Hap & _).
  destruct P as [|p P _] using rev_ind; [by apply elem_of_nil in Hx|]. rewrite lastOf_snoc.
  apply ascending_app in Hap as (Hap & _ & _).
  apply elem_of_app in Hx as [Hx|Hx%list_elem_of_singleton]; [|subst; lia].
  specialize (Hap x p Hx ltac:(left)). lia.
Qed.

(** The topic's rows above [c] have been sent up to [w], and [floor] guards what was sent. *)
Definition caughtUp (w floor : Z) : Prop :=
  c ≤ floor ≤ w ∧ ∀ r, r ∈ rows → c < g_ID r ≤ w → g_ID r ≤ floor.

(** How far the stream has sent once the topic is open. *)
Definition sentTo (P : list GroupMessageRow) : Z := Z.max (Z.max c reach) (lastOf c0 P).

(** The history, sent from the topic's starting floor. *)
Lemma history_sent :
  let h := conv (range g_ID c reach rows) in
  freshOver groupID c h = h ∧ caughtUp (Z.max c reach) (floorAfter groupID c h).
Proof.
  cbv zeta. set (l := range g_ID c reach rows).
  assert (Hl : ∀ r, r ∈ l → r ∈ rows ∧ c < g_ID r ≤ reach) by (intros r [? ?]%list_elem_of_filter; done).
  assert (Hal : ascending g_ID l) by (by apply ascending_filter).
  destruct (freshOver_ascending groupID c (conv l)) as [E1 E2].
  { apply conv_ascending; [intros r Hr; by apply Hl|done]. }
  { intros m (x & -> & Hx)%list_elem_of_fmap. destruct (Hl x Hx). rewrite conv_id by done. lia. }
  split; [done|]. rewrite E2, conv_last by (intros r Hr; by apply Hl). unfold caughtUp.
  destruct (last l) as [y|] eqn:Ey; simpl.
  - apply last_Some in Ey as [l' El]. destruct (Hl y) as [Hy Hyl]; [rewrite El; set_solver|].
    split; [lia|]. intros r Hr Hr'.
    assert (Hin : r ∈ l) by (apply list_elem_of_filter; split; [lia|done]).
    rewrite El in Hin, Hal. apply ascending_app in Hal as (Hal & _ & _).
    apply elem_of_app in Hin as [Hin|Hin%list_elem_of_singleton]; [|subst; lia].
    specialize (Hal r y Hin ltac:(left)). lia.
  - split; [lia|]. intros r Hr Hr'. apply last_None in Ey.
    assert (Hin : r ∈ l) by (apply list_elem_of_filter; split; [lia|done]).
    rewrite Ey in Hin. by apply elem_of_nil in Hin.
Qed.

(** The scan reaches past every row the worker had dispatched when it was started. *)
Hypothesis Hlow : ∀ r, r ∈ rows → g_ID r ≤ c0 → g_ID r ≤ reach.

(** What the wave folds in: the rows taken while the topic was gated, over the history's floor. *)
Lemma folded_range q P rest floor :
  range g_ID c0 q rows = P ++ rest → caughtUp (Z.max c reach) floor →
  range g_ID c (sentTo P) rows = range g_ID c reach rows ++ filter (λ r, floor < g_ID r) P.
Proof.
  intros Er [Hfl Hrows]. unfold sentTo.
  assert (HP : ascending g_ID P).
  { assert (Hap : ascending g_ID (P ++ rest)) by (rewrite <- Er; by apply ascending_filter).
    by apply ascending_app in Hap as (_ & ? & _). }
  assert (Hs : ascending g_ID (range g_ID c reach rows ++ filter (λ r, floor < g_ID r) P)).
  { apply ascending_app. split; [|split; by apply ascending_filter].
    intros a b [Hx Hin]%list_elem_of_filter [Hb _]%list_elem_of_filter.
    specialize (Hrows a Hin ltac:(lia)). lia. }
  apply (ascending_unique g_ID); [by apply ascending_filter|done|].
  apply NoDup_Permutation; [by apply (ascending_NoDup g_ID), ascending_filter|by apply (ascending_NoDup g_ID)|].
  intros x. rewrite elem_of_app. unfold range at 1 2. rewrite !list_elem_of_filter. split.
  - intros [Hx Hin]. destruct (decide (g_ID x ≤ reach)); [left; split; [lia|done]|]. right.
    split; [lia|]. apply (taken_elem q P rest); [done|done|]. split; [|lia].
    destruct (decide (g_ID x ≤ c0)) as [Hle|]; [|lia]. specialize (Hlow x Hin Hle). lia.
  - intros [[Hx Hin]|[Hx Hin]]; [split; [lia|done]|].
    destruct (taken_bounds q P rest x Er Hin). split; [lia|done].
Qed.

(** Opening the topic: whatever was buffered, sorted, goes out over the history's floor. *)
Lemma opened_rows q P rest (Zs : list GroupMessageRow) floor l :
  range g_ID c0 q rows = P ++ rest → caughtUp (Z.max c reach) floor →
  (∀ z, z ∈ Zs → z ∈ rows ∧ g_ID z ≤ c0) → StronglySorted (le_by groupID) l → l ≡ₚ conv (Zs ++ P) →
  conv (range g_ID c reach rows) ++ freshOver groupID floor l = conv (range g_ID c (sentTo P) rows) ∧
  caughtUp (sentTo P) (floorAfter groupID floor l).
Proof.
  intros Er Hc HZ Hsort Hl. pose proof Hc as [Hfl Hrows]. set (a := filter (λ r, floor < g_ID r) P).
  assert (Hin : ∀ r, r ∈ P → r ∈ rows ∧ c0 < g_ID r ≤ lastOf c0 P) by (intros r; by apply (taken_bounds q P rest)).
  assert (HP : ascending g_ID P).
  { assert (Hap : ascending g_ID (P ++ rest)) by (rewrite <- Er; by apply ascending_filter).
    by apply ascending_app in Hap as (_ & ? & _). }
  assert (Harows : ∀ r, r ∈ a → r ∈ rows) by (intros r [_ Hr]%list_elem_of_filter; by apply Hin).
  assert (Haa : ascending groupID (conv a)) by (apply conv_ascending; [done|by apply ascending_filter]).
  assert (Hfil : ∀ L : list GroupMessageRow, (∀ r, r ∈ L → r ∈ rows) →
    filter (λ m, floor < groupID m) (conv L) = conv (filter (λ r, floor < g_ID r) L)).
  { intros L HL. unfold conv. induction L as [|r L IH]; [done|]. rewrite fmap_cons, !filter_cons, conv_id by set_solver.
    rewrite IH by set_solver. by case_decide. }
  destruct (freshOver_sorted groupID floor l (conv a) Hsort Haa) as [E1 E2].
  { intros m (x & -> & Hx)%list_elem_of_fmap. rewrite conv_id by auto.
    by apply list_elem_of_filter in Hx as [? _]. }
  { rewrite Hl, Hfil; [|intros r [Hr|Hr]%elem_of_app; [by apply HZ|by apply Hin]].
    rewrite filter_app, (filter_drop_all _ Zs); [done|]. intros z Hz. destruct (HZ z Hz) as [Hz1 Hz2].
    specialize (Hlow z Hz1 Hz2). destruct (decide (g_ID z ≤ c)); [lia|]. specialize (Hrows z Hz1 ltac:(lia)). lia. }
  pose proof (folded_range q P rest floor Er Hc) as Ef. fold a in Ef.
  split; [rewrite E1, Ef; unfold conv; by rewrite fmap_app|].
  rewrite E2, conv_last by done. unfold sentTo, caughtUp. destruct (last a) as [y|] eqn:Ey; simpl.
  - apply last_Some in Ey as [a' Ea].
    assert (Hy : y ∈ a) by (rewrite Ea; set_solver).
    pose proof Hy as [Hyf HyP]%list_elem_of_filter. destruct (Hin y HyP). split; [lia|].
    intros r Hr Hr'. assert (Hra : r ∈ range g_ID c (sentTo P) rows)
      by (apply list_elem_of_filter; unfold sentTo; split; [lia|done]).
    rewrite Ef in Hra. apply elem_of_app in Hra as [[Hra _]%list_elem_of_filter|Hra].
    + specialize (Hrows r Hr ltac:(lia)). lia.
    + assert (Has : ascending g_ID a) by (by apply ascending_filter). rewrite Ea in Has, Hra.
      apply ascending_app in Has as (Has & _ & _).
      apply elem_of_app in Hra as [Hra|Hra%list_elem_of_singleton]; [|subst; lia].
      specialize (Has r y Hra ltac:(left)). lia.
  - apply last_None in Ey. split; [lia|]. intros r Hr Hr'.
    assert (Hra : r ∈ range g_ID c (sentTo P) rows)
      by (apply list_elem_of_filter; unfold sentTo; split; [lia|done]).
    rewrite Ef, Ey, app_nil_r in Hra. apply list_elem_of_filter in Hra as [Hra _].
    apply Hrows; [done|lia].
Qed.

(** A live row goes out if it is above the floor, and above the cursor it is the next one. *)
Lemma live_row q P r rest floor :
  range g_ID c0 q rows = P ++ r :: rest → caughtUp (sentTo P) floor →
  let ms := [toGroupMessage r] in
  conv (range g_ID c (sentTo P) rows) ++ freshOver groupID floor ms
    = conv (range g_ID c (sentTo (P ++ [r])) rows) ∧
  caughtUp (sentTo (P ++ [r])) (floorAfter groupID floor ms).
Proof.
  intros Er [Hfl Hrows] ms. destruct (live_next c0 rows Ha q P r rest Er) as (Hin & Hr & Ht & Hbetween).
  assert (Es : sentTo (P ++ [r]) = Z.max (Z.max c reach) (g_ID r)) by (unfold sentTo; by rewrite lastOf_snoc).
  rewrite Es. unfold ms. simpl. rewrite conv_id by done. unfold sentTo in *. case_bool_decide as Hle.
  - rewrite app_nil_r.
    assert (Hsame : ∀ x, x ∈ rows → c < g_ID x ∧ g_ID x ≤ Z.max (Z.max c reach) (lastOf c0 P) ↔
      c < g_ID x ∧ g_ID x ≤ Z.max (Z.max c reach) (g_ID r)).
    { intros x Hx. split; [lia|]. intros [? Hx']. split; [done|].
      destruct (decide (g_ID x ≤ Z.max (Z.max c reach) (lastOf c0 P))); [done|].
      destruct (decide (g_ID x = g_ID r)); [lia|]. destruct (Hbetween x Hx). lia. }
    split; [by unfold range; rewrite (filter_agree _ _ _ Hsame)|].
    split; [lia|]. intros x Hx Hx'. apply Hrows; [done|]. by apply Hsame.
  - assert (Hgt : Z.max (Z.max c reach) (lastOf c0 P) < g_ID r).
    { destruct (decide (g_ID r ≤ Z.max (Z.max c reach) (lastOf c0 P))); [|lia].
      specialize (Hrows r Hin ltac:(lia)). lia. }
    replace (Z.max (Z.max c reach) (g_ID r)) with (g_ID r) by lia. split; [|split; [lia|intros; lia]].
    rewrite (range_next c rows Ha (Z.max (Z.max c reach) (lastOf c0 P)) r) by
      (done || lia || (intros; eapply Hbetween; [done|lia])).
    unfold conv. by rewrite fmap_app.
Qed.

(** A row dispatched before the topic was added is below the floor. *)
Lemma live_stale P z floor :
  caughtUp (sentTo P) floor → z ∈ rows → g_ID z ≤ c0 → g_ID z ≤ floor.
Proof.
  intros [Hfl Hrows] Hz Hz0. specialize (Hlow z Hz Hz0). unfold sentTo in *.
  destruct (decide (g_ID z ≤ c)); [lia|]. apply Hrows; [done|lia].
Qed.
End Rows.

(** * What a scan has handed over *)

Lemma groupPart_snoc g bs b :
  groupPart g (bs ++ [b]) = groupPart g bs ++ filter (λ m, groupGroupId m = g) (cb_groupMsgs b).
Proof. unfold groupPart. by rewrite bind_app, filter_app, bind_singleton. Qed.

(** Nothing comes after the done marker. *)
Lemma shape_first lane wave out n b :
  scanShape lane wave out → out !! n = Some b → existsb cb_done (take n out) = false.
Proof.
  intros (hs & tl & -> & Hh & Ht) Hb. apply lookup_lt_Some in Hb. rewrite length_app in Hb.
  assert (Hn : (n ≤ length hs)%nat) by (destruct Ht as [->|[->|[e ->]]]; simpl in Hb; lia).
  rewrite take_app_le by done.
  assert (H : Forall (λ b, cb_done b = false) (take n hs)).
  { apply Forall_take. eapply Forall_impl; [done|]. by intros x [(_ & _ & ?) _]. }
  induction (take n hs) as [|x l IH]; [done|]. apply Forall_cons in H as [E ?]. simpl. rewrite E. auto.
Qed.

Lemma shape_at lane wave out n b :
  scanShape lane wave out → out !! n = Some b → cb_err b = None →
  cb_wave b = wave ∧ (lane b ∨ cb_groupMsgs b = []).
Proof.
  intros (hs & tl & -> & Hh & Ht) Hb He. apply lookup_app_Some in Hb as [Hb|[_ Hb]].
  - rewrite Forall_lookup in Hh. destruct (Hh n b Hb) as ((? & _ & _) & ?). split; [done|by left].
  - destruct Ht as [->|[->|[e ->]]]; [done|..].
    + apply list_lookup_singleton_Some in Hb as [_ <-]. split; [done|by right].
    + apply list_lookup_singleton_Some in Hb as [_ <-]. done.
Qed.

(** The batches taken from a scan, none of which reports a failure. *)
Lemma taken_reached g expected lane wave out n :
  scanShape lane wave out →
  (∃ hs tl, out = hs ++ tl ∧ Forall (λ b, cb_err b ≠ None) tl ∧
    groupPart g hs `prefix_of` expected ∧
    ((∃ b, b ∈ hs ∧ cb_done b = true) → groupPart g hs = expected)) →
  Forall (λ b, cb_err b = None) (take n out) →
  groupPart g (take n out) `prefix_of` expected ∧
  (existsb cb_done (take n out) = true → groupPart g (take n out) = expected).
Proof.
  intros Hs (hs & tl & E & Htl & Hp & Hd) Hn.
  assert (Htake : take n out = take n hs).
  { rewrite E, take_app in *. destruct (take (n - length hs) tl) as [|b l] eqn:El; [by rewrite app_nil_r|].
    exfalso. apply Forall_app in Hn as [_ [Hb _]%Forall_cons].
    assert (Hin : b ∈ take (n - length hs) tl) by (rewrite El; left).
    apply elem_of_take in Hin as (i & Hin%list_elem_of_lookup_2 & _).
    rewrite Forall_forall in Htl. by apply (Htl b). }
  split; [rewrite Htake; etrans; [|exact Hp]; apply prefix_filter, prefix_bind, prefix_take|].
  intros Hex. destruct (out !! n) as [b|] eqn:Hb; [by rewrite (shape_first lane wave out n b) in Hex|].
  apply lookup_ge_None in Hb. rewrite Htake in Hex |- *.
  rewrite take_ge in Hex |- * by (rewrite E, length_app in Hb; lia). apply Hd.
  apply existsb_exists in Hex as (b & Hin & Hdone). exists b. by rewrite list_elem_of_In.
Qed.

(** * The topic from its Mutate on *)

Lemma extend_app a b l : extend (a ++ b) l = extend b (extend a l).
Proof. unfold extend. simpl. destruct (freshOver_app groupID (l_floor l) a b) as [-> ->]. by rewrite app_assoc. Qed.

Section Complete.
Context (cfg : tunables) (net : nat → send_result) (drain : flush_result).
Context (ug : bytes → option GroupMessage) (uw : bytes → option WelcomeMessage).
Context (marshalGroup : GroupMessage → result bytes) (marshalWelcome : WelcomeMessage → result bytes)
  (sha256 : bytes → bytes) (enc : GroupMessage → bytes).
Hypothesis alive : ∀ i, net i ≠ SendStreamDone.
Hypothesis marshal_total : ∀ m, marshalGroup m = Ok (enc m).
Hypothesis unmarshal_enc : ∀ m, ug (enc m) = Some m.
Context (k : nat) (outs : nat → list catchUpBatch).

(** The group and its cursor, the worker's cursor when the Mutate was handled, the wave, the scan
    of its groups and whether it has a scan of welcomes too; the id the scan reaches; the node at
    the end; and what had been sent for the topic before. *)
Context (g : bytes) (c c0 : Z) (W j : nat) (two : bool) (reach : Z) (nF : Node).
Context (X0 : list GroupMessage).
Local Abbreviation t := (BuildMLSV1GroupTopic g).
Local Abbreviation R := (rowsOf g nF).
Local Abbreviation pipe := (inPipe enc g k c0 (fromWorker enc)).
Local Abbreviation nodeStep := (stepNode marshalGroup marshalWelcome sha256).
Local Abbreviation Held := (held ug k enc).
Local Abbreviation Serve := (serve cfg net drain ug uw k).

Hypothesis HkF : keyedNode nF.
Hypothesis Hlow : ∀ r, r ∈ R → g_ID r ≤ c0 → g_ID r ≤ reach.
Hypothesis Hscan : ∃ hs tl, outs j = hs ++ tl ∧ Forall (λ b, cb_err b ≠ None) tl ∧
  groupPart g hs `prefix_of` conv (range g_ID c reach R) ∧
  ((∃ b, b ∈ hs ∧ cb_done b = true) → groupPart g hs = conv (range g_ID c reach R)).
Hypothesis Hj : scanShape groupLane W (outs j).
Hypothesis Hj2 : two = true → scanShape welcomeLane W (outs (S j)).

Lemma R_ascending : ascending g_ID R.
Proof. by apply rows_ascending. Qed.

Lemma R_ids r : r ∈ R → 0 < g_ID r ≤ maxInt64.
Proof. intros Hr. pose proof (rows_bounds g nF r HkF Hr). lia. Qed.

(** The batches taken from a scan, whether it is done, and how many the wave waits for. *)
Definition batchesOf (s : conn) (i : nat) : list catchUpBatch :=
  take (default 0%nat (c_taken s !! i)) (outs i).
Definition doneIn (s : conn) (i : nat) : bool := existsb cb_done (batchesOf s i).
Definition waitsFor (s : conn) : Z :=
  (if doneIn s j then 0 else 1) + (if two then if doneIn s (S j) then 0 else 1 else 0).

(** Rows dispatched before the topic was added. *)
Definition stale (zs : list GroupMessageRow) : Prop := ∀ z, z ∈ zs → z ∈ R ∧ g_ID z ≤ c0.

(** While the wave is running: the scan's batches are sent, the live rows taken are buffered. *)
Definition catching (n : Node) (st : writer) (bs : list catchUpBatch) (left : Z) : Prop :=
  Forall (λ b, cb_err b = None) bs ∧
  (∃ w, waves st !! W = Some w ∧ scansLeft w = left) ∧
  ∃ B Zd Zs P, B ≡ₚ Zd ++ P ∧ stale Zd ∧ stale Zs ∧ pipe n Zs P ∧
    laneOf t st = extend (groupPart g bs) (mkLane c (Some W) true (groupEnvelope enc <$> B) true X0).

(** Once the wave is complete: every row up to [sentTo] has been sent. *)
Definition openLane (n : Node) (st : writer) : Prop :=
  ∃ Zs P fl, stale Zs ∧ pipe n Zs P ∧ caughtUp c R (sentTo c c0 reach P) fl ∧
    laneOf t st = mkLane fl None false [] true (X0 ++ conv (range g_ID c (sentTo c c0 reach P) R)).

Definition phase (n : Node) (st : writer) (bs : list catchUpBatch) (left : Z) : Prop :=
  catching n st bs left ∨ openLane n st.

Lemma phase_live n st bs left : phase n st bs left → t ∈ subscribed st.
Proof.
  intros H. assert (E : l_live (laneOf t st) = true).
  { destruct H as [(_ & _ & B & Zd & Zs & P & _ & _ & _ & _ & ->)|(Zs & P & fl & _ & _ & _ & ->)]; done. }
  simpl in E. by apply bool_decide_eq_true_1 in E.
Qed.

(** ** The pipe *)

Lemma pipe_range n Zs P :
  nodeGrows n nF → groupCursor n ≤ seqOf n → pipe n Zs P →
  ∃ rest, range g_ID c0 (groupCursor n) R = P ++ rest.
Proof.
  intros [Hg _] Hc (Q & R' & rest & Er & _). exists (Q ++ R').
  rewrite (range_grows g n nF c0) by (apply Hg || lia). done.
Qed.

Lemma pipe_sync st st' n Zs P x :
  objects (dispatcher n) !! k = Some x → all x = false → pipe n Zs P → pipe (syncTopics k st st' n) Zs P.
Proof.
  intros Hx Ha (Q & R' & rest & Er & Hacc & Hgood & Hrest & Hsub).
  destruct (sync_spec k st st' n x Hx Ha) as (E1 & E2 & E3 & H4 & _).
  exists Q, R', rest. split; [unfold rowsOf in *; by rewrite E1, E2|].
  split; [by apply H4|]. split; [done|]. split; [done|]. by rewrite E3.
Qed.

Lemma pipe_node ev s Zs P :
  Held s → t ∈ subscribed (c_writer s) → smoothNode k ev → c0 ≤ groupCursor (c_node s) →
  pipe (c_node s) Zs P →
  pipe (nodeStep ev (c_node s)).1 Zs P ∧ c0 ≤ groupCursor (nodeStep ev (c_node s)).1.
Proof.
  intros [Hw Hp Hl _ Hk Hc _ (x & Hx & Ha & Ht) Hch] Hlive Hev Hc0 Hpipe.
  destruct (inPipe_node marshalGroup marshalWelcome sha256 enc marshal_total g k c0 (fromWorker enc) ev
    (c_node s) Zs P x) as (H1 & [H2 _] & _); try done.
  split; [done|]. split; [by apply Ht|done].
Qed.

(** What a phase says of the pipe can be moved along the pipe's steps. *)
Lemma phase_pipe n n' st bs left :
  (∀ Zs P, pipe n Zs P → pipe n' Zs P) → phase n st bs left → phase n' st bs left.
Proof.
  intros H [(He & Hw & B & Zd & Zs & P & H1 & H2 & H3 & H4 & H5)|(Zs & P & fl & H1 & H2 & H3)].
  - left. split; [done|]. split; [done|]. exists B, Zd, Zs, P. auto 6.
  - right. exists Zs, P, fl. auto.
Qed.

(** ** Events that leave the topic's lane alone *)

Lemma wave_kept except st st' left :
  wf st → wf st' → topicWave st' !! t = Some W → scansKept except st st' → except ≠ Some W →
  (∃ w, waves st !! W = Some w ∧ scansLeft w = left) →
  ∃ w, waves st' !! W = Some w ∧ scansLeft w = left.
Proof.
  intros [Hw _] [Hw' _] Ht [_ Hk] He (w & E & <-).
  destruct (wf_owner Hw' _ _ Ht) as (w' & E' & _).
  destruct (wf_waves Hw _ _ E) as [_ _ _ _ _ _ Hn]; [done|].
  destruct (Hk W w' Hn He E') as (w2 & E2 & Hl). rewrite E in E2. injection E2 as <-. by exists w'.
Qed.

Lemma phase_same except n st st' bs left :
  wf st → wf st' → sameLane t st st' → scansKept except st st' →
  (topicWave st !! t = Some W → except ≠ Some W) →
  phase n st bs left → phase n st' bs left.
Proof.
  intros Hw Hw' Hs Hk He [(Herr & Hwave & B & Zd & Zs & P & H1 & H2 & H3 & H4 & H5)|(Zs & P & fl & H1 & H2 & H3 & H4)].
  - pose proof (f_equal l_wave H5) as Ew. simpl in Ew. pose proof (f_equal l_wave Hs) as Ew'. simpl in Ew'.
    left. split; [done|]. split; [apply (wave_kept except st); try done; [by rewrite Ew'|auto]|].
    exists B, Zd, Zs, P. split_and!; try done. by rewrite Hs.
  - right. exists Zs, P, fl. split_and!; try done. by rewrite Hs.
Qed.
(** ** Envelopes *)

Lemma row_topic r : r ∈ R → ContentTopic (groupEnvelope enc r) = t.
Proof. intros [Hg _]%rows_elem. simpl. by rewrite Hg. Qed.

(** A row's envelope: buffered behind the scan, or sent over the floor. *)
Lemma row_lane r st st' :
  r ∈ R → handle cfg net drain ug uw (EvEnvelope (groupEnvelope enc r)) st = (Cont tt, st') →
  laneOf t st' = if decide (t ∈ catchingUp st)
    then laneOf t st <| l_pending := pendingOf st t ++ [groupEnvelope enc r] |>
    else extend [toGroupMessage r] (laneOf t st).
Proof.
  intros Hr Hh. assert (Hown : ownGroup ug (groupEnvelope enc r)) by (apply (from_own ug enc unmarshal_enc); left; by eexists).
  pose proof (wp_cont _ _ _ _ _ _ (handleEnvelope_lane cfg net ug uw alive g _ st Hown) Hh) as E.
  cbn beta in E. rewrite decide_True in E by (by apply row_topic).
  simpl Message in E. rewrite unmarshal_enc in E. exact E.
Qed.

Lemma wave_envelope env st st' left :
  wf st → wf st' → topicWave st' !! t = Some W →
  handle cfg net drain ug uw (EvEnvelope env) st = (Cont tt, st') →
  (∃ w, waves st !! W = Some w ∧ scansLeft w = left) → ∃ w, waves st' !! W = Some w ∧ scansLeft w = left.
Proof.
  intros Hw Hw' Ht Hh. pose proof (handle_kept cfg net drain ug uw (EvEnvelope env) st) as Hk.
  rewrite Hh in Hk. by apply (wave_kept None).
Qed.

Lemma catching_row r n' st st' bs left Zs' P P' B Zd Zd' :
  wf st → wf st' → r ∈ R →
  handle cfg net drain ug uw (EvEnvelope (groupEnvelope enc r)) st = (Cont tt, st') →
  Forall (λ b, cb_err b = None) bs → (∃ w, waves st !! W = Some w ∧ scansLeft w = left) →
  B ≡ₚ Zd ++ P → B ++ [r] ≡ₚ Zd' ++ P' → stale Zd' → stale Zs' → pipe n' Zs' P' →
  laneOf t st = extend (groupPart g bs) (mkLane c (Some W) true (groupEnvelope enc <$> B) true X0) →
  catching n' st' bs left.
Proof.
  intros Hw Hw' Hr Hh Herr Hwave HB HB' HZd HZs Hp El.
  assert (Hg : t ∈ catchingUp st) by (pose proof (f_equal l_gated El) as E; by apply bool_decide_eq_true_1 in E).
  pose proof (row_lane r st st' Hr Hh) as El'. rewrite decide_True in El' by done.
  assert (Ep : pendingOf st t = groupEnvelope enc <$> B) by (by apply (f_equal l_pending) in El).
  split; [done|]. split.
  - apply (wave_envelope (groupEnvelope enc r) st st'); try done.
    apply (f_equal l_wave) in El. apply (f_equal l_wave) in El'. simpl in El, El'. by rewrite El', El.
  - exists (B ++ [r]), Zd', Zs', P'. split_and!; try done. rewrite El', El, Ep.
    unfold extend. simpl. by rewrite fmap_app.
Qed.

Lemma phase_envelope s env d st' bs left :
  Held s → nodeGrows (c_node s) nF → wf st' →
  receive k (dispatcher (c_node s)) = (Some env, d) →
  handle cfg net drain ug uw (EvEnvelope env) (c_writer s) = (Cont tt, st') →
  phase (c_node s) (c_writer s) bs left → phase (c_node s <| dispatcher := d |>) st' bs left.
Proof.
  intros H Hgr Hw' Hrec Hh Hph. pose proof (h_wf _ _ _ _ H) as Hw. pose proof (h_cursor _ _ _ _ H) as Hc.
  assert (Hother : ContentTopic env ≠ t → fromWorker enc env → sameLane t (c_writer s) st').
  { intros Hne Hf. pose proof (wp_cont _ _ _ _ _ _ (handleEnvelope_lane cfg net ug uw alive g _ (c_writer s)
      (from_own ug enc unmarshal_enc _ Hf)) Hh) as E. cbn beta in E. by rewrite decide_False in E. }
  assert (Hk : scansKept None (c_writer s) st').
  { pose proof (handle_kept cfg net drain ug uw (EvEnvelope env) (c_writer s)) as Hk. by rewrite Hh in Hk. }
  destruct Hph as [(Herr & Hwave & B & Zd & Zs & P & HB & HZd & HZs & Hp & El)|(Zs & P & fl & HZs & Hp & Hcu & El)].
  - destruct (inPipe_take enc g k c0 (fromWorker enc) _ _ _ _ _ Hp Hrec) as (Hf & _ & _ & Hcase).
    destruct Hcase as [[Hne Hp']|[(z & Zs' & -> & -> & Hp')|(r & rest & -> & -> & Er & Hp')]].
    + apply (phase_same None _ (c_writer s)); auto. left. split; [done|]. split; [done|].
      exists B, Zd, Zs, P. by split_and!.
    + left. destruct (HZs z ltac:(left)) as [Hz Hz0].
      apply (catching_row z _ (c_writer s) _ _ _ Zs' P P B Zd (Zd ++ [z])); try done.
      * rewrite HB, <- !app_assoc. f_equiv. by rewrite Permutation_app_comm.
      * intros y [?| ->%list_elem_of_singleton]%elem_of_app; auto.
      * intros y Hy. apply HZs. by right.
    + left. rewrite <- (range_grows g (c_node s) nF c0) in Er by (apply Hgr || lia).
      assert (Hr : r ∈ R) by (apply (live_next c0 R R_ascending _ P r rest Er)).
      apply (catching_row r _ (c_writer s) _ _ _ [] P (P ++ [r]) B Zd Zd); try done.
      by rewrite HB, app_assoc.
  - assert (Hng : t ∉ catchingUp (c_writer s))
      by (pose proof (f_equal l_gated El) as E; by apply bool_decide_eq_false_1 in E).
    destruct (inPipe_take enc g k c0 (fromWorker enc) _ _ _ _ _ Hp Hrec) as (Hf & _ & _ & Hcase).
    destruct Hcase as [[Hne Hp']|[(z & Zs' & -> & -> & Hp')|(r & rest & -> & -> & Er & Hp')]].
    + apply (phase_same None _ (c_writer s)); auto. right. by exists Zs, P, fl.
    + right. destruct (HZs z ltac:(left)) as [Hz Hz0]. exists Zs', P, fl.
      split; [intros y Hy; apply HZs; by right|]. split; [done|]. split; [done|].
      rewrite (row_lane z _ st' Hz Hh), decide_False, El by done.
      unfold extend. simpl. rewrite (conv_id R R_ids z Hz).
      rewrite bool_decide_true by (by apply (live_stale c c0 reach R Hlow P)). by rewrite app_nil_r.
    + right. rewrite <- (range_grows g (c_node s) nF c0) in Er by (apply Hgr || lia).
      assert (Hr : r ∈ R) by (apply (live_next c0 R R_ascending _ P r rest Er)).
      destruct (live_row c c0 reach R R_ascending R_ids _ P r rest fl Er Hcu) as [E1 E2].
      exists [], (P ++ [r]), (floorAfter groupID fl [toGroupMessage r]).
      split; [done|]. split; [done|]. split; [done|].
      rewrite (row_lane r _ st' Hr Hh), decide_False, El by done. rewrite <- E1, app_assoc. done.
Qed.
(** ** Batches *)

Lemma batchesOf_take s s' i b :
  outs i !! default 0%nat (c_taken s !! i) = Some b →
  c_taken s' = <[i := S (default 0%nat (c_taken s !! i))]> (c_taken s) →
  batchesOf s' i = batchesOf s i ++ [b] ∧ ∀ i', i' ≠ i → batchesOf s' i' = batchesOf s i'.
Proof.
  intros Hb Et. unfold batchesOf. rewrite Et. split.
  - rewrite lookup_insert_eq. simpl. by apply take_S_r.
  - intros i' Hne. by rewrite lookup_insert_ne.
Qed.

(** The scans of the topic's wave. *)
Definition ofWave (i : nat) : Prop := i = j ∨ (two = true ∧ i = S j).

Lemma ofWave_shape i : ofWave i → ∃ lane, scanShape lane W (outs i).
Proof. intros [->|[E ->]]; [by exists groupLane|exists welcomeLane; auto]. Qed.

Lemma waitsFor_take s s' i b :
  outs i !! default 0%nat (c_taken s !! i) = Some b →
  c_taken s' = <[i := S (default 0%nat (c_taken s !! i))]> (c_taken s) →
  ofWave i → waitsFor s' = waitsFor s - (if cb_done b then 1 else 0) ∧
    (cb_done b = true → waitsFor s ≤ 1 → doneIn s' j = true).
Proof.
  intros Hb Et Hi. destruct (batchesOf_take s s' i b Hb Et) as [E1 E2].
  destruct (ofWave_shape i Hi) as [lane Hs]. pose proof (shape_first lane W (outs i) _ b Hs Hb) as Hn.
  change (doneIn s i = false) in Hn.
  assert (Ei : doneIn s' i = cb_done b).
  { unfold doneIn in *. rewrite E1, existsb_app, Hn. simpl. by rewrite orb_false_r. }
  assert (Eo : ∀ i', i' ≠ i → doneIn s' i' = doneIn s i') by (intros i' Hne; unfold doneIn; by rewrite E2).
  unfold waitsFor. destruct Hi as [->|[Etwo ->]].
  - rewrite Ei, Hn, (Eo (S j)) by lia. split; [|done].
    destruct (cb_done b), two; try lia; destruct (doneIn s (S j)); lia.
  - rewrite Etwo, Ei, Hn, (Eo j) by lia. split; [destruct (cb_done b), (doneIn s j); lia|].
    intros _. destruct (doneIn s j); [done|lia].
Qed.

Lemma topic_part (ms : list GroupMessage) : filter (λ m, groupKey m = t) ms = filter (λ m, groupGroupId m = g) ms.
Proof.
  apply list_filter_iff. intros m. unfold groupKey. split; [|by intros ->].
  by intros ->%group_topic_inj.
Qed.

(** A batch of the wave, for the topic: its own scan's batches carry its messages. *)
Lemma batch_part s s' i b :
  outs i !! default 0%nat (c_taken s !! i) = Some b → cb_err b = None →
  c_taken s' = <[i := S (default 0%nat (c_taken s !! i))]> (c_taken s) → ofWave i →
  groupPart g (batchesOf s' j) = groupPart g (batchesOf s j) ++ filter (λ m, groupKey m = t) (cb_groupMsgs b) ∧
  (Forall (λ b, cb_err b = None) (batchesOf s j) → Forall (λ b, cb_err b = None) (batchesOf s' j)).
Proof.
  intros Hb He Et Hi. destruct (batchesOf_take s s' i b Hb Et) as [E1 E2]. destruct Hi as [->|[Etwo ->]].
  - rewrite E1, groupPart_snoc, topic_part. split; [done|]. intros H. apply Forall_app.
    split; [done|]. by apply Forall_singleton.
  - rewrite E2 by lia. split; [|done].
    destruct (shape_at _ _ _ _ _ (Hj2 Etwo) Hb He) as [_ [E| ->]]; [|by rewrite app_nil_r].
    unfold welcomeLane in E. by rewrite E, app_nil_r.
Qed.

(** The topic opens: everything buffered goes out over the complete history. *)
Lemma wave_opens n st st' s' B Zd Zs P l :
  nodeGrows n nF → groupCursor n ≤ seqOf n →
  Forall (λ b, cb_err b = None) (batchesOf s' j) → doneIn s' j = true →
  B ≡ₚ Zd ++ P → stale Zd → stale Zs → pipe n Zs P →
  pendingOf st t = groupEnvelope enc <$> B →
  StronglySorted (le_by groupID) l → l ≡ₚ filter (λ m, groupKey m = t) (buffered ug (pendingOf st t)) →
  laneOf t st' = extend l (opened (extend (groupPart g (batchesOf s' j))
    (mkLane c (Some W) true (groupEnvelope enc <$> B) true X0))) →
  openLane n st'.
Proof.
  intros Hgr Hc Herr Hdone HB HZd HZs Hp Ep Hsort Hl El.
  destruct (pipe_range _ _ _ Hgr Hc Hp) as [rest Er].
  destruct (taken_reached g _ _ _ _ _ Hj Hscan Herr) as [_ Hall]. specialize (Hall Hdone).
  fold (batchesOf s' j) in Hall.
  destruct (history_sent c reach R R_ascending R_ids) as [Eh Hcu].
  assert (HBr : ∀ r, r ∈ B → r ∈ R).
  { intros r. rewrite HB. intros [Hr|Hr]%elem_of_app; [by apply HZd|].
    by apply (taken_bounds c0 R R_ascending R_ids _ P rest r Er). }
  assert (Edec : filter (λ m, groupKey m = t) (buffered ug (pendingOf st t)) = conv B).
  { rewrite Ep. unfold buffered, conv. clear -HBr unmarshal_enc. induction B as [|r B IH]; [done|].
    rewrite !fmap_cons. simpl. rewrite unmarshal_enc. rewrite filter_cons, decide_True.
    - f_equal. apply IH. intros x Hx. apply HBr. by right.
    - destruct (proj1 (rows_elem g nF r) (HBr r ltac:(left))) as [Hg _].
      exact (f_equal BuildMLSV1GroupTopic Hg). }
  rewrite Edec in Hl. assert (Hl' : l ≡ₚ conv (Zd ++ P)) by (rewrite Hl; unfold conv; by rewrite HB).
  destruct (opened_rows c c0 reach R R_ascending R_ids Hlow _ P rest Zd _ l Er Hcu HZd Hsort Hl') as [E1 E2].
  exists Zs, P, (floorAfter groupID (floorAfter groupID c (conv (range g_ID c reach R))) l).
  split; [done|]. split; [done|]. split; [done|]. rewrite El, Hall. unfold extend, opened. simpl.
  rewrite <- E1, Eh, app_assoc. done.
Qed.
Lemma waitsFor_other s s' i :
  c_taken s' = <[i := S (default 0%nat (c_taken s !! i))]> (c_taken s) → ¬ ofWave i →
  batchesOf s' j = batchesOf s j ∧ waitsFor s' = waitsFor s.
Proof.
  intros Et Hi. unfold ofWave in Hi.
  assert (E : ∀ i', i' ≠ i → batchesOf s' i' = batchesOf s i')
    by (intros i' Hne; unfold batchesOf; by rewrite Et, lookup_insert_ne).
  split; [apply E; naive_solver|]. unfold waitsFor, doneIn. rewrite E by naive_solver.
  destruct two; [|done]. by rewrite E by naive_solver.
Qed.

(** A batch of the topic's wave. *)
Lemma own_batch s s' i b :
  Held s → nodeGrows (c_node s) nF → wf (c_writer s') → cb_err b = None →
  outs i !! default 0%nat (c_taken s !! i) = Some b →
  c_taken s' = <[i := S (default 0%nat (c_taken s !! i))]> (c_taken s) → ofWave i →
  handle cfg net drain ug uw (EvBatch b) (c_writer s) = (Cont tt, c_writer s') →
  catching (c_node s) (c_writer s) (batchesOf s j) (waitsFor s) →
  phase (c_node s) (c_writer s') (batchesOf s' j) (waitsFor s').
Proof.
  intros H Hgr [Hw' _] He Hb Et Hi Hh (Herr & (w & Ew & Hleft) & B & Zd & Zs & P & HB & HZd & HZs & Hp & El).
  pose proof (h_wf _ _ _ _ H) as Hw. pose proof (pendingOk_wf ug [] 0 None _ (proj1 Hw) (h_pending _ _ _ _ H)) as Hok.
  destruct (ofWave_shape i Hi) as [lane Hs]. destruct (shape_at lane W (outs i) _ b Hs Hb He) as [Ewave _].
  destruct (batch_part s s' i b Hb He Et Hi) as [Epart Herr']. specialize (Herr' Herr).
  destruct (waitsFor_take s s' i b Hb Et Hi) as [Ewait Hlast].
  assert (Htw : topicWave (c_writer s) !! t = Some (cb_wave b)) by (rewrite Ewave; by apply (f_equal l_wave) in El).
  assert (Hg : t ∈ catchingUp (c_writer s))
    by (pose proof (f_equal l_gated El) as E; by apply bool_decide_eq_true_1 in E).
  rewrite <- Ewave in Ew.
  pose proof (wp_cont _ _ _ _ _ _ (handleBatch_own cfg net drain ug uw alive g b w _ Hw Hok Htw Ew Hg) Hh) as Hlane.
  pose proof (wp_cont _ _ _ _ _ _ (handleBatch_left cfg net drain ug uw b w _ Ew) Hh) as Hl.
  cbn beta zeta in Hlane, Hl. rewrite El, <- extend_app, <- Epart in Hlane.
  destruct (lastBatch b w) eqn:Elast.
  - right. unfold lastBatch in Elast. apply andb_true_iff in Elast as [Ed Es%bool_decide_eq_true_1].
    destruct Hlane as (l & Hsort & Hperm & El').
    apply (wave_opens _ (c_writer s) _ s' B Zd Zs P l); try done; [apply H|apply Hlast; [done|lia]|].
    by apply (f_equal l_pending) in El.
  - left. split; [done|]. split; [|by exists B, Zd, Zs, P].
    assert (Htw' : topicWave (c_writer s') !! t = Some (cb_wave b))
      by (rewrite Ewave; by apply (f_equal l_wave) in Hlane).
    destruct (wf_owner Hw' _ _ Htw') as (w' & Ew' & _). rewrite <- Ewave. exists w'. split; [done|].
    rewrite (Hl w' Ew'), Ewait, Hleft. destruct (cb_done b); lia.
Qed.

Lemma phase_batch s s' i b :
  Held s → nodeGrows (c_node s) nF → wf (c_writer s') →
  outs i !! default 0%nat (c_taken s !! i) = Some b →
  c_taken s' = <[i := S (default 0%nat (c_taken s !! i))]> (c_taken s) →
  (ofWave i ∨ ¬ ofWave i ∧ ∃ lane wv, wv ≠ W ∧ scanShape lane wv (outs i)) →
  handle cfg net drain ug uw (EvBatch b) (c_writer s) = (Cont tt, c_writer s') →
  phase (c_node s) (c_writer s) (batchesOf s j) (waitsFor s) →
  phase (c_node s) (c_writer s') (batchesOf s' j) (waitsFor s').
Proof.
  intros H Hgr Hw' Hb Et Hi Hh Hph. pose proof (h_wf _ _ _ _ H) as Hw.
  assert (He : cb_err b = None).
  { simpl in Hh. unfold handleBatch in Hh. by destruct (cb_err b). }
  assert (Hother : topicWave (c_writer s) !! t ≠ Some (cb_wave b) → sameLane t (c_writer s) (c_writer s')).
  { intros Ho. exact (wp_cont _ _ _ _ _ _ (handleBatch_other cfg net drain ug uw alive g b _
      (pendingOk_wf ug [] 0 None _ (proj1 Hw) (h_pending _ _ _ _ H)) Ho) Hh). }
  destruct Hph as [Hc|(Zs & P & fl & HZs & Hp & Hcu & El)]; last first.
  { right. exists Zs, P, fl. split_and!; try done. rewrite <- El. apply Hother.
    apply (f_equal l_wave) in El. simpl in El. by rewrite El. }
  destruct Hi as [Hi|(Hi & lane & wv & Hne & Hs)]; [by apply (own_batch s s' i b)|].
  destruct (shape_at lane wv (outs i) _ b Hs Hb He) as [Ewave _].
  destruct (waitsFor_other s s' i Et Hi) as [-> ->].
  pose proof (handle_kept cfg net drain ug uw (EvBatch b) (c_writer s)) as Hk. rewrite Hh in Hk. simpl in Hk.
  apply (phase_same (Some (cb_wave b)) _ (c_writer s)); try done; [|congruence|by left].
  apply Hother. destruct Hc as (_ & _ & B & Zd & Zs & P & _ & _ & _ & _ & El).
  apply (f_equal l_wave) in El. simpl in El. rewrite El. congruence.
Qed.

(** ** Steps and runs *)

(** Events that name the topic's Mutates are excluded. *)
Definition aside (ev : connEvent) : Prop :=
  match ev with SelectEv ev => ¬ names t ev | _ => True end.

(** The scans the stream has started by the end. *)
Context (L : list scan).
Hypothesis Hothers : ∀ i sc, L !! i = Some sc →
  ofWave i ∨ ¬ ofWave i ∧ ∃ lane wv, wv ≠ W ∧ scanShape lane wv (outs i).

Definition phaseOf (s : conn) : Prop :=
  c0 ≤ groupCursor (c_node s) ∧ phase (c_node s) (c_writer s) (batchesOf s j) (waitsFor s).

(** When the done markers of the wave's scans have been taken the topic is open. *)
Lemma phase_done s :
  Held s → phaseOf s → doneIn s j = true → (two = true → doneIn s (S j) = true) →
  t ∉ catchingUp (c_writer s).
Proof.
  intros H [_ Hph] D1 D2. destruct Hph as [(_ & (w & Hw & Hl) & _)|(Zs & P & fl & _ & _ & _ & El)].
  - exfalso. destruct (h_wf _ _ _ _ H) as [Hwf _]. destruct (wf_waves Hwf _ _ Hw) as [_ _ Hpos _ _ _ _]; [done|].
    unfold waitsFor in Hl. rewrite D1 in Hl. destruct two; [rewrite D2 in Hl by done|]; lia.
  - pose proof (f_equal l_gated El) as E. by apply bool_decide_eq_false_1 in E.
Qed.

Lemma phase_sync s st st' n bs left :
  Held s → (c_node s) = n → phase n st' bs left → phase (syncTopics k st st' n) st' bs left.
Proof.
  intros H <-. destruct (h_topics _ _ _ _ H) as (x & Hx & [Ha _] & _).
  apply phase_pipe. intros Zs P. by apply (pipe_sync _ _ _ _ _ x).
Qed.

Lemma phase_step ev s s' :
  Held s → smoothConn k ev → aside ev →
  connStep cfg net drain ug uw marshalGroup marshalWelcome sha256 k outs ev s = Some s' →
  wf (c_writer s') → nodeGrows (c_node s) nF → launched (c_writer s) `prefix_of` L →
  phaseOf s → phaseOf s'.
Proof.
  intros H Hev Hn Hs Hw' Hgr HL [Hc0 Hph]. pose proof (h_wf _ _ _ _ H) as Hw.
  pose proof (phase_live _ _ _ _ Hph) as Hlive.
  destruct ev as [ev|ev| |i]; simpl in Hs.
  - injection Hs as <-. split; simpl.
    + destruct Hph as [(_ & _ & B & Zd & Zs & P & _ & _ & _ & Hp & _)|(Zs & P & fl & _ & Hp & _)];
        by apply (pipe_node ev s Zs P).
    + apply (phase_pipe (c_node s)); [|done]. intros Zs P Hp. by apply pipe_node.
  - destruct (selectable ev (c_writer s)) eqn:Esel; [|done].
    apply serve_spec in Hs as (Hh & En & Et). unfold phaseOf, batchesOf, waitsFor, doneIn, batchesOf.
    rewrite En, Et. split; [done|]. apply (phase_sync s); [done|done|].
    pose proof (handle_kept cfg net drain ug uw ev (c_writer s)) as Hk. rewrite Hh in Hk.
    assert (Hev' : match ev with EvBatch _ | EvEnvelope _ => False | _ => True end) by (by destruct ev).
    apply (phase_same (batchWave ev) _ (c_writer s)); try done; [|by destruct ev].
    exact (wp_cont _ _ _ _ _ _ (handle_other_lane cfg net drain ug uw alive g ev _ Hn Hev') Hh).
  - destruct (receive k (dispatcher (c_node s))) as [[env|] d] eqn:Er; [|done].
    destruct (held_receive ug k enc s env d H Er) as [_ H2].
    apply serve_spec in Hs as (Hh & En & Et). simpl in Hh, En, Et.
    unfold phaseOf, batchesOf, waitsFor, doneIn, batchesOf. rewrite En, Et. split; [done|].
    apply (phase_sync _ _ _ _ _ _ H2); [done|]. by apply (phase_envelope s env).
  - destruct (launched (c_writer s) !! i) as [sc|] eqn:El; [|done].
    destruct (outs i !! _) as [b|] eqn:Eb; [|done].
    apply serve_spec in Hs as (Hh & En & Et). simpl in Hh, En, Et.
    unfold phaseOf. rewrite En. split; [done|]. apply (phase_sync s); [done|done|].
    apply (phase_batch s s' i b); try done. apply (Hothers i sc).
    destruct HL as [L' ->]. by apply lookup_app_l_Some.
Qed.
Lemma phase_run evs s sF :
  Held s → Forall (smoothConn k) evs → Forall aside evs →
  connRun cfg net drain ug uw marshalGroup marshalWelcome sha256 k outs evs s = Some sF →
  c_node sF = nF → launched (c_writer sF) = L → seqOf nF ≤ maxInt64 →
  phaseOf s → phaseOf sF.
Proof.
  intros H Hev Hn Hr EF EL Hmax. revert s H Hev Hn Hr.
  induction evs as [|ev evs IH]; intros s H Hev Hn Hr Hph; simpl in Hr; [by injection Hr as <-|].
  pose proof Hev as [Hev1 Hev2]%Forall_cons. pose proof Hn as [Hn1 Hn2]%Forall_cons.
  destruct (connStep _ _ _ _ _ _ _ _ _ _ _ _) as [s1|] eqn:Es; [|done].
  pose proof (run_seq _ _ _ _ _ _ _ _ _ _ _ _ _ Hr) as Hseq. rewrite EF in Hseq.
  destruct (held_step cfg net drain ug uw _ marshalWelcome sha256 k outs enc marshal_total unmarshal_enc ev s s1 H Hev1 Es
    ltac:(lia)) as [H1 Hg1].
  destruct (held_run cfg net drain ug uw _ marshalWelcome sha256 k outs enc marshal_total unmarshal_enc evs s1 sF H1 Hev2 Hr
    ltac:(by rewrite EF)) as [_ Hg2].
  apply (IH s1); try done. apply (phase_step ev s s1); try done.
  - apply H1.
  - rewrite <- EF. by etrans.
  - pose proof (step_launches _ _ _ _ _ _ _ _ _ _ _ _ _ Es) as (_ & new1 & E1 & _).
    pose proof (run_launches _ _ _ _ _ _ _ _ _ _ _ _ _ Hr) as (_ & new2 & E2 & _).
    exists (new1 ++ new2). by rewrite <- EL, E2, E1, app_assoc.
Qed.

(** What a phase says of the messages sent for the topic. *)
Lemma phase_sent s :
  Held s → nodeGrows (c_node s) nF → phaseOf s →
  ∃ got, messagesIn t (outbound (c_writer s)) = X0 ++ got ∧
    got `prefix_of` conv (above g_ID c R) ∧
    ((t ∉ catchingUp (c_writer s)) ∧ k ∈ subscriptions (dispatcher (c_node s)) ∧
     (∃ x, objects (dispatcher (c_node s)) !! k = Some x ∧ MessagesCh x = []) ∧
     above g_ID (groupCursor (c_node s)) R = [] → got = conv (above g_ID c R)).
Proof.
  intros H Hgr [_ Hph]. pose proof (h_cursor _ _ _ _ H) as Hc.
  assert (Hpre : ∀ w, conv (range g_ID c w R) `prefix_of` conv (above g_ID c R)).
  { intros w. destruct (range_prefix c R R_ascending w) as [z ->]. unfold conv. rewrite fmap_app. by eexists. }
  destruct Hph as [(Herr & _ & B & Zd & Zs & P & _ & _ & _ & _ & El)|(Zs & P & fl & HZs & Hp & Hcu & El)].
  - destruct (taken_reached g _ _ _ _ _ Hj Hscan Herr) as [Hpart _]. fold (batchesOf s j) in Hpart.
    pose proof (f_equal l_sent El) as Es. simpl in Es. rewrite Es. eexists. split; [done|].
    assert (Ef : freshOver groupID c (groupPart g (batchesOf s j)) = groupPart g (batchesOf s j)).
    { assert (Ha : ascending groupID (conv (range g_ID c reach R))).
      { apply (conv_ascending R R_ascending R_ids); [by intros r [_ ?]%list_elem_of_filter|].
        apply ascending_filter, R_ascending. }
      destruct Hpart as [z Ez]. rewrite Ez in Ha. apply ascending_app in Ha as (_ & Ha & _).
      apply freshOver_ascending; [done|]. intros m Hm.
      assert (Hin : m ∈ conv (range g_ID c reach R)) by (rewrite Ez; apply elem_of_app; by left).
      apply list_elem_of_fmap in Hin as (x & -> & [Hx Hx']%list_elem_of_filter).
      rewrite (conv_id R R_ids) by done. lia. }
    rewrite Ef. split; [by etrans|]. intros [Hng _]. exfalso. apply Hng.
    pose proof (f_equal l_gated El) as E. by apply bool_decide_eq_true_1 in E.
  - pose proof (f_equal l_sent El) as Es. simpl in Es. rewrite Es. eexists. split; [done|]. split; [done|].
    intros (_ & Hsub & (x & Hx & Hch) & Hworker). f_equal. apply filter_agree. intros r Hr.
    split; [by intros [? _]|]. intros Hcr. split; [done|].
    destruct Hp as (Q & R' & rest & Er & (x' & Hx' & _ & <- & _) & _ & HQ & HR).
    rewrite Hx in Hx'. injection Hx' as <-. rewrite Hch in HQ. symmetry in HQ. apply fmap_nil_inv, app_nil in HQ as [_ ->].
    rewrite (HR Hsub), !app_nil_r in Er.
    rewrite <- (range_grows g (c_node s) nF c0) in Er by (apply Hgr || lia).
    unfold sentTo. destruct (decide (g_ID r ≤ c0)) as [Hle|Hgt]; [specialize (Hlow r Hr Hle); lia|].
    pose proof (taken_all c0 R R_ascending _ P r Er Hworker Hr ltac:(lia)). lia.
Qed.
End Complete.

(** * The Mutate *)

(** The envelopes of the group in the channel are rows the worker has dispatched. *)
Lemma channel_stale enc g n ch :
  Forall (settledEnvelope enc n) ch →
  ∃ Zs, filter (λ e, ContentTopic e = BuildMLSV1GroupTopic g) ch = groupEnvelope enc <$> Zs ∧
    ∀ z, z ∈ Zs → z ∈ rowsOf g n ∧ g_ID z ≤ groupCursor n.
Proof.
  induction ch as [|e ch IH]; [exists []; split; [done|by intros z ?%elem_of_nil]|].
  intros [He Hch]%Forall_cons. destruct (IH Hch) as (Zs & E & HZ). rewrite filter_cons.
  case_decide as Ht; [|by exists Zs].
  destruct He as [(r & Hr & Hle & ->)|[key Ek]]; last first.
  { rewrite Ek in Ht. symmetry in Ht. by apply group_not_welcome_topic in Ht. }
  exists (r :: Zs). split; [by rewrite fmap_cons, E|].
  intros z [->|Hz]%elem_of_cons; [|by apply HZ]. split; [|done]. apply rows_elem.
  split; [by apply group_topic_inj|done].
Qed.

Section Mutate.
Context (cfg : tunables) (net : nat → send_result) (drain : flush_result).
Context (ug : bytes → option GroupMessage) (uw : bytes → option WelcomeMessage).
Context (enc : GroupMessage → bytes).
Hypothesis alive : ∀ i, net i ≠ SendStreamDone.
Hypothesis unmarshal_enc : ∀ m, ug (enc m) = Some m.
Context (k : nat) (outs : nat → list catchUpBatch).
Local Abbreviation Held := (held ug k enc).

(** The Mutate that adds the group starts its catching-up phase. *)
Lemma mutate_phase s1 s2 m g c adds wave nF reach :
  Held s1 → Held s2 → mu_HistoryOnly m = false → cursorsOk m → halfClosed (c_writer s1) = false →
  serve cfg net drain ug uw k (EvRequest (Some (ReqMutate m))) s1 = Some s2 →
  launched (c_writer s2) !! length (launched (c_writer s1)) = Some (scanGroups adds wave) →
  mkGroupCatchup g c ∈ adds → nodeGrows (c_node s1) nF →
  wave = nextWave (c_writer s1) ∧ nextWave (c_writer s2) = S wave ∧ group_adds adds ∧
  ∃ two, (∀ i sc, launched (c_writer s2) !! i = Some sc → (length (launched (c_writer s1)) ≤ i)%nat →
      i = length (launched (c_writer s1)) ∨
      two = true ∧ i = S (length (launched (c_writer s1))) ∧ ∃ ws, sc = scanWelcomes ws wave) ∧
    (two = true → ∃ ws, launched (c_writer s2) !! S (length (launched (c_writer s1))) = Some (scanWelcomes ws wave)) ∧
    phaseOf enc k outs g c (groupCursor (c_node s1)) wave (length (launched (c_writer s1))) two reach nF
      (messagesIn (BuildMLSV1GroupTopic g) (outbound (c_writer s2))) s2.
Proof.
  intros H1 H2 Hho Hcur Hhalf (Hh & En & Et)%serve_spec Hl Hg Hgr.
  destruct (wp_cont _ _ _ _ _ _ (handleMutate_opens cfg net alive g m _ (h_wf _ _ _ _ H1) Hhalf Hho Hcur) Hh)
    as (started & El & Hstart).
  set (J := length (launched (c_writer s1))) in *.
  assert (Hst : started !! 0%nat = Some (scanGroups adds wave))
    by (rewrite El, lookup_app_r in Hl by done; by rewrite Nat.sub_diag in Hl).
  destruct (Hstart adds wave c (list_elem_of_lookup_2 _ _ _ Hst) Hg) as (-> & Hn & Hadds & Hf & Htw & Hcase & w & Ew & Ewl).
  split; [done|]. split; [done|]. split; [done|]. clear Hstart.
  assert (Hempty : ∀ i, (J ≤ i)%nat → batchesOf outs s2 i = []).
  { intros i Hi. unfold batchesOf. rewrite Et. destruct (c_taken s1 !! i) as [n|] eqn:E; [|done].
    pose proof (h_taken _ _ _ _ H1 i n E). unfold J in Hi. lia. }
  exists (bool_decide (length started = 2%nat)). split; [|split; [|split]].
  - intros i sc Hi HJ. rewrite El, lookup_app_r in Hi by done.
    destruct Hcase as [->|[ws ->]]; apply lookup_lt_Some in Hi as Hlt; simpl in Hlt.
    + left. fold J in Hlt. lia.
    + destruct (decide (i = J)) as [|Hne]; [by left|]. right. assert (i = S J) as -> by (fold J in Hlt; lia).
      split; [done|]. split; [done|]. fold J in Hi. replace (S J - J)%nat with 1%nat in Hi by lia.
      injection Hi as <-. by exists ws.
  - intros Htwo%bool_decide_eq_true_1. destruct Hcase as [->|[ws ->]]; [done|]. exists ws.
    rewrite El, lookup_app_r by (fold J; lia). fold J. by replace (S J - J)%nat with 1%nat by lia.
  - rewrite En. done.
  - left. rewrite (Hempty J) by done. split; [constructor|]. split.
    { exists w. split; [done|]. rewrite Ewl. unfold waitsFor, doneIn. rewrite !Hempty by lia.
      destruct Hcase as [->|[ws ->]]; done. }
    destruct (h_channel _ _ _ _ H1) as (ch & Hacc & Hch). destruct (channel_stale enc g _ ch Hch) as (Zs & EZ & HZ).
    destruct (h_topics _ _ _ _ H1) as (x & Hx & [Ha _] & _).
    exists [], [], Zs, []. split; [done|]. split; [by intros z ?%elem_of_nil|]. split.
    { intros z Hz. destruct (HZ z Hz) as [Hz1 Hz2]. split; [|done].
      destruct (proj1 Hgr g) as (new & -> & _). apply elem_of_app. by left. }
    split.
    + rewrite En. apply (pipe_sync enc k g (groupCursor (c_node s1)) _ _ _ _ _ x Hx Ha).
      exists [], [], ch. split; [apply filter_drop_all; intros r _; lia|]. split; [done|].
      split; [eapply Forall_impl; [exact Hch|]; intros e; apply settled_from|].
      by rewrite app_nil_r.
    + destruct Hf as (F1 & F2 & F3 & F4). unfold laneOf, extend. simpl.
      rewrite F1, Htw, F4, app_nil_r. by rewrite !bool_decide_true.
Qed.
End Mutate.

(** * The scans of a run *)

Section Scanned.
Context (cfg : tunables) (net : nat → send_result) (drain : flush_result).
Context (ug : bytes → option GroupMessage) (uw : bytes → option WelcomeMessage).
Context (marshalGroup : GroupMessage → result bytes) (marshalWelcome : WelcomeMessage → result bytes)
  (sha256 : bytes → bytes) (enc : GroupMessage → bytes).
Hypothesis marshal_total : ∀ m, marshalGroup m = Ok (enc m).
Hypothesis unmarshal_enc : ∀ m, ug (enc m) = Some m.
Context (k : nat) (outs : nat → list catchUpBatch).
Context (evs : list connEvent) (s0 sF : conn).
Local Abbreviation Run := (connRun cfg net drain ug uw marshalGroup marshalWelcome sha256 k outs).
Hypothesis H0 : held ug k enc s0.
Hypothesis Hevs : Forall (smoothConn k) evs.
Hypothesis Hrun : Run evs s0 = Some sF.
Hypothesis Hmax : seqOf (c_node sF) ≤ maxInt64.

(** Between any two points of the run. *)
Lemma run_between p q sp sq :
  (p ≤ q)%nat → Run (take p evs) s0 = Some sp → Run (take q evs) s0 = Some sq →
  held ug k enc sp ∧ nodeGrows (c_node sp) (c_node sq) ∧ nodeGrows (c_node sq) (c_node sF) ∧
  launches (c_writer sp) (c_writer sq).
Proof.
  intros Hpq Hp Hq.
  assert (Hstep : ∀ i si, Run (take i evs) s0 = Some si → Run (drop i evs) si = Some sF ∧ held ug k enc si).
  { intros i si Hi. assert (Hd : Run (drop i evs) si = Some sF).
    { rewrite <- (take_drop i evs), connRun_app, Hi in Hrun. exact Hrun. }
    split; [done|]. pose proof (run_seq _ _ _ _ _ _ _ _ _ _ _ _ _ Hd).
    apply (held_run cfg net drain ug uw _ marshalWelcome sha256 k outs enc marshal_total unmarshal_enc
      (take i evs) s0 si H0); [by apply Forall_take|done|lia]. }
  destruct (Hstep p sp Hp) as [_ Hheld]. destruct (Hstep q sq Hq) as [Hd Hheldq].
  assert (Hpq2 : Run (drop p (take q evs)) sp = Some sq).
  { rewrite <- (take_drop p (take q evs)), take_take, Nat.min_l, connRun_app, Hp in Hq by done. exact Hq. }
  pose proof (run_seq _ _ _ _ _ _ _ _ _ _ _ _ _ Hd).
  split; [done|]. split; [|split].
  - apply (held_run cfg net drain ug uw _ marshalWelcome sha256 k outs enc marshal_total unmarshal_enc
      (drop p (take q evs)) sp sq Hheld); [by apply Forall_drop, Forall_take|done|lia].
  - apply (held_run cfg net drain ug uw _ marshalWelcome sha256 k outs enc marshal_total unmarshal_enc
      (drop q evs) sq sF Hheldq); [by apply Forall_drop|done|lia].
  - by apply run_launches in Hpq2.
Qed.

Lemma run_shape i sc :
  scanRuns cfg net drain ug uw marshalGroup marshalWelcome sha256 k outs evs s0 i sc →
  scanShape (match sc with scanGroups _ _ => groupLane | scanWelcomes _ _ => welcomeLane end)
    (waveOf sc) (outs i).
Proof.
  intros (env & fuel & at_ & Eo & _). destruct sc; simpl in *.
  - by eapply catchUpGroups_shape.
  - by eapply catchUpWelcomes_shape.
Qed.

(** A scan started after a point of the run reaches past all that was dispatched before it. *)
Lemma run_reaches i sc p sp adds wave g c :
  scanRuns cfg net drain ug uw marshalGroup marshalWelcome sha256 k outs evs s0 i sc →
  sc = scanGroups adds wave → group_adds adds → mkGroupCatchup g c ∈ adds →
  Run (take p evs) s0 = Some sp → (length (launched (c_writer sp)) ≤ i)%nat →
  ∃ reach, (∀ r, r ∈ rowsOf g (c_node sF) → g_ID r ≤ groupCursor (c_node sp) → g_ID r ≤ reach) ∧
    ∃ hs tl, outs i = hs ++ tl ∧ Forall (λ b, cb_err b ≠ None) tl ∧
      groupPart g hs `prefix_of` conv (range g_ID c reach (rowsOf g (c_node sF))) ∧
      ((∃ b, b ∈ hs ∧ cb_done b = true) →
        groupPart g hs = conv (range g_ID c reach (rowsOf g (c_node sF)))).
Proof.
  intros (env & fuel & at_ & Eo & Hmono & Hat) -> Hadds Hg Hp Hi. simpl in Eo.
  assert (Hkeyed : ∀ q, groups_keyed (snapshot env q)).
  { intros q. destruct (Hat q) as (s & Hs & _ & ->). destruct (run_between _ _ s s (Nat.le_refl _) Hs Hs) as [H _].
    exact (h_keyed _ _ _ _ H). }
  assert (Hrun' : Run (take (length evs) evs) s0 = Some sF) by (by rewrite take_ge).
  assert (HkF : groups_keyed (db (c_node sF))).
  { destruct (run_between _ _ sF sF (Nat.le_refl _) Hrun' Hrun') as [H _]. exact (h_keyed _ _ _ _ H). }
  assert (Hgrow : ∀ p q, (p ≤ q)%nat → dbGrows (snapshot env p) (snapshot env q)).
  { intros p' q Hpq. destruct (Hat p') as (s1 & Hs1 & _ & ->). destruct (Hat q) as (s2 & Hs2 & _ & ->).
    apply grows_db. by apply (run_between _ _ s1 s2 (Hmono _ _ Hpq)). }
  assert (HgrowF : ∀ q, dbGrows (snapshot env q) (db (c_node sF))).
  { intros q. destruct (Hat q) as (s & Hs & _ & ->). apply grows_db.
    by apply (run_between _ _ s s (Nat.le_refl _) Hs Hs). }
  exists (reach env adds c). split.
  - intros r Hr Hle. apply (reach_covers env adds c (db (c_node sF))); try done.
    { by apply (rows_elem g). }
    destruct (Hat 0%nat) as (s & Hs & Hlen & ->).
    assert (Hps : (p ≤ at_ 0%nat)%nat).
    { destruct (decide (p ≤ at_ 0%nat)%nat) as [|Hgt]; [done|].
      destruct (run_between (at_ 0%nat) p s sp ltac:(lia) Hs Hp) as (_ & _ & _ & _ & new & En & _).
      rewrite En, length_app in Hi. lia. }
    destruct (run_between p _ sp s Hps Hp Hs) as (H & [Hgr _] & _ & _).
    pose proof (h_cursor _ _ _ _ H). destruct (Hgr g) as (_ & _ & Hseq & _). unfold seqOf in *. lia.
  - exact (scan_reaches cfg env adds wave g c (db (c_node sF)) Hkeyed HkF Hgrow HgrowF Hadds Hg fuel _ Eo).
Qed.
End Scanned.

(** Which scans are the wave's: those of the Mutate; the others are for other waves. *)
Lemma scans_of_wave outs (L1 L2 later : list scan) wave two :
  let j := length L1 in
  L1 `prefix_of` L2 → (∀ sc, sc ∈ L1 → (waveOf sc < wave)%nat) →
  (∀ i sc, L2 !! i = Some sc → (j ≤ i)%nat → i = j ∨ two = true ∧ i = S j ∧ ∃ ws, sc = scanWelcomes ws wave) →
  (j < length L2)%nat → (two = true → ∃ ws, L2 !! S j = Some (scanWelcomes ws wave)) →
  Forall (λ sc, (wave < waveOf sc)%nat) later →
  (∀ i sc, (L2 ++ later) !! i = Some sc → ∃ lane, scanShape lane (waveOf sc) (outs i)) →
  ∀ i sc, (L2 ++ later) !! i = Some sc →
    ofWave j two i ∨ ¬ ofWave j two i ∧ ∃ lane wv, wv ≠ wave ∧ scanShape lane wv (outs i).
Proof.
  intros j [L3 EL] H1 Hidx Hj Htwo Hlater Hshape i sc Hi. destruct (Hshape i sc Hi) as [lane Hs].
  destruct (decide (i < j)%nat) as [Hlt|Hge].
  { right. split; [unfold ofWave; lia|]. exists lane, (waveOf sc). split; [|done].
    rewrite EL, <- app_assoc, lookup_app_l in Hi by done. apply list_elem_of_lookup_2, H1 in Hi. lia. }
  apply lookup_app_Some in Hi as [Hi|[Hle Hi]].
  - left. unfold ofWave. destruct (Hidx i sc Hi ltac:(lia)) as [|(? & ? & _)]; auto.
  - right. split.
    + intros [->|[Et ->]]; [lia|]. destruct (Htwo Et) as [ws Hws]. apply lookup_lt_Some in Hws. lia.
    + exists lane, (waveOf sc). split; [|done]. rewrite Forall_lookup in Hlater. specialize (Hlater _ _ Hi). simpl in Hlater. lia.
Qed.

(** * Properties *)

(** A run of a stream from its start, with the Mutate that adds a group and the events before and
    after it. *)
Section StreamRun.
Context (cfg : tunables) (net : nat → send_result) (drain : flush_result).
Context (ug : bytes → option GroupMessage) (uw : bytes → option WelcomeMessage).
Context (marshalGroup : GroupMessage → result bytes) (marshalWelcome : WelcomeMessage → result bytes)
  (sha256 : bytes → bytes) (enc : GroupMessage → bytes) (outs : nat → list catchUpBatch).
Context (now : Z) (n : Node) (evs1 : list connEvent) (m : Mutate) (evs2 : list connEvent) (s0 s1 s2 s : conn).
Context (g : bytes) (c : Z) (adds : list GroupCatchup) (wave : nat).

Local Abbreviation k := (nextSub (dispatcher n)).
Local Abbreviation run := (connRun cfg net drain ug uw marshalGroup marshalWelcome sha256 k outs).
Local Abbreviation mutate := (SelectEv (EvRequest (Some (ReqMutate m)))).
Local Abbreviation evs := (evs1 ++ mutate :: evs2).

Record subscriptionRun : Prop := {
  sr_alive : ∀ i, net i ≠ SendStreamDone;
  sr_marshal : ∀ msg, marshalGroup msg = Ok (enc msg);
  sr_unmarshal : ∀ msg, ug (enc msg) = Some msg;
  sr_keyed : keyedNode n;
  sr_cursor : groupCursor n ≤ seqOf n;
  sr_open : openConn cfg net now n = Some s0;
  sr_before : run evs1 s0 = Some s1;
  sr_mutate : run [mutate] s1 = Some s2;
  sr_after : run evs2 s2 = Some s;
  sr_smooth : Forall (smoothConn k) evs;
  sr_aside : Forall (aside g) evs2;
  sr_scans : ∀ j sc, launched (c_writer s) !! j = Some sc →
    scanRuns cfg net drain ug uw marshalGroup marshalWelcome sha256 k outs evs s0 j sc;
  sr_live : mu_HistoryOnly m = false;
  sr_launched : launched (c_writer s2) !! length (launched (c_writer s1)) = Some (scanGroups adds wave);
  sr_added : mkGroupCatchup g c ∈ adds;
  sr_seq : seqOf (c_node s) ≤ maxInt64;
}.

(** The done markers of the scans that the Mutate started have been taken. *)
Definition scansOver : Prop := ∀ i sc,
  launched (c_writer s2) !! i = Some sc → (length (launched (c_writer s1)) ≤ i)%nat → doneIn outs s i = true.

(** The topic is open (or its scans are over), the worker has dispatched the group's rows, and the
    stream has taken them. *)
Definition settledRun : Prop :=
  ((BuildMLSV1GroupTopic g ∉ catchingUp (c_writer s)) ∨ scansOver) ∧ k ∈ subscriptions (dispatcher (c_node s)) ∧
  (∃ x, objects (dispatcher (c_node s)) !! k = Some x ∧ MessagesCh x = []) ∧
  above g_ID (groupCursor (c_node s)) (group_rows g (db (c_node s))) = [].

Lemma run_points :
  run evs1 s0 = Some s1 → run [mutate] s1 = Some s2 → run evs2 s2 = Some s →
  run evs s0 = Some s ∧ run (take (length evs1) evs) s0 = Some s1 ∧
  run (take (length (evs1 ++ [mutate])) evs) s0 = Some s2.
Proof.
  intros E1 E2 E3. split; [|split].
  - rewrite connRun_app, E1. change (run ([mutate] ++ evs2) s1 = Some s). by rewrite connRun_app, E2.
  - by rewrite take_app_length.
  - change (mutate :: evs2) with ([mutate] ++ evs2). by rewrite app_assoc, take_app_length, connRun_app, E1.
Qed.

Lemma subscriptionRun_keyed : subscriptionRun → keyedNode (c_node s).
Proof.
  intros [_ Hm Hu Hk Hc Ho E1 E2 E3 Hev _ _ _ _ _ Hmax].
  destruct (run_points E1 E2 E3) as (E & _).
  assert (H0 : held ug k enc s0) by (by eapply held_open).
  destruct (held_run cfg net drain ug uw _ marshalWelcome sha256 k outs enc Hm Hu evs s0 s H0 Hev E Hmax) as [HF _].
  exact (h_keyed _ _ _ _ HF).
Qed.

Lemma subscriptionRun_sent :
  let t := BuildMLSV1GroupTopic g in
  let expected := toGroupMessage <$> above g_ID c (group_rows g (db (c_node s))) in
  subscriptionRun → ∃ got, messagesIn t (outbound (c_writer s)) = messagesIn t (outbound (c_writer s2)) ++ got ∧
    got `prefix_of` expected ∧ (settledRun → got = expected).
Proof.
  intros t expected [alive Hm Hu Hk Hc Ho E1 E2 E3 Hev Haside Hscans Hho Hl Hg Hmax].
  assert (H0 : held ug k enc s0) by (by eapply held_open).
  destruct (run_points E1 E2 E3) as (E & T1 & T2).
  destruct (run_between cfg net drain ug uw _ marshalWelcome sha256 enc Hm Hu k outs evs s0 s H0 Hev E Hmax
    (length evs1) (length (evs1 ++ [mutate])) s1 s2 ltac:(rewrite length_app; lia) T1 T2) as (H1 & G12 & G2 & L12).
  destruct (run_between cfg net drain ug uw _ marshalWelcome sha256 enc Hm Hu k outs evs s0 s H0 Hev E Hmax _ _ s2 s2
    (Nat.le_refl _) T2 T2) as (H2 & _).
  simpl in E2. destruct (halfClosed (c_writer s1)) eqn:Hhalf; [done|]. simpl in E2.
  destruct (serve _ _ _ _ _ _ _ s1) as [s2'|] eqn:Hserve; [|done]. injection E2 as ->.
  pose proof Hev as Hev'. apply Forall_app in Hev' as [_ [Hcur Hev2]%Forall_cons].
  destruct (held_run cfg net drain ug uw _ marshalWelcome sha256 k outs enc Hm Hu evs2 s2 s H2 Hev2 E3 Hmax) as [HF _].
  pose proof (λ reach, mutate_phase cfg net drain ug uw enc alive k outs s1 s2 m g c adds wave (c_node s)
    reach H1 H2 Hho Hcur Hhalf Hserve Hl Hg ltac:(by etrans)) as Hphase.
  destruct (Hphase 0) as (Ew & Enw & Hadds & _).
  assert (Hlift : ∀ i sc, launched (c_writer s2) !! i = Some sc → launched (c_writer s) !! i = Some sc).
  { intros i sc Hi. pose proof (run_launches _ _ _ _ _ _ _ _ _ _ _ _ _ E3) as (_ & later & -> & _).
    by apply lookup_app_l_Some. }
  destruct (run_reaches cfg net drain ug uw _ marshalWelcome sha256 enc Hm Hu k outs evs s0 s H0 Hev E Hmax _ _ _ s1
    adds wave g c (Hscans _ _ (Hlift _ _ Hl)) eq_refl Hadds Hg T1 (Nat.le_refl _)) as (reach & Hlow & Hscan).
  destruct (Hphase reach) as (_ & _ & _ & two & Hidx & Htwo & Hph). clear Hphase.
  assert (Hshape := λ i sc Hi, run_shape cfg net drain ug uw marshalGroup marshalWelcome sha256 k outs evs s0 i sc (Hscans i sc Hi)).
  assert (HJ2 : two = true → scanShape welcomeLane wave (outs (S (length (launched (c_writer s1)))))).
  { intros Et. destruct (Htwo Et) as [ws Hws]. exact (Hshape _ _ (Hlift _ _ Hws)). }
  pose proof (run_launches _ _ _ _ _ _ _ _ _ _ _ _ _ E3) as (_ & later & EL & Hlater).
  assert (Hothers : ∀ i sc, launched (c_writer s) !! i = Some sc →
    ofWave (length (launched (c_writer s1))) two i ∨ ¬ ofWave (length (launched (c_writer s1))) two i ∧
    ∃ lane wv, wv ≠ wave ∧ scanShape lane wv (outs i)).
  { rewrite EL in Hshape |- *. apply (scans_of_wave outs _ (launched (c_writer s2))); try done.
    - destruct L12 as (_ & new & -> & _). by eexists.
    - intros sc Hin. rewrite Ew. exact (proj1 (Forall_forall _ _) (h_waves _ _ _ _ H1) sc Hin).
    - by apply lookup_lt_Some in Hl.
    - eapply Forall_impl; [exact Hlater|]. simpl. lia.
    - intros i sc Hi. eexists. by apply Hshape. }
  pose proof (h_keyed _ _ _ _ HF) as HkF. pose proof (Hshape _ _ (Hlift _ _ Hl)) as HJ. simpl in HJ.
  assert (HphF : phaseOf enc k outs g c (groupCursor (c_node s1)) wave (length (launched (c_writer s1))) two reach
    (c_node s) (messagesIn t (outbound (c_writer s2))) s).
  { by apply (phase_run cfg net drain ug uw marshalGroup marshalWelcome sha256 enc alive Hm Hu k outs g c _ wave _ two reach
      (c_node s) _ HkF Hlow Hscan HJ HJ2 (launched (c_writer s)) Hothers evs2 s2). }
  assert (Hopen : (t ∉ catchingUp (c_writer s)) ∨ scansOver → t ∉ catchingUp (c_writer s)).
  { intros [?|Hover]; [done|]. eapply phase_done; [exact HJ2|exact HF|exact HphF|by apply (Hover _ _ Hl)|].
    intros Et. destruct (Htwo Et) as [ws Hws]. apply (Hover _ _ Hws). lia. }
  assert (Hsent : ∃ got, messagesIn t (outbound (c_writer s)) = messagesIn t (outbound (c_writer s2)) ++ got ∧
    got `prefix_of` expected ∧ ((t ∉ catchingUp (c_writer s)) ∧ k ∈ subscriptions (dispatcher (c_node s)) ∧
     (∃ x, objects (dispatcher (c_node s)) !! k = Some x ∧ MessagesCh x = []) ∧
     above g_ID (groupCursor (c_node s)) (group_rows g (db (c_node s))) = [] → got = expected))
    by (by eapply phase_sent).
  destruct Hsent as (got & Hgot & Hp & Hall). exists got. split; [done|]. split; [done|].
  intros (A1 & A2). apply Hall. by split; [apply Hopen|].
Qed.
End StreamRun.

(** C2. The group lane of a Subscribe stream end to end, under the condition the workers rely on
    too: rows become visible in id order, and no envelope on a topic of the MLS API is dispatched but
    by the workers ([smoothConn]). From the Mutate that adds a group at a cursor on, while publishers
    insert, the worker polls, the relay dispatches other envelopes, scans of this and other waves
    run, and the client's other requests come (but none that names the group), what the client is
    sent for the group is its messages above the cursor, in order and without gap: the scan's
    history, the live messages buffered behind it, and the live tail. Once the topic is open, or the
    done markers of the Mutate's scans have been taken, the worker has reached the group's newest row
    and the subscription's channel is empty, they have all been sent. Without the condition this
    fails: a row that becomes visible after a later one is never dispatched ([late_commit_lost]). *)
Theorem subscribe_stream_complete cfg net drain ug uw marshalGroup marshalWelcome sha256 enc outs now n
    evs1 m evs2 s0 s1 s2 s g c adds wave :
  let k := nextSub (dispatcher n) in
  let run := connRun cfg net drain ug uw marshalGroup marshalWelcome sha256 k outs in
  let mutate := SelectEv (EvRequest (Some (ReqMutate m))) in
  let evs := evs1 ++ mutate :: evs2 in
  (∀ i, net i ≠ SendStreamDone) →
  (∀ msg, marshalGroup msg = Ok (enc msg)) → (∀ msg, ug (enc msg) = Some msg) →
  keyedNode n → groupCursor n ≤ seqOf n → openConn cfg net now n = Some s0 →
  run evs1 s0 = Some s1 → run [mutate] s1 = Some s2 → run evs2 s2 = Some s →
  Forall (smoothConn k) evs → Forall (aside g) evs2 →
  (∀ j sc, launched (c_writer s) !! j = Some sc →
    scanRuns cfg net drain ug uw marshalGroup marshalWelcome sha256 k outs evs s0 j sc) →
  mu_HistoryOnly m = false →
  launched (c_writer s2) !! length (launched (c_writer s1)) = Some (scanGroups adds wave) →
  mkGroupCatchup g c ∈ adds → seqOf (c_node s) ≤ maxInt64 →
  let t := BuildMLSV1GroupTopic g in
  let rows := group_rows g (db (c_node s)) in
  let expected := toGroupMessage <$> above g_ID c rows in
  ∃ got, messagesIn t (outbound (c_writer s)) = messagesIn t (outbound (c_writer s2)) ++ got ∧
    got `prefix_of` expected ∧
    ((t ∉ catchingUp (c_writer s)) ∨
     (∀ i sc, launched (c_writer s2) !! i = Some sc → (length (launched (c_writer s1)) ≤ i)%nat →
      doneIn outs s i = true) →
     k ∈ subscriptions (dispatcher (c_node s)) →
     (∃ x, objects (dispatcher (c_node s)) !! k = Some x ∧ MessagesCh x = []) →
     above g_ID (groupCursor (c_node s)) rows = [] → got = expected).
Proof.
  intros k run mutate evs Ha Hm Hu Hk Hc Ho E1 E2 E3 Hev Has Hsc Hho Hl Hg Hmax t rows expected.
  destruct (subscriptionRun_sent cfg net drain ug uw marshalGroup marshalWelcome sha256 enc outs now n evs1 m evs2
    s0 s1 s2 s g c adds wave) as (got & E & Hp & Hall); [by split|].
  exists got. split; [done|]. split; [done|]. intros H1 H2 H3 H4. by apply Hall.
Qed.

(** ** A concrete run: a group added while its live messages arrive *)

Definition connMutate : Mutate := mkMutate [mkAdd (wireGroup "g") 1] [] false 5.
Definition connNode : Node := sampleNode <| groupCursor := 3 |>.

Definition connAfter : list connEvent :=
  [NodeEv (PublishGroup None 5 "g" "one" "" true false); NodeEv (Dispatch (OpEnvelope (Some relayed)));
   NodeEv (PollGroups None); TakeEnvelope; TakeBatch 0; TakeEnvelope; TakeBatch 0; NodeEv (PublishGroup None 7 "g" "two" "" true false);
   NodeEv (PollGroups None); TakeEnvelope].

(** The scan's queries all see the database as the Mutate found it. *)
Definition connEnv : scanEnv := mkScanEnv (λ _, sampleDb) (λ _, None) true (λ _, true) (λ _, true).
Definition connOuts : nat → list catchUpBatch :=
  λ _, default [] (catchUpGroups defaultTunables connEnv 20 [mkGroupCatchup "g" 1] 0).

Definition codecGroup (b : bytes) : option GroupMessage :=
  match codecDec b with Ok m => Some m | Err _ => None end.

Definition connSample (evs : list connEvent) (s : conn) : conn :=
  default s (connRun defaultTunables allAccepted Drained codecGroup (λ _, None) (λ m, Ok (codecEnc m))
    (λ _, Ok "") (λ b, b) 1 connOuts evs s).
Definition conn0 : conn := default (mkConn connNode (initWriter 0) ∅) (openConn defaultTunables allAccepted 0 connNode).
Definition conn2 : conn := connSample [SelectEv (EvRequest (Some (ReqMutate connMutate)))] conn0.
Definition connEnd : conn := connSample connAfter conn2.

Lemma some_default {A} (d : A) (o : option A) : bool_decide (is_Some o) = true → o = Some (default d o).
Proof. by destruct o. Qed.

Lemma connScans j sc :
  launched (c_writer connEnd) !! j = Some sc →
  scanRuns defaultTunables allAccepted Drained codecGroup (λ _, None) (λ m, Ok (codecEnc m)) (λ _, Ok "")
    (λ b, b) 1 connOuts ([] ++ SelectEv (EvRequest (Some (ReqMutate connMutate))) :: connAfter) conn0 j sc.
Proof.
  assert (E : launched (c_writer connEnd) = [scanGroups [mkGroupCatchup "g" 1] 0]) by (vm_compute; reflexivity).
  rewrite E. intros [-> <-]%list_lookup_singleton_Some. exists connEnv, 20%nat, (λ _, 1%nat).
  split; [apply some_default; vm_compute; reflexivity|]. split; [done|]. intros q. exists conn2.
  split; [apply some_default; vm_compute; reflexivity|]. split; vm_compute; [lia|reflexivity].
Qed.

Lemma connSmooth :
  Forall (smoothConn 1) ([] ++ SelectEv (EvRequest (Some (ReqMutate connMutate))) :: connAfter).
Proof.
  constructor; [|by repeat (apply List.Forall_cons; [first [exact I|reflexivity]|]); apply List.Forall_nil].
  constructor; [|constructor]. by unfold_widths.
Qed.

Lemma subscribe_stream_complete_witness :
  let sent s := messagesIn (BuildMLSV1GroupTopic "g") (outbound (c_writer s)) in
  sent connEnd = sent conn2 ++ (toGroupMessage <$> above g_ID 1 (group_rows "g" (db (c_node connEnd)))) ∧
  groupData <$> sent connEnd = ["y"; "z"; "one"; "two"].
Proof.
  split; [|vm_compute; reflexivity].
  destruct (subscribe_stream_complete defaultTunables allAccepted Drained codecGroup (λ _, None)
    (λ m, Ok (codecEnc m)) (λ _, Ok "") (λ b, b) codecEnc connOuts 0 connNode [] connMutate connAfter conn0 conn0
    conn2 connEnd "g" 1 [mkGroupCatchup "g" 1] 0) as (got & E & _ & Hall).
  - apply allAccepted_alive.
  - done.
  - intros msg. unfold codecGroup. by rewrite codec_ok.
  - exact (wf_group_ids _ sampleDb_wf).
  - vm_compute. discriminate.
  - apply some_default. vm_compute. reflexivity.
  - done.
  - apply some_default. vm_compute. reflexivity.
  - apply some_default. vm_compute. reflexivity.
  - exact connSmooth.
  - repeat (apply List.Forall_cons; [exact I|]). apply List.Forall_nil.
  - exact connScans.
  - done.
  - vm_compute. reflexivity.
  - left.
  - vm_compute. discriminate.
  - rewrite E. f_equal. apply Hall.
    + left. apply (bool_decide_unpack _). vm_compute. exact I.
    + apply (bool_decide_unpack _). vm_compute. exact I.
    + eexists. split; vm_compute; reflexivity.
    + vm_compute. reflexivity.
Defined.
