(* ===== verification/Resume.v ===== *)
(** Reconnecting: a client whose stream ends subscribes to a group again on a new one, from the
    last message it received. Each of its streams may end anywhere, deliver only a part of what was
    sent, and be served by another node with a stream state of its own. *)

From S2P Require Import Prelude Topic Types Frames Writer Sample WriterLogic WriterInv WriterOrder WriterSeam TopicLane Dispatcher MlsDb ReadStore CatchUp StreamScans Store Worker LiveRows ScanLive Subscribe SubscribeComplete.

(** One subscription to group [g] at cursor [c], over the group's rows at its end: what the client
    received is a prefix of what was sent. It is [whole] if nothing was left to send or receive. *)
Inductive session (g : bytes) (c : Z) (rows : list GroupMessageRow) (received : list GroupMessage)
    (whole : Prop) : Prop :=
  | session_intro cfg net drain ug uw marshalGroup marshalWelcome sha256 enc outs now n evs1 m evs2 s0 s1 s2 s
      adds wave sent :
      subscriptionRun cfg net drain ug uw marshalGroup marshalWelcome sha256 enc outs now n evs1 m evs2 s0 s1 s2 s
        g c adds wave →
      rows = group_rows g (db (c_node s)) →
      messagesIn (BuildMLSV1GroupTopic g) (outbound (c_writer s)) =
        messagesIn (BuildMLSV1GroupTopic g) (outbound (c_writer s2)) ++ sent →
      received `prefix_of` sent →
      (whole → settledRun outs n s1 s2 s g ∧ received = sent) →
      session g c rows received whole.

(** Where a client that has received these messages subscribes next. *)
Definition resumeAt (c : Z) (received : list GroupMessage) : Z :=
  match last received with Some m => groupID m | None => c end.

(** A client of the group from cursor [c]: one session after the other, while the group grows. *)
Inductive client (g : bytes) (c : Z) : list GroupMessageRow → list GroupMessage → Prop :=
  | client_new : client g c [] []
  | client_session rows received rows' more whole :
      client g c rows received → rows `prefix_of` rows' →
      session g (resumeAt c received) rows' more whole →
      client g c rows' (received ++ more).

(** * What a session adds *)

Local Abbreviation conv := (fmap toGroupMessage).

Lemma session_sent g c rows received whole :
  session g c rows received whole →
  received `prefix_of` conv (above g_ID c rows) ∧ (whole → received = conv (above g_ID c rows)).
Proof.
  intros [cfg net drain ug uw mG mW sha enc outs now n evs1 m evs2 s0 s1 s2 s adds wave sent Hrun -> Hsent Hp Hw].
  destruct (subscriptionRun_sent _ _ _ _ _ _ _ _ _ _ _ _ _ _ _ _ _ _ _ _ _ _ _ Hrun) as (got & E & Hg & Hall).
  rewrite E in Hsent. apply app_inv_head in Hsent as ->. split; [by etrans|].
  intros H. destruct (Hw H) as [Hset ->]. by apply Hall.
Qed.

Definition rowsOk (rows : list GroupMessageRow) : Prop :=
  ascending g_ID rows ∧ ∀ r, r ∈ rows → 0 < g_ID r ≤ maxInt64.

Lemma session_rows g c rows received whole : session g c rows received whole → rowsOk rows.
Proof.
  intros [cfg net drain ug uw mG mW sha enc outs now n evs1 m evs2 s0 s1 s2 s adds wave sent Hrun -> _ _ _].
  apply subscriptionRun_keyed in Hrun as Hk. split; [by apply rows_ascending|].
  intros r Hr. destruct (rows_bounds g (c_node s) r Hk Hr). destruct Hk as (_ & _ & ?). lia.
Qed.

(** After the first [n] rows above the cursor the rest are those above the last one's id. *)
Lemma resume_above c rows n :
  rowsOk rows →
  above g_ID (resumeAt c (conv (take n (above g_ID c rows)))) rows = drop n (above g_ID c rows).
Proof.
  intros [Ha Hids]. unfold resumeAt. rewrite fmap_last. destruct (last (take n _)) as [r|] eqn:E; simpl.
  - rewrite <- (page_next g_ID rows c n r Ha E). f_equal.
    apply last_Some_elem_of, elem_of_take in E as (i & Hi%list_elem_of_lookup_2 & _).
    apply elem_of_above in Hi as [_ Hi]. specialize (Hids r Hi). apply u64_small. unfold maxInt64 in Hids. lia.
  - apply last_None in E. destruct n; [done|]. destruct (above g_ID c rows); [by rewrite drop_nil|done].
Qed.

Lemma resume_prefix c rows rows' received :
  rowsOk rows' → rows `prefix_of` rows' → received `prefix_of` conv (above g_ID c rows) →
  ∃ n, received = conv (take n (above g_ID c rows')) ∧
    above g_ID (resumeAt c received) rows' = drop n (above g_ID c rows').
Proof.
  intros Hok [new ->] [rest E]. exists (length received).
  assert (Er : received = conv (take (length received) (above g_ID c (rows ++ new)))).
  { unfold above in *. rewrite filter_app, fmap_take, fmap_app, E, <- app_assoc. by rewrite take_app_length. }
  split; [done|]. rewrite Er at 1. by apply resume_above.
Qed.

Lemma client_prefix g c rows received :
  client g c rows received → received `prefix_of` conv (above g_ID c rows).
Proof.
  induction 1 as [|rows received rows' more whole _ IH Hp Hs]; [done|].
  destruct (session_sent _ _ _ _ _ Hs) as [[rest Hm] _].
  destruct (resume_prefix c rows rows' received (session_rows _ _ _ _ _ Hs) Hp IH) as (n & -> & E).
  exists rest. rewrite <- app_assoc, <- Hm, E, <- fmap_app. by rewrite take_drop.
Qed.

(** * The property *)

(** C3. Reconnecting loses and repeats nothing, as long as rows become visible in id order and only
    the workers dispatch on MLS topics during each stream, and the rows of a later stream extend those
    of an earlier one: whatever the streams of a client, however each of them ended and whatever part
    of its frames arrived, the messages of the group it has received, over all of them, are the
    group's messages above its first cursor, in order and without gap or duplicate, as far as they
    go; and all there are once a stream has sent and the client received everything. A row that
    becomes visible late, below a cursor the client has reached, stays lost when it resumes. *)
Theorem resumed_streams_complete g c rows received rows' more whole :
  client g c rows received → rows `prefix_of` rows' →
  session g (resumeAt c received) rows' more whole →
  let expected := toGroupMessage <$> above g_ID c rows' in
  (received ++ more) `prefix_of` expected ∧ NoDup (groupID <$> received ++ more) ∧
  (whole → received ++ more = expected).
Proof.
  intros Hc Hp Hs expected. pose proof (client_session _ _ _ _ _ _ _ Hc Hp Hs) as Hpre%client_prefix.
  pose proof (session_rows _ _ _ _ _ Hs) as [Ha Hids].
  split; [done|]. split.
  - destruct Hpre as [rest E].
    assert (Hnd : NoDup (groupID <$> expected)).
    { unfold expected. rewrite <- list_fmap_compose.
      rewrite (list_fmap_ext _ g_ID) by (intros i r Hr%list_elem_of_lookup_2%elem_of_above; simpl;
        apply u64_small; specialize (Hids r (proj2 Hr)); unfold maxInt64 in Hids; lia).
      by apply ascending_ids, ascending_filter. }
    fold expected in E. rewrite E, fmap_app in Hnd. by apply NoDup_app in Hnd as [? _].
  - intros Hw. destruct (session_sent _ _ _ _ _ Hs) as [_ Hm]. rewrite (Hm Hw).
    destruct (resume_prefix c rows rows' received (conj Ha Hids) Hp (client_prefix _ _ _ _ Hc)) as (n & -> & E).
    rewrite E, <- fmap_app. by rewrite take_drop.
Qed.

(** ** A client that comes back after the first two of four messages *)

Definition firstReceived : list GroupMessage :=
  take 2 (toGroupMessage <$> above g_ID 1 (group_rows "g" (db (c_node connEnd)))).

Definition resumeNode : Node := c_node connEnd.
Definition resumeMutate : Mutate := mkMutate [mkAdd (wireGroup "g") (resumeAt 1 firstReceived)] [] false 6.
Definition resumeAdds : list GroupCatchup := [mkGroupCatchup "g" (resumeAt 1 firstReceived)].

Definition resumeEnv : scanEnv := mkScanEnv (λ _, db resumeNode) (λ _, None) true (λ _, true) (λ _, true).
Definition resumeOuts : nat → list catchUpBatch :=
  λ _, default [] (catchUpGroups defaultTunables resumeEnv 20 resumeAdds 0).

Definition resumeRun (evs : list connEvent) (s : conn) : option conn :=
  connRun defaultTunables allAccepted Drained codecGroup (λ _, None) (λ m, Ok (codecEnc m))
    (λ _, Ok "") (λ b, b) (nextSub (dispatcher resumeNode)) resumeOuts evs s.
Definition resume0 : conn := default conn0 (openConn defaultTunables allAccepted 9 resumeNode).
Definition resume2 : conn := default conn0 (resumeRun [SelectEv (EvRequest (Some (ReqMutate resumeMutate)))] resume0).
Definition resumeEnd : conn := default conn0 (resumeRun [TakeBatch 0; TakeBatch 0] resume2).

Definition sampleRun outs now n evs1 m evs2 s0 s1 s2 s g c adds wave : Prop :=
  subscriptionRun defaultTunables allAccepted Drained codecGroup (λ _, None) (λ m, Ok (codecEnc m)) (λ _, Ok "")
    (λ b, b) codecEnc outs now n evs1 m evs2 s0 s1 s2 s g c adds wave.

Lemma first_run :
  sampleRun connOuts 0 connNode [] connMutate connAfter conn0 conn0 conn2 connEnd "g" 1 [mkGroupCatchup "g" 1] 0.
Proof.
  split.
  - apply allAccepted_alive.
  - done.
  - intros msg. unfold codecGroup. by rewrite codec_ok.
  - exact (wf_group_ids _ sampleDb_wf).
  - vm_compute. discriminate.
  - apply some_default. vm_compute. reflexivity.
  - done.
  - apply some_default. vm_compute. reflexivity.
  - apply some_default. vm_compute. reflexivity.
  - exact connSmooth.
  - repeat (apply List.Forall_cons; [exact I|]). apply List.Forall_nil.
  - exact connScans.
  - done.
  - vm_compute. reflexivity.
  - left.
  - vm_compute. discriminate.
Qed.

Lemma resumeScans j sc :
  launched (c_writer resumeEnd) !! j = Some sc →
  scanRuns defaultTunables allAccepted Drained codecGroup (λ _, None) (λ m, Ok (codecEnc m)) (λ _, Ok "")
    (λ b, b) (nextSub (dispatcher resumeNode)) resumeOuts
    ([] ++ SelectEv (EvRequest (Some (ReqMutate resumeMutate))) :: [TakeBatch 0; TakeBatch 0]) resume0 j sc.
Proof.
  assert (E : launched (c_writer resumeEnd) = [scanGroups resumeAdds 0]) by (vm_compute; reflexivity).
  rewrite E. intros [-> <-]%list_lookup_singleton_Some. exists resumeEnv, 20%nat, (λ _, 1%nat).
  split; [|split; [done|]].
  - unfold scanOutput, resumeOuts. apply (some_default []). vm_compute. reflexivity.
  - intros q. exists resume2. split; [|split; vm_compute; [lia|reflexivity]].
    change (resumeRun [SelectEv (EvRequest (Some (ReqMutate resumeMutate)))] resume0 = Some resume2).
    unfold resume2. apply some_default. vm_compute. reflexivity.
Qed.

Lemma second_run :
  sampleRun resumeOuts 9 resumeNode [] resumeMutate [TakeBatch 0; TakeBatch 0] resume0 resume0 resume2 resumeEnd
    "g" (resumeAt 1 firstReceived) resumeAdds 0.
Proof.
  split.
  - apply allAccepted_alive.
  - done.
  - intros msg. unfold codecGroup. by rewrite codec_ok.
  - exact (subscriptionRun_keyed _ _ _ _ _ _ _ _ _ _ _ _ _ _ _ _ _ _ _ _ _ _ _ first_run).
  - vm_compute. discriminate.
  - apply some_default. vm_compute. reflexivity.
  - done.
  - apply some_default. vm_compute. reflexivity.
  - apply some_default. vm_compute. reflexivity.
  - constructor; [|by repeat (apply List.Forall_cons; [exact I|]); apply List.Forall_nil].
    constructor; [|constructor]. vm_compute. split; [discriminate|reflexivity].
  - repeat (apply List.Forall_cons; [exact I|]). apply List.Forall_nil.
  - exact resumeScans.
  - done.
  - vm_compute. reflexivity.
  - left.
  - vm_compute. discriminate.
Qed.

Lemma sentFirst :
  messagesIn (BuildMLSV1GroupTopic "g") (outbound (c_writer connEnd)) =
  messagesIn (BuildMLSV1GroupTopic "g") (outbound (c_writer conn2))
    ++ (toGroupMessage <$> above g_ID 1 (group_rows "g" (db (c_node connEnd)))).
Proof. vm_compute. reflexivity. Qed.

(** The client got two of the four messages the first stream sent. *)
Lemma first_client : client "g" 1 (group_rows "g" (db resumeNode)) firstReceived.
Proof.
  apply (client_session _ _ [] [] _ firstReceived False); [constructor|apply prefix_nil|].
  eapply session_intro; [exact first_run|reflexivity|exact sentFirst|apply prefix_take|done].
Qed.

Lemma resumed_streams_complete_witness :
  firstReceived ++ drop 2 (toGroupMessage <$> above g_ID 1 (group_rows "g" (db (c_node resumeEnd)))) =
    (toGroupMessage <$> above g_ID 1 (group_rows "g" (db (c_node resumeEnd)))) ∧
  groupData <$> firstReceived = ["y"; "z"].
Proof.
  split; [|vm_compute; reflexivity].
  assert (Er : group_rows "g" (db (c_node resumeEnd)) = group_rows "g" (db resumeNode)) by (vm_compute; reflexivity).
  destruct (resumed_streams_complete "g" 1 (group_rows "g" (db resumeNode)) firstReceived
    (group_rows "g" (db (c_node resumeEnd)))
    (drop 2 (toGroupMessage <$> above g_ID 1 (group_rows "g" (db (c_node resumeEnd))))) True) as (_ & _ & H).
  - exact first_client.
  - rewrite Er. reflexivity.
  - eapply session_intro; [exact second_run|reflexivity|vm_compute; reflexivity|reflexivity|].
    intros _. split; [|reflexivity]. split; [left|split; [|split]].
    + apply (bool_decide_unpack _). vm_compute. exact I.
    + apply (bool_decide_unpack _). vm_compute. exact I.
    + eexists. split; vm_compute; reflexivity.
    + vm_compute. reflexivity.
  - exact (H I).
Defined.
