(* ===== verification/Streams.v ===== *)
(** The older streaming handlers of the MLS API (SubscribeGroupMessages and
    SubscribeWelcomeMessages in pkg/mls/api/v1/service.go): one goroutine per filter replays
    history while the live messages gather in the dispatcher's channel; when all are done, the
    handler's select loop forwards the channel. The goroutines share the high-water marks, the
    stream and the error channel, so a stream is a machine whose events are the steps of the
    goroutines and of the loop, interleaved with those of the node (Worker.v). *)

From S2P Require Import Prelude Topic Types MlsDb ReadStore Store Dispatcher Worker Interceptor Service.

(** * A stream *)

(** What sendToStream reads off a message: nothing (a nil dereference), that it is to be
    skipped, or its key and id. *)
Inductive msgMeta := NilMessage | Invalid | Keyed (key : string) (id : Z).

(** Where a fetcher goroutine stands: at the top of its loop, past the checks, with a page to
    send, or returned. *)
Inductive fetchPhase (M : Type) :=
  | Top (pagingInfo : PagingInfo)
  | Querying (pagingInfo : PagingInfo)
  | Fetched (messages : list M) (next : PagingInfo)
  | Finished.
Arguments Top {_}. Arguments Querying {_}. Arguments Fetched {_}. Arguments Finished {_}.

Inductive exit := Returned (r : result ()) | Panicked.

Inductive sendResult := SentAll | SendFailed (e : error) | SendPanicked.

Definition streamingUnavailable : error := Status Unavailable
  "XMTP V3 streaming is no longer available. Please upgrade your client to XMTP D14N.".
Definition serviceShuttingDown : error := Status Unavailable "service is shutting down".
Definition tooSlow : error := Status Aborted "caller did not read all messages fast enough".

(** The steps of a stream's goroutines. [stop] is whether one of the two contexts is done; [sends]
    are the errors of the successive calls of [stream.Send] ([None], or past the end: none). *)
Inductive streamEvent :=
  | FetchTop (i : nat) (stop : bool)
  | FetchQuery (i : nat) (dbErr : option error)
  | FetchSend (i : nat) (sends : list (option error))
  | LiveError
  | LiveDone
  | LiveShutdown
  | LiveTick (now : Z)
  | LiveReceive (sends : list (option error)).

Inductive sysEvent :=
  | NodeEvent (ev : nodeEvent)
  | StreamEvent (ev : streamEvent).

Section Lane.
Context {F M : Type}.
Context (metaOf : M → msgMeta)
  (queryPage : option error → F → PagingInfo → Db → result (list M * PagingInfo))
  (decode : bytes → result M)
  (onClosed : result ()).

Record Stream := mkStream {
  highWaterMarks : gmap string Z;
  Sent : list M;
  errChan : list error;
  fetchers : list (F * fetchPhase M);
  outcome : option exit;
}.

#[export] Instance Stream_eta : Eta Stream :=
  λ s, mkStream (highWaterMarks s) (Sent s) (errChan s) (fetchers s) (outcome s).

(** sendToStream's loop, under the stream's lock. *)
Fixpoint sendLoop (sends : list (option error)) (msgs : list M) (marks : gmap string Z)
    (sent : list M) : gmap string Z * list M * sendResult :=
  match msgs with
  | [] => (marks, sent, SentAll)
  | m :: msgs =>
      match metaOf m with
      | NilMessage => (marks, sent, SendPanicked)
      | Invalid => sendLoop sends msgs marks sent
      | Keyed key id =>
          if bool_decide (default 0 (marks !! key) < id) then
            let marks := <[key := id]> marks in
            match default None (head sends) with
            | Some e => (marks, sent, SendFailed e)
            | None => sendLoop (tail sends) msgs marks (sent ++ [m])
            end
          else sendLoop sends msgs marks sent
      end
  end.

Definition sendToStream (sends : list (option error)) (msgs : list M) (s : Stream)
    : Stream * sendResult :=
  let '(marks, sent, r) := sendLoop sends msgs (highWaterMarks s) (Sent s) in
  (s <| highWaterMarks := marks |> <| Sent := sent |>, r).

Definition setFetcher (i : nat) (p : fetchPhase M) (s : Stream) : Stream :=
  s <| fetchers := alter (λ f, (f.1, p)) i (fetchers s) |>.

(** The error channel holds one error per filter. *)
Definition pushErr (e : error) (s : Stream) : Stream :=
  if bool_decide (length (errChan s) < length (fetchers s))%nat
  then s <| errChan := errChan s ++ [e] |> else s.

Definition fetchTop (i : nat) (stop : bool) (s : Stream) : Stream :=
  match fetchers s !! i with
  | Some (_, Top p) =>
      if stop || negb (bool_decide (errChan s = [])) then setFetcher i Finished s
      else setFetcher i (Querying p) s
  | _ => s
  end.

Definition fetchQuery (i : nat) (dbErr : option error) (d : Db) (s : Stream) : Stream :=
  match fetchers s !! i with
  | Some (f, Querying p) =>
      match queryPage dbErr f p d with
      | Ok (msgs, next) => setFetcher i (Fetched msgs next) s
      | Err e =>
          let s := if bool_decide (e = ContextCanceled) then s else pushErr e s in
          setFetcher i Finished s
      end
  | _ => s
  end.

Definition fetchSend (i : nat) (sends : list (option error)) (s : Stream) : Stream :=
  match fetchers s !! i with
  | Some (_, Fetched msgs next) =>
      let '(s, r) := sendToStream sends msgs s in
      match r with
      | SendPanicked => s <| outcome := Some Panicked |>
      | SendFailed e => setFetcher i Finished (pushErr e s)
      | SentAll =>
          if bool_decide (msgs = [] ∨ pi_IdCursor next = 0) then setFetcher i Finished s
          else setFetcher i (Top next) s
      end
  | _ => s
  end.

(** wg.Wait returns when every fetcher has. *)
Definition historyDone (s : Stream) : bool :=
  forallb (λ f, match f.2 with Finished => true | _ => false end) (fetchers s).

(** * A stream on its node *)

Record Sys := mkSys {
  node : Node;
  stream : Stream;
  sub : nat;
}.

#[export] Instance Sys_eta : Eta Sys := λ s, mkSys (node s) (stream s) (sub s).

(** Leaving the handler runs the deferred Unsubscribe. *)
Definition leave (r : result ()) (s : Sys) : Sys :=
  s <| stream := stream s <| outcome := Some (Returned r) |> |>
    <| node := node s <| dispatcher := Unsubscribe (sub s) (dispatcher (node s)) |> |>.

Definition liveSend (sends : list (option error)) (m : M) (s : Sys) : Sys :=
  let '(st, r) := sendToStream sends [m] (stream s) in
  let s := s <| stream := st |> in
  match r with
  | SendPanicked => s <| stream := st <| outcome := Some Panicked |> |>
  | SendFailed e => leave (Err e) s
  | SentAll => s
  end.

(** The arm that receives from the subscription: an empty channel blocks while it is open. *)
Definition liveReceive (sends : list (option error)) (s : Sys) : Sys :=
  match receive (sub s) (dispatcher (node s)) with
  | (Some env, d) =>
      let s := s <| node := node s <| dispatcher := d |> |> in
      match decode (Message env) with
      | Err _ => s
      | Ok m => liveSend sends m s
      end
  | (None, _) =>
      match objects (dispatcher (node s)) !! sub s with
      | Some x => if closed x then leave onClosed s else s
      | None => s
      end
  end.

Context (cutoverChecker : option Z).

(** One iteration of the handler's select loop. *)
Definition liveStep (ev : streamEvent) (s : Sys) : Sys :=
  if negb (historyDone (stream s)) then s
  else match ev with
  | LiveError => match errChan (stream s) with e :: _ => leave (Err e) s | [] => s end
  | LiveDone => leave (Ok ()) s
  | LiveShutdown => leave (Err serviceShuttingDown) s
  | LiveTick now => if isStreamingDisabled cutoverChecker now
                    then leave (Err streamingUnavailable) s else s
  | LiveReceive sends => liveReceive sends s
  | _ => s
  end.

Definition streamStep (ev : streamEvent) (s : Sys) : Sys :=
  match outcome (stream s) with
  | Some _ => s
  | None =>
      match ev with
      | FetchTop i stop => s <| stream := fetchTop i stop (stream s) |>
      | FetchQuery i dbErr => s <| stream := fetchQuery i dbErr (db (node s)) (stream s) |>
      | FetchSend i sends => s <| stream := fetchSend i sends (stream s) |>
      | _ => liveStep ev s
      end
  end.

Context (marshalGroup : GroupMessage → result bytes)
  (marshalWelcome : WelcomeMessage → result bytes) (sha256 : bytes → bytes).

Definition sysStep (ev : sysEvent) (s : Sys) : Sys :=
  match ev with
  | NodeEvent ev => s <| node := (stepNode marshalGroup marshalWelcome sha256 ev (node s)).1 |>
  | StreamEvent ev => streamStep ev s
  end.

Definition sysRun (evs : list sysEvent) (s : Sys) : Sys := foldl (flip sysStep) s evs.

(** A stream once its handler has subscribed and started its fetchers. *)
Definition openStream (topicOf : F → string) (cursorOf : F → Z) (filters : list F) (n : Node)
    : Sys :=
  let topicMap : gmap string bool := foldl (λ m f, <[topicOf f := true]> m) ∅ filters in
  {| node := n <| dispatcher := Subscribe topicMap (dispatcher n) |>;
     stream := mkStream ∅ [] []
       ((λ f, (f, Top (mkPagingInfo SORT_DIRECTION_ASCENDING 0 (cursorOf f)))) <$> filters) None;
     sub := nextSub (dispatcher n) |}.
End Lane.
Arguments Stream : clear implicits.
Arguments Sys : clear implicits.

(** * The two handlers *)

Record GroupFilter := mkGroupFilter { gf_GroupId : bytes; gf_IdCursor : Z }.
Record WelcomeFilter := mkWelcomeFilter { wf_InstallationKey : bytes; wf_IdCursor : Z }.

Definition groupMeta (m : GroupMessage) : msgMeta :=
  match gm_V1 m with Some v => Keyed (gm_GroupId v) (gm_Id v) | None => NilMessage end.

Definition welcomeMeta (m : WelcomeMessage) : msgMeta :=
  let '(isValid, installationKey, id) := getMetadataFromWelcomeMessage m in
  if isValid then Keyed installationKey id else Invalid.

Definition groupQueryPage (dbErr : option error) (f : GroupFilter) (p : PagingInfo) (d : Db)
    : result (list GroupMessage * PagingInfo) :=
  resp ← QueryGroupMessagesV1 dbErr (mkQueryGroupMessagesRequest (gf_GroupId f) (Some p)) d;
  Ok (rg_Messages resp, rg_PagingInfo resp).

Definition welcomeQueryPage (dbErr : option error) (f : WelcomeFilter) (p : PagingInfo) (d : Db)
    : result (list WelcomeMessage * PagingInfo) :=
  resp ← QueryWelcomeMessagesV1 dbErr
           (mkQueryWelcomeMessagesRequest (wf_InstallationKey f) (Some p)) d;
  Ok (rw_Messages resp, rw_PagingInfo resp).

Definition groupTopicOf (f : GroupFilter) : string := BuildMLSV1GroupTopic (gf_GroupId f).
Definition welcomeTopicOf (f : WelcomeFilter) : string :=
  BuildMLSV1WelcomeTopic (wf_InstallationKey f).

(** What the closed channel of a dropped subscription answers. *)
Definition groupClosed : result () := Err tooSlow.
Definition welcomeClosed : result () := Ok ().

(** The handlers up to their select loops: an early return or an open stream. *)
Definition SubscribeGroupMessages (cutoverChecker : option Z) (now : Z)
    (filters : list (option GroupFilter)) (n : Node) : exit + Sys GroupFilter GroupMessage :=
  if isStreamingDisabled cutoverChecker now then inl (Returned (Err streamingUnavailable))
  else match mapM id filters with
  | None => inl Panicked
  | Some filters => inr (openStream groupTopicOf gf_IdCursor filters n)
  end.

Definition noValidFilters : error := invalid "no valid filters provided".
Definition emptyInstallationKey : error := invalid "a filter is nil or installation key is empty".

Definition SubscribeWelcomeMessages (cutoverChecker : option Z) (now : Z)
    (req : option (list (option WelcomeFilter))) (n : Node)
    : exit + Sys WelcomeFilter WelcomeMessage :=
  if isStreamingDisabled cutoverChecker now then inl (Returned (Err streamingUnavailable))
  else match req with
  | None => inl (Returned (Err (invalid "request is nil")))
  | Some [] => inl (Returned (Err noValidFilters))
  | Some filters =>
      match mapM (λ f, f ← f; if bool_decide (len (wf_InstallationKey f) = 0) then None else Some f)
              filters with
      | None => inl (Returned (Err emptyInstallationKey))
      | Some filters => inr (openStream welcomeTopicOf wf_IdCursor filters n)
      end
  end.

Definition groupRun (unmarshal : bytes → result GroupMessage) :=
  sysRun (F:=GroupFilter) groupMeta groupQueryPage unmarshal groupClosed.
Definition welcomeRun (unmarshal : bytes → result WelcomeMessage) :=
  sysRun (F:=WelcomeFilter) welcomeMeta welcomeQueryPage unmarshal welcomeClosed.
