(* ===== verification/StreamsProps.v ===== *)
(** What the older streaming handlers of Streams.v guarantee: no message twice and ascending ids
    per group or installation, and room for every error. *)

From S2P Require Import Prelude Topic Types MlsDb ReadStore Store Dispatcher Worker Interceptor Service Streams.

(** * Ascending delivery, in both lanes *)

Section Lane.
Context {F M : Type} (metaOf : M → msgMeta)
  (queryPage : option error → F → PagingInfo → Db → result (list M * PagingInfo))
  (decode : bytes → result M) (onClosed : result ()) (cutoverChecker : option Z)
  (marshalGroup : GroupMessage → result bytes)
  (marshalWelcome : WelcomeMessage → result bytes) (sha256 : bytes → bytes).

Abbreviation step := (sysStep metaOf queryPage decode onClosed cutoverChecker marshalGroup
  marshalWelcome sha256).
Abbreviation run := (sysRun metaOf queryPage decode onClosed cutoverChecker marshalGroup
  marshalWelcome sha256).

(** The ids sent for a key, in order. *)
Definition idOn (key : string) (m : M) : option Z :=
  match metaOf m with Keyed k id => if decide (k = key) then Some id else None | _ => None end.
Definition idsOn (key : string) (sent : list M) : list Z := omap (idOn key) sent.

Definition increasing : list Z → Prop := StronglySorted Z.lt.

(** The marks are above everything sent, and what was sent ascends. *)
Definition marked (marks : gmap string Z) (sent : list M) : Prop :=
  ∀ key, increasing (idsOn key sent) ∧
    ∀ id, id ∈ idsOn key sent → id ≤ default 0 (marks !! key).

Lemma idsOn_app key a b : idsOn key (a ++ b) = idsOn key a ++ idsOn key b.
Proof. apply omap_app. Qed.

Lemma marked_raise marks sent key id :
  marked marks sent → default 0 (marks !! key) < id → marked (<[key := id]> marks) sent.
Proof.
  intros H Hid k. destruct (H k) as [H1 H2]. split; [done|]. intros x Hx. specialize (H2 x Hx).
  destruct (decide (k = key)) as [->|Hk]; [rewrite lookup_insert_eq; simpl; lia|].
  by rewrite lookup_insert_ne by congruence.
Qed.

Lemma marked_send marks sent m key id :
  marked marks sent → metaOf m = Keyed key id → default 0 (marks !! key) < id →
  marked (<[key := id]> marks) (sent ++ [m]).
Proof.
  intros H Hm Hid k. destruct (marked_raise marks sent key id H Hid k) as [_ H2].
  destruct (H k) as [H1 H1']. unfold idsOn in *. rewrite omap_app.
  assert (E : omap (idOn k) [m] = if decide (key = k) then [id] else [])
    by (simpl; unfold idOn; rewrite Hm; by case_decide).
  rewrite E. case_decide as Hk; [subst k|by rewrite app_nil_r].
  rewrite lookup_insert_eq. simpl. split.
  - apply StronglySorted_app. split; [|split; [done|repeat constructor]].
    intros x y Hx ->%list_elem_of_singleton. specialize (H1' x Hx). lia.
  - intros x [Hx|Hx%list_elem_of_singleton]%elem_of_app; [|lia]. specialize (H1' x Hx). lia.
Qed.

Lemma sendLoop_marked sends msgs marks sent :
  marked marks sent →
  let '(marks', sent', _) := sendLoop metaOf sends msgs marks sent in marked marks' sent'.
Proof.
  revert sends marks sent. induction msgs as [|m msgs IH]; intros sends marks sent H; [done|].
  cbn [sendLoop]. destruct (metaOf m) as [| |key id] eqn:Em; [done|by apply IH|].
  case_bool_decide as Hid; [|by apply IH]. cbv zeta.
  destruct (default None (head sends)) as [e|]; [by apply marked_raise|].
  by apply IH, marked_send.
Qed.

(** A stream's step sends at most one list of messages. *)
Definition sends_one (s s' : Stream F M) : Prop :=
  ∃ sends msgs r, sendLoop metaOf sends msgs (highWaterMarks s) (Sent s)
    = (highWaterMarks s', Sent s', r).

Lemma sends_none s s' :
  highWaterMarks s' = highWaterMarks s → Sent s' = Sent s → sends_one s s'.
Proof. intros E1 E2. exists [], [], SentAll. simpl. by rewrite E1, E2. Qed.

Lemma sendToStream_one sends msgs (s : Stream F M) :
  let '(s', r) := sendToStream metaOf sends msgs s in sends_one s s'.
Proof.
  unfold sendToStream. destruct (sendLoop _ _ _ _ _) as [[marks sent] r] eqn:E.
  by exists sends, msgs, r.
Qed.

Lemma pushErr_quiet e (s : Stream F M) :
  highWaterMarks (pushErr e s) = highWaterMarks s ∧ Sent (pushErr e s) = Sent s.
Proof. unfold pushErr. by case_bool_decide. Qed.

Lemma fetchTop_one i stop (s : Stream F M) : sends_one s (fetchTop i stop s).
Proof.
  unfold fetchTop. destruct (fetchers s !! i) as [[f []]|]; try by apply sends_none.
  destruct (_ || _); by apply sends_none.
Qed.

Lemma fetchQuery_one i dbErr d s : sends_one s (fetchQuery queryPage i dbErr d s).
Proof.
  unfold fetchQuery. destruct (fetchers s !! i) as [[f []]|]; try by apply sends_none.
  destruct (queryPage _ _ _ _) as [[msgs next]|e]; [by apply sends_none|].
  case_bool_decide; apply sends_none; simpl; try done; apply pushErr_quiet.
Qed.

Lemma fetchSend_one i sends s : sends_one s (fetchSend metaOf i sends s).
Proof.
  unfold fetchSend. destruct (fetchers s !! i) as [[f []]|]; try by apply sends_none.
  pose proof (sendToStream_one sends messages s) as H.
  destruct (sendToStream _ _ _ s) as [s' r]. destruct H as (sends' & msgs' & r' & E).
  exists sends', msgs', r'. rewrite E.
  destruct r as [|e|]; [by case_bool_decide| |done]. simpl.
  by rewrite (proj1 (pushErr_quiet e s')), (proj2 (pushErr_quiet e s')).
Qed.

Lemma liveSend_one sends m (s : Sys F M) : sends_one (stream s) (stream (liveSend metaOf sends m s)).
Proof.
  unfold liveSend. pose proof (sendToStream_one sends [m] (stream s)) as H.
  destruct (sendToStream _ _ _ _) as [st r]. by destruct r.
Qed.

Lemma liveReceive_one sends (s : Sys F M) :
  sends_one (stream s) (stream (liveReceive metaOf decode onClosed sends s)).
Proof.
  unfold liveReceive. destruct (receive _ _) as [[env|] d].
  - destruct (decode (Message env)) as [m|e]; [|by apply sends_none].
    exact (liveSend_one sends m (mkSys (node s <| dispatcher := d |>) (stream s) (sub s))).
  - destruct (objects _ !! _) as [x|]; [|by apply sends_none].
    destruct (closed x); by apply sends_none.
Qed.

Lemma sysStep_one ev (s : Sys F M) : sends_one (stream s) (stream (step ev s)).
Proof.
  destruct ev as [ev|ev]; [by apply sends_none|]. simpl. unfold streamStep.
  destruct (outcome (stream s)); [by apply sends_none|].
  assert (Hlive : sends_one (stream s)
    (stream (liveStep metaOf decode onClosed cutoverChecker ev s))).
  { unfold liveStep. destruct (negb _); [by apply sends_none|].
    destruct ev; try by apply sends_none.
    - destruct (errChan (stream s)); by apply sends_none.
    - destruct (isStreamingDisabled _ _); by apply sends_none.
    - apply liveReceive_one. }
  destruct ev; try exact Hlive;
    [apply fetchTop_one|apply fetchQuery_one|apply fetchSend_one].
Qed.

Lemma sysRun_marked evs (s : Sys F M) :
  marked (highWaterMarks (stream s)) (Sent (stream s)) →
  marked (highWaterMarks (stream (run evs s))) (Sent (stream (run evs s))).
Proof.
  revert s. induction evs as [|ev evs IH]; intros s H; [done|]. apply (IH (step ev s)).
  destruct (sysStep_one ev s) as (sends & msgs & r & E).
  pose proof (sendLoop_marked sends msgs _ _ H) as Hm. by rewrite E in Hm.
Qed.

(** ** The error channel *)

Definition running (f : F * fetchPhase M) : Prop :=
  match f.2 with Finished => False | _ => True end.
#[local] Instance running_dec f : Decision (running f).
Proof. unfold running. destruct f.2; apply _. Defined.

(** Every fetcher that can still push an error has room for it. *)
Definition errors_fit (s : Stream F M) : Prop :=
  Z.of_nat (length (errChan s)) + count running (fetchers s) ≤ Z.of_nat (length (fetchers s)).

Lemma count_set i f p (l : list (F * fetchPhase M)) :
  l !! i = Some f → running f →
  count running (alter (λ f, (f.1, p)) i l)
    = count running l - (if decide (running (f.1, p)) then 0 else 1).
Proof.
  revert i. induction l as [|g l IH]; intros [|i] Hl Hf; try done; simpl in Hl.
  - injection Hl as ->. change (alter ?h 0%nat (f :: l)) with (h f :: l).
    rewrite !count_cons, (decide_True (P:=running f)) by done. destruct (decide _); lia.
  - change (alter ?h (S i) (g :: l)) with (g :: alter h i l). rewrite !count_cons, (IH i) by done.
    lia.
Qed.

Lemma set_fits i f p (s : Stream F M) :
  errors_fit s → fetchers s !! i = Some f → running f → errors_fit (setFetcher i p s).
Proof.
  unfold errors_fit. intros H Hf Hr. simpl. rewrite length_alter, (count_set i f) by done.
  case_decide; lia.
Qed.

Lemma fail_fits i f e (s : Stream F M) :
  errors_fit s → fetchers s !! i = Some f → running f →
  errChan (pushErr e s) = errChan s ++ [e] ∧ errors_fit (setFetcher i Finished (pushErr e s)).
Proof.
  unfold errors_fit, pushErr. intros H Hf Hr.
  pose proof (count_pos running (fetchers s) f (list_elem_of_lookup_2 _ _ _ Hf) Hr).
  rewrite bool_decide_true by lia. simpl. split; [done|].
  rewrite length_alter, length_app, (count_set i f) by done. simpl. lia.
Qed.
Lemma fits_same (s s' : Stream F M) :
  fetchers s' = fetchers s → errChan s' = errChan s → errors_fit s → errors_fit s'.
Proof. unfold errors_fit. by intros -> ->. Qed.

Lemma sendToStream_fits sends msgs (s : Stream F M) :
  let '(s', r) := sendToStream metaOf sends msgs s in
  fetchers s' = fetchers s ∧ errChan s' = errChan s.
Proof. unfold sendToStream. by destruct (sendLoop _ _ _ _ _) as [[marks sent] r]. Qed.

Lemma fetch_fits i (s : Stream F M) stop dbErr d sends :
  errors_fit s → errors_fit (fetchTop i stop s) ∧ errors_fit (fetchQuery queryPage i dbErr d s) ∧
  errors_fit (fetchSend metaOf i sends s).
Proof.
  intros H. unfold fetchTop, fetchQuery, fetchSend.
  destruct (fetchers s !! i) as [[f p]|] eqn:Hi; [|done].
  destruct p as [p|p|msgs next|]; (split; [|split]); try done.
  - destruct (_ || _); by eapply set_fits.
  - destruct (queryPage _ _ _ _) as [[msgs next]|e]; [by eapply set_fits|].
    case_bool_decide; [by eapply set_fits|by eapply (fail_fits i _ e s)].
  - pose proof (sendToStream_fits sends msgs s) as Hs.
    destruct (sendToStream _ _ _ s) as [s' r]. destruct Hs as [E1 E2].
    assert (H' : errors_fit s') by (by apply (fits_same s)). rewrite <- E1 in Hi.
    destruct r as [|e|]; [case_bool_decide; by eapply set_fits|by eapply (fail_fits i _ e s')|done].
Qed.

Lemma sysRun_fits evs (s : Sys F M) : errors_fit (stream s) → errors_fit (stream (run evs s)).
Proof.
  revert s. induction evs as [|ev evs IH]; intros s H; [done|]. apply (IH (step ev s)).
  destruct ev as [ev|ev]; [done|]. simpl. unfold streamStep.
  destruct (outcome (stream s)); [done|].
  assert (Hlive : errors_fit (stream (liveStep metaOf decode onClosed cutoverChecker ev s))).
  { unfold liveStep. destruct (negb _); [done|]. destruct ev; try done.
    - by destruct (errChan (stream s)).
    - by destruct (isStreamingDisabled _ _).
    - unfold liveReceive. destruct (receive _ _) as [[env|] d].
      + destruct (decode _) as [m|e]; [|done]. unfold liveSend.
        pose proof (sendToStream_fits sends [m] (stream s)) as Hs.
        change (stream (_ <| node := _ |>)) with (stream s).
        destruct (sendToStream _ _ _ _) as [st r]. destruct Hs as [E1 E2].
        destruct r; by apply (fits_same (stream s)).
      + destruct (objects _ !! _) as [x|]; [|done]. by destruct (closed x). }
  destruct ev as [i stop|i dbErr|i sends| | | | |sends]; try exact Hlive.
  - by apply (fetch_fits i (stream s) stop None (db (node s)) []).
  - by apply (fetch_fits i (stream s) true dbErr (db (node s)) []).
  - by apply (fetch_fits i (stream s) true None (db (node s)) sends).
Qed.

Lemma openStream_fits (topicOf : F → string) cursorOf fs n :
  errors_fit (stream (openStream (M:=M) topicOf cursorOf fs n)).
Proof.
  unfold errors_fit. simpl. rewrite count_all; [lia|].
  intros [f p] (x & [= -> ->] & _)%list_elem_of_fmap. done.
Qed.

Lemma openStream_marked (topicOf : F → string) cursorOf fs n :
  let st := stream (openStream (M:=M) topicOf cursorOf fs n) in marked (highWaterMarks st) (Sent st).
Proof. intros st key. split; [constructor|]. by intros id ?%elem_of_nil. Qed.
End Lane.

(** * Properties *)

Lemma mapM_present {A} (l : list A) : mapM id (Some <$> l) = Some l.
Proof. apply mapM_Some. induction l; by constructor. Qed.

(** The older streams never repeat themselves: whatever the interleaving of the fetchers, the
    loop, the node's publishes and workers, and whatever fails, the ids sent for one group (or
    installation) ascend strictly; and a fetcher that has an error to report always finds room in
    the error channel, so none ever blocks. *)
Theorem older_streams_ascending cutoverChecker marshalGroup marshalWelcome sha256 unmarshalGroup
    unmarshalWelcome now filters req n evs :
  (∀ s0, SubscribeGroupMessages cutoverChecker now filters n = inr s0 →
   let st := stream (groupRun unmarshalGroup cutoverChecker marshalGroup marshalWelcome sha256 evs s0) in
   (∀ key, increasing (idsOn groupMeta key (Sent st))) ∧
   ∀ j f p e, fetchers st !! j = Some (f, p) → p ≠ Finished → errChan (pushErr e st) = errChan st ++ [e]) ∧
  (∀ s0, SubscribeWelcomeMessages cutoverChecker now req n = inr s0 →
   let st := stream (welcomeRun unmarshalWelcome cutoverChecker marshalGroup marshalWelcome sha256 evs s0) in
   (∀ key, increasing (idsOn welcomeMeta key (Sent st))) ∧
   ∀ j f p e, fetchers st !! j = Some (f, p) → p ≠ Finished → errChan (pushErr e st) = errChan st ++ [e]).
Proof.
  split; intros s0 Hs0.
  - unfold SubscribeGroupMessages in Hs0. destruct (isStreamingDisabled _ _); [done|].
    destruct (mapM id filters) as [fs|]; [|done]. injection Hs0 as <-. split.
    + intros key. unfold groupRun. apply sysRun_marked, openStream_marked.
    + intros j f p e Hj Hp. eapply fail_fits; [|done|by destruct p].
      apply sysRun_fits, openStream_fits.
  - unfold SubscribeWelcomeMessages in Hs0. destruct (isStreamingDisabled _ _); [done|].
    destruct req as [[|f0 fs0]|]; [done| |done]. destruct (mapM _ _) as [fs|]; [|done].
    injection Hs0 as <-. split.
    + intros key. unfold welcomeRun. apply sysRun_marked, openStream_marked.
    + intros j f p e Hj Hp. eapply fail_fits; [|done|by destruct p].
      apply sysRun_fits, openStream_fits.
Qed.

(** * Concrete inputs *)

Definition codecRun := groupRun codecDec None (λ m, Ok (codecEnc m)) (λ _, Ok "") (λ b, b).

Definition streamFilters : list GroupFilter := [mkGroupFilter "h" 0; mkGroupFilter "g" 1].
Definition openSample : Sys GroupFilter GroupMessage :=
  openStream groupTopicOf gf_IdCursor streamFilters sampleNode.

(** A fetcher that sees a message published after it started (which the channel then holds too), a
    second fetcher, and live messages of both groups. *)
Definition streamEvents : list sysEvent :=
  [StreamEvent (FetchTop 1 false); NodeEvent (PublishGroup None 5 "g" "one" "" true false);
   StreamEvent (FetchQuery 1 None); StreamEvent (FetchTop 0 false);
   NodeEvent (PublishGroup None 6 "h" "other" "" true false); NodeEvent (PollGroups None);
   NodeEvent (Dispatch (OpEnvelope (Some relayed))); StreamEvent (FetchSend 1 [None]); StreamEvent (FetchQuery 0 None);
   NodeEvent (PublishGroup None 7 "g" "two" "" true false); StreamEvent (FetchSend 0 []);
   StreamEvent (LiveReceive []); StreamEvent (LiveReceive []); NodeEvent (PollGroups None);
   StreamEvent (LiveReceive []); StreamEvent (LiveTick 9)].

(** A failing query, then a live message. *)
Definition failingEvents : list sysEvent :=
  [StreamEvent (FetchTop 1 false); StreamEvent (FetchQuery 1 (Some (Plain "down")));
   StreamEvent (FetchTop 0 false); NodeEvent (PublishGroup None 5 "g" "one" "" true false);
   NodeEvent (PollGroups None); StreamEvent (LiveReceive []); StreamEvent LiveError].

Lemma older_streams_ascending_witness :
  increasing (idsOn groupMeta "g" (Sent (stream (codecRun streamEvents openSample)))) ∧
  idsOn groupMeta "g" (Sent (stream (codecRun streamEvents openSample))) = [3; 4; 5; 7].
Proof.
  split; [|vm_compute; reflexivity].
  destruct (older_streams_ascending None (λ m, Ok (codecEnc m)) (λ _, Ok "") (λ b, b) codecDec
    (λ _, Ok WelcomeNone) 0 (Some <$> streamFilters) None sampleNode streamEvents) as [H _].
  apply (H openSample eq_refl).
Defined.
