(* ===== verification/GroupStream.v ===== *)
(** The group lane of the older streams end to end: what a client of SubscribeGroupMessages gets
    from history (its fetchers, over the read store) and live delivery (the publishers, the worker
    and the dispatcher) together. *)

From S2P Require Import Prelude Topic Types MlsDb ReadStore Store Dispatcher Worker LiveRows Interceptor Service Streams StreamsProps.

(** * The invariant *)

Section GroupLane.
Context (cutoverChecker : option Z) (marshalGroup : GroupMessage → result bytes)
  (marshalWelcome : WelcomeMessage → result bytes) (sha256 : bytes → bytes)
  (unmarshal : bytes → result GroupMessage) (enc : GroupMessage → bytes).
Hypothesis marshal_total : ∀ m, marshalGroup m = Ok (enc m).
Hypothesis unmarshal_enc : ∀ m, unmarshal (enc m) = Ok m.

(** The stream's subscription, the worker's cursor when it was opened, its filters, and the one
    filter the statements are about. *)
Context (k : nat) (c0 : Z) (filters : list GroupFilter) (i : nat) (f : GroupFilter).
Hypothesis Hf : filters !! i = Some f.
Hypothesis Hfilters : NoDup (gf_GroupId <$> filters).
Hypothesis Hnonempty : ∀ f, f ∈ filters → len (gf_GroupId f) ≠ 0.
Local Abbreviation g := (gf_GroupId f).
Local Abbreviation c := (gf_IdCursor f).
Hypothesis Hc : 0 ≤ c ≤ maxInt64.

Local Abbreviation Sys := (Sys GroupFilter GroupMessage).
Local Abbreviation Stream := (Stream GroupFilter GroupMessage).
Local Abbreviation step := (sysStep (F:=GroupFilter) groupMeta groupQueryPage unmarshal groupClosed
  cutoverChecker marshalGroup marshalWelcome sha256).

Local Abbreviation rowsOf := (LiveRows.rowsOf g).
Local Abbreviation grows := (LiveRows.grows g).
Local Abbreviation lastOf := (LiveRows.lastOf c0).
Definition sentAbove (st : Stream) : list GroupMessage :=
  filter (λ m, groupGroupId m = g ∧ c < groupID m) (Sent st).
Definition markOf (st : Stream) : Z := default 0 (highWaterMarks st !! g).
Definition topicSet : gmap string bool := foldl (λ m f, <[groupTopicOf f := true]> m) ∅ filters.

(** The group's rows above its cursor are sent up to [w]. *)
Definition scanned (n : Node) (w : Z) (st : Stream) : Prop :=
  c ≤ w ≤ Z.max c (seqOf n) ∧ sentAbove st = conv (range g_ID c w (rowsOf n)) ∧
  markOf st ≤ w ∧ (∀ r, r ∈ rowsOf n → c < g_ID r ≤ w → g_ID r ≤ markOf st).

Definition ascPage (p : PagingInfo) : Prop :=
  pi_Direction p = SORT_DIRECTION_ASCENDING ∧ (pi_Limit p = 0 ∨ pi_Limit p = 100).

(** The fetcher of the filter, and the rows [P] the loop has taken from the subscription. *)
Definition fetcher_at (n : Node) (P : list GroupMessageRow) (st : Stream)
    (p : fetchPhase GroupMessage) : Prop :=
  match p with
  | Top p | Querying p => P = [] ∧ ascPage p ∧ pi_IdCursor p ≤ maxInt64 ∧ scanned n (pi_IdCursor p) st
  | Fetched ms next => P = [] ∧ ∃ q page, q ≤ maxInt64 ∧ scanned n q st ∧ ms = conv page ∧
      page `prefix_of` above g_ID q (rowsOf n) ∧ ascPage next ∧
      (pi_IdCursor next = 0 ∨ Some (pi_IdCursor next) = g_ID <$> last page) ∧
      (page = [] ∨ pi_IdCursor next = 0 →
         ∀ r, r ∈ rowsOf n → g_ID r ≤ c0 → g_ID r ≤ q ∨ r ∈ page)
  | Finished => ∃ h, c ≤ h ≤ Z.max c (seqOf n) ∧
      (∀ r, r ∈ rowsOf n → g_ID r ≤ c0 → g_ID r ≤ h) ∧ scanned n (Z.max h (lastOf P)) st
  end.

(** What was dispatched for the group since the stream opened: taken, still in the channel, or
    lost because the subscription was dropped. *)
Definition good (e : Envelope) : Prop := ∃ r, e = groupEnvelope enc r.
Definition pipe (n : Node) (P : list GroupMessageRow) : Prop := inPipe enc g k c0 good n [] P.

Record inv (s : Sys) : Prop := {
  inv_sub : sub s = k;
  inv_keyed : keyedNode (node s);
  inv_cursor : c0 ≤ groupCursor (node s) ≤ seqOf (node s);
  inv_topics : ∃ x, objects (dispatcher (node s)) !! k = Some x ∧ all x = false ∧
    topics x = topicSet;
  inv_errs : errChan (stream s) = [];
  inv_filters : (fetchers (stream s)).*1 = filters;
  inv_pages : ∀ j fj ms p, fetchers (stream s) !! j = Some (fj, Fetched ms p) →
    ∃ page, ms = conv page ∧ ∀ r, r ∈ page → g_GroupID r = gf_GroupId fj;
  inv_at : ∃ P p, fetchers (stream s) !! i = Some (f, p) ∧ pipe (node s) P ∧
    fetcher_at (node s) P (stream s) p;
}.

(** Events without failures ([smoothNode] for those of the node), in which only the stream receives. *)
Definition smooth (ev : sysEvent) : Prop :=
  match ev with
  | NodeEvent ev => smoothNode k ev
  | StreamEvent (FetchTop _ stop) => stop = false
  | StreamEvent (FetchQuery _ dbErr) => dbErr = None
  | StreamEvent (FetchSend _ sends) | StreamEvent (LiveReceive sends) => Forall (λ e, e = None) sends
  | StreamEvent _ => True
  end.

(** ** The node's steps *)

Lemma scanned_grows n n' w st : grows n n' → scanned n w st → scanned n' w st.
Proof.
  intros Hg (H1 & H2 & H3 & H4). pose proof (range_grows g n n' c w Hg ltac:(lia)) as Er.
  destruct Hg as (new & E & Hs & Hnew).
  split; [lia|]. rewrite Er. split; [done|]. split; [done|]. rewrite E.
  intros r [Hr|Hr]%elem_of_app Hw; [by apply H4|]. specialize (Hnew r Hr). lia.
Qed.

Lemma fetcher_grows n n' P st p :
  grows n n' → c0 ≤ seqOf n → fetcher_at n P st p → fetcher_at n' P st p.
Proof.
  intros Hg Hc0. pose proof Hg as (new & E & Hs & Hnew).
  assert (Hlow : ∀ r, r ∈ rowsOf n' → g_ID r ≤ c0 → r ∈ rowsOf n).
  { rewrite E. intros r [Hr|Hr]%elem_of_app Hr0; [done|]. specialize (Hnew r Hr). lia. }
  destruct p as [p|p|ms next|]; simpl.
  - intros (H1 & H2 & H3 & H4). split_and!; try done. by eapply scanned_grows.
  - intros (H1 & H2 & H3 & H4). split_and!; try done. by eapply scanned_grows.
  - intros (H1 & q & page & H2 & H3 & H4 & H5 & H6 & H7 & H8). split; [done|].
    exists q, page. split_and!; try done; [by eapply scanned_grows| |auto].
    rewrite E. unfold above. rewrite filter_app. by apply prefix_app_r.
  - intros (h & H1 & H2 & H3). exists h. split_and!; [lia..|auto|by eapply scanned_grows].
Qed.
Local Abbreviation nodeStep := (stepNode marshalGroup marshalWelcome sha256).

Lemma topicSet_selects x e :
  all x = false → topics x = topicSet → selects x e = true → ∃ f, f ∈ filters ∧ ContentTopic e = groupTopicOf f.
Proof.
  intros Ha Et. unfold selects. rewrite Ha, Et. unfold topicSet.
  assert (H : ∀ fs (m : gmap string bool),
    default false (foldl (λ m f, <[groupTopicOf f := true]> m) m fs !! ContentTopic e) = true → (∃ f, f ∈ fs ∧ ContentTopic e = groupTopicOf f) ∨ default false (m !! ContentTopic e) = true).
  { induction fs as [|f1 fs IH]; intros m; simpl; [by right|].
    intros [(f2 & ? & ?)|Hm]%IH; [left; exists f2; split; [by right|done]|].
    destruct (decide (ContentTopic e = groupTopicOf f1)) as [E|E].
    - left. exists f1. split; [left|done].
    - rewrite lookup_insert_ne in Hm by congruence. by right. }
  intros [Hx|Hx]%H; [done|]. by rewrite lookup_empty in Hx.
Qed.

Lemma topic_topicSet : topicSet !! BuildMLSV1GroupTopic g = Some true.
Proof.
  assert (H : ∀ fs (m : gmap string bool), f ∈ fs ∨ m !! BuildMLSV1GroupTopic g = Some true →
    foldl (λ m f, <[groupTopicOf f := true]> m) m fs !! BuildMLSV1GroupTopic g = Some true).
  { induction fs as [|f1 fs IH]; intros m [Hin|Hm]; [by apply elem_of_nil in Hin|done|..];
      apply IH.
    - apply elem_of_cons in Hin as [->|Hin]; [|by left].
      right. unfold groupTopicOf. by rewrite lookup_insert_eq.
    - right. destruct (decide (groupTopicOf f1 = BuildMLSV1GroupTopic g)) as [->|E];
        [by rewrite lookup_insert_eq|by rewrite lookup_insert_ne]. }
  apply H. left. by eapply list_elem_of_lookup_2.
Qed.

(** The stream's subscription selects its filters' groups only. *)
Lemma topicSet_subscribed x : all x = false → topics x = topicSet → subscribedTo enc g good x.
Proof.
  intros Ha Et. split; [|split; [by rewrite Et, topic_topicSet|]].
  { split; [done|]. intros t Ht. destruct (topicSet_selects x (mkEnvelope t 0 "") Ha Et) as (f' & _ & E).
    - unfold selects. rewrite Ha. simpl. by rewrite Ht.
    - simpl in E. rewrite E. apply group_topic_mls. }
  intros e [?|[key Ew]] Es; [done|]. destruct (topicSet_selects x e Ha Et Es) as (f' & _ & Eg).
  rewrite Eg in Ew. by destruct (group_not_welcome_topic _ _ Ew).
Qed.

(** ** Sending pages *)

Local Abbreviation loop := (sendLoop groupMeta).

Lemma row_meta r : groupMeta (toGroupMessage r) = Keyed (g_GroupID r) (u64 (g_ID r)).
Proof. done. Qed.

Definition ofGroup (sent : list GroupMessage) : list GroupMessage :=
  filter (λ m, groupGroupId m = g ∧ c < groupID m) sent.

Lemma sendLoop_smooth sends page marks sent :
  Forall (λ e, e = None) sends → ∃ marks' sent', loop sends (conv page) marks sent = (marks', sent', SentAll).
Proof.
  revert sends marks sent. induction page as [|r page IH]; intros sends marks sent Hs; [by do 2 eexists|].
  change (conv (r :: page)) with (toGroupMessage r :: conv page). cbn [sendLoop]. rewrite row_meta. case_bool_decide; [|by apply IH].
  destruct sends as [|e sends]; [by apply IH|]. apply Forall_cons in Hs as [-> Hs]. by apply IH.
Qed.

Lemma sendLoop_other sends page marks sent marks' sent' res :
  (∀ r, r ∈ page → g_GroupID r ≠ g) → loop sends (conv page) marks sent = (marks', sent', res) →
  marks' !! g = marks !! g ∧ ofGroup sent' = ofGroup sent.
Proof.
  revert sends marks sent. induction page as [|r page IH]; intros sends marks sent Hp.
  { by intros [= <- <- <-]. }
  change (conv (r :: page)) with (toGroupMessage r :: conv page). cbn [sendLoop]. rewrite row_meta.
  assert (Hr : g_GroupID r ≠ g) by (apply Hp; left).
  assert (Hp' : ∀ r, r ∈ page → g_GroupID r ≠ g) by (intros; apply Hp; by right).
  case_bool_decide; [|by apply IH]. cbv zeta. destruct (default None (head sends)) as [e|].
  { intros [= <- <- <-]. by rewrite lookup_insert_ne. }
  intros [E1 E2]%IH; [|done]. rewrite E1, E2, lookup_insert_ne by done. split; [done|].
  unfold ofGroup. rewrite filter_app, filter_cons_False, filter_nil; [by rewrite app_nil_r|].
  by intros [? _].
Qed.

Lemma ofGroup_conv page :
  (∀ r, r ∈ page → g_GroupID r = g ∧ 0 < g_ID r ≤ maxInt64) →
  ofGroup (conv page) = conv (filter (λ r, c < g_ID r) page).
Proof.
  intros Hp. unfold ofGroup, conv. induction page as [|r page IH]; [done|].
  destruct (Hp r ltac:(left)) as [Hg Hr]. destruct (row_above r Hr) as [E1 E2].
  rewrite fmap_cons, !filter_cons, IH by (intros; apply Hp; by right).
  destruct (decide (c < g_ID r)).
  - by rewrite decide_True by (rewrite E1, E2; done).
  - by rewrite decide_False by (rewrite E1, E2; tauto).
Qed.

Lemma sendLoop_own sends page marks sent :
  Forall (λ e, e = None) sends → ascending g_ID page →
  (∀ r, r ∈ page → g_GroupID r = g ∧ 0 < g_ID r ≤ maxInt64 ∧ default 0 (marks !! g) < g_ID r) →
  ∃ marks', loop sends (conv page) marks sent = (marks', sent ++ conv page, SentAll) ∧
    default 0 (marks' !! g) = default (default 0 (marks !! g)) (g_ID <$> last page).
Proof.
  revert sends marks sent. induction page as [|r page IH]; intros sends marks sent Hs Ha Hp.
  { exists marks. by rewrite app_nil_r. }
  change (conv (r :: page)) with (toGroupMessage r :: conv page). cbn [sendLoop]. rewrite row_meta.
  destruct (Hp r ltac:(left)) as (-> & Hr & Hm). rewrite u64_small by (unfold_widths; lia).
  rewrite bool_decide_true by done. apply ascending_cons in Ha as [Hlt Ha].
  assert (Hs' : Forall (λ e, e = None) (tail sends)) by (destruct sends; [done|by apply Forall_cons in Hs as [_ ?]]).
  assert (En : default None (head sends) = None)
    by (destruct sends; [done|by apply Forall_cons in Hs as [-> _]]).
  rewrite En. destruct (IH (tail sends) (<[g := g_ID r]> marks) (sent ++ [toGroupMessage r]) Hs' Ha)
    as (marks' & E & Em).
  - intros x Hx. destruct (Hp x ltac:(by right)) as (? & ? & _). split_and!; try done; [lia..|].
    rewrite lookup_insert_eq. by apply Hlt.
  - exists marks'. rewrite E, <- app_assoc. split; [done|].
    rewrite Em, lookup_insert_eq. rewrite last_cons. by destruct (last page).
Qed.

(** ** A page moves the scan to its last row *)

Lemma scanned_page n q st page st' :
  keyedNode n → scanned n q st →
  page `prefix_of` above g_ID q (rowsOf n) →
  Sent st' = Sent st ++ conv page → markOf st' = default (markOf st) (g_ID <$> last page) →
  scanned n (default q (g_ID <$> last page)) st' ∧ q ≤ default q (g_ID <$> last page).
Proof.
  intros Hk (H1 & H2 & H3 & H4) [rest Ep] Es Em.
  assert (Ha : ascending g_ID (rowsOf n)) by (by apply rows_ascending).
  assert (Hpage : ∀ r, r ∈ page → r ∈ rowsOf n ∧ q < g_ID r).
  { intros r Hr. assert (Hr' : r ∈ above g_ID q (rowsOf n)) by (rewrite Ep; set_solver).
    by apply elem_of_above in Hr' as [? ?]. }
  assert (Eof : sentAbove st' = sentAbove st ++ conv page).
  { unfold sentAbove. rewrite Es, filter_app. f_equal. fold (ofGroup (conv page)).
    rewrite ofGroup_conv, filter_keep; [done| |].
    - intros r Hr. destruct (Hpage r Hr). lia.
    - intros r Hr. destruct (Hpage r Hr) as [Hr' _]. pose proof (rows_bounds g n r Hk Hr').
      apply rows_elem in Hr' as [? _]. split; [done|lia]. }
  destruct (last page) as [r|] eqn:El; simpl in *; last first.
  { apply last_None in El. subst page. rewrite app_nil_r in Eof. split; [|lia].
    split_and!; [lia..|by rewrite Eof|lia|]. rewrite Em. done. }
  destruct (range_page g_ID c q (rowsOf n) page rest r Ha ltac:(lia) Ep El) as (Er & Hlt & Hin).
  pose proof (rows_bounds g n r Hk Hin).
  split; [|lia]. split; [lia|]. rewrite Eof, Er, H2, Em. split; [by unfold conv; rewrite fmap_app|].
  split; [lia|]. intros x Hx Hx'. destruct (decide (g_ID x ≤ q)); [|lia].
  specialize (H4 x Hx ltac:(lia)). lia.
Qed.

Lemma scanned_floor n q st :
  scanned n q st → c0 ≤ seqOf n → (∀ r, r ∈ rowsOf n → g_ID r ≤ c0 → g_ID r ≤ q) →
  scanned n (Z.max q c0) st.
Proof.
  intros (H1 & H2 & H3 & H4) Hc0 Hlow. split; [lia|]. split; [|split; [lia|]].
  - rewrite H2. f_equal. unfold range. apply filter_agree. intros r Hr. specialize (Hlow r Hr). lia.
  - intros r Hr Hr'. specialize (Hlow r Hr). apply H4; [done|lia].
Qed.

(** A live row: sent when it is above the mark, and above the cursor exactly the next one. *)
Lemma scanned_live n h P r rest st st' sends :
  keyedNode n → c ≤ h →
  range g_ID c0 (groupCursor n) (rowsOf n) = P ++ r :: rest →
  Forall (λ e, e = None) sends →
  sendLoop groupMeta sends [toGroupMessage r] (highWaterMarks st) (Sent st)
    = (highWaterMarks st', Sent st', SentAll) →
  scanned n (Z.max h (lastOf P)) st → scanned n (Z.max h (lastOf (P ++ [r]))) st'.
Proof.
  intros Hk Hh Er Hs Hloop (H1 & H2 & H3 & H4).
  destruct (live_next c0 _ (rows_ascending g n Hk) _ P r rest Er) as (Hin & Hr & Ht & Hbetween).
  pose proof (rows_bounds g n r Hk Hin) as Hb. pose proof (proj1 (rows_elem g n r) Hin) as [Hg _].
  replace (lastOf (P ++ [r])) with (g_ID r) by (unfold lastOf; by rewrite last_snoc).
  cbn [sendLoop] in Hloop. rewrite row_meta, Hg, u64_small in Hloop by (unfold_widths; lia).
  change (default 0 (highWaterMarks st !! g)) with (markOf st) in Hloop.
  case_bool_decide as Hmark; last first.
  { injection Hloop as Em Es. replace (Z.max h (g_ID r)) with (Z.max h (lastOf P)) by lia.
    unfold scanned, sentAbove, markOf in *. rewrite <- Em, <- Es. done. }
  assert (En : default None (head sends) = None)
    by (destruct sends; [done|by apply Forall_cons in Hs as [-> _]]).
  rewrite En in Hloop. cbv zeta in Hloop. injection Hloop as Em Es.
  assert (Emark : markOf st' = g_ID r) by (unfold markOf; by rewrite <- Em, lookup_insert_eq).
  assert (Eof : sentAbove st' = sentAbove st ++ conv (if decide (c < g_ID r) then [r] else [])).
  { unfold sentAbove. rewrite <- Es, filter_app. f_equal.
    change ([toGroupMessage r]) with (conv [r]). fold (ofGroup (conv [r])).
    rewrite ofGroup_conv; [by rewrite filter_cons, filter_nil|].
    intros x ->%list_elem_of_singleton. split; [done|lia]. }
  unfold scanned. rewrite Eof, Emark, H2.
  destruct (decide (g_ID r ≤ Z.max h (lastOf P))) as [Hle|Hgt].
  - replace (Z.max h (g_ID r)) with (Z.max h (lastOf P)) by lia.
    rewrite decide_False by (intros Hcr; specialize (H4 r Hin ltac:(lia)); lia).
    rewrite app_nil_r. split_and!; [lia..|done|lia|].
    intros x Hx Hx'. specialize (H4 x Hx Hx'). lia.
  - replace (Z.max h (g_ID r)) with (g_ID r) by lia. rewrite decide_True by lia.
    split_and!; [lia..| |lia|intros; lia].
    rewrite (range_next c _ (rows_ascending g n Hk) (Z.max h (lastOf P)) r)
      by (done || lia || (intros; eapply Hbetween; [done|lia])).
    unfold conv. by rewrite fmap_app.
Qed.
(** ** The fetchers' steps *)

Lemma set_fst j (p : fetchPhase GroupMessage) (l : list (GroupFilter * fetchPhase GroupMessage)) :
  (alter (λ x, (x.1, p)) j l).*1 = l.*1.
Proof.
  revert j. induction l as [|x l IH]; intros [|j]; try done.
  change (x.1 :: (alter (λ x, (x.1, p)) j l).*1 = x.1 :: l.*1). by rewrite IH.
Qed.

Lemma fetcher_same n P st st' p :
  sentAbove st' = sentAbove st → markOf st' = markOf st →
  fetcher_at n P st p → fetcher_at n P st' p.
Proof.
  intros E1 E2. assert (H : ∀ w, scanned n w st → scanned n w st')
    by (intros w; unfold scanned; by rewrite E1, E2).
  destruct p as [p|p|ms next|]; simpl; [by intros (? & ? & ? & ?%H)..| |].
  - intros (? & q & page & ? & ?%H & ?). split; [done|]. by exists q, page.
  - intros (h & ? & ? & ?%H). by exists h.
Qed.

(** A fetcher's new phase keeps the invariant: its page is its filter's, and if it is the
    filter's own fetcher its scan is right; otherwise what was sent of the group is unchanged. *)
Lemma inv_set s j fj p0 p st' :
  inv s → fetchers (stream s) !! j = Some (fj, p0) →
  fetchers st' = alter (λ x, (x.1, p)) j (fetchers (stream s)) → errChan st' = [] →
  (∀ ms next, p = Fetched ms next →
     ∃ page, ms = conv page ∧ ∀ r, r ∈ page → g_GroupID r = gf_GroupId fj) →
  (j = i → p0 ≠ Finished ∧ ∀ P, fetcher_at (node s) P (stream s) p0 → fetcher_at (node s) P st' p) →
  (j ≠ i → sentAbove st' = sentAbove (stream s) ∧ markOf st' = markOf (stream s)) →
  inv (s <| stream := st' |>).
Proof.
  intros I Hj Ef Ee Hpage Hown Hother. destruct I as [I1 I2 I3 I4 I5 I6 I7 I8].
  split; simpl; try done.
  - by rewrite Ef, set_fst.
  - intros j' fj' ms next. rewrite Ef. destruct (decide (j' = j)) as [->|Hne].
    + rewrite list_lookup_alter_eq, Hj. simpl. intros [= <- ->]. by eapply Hpage.
    + rewrite list_lookup_alter_ne by done. apply I7.
  - destruct I8 as (P & pi & Hi & Hp & Hat). exists P. rewrite Ef.
    destruct (decide (j = i)) as [->|Hne].
    + rewrite list_lookup_alter_eq. rewrite Hj in Hi. injection Hi as -> ->. rewrite Hj.
      exists p. split_and!; [done|done|]. by apply Hown.
    + rewrite list_lookup_alter_ne by done. exists pi. split_and!; [done|done|].
      destruct (Hother Hne). by apply (fetcher_same _ _ (stream s)).
Qed.

Lemma inv_fetchTop s j : inv s → inv (s <| stream := fetchTop j false (stream s) |>).
Proof.
  intros I. unfold fetchTop. destruct (fetchers (stream s) !! j) as [[fj p0]|] eqn:Hj;
    [|by destruct s].
  destruct p0 as [p|p|ms next|]; [|by destruct s..].
  rewrite (inv_errs s I), bool_decide_true by done. simpl.
  apply (inv_set s j fj (Top p) (Querying p)); try done. apply (inv_errs s I).
Qed.

Lemma filters_lookup s j fj p :
  inv s → fetchers (stream s) !! j = Some (fj, p) → filters !! j = Some fj.
Proof. intros I Hj. rewrite <- (inv_filters s I), list_lookup_fmap, Hj. done. Qed.

Lemma query_ok n fj p :
  keyedNode n → len (gf_GroupId fj) ≠ 0 →
  groupQueryPage None fj p (db n)
  = let page := LIMIT (pageSizeOf (Some p))
      (window g_ID (sortDescOf (Some p)) (idCursorOf (Some p)) (group_rows (gf_GroupId fj) (db n))) in
    Ok (conv page, mkPagingInfo (directionOf (sortDescOf (Some p))) (u32 (pageSizeOf (Some p)))
                     (nextCursor (g_ID <$> page) (pageSizeOf (Some p)))).
Proof.
  intros Hk Hne. unfold groupQueryPage, QueryGroupMessagesV1. simpl.
  rewrite bool_decide_false by done.
  unfold QueryGroupMessagesWithCursorDesc, QueryGroupMessagesWithCursorAsc, QueryGroupMessages.
  rewrite !LIMIT_if. by rewrite (window_rows g_ID _ _ Hk).
Qed.

(** The page of the filter's own fetcher. *)
Lemma own_page n p :
  keyedNode n → ascPage p → 0 ≤ pi_IdCursor p ≤ maxInt64 →
  LIMIT (pageSizeOf (Some p)) (window g_ID (sortDescOf (Some p)) (idCursorOf (Some p)) (rowsOf n))
    = take 100 (above g_ID (pi_IdCursor p) (rowsOf n)) ∧
  pageSizeOf (Some p) = 100 ∧ sortDescOf (Some p) = false.
Proof.
  intros Hk [Hd Hl] Hq.
  assert (E1 : pageSizeOf (Some p) = 100) by (unfold pageSizeOf; by destruct Hl as [-> | ->]).
  assert (E2 : sortDescOf (Some p) = false) by (unfold sortDescOf; by rewrite Hd).
  split; [|done]. rewrite E1, E2, idCursorOf_small by done. unfold LIMIT, window.
  case_bool_decide; [done|]. rewrite (above_all g_ID); [done|].
  intros r Hr. pose proof (rows_bounds g n r Hk Hr). lia.
Qed.

Lemma fetched_at n p st :
  keyedNode n →
  fetcher_at n [] st (Querying p) →
  let page := take 100 (above g_ID (pi_IdCursor p) (rowsOf n)) in
  fetcher_at n [] st (Fetched (conv page)
    (mkPagingInfo SORT_DIRECTION_ASCENDING (u32 100) (nextCursor (g_ID <$> page) 100))).
Proof.
  intros Hk (_ & Hasc & Hmax & Hs) page. simpl. split; [done|]. exists (pi_IdCursor p), page.
  pose proof Hs as ((H0 & _) & _). split_and!; try done.
  - apply prefix_take.
  - split; [done|by right].
  - unfold nextCursor. case_bool_decide as Hfull; [|by left]. right. rewrite fmap_last.
    destruct (last page) as [r|] eqn:El; simpl.
    + f_equal. apply last_Some_elem_of in El. apply elem_of_take in El as (x & Hx%list_elem_of_lookup_2 & _).
      apply elem_of_above in Hx as [_ Hx]. pose proof (rows_bounds g n r Hk Hx).
      apply u64_small. unfold_widths. lia.
    + apply last_None in El. rewrite El in Hfull. simpl in Hfull. lia.
  - intros Hend r Hr _. destruct (decide (g_ID r ≤ pi_IdCursor p)); [by left|]. right.
    assert (Hshort : (length (above g_ID (pi_IdCursor p) (rowsOf n)) ≤ 100)%nat).
    { destruct (decide (length (above g_ID (pi_IdCursor p) (rowsOf n)) ≤ 100)%nat) as [|Hlong]; [done|].
      exfalso. assert (Hlen : length page = 100%nat) by (unfold page; rewrite length_take; lia).
      destruct Hend as [E|E]; [by rewrite E in Hlen|]. unfold nextCursor in E.
      rewrite bool_decide_true in E by (rewrite length_fmap; lia). rewrite fmap_last in E.
      destruct (last page) as [x|] eqn:El;
        [|apply last_None in El; by rewrite El in Hlen]. simpl in E.
      apply last_Some_elem_of in El. apply elem_of_take in El as (y & Hx%list_elem_of_lookup_2 & _).
      apply elem_of_above in Hx as [_ Hx]. pose proof (rows_bounds g n x Hk Hx).
      rewrite u64_small in E by (unfold_widths; lia). lia. }
    unfold page. rewrite take_ge by done. apply elem_of_above. split; [lia|done].
Qed.

Lemma inv_fetchQuery s j :
  inv s → inv (s <| stream := fetchQuery groupQueryPage j None (db (node s)) (stream s) |>).
Proof.
  intros I. unfold fetchQuery. destruct (fetchers (stream s) !! j) as [[fj p0]|] eqn:Hj;
    [|by destruct s].
  destruct p0 as [p|p|ms next|]; [by destruct s| |by destruct s..].
  pose proof (filters_lookup s j fj _ I Hj) as Hfj. pose proof (inv_keyed s I) as Hk.
  rewrite query_ok; [|done|apply Hnonempty; by eapply list_elem_of_lookup_2].
  cbv beta iota zeta. match goal with |- context [Fetched ?ms ?next] =>
    apply (inv_set s j fj (Querying p) (Fetched ms next)); try done end.
  - apply (inv_errs s I).
  - intros ms next [= <- <-]. eexists. split; [done|]. intros r Hr.
    unfold LIMIT in Hr. apply elem_of_take in Hr as (x & Hr%list_elem_of_lookup_2 & _).
    apply window_elem in Hr. unfold group_rows in Hr.
    by rewrite order_by_asc_Permutation, list_elem_of_filter in Hr; destruct Hr.
  - intros ->. rewrite Hf in Hfj. injection Hfj as <-. split; [done|]. intros P HP.
    pose proof HP as (-> & Hasc & Hmax & ((H0 & _) & _)).
    destruct (own_page (node s) p Hk Hasc ltac:(lia)) as (Ep & E1 & E2).
    unfold rowsOf in Ep. rewrite Ep, E1, E2. by apply fetched_at.
Qed.

Lemma filters_distinct j fj : filters !! j = Some fj → j ≠ i → gf_GroupId fj ≠ g.
Proof.
  intros Hj Hne E. apply Hne. eapply (NoDup_lookup _ j i); [exact Hfilters| |];
    rewrite list_lookup_fmap; [by rewrite Hj; simpl; rewrite E|by rewrite Hf].
Qed.

(** The stream after a page is sent. *)
Lemma sent_page page (st : Stream) sends :
  Forall (λ e, e = None) sends →
  ∃ st', sendToStream groupMeta sends (conv page) st = (st', SentAll) ∧
    sendLoop groupMeta sends (conv page) (highWaterMarks st) (Sent st)
      = (highWaterMarks st', Sent st', SentAll) ∧
    fetchers st' = fetchers st ∧ errChan st' = errChan st ∧ outcome st' = outcome st.
Proof.
  intros Hs. unfold sendToStream.
  destruct (sendLoop_smooth sends page (highWaterMarks st) (Sent st) Hs) as (marks' & sent' & E).
  rewrite E. by eexists.
Qed.

Lemma fetcher_sent n page next P st st' sends :
  keyedNode n → c0 ≤ seqOf n →
  Forall (λ e, e = None) sends →
  sendLoop groupMeta sends (conv page) (highWaterMarks st) (Sent st)
    = (highWaterMarks st', Sent st', SentAll) →
  fetcher_at n P st (Fetched (conv page) next) →
  fetcher_at n P st' (if bool_decide (conv page = [] ∨ pi_IdCursor next = 0) then Finished
                      else Top next).
Proof.
  intros Hk Hc0 Hs Hloop (-> & q & page' & Hq & Hscan & Ep & Hpre & Hasc & Hcur & Hend).
  rewrite Ep in *. clear page Ep. rename page' into page.
  assert (Hrows : ∀ r, r ∈ page → r ∈ rowsOf n ∧ q < g_ID r).
  { intros r Hr. destruct Hpre as [z Ez].
    assert (Hr' : r ∈ above g_ID q (rowsOf n)) by (rewrite Ez; set_solver).
    by apply elem_of_above in Hr' as [? ?]. }
  pose proof Hscan as (_ & _ & Hmark & _).
  destruct (sendLoop_own sends page (highWaterMarks st) (Sent st) Hs) as (marks' & E & Em).
  { destruct Hpre as [z Ez]. pose proof (above_ascending g_ID q _ (rows_ascending g n Hk)) as Ha.
    rewrite Ez in Ha. by apply ascending_app in Ha as (_ & ? & _). }
  { intros r Hr. destruct (Hrows r Hr) as [Hin Hlt]. pose proof (rows_bounds g n r Hk Hin).
    apply rows_elem in Hin as [? _]. unfold markOf in Hmark. split_and!; [done|lia..]. }
  rewrite E in Hloop. injection Hloop as Hm Hsent.
  destruct (scanned_page n q st page st' Hk Hscan Hpre) as [Hscan' Hle]; [done| |].
  { unfold markOf in *. by rewrite <- Hm. }
  case_bool_decide as Hfin; simpl.
  - exists (default q (g_ID <$> last page)). pose proof Hscan as ((H0 & _) & _).
    assert (Hlow : ∀ r, r ∈ rowsOf n → g_ID r ≤ c0 → g_ID r ≤ default q (g_ID <$> last page)).
    { intros r Hr Hr0.
      assert (Hor : page = [] ∨ pi_IdCursor next = 0)
        by (destruct Hfin as [Hfin|]; [left; by apply fmap_nil_inv in Hfin|by right]).
      destruct (Hend Hor r Hr Hr0) as [|Hp]; [lia|].
      destruct Hpre as [z Ez]. destruct (last page) as [x|] eqn:El;
        [|apply last_None in El; subst page; by apply elem_of_nil in Hp].
      destruct (range_page g_ID q q (rowsOf n) page z x (rows_ascending g n Hk) ltac:(lia) Ez El)
        as (Er & _). assert (Hx : r ∈ range g_ID q (g_ID x) (rowsOf n)) by (rewrite Er; set_solver).
      apply list_elem_of_filter in Hx as [? _]. simpl. lia. }
    split; [apply Hscan'|]. split; [done|]. by apply scanned_floor.
  - destruct Hcur as [?|Hcur]; [by destruct Hfin; right|].
    destruct (last page) as [x|] eqn:El; [|done]. injection Hcur as Hcur. simpl in Hscan'.
    rewrite Hcur. split_and!; try done. apply last_Some_elem_of in El.
    destruct (Hrows x El) as [Hin _]. pose proof (rows_bounds g n x Hk Hin). lia.
Qed.

Lemma inv_fetchSend s j sends :
  inv s → Forall (λ e, e = None) sends →
  inv (s <| stream := fetchSend groupMeta j sends (stream s) |>).
Proof.
  intros I Hs. unfold fetchSend. destruct (fetchers (stream s) !! j) as [[fj p0]|] eqn:Hj;
    [|by destruct s].
  destruct p0 as [p|p|ms next|]; [by destruct s..| |by destruct s].
  pose proof (filters_lookup s j fj _ I Hj) as Hfj. pose proof (inv_keyed s I) as Hk.
  destruct (inv_pages s I j fj ms next Hj) as (page & -> & Hpage).
  destruct (sent_page page (stream s) sends Hs) as (st' & E & Hloop & Ef & Ee & _).
  rewrite E. set (p' := if bool_decide (conv page = [] ∨ pi_IdCursor next = 0)
                        then @Finished GroupMessage else Top next).
  assert (Est : (if bool_decide (conv page = [] ∨ pi_IdCursor next = 0)
    then setFetcher j Finished st' else setFetcher j (Top next) st') = setFetcher j p' st')
    by (unfold p'; by case_bool_decide).
  rewrite Est. clear Est.
  apply (inv_set s j fj (Fetched (conv page) next) p'); try done.
  - simpl. by rewrite Ef.
  - simpl. rewrite Ee. apply (inv_errs s I).
  - intros ms' next'. unfold p'. by case_bool_decide.
  - intros ->. rewrite Hf in Hfj. injection Hfj as <-. split; [done|]. intros P HP.
    pose proof (inv_cursor s I).
    eapply fetcher_same, (fetcher_sent _ page next P (stream s) st' sends); try done. lia.
  - intros Hne. pose proof (filters_distinct j fj Hfj Hne) as Hd.
    assert (Hd' : ∀ r, r ∈ page → g_GroupID r ≠ g) by (intros r Hr; by rewrite (Hpage r Hr)).
    destruct (sendLoop_other sends page _ _ _ _ _ Hd' Hloop) as [Em Es]. unfold markOf. simpl. by rewrite Em.
Qed.

(** ** The loop's steps *)

Lemma history_finished (st : Stream) j fj p :
  historyDone st = true → fetchers st !! j = Some (fj, p) → p = Finished.
Proof.
  unfold historyDone. rewrite forallb_forall. intros H Hj.
  apply list_elem_of_lookup_2, list_elem_of_In, H in Hj. by destruct p.
Qed.

Lemma inv_outcome s o : inv s → inv (s <| stream := stream s <| outcome := o |> |>).
Proof.
  intros [I1 I2 I3 I4 I5 I6 I7 (P & p & Hi & Hp & Hat)]. split; try done. exists P, p.
  split_and!; [done|done|]. by apply (fetcher_same _ _ (stream s)).
Qed.

Lemma inv_leave r s : inv s → inv (leave r s).
Proof.
  intros I%(inv_outcome s (Some (Returned r))).
  destruct I as [I1 I2 I3 I4 I5 I6 I7 (P & p & Hi & Hp & Hat)]. simpl in *.
  split; simpl; try done. exists P, p. split_and!; [done| |done].
  destruct Hp as (Q & R & rest & H1 & (x & Hx & Hk & Hch & Hcap & Hcl) & H3 & H4 & H5).
  exists Q, R, rest. split_and!; try done; simpl; [|rewrite I1; set_solver].
  exists x. split_and!; try done. simpl. rewrite I1. set_solver.
Qed.

Lemma inv_liveReceive s sends :
  inv s → historyDone (stream s) = true → Forall (λ e, e = None) sends →
  inv (liveReceive groupMeta unmarshal groupClosed sends s).
Proof.
  intros I Hdone Hs. pose proof I as [I1 I2 I3 (x & Hx & Ha & Et) I5 I6 I7 (P & p & Hi & Hp & Hat)].
  pose proof (history_finished _ _ _ _ Hdone Hi) as ->.
  unfold liveReceive. rewrite I1. destruct (receive k (dispatcher (node s))) as [[env|] d'] eqn:Erec;
    last first.
  { destruct (objects (dispatcher (node s)) !! k) as [x'|]; [|done].
    destruct (closed x'); [by apply inv_leave|done]. }
  destruct (inPipe_take enc g k c0 good _ _ _ _ _ Hp Erec) as ([r ->] & _ & Hx' & Hcase).
  destruct (Hx' x Hx) as (x' & Hxk & Et' & Ea').
  simpl. rewrite unmarshal_enc. unfold liveSend.
  destruct (sent_page [r] (stream s) sends Hs) as (st' & E & Hloop & Ef & Ee & _).
  change (conv [r]) with [toGroupMessage r] in *. simpl. rewrite E.
  split; simpl; try done; [exists x'; split_and!; congruence|by rewrite Ee|by rewrite Ef|
    intros ? ? ? ?; rewrite Ef; apply I7|].
  destruct Hat as (h & Hh & Hlow & Hscan).
  destruct Hcase as [[Hne Hp']|[(z & Zs & ? & _)|(r' & rest & _ & Er & Hrows & Hp')]]; [|done|].
  - exists P, Finished. rewrite Ef. split_and!; [done|done|].
    assert (Hne' : ∀ x, x ∈ [r] → g_GroupID x ≠ g).
    { intros y ->%list_elem_of_singleton E'. apply Hne. simpl. by rewrite E'. }
    destruct (sendLoop_other sends [r] _ _ _ _ _ Hne' Hloop) as [Em Es].
    apply (fetcher_same _ _ (stream s)); [done|unfold markOf; by rewrite Em|]. by exists h.
  - assert (Hr : toGroupMessage r = toGroupMessage r').
    { apply (f_equal Message) in Er. simpl in Er. apply (f_equal unmarshal) in Er.
      rewrite !unmarshal_enc in Er. congruence. }
    exists (P ++ [r']), Finished. rewrite Ef. split_and!; [done|done|].
    exists h. split; [done|]. split; [done|]. rewrite Hr in Hloop.
    apply (scanned_live (node s) h P r' rest (stream s) st' sends); try done. lia.
Qed.

Lemma inv_streamStep s ev :
  inv s → smooth (StreamEvent ev) → inv (step (StreamEvent ev) s).
Proof.
  intros I Hev. simpl. unfold streamStep. destruct (outcome (stream s)); [done|].
  assert (Hlive : inv (liveStep groupMeta unmarshal groupClosed cutoverChecker ev s)).
  { unfold liveStep. destruct (historyDone (stream s)) eqn:Hd; [|done]. simpl.
    destruct ev; try done.
    - by rewrite (inv_errs s I).
    - by apply inv_leave.
    - by apply inv_leave.
    - destruct (isStreamingDisabled _ _); [by apply inv_leave|done].
    - by apply inv_liveReceive. }
  destruct ev; try exact Hlive; simpl in Hev; [subst|subst|].
  - by apply inv_fetchTop.
  - by apply inv_fetchQuery.
  - by apply inv_fetchSend.
Qed.

Lemma inv_nodeStep s ev :
  inv s → smooth (NodeEvent ev) → seqOf (node (step (NodeEvent ev) s)) ≤ maxInt64 →
  inv (step (NodeEvent ev) s).
Proof.
  intros I Hev Hmax. pose proof I as [I1 I2 I3 (x & Hx & Ha & Et) I5 I6 I7 (P & p & Hi & Hp & Hat)].
  destruct (node_grows marshalGroup marshalWelcome sha256 g k ev (node s) Hev I2 Hmax) as [Hg Hk'].
  destruct (inPipe_node marshalGroup marshalWelcome sha256 enc marshal_total g k c0 good ev (node s)
    [] P x Hev I2 I3 Hx (topicSet_subscribed x Ha Et) Hp) as (Hp' & Hcur & x' & Hx' & Et' & Ea').
  split; simpl; try done; [exists x'; split_and!; congruence|]. exists P, p.
  split_and!; [done|done|]. apply (fetcher_grows (node s)); [done|lia|done].
Qed.

(** ** Runs *)

Lemma receive_db ev s : db (node (streamStep (F:=GroupFilter) groupMeta groupQueryPage unmarshal
  groupClosed cutoverChecker ev s)) = db (node s).
Proof.
  unfold streamStep. destruct (outcome (stream s)); [done|]. destruct ev; try done; unfold liveStep;
    destruct (negb _); try done.
  - by destruct (errChan (stream s)).
  - by destruct (isStreamingDisabled _ _).
  - unfold liveReceive. destruct (receive _ _) as [[env|] d].
    + destruct (unmarshal _) as [m|]; [|done]. unfold liveSend.
      by destruct (sendToStream _ _ _ _) as [st []].
    + destruct (objects _ !! _) as [x|]; [|done]. by destruct (closed x).
Qed.

Lemma step_seq ev s : seqOf (node s) ≤ seqOf (node (step ev s)).
Proof.
  destruct ev as [ev|ev]; simpl; [apply nodeStep_seq|unfold seqOf; by rewrite receive_db].
Qed.

Lemma inv_run evs s :
  inv s → Forall smooth evs →
  let s' := sysRun groupMeta groupQueryPage unmarshal groupClosed cutoverChecker marshalGroup
    marshalWelcome sha256 evs s in
  seqOf (node s') ≤ maxInt64 → inv s'.
Proof.
  intros I. induction evs as [|ev evs IH] using rev_ind; [done|].
  intros [Hevs [Hev _]%Forall_cons]%Forall_app. unfold sysRun in *. rewrite foldl_app. simpl.
  set (s' := foldl _ s evs) in *. intros Hmax. pose proof (step_seq ev s') as Hle.
  assert (I' : inv s') by (apply IH; [done|unfold seqOf in *; simpl in *; lia]).
  destruct ev as [ev|ev]; [by apply inv_nodeStep|by apply inv_streamStep].
Qed.

Lemma wildcard_topicSet : topicSet !! WILDCARD_TOPIC = None.
Proof.
  assert (H : ∀ fs (m : gmap string bool), m !! WILDCARD_TOPIC = None →
    foldl (λ m f, <[groupTopicOf f := true]> m) m fs !! WILDCARD_TOPIC = None).
  { induction fs as [|f1 fs IH]; intros m Hm; [done|]. apply IH.
    rewrite lookup_insert_ne; [done|]. unfold groupTopicOf, BuildMLSV1GroupTopic. done. }
  by apply H.
Qed.

Lemma inv_open n :
  keyedNode n → groupCursor n ≤ seqOf n →
  c0 = groupCursor n → k = nextSub (dispatcher n) →
  inv (openStream groupTopicOf gf_IdCursor filters n).
Proof.
  intros Hk Hcur E0 Ek. unfold openStream, Subscribe. fold topicSet.
  rewrite bool_decide_false by (rewrite wildcard_topicSet; by intros []).
  split; simpl; try done.
  - unfold seqOf in *. simpl. lia.
  - rewrite Ek, lookup_insert_eq. by eexists.
  - rewrite <- list_fmap_compose. apply list_fmap_id.
  - intros j fj ms p. rewrite list_lookup_fmap. by destruct (filters !! j).
  - exists [], (Top (mkPagingInfo SORT_DIRECTION_ASCENDING 0 c)).
    rewrite list_lookup_fmap, Hf. split; [done|]. split.
    + exists [], [], []. simpl. split; [|split; [|done]].
      * apply filter_drop_all. intros r _. lia.
      * eexists. simpl. rewrite Ek, lookup_insert_eq. split_and!; [done|lia|done|simpl|done]. unfold minBacklogBufferLength. lia.
    + split; [done|]. split; [by split; [|left]|]. simpl. split; [lia|]. split; [lia|].
      split; [|split; [unfold markOf; simpl; rewrite lookup_empty; simpl; lia|intros; lia]].
      assert (E : range g_ID c c (rowsOf n) = []) by (apply filter_drop_all; intros r _; lia).
      unfold rowsOf in *. simpl. by rewrite E.
Qed.

(** What the invariant says of the messages sent. *)
Lemma inv_complete s :
  inv s →
  sentAbove (stream s) `prefix_of` conv (above g_ID c (rowsOf (node s))) ∧
  (historyDone (stream s) = true → k ∈ subscriptions (dispatcher (node s)) →
   (∃ x, objects (dispatcher (node s)) !! k = Some x ∧ MessagesCh x = []) →
   above g_ID (groupCursor (node s)) (rowsOf (node s)) = [] →
   sentAbove (stream s) = conv (above g_ID c (rowsOf (node s)))).
Proof.
  intros [I1 I2 I3 I4 I5 I6 I7 (P & p & Hi & Hp & Hat)].
  assert (Hscan : ∃ w, scanned (node s) w (stream s)).
  { destruct p as [p|p|ms next|]; simpl in Hat.
    - destruct Hat as (_ & _ & _ & ?). by eexists.
    - destruct Hat as (_ & _ & _ & ?). by eexists.
    - destruct Hat as (_ & q & page & _ & ? & _). by eexists.
    - destruct Hat as (h & _ & _ & ?). by eexists. }
  split.
  { destruct Hscan as (w & _ & -> & _). destruct (range_prefix c _ (rows_ascending g _ I2) w) as [z Ez].
    exists (conv z). unfold conv. by rewrite <- fmap_app, <- Ez. }
  clear Hscan. intros Hdone Hsub (x & Hx & Hch) Hworker.
  pose proof (history_finished _ _ _ _ Hdone Hi) as ->.
  destruct Hat as (h & Hh & Hlow & _ & -> & _). f_equal. apply filter_agree. intros r Hr.
  destruct Hp as (Q & R & rest & Er & (x' & Hx' & _ & <- & _) & _ & HQ & HR).
  rewrite Hx in Hx'. injection Hx' as <-. rewrite Hch in HQ. symmetry in HQ. apply fmap_nil_inv in HQ.
  simpl in HQ. subst Q. rewrite (HR Hsub), !app_nil_r in Er. split; [tauto|]. intros Hcr. split; [done|].
  destruct (decide (g_ID r ≤ c0)) as [Hle|Hgt]; [specialize (Hlow r Hr Hle); lia|].
  pose proof (taken_all c0 _ (rows_ascending g _ I2) _ P r Er Hworker Hr ltac:(lia)). lia.
Qed.

End GroupLane.

(** * Properties *)



(** When a history query fails, its error waits in the channel while the select may still pick
    live messages: the client receives a message above a gap (ids 3 and 4 of group g are
    missing), and only then the error. A client that resumes from the last id it received does
    not get the gap's messages again. *)
Lemma history_error_gap :
  let s := codecRun failingEvents openSample in
  groupData <$> Sent (stream s) = ["one"] ∧
  outcome (stream s) = Some (Returned (Err (Plain "down"))) ∧
  g_Data <$> above g_ID 1 (group_rows "g" (db (node s))) = ["y"; "z"; "one"].
Proof. by vm_compute. Qed.

(** The stream's marks do not start at the filters' cursors: a message the worker dispatches after
    the stream opened is sent even when its id is not above the client's cursor. *)
Lemma cursor_redelivery :
  let n := sampleNode <| groupCursor := 3 |> in
  let s := codecRun [StreamEvent (FetchTop 0 false); StreamEvent (FetchQuery 0 None);
      StreamEvent (FetchSend 0 []); NodeEvent (PollGroups None); StreamEvent (LiveReceive [])]
    (openStream groupTopicOf gf_IdCursor [mkGroupFilter "g" 4] n) in
  groupID <$> Sent (stream s) = [4].
Proof. by vm_compute. Qed.

(** A welcome page whose rows are all of an unknown type ends the history: later welcomes are
    never replayed. *)
Lemma unknown_page_ends_history {F M} metaOf i sends (s : Stream F M) f next :
  fetchers s !! i = Some (f, Fetched [] next) →
  fetchSend metaOf i sends s = setFetcher i Finished s.
Proof.
  intros Hi. unfold fetchSend, sendToStream. rewrite Hi. by destruct s.
Qed.
