(* ===== verification/Backfill.v ===== *)
(** The backfillers (pkg/mls/store/backfiller_group_messages.go, backfiller_installations.go):
    background loops that fill a nullable column of old rows in small transactions, in any number
    of instances of the node at once. *)

From S2P Require Import Prelude Types Validate MlsDb ReadStore Store.

(** * Classifying messages *)

Record BackfillGroupMessage := mkBackfillGroupMessage {
  bf_ID : Z;
  bf_Data : bytes;
  bf_IsCommit : bool;
}.

Definition maxPayloadSize : Z := 4 * 1024 * 1024.

Definition messageTooLarge : error := Status InvalidArgument "message too large: %d bytes".
Definition wrongCount : error := Status Internal "expected %d results, got %d".
Definition nilDereference : error := Plain "runtime error: invalid memory address or nil pointer dereference".

Section Classify.
(** [proto.Size] of a GroupMessageInput that holds the data, and the validation service. *)
Context (protoSize : bytes → Z)
  (grpcValidateGroupMessages : list bytes → result (list ValidateGroupMessagesResponse)).

Definition inputOf (m : BackfillGroupMessage) : option GroupMessageInput :=
  Some (mkGroupMessageInput (Some (mkGroupMessageInput_V1 (bf_Data m) "" false))).

Definition setResult (m : BackfillGroupMessage) (r : GroupMessageValidationResult)
    : BackfillGroupMessage :=
  mkBackfillGroupMessage (bf_ID m) (bf_Data m) (IsCommit r).

Definition classifyMessageBatch (messages : list BackfillGroupMessage)
    : result (list BackfillGroupMessage) :=
  match ValidateGroupMessages grpcValidateGroupMessages (inputOf <$> messages) with
  | None => Err nilDereference
  | Some (Err e) => Err (Status Internal "failed to validate group message: %v")
  | Some (Ok results) =>
      if bool_decide (length results = length messages)
      then Ok (zip_with setResult messages results)
      else Err wrongCount
  end.

(** The loop, with its three variables: the output, the open batch and its size. *)
Fixpoint classifyLoop (messages batchedOutput currentBatch : list BackfillGroupMessage)
    (currentBatchSize : Z) : result (list BackfillGroupMessage) :=
  match messages with
  | [] =>
      match currentBatch with
      | [] => Ok batchedOutput
      | _ => validated ← classifyMessageBatch currentBatch; Ok (batchedOutput ++ validated)
      end
  | message :: messages =>
      let messageSize := protoSize (bf_Data message) in
      if bool_decide (maxPayloadSize < messageSize) then Err messageTooLarge
      else if bool_decide (maxPayloadSize < currentBatchSize + messageSize) then
        validated ← classifyMessageBatch currentBatch;
        classifyLoop messages (batchedOutput ++ validated) [message] (0 + messageSize)
      else classifyLoop messages batchedOutput (currentBatch ++ [message])
             (currentBatchSize + messageSize)
  end.

Definition classifyMessages (messages : list BackfillGroupMessage)
    : result (list BackfillGroupMessage) :=
  classifyLoop messages [] [] 0.

(** * The cycles *)

(** What may fail in a cycle's transaction: its begin and commit, its select, and each of its
    writes. *)
Record cycleEnv := mkCycleEnv {
  cy_beginErr : option error;
  cy_selectErr : option error;
  cy_writeErr : nat → option error;
  cy_commitErr : option error;
}.

(** A write that fails is logged and the loop goes on, but it has aborted the transaction: the
    later statements and the commit fail. *)
Fixpoint updateStatuses (writeErr : nat → option error) (k : nat)
    (classified : list BackfillGroupMessage) (d : Db) : result Db :=
  match classified with
  | [] => Ok d
  | m :: classified =>
      match writeErr k with
      | Some e => Err e
      | None => updateStatuses writeErr (S k) classified
                  (UpdateIsCommitStatus (Some (bf_IsCommit m)) (bf_ID m) d)
      end
  end.

(** Whether a cycle found work, as far as it knows: unset only by an empty selection. *)
Definition foundWork {A} (beginErr : option error) (selected : result (list A)) : bool :=
  match beginErr, selected with None, Ok [] => false | _, _ => true end.

Definition convertedMsg (row : Z * bytes) : BackfillGroupMessage :=
  mkBackfillGroupMessage row.1 row.2 false.

(** A cycle of IsCommitBackfiller.Run, beside transactions that hold [locked]: its error, and
    whether it found messages. *)
Definition isCommitCycle (env : cycleEnv) (locked : gset Z) (d : Db) : (result () * bool) * Db :=
  let ids := call (cy_selectErr env) (SelectEnvelopesForIsCommitBackfill locked d) in
  let '(r, d') := RunInTx (cy_beginErr env) (cy_commitErr env) (λ d,
    ids ← ids;
    if bool_decide (ids = []) then Ok d
    else
      classified ← classifyMessages (convertedMsg <$> ids);
      updateStatuses (cy_writeErr env) 0 classified d) d in
  (r, foundWork (cy_beginErr env) ids, d').

(** How long Run sleeps after a cycle, in nanoseconds. *)
Definition backfillPause (err : result ()) (found : bool) : Z :=
  match err with
  | Err _ => 1000000000
  | Ok _ => if found then 0 else 60 * 1000000000
  end.

(** InstallationsBackfiller's writes: two per installation. *)
Fixpoint appendInstallations (writeErr : nat → option error) (k : nat)
    (installations : list (bytes * bytes * Z)) (d : Db) : result Db :=
  match installations with
  | [] => Ok d
  | (id, keyPackage, createdAt) :: installations =>
      d ← call (writeErr k) (InsertKeyPackage id keyPackage createdAt d);
      d ← call (writeErr (S k)) (UpdateIsAppendedStatus (Some true) id d);
      appendInstallations writeErr (S (S k)) installations d
  end.

Definition installationsCycle (env : cycleEnv) (locked : gset bytes) (d : Db)
    : (result () * bool) * Db :=
  let found := call (cy_selectErr env) (SelectInstallationsToBackfill locked d) in
  let '(r, d') := RunInTx (cy_beginErr env) (cy_commitErr env) (λ d,
    installations ← found;
    appendInstallations (cy_writeErr env) 0 installations d) d in
  (r, foundWork (cy_beginErr env) found, d').

(** * Several nodes

    Each instance of the node runs a backfiller of its own. Between its select and its commit an
    instance holds the locks of its rows; [Claim] and [Settle] are the two ends of a transaction,
    between which it talks to the validation service. [Publish] is the node's writer. *)

Record Cluster := mkCluster {
  cl_db : Db;
  cl_held : gmap nat (list (Z * bytes));
}.

#[export] Instance Cluster_eta : Eta Cluster := λ c, mkCluster (cl_db c) (cl_held c).

Inductive clusterEvent :=
  | Claim (w : nat)
  | Settle (w : nat) (commit : bool)
  | Publish (dbErr : option error) (now : Z) (groupId data senderHmac : bytes)
      (shouldPush isCommit : bool).

Definition heldIds (c : Cluster) : gset Z :=
  ⋃ ((λ rows, list_to_set rows.*1) <$> (map_to_list (cl_held c)).*2).

Context (sha256 : bytes → bytes).

Definition clusterStep (ev : clusterEvent) (c : Cluster) : Cluster :=
  match ev with
  | Claim w =>
      match cl_held c !! w with
      | Some _ => c
      | None =>
          c <| cl_held := <[w := SelectEnvelopesForIsCommitBackfill (heldIds c) (cl_db c)]>
                 (cl_held c) |>
      end
  | Settle w commit =>
      match cl_held c !! w with
      | None => c
      | Some rows =>
          let c := c <| cl_held := delete w (cl_held c) |> in
          if commit then
            match classifyMessages (convertedMsg <$> rows) with
            | Ok classified =>
                match updateStatuses (λ _, None) 0 classified (cl_db c) with
                | Ok d => c <| cl_db := d |>
                | Err _ => c
                end
            | Err _ => c
            end
          else c
      end
  | Publish dbErr now g data hmac push isCommit =>
      c <| cl_db := (Store.InsertGroupMessage sha256 dbErr now g data hmac push isCommit (cl_db c)).2 |>
  end.

Definition clusterRun (evs : list clusterEvent) (c : Cluster) : Cluster :=
  foldl (flip clusterStep) c evs.
End Classify.

(** * Batches *)

Section Batches.
Context (protoSize : bytes → Z)
  (grpcValidateGroupMessages : list bytes → result (list ValidateGroupMessagesResponse)).
Local Abbreviation batchOf := (classifyMessageBatch grpcValidateGroupMessages).
Local Abbreviation classify := (classifyMessages protoSize grpcValidateGroupMessages).
Local Abbreviation loop := (classifyLoop protoSize grpcValidateGroupMessages).

Definition sizeOf (m : BackfillGroupMessage) : Z := protoSize (bf_Data m).
Definition batchSize (b : list BackfillGroupMessage) : Z := foldr (λ m acc, sizeOf m + acc) 0 b.

(** The batches the loop makes of the messages, after an open one. *)
Fixpoint batchesFrom (open messages : list BackfillGroupMessage) : list (list BackfillGroupMessage) :=
  match messages with
  | [] => match open with [] => [] | _ => [open] end
  | m :: messages =>
      if bool_decide (maxPayloadSize < batchSize open + sizeOf m)
      then open :: batchesFrom [m] messages
      else batchesFrom (open ++ [m]) messages
  end.

Definition small (m : BackfillGroupMessage) : Prop := 0 ≤ sizeOf m ≤ maxPayloadSize.

Lemma batchSize_app a b : batchSize (a ++ b) = batchSize a + batchSize b.
Proof. unfold batchSize. induction a; simpl; lia. Qed.

Lemma classifyLoop_batches messages out open :
  Forall small messages →
  loop messages out open (batchSize open)
    = (vs ← mapErr batchOf (batchesFrom open messages); Ok (out ++ concat vs)).
Proof.
  revert out open. induction messages as [|m messages IH]; intros out open Hs; simpl.
  { destruct open as [|m open]; simpl; [by rewrite app_nil_r|].
    destruct (batchOf (m :: open)); simpl; [by rewrite app_nil_r|done]. }
  apply Forall_cons in Hs as [[Hm1 Hm2] Hs]. unfold sizeOf in Hm1, Hm2.
  rewrite bool_decide_false by lia. fold (sizeOf m). case_bool_decide; simpl.
  - destruct (batchOf open) as [v|e]; [|done]. simpl.
    replace (0 + sizeOf m) with (batchSize [m]) by (simpl; lia).
    rewrite (IH _ [m]) by done. destruct (mapErr batchOf _); [|done]. simpl.
    by rewrite <- app_assoc.
  - replace (batchSize open + sizeOf m) with (batchSize (open ++ [m]))
      by (rewrite batchSize_app; simpl; lia).
    by apply IH.
Qed.

Lemma batches_concat open messages : concat (batchesFrom open messages) = open ++ messages.
Proof.
  revert open. induction messages as [|m messages IH]; intros open; simpl.
  { destruct open; simpl; by rewrite ?app_nil_r. }
  case_bool_decide; simpl; rewrite IH; [done|by rewrite <- app_assoc].
Qed.

(** No batch is empty, and none is larger than the service accepts. *)
Definition fits (b : list BackfillGroupMessage) : Prop := b ≠ [] ∧ batchSize b ≤ maxPayloadSize.

Lemma batches_fit open messages :
  Forall small messages → open = [] ∨ fits open → Forall fits (batchesFrom open messages).
Proof.
  revert open. induction messages as [|m messages IH]; intros open Hs Ho; simpl.
  { destruct open; [constructor|]. destruct Ho as [?|?]; [done|]. constructor; [done|constructor]. }
  apply Forall_cons in Hs as [[Hm1 Hm2] Hs].
  assert (Hm : fits [m]) by (split; [done|simpl; lia]).
  case_bool_decide as Hfull.
  - destruct Ho as [->|Ho]; [simpl in Hfull; lia|]. constructor; [done|]. apply IH; auto.
  - apply IH; [done|]. right. split; [by destruct open|]. rewrite batchSize_app. simpl. lia.
Qed.

(** ** An honest service: each message is judged by itself *)

Section Honest.
Context (verdict : bytes → ValidateGroupMessagesResponse).
Hypothesis honest : ∀ ds, grpcValidateGroupMessages ds = Ok (verdict <$> ds).

Definition classifyFailed : error := Status Internal "failed to validate group message: %v".
Definition judged (m : BackfillGroupMessage) : BackfillGroupMessage :=
  mkBackfillGroupMessage (bf_ID m) (bf_Data m) (vg_IsCommit (verdict (bf_Data m))).
Definition judge (m : BackfillGroupMessage) : result BackfillGroupMessage :=
  if vg_IsOk (verdict (bf_Data m)) then Ok (judged m) else Err classifyFailed.

Lemma batch_judged b : batchOf b = mapErr judge b.
Proof.
  unfold classifyMessageBatch.
  assert (E : ValidateGroupMessages grpcValidateGroupMessages (inputOf <$> b)
    = Some (groupMessageResults (verdict <$> (bf_Data <$> b)))).
  { unfold ValidateGroupMessages. pose proof (request_of_inputs
      ((λ m, mkGroupMessageInput_V1 (bf_Data m) "" false) <$> b)) as Er.
    rewrite <- !list_fmap_compose in Er. change (inputOf <$> b) with
      ((λ m, Some (mkGroupMessageInput (Some (mkGroupMessageInput_V1 (bf_Data m) "" false)))) <$> b).
    unfold compose in Er. simpl in Er. rewrite Er. simpl. by rewrite honest. }
  rewrite E. clear E.
  assert (H : ∀ rs, groupMessageResults (verdict <$> (bf_Data <$> b)) = Ok rs →
    length rs = length b ∧ mapErr judge b = Ok (zip_with setResult b rs)).
  { intros rs Hrs. split; [apply groupMessageResults_length in Hrs; by rewrite !length_fmap in Hrs|].
    revert rs Hrs. unfold groupMessageResults. induction b as [|m b IH]; intros rs; simpl.
    { by intros [= <-]. }
    unfold judge at 1. destruct (vg_IsOk (verdict (bf_Data m))); [|done].
    destruct (mapErr _ _) as [rs'|] eqn:Ers; [|done]. intros [= <-].
    by rewrite (IH rs' eq_refl). }
  destruct (groupMessageResults _) as [rs|e] eqn:Ers.
  - destruct (H rs eq_refl) as [Hlen ->]. by rewrite bool_decide_true.
  - clear H. revert e Ers. unfold groupMessageResults. induction b as [|m b IH]; intros e; [done|].
    simpl. unfold judge at 1. destruct (vg_IsOk (verdict (bf_Data m))); [|done].
    destruct (mapErr _ _) as [rs'|e'] eqn:Ers'; [done|]. intros [= <-].
    by rewrite <- (IH e' eq_refl).
Qed.

Lemma mapErr_app {A B} (f : A → result B) l1 l2 :
  mapErr f (l1 ++ l2) = (a ← mapErr f l1; b ← mapErr f l2; Ok (a ++ b)).
Proof.
  induction l1 as [|x l1 IH]; simpl; [by destruct (mapErr f l2)|].
  destruct (f x); [|done]. rewrite IH. destruct (mapErr f l1); [|done]. by destruct (mapErr f l2).
Qed.

Lemma mapErr_concat {A B} (f : A → result B) ls :
  (vs ← mapErr (mapErr f) ls; Ok (concat vs)) = mapErr f (concat ls).
Proof.
  induction ls as [|l ls IH]; [done|]. simpl. rewrite mapErr_app, <- IH.
  destruct (mapErr f l); [|done]. by destruct (mapErr (mapErr f) ls).
Qed.
End Honest.
End Batches.

(** * Rows that wait *)

Definition pendingRows (d : Db) : list GroupMessageRow :=
  order_by_asc g_ID (filter (λ r, g_IsCommit r = None) (group_messages d)).

Definition toBackfill (r : GroupMessageRow) : Z * bytes := (g_ID r, g_Data r).

Lemma select_pending d :
  SelectEnvelopesForIsCommitBackfill ∅ d = toBackfill <$> take 100 (pendingRows d).
Proof.
  unfold SelectEnvelopesForIsCommitBackfill, pendingRows, LIMIT. change (Z.to_nat 100) with 100%nat.
  do 3 f_equal. apply list_filter_iff. intros r. set_solver.
Qed.

Section Verdict.
Context (verdict : bytes → ValidateGroupMessagesResponse).

Definition verdictOf (data : bytes) : option bool := Some (vg_IsCommit (verdict data)).

(** A table in which the rows named are classified. *)
Definition classifyRow (ids : list Z) (r : GroupMessageRow) : GroupMessageRow :=
  if decide (g_ID r ∈ ids) then r <| g_IsCommit := verdictOf (g_Data r) |> else r.

Lemma updateStatuses_ok k cl d :
  updateStatuses (λ _, None) k cl d
    = Ok (foldl (λ d m, UpdateIsCommitStatus (Some (bf_IsCommit m)) (bf_ID m) d) d cl).
Proof. revert k d. induction cl as [|m cl IH]; intros k d; [done|]. apply IH. Qed.

(** Writing the verdicts of rows whose data is the table's. *)
Lemma update_judged rows d :
  (∀ id data r, (id, data) ∈ rows → r ∈ group_messages d → g_ID r = id → g_Data r = data) →
  foldl (λ d m, UpdateIsCommitStatus (Some (bf_IsCommit m)) (bf_ID m) d) d
      (judged verdict ∘ convertedMsg <$> rows)
    = d <| group_messages := classifyRow rows.*1 <$> group_messages d |>.
Proof.
  revert d. induction rows as [|[id data] rows IH]; intros d Hdata.
  { simpl. assert (E : classifyRow [] <$> group_messages d = group_messages d).
    { rewrite <- (list_fmap_id (group_messages d)) at 2. apply list_fmap_ext. intros i r _.
      unfold classifyRow. rewrite decide_False; [done|]. apply not_elem_of_nil. }
    rewrite E. by destruct d. }
  rewrite fmap_cons. cbn [foldl]. rewrite IH.
  - unfold UpdateIsCommitStatus. simpl. f_equal. rewrite <- list_fmap_compose.
    apply list_fmap_ext. intros i r Hr. apply list_elem_of_lookup_2 in Hr. unfold compose, classifyRow.
    destruct (decide (g_ID r = id)) as [E|E].
    + rewrite (Hdata id data r ltac:(left) Hr E). simpl. rewrite (decide_True (P:=g_ID r ∈ id :: _))
        by (rewrite E; left). case_decide; simpl; by rewrite (Hdata id data r ltac:(left) Hr E).
    + destruct (decide (g_ID r ∈ rows.*1)).
      * by rewrite decide_True by (by right).
      * rewrite decide_False; [done|]. by intros [?|?]%elem_of_cons.
  - intros id' data' r Hin Hr E. simpl in Hr. apply list_elem_of_fmap in Hr as (r0 & -> & Hr0).
    destruct (decide (g_ID r0 = id)); simpl in *; (eapply Hdata; [by right|done|done]).
Qed.

(** The rows that still wait after a page is classified. *)
Lemma pending_classified n d :
  NoDup (g_ID <$> group_messages d) →
  pendingRows (d <| group_messages := classifyRow (g_ID <$> take n (pendingRows d)) <$> group_messages d |>)
    = drop n (pendingRows d).
Proof.
  intros Hd. set (ids := g_ID <$> take n (pendingRows d)). unfold pendingRows at 1. simpl.
  assert (E : filter (λ r, g_IsCommit r = None) (classifyRow ids <$> group_messages d)
    = filter (λ r, g_ID r ∉ ids) (filter (λ r, g_IsCommit r = None) (group_messages d))).
  { rewrite list_filter_filter. clearbody ids. clear Hd. induction (group_messages d) as [|r t IH]; [done|].
    rewrite fmap_cons, !filter_cons, IH. destruct (decide (g_ID r ∈ ids)) as [Hin|Hin].
    - rewrite decide_False; [by rewrite decide_False by tauto|]. unfold classifyRow. by rewrite decide_True.
    - assert (Ec : classifyRow ids r = r) by (unfold classifyRow; by rewrite decide_False).
      rewrite Ec. destruct (decide (g_IsCommit r = None)); [by rewrite decide_True|].
      by rewrite decide_False by tauto. }
  rewrite E, order_filter by (by apply fmap_filter_NoDup). fold (pendingRows d).
  apply filter_drop_page. unfold pendingRows. rewrite order_by_asc_Permutation.
  by apply fmap_filter_NoDup.
Qed.
End Verdict.

(** * Cycles without failures *)

Definition cleanEnv : cycleEnv := mkCycleEnv None None (λ _, None) None.

Section Cycles.
Context (protoSize : bytes → Z)
  (grpcValidateGroupMessages : list bytes → result (list ValidateGroupMessagesResponse))
  (verdict : bytes → ValidateGroupMessagesResponse).
Hypothesis honest : ∀ ds, grpcValidateGroupMessages ds = Ok (verdict <$> ds).
Local Abbreviation classify := (classifyMessages protoSize grpcValidateGroupMessages).
Local Abbreviation cycle := (isCommitCycle protoSize grpcValidateGroupMessages).

Lemma classify_judged ms :
  Forall (small protoSize) ms → classify ms = mapErr (judge verdict) ms.
Proof.
  intros Hs. unfold classifyMessages.
  change 0 with (batchSize protoSize []). rewrite classifyLoop_batches by done.
  replace (mapErr (classifyMessageBatch grpcValidateGroupMessages) (batchesFrom protoSize [] ms))
    with (mapErr (mapErr (judge verdict)) (batchesFrom protoSize [] ms)).
  - rewrite (mapErr_concat (judge verdict)), (batches_concat protoSize [] ms). done.
  - generalize (batchesFrom protoSize [] ms). intros bs. induction bs as [|b bs IH]; [done|].
    simpl. by rewrite (batch_judged _ verdict honest b), IH.
Qed.

(** The rows the service can answer for. *)
Definition answerable (data : bytes) : Prop :=
  0 ≤ protoSize data ≤ maxPayloadSize ∧ vg_IsOk (verdict data) = true.

#[export] Instance answerable_dec data : Decision (answerable data).
Proof. unfold answerable. apply _. Defined.

Lemma classify_answerable (rows : list (Z * bytes)) :
  (∀ id data, (id, data) ∈ rows → answerable data) →
  classify (convertedMsg <$> rows) = Ok (judged verdict ∘ convertedMsg <$> rows).
Proof.
  intros H. rewrite classify_judged.
  - induction rows as [|[id data] rows IH]; [done|]. cbn [fmap list_fmap mapErr].
    destruct (H id data ltac:(left)) as [_ Hok]. unfold judge at 1. simpl. rewrite Hok.
    change (list_fmap _ _ convertedMsg rows) with (convertedMsg <$> rows).
    rewrite IH by (intros; eapply H; by right). done.
  - apply Forall_fmap, Forall_forall. intros [id data] Hin. apply (H id data Hin).
Qed.

(** Rejecting one message rejects the page. *)
Lemma classify_unanswerable (rows : list (Z * bytes)) id data :
  (∀ d, 0 ≤ protoSize d) → (id, data) ∈ rows → ¬ answerable data →
  ∃ e, classify (convertedMsg <$> rows) = Err e.
Proof.
  intros Hpos Hin Hbad.
  destruct (decide (Forall (λ r, protoSize r.2 ≤ maxPayloadSize) rows)) as [Hs|Hs].
  - rewrite classify_judged by (apply Forall_fmap; eapply Forall_impl; [done|];
      intros r ?; split; [apply Hpos|done]).
    assert (Hv : vg_IsOk (verdict data) = false).
    { destruct (vg_IsOk (verdict data)) eqn:E; [|done]. destruct Hbad. split; [|done].
      split; [apply Hpos|]. rewrite Forall_forall in Hs. apply (Hs _ Hin). }
    clear Hs Hbad. induction rows as [|[id' data'] rows IH]; [by apply elem_of_nil in Hin|].
    cbn [fmap list_fmap mapErr]. unfold judge at 1. simpl. apply elem_of_cons in Hin as [Hin|Hin].
    + injection Hin as <- <-. rewrite Hv. by eexists.
    + destruct (vg_IsOk (verdict data')); [|by eexists].
      destruct (IH Hin) as [e E]. change (list_fmap _ _ convertedMsg rows) with (convertedMsg <$> rows).
      rewrite E. by eexists.
  - unfold classifyMessages. assert (Hex : ∃ r, r ∈ rows ∧ maxPayloadSize < protoSize r.2).
    { apply not_Forall_Exists in Hs; [|apply _]. apply Exists_exists in Hs as (r & Hr & Hlt).
      exists r. split; [done|]. simpl in Hlt. lia. }
    destruct Hex as (r & Hr & Hlt). clear Hs Hin Hbad id data.
    assert (H : ∀ out open size, ∃ e, classifyLoop protoSize grpcValidateGroupMessages
      (convertedMsg <$> rows) out open size = Err e); [|by apply H].
    induction rows as [|r' rows IH]; [by apply elem_of_nil in Hr|].
    intros out open size. cbn [fmap list_fmap classifyLoop]. simpl.
    apply elem_of_cons in Hr as [<-|Hr]; [rewrite bool_decide_true by done; by eexists|].
    case_bool_decide; [by eexists|]. case_bool_decide; [|by apply IH].
    destruct (classifyMessageBatch _ _); [by apply IH|by eexists].
Qed.

(** A page of answerable rows is classified in one cycle. *)
Lemma cycle_page d :
  NoDup (g_ID <$> group_messages d) →
  (∀ r, r ∈ take 100 (pendingRows d) → answerable (g_Data r)) →
  cycle cleanEnv ∅ d
  = (Ok (), negb (bool_decide (pendingRows d = [])),
     d <| group_messages := classifyRow verdict (g_ID <$> take 100 (pendingRows d)) <$> group_messages d |>).
Proof.
  intros Hd Hok. unfold isCommitCycle. rewrite select_pending. simpl.
  set (page := take 100 (pendingRows d)) in *.
  assert (Hpage : ∀ r, r ∈ page → r ∈ group_messages d).
  { intros r Hr. unfold page in Hr. apply elem_of_take in Hr as (x & Hr%list_elem_of_lookup_2 & _).
    unfold pendingRows in Hr. rewrite order_by_asc_Permutation, list_elem_of_filter in Hr. tauto. }
  assert (Enil : pendingRows d = [] ↔ page = []).
  { unfold page. split; [by intros ->|]. by destruct (pendingRows d). }
  case_bool_decide as Hnil.
  - apply fmap_nil_inv in Hnil. rewrite Hnil. rewrite bool_decide_true by (by apply Enil).
    simpl. f_equal. assert (E : classifyRow verdict [] <$> group_messages d = group_messages d).
    { rewrite <- (list_fmap_id (group_messages d)) at 2. apply list_fmap_ext. intros i r _.
      unfold classifyRow. rewrite decide_False; [done|]. apply not_elem_of_nil. }
    rewrite E. by destruct d.
  - rewrite bool_decide_false by (rewrite Enil; by intros ->).
    rewrite classify_answerable; last first.
    { intros id data (r & [= -> ->] & Hr)%list_elem_of_fmap. by apply Hok. }
    simpl. rewrite updateStatuses_ok, update_judged.
    + rewrite <- (list_fmap_compose toBackfill fst page). by destruct page.
    + intros id data r (r' & [= -> ->] & Hr')%list_elem_of_fmap Hr E.
      by rewrite (NoDup_fmap_fst_inj g_ID _ r r' Hd Hr (Hpage _ Hr') E).
Qed.

Fixpoint isCommitCycles (m : nat) (d : Db) : Db :=
  match m with
  | O => d
  | S m => isCommitCycles m (cycle cleanEnv ∅ d).2
  end.

(** Every waiting row gets its verdict; no other row, and nothing else of a row, changes. *)
Definition classifyAll (d : Db) : Db :=
  d <| group_messages :=
    (λ r, if decide (g_IsCommit r = None) then r <| g_IsCommit := verdictOf verdict (g_Data r) |> else r)
      <$> group_messages d |>.
End Cycles.

Lemma classifyAll_page verdict d n :
  NoDup (g_ID <$> group_messages d) →
  classifyAll verdict (d <| group_messages :=
    classifyRow verdict (g_ID <$> take n (pendingRows d)) <$> group_messages d |>) = classifyAll verdict d.
Proof.
  intros Hd. unfold classifyAll. simpl. f_equal. rewrite <- list_fmap_compose.
  apply list_fmap_ext. intros i r Hr. apply list_elem_of_lookup_2 in Hr. unfold compose, classifyRow.
  destruct (decide (g_ID r ∈ g_ID <$> take n (pendingRows d))) as [Hin|Hin]; [|done].
  apply list_elem_of_fmap in Hin as (r' & E & Hr'). apply elem_of_take in Hr' as (x & Hr'%list_elem_of_lookup_2 & _).
  unfold pendingRows in Hr'. rewrite order_by_asc_Permutation, list_elem_of_filter in Hr'.
  destruct Hr' as [Hn Hr']. rewrite (NoDup_fmap_fst_inj g_ID _ r r' Hd Hr Hr' E). simpl.
  by rewrite (decide_True (P:=g_IsCommit r' = None)).
Qed.

Lemma classifyAll_done verdict d : pendingRows d = [] → classifyAll verdict d = d.
Proof.
  intros Hp. unfold classifyAll.
  assert (E : (λ r, if decide (g_IsCommit r = None) then r <| g_IsCommit := verdictOf verdict (g_Data r) |>
    else r) <$> group_messages d = group_messages d).
  { rewrite <- (list_fmap_id (group_messages d)) at 2. apply list_fmap_ext. intros i r Hr.
    apply list_elem_of_lookup_2 in Hr. rewrite decide_False; [done|]. intros Hn.
    assert (Hin : r ∈ pendingRows d)
      by (unfold pendingRows; rewrite order_by_asc_Permutation, list_elem_of_filter; done).
    rewrite Hp in Hin. by apply elem_of_nil in Hin. }
  rewrite E. by destruct d.
Qed.

Lemma classify_ids verdict ids (t : list GroupMessageRow) : g_ID <$> (classifyRow verdict ids <$> t) = g_ID <$> t.
Proof.
  rewrite <- list_fmap_compose. apply list_fmap_ext. intros i r _. unfold compose, classifyRow.
  by case_decide.
Qed.

(** A message the service rejects, or one too large for it, among the oldest hundred that wait
    stops the backfill for good: every cycle, whatever else happens in it, leaves the database as
    it was. *)
Lemma poisoned_backfill_blocks protoSize grpc verdict env d r :
  (∀ ds, grpc ds = Ok (verdict <$> ds)) → (∀ data, 0 ≤ protoSize data) →
  r ∈ take 100 (pendingRows d) → ¬ answerable protoSize verdict (g_Data r) →
  (isCommitCycle protoSize grpc env ∅ d).2 = d.
Proof.
  intros Hh Hpos Hr Hbad. unfold isCommitCycle. rewrite select_pending.
  destruct (classify_unanswerable protoSize grpc verdict Hh (toBackfill <$> take 100 (pendingRows d))
    (g_ID r) (g_Data r) Hpos) as [e E]; [|done|].
  { change (g_ID r, g_Data r) with (toBackfill r). by apply list_elem_of_fmap_2. }
  unfold RunInTx. destruct (cy_beginErr env); [done|]. destruct (cy_selectErr env); [done|]. simpl.
  rewrite E. case_bool_decide as Hnil; [|done].
  apply fmap_nil_inv in Hnil. rewrite Hnil in Hr. by apply elem_of_nil in Hr.
Qed.

(** * Several nodes at once *)

Section Cluster.
Context (protoSize : bytes → Z)
  (grpcValidateGroupMessages : list bytes → result (list ValidateGroupMessagesResponse))
  (verdict : bytes → ValidateGroupMessagesResponse) (sha256 : bytes → bytes).
Hypothesis honest : ∀ ds, grpcValidateGroupMessages ds = Ok (verdict <$> ds).
Hypothesis sizes : ∀ data, 0 ≤ protoSize data.
Local Abbreviation step := (clusterStep protoSize grpcValidateGroupMessages sha256).

(** A row's history since [d0]: it is as it was, or it waited and has its verdict. *)
Definition evolved (r0 r : GroupMessageRow) : Prop :=
  r = r0 ∨ (g_IsCommit r0 = None ∧ r = r0 <| g_IsCommit := verdictOf verdict (g_Data r0) |>).

Record cluster_ok (d0 : Db) (c : Cluster) : Prop := {
  (* no row is held by two instances, and held rows wait *)
  co_disjoint : ∀ w1 w2 rows1 rows2 id, cl_held c !! w1 = Some rows1 → cl_held c !! w2 = Some rows2 →
    id ∈ rows1.*1 → id ∈ rows2.*1 → w1 = w2;
  co_held : ∀ w rows id data, cl_held c !! w = Some rows → (id, data) ∈ rows →
    ∃ r, r ∈ group_messages (cl_db c) ∧ g_ID r = id ∧ g_Data r = data ∧ g_IsCommit r = None;
  co_ids : NoDup (g_ID <$> group_messages (cl_db c));
  co_seq : ∀ r, r ∈ group_messages (cl_db c) → g_ID r ≤ group_messages_seq (cl_db c);
  (* the old rows, in place, and then those published since, which come classified *)
  co_rows : ∃ old new, group_messages (cl_db c) = old ++ new ∧
    Forall2 evolved (group_messages d0) old ∧ Forall (λ r, g_IsCommit r ≠ None) new;
}.

Lemma heldIds_spec c id :
  id ∈ heldIds c ↔ ∃ w rows, cl_held c !! w = Some rows ∧ id ∈ rows.*1.
Proof.
  unfold heldIds. rewrite elem_of_union_list. split.
  - intros (X & (rows & -> & ([w rows'] & -> & Hw)%list_elem_of_fmap)%list_elem_of_fmap & Hid).
    apply elem_of_map_to_list in Hw. exists w, rows'. split; [done|]. by apply elem_of_list_to_set in Hid.
  - intros (w & rows & Hw & Hid). exists (list_to_set rows.*1). split; [|by apply elem_of_list_to_set].
    apply list_elem_of_fmap. exists rows. split; [done|]. apply list_elem_of_fmap.
    exists (w, rows). split; [done|]. by apply elem_of_map_to_list.
Qed.

Lemma selected_row locked d id data :
  (id, data) ∈ SelectEnvelopesForIsCommitBackfill locked d →
  ∃ r, r ∈ group_messages d ∧ g_ID r = id ∧ g_Data r = data ∧ g_IsCommit r = None ∧ (id ∉ locked).
Proof.
  unfold SelectEnvelopesForIsCommitBackfill, LIMIT.
  intros (r & [= -> ->] & (i & Hr%list_elem_of_lookup_2 & _)%elem_of_take)%list_elem_of_fmap.
  rewrite order_by_asc_Permutation, list_elem_of_filter in Hr. exists r. tauto.
Qed.

(** Classifying held rows, whatever the service says of them. *)
Lemma settle_rows rows :
  classifyMessages protoSize grpcValidateGroupMessages (convertedMsg <$> rows)
    = Ok (judged verdict ∘ convertedMsg <$> rows)
  ∨ ∃ e, classifyMessages protoSize grpcValidateGroupMessages (convertedMsg <$> rows) = Err e.
Proof.
  destruct (decide (Forall (λ r : Z * bytes, answerable protoSize verdict r.2) rows)) as [H|H].
  - left. apply classify_answerable; [done|]. intros id data Hin. rewrite Forall_forall in H.
    by apply (H (id, data)).
  - right. apply not_Forall_Exists in H; [|apply _]. apply Exists_exists in H as ([id data] & Hin & Hbad).
    by eapply classify_unanswerable.
Qed.

(** The writes of a settled transaction. *)
Lemma settled_db rows d :
  (∀ id data, (id, data) ∈ rows → ∃ r, r ∈ group_messages d ∧ g_ID r = id ∧ g_Data r = data ∧ g_IsCommit r = None) →
  NoDup (g_ID <$> group_messages d) →
  updateStatuses (λ _, None) 0 (judged verdict ∘ convertedMsg <$> rows) d
    = Ok (d <| group_messages := classifyRow verdict rows.*1 <$> group_messages d |>).
Proof.
  intros Hrows Hd. rewrite updateStatuses_ok, update_judged; [done|].
  intros id data r Hin Hr E. destruct (Hrows id data Hin) as (r' & Hr' & E' & <- & _).
  by rewrite (NoDup_fmap_fst_inj g_ID _ r r' Hd Hr Hr') by congruence.
Qed.

Lemma settle_ok d0 c w rows :
  cluster_ok d0 c → cl_held c !! w = Some rows →
  cluster_ok d0 (mkCluster (cl_db c <| group_messages := classifyRow verdict rows.*1 <$> group_messages (cl_db c) |>)
    (delete w (cl_held c))).
Proof.
  intros [I1 I2 I3 I4 (old & new & E & Hold & Hnew)] Hw.
  assert (Hwaiting : ∀ r, r ∈ group_messages (cl_db c) → g_ID r ∈ rows.*1 → g_IsCommit r = None).
  { intros r Hr ([id data] & Eid & Hin)%list_elem_of_fmap. simpl in Eid.
    destruct (I2 w rows id data Hw Hin) as (r' & Hr' & Er & _ & Hn).
    by rewrite (NoDup_fmap_fst_inj g_ID _ r r' I3 Hr Hr') by congruence. }
  split; simpl.
  - intros w1 w2 rows1 rows2 id [_ H1]%lookup_delete_Some [_ H2]%lookup_delete_Some. by eapply I1.
  - intros w' rows' id data [Hne Hw']%lookup_delete_Some Hin.
    destruct (I2 w' rows' id data Hw' Hin) as (r & Hr & <- & <- & Hn). exists r. split; [|done].
    apply list_elem_of_fmap. exists r. split; [|done]. unfold classifyRow. rewrite decide_False; [done|].
    intros Hin'. apply Hne. eapply (I1 w w' rows rows' (g_ID r)); try done.
    apply list_elem_of_fmap. by exists (g_ID r, g_Data r).
  - by rewrite classify_ids.
  - intros r (r0 & -> & Hr0)%list_elem_of_fmap. specialize (I4 r0 Hr0). unfold classifyRow.
    by case_decide.
  - exists (classifyRow verdict rows.*1 <$> old), (classifyRow verdict rows.*1 <$> new).
    rewrite E, fmap_app. split; [done|]. rewrite E in Hwaiting. split.
    + clear E Hnew. induction Hold as [|r0 r l0 l Hr Hl IH]; [constructor|]. constructor.
      * unfold classifyRow. case_decide as Hin; [|done].
        specialize (Hwaiting r ltac:(set_solver) Hin).
        destruct Hr as [->|[Hn ->]]; [by right|done].
      * apply IH. intros x Hx. apply Hwaiting. set_solver.
    + apply Forall_fmap. eapply Forall_impl; [done|]. intros r Hn. unfold compose, classifyRow.
      by case_decide.
Qed.

Lemma step_ok d0 ev c : cluster_ok d0 c → cluster_ok d0 (step ev c).
Proof.
  intros I. pose proof I as [I1 I2 I3 I4 (old & new & E & Hold & Hnew)].
  destruct ev as [w|w commit|dbErr now g data hmac push isCommit]; simpl.
  - destruct (cl_held c !! w) as [rows|] eqn:Hw; [done|]. split; simpl; try done; [| |by exists old, new].
    + assert (Hnew' : ∀ w2 rows2 id, cl_held c !! w2 = Some rows2 →
        id ∈ (SelectEnvelopesForIsCommitBackfill (heldIds c) (cl_db c)).*1 → id ∈ rows2.*1 → False).
      { intros w2 rows2 id H2 ([id' data] & -> & Hin)%list_elem_of_fmap Hin2. simpl in Hin2.
        apply selected_row in Hin as (r & _ & _ & _ & _ & Hn). apply Hn, heldIds_spec. by exists w2, rows2. }
      intros w1 w2 rows1 rows2 id H1 H2 Hi1 Hi2.
      apply lookup_insert_Some in H1 as [[<- <-]|[Hne1 H1]], H2 as [[<- <-]|[Hne2 H2]].
      * done.
      * exfalso. by eapply Hnew'.
      * exfalso. by eapply Hnew'.
      * by eapply I1.
    + intros w' rows' id data H1 Hin. apply lookup_insert_Some in H1 as [[<- <-]|[_ H1]]; [|by eapply I2].
      apply selected_row in Hin as (r & ? & ? & ? & ? & _). by exists r.
  - destruct (cl_held c !! w) as [rows|] eqn:Hw; [|done].
    assert (Hdrop : cluster_ok d0 (c <| cl_held := delete w (cl_held c) |>)).
    { split; simpl; try done; [| |by exists old, new].
      - intros w1 w2 rows1 rows2 id [_ H1]%lookup_delete_Some [_ H2]%lookup_delete_Some. by eapply I1.
      - intros w' rows' id data [_ H1]%lookup_delete_Some. by eapply I2. }
    destruct commit; [|done]. destruct (settle_rows rows) as [-> | [e ->]]; [|done].
    rewrite settled_db; [|by intros; eapply I2|done]. by apply settle_ok.
  - unfold Store.InsertGroupMessage, insert. destruct dbErr as [e|]; [by destruct c|].
    unfold MlsDb.InsertGroupMessage. simpl. case_bool_decide; simpl.
    + split; simpl; try done; [|by exists old, new]. intros r Hr. specialize (I4 r Hr). lia.
    + split; simpl; try done.
      * intros w rows id data' Hw Hin. destruct (I2 w rows id data' Hw Hin) as (r & ? & ?).
        exists r. split; [set_solver|done].
      * rewrite fmap_app. apply NoDup_app. split; [done|]. split; [|apply NoDup_singleton].
        intros id (r & -> & Hr)%list_elem_of_fmap Hid%list_elem_of_singleton. specialize (I4 r Hr).
        simpl in Hid. lia.
      * intros r [Hr|Hr%list_elem_of_singleton]%elem_of_app; [specialize (I4 r Hr); lia|by subst].
      * exists old, (new ++ [mkGroupMessageRow (group_messages_seq (cl_db c) + 1) now g data (sha256 (g +:+ data))
          (Some isCommit) hmac (Some push)]). rewrite E, app_assoc. split; [done|]. split; [done|].
        apply Forall_app. split; [done|]. by constructor.
Qed.
End Cluster.

(** * Installations *)

Definition pendingInstallations (d : Db) : list InstallationRow :=
  merge_sort (bytea_le i_ID) (filter (λ r, i_IsAppended r = None) (installations d)).

Definition toAppend (r : InstallationRow) : bytes * bytes * Z := (i_ID r, i_KeyPackage r, i_CreatedAt r).

Definition markRow (ids : list bytes) (r : InstallationRow) : InstallationRow :=
  if decide (i_ID r ∈ ids) then r <| i_IsAppended := Some true |> else r.

Definition packaged (d : Db) : list (bytes * bytes) :=
  (λ r, (k_InstallationID r, k_KeyPackage r)) <$> key_packages d.

Lemma select_installations d :
  SelectInstallationsToBackfill ∅ d = toAppend <$> take 100 (pendingInstallations d).
Proof.
  unfold SelectInstallationsToBackfill, pendingInstallations, LIMIT. change (Z.to_nat 100) with 100%nat.
  do 3 f_equal. apply list_filter_iff. intros r. set_solver.
Qed.

Lemma InsertKeyPackage_packaged id kp at_ d :
  let d' := InsertKeyPackage id kp at_ d in
  (id, kp) ∈ packaged d' ∧ key_packages d `prefix_of` key_packages d' ∧ installations d' = installations d.
Proof.
  unfold InsertKeyPackage, packaged. simpl. case_bool_decide as Hin; simpl; [done|].
  split_and!; [|by eexists|done]. rewrite fmap_app. set_solver.
Qed.

Lemma packaged_mono d d' x : key_packages d `prefix_of` key_packages d' → x ∈ packaged d → x ∈ packaged d'.
Proof. unfold packaged. intros [l ->]. rewrite fmap_app. set_solver. Qed.

Lemma appendInstallations_ok k rows d :
  ∃ d', appendInstallations (λ _, None) k (toAppend <$> rows) d = Ok d' ∧
    installations d' = markRow (i_ID <$> rows) <$> installations d ∧
    key_packages d `prefix_of` key_packages d' ∧
    ∀ r, r ∈ rows → (i_ID r, i_KeyPackage r) ∈ packaged d'.
Proof.
  revert k d. induction rows as [|r rows IH]; intros k d.
  { exists d. split; [done|]. split; [|split; [done|by intros r ?%elem_of_nil]].
    rewrite <- (list_fmap_id (installations d)) at 1. apply list_fmap_ext. intros i r _.
    unfold markRow. rewrite decide_False; [done|]. apply not_elem_of_nil. }
  rewrite fmap_cons. cbn [appendInstallations toAppend]. simpl.
  destruct (InsertKeyPackage_packaged (i_ID r) (i_KeyPackage r) (i_CreatedAt r) d) as (H1 & H2 & H3).
  set (d1 := InsertKeyPackage _ _ _ d) in *. set (d2 := UpdateIsAppendedStatus (Some true) (i_ID r) d1).
  destruct (IH (S (S k)) d2) as (d' & E & Ei & Ek & Hp). exists d'. split; [done|].
  change (key_packages d2) with (key_packages d1) in Ek. split; [|split].
  - rewrite Ei. unfold d2, UpdateIsAppendedStatus. simpl. rewrite H3, <- list_fmap_compose.
    apply list_fmap_ext. intros i x _. unfold compose, markRow.
    destruct (decide (i_ID x = i_ID r)) as [Ex|Ex].
    + rewrite (decide_True (P:=i_ID x ∈ i_ID r :: _)) by (rewrite Ex; left). simpl. by case_decide.
    + destruct (decide (i_ID x ∈ i_ID <$> rows)) as [Hx|Hx].
      * by rewrite decide_True by (by right).
      * rewrite decide_False; [done|]. by intros [?|?]%elem_of_cons.
  - by etrans.
  - intros x [->|Hx]%elem_of_cons; [|by apply Hp]. by eapply packaged_mono.
Qed.

Lemma pending_marked n d :
  NoDup (i_ID <$> installations d) →
  filter (λ r, i_IsAppended r = None) (markRow (i_ID <$> take n (pendingInstallations d)) <$> installations d)
    ≡ₚ drop n (pendingInstallations d).
Proof.
  intros Hd. set (ids := i_ID <$> take n (pendingInstallations d)).
  assert (E : filter (λ r, i_IsAppended r = None) (markRow ids <$> installations d)
    = filter (λ r, i_ID r ∉ ids) (filter (λ r, i_IsAppended r = None) (installations d))).
  { rewrite list_filter_filter. clearbody ids. clear Hd. induction (installations d) as [|r t IH]; [done|].
    rewrite fmap_cons, !filter_cons, IH. destruct (decide (i_ID r ∈ ids)) as [Hin|Hin].
    - rewrite decide_False; [by rewrite decide_False by tauto|]. unfold markRow. by rewrite decide_True.
    - assert (Ec : markRow ids r = r) by (unfold markRow; by rewrite decide_False).
      rewrite Ec. destruct (decide (i_IsAppended r = None)); [by rewrite decide_True|].
      by rewrite decide_False by tauto. }
  assert (Hp : pendingInstallations d ≡ₚ filter (λ r, i_IsAppended r = None) (installations d))
    by apply merge_sort_Permutation.
  rewrite E, <- Hp. unfold ids. rewrite filter_drop_page; [done|].
  rewrite Hp. by apply fmap_filter_NoDup.
Qed.

Fixpoint installationsCycles (m : nat) (d : Db) : Db :=
  match m with
  | O => d
  | S m => installationsCycles m (installationsCycle cleanEnv ∅ d).2
  end.

Lemma installations_page d :
  let d' := (installationsCycle cleanEnv ∅ d).2 in
  installations d' = markRow (i_ID <$> take 100 (pendingInstallations d)) <$> installations d ∧
  key_packages d `prefix_of` key_packages d' ∧
  ∀ r, r ∈ take 100 (pendingInstallations d) → (i_ID r, i_KeyPackage r) ∈ packaged d'.
Proof.
  unfold installationsCycle. rewrite select_installations. simpl.
  destruct (appendInstallations_ok 0 (take 100 (pendingInstallations d)) d) as (d' & -> & H). exact H.
Qed.

Lemma isCommit_finishes protoSize grpc verdict m d :
  (∀ ds, grpc ds = Ok (verdict <$> ds)) → NoDup (g_ID <$> group_messages d) →
  (∀ r, r ∈ pendingRows d → answerable protoSize verdict (g_Data r)) →
  (length (pendingRows d) ≤ 100 * m)%nat →
  let d' := isCommitCycles protoSize grpc m d in
  d' = classifyAll verdict d ∧ isCommitCycle protoSize grpc cleanEnv ∅ d' = (Ok (), false, d') ∧
  backfillPause (Ok ()) false = 60 * 1000000000.
Proof.
  intros Hh. revert d. induction m as [|m IH]; intros d Hd Hok Hlen.
  - assert (Hp : pendingRows d = []) by (apply length_zero_iff_nil; lia).
    simpl. rewrite classifyAll_done by done. split; [done|]. split; [|done].
    rewrite (cycle_page _ _ verdict Hh) by (done || rewrite Hp; by intros r ?%elem_of_nil).
    rewrite Hp. simpl. assert (E : classifyRow verdict [] <$> group_messages d = group_messages d).
    { rewrite <- (list_fmap_id (group_messages d)) at 2. apply list_fmap_ext. intros i r _.
      unfold classifyRow. rewrite decide_False; [done|]. apply not_elem_of_nil. }
    rewrite E. by destruct d.
  - cbn [isCommitCycles]. rewrite (cycle_page _ _ verdict Hh); [|done|]; last first.
    { intros r Hr. apply Hok. apply elem_of_take in Hr as (i & Hr & _). by eapply list_elem_of_lookup_2. }
    cbn [snd]. rewrite <- (classifyAll_page verdict d 100 Hd). apply IH.
    + simpl. by rewrite classify_ids.
    + rewrite pending_classified by done. intros r Hr. apply Hok.
      rewrite <- (take_drop 100 (pendingRows d)). apply elem_of_app. by right.
    + rewrite pending_classified, length_drop by done. lia.
Qed.

Lemma installations_finish m d :
  NoDup (i_ID <$> installations d) → (length (pendingInstallations d) ≤ 100 * m)%nat →
  let d' := installationsCycles m d in
  Forall (λ r, i_IsAppended r ≠ None) (installations d') ∧
  (i_ID <$> installations d', i_KeyPackage <$> installations d')
    = (i_ID <$> installations d, i_KeyPackage <$> installations d) ∧
  key_packages d `prefix_of` key_packages d' ∧
  ∀ r, r ∈ pendingInstallations d → (i_ID r, i_KeyPackage r) ∈ packaged d'.
Proof.
  revert d. induction m as [|m IH]; intros d Hd Hlen; cbn [installationsCycles].
  - assert (Hp : pendingInstallations d = []) by (apply length_zero_iff_nil; lia).
    split; [|split; [done|split; [done|rewrite Hp; by intros r ?%elem_of_nil]]].
    apply Forall_forall. intros r Hr Hn.
    assert (Hin : r ∈ pendingInstallations d)
      by (unfold pendingInstallations; rewrite merge_sort_Permutation, list_elem_of_filter; done).
    rewrite Hp in Hin. by apply elem_of_nil in Hin.
  - destruct (installations_page d) as (Ei & Ek & Hpage).
    set (d1 := (installationsCycle cleanEnv ∅ d).2) in *.
    assert (Eids : (i_ID <$> installations d1, i_KeyPackage <$> installations d1)
      = (i_ID <$> installations d, i_KeyPackage <$> installations d)).
    { rewrite Ei, <- !list_fmap_compose. f_equal; apply list_fmap_ext; intros i r _;
        unfold compose, markRow; by case_decide. }
    pose proof (pending_marked 100 d Hd) as Hp. rewrite <- Ei in Hp.
    assert (Hp1 : pendingInstallations d1 ≡ₚ drop 100 (pendingInstallations d))
      by (unfold pendingInstallations at 1; by rewrite merge_sort_Permutation).
    destruct (IH d1) as (H1 & H2 & H3 & H4).
    { injection Eids as -> _. done. }
    { rewrite Hp1, length_drop. lia. }
    split; [done|]. split; [by rewrite H2|]. split; [by etrans|].
    intros r Hr. rewrite <- (take_drop 100 (pendingInstallations d)) in Hr.
    apply elem_of_app in Hr as [Hr|Hr]; [|apply H4; by rewrite Hp1].
    by eapply packaged_mono, Hpage.
Qed.

(** * Properties *)

(** Batching is invisible: the loop cuts a page of messages into consecutive batches, none
    empty and none beyond the 4 MiB the validation service accepts, and its answer is that of the
    batches one after the other; when the service judges each message by itself, it is the answer
    of a single request for the whole page. *)
Theorem classify_in_batches protoSize grpc messages :
  (∀ m, m ∈ messages → 0 ≤ protoSize (bf_Data m) ≤ maxPayloadSize) →
  (∃ batches, concat batches = messages ∧
     Forall (λ b, b ≠ [] ∧ batchSize protoSize b ≤ maxPayloadSize) batches ∧
     classifyMessages protoSize grpc messages
       = (classified ← mapErr (classifyMessageBatch grpc) batches; Ok (concat classified))) ∧
  (∀ verdict, (∀ ds, grpc ds = Ok (verdict <$> ds)) →
     classifyMessages protoSize grpc messages = classifyMessageBatch grpc messages).
Proof.
  intros Hs. assert (Hsmall : Forall (small protoSize) messages) by (by apply Forall_forall).
  split.
  - exists (batchesFrom protoSize [] messages). split; [apply batches_concat|].
    split; [apply batches_fit; auto|]. unfold classifyMessages. change 0 with (batchSize protoSize []).
    by rewrite classifyLoop_batches.
  - intros verdict Hh. rewrite (batch_judged grpc verdict Hh). by apply (classify_judged _ _ _ Hh).
Qed.

(** C35. The backfill is safe with any number of nodes: no message is in the hands of two of them,
    however their transactions, commits, rollbacks and the publishes interleave; every old row is
    as it was or, if it waited, has the verdict of its own data; and no row is lost. *)
Theorem backfill_ha_safe protoSize grpc verdict sha256 d evs :
  (∀ ds, grpc ds = Ok (verdict <$> ds)) → (∀ data, 0 ≤ protoSize data) → wf_db d →
  let c := clusterRun protoSize grpc sha256 evs (mkCluster d ∅) in
  (∀ w1 w2 rows1 rows2 id, cl_held c !! w1 = Some rows1 → cl_held c !! w2 = Some rows2 →
     id ∈ rows1.*1 → id ∈ rows2.*1 → w1 = w2) ∧
  ∃ old new, group_messages (cl_db c) = old ++ new ∧
    Forall2 (λ r0 r, r = r0 ∨ g_IsCommit r0 = None ∧
               r = r0 <| g_IsCommit := Some (vg_IsCommit (verdict (g_Data r0))) |>)
      (group_messages d) old ∧
    Forall (λ r, g_IsCommit r ≠ None) new.
Proof.
  intros Hh Hs Hd c. assert (I : cluster_ok verdict d c); [|by destruct I].
  assert (I0 : cluster_ok verdict d (mkCluster d ∅)).
  { destruct (wf_group_ids d Hd) as (H1 & H2 & _). split; simpl.
    - intros w1 w2 rows1 rows2 id H. by rewrite lookup_empty in H.
    - intros w rows id data H. by rewrite lookup_empty in H.
    - done.
    - intros r Hr. apply H2, Hr.
    - exists (group_messages d), []. rewrite app_nil_r. split; [done|]. split; [|done].
      clear. induction (group_messages d); constructor; [by left|done]. }
  revert I0. unfold c, clusterRun. generalize (mkCluster d ∅). induction evs as [|ev evs IH]; intros c0 I0; [done|].
  apply IH. by apply step_ok.
Qed.

(** C36. The backfills end: when the service can answer for the rows that wait and the
    transactions succeed, [m] cycles classify up to [100 m] messages, each with the verdict of its
    data, and append up to [100 m] installations, each with its key package, change nothing else
    and then find no more work; from then on the loops rest a minute between cycles. *)
Theorem backfill_finishes protoSize grpc verdict m d :
  (∀ ds, grpc ds = Ok (verdict <$> ds)) → wf_db d →
  (∀ r, r ∈ pendingRows d → answerable protoSize verdict (g_Data r)) →
  (length (pendingRows d) ≤ 100 * m)%nat → (length (pendingInstallations d) ≤ 100 * m)%nat →
  (let d' := isCommitCycles protoSize grpc m d in
   d' = classifyAll verdict d ∧
   isCommitCycle protoSize grpc cleanEnv ∅ d' = (Ok (), false, d') ∧
   backfillPause (Ok ()) false = 60 * 1000000000) ∧
  (let d' := installationsCycles m d in
   Forall (λ r, i_IsAppended r ≠ None) (installations d') ∧
   (i_ID <$> installations d', i_KeyPackage <$> installations d')
     = (i_ID <$> installations d, i_KeyPackage <$> installations d) ∧
   key_packages d `prefix_of` key_packages d' ∧
   ∀ r, r ∈ pendingInstallations d → (i_ID r, i_KeyPackage r) ∈ packaged d').
Proof.
  intros Hh Hd Hok Hlen Hlen'. split.
  - by apply (isCommit_finishes protoSize grpc verdict m d Hh (proj1 (wf_group_ids d Hd))).
  - apply installations_finish; [apply (wf_installation_ids d Hd)|done].
Qed.

(** * Concrete inputs *)

(** A service that calls a message a commit when it is one byte long and refuses empty ones; sizes
    as protobuf computes them for short data, and a table with rows that wait. *)
Definition sampleVerdict (data : bytes) : ValidateGroupMessagesResponse :=
  mkValidateGroupMessagesResponse (negb (bool_decide (data = ""))) "" "g" (bool_decide (len data = 1)).
Definition sampleService (ds : list bytes) : result (list ValidateGroupMessagesResponse) :=
  Ok (sampleVerdict <$> ds).
Definition megabytes (data : bytes) : Z := len data * 1024 * 1024.

Definition waitingDb : Db :=
  sampleDb <| group_messages :=
    [mkGroupMessageRow 1 1000 "g" "x" "h1" None "" (Some true);
     mkGroupMessageRow 4 1000 "g" "zzz" "h4" None "" None;
     mkGroupMessageRow 2 2000 "h" "xx" "h2" (Some true) "" None;
     mkGroupMessageRow 3 3000 "g" "yy" "h3" None "" (Some true)] |>
    <| installations := [mkInstallationRow "k" 1000 1000 "kp" None; mkInstallationRow "j" 1 1 "jp" (Some true)] |>.

Lemma waitingDb_wf : wf_db waitingDb.
Proof.
  destruct sampleDb_wf as [_ _ H3 H4 H5 H6 _].
  split; try assumption; [|apply (bool_decide_unpack _); vm_compute; exact I..].
  split; [|split]; [apply (bool_decide_unpack _); vm_compute; exact I| |split; vm_compute; discriminate].
  intros r Hr. simpl in Hr. rewrite !elem_of_cons, elem_of_nil in Hr.
  destruct Hr as [->|[->|[->|[->|[]]]]]; simpl; lia.
Qed.

Definition samplePage : list BackfillGroupMessage :=
  convertedMsg <$> [(1, "xx"); (2, "y"); (3, "zz"); (4, "w")].

Lemma classify_in_batches_witness :
  classifyMessages megabytes sampleService samplePage = classifyMessageBatch sampleService samplePage ∧
  (length <$> batchesFrom megabytes [] samplePage) = [2%nat; 2%nat] ∧
  (classified ← classifyMessages megabytes sampleService samplePage; Ok (fmap (M:=list) bf_IsCommit classified))
    = Ok [false; true; false; true].
Proof.
  split; [|vm_compute; split; reflexivity].
  refine (proj2 (classify_in_batches megabytes sampleService samplePage _) sampleVerdict (λ ds, eq_refl)).
  intros m Hm. unfold samplePage in Hm. cbn in Hm. rewrite !elem_of_cons, elem_of_nil in Hm.
  destruct Hm as [->|[->|[->|[->|[]]]]]; split; vm_compute; discriminate.
Defined.

Definition haEvents : list clusterEvent :=
  [Claim 1; Publish None 9 "g" "new" "" true false; Claim 2; Settle 2 true; Claim 2; Settle 1 true].

Lemma backfill_ha_safe_witness :
  let c := clusterRun megabytes sampleService (λ b, b) haEvents (mkCluster waitingDb ∅) in
  (∀ w1 w2 rows1 rows2 id, cl_held c !! w1 = Some rows1 → cl_held c !! w2 = Some rows2 →
     id ∈ rows1.*1 → id ∈ rows2.*1 → w1 = w2) ∧
  dom (cl_held c) = {[2%nat]} ∧
  g_IsCommit <$> group_messages (cl_db c) = [Some true; Some false; Some true; Some false; Some false].
Proof.
  split; [|split; [apply (bool_decide_unpack _); vm_compute; exact I|vm_compute; reflexivity]].
  apply (backfill_ha_safe megabytes sampleService sampleVerdict (λ b, b) waitingDb haEvents
    (λ ds, eq_refl)); [|exact waitingDb_wf].
  intros data. unfold megabytes. pose proof (len_nonneg data). lia.
Defined.

Lemma backfill_finishes_witness :
  isCommitCycles megabytes sampleService 1 waitingDb = classifyAll sampleVerdict waitingDb ∧
  g_IsCommit <$> group_messages (isCommitCycles megabytes sampleService 1 waitingDb)
    = [Some true; Some false; Some true; Some false] ∧
  packaged (installationsCycles 1 waitingDb) = packaged waitingDb ++ [("k", "kp")].
Proof.
  split; [|vm_compute; split; reflexivity].
  refine (proj1 (proj1 (backfill_finishes megabytes sampleService sampleVerdict 1 waitingDb (λ ds, eq_refl)
    waitingDb_wf _ _ _))); [|vm_compute; lia..].
  intros r Hr. unfold pendingRows in Hr. rewrite order_by_asc_Permutation, list_elem_of_filter in Hr.
  destruct Hr as [_ Hr]. simpl in Hr. rewrite !elem_of_cons, elem_of_nil in Hr.
  destruct Hr as [->|[->|[->|[->|[]]]]]; (split; [split; vm_compute; discriminate|reflexivity]).
Defined.
