(* ===== verification/Prune.v ===== *)
(** The pruner (pkg/prune): four jobs that delete expired rows in batches, and the executor that
    runs them side by side. A job is a record of operations; what the executor needs of it is the
    interface [PrunerLaws]. *)

From S2P Require Import Prelude Types MlsDb ReadStore.

(** * The jobs *)

Definition DEFAULT_GROUP_MESSAGE_LIFETIME_DAYS : Z := 30.
Definition DEFAULT_LIFETIME_OF_INSTALLATIONS : Z := 90.
Definition DEFAULT_LIFETIME_OF_KEY_PACKAGES : Z := 90.
Definition DEFAULT_LIFETIME_OF_WELCOME_MESSAGES : Z := 90.

(** What surrounds one statement: its failure, the database's clock, and the rows that other
    transactions hold, by number or by installation. *)
Record pruneEnv := mkPruneEnv {
  pe_dbErr : option error;
  pe_now : Z;
  pe_locked : gset Z;
  pe_lockedKeys : gset bytes;
}.

Record Pruner := mkPruner {
  Name : string;
  Count : pruneEnv → Db → result Z;
  PruneCycle : pruneEnv → Db → result Z * Db;
}.

(** The error of comparing a BIGINT column with a timestamp, which PostgreSQL does not do. *)
Definition operatorDoesNotExist : error :=
  Plain "operator does not exist: bigint < timestamp with time zone".

Section Jobs.
(** Whether an error is the driver's for a statement timeout (a *pq.Error with code 57014). *)
Context (isStatementTimeout : error → bool).
Context (batchSize : Z).

Definition counted (count : result Z) : result Z :=
  match count with
  | Err e => if isStatementTimeout e then Ok 1 else Err e
  | Ok n => Ok n
  end.

(** A DELETE ... RETURNING: how many rows went. *)
Definition deleted {A} (env : pruneEnv) (stmt : Db → list A * Db) (d : Db) : result Z * Db :=
  match pe_dbErr env with
  | Some e => (Err e, d)
  | None => let '(rows, d) := stmt d in (Ok (Z.of_nat (length rows)), d)
  end.

Definition GroupMessagesPruner : Pruner := {|
  Name := "group_messages";
  Count env d := counted (call (pe_dbErr env)
    (CountDeletableGroupMessages (pe_now env) DEFAULT_GROUP_MESSAGE_LIFETIME_DAYS d));
  PruneCycle env := deleted env (DeleteOldGroupMessagesBatch (pe_locked env) (pe_now env)
    DEFAULT_GROUP_MESSAGE_LIFETIME_DAYS batchSize);
|}.

Definition WelcomePruner : Pruner := {|
  Name := "welcomes";
  Count env d := counted (call (pe_dbErr env)
    (GetOldWelcomeMessages (pe_now env) DEFAULT_LIFETIME_OF_WELCOME_MESSAGES d));
  PruneCycle env := deleted env (DeleteOldWelcomeMessagesBatch (pe_locked env) (pe_now env)
    DEFAULT_LIFETIME_OF_WELCOME_MESSAGES batchSize);
|}.

(** GetOldInstallations and GetOldKeyPackages are the statements that compare a BIGINT with a
    timestamp: they always fail. *)
Definition InstallationsPruner : Pruner := {|
  Name := "installations";
  Count env d := counted (Err (default operatorDoesNotExist (pe_dbErr env)));
  PruneCycle env := deleted env (DeleteOldInstallationsBatch (pe_lockedKeys env) (pe_now env)
    DEFAULT_LIFETIME_OF_INSTALLATIONS batchSize);
|}.

Definition KeyPackagesPruner : Pruner := {|
  Name := "key_packages";
  Count env d := counted (Err (default operatorDoesNotExist (pe_dbErr env)));
  PruneCycle env := deleted env (DeleteOldKeyPackagesBatch (pe_locked env) (pe_now env)
    DEFAULT_LIFETIME_OF_KEY_PACKAGES batchSize);
|}.

(** The constructors panic on a small batch size. *)
Definition NewPruner (p : Pruner) : option Pruner :=
  if bool_decide (batchSize < 100) then None else Some p.
End Jobs.

(** * The executor *)

Record PruneConfig := mkPruneConfig {
  MaxCycles : Z;
  BatchSize : Z;     (* int32 *)
  CountDeletable : bool;
  DryRun : bool;
}.

(** A job's goroutine: about to start, after some cycles, or finished with the total it deleted or
    the error it sent. *)
Inductive jobStatus :=
  | Starting
  | Looping (cyclesCompleted totalDeletionCount : Z)
  | JobDone (r : result Z).

Definition jobStep (config : PruneConfig) (p : Pruner) (env : pruneEnv) (st : jobStatus) (d : Db)
    : jobStatus * Db :=
  match st with
  | Starting =>
      if CountDeletable config then
        match Count p env d with
        | Err e => (JobDone (Err e), d)
        | Ok deletableCount =>
            if bool_decide (deletableCount = 0) then (JobDone (Ok 0), d)
            else if DryRun config then (JobDone (Ok 0), d) else (Looping 0 0, d)
        end
      else if DryRun config then (JobDone (Ok 0), d) else (Looping 0 0, d)
  | Looping cyclesCompleted totalDeletionCount =>
      match PruneCycle p env d with
      | (Err e, d) => (JobDone (Err e), d)
      | (Ok deletedThisCycle, d) =>
          let totalDeletionCount := i64 (totalDeletionCount + deletedThisCycle) in
          let cyclesCompleted := i64 (cyclesCompleted + 1) in
          if bool_decide (deletedThisCycle < BatchSize config) then (JobDone (Ok totalDeletionCount), d)
          else if bool_decide (MaxCycles config ≤ cyclesCompleted)
          then (JobDone (Ok totalDeletionCount), d)
          else (Looping cyclesCompleted totalDeletionCount, d)
      end
  | JobDone r => (JobDone r, d)
  end.

(** The executor: its jobs with their goroutines' status, the errors sent, and the database. *)
Record Executor := mkExecutor {
  jobs : list (Pruner * jobStatus);
  errCh : list error;
  ex_db : Db;
}.

#[export] Instance Executor_eta : Eta Executor := λ x, mkExecutor (jobs x) (errCh x) (ex_db x).

(** A step of the [i]-th goroutine. *)
Definition executorStep (config : PruneConfig) (ev : nat * pruneEnv) (x : Executor) : Executor :=
  match jobs x !! ev.1 with
  | Some (p, st) =>
      let '(st', d) := jobStep config p ev.2 st (ex_db x) in
      {| jobs := <[ev.1 := (p, st')]> (jobs x);
         errCh := match st, st' with
                  | JobDone _, _ => errCh x
                  | _, JobDone (Err e) => errCh x ++ [e]
                  | _, _ => errCh x
                  end;
         ex_db := d |}
  | None => x
  end.

Definition startExecutor (isStatementTimeout : error → bool) (config : PruneConfig) (d : Db)
    : option Executor :=
  pruners ← mapM (λ p, NewPruner (BatchSize config) p)
    [WelcomePruner isStatementTimeout (BatchSize config);
     GroupMessagesPruner isStatementTimeout (BatchSize config);
     InstallationsPruner isStatementTimeout (BatchSize config);
     KeyPackagesPruner isStatementTimeout (BatchSize config)];
  Some (mkExecutor ((λ p, (p, Starting)) <$> pruners) [] d).

Definition executorRun (config : PruneConfig) (evs : list (nat * pruneEnv)) (x : Executor)
    : Executor := foldl (flip (executorStep config)) x evs.

(** Run's result once every goroutine is done: the first error sent. *)
Definition allDone (x : Executor) : bool :=
  forallb (λ j, match j.2 with JobDone _ => true | _ => false end) (jobs x).
Definition runResult (x : Executor) : result () :=
  match errCh x with e :: _ => Err e | [] => Ok () end.

(** * What a job may delete *)

(** [pruned T d d']: what may have gone between [d] and [d']. Of group messages (unless they are,
    or may be, commits), welcomes and installations: rows expired at [T]. Of key packages: all of an
    installation that has one expired at [T], the fresh ones with it, for that is what the statement
    deletes ([fresh_key_package_pruned]). *)
Record pruned (T : Z) (d d' : Db) : Prop := {
  pr_groups : ∀ r, r ∈ group_messages d → r ∈ group_messages d' ∨
    g_IsCommit r = Some false ∧ g_CreatedAt r < T - days 30;
  pr_welcomes : ∀ r, r ∈ welcome_messages d → r ∈ welcome_messages d' ∨
    w_CreatedAt r < T - days 90;
  pr_installations : ∀ r, r ∈ installations d → r ∈ installations d' ∨
    i_CreatedAt r < T - days 90;
  pr_key_packages : ∀ r, r ∈ key_packages d → r ∈ key_packages d' ∨
    ∃ r', r' ∈ key_packages d ∧ k_InstallationID r' = k_InstallationID r ∧
          k_CreatedAt r' < T - days 90;
  pr_together : ∀ r r', r ∈ key_packages d → r' ∈ key_packages d →
    k_InstallationID r = k_InstallationID r' → r ∈ key_packages d' → r' ∈ key_packages d';
  pr_nothing_new : group_messages d' `sublist_of` group_messages d ∧
    welcome_messages d' `sublist_of` welcome_messages d ∧
    installations d' `sublist_of` installations d ∧ key_packages d' `sublist_of` key_packages d;
  pr_others : inbox_log d' = inbox_log d ∧ address_log d' = address_log d ∧
    commit_log_v2 d' = commit_log_v2 d ∧ inboxes d' = inboxes d;
}.

#[export] Instance pruned_refl T : Reflexive (pruned T).
Proof. intros d. split; auto. Qed.

#[export] Instance pruned_trans T : Transitive (pruned T).
Proof.
  intros d1 d2 d3 [A1 A2 A3 A4 A0 (A5 & A6 & A7 & A8) (A9 & A10 & A11 & A12)]
    [B1 B2 B3 B4 B0 (B5 & B6 & B7 & B8) (B9 & B10 & B11 & B12)].
  split.
  - intros r [Hr|Hr]%A1; [by apply B1|by right].
  - intros r [Hr|Hr]%A2; [by apply B2|by right].
  - intros r [Hr|Hr]%A3; [by apply B3|by right].
  - intros r [Hr|Hr]%A4; [|by right]. apply B4 in Hr as [Hr|(r' & Hr' & ?)]; [by left|].
    right. exists r'. split; [|done]. by eapply elem_of_sublist.
  - intros r r' H1 H2 E H3. assert (r ∈ key_packages d2) by (by eapply elem_of_sublist).
    by apply (B0 r); [|apply (A0 r)| |].
  - split_and!; by etrans.
  - split_and!; by etrans.
Qed.

Lemma pruned_later T T' d d' : T ≤ T' → pruned T d d' → pruned T' d d'.
Proof.
  intros HT [A1 A2 A3 A4 A0 A5 A6]. split; try done.
  - intros r [Hr|[? ?]]%A1; [by left|right]. split; [done|lia].
  - intros r [Hr|?]%A2; [by left|right; lia].
  - intros r [Hr|?]%A3; [by left|right; lia].
  - intros r [Hr|(r' & ? & ? & ?)]%A4; [by left|right]. exists r'. split_and!; [done|done|lia].
Qed.

(** ** Batches

    A DELETE names, by a key, the first [n] rows of an order among those that satisfy [P]. *)

Section Batch.
Context {R K} `{EqDecision K} (key : R → K) (P : R → Prop) `{∀ r, Decision (P r)}
  (le : R → R → Prop) `{RelDecision R R le} (n : Z) (t : list R).
Hypothesis Hkeys : NoDup (key <$> t).

Definition batchKeys : list K := key <$> LIMIT n (merge_sort le (filter P t)).

Lemma batch_sorted : merge_sort le (filter P t) ≡ₚ filter P t.
Proof. apply merge_sort_Permutation. Qed.

Lemma batch_row r : r ∈ LIMIT n (merge_sort le (filter P t)) → r ∈ t ∧ P r.
Proof.
  unfold LIMIT. intros (i & Hr%list_elem_of_lookup_2 & _)%elem_of_take.
  rewrite batch_sorted, list_elem_of_filter in Hr. tauto.
Qed.

Lemma batch_expired r : r ∈ t → key r ∈ batchKeys → P r.
Proof.
  intros Hr (r' & E & Hr')%list_elem_of_fmap. apply batch_row in Hr' as [Hin HP].
  by rewrite (NoDup_fmap_fst_inj key _ r r' Hkeys Hr Hin E).
Qed.

Lemma batch_deleted : filter (λ r, key r ∈ batchKeys) t ≡ₚ LIMIT n (merge_sort le (filter P t)).
Proof.
  assert (Ht : NoDup t) by (by eapply NoDup_fmap_1). apply NoDup_Permutation.
  - by apply NoDup_filter.
  - unfold LIMIT. eapply sublist_NoDup; [|apply sublist_take]. rewrite batch_sorted. by apply NoDup_filter.
  - intros r. rewrite list_elem_of_filter. split.
    + intros [(r' & E & Hr')%list_elem_of_fmap Hr]. pose proof (batch_row r' Hr') as [Hin _].
      by rewrite (NoDup_fmap_fst_inj key _ r r' Hkeys Hr Hin E).
    + intros Hr. split; [by apply list_elem_of_fmap_2|]. by apply batch_row.
Qed.

Lemma batch_rest : filter P (filter (λ r, key r ∉ batchKeys) t)
  ≡ₚ drop (Z.to_nat n) (merge_sort le (filter P t)).
Proof.
  assert (E : filter P (filter (λ r, key r ∉ batchKeys) t) = filter (λ r, key r ∉ batchKeys) (filter P t)).
  { rewrite !list_filter_filter. apply list_filter_iff. tauto. }
  rewrite E. transitivity (filter (λ r, key r ∉ batchKeys) (merge_sort le (filter P t))).
  { by rewrite batch_sorted. }
  unfold batchKeys, LIMIT. rewrite filter_drop_page; [done|].
  rewrite batch_sorted. by apply fmap_filter_NoDup.
Qed.

Lemma batch_count :
  length (filter (λ r, key r ∈ batchKeys) t) = Nat.min (Z.to_nat n) (length (filter P t)) ∧
  length (filter P (filter (λ r, key r ∉ batchKeys) t)) = (length (filter P t) - Z.to_nat n)%nat.
Proof.
  rewrite batch_deleted, batch_rest. unfold LIMIT. by rewrite length_take, length_drop, batch_sorted.
Qed.
End Batch.

(** What each job counts as expired. *)
Definition expiredGroups (locked : gset Z) (now : Z) (r : GroupMessageRow) : Prop :=
  (g_IsCommit r = Some false ∧ g_CreatedAt r < now - days 30) ∧ g_ID r ∉ locked.
Definition expiredWelcomes (locked : gset Z) (now : Z) (r : WelcomeMessageRow) : Prop :=
  w_CreatedAt r < now - days 90 ∧ w_ID r ∉ locked.
Definition expiredInstallations (locked : gset bytes) (now : Z) (r : InstallationRow) : Prop :=
  i_CreatedAt r < now - days 90 ∧ i_ID r ∉ locked.

#[export] Instance expiredGroups_dec l now r : Decision (expiredGroups l now r).
Proof. unfold expiredGroups. apply _. Defined.
#[export] Instance expiredWelcomes_dec l now r : Decision (expiredWelcomes l now r).
Proof. unfold expiredWelcomes. apply _. Defined.
#[export] Instance expiredInstallations_dec l now r : Decision (expiredInstallations l now r).
Proof. unfold expiredInstallations. apply _. Defined.

(** The batches name rows by their keys, which are unique. *)
Definition ids_unique (d : Db) : Prop :=
  NoDup (g_ID <$> group_messages d) ∧ NoDup (w_ID <$> welcome_messages d) ∧
  NoDup (i_ID <$> installations d).

Lemma pruned_ids T d d' : pruned T d d' → ids_unique d → ids_unique d'.
Proof.
  intros [_ _ _ _ _ (H1 & H2 & H3 & _) _] (N1 & N2 & N3).
  split_and!; [exact (sublist_NoDup _ _ N1 (fmap_sublist g_ID _ _ H1))|
    exact (sublist_NoDup _ _ N2 (fmap_sublist w_ID _ _ H2))|
    exact (sublist_NoDup _ _ N3 (fmap_sublist i_ID _ _ H3))].
Qed.

(** ** The jobs' cycles *)

Section Jobs.
Context (isStatementTimeout : error → bool) (batchSize : Z).

Definition theJobs : list Pruner :=
  [WelcomePruner isStatementTimeout batchSize; GroupMessagesPruner isStatementTimeout batchSize;
   InstallationsPruner isStatementTimeout batchSize; KeyPackagesPruner isStatementTimeout batchSize].

Lemma kept {R K} `{EqDecision K} (key : R → K) (l : list K) (t : list R) r :
  r ∈ t → r ∈ filter (λ r, key r ∉ l) t ∨ key r ∈ l.
Proof.
  intros Hr. destruct (decide (key r ∈ l)) as [|Hn]; [by right|left]. by apply list_elem_of_filter.
Qed.

Lemma cycle_pruned p env d :
  p ∈ theJobs → ids_unique d → pruned (pe_now env) d (PruneCycle p env d).2.
Proof.
  intros Hp (N1 & N2 & N3). unfold theJobs in Hp. rewrite !elem_of_cons, elem_of_nil in Hp.
  destruct Hp as [->|[->|[->|[->|[]]]]]; cbn [PruneCycle WelcomePruner GroupMessagesPruner InstallationsPruner KeyPackagesPruner];
    unfold deleted;
    (destruct (pe_dbErr env); [reflexivity|]); simpl.
  - split; simpl; auto using sublist_filter. intros r Hr.
    destruct (kept w_ID (batchKeys w_ID (expiredWelcomes (pe_locked env) (pe_now env)) (le_by w_ID) batchSize
      (welcome_messages d)) _ r Hr) as [?|Hin]; [by left|right].
    by apply batch_expired in Hin as [? _].
  - split; simpl; auto using sublist_filter. intros r Hr.
    destruct (kept g_ID (batchKeys g_ID (expiredGroups (pe_locked env) (pe_now env)) (le_by g_ID) batchSize
      (group_messages d)) _ r Hr) as [?|Hin]; [by left|right].
    by apply batch_expired in Hin as [? _].
  - split; simpl; auto using sublist_filter. intros r Hr.
    destruct (kept i_ID (batchKeys i_ID (expiredInstallations (pe_lockedKeys env) (pe_now env)) (bytea_le i_ID)
      batchSize (installations d)) _ r Hr) as [?|Hin]; [by left|right].
    by apply batch_expired in Hin as [? _].
  - split; simpl; auto using sublist_filter.
    + intros r Hr. destruct (kept k_InstallationID (batchKeys k_InstallationID
        (λ r, k_CreatedAt r < pe_now env - days 90 ∧ k_SequenceID r ∉ pe_locked env)
        (bytea_le k_InstallationID) batchSize (key_packages d)) _ r Hr) as [?|Hin]; [by left|right].
      apply list_elem_of_fmap in Hin as (r' & E & [Hin [? _]]%batch_row). by exists r'.
    + intros r r' Hr Hr' E [Hk _]%list_elem_of_filter. apply list_elem_of_filter. by rewrite <- E.
Qed.
End Jobs.

(** * The interface *)

(** A statement nothing disturbs. *)
Definition quietEnv (now : Z) : pruneEnv := mkPruneEnv None now ∅ ∅.

(** What a cycle of a job promises: it deletes what has expired, up to the batch size, and reports
    how many rows that was. *)
Class PrunerLaws (p : Pruner) (batchSize : Z) := {
  expired : Z → Db → Z;
  expired_nonneg now d : 0 ≤ expired now d;
  cycle_clean now d : ids_unique d →
    ∃ d', PruneCycle p (quietEnv now) d = (Ok (Z.min batchSize (expired now d)), d') ∧
      expired now d' = expired now d - Z.min batchSize (expired now d) ∧ ids_unique d';
}.

Definition countOf {R} (P : R → Prop) `{∀ r, Decision (P r)} (t : list R) : Z :=
  Z.of_nat (length (filter P t)).

(** A job whose batches name rows by a unique key keeps the promise. *)
Lemma batch_laws {R K} `{EqDecision K} (key : R → K) (P : R → Prop) `{∀ r, Decision (P r)}
    (le : R → R → Prop) `{RelDecision R R le} n (t : list R) :
  NoDup (key <$> t) → 0 ≤ n →
  Z.of_nat (length (filter (λ r, key r ∈ batchKeys key P le n t) t)) = Z.min n (countOf P t) ∧
  countOf P (filter (λ r, key r ∉ batchKeys key P le n t) t) = countOf P t - Z.min n (countOf P t).
Proof.
  intros Hd Hn. destruct (batch_count key P le n t Hd) as [H1 H2]. unfold countOf. rewrite H1, H2. lia.
Qed.

Section Laws.
Context (isStatementTimeout : error → bool) (batchSize : Z) (Hbatch : 0 ≤ batchSize).

Lemma job_unique p now d : p ∈ theJobs isStatementTimeout batchSize → ids_unique d →
  ids_unique (PruneCycle p (quietEnv now) d).2.
Proof. intros Hp Hd. eapply pruned_ids; [by eapply cycle_pruned|done]. Qed.

(** The three lawful jobs differ in their table only. *)
Ltac solve_laws job key P le rows Hkeys :=
  let now := fresh "now" in let d := fresh "d" in let Hd := fresh "Hd" in
  refine {| expired now d := countOf (P ∅ now) (rows d) |};
  [intros now d; unfold countOf; lia|];
  intros now d Hd;
  destruct (batch_laws key (P ∅ now) le batchSize (rows d) (Hkeys d Hd) Hbatch) as [E1 E2];
  exists (PruneCycle (job isStatementTimeout batchSize) (quietEnv now) d).2; split_and!;
  [rewrite <- E1; unfold deleted; cbn; rewrite length_fmap; reflexivity
  |rewrite <- E2; reflexivity
  |apply job_unique; [unfold theJobs; set_solver|done]].

#[export] Instance welcome_laws : PrunerLaws (WelcomePruner isStatementTimeout batchSize) batchSize.
Proof.
  solve_laws WelcomePruner w_ID expiredWelcomes (le_by w_ID) welcome_messages
    (λ d (H : ids_unique d), proj1 (proj2 H)).
Defined.

#[export] Instance group_laws : PrunerLaws (GroupMessagesPruner isStatementTimeout batchSize) batchSize.
Proof.
  solve_laws GroupMessagesPruner g_ID expiredGroups (le_by g_ID) group_messages
    (λ d (H : ids_unique d), proj1 H).
Defined.

#[export] Instance installation_laws :
  PrunerLaws (InstallationsPruner isStatementTimeout batchSize) batchSize.
Proof.
  solve_laws InstallationsPruner i_ID expiredInstallations (bytea_le i_ID) installations
    (λ d (H : ids_unique d), proj2 (proj2 H)).
Defined.
End Laws.

(** * Jobs end *)

Section Executor.
Context (config : PruneConfig).
Hypothesis Hcycles : 1 ≤ MaxCycles config ≤ maxInt64.

(** The steps a goroutine has left at most. *)
Definition remaining (st : jobStatus) : Z :=
  match st with
  | Starting => 1 + MaxCycles config
  | Looping c _ => MaxCycles config - c
  | JobDone _ => 0
  end.

Definition status_ok (st : jobStatus) : Prop :=
  match st with Looping c _ => 0 ≤ c < MaxCycles config | _ => True end.

Lemma jobStep_progress p env st d :
  status_ok st → let st' := (jobStep config p env st d).1 in
  status_ok st' ∧ (st' = st ∧ remaining st = 0 ∨ remaining st' < remaining st).
Proof.
  intros Hok. destruct st as [|c tot|r]; cbn [jobStep].
  - destruct (CountDeletable config); [destruct (Count p env d) as [n|e]; [case_bool_decide|]|];
      destruct (DryRun config); cbn [fst status_ok remaining]; (split; [lia || done|right; lia]).
  - cbn [status_ok] in Hok. destruct (PruneCycle p env d) as [[n|e] d']; cbn [fst status_ok remaining];
      [|split; [done|right; lia]].
    case_bool_decide; cbn [fst status_ok remaining]; [split; [done|right; lia]|].
    rewrite i64_small by (unfold maxInt64 in *; lia).
    case_bool_decide; cbn [fst status_ok remaining]; (split; [lia || done|right; lia]).
  - split; [done|by left].
Qed.

Lemma remaining_nonneg st : status_ok st → 0 ≤ remaining st.
Proof. destruct st; simpl; lia. Qed.

Lemma remaining_done st : status_ok st → remaining st ≤ 0 → ∃ r, st = JobDone r.
Proof. destruct st as [|c tot|r]; simpl; intros; [lia|lia|by eexists]. Qed.

Definition statuses_ok (x : Executor) : Prop := Forall (λ j, status_ok j.2) (jobs x).

(** How often a run schedules a goroutine. *)
Definition turns (i : nat) (evs : list (nat * pruneEnv)) : Z := count (λ ev, ev.1 = i) evs.

Lemma executorStep_job ev x i p st :
  statuses_ok x → jobs x !! i = Some (p, st) →
  statuses_ok (executorStep config ev x) ∧
  ∃ st', jobs (executorStep config ev x) !! i = Some (p, st') ∧
    (remaining st' ≤ remaining st) ∧ (ev.1 = i → remaining st' ≤ Z.max 0 (remaining st - 1)).
Proof.
  intros Hok Hi. unfold executorStep. destruct (jobs x !! ev.1) as [[p1 st1]|] eqn:Hev; last first.
  { split; [done|]. exists st. split_and!; [done|done|]. intros <-. by rewrite Hev in Hi. }
  pose proof (Forall_lookup_1 _ _ _ _ Hok Hev) as Hst1. simpl in Hst1.
  pose proof (jobStep_progress p1 ev.2 st1 (ex_db x) Hst1) as Hp.
  destruct (jobStep config p1 ev.2 st1 (ex_db x)) as [st1' d]. simpl in *. destruct Hp as [Hst1' Hp].
  split; [unfold statuses_ok; simpl; by apply Forall_insert|].
  destruct (decide (ev.1 = i)) as [E|E].
  - rewrite E in Hev |- *. rewrite Hi in Hev. injection Hev as -> ->. exists st1'.
    rewrite list_lookup_insert_eq by (by eapply lookup_lt_Some). split; [done|].
    destruct Hp as [[-> ?]|?]; [split; [done|intros; lia]|]. split; [lia|]. intros. lia.
  - exists st. rewrite list_lookup_insert_ne by done. split_and!; [done|done|by intros].
Qed.

Lemma executorRun_job evs x i p st :
  statuses_ok x → jobs x !! i = Some (p, st) →
  statuses_ok (executorRun config evs x) ∧
  ∃ st', jobs (executorRun config evs x) !! i = Some (p, st') ∧
    remaining st' ≤ Z.max 0 (remaining st - turns i evs).
Proof.
  revert x st. induction evs as [|ev evs IH]; intros x st Hok Hi.
  { split; [done|]. exists st. split; [done|]. unfold turns. rewrite count_nil. lia. }
  destruct (executorStep_job ev x i p st Hok Hi) as (Hok1 & st1 & Hi1 & Hle & Hturn).
  destruct (IH _ st1 Hok1 Hi1) as (Hok2 & st2 & Hi2 & Hle2). split; [done|]. exists st2.
  split; [done|]. unfold turns in *. rewrite count_cons.
  pose proof (count_nonneg (λ ev : nat * pruneEnv, ev.1 = i) evs).
  case_decide as E; [specialize (Hturn E); lia|lia].
Qed.

Lemma executorRun_length evs x : length (jobs (executorRun config evs x)) = length (jobs x).
Proof.
  revert x. induction evs as [|ev evs IH]; intros x; [done|]. unfold executorRun in *. simpl. rewrite IH.
  unfold executorStep. destruct (jobs x !! ev.1) as [[p st]|]; [|done].
  destruct (jobStep _ _ _ _ _). simpl. by rewrite length_insert.
Qed.

(** ** A job by itself *)

Fixpoint jobRun (n : nat) (p : Pruner) (env : pruneEnv) (st : jobStatus) (d : Db) : jobStatus * Db :=
  match n with
  | O => (st, d)
  | S n => let '(st, d) := jobStep config p env st d in jobRun n p env st d
  end.

Lemma jobRun_done n p env r d : jobRun n p env (JobDone r) d = (JobDone r, d).
Proof. induction n as [|n IH]; [done|]. apply IH. Qed.

Context (p : Pruner) `{!PrunerLaws p (BatchSize config)} (Hbatch : 0 < BatchSize config).

(** The loop, with [k] cycles left. *)
Lemma jobRun_loop k n now c tot d :
  ids_unique d → 0 ≤ c → MaxCycles config - c = Z.of_nat k → (0 < k)%nat → (k ≤ n)%nat →
  0 ≤ tot → tot + expired now d ≤ maxInt64 →
  let total := Z.min (expired now d) (BatchSize config * Z.of_nat k) in
  ∃ d', jobRun n p (quietEnv now) (Looping c tot) d = (JobDone (Ok (tot + total)), d') ∧
    expired now d' = expired now d - total ∧ ids_unique d'.
Proof.
  revert n c tot d. induction k as [|k IH]; intros n c tot d Hd Hc Hk Hk0 Hn Htot Hmax; [lia|].
  destruct n as [|n]; [lia|]. cbn [jobRun jobStep].
  destruct (cycle_clean now d Hd) as (d1 & -> & He & Hd1). pose proof (expired_nonneg now d) as H0.
  rewrite !i64_small by lia.
  case_bool_decide as Hlt.
  - rewrite jobRun_done. exists d1. split; [|split; [lia|done]]. do 3 f_equal. nia.
  - case_bool_decide as Hend.
    + rewrite jobRun_done. exists d1. assert (k = 0%nat) as -> by lia.
      split; [|split; [lia|done]]. do 3 f_equal. lia.
    + destruct (IH n (c + 1) (tot + Z.min (BatchSize config) (expired now d)) d1) as (d2 & -> & He2 & Hd2);
        [done|lia..|].
      exists d2. split; [|split; [rewrite He2, He; nia|done]]. do 3 f_equal. nia.
Qed.

Lemma jobRun_complete n now d :
  CountDeletable config = false → DryRun config = false → ids_unique d →
  expired now d ≤ maxInt64 → 1 + MaxCycles config ≤ Z.of_nat n →
  let total := Z.min (expired now d) (BatchSize config * MaxCycles config) in
  ∃ d', jobRun n p (quietEnv now) Starting d = (JobDone (Ok total), d') ∧
    expired now d' = expired now d - total.
Proof.
  intros Hcount Hdry Hd Hmax Hn. destruct n as [|n]; [lia|]. cbn [jobRun jobStep]. rewrite Hcount, Hdry.
  destruct (jobRun_loop (Z.to_nat (MaxCycles config)) n now 0 0 d) as (d' & -> & He & _);
    [done|lia..|]. rewrite Z2Nat.id in * by lia. by exists d'.
Qed.
End Executor.

(** * The executor's runs *)

Lemma executorStep_jobs config ev x : (jobs (executorStep config ev x)).*1 = (jobs x).*1.
Proof.
  unfold executorStep. destruct (jobs x !! ev.1) as [[p st]|] eqn:E; [|done].
  destruct (jobStep _ _ _ _ _) as [st' d]. simpl. rewrite list_fmap_insert. simpl.
  apply list_insert_id. by rewrite list_lookup_fmap, E.
Qed.

Lemma startExecutor_jobs ist config d x :
  startExecutor ist config d = Some x →
  jobs x = (λ p, (p, Starting)) <$> theJobs ist (BatchSize config) ∧ ex_db x = d.
Proof.
  unfold startExecutor, NewPruner, theJobs. simpl. case_bool_decide; [done|]. by intros [= <-].
Qed.

Lemma jobStep_pruned config p ist env st d :
  p ∈ theJobs ist (BatchSize config) → ids_unique d →
  pruned (pe_now env) d (jobStep config p env st d).2.
Proof.
  intros Hp Hd. pose proof (cycle_pruned ist _ p env d Hp Hd) as Hc.
  destruct st as [|c tot|r]; cbn [jobStep]; [|by destruct (PruneCycle p env d) as [[n|e] d1];
    [repeat case_bool_decide|]|done].
  destruct (CountDeletable config); [destruct (Count p env d) as [n|e]; [case_bool_decide|]|];
    try destruct (DryRun config); reflexivity.
Qed.

Lemma executorRun_pruned ist config evs T x :
  (jobs x).*1 = theJobs ist (BatchSize config) → ids_unique (ex_db x) →
  Forall (λ ev, pe_now ev.2 ≤ T) evs →
  pruned T (ex_db x) (ex_db (executorRun config evs x)).
Proof.
  revert x. induction evs as [|ev evs IH]; intros x Hj Hd Ht; [reflexivity|]. inv Ht.
  assert (Hstep : pruned T (ex_db x) (ex_db (executorStep config ev x))).
  { unfold executorStep. destruct (jobs x !! ev.1) as [[p st]|] eqn:E; [|reflexivity].
    assert (p ∈ theJobs ist (BatchSize config)) as Hp.
    { rewrite <- Hj. apply list_elem_of_fmap. exists (p, st). split; [done|]. by eapply list_elem_of_lookup_2. }
    pose proof (jobStep_pruned config p ist ev.2 st _ Hp Hd) as H.
    destruct (jobStep _ _ _ _ _) as [st' d]. simpl in *. by eapply pruned_later. }
  etrans; [exact Hstep|]. apply IH; [|by eapply pruned_ids|done].
  rewrite <- Hj. apply executorStep_jobs.
Qed.

(** C40. What the pruner may delete. Whatever the interleaving of the four jobs, their failures and
    the rows other transactions hold, a run of the executor deletes of the group messages only those
    known not to be commits and older than thirty days, of the welcomes and installations only those
    older than ninety, and key packages only by whole installations, of those that have a key package
    older than ninety days (its fresh ones go too). Commits, messages still to be classified and the
    other tables stay; a dry run changes nothing. *)
Theorem prune_scope isStatementTimeout config d x0 evs T :
  startExecutor isStatementTimeout config d = Some x0 → ids_unique d →
  Forall (λ ev, pe_now ev.2 ≤ T) evs →
  pruned T d (ex_db (executorRun config evs x0)) ∧
  (DryRun config = true → ex_db (executorRun config evs x0) = d).
Proof.
  intros Hs Hd Ht. destruct (startExecutor_jobs _ _ _ _ Hs) as [Hj <-]. split.
  - apply (executorRun_pruned isStatementTimeout); [|done..]. rewrite Hj, <- list_fmap_compose. apply list_fmap_id.
  - intros Hdry. assert (Hl : Forall (λ j, ∀ c tot, j.2 ≠ Looping c tot) (jobs x0)).
    { rewrite Hj, Forall_fmap. by apply Forall_true. }
    clear Hs Hj Hd Ht. revert x0 Hl. induction evs as [|ev evs IH]; intros x Hl; [done|].
    unfold executorRun in *. simpl. assert (Hx : ex_db (executorStep config ev x) = ex_db x ∧
      Forall (λ j, ∀ c tot, j.2 ≠ Looping c tot) (jobs (executorStep config ev x))).
    { unfold executorStep. destruct (jobs x !! ev.1) as [[p st]|] eqn:E; [|done].
      pose proof (Forall_lookup_1 _ _ _ _ Hl E) as Hst. simpl in Hst.
      destruct st as [|c tot|r]; [|by destruct (Hst c tot)|]; cbn [jobStep]; rewrite ?Hdry;
        [destruct (CountDeletable config); [destruct (Count p ev.2 _) as [n|e]; [case_bool_decide|]|]|];
        simpl; (split; [done|by apply Forall_insert]). }
    destruct Hx as [<- ?]. by apply IH.
Qed.

(** Whatever the cycles delete or fail with, every job ends within one turn and MaxCycles more,
    so the executor's Wait returns once each of its goroutines has had that many turns. *)
Theorem prune_finishes isStatementTimeout config d x0 evs :
  1 ≤ MaxCycles config ≤ maxInt64 → startExecutor isStatementTimeout config d = Some x0 →
  (∀ i, (i < 4)%nat → 1 + MaxCycles config ≤ turns i evs) →
  allDone (executorRun config evs x0) = true.
Proof.
  intros Hc Hs Ht. destruct (startExecutor_jobs _ _ _ _ Hs) as [Hj _].
  assert (Hok : statuses_ok config x0) by (unfold statuses_ok; rewrite Hj, Forall_fmap; by apply Forall_true).
  apply Is_true_true_1. unfold allDone. apply forallb_True, Forall_lookup_2. intros i [p st] Hi. simpl.
  assert (Hlt : (i < 4)%nat).
  { apply lookup_lt_Some in Hi. by rewrite executorRun_length, Hj, length_fmap in Hi. }
  assert (is_Some (jobs x0 !! i)) as [[p0 st0] Hi0].
  { apply lookup_lt_is_Some. by rewrite Hj, length_fmap. }
  destruct (executorRun_job config Hc evs x0 i p0 st0 Hok Hi0) as (Hok' & st' & Hi' & Hle).
  rewrite Hi in Hi'. injection Hi' as -> ->. specialize (Ht i Hlt).
  rewrite Hj, list_lookup_fmap in Hi0. destruct (theJobs _ _ !! i); simplify_eq/=.
  destruct (remaining_done config Hc st') as [r ->]; [by apply (Forall_lookup_1 _ _ _ _ Hok' Hi)|lia|done].
Qed.

(** A job that nothing disturbs deletes, and reports, everything that has expired, up to
    MaxCycles batches: stated once for any job that keeps the promise of [PrunerLaws], as the
    jobs of welcomes, group messages and installations do. *)
Theorem prune_job_complete config p `{!PrunerLaws p (BatchSize config)} n now d :
  1 ≤ MaxCycles config ≤ maxInt64 → 0 < BatchSize config →
  CountDeletable config = false → DryRun config = false → ids_unique d →
  expired now d ≤ maxInt64 → 1 + MaxCycles config ≤ Z.of_nat n →
  let total := Z.min (expired now d) (BatchSize config * MaxCycles config) in
  ∃ d', jobRun config n p (quietEnv now) Starting d = (JobDone (Ok total), d') ∧
    expired now d' = expired now d - total.
Proof. intros. by apply jobRun_complete. Qed.

(** ** Samples *)

Definition noTimeouts (e : error) : bool := false.

(** Two old messages, one of them a commit, one to be classified, one fresh; an old and a fresh
    key package of the same installation. *)
Definition dustyDb : Db := emptyDb
  <| group_messages := [mkGroupMessageRow 1 0 "g" "old" "h1" (Some false) "" None;
      mkGroupMessageRow 2 0 "g" "commit" "h2" (Some true) "" None;
      mkGroupMessageRow 3 0 "g" "waiting" "h3" None "" None;
      mkGroupMessageRow 4 (days 80) "g" "fresh" "h4" (Some false) "" None] |>
  <| key_packages := [mkKeyPackageRow 1 "k" "old" 0; mkKeyPackageRow 2 "k" "fresh" (days 99)] |>.

Lemma dustyDb_unique : ids_unique dustyDb.
Proof. split_and!; apply (bool_decide_unpack _); by vm_compute. Qed.

Definition tenCycles : PruneConfig := mkPruneConfig 10 100 false false.

(** Every job twice, with a statement that fails once. *)
Definition aRun : list (nat * pruneEnv) :=
  [(0%nat, quietEnv (days 100)); (1%nat, quietEnv (days 100)); (2%nat, quietEnv (days 100));
   (3%nat, quietEnv (days 100)); (1%nat, quietEnv (days 100));
   (0%nat, mkPruneEnv (Some (Plain "connection reset")) (days 100) ∅ ∅);
   (2%nat, quietEnv (days 100)); (3%nat, quietEnv (days 100))].

Definition started : Executor := mkExecutor ((λ p, (p, Starting)) <$> theJobs noTimeouts 100) [] dustyDb.

Lemma started_ok : startExecutor noTimeouts tenCycles dustyDb = Some started.
Proof. reflexivity. Qed.

Example a_run :
  (λ x, (g_ID <$> group_messages (ex_db x), k_SequenceID <$> key_packages (ex_db x),
         allDone x, runResult x)) (executorRun tenCycles aRun started)
  = ([2; 3; 4], [], true, Err (Plain "connection reset")).
Proof. vm_compute. reflexivity. Qed.

Lemma prune_scope_witness :
  g_ID <$> group_messages (ex_db (executorRun tenCycles aRun started)) = [2; 3; 4] ∧
  pruned (days 100) dustyDb (ex_db (executorRun tenCycles aRun started)).
Proof.
  split; [by vm_compute|].
  refine (proj1 (prune_scope noTimeouts tenCycles dustyDb started aRun (days 100)
    started_ok dustyDb_unique _)).
  apply (bool_decide_unpack _). by vm_compute.
Defined.

Lemma prune_finishes_witness :
  allDone (executorRun tenCycles (mjoin (replicate 11 (take 4 aRun))) started) = true.
Proof.
  apply (prune_finishes noTimeouts tenCycles dustyDb started _); [by vm_compute|exact started_ok|].
  intros i Hi. do 4 (destruct i as [|i]; [by vm_compute|]). lia.
Defined.

Lemma prune_job_complete_witness :
  ∃ d', jobRun tenCycles 11 (GroupMessagesPruner noTimeouts 100) (quietEnv (days 100)) Starting dustyDb
    = (JobDone (Ok 1), d') ∧
    countOf (expiredGroups ∅ (days 100)) (group_messages d') = 0.
Proof.
  exact (prune_job_complete tenCycles (GroupMessagesPruner noTimeouts 100)
    (PrunerLaws0 := group_laws noTimeouts 100 ltac:(lia)) 11 (days 100) dustyDb
    ltac:(by vm_compute) ltac:(by vm_compute) eq_refl eq_refl dustyDb_unique
    ltac:(by vm_compute) ltac:(by vm_compute)).
Defined.

(** The key package job deletes a fresh key package with the old one of its installation. *)
Lemma fresh_key_package_pruned :
  k_SequenceID <$> key_packages (PruneCycle (KeyPackagesPruner noTimeouts 100) (quietEnv (days 100))
    dustyDb).2 = [].
Proof. by vm_compute. Qed.

(** When counting is asked for, the jobs whose count compares a BIGINT with a timestamp end with an
    error before their first cycle. *)
Lemma counting_stops_jobs isStatementTimeout config env d p :
  CountDeletable config = true → pe_dbErr env = None →
  isStatementTimeout operatorDoesNotExist = false →
  p ∈ [InstallationsPruner isStatementTimeout (BatchSize config);
       KeyPackagesPruner isStatementTimeout (BatchSize config)] →
  jobStep config p env Starting d = (JobDone (Err operatorDoesNotExist), d).
Proof.
  intros Hc He Ht Hp. rewrite !elem_of_cons, elem_of_nil in Hp.
  destruct Hp as [->|[->|[]]]; cbn; by rewrite Hc, He; unfold counted; simpl; rewrite Ht.
Qed.
