(* ===== verification/Identity.v ===== *)
(** The identity API (pkg/identity/api/v1/identity_service.go): its handlers check that publishing
    is open and delegate to the stores of Publish.v and ReadStore.v; and what a client that reads
    an inbox more than once may rely on. *)

From S2P Require Import Prelude Types MlsDb ReadStore Interceptor Service Publish.

Section Identity.
Context {IdentityUpdate : Type} (GetInboxId : IdentityUpdate → string).
Context (Unmarshal : bytes → result IdentityUpdate) (Marshal : IdentityUpdate → result bytes).
Context (GetAssociationState : list IdentityUpdate → list IdentityUpdate → result StateDiff).
Context (hashtext : string → Z).
(** The service's disablePublish flag and its cutover checker. *)
Context (disablePublish : bool) (cutoverChecker : option Z).

Local Abbreviation exec := (exec GetInboxId Unmarshal Marshal GetAssociationState hashtext).
Local Abbreviation step := (Publish.step GetInboxId Unmarshal Marshal GetAssociationState hashtext).
Local Abbreviation sys := (sys (IdentityUpdate := IdentityUpdate)).

(** A publish request: refused, refused by the store for want of an update, or a publisher that
    joins those of the store. *)
Definition Identity_PublishIdentityUpdate (now : Z) (i : nat) (req : option IdentityUpdate) (s : sys)
    : result (option sys) :=
  if isPublishDisabled disablePublish cutoverChecker now
  then Err (Status Unavailable "publishing to XMTP V3 is no longer available. Please upgrade your client to XMTP D14N.")
  else match req with
       | None => Err (Plain "IdentityUpdate is required")
       | Some newUpdate => Ok (step (Arrive i newUpdate) s)
       end.

(** What the handler answers once the store's call returns. *)
Definition publishResponse (i : nat) (s : sys) : option (result ()) :=
  match procs s !! i with
  | Some (_, Published) => Some (Ok ())
  | Some (_, Failed e) => Some (Err e)
  | _ => None
  end.

Definition Identity_GetIdentityUpdates (dbErr : option error)
    (req : list GetIdentityUpdatesRequest_Request) (s : sys)
    : result (list (GetIdentityUpdatesResponse_Response (IdentityUpdate := IdentityUpdate))) :=
  GetInboxLogs Unmarshal dbErr req (live s).

(** Inbox ids are read from the read-only replica. *)
Definition Identity_GetInboxIds (dbErr : option error) (req : list string) (replica : Db)
    : result (list GetInboxIdsResponse_Response) := GetInboxIds dbErr req replica.

Definition Identity_VerifySmartContractWalletSignatures {Req Resp : Type}
    (verify : Req → result Resp) (req : Req) : result Resp := verify req.

(** * Reading twice *)

(** The answer for an inbox read later extends the one read earlier with higher sequence ids. *)
Definition extends (r1 r2 : GetIdentityUpdatesResponse_Response (IdentityUpdate := IdentityUpdate)) : Prop :=
  ru_InboxId r1 = ru_InboxId r2 ∧ ru_Updates r1 `prefix_of` ru_Updates r2 ∧
  ascending ru_SequenceId (ru_Updates r2).

Lemma mapErr_prefix {A B} (f : A → result B) l1 l2 r1 r2 :
  l1 `prefix_of` l2 → mapErr f l1 = Ok r1 → mapErr f l2 = Ok r2 → r1 `prefix_of` r2.
Proof.
  intros [k ->] H1 H2. apply mapErr_Ok in H1, H2.
  apply Forall2_app_inv_l in H2 as (r1' & r2' & H1' & _ & ->). exists r2'. f_equal.
  revert r1' H1'. induction H1 as [|a b l r Hf _ IH]; intros r1' H1'; inv H1'; [done|].
  f_equal; [congruence|auto].
Qed.

Lemma updates_ascending rows updates :
  ascending l_SequenceID rows → (∀ r, r ∈ rows → 0 ≤ l_SequenceID r ≤ maxInt64) →
  mapErr (toUpdateLog Unmarshal) (inboxLogsRow <$> rows) = Ok updates →
  ascending ru_SequenceId updates.
Proof.
  intros Ha Hr H. apply mapErr_Ok, Forall2_fmap_l in H.
  assert (Hid : ∀ r u, r ∈ rows → toUpdateLog Unmarshal (inboxLogsRow r) = Ok u → ru_SequenceId u = l_SequenceID r).
  { intros r u Hin E. unfold toUpdateLog in E. destruct (Unmarshal _); [|done]. injection E as <-. simpl.
    apply u64_small. specialize (Hr r Hin). unfold_widths. lia. }
  clear Hr. induction H as [|r u rows updates E H IH]; [constructor|].
  apply ascending_cons in Ha as [Hlt Ha]. apply ascending_cons. split.
  - intros u' [j Hj]%list_elem_of_lookup_1. destruct (Forall2_lookup_r _ _ _ _ _ H Hj) as (r' & Hr' & E').
    apply list_elem_of_lookup_2 in Hr'.
    rewrite (Hid r u), (Hid r' u') by (done || (by left) || (by right)). auto.
  - apply IH; [done|]. intros r' u' Hin. apply Hid. by right.
Qed.

Lemma above_prefix {A} (id : A → Z) c l1 l2 : l1 `prefix_of` l2 → above id c l1 `prefix_of` above id c l2.
Proof. intros [k ->]. unfold above. rewrite filter_app. by eexists. Qed.

(** C13. What the service's comment promises of the inbox log: of two reads of the same inboxes,
    whatever publishes run between and around them, the second has all the updates of the first, in
    the same order, and its new updates have higher sequence ids than every one of the first. *)
Theorem inbox_reads_monotone d before between s1 s2 qs r1 r2 :
  log_keyed d → (∀ id, valid_log Unmarshal Marshal GetAssociationState (protos id d)) →
  exec before (start d) = Some s1 → exec between s1 = Some s2 →
  (∀ r, r ∈ inbox_log (live s2) → 0 ≤ l_SequenceID r ≤ maxInt64) → NoDup qs.*1 →
  let req := (λ q, mkGetIdentityUpdatesRequest_Request (encodeHex q.1) q.2) <$> qs in
  Identity_GetIdentityUpdates None req s1 = Ok r1 → Identity_GetIdentityUpdates None req s2 = Ok r2 →
  Forall2 extends r1 r2.
Proof.
  intros Hd Hv E1 E2 Hids Hqs req H1 H2.
  pose proof (exec_inv _ _ _ _ _ _ _ _ (start_inv GetInboxId Unmarshal Marshal GetAssociationState d Hd Hv) E1) as I1.
  pose proof (exec_inv _ _ _ _ _ _ _ _ I1 E2) as I2.
  unfold Identity_GetIdentityUpdates, req in H1, H2.
  rewrite inbox_logs_batch in H1 by (done || apply I1). rewrite inbox_logs_batch in H2 by (done || apply I2).
  apply mapErr_Ok in H1, H2. clear Hqs req. revert r2 H2.
  induction H1 as [|q a qs r1 Ea _ IH]; intros r2 H2; inv H2; constructor; [|auto]. clear IH.
  match goal with H : _ = Ok ?y |- extends _ ?y => rename H into Eb end.
  pose proof (exec_log_grows _ _ _ _ _ _ _ _ q.1 I1 E2) as Hgrow.
  apply (above_prefix l_SequenceID (i64 q.2)) in Hgrow.
  destruct (mapErr (toUpdateLog Unmarshal) (inboxLogsRow <$> above l_SequenceID (i64 q.2) (inbox_rows q.1 (live s1))))
    as [u1|] eqn:Eu1; [|done].
  destruct (mapErr (toUpdateLog Unmarshal) (inboxLogsRow <$> above l_SequenceID (i64 q.2) (inbox_rows q.1 (live s2))))
    as [u2|] eqn:Eu2; [|done].
  injection Ea as <-. injection Eb as <-. split; [done|]. split; simpl.
  - eapply mapErr_prefix; [|done|done]. destruct Hgrow as [k ->]. rewrite fmap_app. by eexists.
  - eapply updates_ascending; [|intros r Hr|exact Eu2].
    + apply above_ascending, order_by_asc_ascending, fmap_filter_NoDup, I2.
    + apply Hids. apply elem_of_above in Hr as [_ Hr]. unfold inbox_rows in Hr.
      by rewrite order_by_asc_Permutation, list_elem_of_filter in Hr; destruct Hr.
Qed.
End Identity.

(** * A sample: an inbox read between two publishes *)

Definition publishOnce (i : nat) (u : string) : list (label (IdentityUpdate := string)) :=
  [Arrive i u; Begin i; Lock i; Insert i; Commit i 7].

Lemma inbox_reads_monotone_witness :
  ∃ s1 s2 r1 r2, sampleExec (publishOnce 1 "a") (start emptyDb) = Some s1 ∧
    sampleExec (publishOnce 2 "b") s1 = Some s2 ∧
    Identity_GetIdentityUpdates Ok None [mkGetIdentityUpdatesRequest_Request "6162" 0] s1 = Ok r1 ∧
    Identity_GetIdentityUpdates Ok None [mkGetIdentityUpdatesRequest_Request "6162" 0] s2 = Ok r2 ∧
    (length ∘ ru_Updates <$> r1) = [1%nat] ∧ (length ∘ ru_Updates <$> r2) = [2%nat] ∧
    Forall2 extends r1 r2.
Proof.
  destruct (sampleExec (publishOnce 1 "a") (start emptyDb)) as [s1|] eqn:E1; [|by vm_compute in E1].
  destruct (sampleExec (publishOnce 2 "b") s1) as [s2|] eqn:E2; [|by vm_compute in E1; injection E1 as <-; vm_compute in E2].
  destruct (Identity_GetIdentityUpdates Ok None [mkGetIdentityUpdatesRequest_Request "6162" 0] s1) as [r1|] eqn:H1;
    [|by vm_compute in E1; injection E1 as <-; vm_compute in H1].
  destruct (Identity_GetIdentityUpdates Ok None [mkGetIdentityUpdatesRequest_Request "6162" 0] s2) as [r2|] eqn:H2;
    [|by vm_compute in E1; injection E1 as <-; vm_compute in E2; injection E2 as <-; vm_compute in H2].
  exists s1, s2, r1, r2. split_and!; try done.
  - vm_compute in E1. injection E1 as <-. vm_compute in H1. by injection H1 as <-.
  - vm_compute in E1. injection E1 as <-. vm_compute in E2. injection E2 as <-. vm_compute in H2. by injection H2 as <-.
  - refine (inbox_reads_monotone sampleInboxId Ok Ok sampleValidate (λ _, 0) emptyDb (publishOnce 1 "a")
      (publishOnce 2 "b") s1 s2 [("ab", 0)] r1 r2 emptyDb_log_keyed ltac:(constructor) E1 E2 _ _ H1 H2).
    + vm_compute in E1. injection E1 as <-. vm_compute in E2. injection E2 as <-.
      intros r Hr. simpl in Hr. rewrite !elem_of_cons, elem_of_nil in Hr.
      destruct Hr as [->|[->|[]]]; by vm_compute.
    + apply NoDup_singleton.
Defined.

(** After the cutover, or when publishing is disabled, no publisher arrives. *)
Lemma publish_refused {IdentityUpdate} GetInboxId Unmarshal Marshal GetAssociationState hashtext
    disablePublish cutoverChecker now i (req : option IdentityUpdate) s :
  isPublishDisabled disablePublish cutoverChecker now = true →
  Identity_PublishIdentityUpdate GetInboxId Unmarshal Marshal GetAssociationState hashtext
    disablePublish cutoverChecker now i req s
  = Err (Status Unavailable "publishing to XMTP V3 is no longer available. Please upgrade your client to XMTP D14N.").
Proof. intros H. unfold Identity_PublishIdentityUpdate. by rewrite H. Qed.
