(* ===== verification/MessageStore.v ===== *)
(** The store of v1 and v2 envelopes (pkg/store): inserting messages, paged queries by topic and
    time, and the cleaner of expiring messages. sha256 is the Go library's hash, of which nothing
    is assumed; so are what the driver does with a uint64 argument it cannot encode, and the order
    in which PostgreSQL returns the rows of a statement without ORDER BY. *)

From S2P Require Import Prelude Topic MlsDb.

(** * The API's messages (pkg/proto/message_api/v1) *)

(** A proto enum is open: any other number may arrive. *)
Inductive SortDirection :=
  | SORT_DIRECTION_UNSPECIFIED
  | SORT_DIRECTION_ASCENDING
  | SORT_DIRECTION_DESCENDING
  | SORT_DIRECTION_other (n : Z).

Record IndexCursor := mkIndexCursor {
  Digest : option bytes;    (* nil when absent *)
  SenderTimeNs : Z;         (* uint64 *)
}.

(** The cursor's oneof may be unset. *)
Record Cursor := mkCursor { Cursor_Index : option IndexCursor }.

Record PagingInfo := mkPagingInfo {
  Limit : Z;                (* uint32 *)
  PagingInfo_Cursor : option Cursor;
  Direction : SortDirection;
}.

Record QueryRequest := mkQueryRequest {
  ContentTopics : list string;
  StartTimeNs : Z;          (* uint64 *)
  EndTimeNs : Z;            (* uint64 *)
  QueryRequest_PagingInfo : option PagingInfo;
}.

Record QueryResponse := mkQueryResponse {
  Envelopes : list Envelope;
  QueryResponse_PagingInfo : PagingInfo;
}.

#[export] Instance QueryRequest_eta : Eta QueryRequest :=
  λ q, mkQueryRequest (ContentTopics q) (StartTimeNs q) (EndTimeNs q) (QueryRequest_PagingInfo q).

(** * The table *)

(** A row of the message table; its primary key is (senderTimestamp, id, pubsubTopic). *)
Record MessageRow := mkMessageRow {
  m_id : bytes;
  m_receiverTimestamp : Z;
  m_senderTimestamp : Z;
  m_contentTopic : string;
  m_pubsubTopic : string;
  m_payload : bytes;
  m_version : Z;
  m_should_expire : bool;
}.

#[export] Instance MessageRow_eq_dec : EqDecision MessageRow.
Proof. solve_decision. Defined.

Definition maxPageSize : Z := 100.

Definition messageIndex (r : MessageRow) : Z * bytes * string :=
  (m_senderTimestamp r, m_id r, m_pubsubTopic r).

(** [ORDER BY senderTimestamp asc, id asc], and both descending. *)
Definition ts_id_le (a b : MessageRow) : Prop :=
  m_senderTimestamp a < m_senderTimestamp b ∨
  m_senderTimestamp a = m_senderTimestamp b ∧ bytea_le m_id a b.

#[export] Instance ts_id_le_dec : RelDecision ts_id_le.
Proof. intros a b. unfold ts_id_le. apply _. Defined.
#[export] Instance ts_id_ge_dec : RelDecision (flip ts_id_le).
Proof. intros a b. unfold flip. apply _. Defined.

(** Bytes compare by the octets. *)
Definition bytea_lt (a b : bytes) : Prop := String.le a b ∧ a ≠ b.

#[export] Instance bytea_lt_dec : RelDecision bytea_lt.
Proof. intros a b. unfold bytea_lt. apply _. Defined.

(** * Queries *)

Definition getDirection (pagingInfo : option PagingInfo) : SortDirection :=
  match pagingInfo with
  | None => SORT_DIRECTION_DESCENDING
  | Some p => match Direction p with
              | SORT_DIRECTION_UNSPECIFIED => SORT_DIRECTION_DESCENDING
              | d => d
              end
  end.

Definition getPageSize (pagingInfo : option PagingInfo) : Z :=
  match pagingInfo with
  | None => maxPageSize
  | Some p => if bool_decide (Limit p = 0) then maxPageSize else Limit p
  end.

(** A SELECT under construction: its conditions, with the uint64 arguments they carry, its LIMIT
    and its ORDER BY. *)
Record SelectBuilder := mkSelectBuilder {
  sb_where : list (MessageRow → bool);
  sb_args : list Z;
  sb_limit : Z;
  sb_order : SortDirection;
}.

#[export] Instance SelectBuilder_eta : Eta SelectBuilder :=
  λ sb, mkSelectBuilder (sb_where sb) (sb_args sb) (sb_limit sb) (sb_order sb).

(** [sb.Where(cond)] *)
Definition Where (args : list Z) (cond : MessageRow → bool) (sb : SelectBuilder) : SelectBuilder :=
  sb <| sb_where := sb_where sb ++ [cond] |> <| sb_args := sb_args sb ++ args |>.

Definition addLimit (pageSize : Z) (sb : SelectBuilder) : SelectBuilder :=
  sb <| sb_limit := if bool_decide (pageSize = 0) then maxPageSize else pageSize |>.

Definition addSort (direction : SortDirection) (sb : SelectBuilder) : SelectBuilder :=
  sb <| sb_order := direction |>.

Definition buildSqlQueryWithoutCursor (query : QueryRequest) : SelectBuilder :=
  let sb := mkSelectBuilder [] [] 0 SORT_DIRECTION_UNSPECIFIED in
  let sb := if bool_decide (ContentTopics query ≠ [])
    then Where [] (λ r, bool_decide (m_contentTopic r ∈ ContentTopics query)) sb else sb in
  let sb := if bool_decide (StartTimeNs query ≠ 0)
    then Where [StartTimeNs query] (λ r, bool_decide (StartTimeNs query ≤ m_senderTimestamp r)) sb
    else sb in
  let sb := if bool_decide (EndTimeNs query ≠ 0)
    then Where [EndTimeNs query] (λ r, bool_decide (m_senderTimestamp r ≤ EndTimeNs query)) sb
    else sb in
  let sb := addLimit (default 0 (Limit <$> QueryRequest_PagingInfo query)) sb in
  addSort (getDirection (QueryRequest_PagingInfo query)) sb.

(** The condition of the first select, above or below the cursor's time. *)
Definition afterTime (direction : SortDirection) (index : IndexCursor) (sb : SelectBuilder)
    : SelectBuilder :=
  let ts := SenderTimeNs index in
  match direction, Digest index with
  | SORT_DIRECTION_ASCENDING, Some digest =>
      if bool_decide (ts ≠ 0) then Where [ts] (λ r, bool_decide (ts < m_senderTimestamp r)) sb
      else Where [] (λ r, bool_decide (bytea_lt digest (m_id r))) sb
  | SORT_DIRECTION_DESCENDING, Some digest =>
      if bool_decide (ts ≠ 0) then Where [ts] (λ r, bool_decide (m_senderTimestamp r < ts)) sb
      else Where [] (λ r, bool_decide (bytea_lt (m_id r) digest)) sb
  | _, _ => sb
  end.

(** The condition of the second select, at the cursor's time. *)
Definition atTime (direction : SortDirection) (index : IndexCursor) (sb : SelectBuilder)
    : SelectBuilder :=
  let ts := SenderTimeNs index in
  match direction, Digest index with
  | SORT_DIRECTION_ASCENDING, Some digest =>
      if bool_decide (ts ≠ 0)
      then Where [ts] (λ r, bool_decide (m_senderTimestamp r = ts ∧ bytea_lt digest (m_id r))) sb
      else Where [] (λ r, bool_decide (bytea_lt digest (m_id r))) sb
  | SORT_DIRECTION_DESCENDING, Some digest =>
      if bool_decide (ts ≠ 0)
      then Where [ts] (λ r, bool_decide (m_senderTimestamp r = ts ∧ bytea_lt (m_id r) digest)) sb
      else Where [] (λ r, bool_decide (bytea_lt (m_id r) digest)) sb
  | _, _ => sb
  end.

Inductive Sql :=
  | Select (sb : SelectBuilder)
  | Union (sb1 sb2 : SelectBuilder) (limit : Z) (order : SortDirection).

(** [None] is a nil dereference: a cursor without its index, in a direction that reads it. *)
Definition buildSqlQuery (query : QueryRequest) : option Sql :=
  let pagingInfo := QueryRequest_PagingInfo query in
  let direction := getDirection pagingInfo in
  match pagingInfo ≫= PagingInfo_Cursor with
  | None => Some (Select (buildSqlQueryWithoutCursor query))
  | Some cursor =>
      let sb := buildSqlQueryWithoutCursor query in
      match direction, Cursor_Index cursor with
      | (SORT_DIRECTION_ASCENDING | SORT_DIRECTION_DESCENDING), None => None
      | _, None => Some (Union sb sb (getPageSize pagingInfo) direction)
      | _, Some index =>
          Some (Union (afterTime direction index sb) (atTime direction index sb)
                  (getPageSize pagingInfo) direction)
      end
  end.

(** A negative BIGINT does not scan into a uint64. *)
Definition scanError : error :=
  Plain "sql: Scan error: converting driver.Value type int64 to a uint64: invalid syntax".

Definition rowsToEnvelopes (rows : list MessageRow) : result (list Envelope) :=
  mapErr (λ r, if bool_decide (m_senderTimestamp r < 0) then Err scanError
               else Ok (mkEnvelope (m_contentTopic r) (m_senderTimestamp r) (m_payload r))) rows.

Section Store.
Context (sha256 : bytes → bytes).
(** The error the driver gives for a uint64 argument, if any. *)
Context (argErr : Z → option error).
(** The rows of a table in the order a scan meets them. *)
Context (scan : list MessageRow → list MessageRow).

Definition computeDigest (env : Envelope) : bytes := sha256 (ContentTopic env +:+ Message env).

Definition orderBy (order : SortDirection) (rows : list MessageRow) : list MessageRow :=
  match order with
  | SORT_DIRECTION_DESCENDING => merge_sort (flip ts_id_le) rows
  | SORT_DIRECTION_ASCENDING => merge_sort ts_id_le rows
  | _ => scan rows
  end.

Definition selectRows (sb : SelectBuilder) (message : list MessageRow) : list MessageRow :=
  LIMIT (sb_limit sb) (orderBy (sb_order sb) (filter (λ r, forallb (λ c, c r) (sb_where sb)) message)).

(** UNION drops the duplicates of its two selects. *)
Definition runSql (sql : Sql) (message : list MessageRow) : list MessageRow :=
  match sql with
  | Select sb => selectRows sb message
  | Union sb1 sb2 limit order =>
      LIMIT limit (orderBy order (remove_dups (selectRows sb1 message ++ selectRows sb2 message)))
  end.

Definition sqlArgs (sql : Sql) : list Z :=
  match sql with
  | Select sb => sb_args sb
  | Union sb1 sb2 _ _ => sb_args sb1 ++ sb_args sb2
  end.

Definition buildCursor (env : Envelope) : Cursor :=
  mkCursor (Some (mkIndexCursor (Some (computeDigest env)) (TimestampNs env))).

Definition findNextCursor (envs : list Envelope) : option Cursor := buildCursor <$> last envs.

Definition buildPagingInfo (envs : list Envelope) (pagingInfo : option PagingInfo) : PagingInfo :=
  let currentPageSize := getPageSize pagingInfo in
  let newPageSize := Z.min currentPageSize maxPageSize in
  let direction := getDirection pagingInfo in
  if bool_decide (Z.of_nat (length envs) < currentPageSize) then mkPagingInfo 0 None direction
  else mkPagingInfo (u32 newPageSize) (findNextCursor envs) direction.

Definition buildResponse (rows : list MessageRow) (query : QueryRequest) : result QueryResponse :=
  envs ← rowsToEnvelopes rows;
  Ok (mkQueryResponse envs (buildPagingInfo envs (QueryRequest_PagingInfo query))).

(** The query: [None] when it crashes. *)
Definition Query (dbErr : option error) (query : QueryRequest) (message : list MessageRow)
    : option (result QueryResponse) :=
  sql ← buildSqlQuery query;
  Some match list_find (λ z, is_Some (argErr z)) (sqlArgs sql), dbErr with
       | Some (_, z), _ => Err (default scanError (argErr z))
       | None, Some e => Err e
       | None, None => buildResponse (runSql sql message) query
       end.

(** * Inserting *)

Definition isXMTP (topic : string) : bool := HasPrefix topic "/xmtp/".

(** A statement's failure: an integrity violation or any other error. *)
Definition bigintOutOfRange : error := Plain "bigint out of range".

Inductive execError := IntegrityViolation | ExecError (e : error).

Definition insertMessage (dbErr : option error) (env : Envelope) (receiverTimestamp : Z)
    (message : list MessageRow) : option execError * list MessageRow :=
  let row := mkMessageRow (computeDigest env) receiverTimestamp (TimestampNs env)
               (ContentTopic env) "" (Message env) 0 (negb (isXMTP (ContentTopic env))) in
  match argErr (TimestampNs env), dbErr with
  | Some e, _ | None, Some e => (Some (ExecError e), message)
  | None, None =>
      if bool_decide (maxInt64 < TimestampNs env) then (Some (ExecError bigintOutOfRange), message)
      else if bool_decide (messageIndex row ∈ messageIndex <$> message)
      then (Some IntegrityViolation, message)
      else (None, message ++ [row])
  end.

Definition InsertMessage (dbErr : option error) (now : Z) (env : Envelope)
    (message : list MessageRow) : result bool * list MessageRow :=
  match insertMessage dbErr env now message with
  | (Some IntegrityViolation, message) => (Ok false, message)
  | (Some (ExecError e), message) => (Err e, message)
  | (None, message) => (Ok true, message)
  end.

(** * The cleaner *)

Record CleanerOptions := mkCleanerOptions {
  ActivePeriod : Z;
  PassivePeriod : Z;
  RetentionDays : Z;
  BatchSize : Z;
}.

Definition expiring (timestampThreshold : Z) (r : MessageRow) : bool :=
  bool_decide (m_receiverTimestamp r < timestampThreshold) && m_should_expire r.

(** What a batch's two statements meet: their failures and the rows other transactions hold. *)
Record cleanerEnv := mkCleanerEnv {
  ce_countErr : option error;
  ce_deleteErr : option error;
  ce_locked : MessageRow → bool;
}.

Definition deleteNonXMTPMessagesBatch (options : CleanerOptions) (env : cleanerEnv) (now : Z)
    (message : list MessageRow) : result Z * list MessageRow :=
  let day := i64 (i64 (RetentionDays options * -1) * 24 * 3600000000000) in
  let timestampThreshold := i64 (now + day) in
  match ce_countErr env with
  | Some e => (Err e, message)
  | None =>
      let count := Z.of_nat (length (filter (expiring timestampThreshold) message)) in
      if bool_decide (count < BatchSize options) then (Ok 0, message)
      else match ce_deleteErr env with
           | Some e => (Err e, message)
           | None =>
               let msg := LIMIT (BatchSize options)
                 (filter (λ r, negb (ce_locked env r))
                    (filter (expiring timestampThreshold) (scan message))) in
               (Ok (Z.of_nat (length (filter (λ r, r ∈ msg) message))),
                filter (λ r, r ∉ msg) message)
           end
  end.

(** The loop's pause after a batch; a failed batch counts nothing. *)
Definition cleanerPause (options : CleanerOptions) (deleted : result Z) : Z :=
  let count := match deleted with Ok n => n | Err _ => 0 end in
  if bool_decide (i64 (BatchSize options - 10) ≤ count) then ActivePeriod options
  else PassivePeriod options.
End Store.

(** * Sorted pages *)

(** What a sort by time and id sees of a row. *)
Definition sortKey (r : MessageRow) : Z * bytes := (m_senderTimestamp r, m_id r).

#[export] Instance ts_id_le_total : Total ts_id_le.
Proof.
  intros a b. unfold ts_id_le, bytea_le. destruct (Z.lt_trichotomy (m_senderTimestamp a) (m_senderTimestamp b))
    as [?|[E|?]]; [by left; left| |by right; left].
  destruct (total String.le (m_id a) (m_id b)); [left|right]; by right.
Qed.

#[export] Instance ts_id_le_trans : Transitive ts_id_le.
Proof.
  intros a b c [H1|[E1 H1]] [H2|[E2 H2]]; unfold ts_id_le; [left; lia..|right].
  split; [lia|]. unfold bytea_le in *. by etrans.
Qed.

#[export] Instance ts_id_ge_total : Total (flip ts_id_le).
Proof. intros a b. unfold flip. destruct (total ts_id_le a b); auto. Qed.
#[export] Instance ts_id_ge_trans : Transitive (flip ts_id_le).
Proof. intros a b c ? ?. unfold flip in *. by etrans. Qed.

Lemma ts_id_le_antisym a b : ts_id_le a b → ts_id_le b a → sortKey a = sortKey b.
Proof.
  intros [H1|[E1 H1]] [H2|[E2 H2]]; [lia..|]. unfold sortKey. rewrite E1. f_equal.
  by apply (anti_symm String.le).
Qed.

Section SortedPages.
Context (le : relation MessageRow) `{!RelDecision le, !Total le, !Transitive le}.
Hypothesis le_antisym : ∀ a b, le a b → le b a → sortKey a = sortKey b.

(** Strictly after, in the order. *)
Definition beyond (c r : MessageRow) : Prop := le c r ∧ sortKey c ≠ sortKey r.

#[export] Instance beyond_dec c r : Decision (beyond c r).
Proof using RelDecision0. unfold beyond. apply _. Defined.

Lemma sorted_unique l1 l2 :
  NoDup (sortKey <$> l1) → StronglySorted le l1 → StronglySorted le l2 → l1 ≡ₚ l2 → l1 = l2.
Proof.
  intros Hd H1 H2 E. apply (StronglySorted_unique_strong le); [|done..].
  intros a b Ha Hb Hab Hba. rewrite <- E in Hb.
  by apply (NoDup_fmap_fst_inj sortKey l1); auto.
Qed.

Lemma sort_sorted l : StronglySorted le (merge_sort le l).
Proof. apply StronglySorted_merge_sort; apply _. Qed.

Lemma sort_keys l : NoDup (sortKey <$> l) → NoDup (sortKey <$> merge_sort le l).
Proof. by rewrite merge_sort_Permutation. Qed.

(** Sorting commutes with selecting. *)
Lemma sort_filter (P : MessageRow → Prop) `{∀ r, Decision (P r)} l :
  NoDup (sortKey <$> l) → merge_sort le (filter P l) = filter P (merge_sort le l).
Proof.
  intros Hd. apply sorted_unique.
  - apply sort_keys. by apply fmap_filter_NoDup.
  - apply sort_sorted.
  - apply sorted_filter, sort_sorted.
  - by rewrite !merge_sort_Permutation.
Qed.

(** The rows beyond a page's last row are what the page left. *)
Lemma rest_of_page n l c :
  NoDup (sortKey <$> l) → StronglySorted le l → last (take n l) = Some c →
  filter (beyond c) l = drop n l.
Proof.
  intros Hd Hs [l1 E]%last_Some. pose proof (take_drop n l) as El. rewrite E in El.
  rewrite <- El in Hd, Hs. rewrite <- El at 1. clear El E. generalize dependent (drop n l). intros l2 Hd Hs.
  rewrite fmap_app, NoDup_app in Hd. destruct Hd as (_ & Hd & _).
  rewrite filter_app, filter_drop_all, filter_keep; [done| |].
  - intros r Hr. split.
    + apply (StronglySorted_app_1_elem_of _ _ _ c r Hs); [set_solver|done].
    + intros E. apply (Hd (sortKey c)); [apply list_elem_of_fmap_2; set_solver|].
      rewrite E. by apply list_elem_of_fmap_2.
  - intros r Hr [Hle Hne]. apply Hne, le_antisym; [done|].
    apply elem_of_app in Hr as [Hr|Hr].
    + apply StronglySorted_app_1_l in Hs. apply (StronglySorted_app_1_elem_of _ _ _ r c Hs); set_solver.
    + apply list_elem_of_singleton in Hr as ->. by destruct Hne.
Qed.

Lemma remove_dups_NoDup (l : list MessageRow) : NoDup l → remove_dups l = l.
Proof. induction 1 as [|a l Ha _ IH]; [done|]. simpl. case_decide; [done|by rewrite IH]. Qed.

Lemma take_both {A} n (k l : list A) : take n (take n k ++ take n l) = take n (k ++ l).
Proof.
  rewrite !take_app, !take_take, length_take. f_equal; f_equal; lia.
Qed.

Lemma sorted_sublist (k l : list MessageRow) :
  k `sublist_of` l → StronglySorted le l → StronglySorted le k.
Proof.
  intros Hk. induction Hk as [|x k l Hk IH|x k l Hk IH]; intros Hl; inv Hl; auto; try constructor; auto.
  rewrite Forall_forall in *. intros y Hy. eauto using elem_of_sublist.
Qed.

Lemma filter_or (P1 P2 : MessageRow → Prop) `{∀ r, Decision (P1 r), ∀ r, Decision (P2 r)} l :
  (∀ a, P1 a → ¬ P2 a) → filter P2 l ++ filter P1 l ≡ₚ filter (λ r, P1 r ∨ P2 r) l.
Proof.
  intros Hdisj. induction l as [|a l IH]; [done|]. rewrite !filter_cons.
  destruct (decide (P1 a)) as [H1|H1], (decide (P2 a)) as [H2|H2].
  - by destruct (Hdisj a).
  - rewrite decide_True by auto. by rewrite <- IH, Permutation_middle.
  - rewrite decide_True by auto. by rewrite <- IH.
  - by rewrite decide_False by tauto.
Qed.

(** Two limited selects whose rows do not overlap, the second's all before the first's, make the
    page of their union. *)
Lemma union_page (P1 P2 : MessageRow → Prop) `{∀ r, Decision (P1 r), ∀ r, Decision (P2 r)} n l :
  NoDup (sortKey <$> l) → (∀ a b, P2 a → P1 b → le a b) → (∀ a, P1 a → ¬ P2 a) →
  take n (merge_sort le (remove_dups
    (take n (merge_sort le (filter P1 l)) ++ take n (merge_sort le (filter P2 l)))))
  = take n (filter (λ r, P1 r ∨ P2 r) (merge_sort le l)).
Proof.
  intros Hd Hle Hdisj. pose proof (sort_keys l Hd) as Hd'. pose proof (sort_sorted l) as Hs.
  rewrite !sort_filter by done. generalize dependent (merge_sort le l). intros S Hd' Hs. clear l Hd.
  assert (Hboth : filter P2 S ++ filter P1 S = filter (λ r, P1 r ∨ P2 r) S).
  { apply sorted_unique; [|apply StronglySorted_app_2; [|by apply sorted_filter..]|by apply sorted_filter|
      by apply filter_or].
    - rewrite filter_or by done. by apply fmap_filter_NoDup.
    - intros a b [? _]%list_elem_of_filter [? _]%list_elem_of_filter. auto. }
  rewrite <- Hboth, <- take_both.
  assert (Hsub : take n (filter P2 S) ++ take n (filter P1 S) `sublist_of` filter P2 S ++ filter P1 S).
  { apply sublist_app; apply sublist_take. }
  rewrite Hboth in Hsub.
  assert (Hkeys : NoDup (sortKey <$> take n (filter P2 S) ++ take n (filter P1 S))).
  { eapply sublist_NoDup; [|by apply fmap_sublist]. by apply fmap_filter_NoDup. }
  assert (Hperm : remove_dups (take n (filter P1 S) ++ take n (filter P2 S))
    ≡ₚ take n (filter P2 S) ++ take n (filter P1 S)).
  { rewrite remove_dups_NoDup; [apply Permutation_app_comm|].
    rewrite Permutation_app_comm. by eapply NoDup_fmap_1. }
  apply (f_equal (take n)), sorted_unique; [|apply sort_sorted|exact (sorted_sublist _ _ Hsub (sorted_filter _ _ _ Hs))|].
  - apply sort_keys. by rewrite Hperm.
  - by rewrite merge_sort_Permutation.
Qed.
End SortedPages.

(** * What a query asks for *)

Definition matching (query : QueryRequest) (r : MessageRow) : Prop :=
  (ContentTopics query = [] ∨ m_contentTopic r ∈ ContentTopics query) ∧
  (StartTimeNs query = 0 ∨ StartTimeNs query ≤ m_senderTimestamp r) ∧
  (EndTimeNs query = 0 ∨ m_senderTimestamp r ≤ EndTimeNs query).

#[export] Instance matching_dec query r : Decision (matching query r).
Proof. unfold matching. apply _. Defined.

(** The order of a request: by default the newest come first. *)
Definition dirLe (direction : SortDirection) : relation MessageRow :=
  match direction with SORT_DIRECTION_ASCENDING => ts_id_le | _ => flip ts_id_le end.

#[export] Instance dirLe_dec direction : RelDecision (dirLe direction) :=
  match direction with SORT_DIRECTION_ASCENDING => ts_id_le_dec | _ => ts_id_ge_dec end.
#[export] Instance dirLe_total direction : Total (dirLe direction).
Proof. destruct direction; apply _. Qed.
#[export] Instance dirLe_trans direction : Transitive (dirLe direction).
Proof. destruct direction; apply _. Qed.

Lemma dirLe_antisym direction a b :
  dirLe direction a b → dirLe direction b a → sortKey a = sortKey b.
Proof. destruct direction; unfold dirLe, flip; eauto using ts_id_le_antisym. Qed.

(** All the matching rows, in the order of the request. *)
Definition answerOf (query : QueryRequest) (message : list MessageRow) : list MessageRow :=
  merge_sort (dirLe (getDirection (QueryRequest_PagingInfo query)))
    (filter (matching query) message).

(** What is left of them after the row a cursor points at. *)
Definition windowAt (query : QueryRequest) (message : list MessageRow) (c : option MessageRow)
    : list MessageRow :=
  match c with
  | None => answerOf query message
  | Some c => filter (beyond (dirLe (getDirection (QueryRequest_PagingInfo query))) c)
                (answerOf query message)
  end.

Definition toEnvelope (r : MessageRow) : Envelope :=
  mkEnvelope (m_contentTopic r) (m_senderTimestamp r) (m_payload r).

Lemma base_where query r :
  Is_true (forallb (λ c, c r) (sb_where (buildSqlQueryWithoutCursor query))) ↔ matching query r.
Proof.
  unfold buildSqlQueryWithoutCursor, matching, addSort, addLimit, Where. simpl.
  repeat (case_bool_decide; simpl); rewrite ?andb_True, ?bool_decide_spec; simpl; tauto.
Qed.

Lemma base_builder query :
  sb_limit (buildSqlQueryWithoutCursor query) = getPageSize (QueryRequest_PagingInfo query) ∧
  sb_order (buildSqlQueryWithoutCursor query) = getDirection (QueryRequest_PagingInfo query).
Proof. split; [|done]. unfold buildSqlQueryWithoutCursor, getPageSize. simpl. by destruct (QueryRequest_PagingInfo query). Qed.

Lemma base_args query z :
  z ∈ sb_args (buildSqlQueryWithoutCursor query) → z = StartTimeNs query ∨ z = EndTimeNs query.
Proof.
  unfold buildSqlQueryWithoutCursor, addSort, addLimit, Where. simpl.
  repeat case_bool_decide; simpl; set_solver.
Qed.

Lemma rowsToEnvelopes_ok rows :
  (∀ r, r ∈ rows → 0 ≤ m_senderTimestamp r) → rowsToEnvelopes rows = Ok (toEnvelope <$> rows).
Proof.
  intros Hr. apply mapErr_Ok, Forall2_fmap_r, Forall_Forall2_diag, Forall_forall. intros r Hin.
  simpl. by rewrite bool_decide_false by (specialize (Hr r Hin); lia).
Qed.

Section Paging.
Context (sha256 : bytes → bytes) (argErr : Z → option error).
Context (scan : list MessageRow → list MessageRow).

(** What the inserts keep of the table. *)
Record stored (message : list MessageRow) : Prop := {
  st_key : NoDup (sortKey <$> message);
  st_row : ∀ r, r ∈ message → m_id r = sha256 (m_contentTopic r +:+ m_payload r) ∧
    m_pubsubTopic r = "" ∧ 0 ≤ m_senderTimestamp r ≤ maxInt64 ∧
    m_should_expire r = negb (isXMTP (m_contentTopic r));
}.

Section Direction.
Context (le : relation MessageRow) `{!RelDecision le, !Total le, !Transitive le}.
Hypothesis le_antisym : ∀ a b, le a b → le b a → sortKey a = sortKey b.
Context (query : QueryRequest) (message : list MessageRow) (direction : SortDirection).
Hypothesis Hmessage : stored message.
Hypothesis Hdir : getDirection (QueryRequest_PagingInfo query) = direction.
Hypothesis Hle : ∀ rows, orderBy scan direction rows = merge_sort le rows.

Local Abbreviation rows := (merge_sort le (filter (matching query) message)).
Local Abbreviation n := (getPageSize (QueryRequest_PagingInfo query)).

Lemma base_rows : selectRows scan (buildSqlQueryWithoutCursor query) message = LIMIT n rows.
Proof.
  unfold selectRows. destruct (base_builder query) as [-> ->]. rewrite Hdir, Hle. f_equal. f_equal.
  apply list_filter_iff. intros r. apply base_where.
Qed.

Lemma where_rows args (cond : MessageRow → bool) :
  selectRows scan (Where args cond (buildSqlQueryWithoutCursor query)) message
  = LIMIT n (merge_sort le (filter (λ r, Is_true (cond r)) (filter (matching query) message))).
Proof.
  destruct (base_builder query) as [H1 H2]. pose proof (base_where query) as H3.
  generalize dependent (buildSqlQueryWithoutCursor query). intros sb H1 H2 H3.
  unfold selectRows, Where. simpl. rewrite H1, H2, Hdir, Hle. f_equal. f_equal.
  rewrite list_filter_filter. apply list_filter_iff. intros r.
  rewrite forallb_app, andb_True, H3. simpl. rewrite andb_True. simpl. tauto.
Qed.

(** The page after a row: the union of the two selects. *)
Lemma cursor_rows c args1 args2 (cond1 cond2 : MessageRow → bool) :
  (∀ r, beyond le c r ↔ cond1 r ∨ cond2 r) → (∀ r, cond1 r → ¬ cond2 r) →
  (∀ a b, cond2 a → cond1 b → le a b) →
  runSql scan (Union (Where args1 cond1 (buildSqlQueryWithoutCursor query))
    (Where args2 cond2 (buildSqlQueryWithoutCursor query)) n direction) message
  = LIMIT n (filter (beyond le c) rows).
Proof.
  intros Hbeyond Hdisj Hbefore. unfold runSql. rewrite !where_rows, Hle. unfold LIMIT.
  rewrite union_page by (done || apply fmap_filter_NoDup, Hmessage).
  f_equal. apply list_filter_iff. intros r. by rewrite Hbeyond.
Qed.
End Direction.

Definition known (direction : SortDirection) : Prop :=
  direction = SORT_DIRECTION_ASCENDING ∨ direction = SORT_DIRECTION_DESCENDING.

Definition cursorOf (r : MessageRow) : Cursor :=
  mkCursor (Some (mkIndexCursor (Some (m_id r)) (m_senderTimestamp r))).

(** The two selects a cursor makes: their conditions are exclusive, in order, and together say
    that a row is beyond the cursor's. *)
Lemma cursor_builders direction c :
  known direction → m_senderTimestamp c ≠ 0 →
  ∃ cond1 cond2 : MessageRow → bool,
    (∀ sb, afterTime direction (mkIndexCursor (Some (m_id c)) (m_senderTimestamp c)) sb
      = Where [m_senderTimestamp c] cond1 sb) ∧
    (∀ sb, atTime direction (mkIndexCursor (Some (m_id c)) (m_senderTimestamp c)) sb
      = Where [m_senderTimestamp c] cond2 sb) ∧
    (∀ r, beyond (dirLe direction) c r ↔ cond1 r ∨ cond2 r) ∧ (∀ r, cond1 r → ¬ cond2 r) ∧
    (∀ a b, cond2 a → cond1 b → dirLe direction a b).
Proof.
  intros Hk Hz. destruct Hk as [->| ->]; do 2 eexists;
    (split; [intros sb; unfold afterTime; simpl; by rewrite bool_decide_true|]);
    (split; [intros sb; unfold atTime; simpl; by rewrite bool_decide_true|]);
    unfold beyond, dirLe, flip, ts_id_le, bytea_lt, bytea_le, sortKey; simpl;
    (split_and!; [intros r|intros r|intros a b]; rewrite !bool_decide_spec).
  - split.
    + intros [[?|[E ?]] Hne]; [by left|right]. split_and!; [done|done|congruence].
    + intros [?|(E & ? & ?)]; (split; [auto|intros [=]; lia || congruence]).
  - intros ? [? _]. lia.
  - intros [? _] ?. left. lia.
  - split.
    + intros [[?|[E ?]] Hne]; [by left|right]. split_and!; [done|done|congruence].
    + intros [?|(E & ? & ?)]; (split; [auto|intros [=]; lia || congruence]).
  - intros ? [? _]. lia.
  - intros [? _] ?. left. lia.
Qed.

(** The statement of a query whose cursor points at a row, and what it reads. *)
Lemma query_rows query message c :
  stored message → known (getDirection (QueryRequest_PagingInfo query)) →
  QueryRequest_PagingInfo query ≫= PagingInfo_Cursor = cursorOf <$> c →
  (∀ r, c = Some r → m_senderTimestamp r ≠ 0) →
  ∃ sql, buildSqlQuery query = Some sql ∧
    runSql scan sql message = LIMIT (getPageSize (QueryRequest_PagingInfo query)) (windowAt query message c) ∧
    ∀ z, z ∈ sqlArgs sql → z = StartTimeNs query ∨ z = EndTimeNs query ∨
      ∃ r, c = Some r ∧ z = m_senderTimestamp r.
Proof.
  intros Hm Hk Hc Hz. unfold buildSqlQuery. rewrite Hc. pose proof (base_args query) as Hargs.
  assert (Hle : ∀ rows, orderBy scan (getDirection (QueryRequest_PagingInfo query)) rows
    = merge_sort (dirLe (getDirection (QueryRequest_PagingInfo query))) rows) by (by destruct Hk as [->| ->]).
  destruct c as [c|]; [|eexists; split; [reflexivity|split; [by eapply base_rows|set_solver]]].
  destruct (cursor_builders _ c Hk (Hz c eq_refl)) as (cond1 & cond2 & E1 & E2 & Hb & Hd & Ho).
  set (index := mkIndexCursor (Some (m_id c)) (m_senderTimestamp c)).
  exists (Union
    (afterTime (getDirection (QueryRequest_PagingInfo query)) index (buildSqlQueryWithoutCursor query))
    (atTime (getDirection (QueryRequest_PagingInfo query)) index (buildSqlQueryWithoutCursor query))
    (getPageSize (QueryRequest_PagingInfo query)) (getDirection (QueryRequest_PagingInfo query))).
  split; [by destruct Hk as [->| ->]|]. unfold index. rewrite E1, E2. split.
  - eapply cursor_rows; first [done|exact (dirLe_antisym _)|apply _].
  - unfold sqlArgs, Where. simpl. intros z. rewrite !elem_of_app, !list_elem_of_singleton.
    intros [[[?|?]%Hargs|?]|[[?|?]%Hargs|?]]; eauto 6.
Qed.
Lemma dirLe_key direction r a b :
  sortKey a = sortKey b → dirLe direction r a → dirLe direction r b.
Proof.
  unfold sortKey. intros [= E1 E2]. unfold dirLe, flip, ts_id_le, bytea_le.
  destruct direction; rewrite E1, E2; done.
Qed.

Lemma beyond_trans direction a b c :
  beyond (dirLe direction) a b → beyond (dirLe direction) b c → beyond (dirLe direction) a c.
Proof.
  intros [H1 N1] [H2 N2]. split; [by etrans|]. intros E. apply N1, (dirLe_antisym direction); [done|].
  by apply (dirLe_key _ _ c).
Qed.

Lemma answer_elem query message r : r ∈ answerOf query message ↔ matching query r ∧ r ∈ message.
Proof. unfold answerOf. by rewrite merge_sort_Permutation, list_elem_of_filter. Qed.

Lemma windowAt_elem query message c r :
  r ∈ windowAt query message c → matching query r ∧ r ∈ message.
Proof.
  destruct c; simpl; [rewrite list_elem_of_filter; intros [_ H]; revert H|]; apply answer_elem.
Qed.

(** The window at a page's last row is what the page left of its own window. *)
Lemma windowAt_next query message c n r :
  stored message → last (take n (windowAt query message c)) = Some r →
  windowAt query message (Some r) = drop n (windowAt query message c).
Proof.
  intros Hm Hl. set (dir := getDirection (QueryRequest_PagingInfo query)).
  assert (Hk : NoDup (sortKey <$> answerOf query message)).
  { apply sort_keys, fmap_filter_NoDup, Hm. }
  assert (Hs : StronglySorted (dirLe dir) (answerOf query message)) by (apply sort_sorted; apply _).
  destruct c as [c|]; simpl in *; fold dir in Hl |- *.
  - rewrite <- (rest_of_page (dirLe dir) (dirLe_antisym dir) n _ r); [|by apply fmap_filter_NoDup|
      by apply sorted_filter|done].
    rewrite list_filter_filter_l; [done|]. intros x Hx. eapply beyond_trans; [|done].
    apply last_Some_elem_of, elem_of_take in Hl as (i & Hi & _).
    by apply list_elem_of_lookup_2, list_elem_of_filter in Hi as [? _].
  - by apply (rest_of_page (dirLe dir) (dirLe_antisym dir)).
Qed.

(** What a client gets that follows the paging information of each answer. *)
Fixpoint followPages (fuel : nat) (query : QueryRequest) (message : list MessageRow)
    : option (list Envelope) :=
  match fuel with
  | O => None
  | S fuel =>
      match Query sha256 argErr scan None query message with
      | Some (Ok res) =>
          let next := QueryResponse_PagingInfo res in
          match PagingInfo_Cursor next with
          | None => Some (Envelopes res)
          | Some _ => rest ← followPages fuel (query <| QueryRequest_PagingInfo := Some next |>) message;
                      Some (Envelopes res ++ rest)
          end
      | _ => None
      end
  end.

(** A request the driver can encode, on rows that are not at the epoch's first nanosecond. *)
Record followable (query : QueryRequest) (message : list MessageRow) : Prop := {
  fo_direction : known (getDirection (QueryRequest_PagingInfo query));
  fo_args : argErr (StartTimeNs query) = None ∧ argErr (EndTimeNs query) = None;
  fo_times : ∀ r, matching query r → r ∈ message →
    0 < m_senderTimestamp r ∧ argErr (m_senderTimestamp r) = None;
}.

Lemma query_answers query message c :
  stored message → followable query message →
  QueryRequest_PagingInfo query ≫= PagingInfo_Cursor = cursorOf <$> c →
  (∀ r, c = Some r → matching query r ∧ r ∈ message) →
  let envs := toEnvelope <$> LIMIT (getPageSize (QueryRequest_PagingInfo query)) (windowAt query message c) in
  Query sha256 argErr scan None query message
  = Some (Ok (mkQueryResponse envs (buildPagingInfo sha256 envs (QueryRequest_PagingInfo query)))).
Proof.
  intros Hm [Hk [Ha1 Ha2] Ht] Hc Hr. unfold Query.
  destruct (query_rows query message c Hm Hk Hc) as (sql & -> & Hrows & Hargs).
  { intros r E. destruct (Hr r E) as [? Hin]. specialize (Ht r). intuition lia. }
  simpl. destruct (list_find _ _) as [[i z]|] eqn:Ef.
  - apply list_find_Some in Ef as (Hz & He & _). apply list_elem_of_lookup_2, Hargs in Hz.
    destruct Hz as [->|[->|(r & E & ->)]]; [by rewrite Ha1 in He; destruct He|by rewrite Ha2 in He; destruct He|].
    destruct (Hr r E) as [? Hin]. destruct (Ht r) as [_ Hn]; [done..|]. rewrite Hn in He. by destruct He.
  - unfold buildResponse. rewrite Hrows, rowsToEnvelopes_ok; [done|].
    intros r (i & Hi%list_elem_of_lookup_2 & _)%elem_of_take. apply windowAt_elem in Hi as [? Hin].
    apply Hm in Hin as (_ & _ & ? & _). lia.
Qed.
Lemma cursor_of_row message r :
  stored message → r ∈ message → buildCursor sha256 (toEnvelope r) = cursorOf r.
Proof. intros Hm Hr. apply Hm in Hr as [E _]. unfold buildCursor, computeDigest, cursorOf. by rewrite E. Qed.

(** The next request asks for the same rows, in the same order. *)
Lemma next_query query message limit cursor :
  followable query message →
  let query' := query <| QueryRequest_PagingInfo :=
    Some (mkPagingInfo limit cursor (getDirection (QueryRequest_PagingInfo query))) |> in
  followable query' message ∧ ∀ c, windowAt query' message c = windowAt query message c.
Proof.
  intros [Hk Ha Ht] query'.
  assert (Hd : getDirection (QueryRequest_PagingInfo query') = getDirection (QueryRequest_PagingInfo query)).
  { simpl. by destruct Hk as [->| ->]. }
  split; [split; [by rewrite Hd|done|done]|]. intros c. unfold windowAt, answerOf. by rewrite Hd.
Qed.

Lemma follow_window fuel query message c :
  stored message → followable query message →
  QueryRequest_PagingInfo query ≫= PagingInfo_Cursor = cursorOf <$> c →
  (∀ r, c = Some r → matching query r ∧ r ∈ message) →
  1 ≤ getPageSize (QueryRequest_PagingInfo query) →
  (length (windowAt query message c) < fuel)%nat →
  followPages fuel query message = Some (toEnvelope <$> windowAt query message c).
Proof.
  revert query c. induction fuel as [|fuel IH]; intros query c Hm Hf Hc Hr Hn Hfuel; [lia|]. cbn [followPages].
  rewrite (query_answers query message c) by done. unfold buildPagingInfo, findNextCursor, LIMIT.
  set (n := getPageSize (QueryRequest_PagingInfo query)) in *.
  set (w := windowAt query message c) in *. simpl. rewrite length_fmap, length_take.
  case_bool_decide as Hlen; simpl.
  { f_equal. f_equal. rewrite take_ge; [done|lia]. }
  destruct (last (take (Z.to_nat n) w)) as [r|] eqn:El; last first.
  { apply last_None in El. apply (f_equal length) in El. rewrite length_take in El. simpl in El. lia. }
  assert (Hin : matching query r ∧ r ∈ message).
  { apply last_Some_elem_of, elem_of_take in El as (i & Hi & _). apply list_elem_of_lookup_2 in Hi.
    by apply windowAt_elem in Hi. }
  rewrite fmap_last, El. simpl. rewrite (cursor_of_row message) by tauto.
  pose proof (windowAt_next query message c (Z.to_nat n) r Hm El) as Hnext. fold w in Hnext.
  set (limit := u32 _). destruct (next_query query message limit (Some (cursorOf r)) Hf) as [Hf' Hw'].
  simpl in Hf', Hw'.
  rewrite (IH _ (Some r)); [|done|done|done|by intros ? [= <-]| |].
  - rewrite Hw', Hnext. simpl. by rewrite <- fmap_app, take_drop.
  - unfold getPageSize, limit. simpl. unfold u32, wrapU, maxPageSize in *. case_bool_decide; [lia|].
    rewrite Z.mod_small; [lia|]. change (2 ^ 32) with 4294967296. lia.
  - rewrite Hw', Hnext, length_drop. lia.
Qed.
(** * Runs of the store *)

Inductive storeOp :=
  | OpInsert (dbErr : option error) (now : Z) (env : Envelope)
  | OpClean (options : CleanerOptions) (env : cleanerEnv) (now : Z).

Definition storeStep (op : storeOp) (message : list MessageRow) : list MessageRow :=
  match op with
  | OpInsert dbErr now env => (InsertMessage sha256 argErr dbErr now env message).2
  | OpClean options env now => (deleteNonXMTPMessagesBatch scan options env now message).2
  end.

Definition storeRun (ops : list storeOp) : list MessageRow := foldl (flip storeStep) [] ops.

(** Timestamps are unsigned on the wire. *)
Definition op_ok (op : storeOp) : Prop :=
  match op with OpInsert _ _ env => 0 ≤ TimestampNs env | OpClean _ _ _ => True end.

Lemma stored_sublist k l : k `sublist_of` l → stored l → stored k.
Proof.
  intros Hs [Hk Hr]. split; [exact (sublist_NoDup _ _ Hk (fmap_sublist sortKey _ _ Hs))|].
  intros r Hin. apply Hr. by eapply elem_of_sublist.
Qed.

Lemma clean_sublist options env now message :
  (deleteNonXMTPMessagesBatch scan options env now message).2 `sublist_of` message.
Proof.
  unfold deleteNonXMTPMessagesBatch. destruct (ce_countErr env); [done|]. case_bool_decide; [done|].
  destruct (ce_deleteErr env); [done|]. apply sublist_filter.
Qed.

Lemma insert_stored dbErr now env message :
  0 ≤ TimestampNs env → stored message → stored (InsertMessage sha256 argErr dbErr now env message).2.
Proof.
  intros Ht Hm. unfold InsertMessage, insertMessage. destruct (argErr _), dbErr; try done.
  case_bool_decide as Hbig; [done|]. case_bool_decide as Hcase; [done|]. simpl. destruct Hm as [Hk Hr]. split.
  - rewrite fmap_app. apply NoDup_app. split_and!; [done| |apply NoDup_singleton].
    intros k Hk1 Hk2. apply list_elem_of_singleton in Hk2 as ->. apply Hcase.
    apply list_elem_of_fmap in Hk1 as (r & [= E1 E2] & Hin). apply list_elem_of_fmap. exists r.
    split; [|done]. unfold messageIndex. simpl. destruct (Hr r Hin) as (_ & Hp & _). by rewrite <- E1, <- E2, Hp.
  - intros r [Hin|Hin]%elem_of_app; [by apply Hr|]. apply list_elem_of_singleton in Hin as ->. simpl.
    split_and!; [done|done|done|lia|done].
Qed.

Lemma storeRun_stored ops : Forall op_ok ops → stored (storeRun ops).
Proof.
  unfold storeRun. assert (H0 : stored []) by (split; [constructor|intros r Hr; inv Hr]). revert H0.
  generalize (@nil MessageRow). induction ops as [|op ops IH]; intros m Hm Hops; [done|]. inv Hops. simpl.
  apply IH; [|done]. destruct op; simpl in *; [by apply insert_stored|].
  by eapply stored_sublist; [apply clean_sublist|].
Qed.

(** The driver can encode the times of a request and of the rows that answer it. *)
Definition encodable (query : QueryRequest) (message : list MessageRow) : Prop :=
  argErr (StartTimeNs query) = None ∧ argErr (EndTimeNs query) = None ∧
  ∀ r, matching query r → r ∈ message → argErr (m_senderTimestamp r) = None.

(** C38. After any inserts and cleanings, a client that follows the cursors of a query none of whose
    matching messages carries the sender time 0 gets every matching message exactly once, in the
    order it asked for, and comes to an end: one request more than there are rows is enough. (A page
    that ends at time 0 has a cursor that loses messages, [zero_time_cursor_skips].) The request's
    direction is a known one and its times are such that the driver can encode them. *)
Theorem envelope_pages_complete ops query fuel :
  Forall op_ok ops → let message := storeRun ops in
  known (getDirection (QueryRequest_PagingInfo query)) → encodable query message →
  (∀ r, matching query r → r ∈ message → m_senderTimestamp r ≠ 0) →
  (QueryRequest_PagingInfo query ≫= PagingInfo_Cursor) = None →
  0 ≤ default 0 (Limit <$> QueryRequest_PagingInfo query) → (length message < fuel)%nat →
  ∃ rows, followPages fuel query message = Some (toEnvelope <$> rows) ∧
    rows ≡ₚ filter (matching query) message ∧ NoDup rows ∧
    StronglySorted (dirLe (getDirection (QueryRequest_PagingInfo query))) rows.
Proof.
  intros Hops message Hdir (Hs & He & Henc) Hzero Hc Hl Hfuel. pose proof (storeRun_stored ops Hops) as Hm.
  assert (Hf : followable query message).
  { split; [done|done|]. intros r Hr Hin. split; [|by apply Henc].
    destruct (st_row _ Hm r Hin) as (_ & _ & H0 & _). specialize (Hzero r Hr Hin). lia. }
  exists (answerOf query message). pose proof Hm as [Hk _]. split_and!.
  - apply (follow_window fuel query message None); [done|done|done|done| |].
    + unfold getPageSize, maxPageSize. destruct (QueryRequest_PagingInfo query); simpl in Hl; [|lia].
      case_bool_decide; lia.
    + simpl. unfold answerOf. rewrite merge_sort_Permutation.
      pose proof (length_filter (matching query) message). unfold message in *. lia.
  - apply merge_sort_Permutation.
  - unfold answerOf. rewrite merge_sort_Permutation. apply NoDup_filter. by eapply NoDup_fmap_1.
  - apply sort_sorted; apply _.
Qed.

(** The threshold's arithmetic does not overflow below 106752 days. *)
Lemma retention_threshold R now : 0 ≤ R ≤ 106751 → 0 ≤ now ≤ maxInt64 →
  i64 (now + i64 (i64 (R * -1) * 24 * 3600000000000)) = now - days R.
Proof.
  intros HR Hnow. unfold maxInt64 in Hnow. change (2 ^ 63 - 1) with 9223372036854775807 in Hnow.
  assert (Hsmall : ∀ z, -9223372036854775808 ≤ z ≤ 9223372036854775807 → i64 z = z).
  { intros z Hz. apply wrapS_small; [lia|]. change (2 ^ (64 - 1)) with 9223372036854775808. lia. }
  unfold days. rewrite (Hsmall (R * -1)), (Hsmall (R * -1 * 24 * 3600000000000)), Hsmall by lia. lia.
Qed.

Lemma removed_count (P : MessageRow → Prop) `{∀ r, Decision (P r)} (l : list MessageRow) :
  (length (filter P l) + length (filter (λ r, ¬ P r) l) = length l)%nat.
Proof.
  induction l as [|a l IH]; [done|]. rewrite !filter_cons. destruct (decide (P a)).
  - rewrite decide_False by tauto. simpl. lia.
  - rewrite decide_True by done. simpl. lia.
Qed.

(** The rows a batch picks are as many as a scan in any order finds. *)
Lemma picked_count (P : MessageRow → Prop) `{∀ r, Decision (P r)} n l :
  (∀ l, scan l ≡ₚ l) → NoDup l → Z.of_nat n ≤ Z.of_nat (length (filter P l)) →
  length (filter (λ r, r ∈ take n (filter P (scan l))) l) = n.
Proof.
  intros Hscan Hd Hn. assert (Hp : filter (λ r, r ∈ take n (filter P (scan l))) l ≡ₚ take n (filter P (scan l))).
  { apply NoDup_Permutation.
    - by apply NoDup_filter.
    - eapply sublist_NoDup; [|apply sublist_take]. apply NoDup_filter. by rewrite Hscan.
    - intros r. rewrite list_elem_of_filter. split; [tauto|]. intros Hr. split; [done|].
      apply elem_of_take in Hr as (i & Hi%list_elem_of_lookup_2 & _).
      apply list_elem_of_filter in Hi as [_ Hi]. by rewrite Hscan in Hi. }
  rewrite Hp, length_take, Hscan. lia.
Qed.

(** A batch of the cleaner deletes only messages that are not XMTP's and were received before
    the retention period, and reports how many; a batch that fails deletes nothing. Undisturbed, it
    deletes a full batch, or nothing when less than a batch has expired. *)
Theorem cleaner_spares_xmtp ops options env now :
  Forall op_ok ops → (∀ l, scan l ≡ₚ l) → 0 ≤ BatchSize options →
  0 ≤ RetentionDays options ≤ 106751 → 0 ≤ now ≤ maxInt64 →
  let message := storeRun ops in
  let old r := isXMTP (m_contentTopic r) = false ∧ m_receiverTimestamp r < now - days (RetentionDays options) in
  let '(deleted, message') := deleteNonXMTPMessagesBatch scan options env now message in
  message' `sublist_of` message ∧ (∀ r, r ∈ message → r ∈ message' ∨ old r) ∧
  match deleted with
  | Ok n => n = Z.of_nat (length message) - Z.of_nat (length message')
  | Err _ => message' = message
  end ∧
  (ce_countErr env = None → ce_deleteErr env = None → (∀ r, ce_locked env r = false) →
   deleted = Ok (if bool_decide (Z.of_nat (length (filter old message)) < BatchSize options) then 0
                 else BatchSize options)).
Proof.
  intros Hops Hscan Hb HR Hnow message old. pose proof (storeRun_stored ops Hops) as [Hk Hrow]. fold message in Hk, Hrow.
  unfold deleteNonXMTPMessagesBatch. rewrite retention_threshold by done.
  assert (Hold : ∀ r, r ∈ message → expiring (now - days (RetentionDays options)) r ↔ old r).
  { intros r Hr. unfold expiring, old. apply Hrow in Hr as (_ & _ & _ & ->).
    rewrite andb_True, bool_decide_spec, negb_True. destruct (isXMTP _); naive_solver. }
  assert (Hcount : filter (λ r, Is_true (expiring (now - days (RetentionDays options)) r)) message = filter old message)
    by (by apply filter_agree).
  destruct (ce_countErr env); [split_and!; auto; done|]. rewrite Hcount.
  case_bool_decide as Hfew; [split_and!; auto; lia|].
  destruct (ce_deleteErr env); [split_and!; auto; done|].
  set (msg := LIMIT _ _). split_and!.
  - apply sublist_filter.
  - intros r Hr. destruct (decide (r ∈ msg)) as [Hin|Hin]; [right|left; by apply list_elem_of_filter].
    apply elem_of_take in Hin as (i & Hi%list_elem_of_lookup_2 & _).
    apply list_elem_of_filter in Hi as [_ [He _]%list_elem_of_filter]. by apply Hold.
  - rewrite <- (removed_count (λ r, r ∈ msg) message). lia.
  - intros _ _ Hfree. f_equal.
    assert (Hmsg : msg = take (Z.to_nat (BatchSize options))
      (filter (λ r, Is_true (expiring (now - days (RetentionDays options)) r)) (scan message))).
    { unfold msg, LIMIT. f_equal. apply filter_keep. intros r _. by rewrite Hfree. }
    rewrite Hmsg, picked_count; [lia|done|by eapply NoDup_fmap_1|]. rewrite Hcount. lia.
Qed.
End Paging.

(** * Samples *)

Definition sampleDigest (b : bytes) : bytes := b.
Definition sampleArgErr (z : Z) : option error :=
  if bool_decide (maxInt64 < z) then Some (Plain "uint64 values with high bit set are not supported")
  else None.
Definition envelopeAt (topic : string) (ts : Z) (payload : bytes) : Envelope :=
  mkEnvelope topic ts payload.

Definition someInserts : list storeOp :=
  [OpInsert None 100 (envelopeAt "/xmtp/0/a" 5 "x"); OpInsert None 101 (envelopeAt "tmp" 6 "y");
   OpInsert None 102 (envelopeAt "/xmtp/0/a" 5 "z"); OpInsert None 103 (envelopeAt "/xmtp/0/b" 7 "w");
   OpInsert None 104 (envelopeAt "/xmtp/0/a" 5 "x")].

Definition sampleStore : list MessageRow := storeRun sampleDigest sampleArgErr id someInserts.
Definition oneByOne : QueryRequest :=
  mkQueryRequest ["/xmtp/0/a"; "tmp"] 0 0 (Some (mkPagingInfo 1 None SORT_DIRECTION_UNSPECIFIED)).

Example newest_first :
  followPages sampleDigest sampleArgErr id 6 oneByOne sampleStore
  = Some [envelopeAt "tmp" 6 "y"; envelopeAt "/xmtp/0/a" 5 "z"; envelopeAt "/xmtp/0/a" 5 "x"].
Proof. vm_compute. reflexivity. Qed.

Lemma someInserts_ok : Forall op_ok someInserts.
Proof. repeat constructor; simpl; lia. Qed.

Lemma sampleStore_times r :
  r ∈ sampleStore → m_senderTimestamp r ≠ 0 ∧ sampleArgErr (m_senderTimestamp r) = None.
Proof.
  assert (Hall : Forall (λ r, m_senderTimestamp r ≠ 0 ∧ sampleArgErr (m_senderTimestamp r) = None) sampleStore)
    by (repeat constructor; done).
  rewrite Forall_forall in Hall. apply Hall.
Qed.

Lemma envelope_pages_complete_witness :
  length sampleStore = 4%nat ∧
  ∃ rows, followPages sampleDigest sampleArgErr id 6 oneByOne sampleStore = Some (toEnvelope <$> rows) ∧
    rows ≡ₚ filter (matching oneByOne) sampleStore.
Proof.
  split; [by vm_compute|].
  destruct (envelope_pages_complete sampleDigest sampleArgErr id someInserts oneByOne 6
    someInserts_ok) as (rows & H1 & H2 & _).
  - by right.
  - split; [by vm_compute|]. split; [by vm_compute|]. intros r _ Hr. by apply sampleStore_times.
  - intros r _ Hr. by apply sampleStore_times.
  - reflexivity.
  - by vm_compute.
  - vm_compute. lia.
  - by exists rows.
Defined.

(** One message that is not XMTP's, received long ago. *)
Definition daily : CleanerOptions := mkCleanerOptions 5 300 1 1.
Definition quietCleaner : cleanerEnv := mkCleanerEnv None None (λ _, false).

Lemma cleaner_spares_xmtp_witness :
  (deleteNonXMTPMessagesBatch id daily quietCleaner (days 2) sampleStore).1 = Ok 1 ∧
  m_contentTopic <$> (deleteNonXMTPMessagesBatch id daily quietCleaner (days 2) sampleStore).2
    = ["/xmtp/0/a"; "/xmtp/0/a"; "/xmtp/0/b"].
Proof.
  pose proof (cleaner_spares_xmtp sampleDigest sampleArgErr id someInserts daily quietCleaner (days 2)
    someInserts_ok (λ l, Permutation_refl l) ltac:(by vm_compute) ltac:(by vm_compute) ltac:(by vm_compute)) as H.
  cbv zeta in H. fold sampleStore in H.
  destruct (deleteNonXMTPMessagesBatch id daily quietCleaner (days 2) sampleStore) as [n m] eqn:E.
  destruct H as (_ & _ & _ & H). split.
  - rewrite H by done. by vm_compute.
  - by vm_compute in E; injection E as _ <-.
Defined.

(** ** What the code does at the edges *)

(** A cursor without its index crashes the query, whatever the rest of the request. *)
Lemma cursor_without_index_crashes sha256 argErr scan dbErr query message :
  QueryRequest_PagingInfo query ≫= PagingInfo_Cursor = Some (mkCursor None) →
  known (getDirection (QueryRequest_PagingInfo query)) →
  Query sha256 argErr scan dbErr query message = None.
Proof. intros Hc Hk. unfold Query, buildSqlQuery. rewrite Hc. by destruct Hk as [->| ->]. Qed.

(** A page that ends at time 0 has a cursor that pages by digest alone: here the second message is
    never returned. *)
Lemma zero_time_cursor_skips :
  let message := storeRun sampleDigest sampleArgErr id
    [OpInsert None 1 (envelopeAt "t" 0 "b"); OpInsert None 2 (envelopeAt "t" 5 "a")] in
  let query := mkQueryRequest ["t"] 0 0 (Some (mkPagingInfo 1 None SORT_DIRECTION_ASCENDING)) in
  length message = 2%nat ∧
  followPages sampleDigest sampleArgErr id 3 query message = Some [envelopeAt "t" 0 "b"].
Proof. by vm_compute. Qed.

(** The digest does not separate topic and payload: a different message of the same time counts as
    a duplicate and is dropped without an error. *)
Lemma ambiguous_digest sha256 argErr now :
  argErr 5 = None →
  let '(_, message) := InsertMessage sha256 argErr None now (envelopeAt "ab" 5 "c") [] in
  InsertMessage sha256 argErr None now (envelopeAt "a" 5 "bc") message = (Ok false, message).
Proof.
  intros Ha. unfold InsertMessage, insertMessage. simpl. rewrite Ha. cbn.
  unfold messageIndex, computeDigest. simpl. by case_bool_decide as H; [|destruct H; left].
Qed.
