(* ===== verification/MessageApi.v ===== *)
(** The API of v1 and v2 envelopes (pkg/api/message/v1/service.go): paged queries alone and in
    batches, publishing (withdrawn), and the streams Subscribe, Subscribe2 and SubscribeAll on the
    subscription dispatcher. A stream is a machine whose events are those of its select loop and
    the dispatcher operations of the rest of the node. *)

From S2P Require Import Prelude Topic MlsDb Dispatcher MessageStore.

Definition maxQueriesPerBatch : Z := 50.
Definition maxRowsPerQuery : Z := 100.
Definition maxUserPreferencesRowsPerQuery : Z := 500.

(** * Unary calls *)

Definition getMaxRows (contentTopics : list string) : Z :=
  match contentTopics with
  | [topic] => if IsUserPreferences topic then maxUserPreferencesRowsPerQuery else maxRowsPerQuery
  | _ => maxRowsPerQuery
  end.

Definition Service_Publish (env : Envelope) : result () :=
  Err (Status Unavailable "publishing to XMTP V2 is no longer available. Please upgrade your client to XMTP V3. Read more here: https://docs.xmtp.org/upgrade-from-legacy-V2").

Section Unary.
Context (sha256 : bytes → bytes) (argErr : Z → option error).
Context (scan : list MessageRow → list MessageRow).

(** [None] is a crash of the node, as in the store's query. *)
Definition Service_Query (dbErr : option error) (req : QueryRequest) (message : list MessageRow)
    : option (result QueryResponse) :=
  if bool_decide (ContentTopics req = []) then Some (Err (Status InvalidArgument "content topics required"))
  else match QueryRequest_PagingInfo req with
       | Some pagingInfo =>
           if bool_decide (getMaxRows (ContentTopics req) < Limit pagingInfo)
           then Some (Err (Status InvalidArgument "cannot exceed %d rows per query"))
           else Query sha256 argErr scan dbErr req message
       | None => Query sha256 argErr scan dbErr req message
       end.

(** The requests of a batch one after the other, the [k]-th statement failing with [dbErr k]. *)
Fixpoint batchQueries (dbErr : nat → option error) (k : nat) (requests : list QueryRequest)
    (message : list MessageRow) : option (result (list QueryResponse)) :=
  match requests with
  | [] => Some (Ok [])
  | query :: requests =>
      resp ← Service_Query (dbErr k) query message;
      match resp with
      | Err e => Some (Err (Status Internal (errorString e)))
      | Ok resp =>
          responses ← batchQueries dbErr (S k) requests message;
          Some match responses with Ok responses => Ok (resp :: responses) | Err e => Err e end
      end
  end.

Definition Service_BatchQuery (dbErr : nat → option error) (requests : list QueryRequest)
    (message : list MessageRow) : option (result (list QueryResponse)) :=
  if bool_decide (maxQueriesPerBatch < Z.of_nat (length requests))
  then Some (Err (Status InvalidArgument "cannot exceed %d requests in single batch"))
  else batchQueries dbErr 0 requests message.
End Unary.

Definition HandleIncomingWakuRelayMessage (msg : WakuMessage) (d : SubscriptionDispatcher)
    : SubscriptionDispatcher := HandleEnvelope (Some (BuildEnvelope msg)) d.

(** * Streams *)

(** A stream's handler: the node's dispatcher, the handler's current subscription, the channel it
    reads (Subscribe2 starts with one nobody writes to), what it has sent, and whether it has
    returned. *)
Record EnvelopeStream := mkEnvelopeStream {
  es_node : SubscriptionDispatcher;
  currentSubscription : option nat;
  subscriptionChannel : option nat;
  es_sent : list Envelope;
  es_exit : bool;
}.

#[export] Instance EnvelopeStream_eta : Eta EnvelopeStream :=
  λ s, mkEnvelopeStream (es_node s) (currentSubscription s) (subscriptionChannel s) (es_sent s)
         (es_exit s).

(** What happens: a dispatcher operation of the rest of the node, a receive whose send may fail, a
    message of the client (or the end of its half of the stream), and the end of the stream's or
    the service's context. *)
Inductive envelopeStreamEvent :=
  | NodeOp (o : op)
  | Deliver (sendErr : option error)
  | Request (req : option (list string))
  | ContextDone.

Definition topicsMap (contentTopics : list string) : gmap string bool :=
  foldl (λ m t, <[t := true]> m) ∅ contentTopics.

(** Returning runs the deferred Unsubscribe. *)
Definition exitStream (s : EnvelopeStream) : EnvelopeStream :=
  match currentSubscription s with
  | Some k => s <| es_node := Unsubscribe k (es_node s) |> <| es_exit := true |>
  | None => s <| es_exit := true |>
  end.

(** The receive arm: an empty open channel blocks, a closed one ends the stream; a failed send is
    logged and the message lost. *)
Definition deliver (sendErr : option error) (s : EnvelopeStream) : EnvelopeStream :=
  match subscriptionChannel s ≫= (λ k, (λ sub, (k, sub)) <$> objects (es_node s) !! k) with
  | None => s
  | Some (k, sub) =>
      match MessagesCh sub with
      | msg :: _ =>
          s <| es_node := (receive k (es_node s)).2 |>
            <| es_sent := es_sent s ++ match sendErr with None => [msg] | Some _ => [] end |>
      | [] => if closed sub then exitStream s else s
      end
  end.

(** Subscribing to topics, the new subscription's channel replacing the old. *)
Definition subscribeTo (contentTopics : list string) (s : EnvelopeStream) : EnvelopeStream :=
  let k := nextSub (es_node s) in
  s <| es_node := Dispatcher.Subscribe (topicsMap contentTopics) (es_node s) |>
    <| subscriptionChannel := Some k |> <| currentSubscription := Some k |>.

(** The request arm of Subscribe2: the old subscription ends before the new one begins. A closed
    request channel delivers nil for ever, which is skipped. *)
Definition request (req : option (list string)) (s : EnvelopeStream) : EnvelopeStream :=
  match req with
  | None => s
  | Some contentTopics =>
      let s := match currentSubscription s with
               | Some k => s <| es_node := Unsubscribe k (es_node s) |>
                             <| currentSubscription := None |>
               | None => s
               end in
      subscribeTo contentTopics s
  end.

(** One step of a stream; [requests] says whether its handler reads any (Subscribe2). *)
Definition envelopeStep (requests : bool) (ev : envelopeStreamEvent) (s : EnvelopeStream)
    : EnvelopeStream :=
  match ev with
  | NodeOp o => s <| es_node := apply_op o (es_node s) |>
  | _ =>
      if es_exit s then s
      else match ev with
           | Deliver sendErr => deliver sendErr s
           | Request req => if requests then request req s else s
           | _ => exitStream s
           end
  end.

Definition openEnvelopeStream (d : SubscriptionDispatcher) : EnvelopeStream :=
  mkEnvelopeStream d None None [] false.

Definition Service_Subscribe (contentTopics : list string) (evs : list envelopeStreamEvent)
    (d : SubscriptionDispatcher) : EnvelopeStream :=
  foldl (flip (envelopeStep false)) (subscribeTo contentTopics (openEnvelopeStream d)) evs.

Definition Service_Subscribe2 (evs : list envelopeStreamEvent) (d : SubscriptionDispatcher)
    : EnvelopeStream := foldl (flip (envelopeStep true)) (openEnvelopeStream d) evs.

Definition Service_SubscribeAll (evs : list envelopeStreamEvent) (d : SubscriptionDispatcher)
    : EnvelopeStream := Service_Subscribe [WILDCARD_TOPIC] evs d.

(** * What a stream delivers *)

(** The envelopes a subscription to these topics selects: with the wildcard, those of v2 and MLS
    topics. *)
Definition wanted (contentTopics : list string) (env : Envelope) : bool :=
  if bool_decide (WILDCARD_TOPIC ∈ contentTopics) then isValidSubscribeAllTopic (ContentTopic env)
  else bool_decide (ContentTopic env ∈ contentTopics).

(** What was dispatched for them. *)
Definition dispatchedFor (contentTopics : list string) (evs : list envelopeStreamEvent)
    : list Envelope :=
  filter (λ env, Is_true (wanted contentTopics env))
    (omap (λ ev, match ev with NodeOp (OpEnvelope env) => env | _ => None end) evs).

(** The rest of the node does not touch a subscription that is not its own. *)
Definition op_key (o : op) : option nat :=
  match o with
  | OpUnsubscribe k | OpAdd k _ | OpRemove k _ | OpReceive k => Some k
  | _ => None
  end.

(** Events during which the handler keeps one subscription, and whose sends succeed. *)
Definition steady (requests : bool) (k : nat) (ev : envelopeStreamEvent) : Prop :=
  match ev with
  | NodeOp o => op_key o ≠ Some k
  | Deliver sendErr => sendErr = None
  | Request (Some _) => requests = false
  | _ => True
  end.

Lemma topicsMap_lookup contentTopics t :
  topicsMap contentTopics !! t = if bool_decide (t ∈ contentTopics) then Some true else None.
Proof.
  unfold topicsMap. assert (H : ∀ m : gmap string bool,
    foldl (λ m t, <[t := true]> m) m contentTopics !! t
    = if bool_decide (t ∈ contentTopics) then Some true else m !! t).
  { induction contentTopics as [|t' ts IH]; intros m; simpl; [done|]. rewrite IH.
    destruct (decide (t = t')) as [->|Hne].
    - rewrite (bool_decide_true (t' ∈ t' :: ts)) by left. rewrite lookup_insert_eq. by case_bool_decide.
    - rewrite lookup_insert_ne by done. repeat case_bool_decide; set_solver. }
  apply H.
Qed.

(** The topics of the subscription, which only its own handler could change. *)
Definition listensTo (contentTopics : list string) (k : nat) (d : SubscriptionDispatcher) : Prop :=
  ∃ sub, objects d !! k = Some sub ∧ ∀ env, selects sub env = wanted contentTopics env.

Lemma HandleEnvelope_listens ts k env d :
  listensTo ts k d → listensTo ts k (HandleEnvelope env d).
Proof.
  intros (sub & Hs & Hw). destruct env as [env|]; [|by exists sub].
  destruct (HandleEnvelope_at env k d) as [Hin Hout]. unfold listensTo.
  destruct (decide (k ∈ subscriptions d)) as [Hk|Hk].
  - destruct (Hin Hk) as [-> _]. unfold offer. rewrite Hs.
    destruct (selects sub env); [case_bool_decide|]; simpl; rewrite ?lookup_insert_eq, ?Hs; by eexists.
  - destruct (Hout Hk) as [-> _]. by exists sub.
Qed.

Lemma op_listens ts k o d :
  (∀ l, o ≠ OpAdd k l ∧ o ≠ OpRemove k l) → (k < nextSub d)%nat →
  listensTo ts k d → listensTo ts k (apply_op o d).
Proof.
  intros Ho Hk Hl. pose proof Hl as (sub & Hs & Hw). unfold listensTo.
  destruct o as [env|ts'|n|k'|k' l|k' l|k']; simpl.
  - by apply HandleEnvelope_listens.
  - rewrite lookup_insert_ne by lia. by exists sub.
  - rewrite lookup_insert_ne by lia. by exists sub.
  - by exists sub.
  - rewrite lookup_alter_ne; [by exists sub|]. intros ->. by destruct (Ho l).
  - rewrite lookup_alter_ne; [by exists sub|]. intros ->. by destruct (Ho l).
  - unfold receive. destruct (objects d !! k') as [sub'|] eqn:Hs'; [|by exists sub].
    destruct (MessagesCh sub'); [by exists sub|]. unfold updateSub. simpl.
    destruct (decide (k' = k)) as [->|Hne]; [|rewrite lookup_alter_ne by done; by exists sub].
    rewrite lookup_alter_eq, Hs'. rewrite Hs in Hs'. injection Hs' as ->. by eexists.
Qed.

(** The account of a subscription to [ts] after an operation that leaves its topics alone: [got] has
    been received, [ch] is in the channel, [D] was dispatched. *)
Record account (ts : list string) (k : nat) (d : SubscriptionDispatcher)
    (got ch D : list Envelope) : Prop := {
  ac_chan : accounted k d ch;
  ac_topics : listensTo ts k d;
  ac_prefix : got ++ ch `prefix_of` D;
  ac_all : k ∈ subscriptions d → got ++ ch = D;
}.

Lemma offered_wanted ts k o d :
  listensTo ts k d → offered k o d = dispatchedFor ts [NodeOp o].
Proof.
  intros (sub & Hs & Hw). unfold offered, dispatchedFor. rewrite Hs.
  destruct o as [[env|]| | | | | |]; simpl; try done. rewrite Hw, filter_cons, filter_nil.
  by destruct (wanted ts env).
Qed.

Lemma account_step ts k o d got ch D :
  (∀ l, o ≠ OpAdd k l ∧ o ≠ OpRemove k l) → account ts k d got ch D →
  ∃ rest, account ts k (apply_op o d) (got ++ received k o d) rest (D ++ dispatchedFor ts [NodeOp o]) ∧
    (k ∈ subscriptions (apply_op o d) → k ∈ subscriptions d).
Proof.
  intros Ho [Hc Ht Hp Ha]. destruct (apply_op_step k o d ch Hc) as (put & rest & Hc' & Er & Hput & Hin & Hout).
  exists rest. split; [|done]. rewrite (offered_wanted ts k o d Ht) in Hput.
  assert (Hk : (k < nextSub d)%nat) by (by destruct Hc as (? & ? & ? & _)).
  split; [done|by apply op_listens| |].
  - rewrite <- app_assoc, Er, app_assoc. destruct (decide (k ∈ subscriptions d)) as [Hs|Hs].
    + rewrite (Ha Hs). destruct Hput as [->|[-> _]]; [done|]. rewrite app_nil_r. by eexists.
    + rewrite (Hout Hs), app_nil_r. by apply prefix_app_r.
  - intros Hs'. rewrite <- app_assoc, Er, app_assoc, (Ha (Hin Hs')).
    destruct Hput as [->|[_ Hn]]; [done|]. by destruct Hn.
Qed.

(** A stream whose current subscription is [k], to [ts], and that has sent [sent0] before it. *)
Record served (ts : list string) (k : nat) (sent0 D : list Envelope) (s : EnvelopeStream) : Prop := {
  sv_account : ∃ got ch, account ts k (es_node s) got ch D ∧ es_sent s = sent0 ++ got;
  sv_current : es_exit s = false → currentSubscription s = Some k ∧ subscriptionChannel s = Some k;
  sv_exit : es_exit s = true → k ∉ subscriptions (es_node s);
}.

Lemma served_exit ts k sent0 D s :
  es_exit s = false → served ts k sent0 D s → served ts k sent0 D (exitStream s).
Proof.
  intros He [(got & ch & Ha & Hs) Hc _]. destruct (Hc He) as [Hcur Hch].
  destruct (account_step ts k (OpUnsubscribe k) _ _ _ _ ltac:(done) Ha) as (rest & Ha' & _).
  simpl in Ha'. unfold dispatchedFor in Ha'. simpl in Ha'. rewrite !app_nil_r in Ha'.
  unfold exitStream. rewrite Hcur. split; simpl; [by exists got, rest|done|set_solver].
Qed.

Lemma served_deliver ts k sent0 D s :
  es_exit s = false → served ts k sent0 D s → served ts k sent0 D (deliver None s).
Proof.
  intros He Hsv. pose proof Hsv as [(got & ch & Ha & Hs) Hc _]. destruct (Hc He) as [Hcur Hch].
  destruct (account_step ts k (OpReceive k) _ _ _ _ ltac:(done) Ha) as (rest & Ha' & Hin).
  pose proof (ac_chan _ _ _ _ _ _ Ha) as (sub & Hsub & _ & Hm & _).
  unfold dispatchedFor in Ha'. simpl in Ha', Hin. rewrite app_nil_r in Ha'. unfold deliver. rewrite Hch. simpl.
  rewrite Hsub. simpl. destruct (MessagesCh sub) as [|msg rest'] eqn:Em.
  - destruct (closed sub); [by apply served_exit|done].
  - rewrite decide_True in Ha' by done. unfold receive in *. rewrite Hsub, Em in *. simpl in *.
    split; simpl; [|done|by rewrite He]. exists (got ++ [msg]), rest. split; [done|]. by rewrite Hs, app_assoc.
Qed.

Lemma served_step requests ts k sent0 D ev s :
  steady requests k ev → served ts k sent0 D s →
  served ts k sent0 (D ++ dispatchedFor ts [ev]) (envelopeStep requests ev s).
Proof.
  intros Hst Hsv. assert (Hquiet : ∀ s', (∀ o, ev ≠ NodeOp o) → served ts k sent0 D s' →
    served ts k sent0 (D ++ dispatchedFor ts [ev]) s').
  { intros s' Hn H. destruct ev; try (unfold dispatchedFor; simpl; by rewrite app_nil_r). by destruct (Hn o). }
  destruct ev as [o|e|req|]; unfold envelopeStep.
  - destruct Hsv as [(got & ch & Ha & Hs) Hc Hx]. simpl in Hst.
    destruct (account_step ts k o _ _ _ _ ltac:(intros l; split; intros ->; by apply Hst) Ha) as (rest & Ha' & Hin).
    assert (Hr : received k o (es_node s) = []).
    { destruct o; try done. simpl. rewrite decide_False; [done|]. intros ->. by apply Hst. }
    rewrite Hr, app_nil_r in Ha'. split; simpl; [by exists got, rest|done|]. intros He Hk. by apply (Hx He), Hin.
  - apply Hquiet; [done|]. simpl in Hst. subst e. destruct (es_exit s) eqn:He; [done|by apply served_deliver].
  - apply Hquiet; [done|]. destruct (es_exit s); [done|]. destruct requests; [|done]. by destruct req.
  - apply Hquiet; [done|]. destruct (es_exit s) eqn:He; [done|by apply served_exit].
Qed.

Lemma served_run requests ts k sent0 evs D s :
  Forall (steady requests k) evs → served ts k sent0 D s →
  served ts k sent0 (D ++ dispatchedFor ts evs) (foldl (flip (envelopeStep requests)) s evs).
Proof.
  revert D s. induction evs as [|ev evs IH]; intros D s Hst Hsv.
  { unfold dispatchedFor. simpl. by rewrite app_nil_r. }
  inv Hst. simpl. assert (E : dispatchedFor ts (ev :: evs) = dispatchedFor ts [ev] ++ dispatchedFor ts evs).
  { unfold dispatchedFor. rewrite <- filter_app, <- omap_app. done. }
  rewrite E, app_assoc. apply IH; [done|]. by apply served_step.
Qed.

Lemma served_start ts s :
  es_exit s = false → served ts (nextSub (es_node s)) (es_sent s) [] (subscribeTo ts s).
Proof.
  intros He. split; simpl; [|done|by rewrite He]. exists [], []. split; [|by rewrite app_nil_r].
  assert (Hw : ∀ env, selects (if bool_decide (is_Some (topicsMap ts !! WILDCARD_TOPIC))
    then mkSubscription [] allTopicsBacklogLength false ∅ true
    else mkSubscription [] (Z.max (log2 (Z.of_nat (size (topicsMap ts))) + 1) minBacklogBufferLength)
           false (topicsMap ts) false) env = wanted ts env).
  { intros env. unfold wanted. rewrite topicsMap_lookup. destruct (decide (WILDCARD_TOPIC ∈ ts)) as [Hin|Hin].
    - rewrite !(bool_decide_true (WILDCARD_TOPIC ∈ ts)), bool_decide_true by done. done.
    - rewrite !(bool_decide_false (WILDCARD_TOPIC ∈ ts)), bool_decide_false by (done || by intros [? ?]).
      unfold selects. simpl. rewrite topicsMap_lookup. by case_bool_decide. }
  split; [|eexists; simpl; rewrite lookup_insert_eq; split; [done|exact Hw]|done|done].
  eexists. simpl. rewrite lookup_insert_eq. split; [done|]. split_and!; try lia.
  - by case_bool_decide.
  - case_bool_decide; simpl; unfold allTopicsBacklogLength, minBacklogBufferLength; lia.
  - intros _. by case_bool_decide.
Qed.

(** A subscription that ended never comes back: keys are not used twice. *)
Lemma op_gone k o d :
  (k < nextSub d)%nat → k ∉ subscriptions d →
  (k < nextSub (apply_op o d))%nat ∧ k ∉ subscriptions (apply_op o d).
Proof.
  intros Hk Hn. assert (k ≠ nextSub d) by lia.
  destruct o as [[env|]|ts|n|k'|k' l|k' l|k']; simpl; try (split; [lia|set_solver]); try done.
  - destruct (HandleEnvelope_at env k d) as [_ Hout]. split; [|by apply Hout].
    pose proof (HandleEnvelope_next (Some env) d) as E. simpl in E. by rewrite E.
  - unfold receive. destruct (objects d !! k') as [sub|]; [destruct (MessagesCh sub)|]; done.
Qed.

Lemma op_next o d : (nextSub d ≤ nextSub (apply_op o d))%nat.
Proof.
  destruct o as [env|ts|n|k'|k' l|k' l|k']; simpl; try lia; [by rewrite HandleEnvelope_next|].
  unfold receive. destruct (objects d !! k') as [sub|]; [destruct (MessagesCh sub)|]; simpl; lia.
Qed.

(** Steps of the handler are operations of the dispatcher. *)
Lemma step_node requests ev s :
  ∃ ops, es_node (envelopeStep requests ev s) = foldl (flip apply_op) (es_node s) ops.
Proof.
  assert (Hexit : ∃ ops, es_node (exitStream s) = foldl (flip apply_op) (es_node s) ops).
  { unfold exitStream. destruct (currentSubscription s) as [k|]; [by exists [OpUnsubscribe k]|by exists []]. }
  destruct ev as [o|e|req|]; unfold envelopeStep; [by exists [o]|destruct (es_exit s); [by exists []|]..].
  - unfold deliver. destruct (_ ≫= _) as [[k sub]|]; [|by exists []].
    destruct (MessagesCh sub) as [|msg rest]; [destruct (closed sub); [done|by exists []]|].
    by exists [OpReceive k].
  - destruct requests; [|by exists []]. destruct req as [ts|]; [|by exists []]. simpl.
    destruct (currentSubscription s) as [k|]; [by exists [OpUnsubscribe k; OpSubscribe (topicsMap ts)]|
      by exists [OpSubscribe (topicsMap ts)]].
  - done.
Qed.

Lemma step_gone requests ev s k :
  (k < nextSub (es_node s))%nat → k ∉ subscriptions (es_node s) →
  (k < nextSub (es_node (envelopeStep requests ev s)))%nat ∧
  k ∉ subscriptions (es_node (envelopeStep requests ev s)).
Proof.
  destruct (step_node requests ev s) as [ops ->]. generalize (es_node s). clear s.
  induction ops as [|o ops IH]; intros d Hk Hn; [done|]. simpl. by apply IH; apply op_gone.
Qed.

Lemma run_gone requests evs s k :
  (k < nextSub (es_node s))%nat → k ∉ subscriptions (es_node s) →
  k ∉ subscriptions (es_node (foldl (flip (envelopeStep requests)) s evs)).
Proof.
  revert s. induction evs as [|ev evs IH]; intros s Hk Hn; [done|]. simpl.
  by apply IH; apply step_gone.
Qed.

(** The current subscription is one the dispatcher has made. *)
Definition current_made (s : EnvelopeStream) : Prop :=
  ∀ k, currentSubscription s = Some k → (k < nextSub (es_node s))%nat.

Lemma current_step requests ev s : current_made s → current_made (envelopeStep requests ev s).
Proof.
  intros Hs. assert (Hn : (nextSub (es_node s) ≤ nextSub (es_node (envelopeStep requests ev s)))%nat).
  { destruct (step_node requests ev s) as [ops ->]. generalize (es_node s). clear Hs s.
    induction ops as [|o ops IH]; intros d; simpl; [done|]. etrans; [apply op_next|apply IH]. }
  assert (Hx : currentSubscription (exitStream s) = currentSubscription s).
  { unfold exitStream. destruct (currentSubscription s) as [k0|] eqn:E; simpl; by rewrite ?E. }
  intros k Hk. destruct ev as [o|e|req|]; unfold envelopeStep in *.
  - eapply Nat.lt_le_trans; [apply Hs; exact Hk|exact Hn].
  - destruct (es_exit s); [by apply Hs|]. eapply Nat.lt_le_trans; [apply Hs|exact Hn].
    unfold deliver in Hk. destruct (_ ≫= _) as [[k' sub]|]; [|done].
    destruct (MessagesCh sub); [destruct (closed sub); [by rewrite <- Hx|done]|done].
  - destruct (es_exit s); [by apply Hs|]. destruct requests; [|by apply Hs].
    destruct req as [ts|]; [|by apply Hs]. simpl in *. injection Hk as <-. lia.
  - destruct (es_exit s); [by apply Hs|]. rewrite Hx in Hk.
    eapply Nat.lt_le_trans; [by apply Hs|exact Hn].
Qed.

Lemma subscribe2_made evs d : current_made (Service_Subscribe2 evs d).
Proof.
  unfold Service_Subscribe2. assert (H : current_made (openEnvelopeStream d)) by (by intros k [=]).
  revert H. generalize (openEnvelopeStream d). induction evs as [|ev evs IH]; intros s Hs; [done|].
  simpl. by apply IH, current_step.
Qed.

(** Subscribe and SubscribeAll: the client gets, in order and without gaps, a prefix of what is
    dispatched for its topics, all of it (but what its channel still holds) while the dispatcher
    keeps the subscription; a handler that has returned is not subscribed. *)
Lemma subscribe_gap_free ts evs d :
  let k := nextSub d in Forall (steady false k) evs →
  let s := Service_Subscribe ts evs d in
  ∃ sub, objects (es_node s) !! k = Some sub ∧
    es_sent s ++ MessagesCh sub `prefix_of` dispatchedFor ts evs ∧
    (k ∈ subscriptions (es_node s) → es_sent s ++ MessagesCh sub = dispatchedFor ts evs) ∧
    (es_exit s = true → k ∉ subscriptions (es_node s)).
Proof.
  intros k Hev s. destruct (served_run false ts k [] evs [] _ Hev (served_start ts (openEnvelopeStream d) eq_refl))
    as [(got & ch & [(sub & Hs & _ & Hch & _) _ Hp Ha] & Hsent) _ Hx].
  exists sub. simpl in Hsent. unfold s, Service_Subscribe. rewrite Hsent, Hch. by split_and!.
Qed.

(** C39. A client of Subscribe2 that replaces its topics gets from then on, in order and without
    gaps, a prefix of what is dispatched for the new ones, all of it (but what its channel still
    holds) while the dispatcher keeps the subscription. The old subscription has ended for good,
    and so has the new one when the handler has returned. *)
Theorem subscribe2_gap_free before ts evs d :
  let s0 := Service_Subscribe2 before d in let k := nextSub (es_node s0) in
  es_exit s0 = false → Forall (steady true k) evs →
  let s := Service_Subscribe2 (before ++ Request (Some ts) :: evs) d in
  ∃ sub got, objects (es_node s) !! k = Some sub ∧ es_sent s = es_sent s0 ++ got ∧
    got ++ MessagesCh sub `prefix_of` dispatchedFor ts evs ∧
    (k ∈ subscriptions (es_node s) → got ++ MessagesCh sub = dispatchedFor ts evs) ∧
    (es_exit s = true → k ∉ subscriptions (es_node s)) ∧
    (∀ k', currentSubscription s0 = Some k' → k' ∉ subscriptions (es_node s)).
Proof.
  intros s0 k He Hev s. pose proof (subscribe2_made before d) as Hmade. fold s0 in Hmade.
  assert (Es : s = foldl (flip (envelopeStep true)) (request (Some ts) s0) evs).
  { unfold s, Service_Subscribe2. rewrite foldl_app. simpl. fold (Service_Subscribe2 before d). fold s0.
    unfold flip at 2. unfold envelopeStep at 2. by rewrite He. }
  set (s1 := match currentSubscription s0 with
    | Some k => s0 <| es_node := Unsubscribe k (es_node s0) |> <| currentSubscription := None |>
    | None => s0 end).
  assert (E1 : request (Some ts) s0 = subscribeTo ts s1) by done.
  assert (Hs1 : es_exit s1 = false ∧ nextSub (es_node s1) = k ∧ es_sent s1 = es_sent s0).
  { unfold s1. by destruct (currentSubscription s0). }
  destruct Hs1 as (He1 & Hk1 & Hsent1). pose proof (served_start ts s1 He1) as Hsv. rewrite Hk1, Hsent1 in Hsv.
  destruct (served_run true ts k _ evs _ _ Hev Hsv) as [(got & ch & [(sub & Hs & _ & Hch & _) _ Hp Ha] & Hsent) _ Hx].
  rewrite Es, E1. exists sub, got. rewrite Hch. split_and!; try done.
  intros k' Hk'. pose proof (Hmade k' Hk') as Hlt. apply run_gone.
  - simpl. rewrite Hk1. unfold k. lia.
  - simpl. rewrite Hk1. unfold s1. rewrite Hk'. simpl. unfold k. set_solver by lia.
Qed.

(** A sample: a client moves from topic a to topic b. *)
Definition envelopeOn (t : string) : envelopeStreamEvent := NodeOp (OpEnvelope (Some (mkEnvelope t 0 ""))).

Lemma subscribe2_gap_free_witness :
  let before := [Request (Some ["a"]); envelopeOn "a"; envelopeOn "b"; Deliver None] in
  let evs := [envelopeOn "a"; envelopeOn "b"; Deliver None; ContextDone; envelopeOn "b"] in
  let s := Service_Subscribe2 (before ++ Request (Some ["b"]) :: evs) NewSubscriptionDispatcher in
  ContentTopic <$> es_sent s = ["a"; "b"] ∧ (1%nat ∉ subscriptions (es_node s)) ∧
  0%nat ∉ subscriptions (es_node s).
Proof.
  intros before evs s. split; [by vm_compute|].
  destruct (subscribe2_gap_free before ["b"] evs NewSubscriptionDispatcher) as (sub & got & _ & _ & _ & _ & Hx & Hold).
  - by vm_compute.
  - repeat constructor; simpl; congruence.
  - split; [by apply Hx; vm_compute|by apply Hold; vm_compute].
Defined.

(** A batch is answered when it is small enough and each of its requests is, one by one and in
    order; otherwise none is. *)
Lemma batch_answered sha256 argErr scan dbErr requests message responses :
  Service_BatchQuery sha256 argErr scan dbErr requests message = Some (Ok responses) ↔
  Z.of_nat (length requests) ≤ maxQueriesPerBatch ∧ length responses = length requests ∧
  ∀ i q, requests !! i = Some q → ∃ r, responses !! i = Some r ∧
    Service_Query sha256 argErr scan (dbErr i) q message = Some (Ok r).
Proof.
  assert (H : ∀ k, batchQueries sha256 argErr scan dbErr k requests message = Some (Ok responses) ↔
    length responses = length requests ∧
    ∀ i q, requests !! i = Some q → ∃ r, responses !! i = Some r ∧
      Service_Query sha256 argErr scan (dbErr (k + i)%nat) q message = Some (Ok r)).
  { revert responses. induction requests as [|q requests IH]; intros responses k; cbn [batchQueries].
    - split; [by intros [= <-]|]. intros [Hl _]. by destruct responses.
    - destruct (Service_Query sha256 argErr scan (dbErr k) q message) as [[r|e]|] eqn:Eq; simpl.
      + split.
        * destruct (batchQueries _ _ _ _ (S k) _ _) as [[rs|e]|] eqn:Er; simpl; intros [= <-].
          apply IH in Er as [Hl Hi]. split; [simpl; lia|]. intros [|i] q' Hq; simpl in *.
          -- injection Hq as <-. exists r. by rewrite Nat.add_0_r.
          -- destruct (Hi i q' Hq) as (r' & ? & ?). exists r'. by rewrite Nat.add_succ_r.
        * intros [Hl Hi]. destruct responses as [|r' rs]; [done|].
          destruct (Hi 0%nat q eq_refl) as (r0 & [= <-] & E0). rewrite Nat.add_0_r in E0.
          assert (Er : batchQueries sha256 argErr scan dbErr (S k) requests message = Some (Ok rs)).
          { apply IH. split; [by injection Hl|]. intros i q' Hq. destruct (Hi (S i) q' Hq) as (r1 & ? & ?).
            exists r1. by rewrite Nat.add_succ_l, <- Nat.add_succ_r. }
          rewrite Er. simpl. congruence.
      + split; [done|]. intros [_ Hi]. destruct (Hi 0%nat q eq_refl) as (r & _ & E). rewrite Nat.add_0_r in E. congruence.
      + split; [done|]. intros [_ Hi]. destruct (Hi 0%nat q eq_refl) as (r & _ & E). rewrite Nat.add_0_r in E. congruence. }
  unfold Service_BatchQuery. case_bool_decide; [split; [done|lia]|]. rewrite H. intuition lia.
Qed.
