(* ===== verification/Metrics.v ===== *)
(** Prometheus metrics (pkg/metrics) and request telemetry (pkg/api/telemetry.go, pkg/logging): which
    labels each emission carries. A vector whose labels are not exactly its own, or not valid
    UTF-8, panics, so whether a request survives its own telemetry is a question of labels. *)

From S2P Require Import Prelude Topic MlsDb RateLimiter RateLimiterConc Interceptor MessageStore.

(** * [utf8.ValidString] *)

Definition inRange (lo hi : N) (c : Ascii.ascii) : bool :=
  (N.leb lo (Ascii.N_of_ascii c) && N.leb (Ascii.N_of_ascii c) hi)%N.

Fixpoint ValidString (s : string) : bool :=
  match s with
  | EmptyString => true
  | String c s =>
      if inRange 0 127 c then ValidString s
      else match s with
      | EmptyString => false
      | String c1 s =>
          if inRange 194 223 c then inRange 128 191 c1 && ValidString s
          else match s with
          | EmptyString => false
          | String c2 s =>
              let three := inRange 128 191 c2 && ValidString s in
              if inRange 224 224 c then inRange 160 191 c1 && three
              else if inRange 237 237 c then inRange 128 159 c1 && three
              else if inRange 225 239 c then inRange 128 191 c1 && three
              else match s with
              | EmptyString => false
              | String c3 s =>
                  let four := inRange 128 191 c2 && inRange 128 191 c3 && ValidString s in
                  if inRange 240 240 c then inRange 144 191 c1 && four
                  else if inRange 241 243 c then inRange 128 191 c1 && four
                  else if inRange 244 244 c then inRange 128 143 c1 && four
                  else false
              end
          end
      end
  end.

(** * Fields and labels *)

(** A log field with a string value: its [Key] and [String]. *)
Abbreviation field := (string * string)%type.
Abbreviation labels := (gmap string string).

(** [fmt.Sprintf] with the verb for booleans. *)
Definition formatBool (b : bool) : string := if b then "true" else "false".

Definition ZapFields (ri : requesterInfo) : list field :=
  [("app", AppName ri); ("app_version", AppVersion ri); ("client", ClientName ri);
   ("client_version", ClientVersion ri); ("is_supported_client", formatBool (IsSupportedClient ri));
   ("libxmtp_version", LibxmtpVersion ri)].

Definition appClientVersionTagKeys : list string :=
  ["app"; "app_version"; "client"; "client_version"; "is_supported_client"; "libxmtp_version"].
Definition apiRequestTagKeys : list string :=
  ["service"; "method"; "error_code"] ++ appClientVersionTagKeys.

Definition topicCategoryTag : string := "topic_category".
Definition queryParametersTag : string := "parameters".
Definition queryErrorTag : string := "error".

Definition buildTagKeysMap (keys : list string) : gmap string bool :=
  foldl (λ m key, <[key := true]> m) ∅ keys.
Definition apiRequestTagKeysByName : gmap string bool := buildTagKeysMap apiRequestTagKeys.

(** The fields whose keys are labels of requests; a later field with the same key wins. *)
Definition fieldLabels (fields : list field) : labels :=
  foldl (λ m '(key, value),
    if default false (apiRequestTagKeysByName !! key) then <[key := value]> m else m) ∅ fields.

Section Labels.
(** The process environment's ENV, and golang.org/x/mod/semver. *)
Context (ENV : string) (semver_IsValid : string → bool) (semver_Compare : string → string → Z).

Definition contextLabels (ctx : Ctx) : labels :=
  fieldLabels (ZapFields (NewRequesterInfo ENV semver_IsValid semver_Compare ctx)).

(** A label that was not given is empty. *)
Definition requestLabels (fields : list field) : labels :=
  foldl (λ m key, match m !! key with Some _ => m | None => <[key := EmptyString]> m end)
    (fieldLabels fields) apiRequestTagKeys.

(** * Emissions *)

(** A vector of counters, gauges or histograms: its name and its variable labels. *)
Record metricVec := mkMetricVec { mv_Name : string; mv_Labels : list string }.

Record emission := mkEmission {
  em_Name : string;
  em_Labels : labels;
  em_Value : Z;
}.

(** Whether [With] of the Prometheus client returns; it panics where it does not. *)
Context (With : metricVec → labels → bool).

Definition emit (v : metricVec) (l : labels) (x : Z) : option (list emission) :=
  if With v l then Some [mkEmission (mv_Name v) l x] else None.

Definition andThen (a b : option (list emission)) : option (list emission) :=
  es ← a; es' ← b; Some (es ++ es').

(** ** API requests *)

Definition apiRequests : metricVec := mkMetricVec "xmtp_api_requests" apiRequestTagKeys.
Definition apiRequestsDuration : metricVec :=
  mkMetricVec "xmtp_api_request_duration_ms" apiRequestTagKeys.

Definition Millisecond : Z := 1000000.

Definition EmitAPIRequest (fields : list field) (duration : Z) : option (list emission) :=
  let l := requestLabels fields in
  andThen (emit apiRequests l 1) (emit apiRequestsDuration l (duration `quot` Millisecond)).

(** ** Telemetry *)

(** [codes.Code.String], of a status's code or of Unknown for any other error. *)
Context (code_String : option code → string).

(** [status.FromError]: code and message. *)
Definition FromError (err : error) : option code * string :=
  match err with Status c msg => (Some c, msg) | _ => (None, errorString err) end.

Definition recordFields (ctx : Ctx) (fullMethod : string) (err : option error) : list field :=
  let '(serviceName, methodName) := splitMethodName fullMethod in
  let ip := ClientIPFromContext ctx in
  [("service", serviceName); ("method", methodName)]
  ++ ZapFields (NewRequesterInfo ENV semver_IsValid semver_Compare ctx)
  ++ (if bool_decide (0 < len ip) then [("client_ip", ip)] else [])
  ++ match err with
     | Some err =>
         let '(code, msg) := FromError err in
         [("error", EmptyString); ("error_code", code_String code); ("error_message", msg)]
     | None => []
     end.

(** record: the level the request is logged at, and what it emits. *)
Definition record (ctx : Ctx) (fullMethod : string) (duration : Z) (err : option error)
    : option (level * list emission) :=
  (recordLevel err,.) <$> EmitAPIRequest (recordFields ctx fullMethod err) duration.

(** ** Envelopes and queries of v1 and v2 *)

Definition publishedEnvelopeSize : metricVec :=
  mkMetricVec "xmtp_published_envelope" (topicCategoryTag :: appClientVersionTagKeys).
Definition publishedEnvelopeCount : metricVec :=
  mkMetricVec "xmtp_published_envelopes" (topicCategoryTag :: appClientVersionTagKeys).

Definition EmitPublishedEnvelope (ctx : Ctx) (env : Envelope) : option (list emission) :=
  let l := <[topicCategoryTag := Category (ContentTopic env)]> (contextLabels ctx) in
  andThen (emit publishedEnvelopeSize l (len (Message env))) (emit publishedEnvelopeCount l 1).

Definition queryDuration : metricVec :=
  mkMetricVec "xmtp_api_query_duration"
    ([topicCategoryTag; queryErrorTag; queryParametersTag] ++ appClientVersionTagKeys).
Definition queryResultLength : metricVec :=
  mkMetricVec "xmtp_api_query_result"
    ([topicCategoryTag; queryErrorTag; queryParametersTag] ++ appClientVersionTagKeys).

(** Which parts of a query are set, one character each. *)
Definition QueryShape (req : QueryRequest) : string :=
  let mark (b : bool) (c : string) : string := if b then c else "-" in
  let pi := QueryRequest_PagingInfo req in
  let ci : option IndexCursor := p ← pi; c ← PagingInfo_Cursor p; Cursor_Index c in
  mark (bool_decide (0 < StartTimeNs req)) "S" +:+ mark (bool_decide (0 < EndTimeNs req)) "E" +:+
  match pi with
  | Some p => match Direction p with SORT_DIRECTION_ASCENDING => "A" | _ => "D" end
  | None => "-"
  end +:+
  mark (match pi with Some p => bool_decide (0 < Limit p) | None => false end) "L" +:+
  mark (bool_decide (is_Some ci)) "C" +:+
  mark (bool_decide (is_Some (ci ≫= Digest))) "D" +:+
  mark (match ci with Some c => bool_decide (0 < SenderTimeNs c) | None => false end) "T".

Definition EmitQuery (req : QueryRequest) (results : Z) (err : option error) (duration : Z)
    : option (list emission) :=
  let l : labels := match ContentTopics req with
                    | topic :: _ => {[topicCategoryTag := Category topic]}
                    | [] => ∅
                    end in
  let l := match err with Some _ => <[queryErrorTag := "internal"]> l | None => l end in
  let l := <[queryParametersTag := QueryShape req]> l in
  andThen (emit queryDuration l (duration `quot` Millisecond)) (emit queryResultLength l results).

(** ** Subscriptions *)

Definition subscribedTopicsVec : metricVec := mkMetricVec "xmtp_subscribed_topics" appClientVersionTagKeys.
Definition subscribeTopicsLength : metricVec :=
  mkMetricVec "xmtp_subscribe_topics_length" appClientVersionTagKeys.

Definition EmitSubscriptionChange (ctx : Ctx) (delta : Z) : option (list emission) :=
  emit subscribedTopicsVec (contextLabels ctx) delta.
Definition EmitSubscribeTopics (ctx : Ctx) (topics : Z) : option (list emission) :=
  let l := contextLabels ctx in
  andThen (emit subscribeTopicsLength l topics) (emit subscribedTopicsVec l topics).
Definition EmitUnsubscribeTopics (ctx : Ctx) (topics : Z) : option (list emission) :=
  emit subscribedTopicsVec (contextLabels ctx) (- topics).

(** ** The MLS API: a size and a count per stored item *)

Definition sizeVec (name : string) : metricVec := mkMetricVec name appClientVersionTagKeys.

Definition sizeAndCount (size count : string) (ctx : Ctx) (n : Z) : option (list emission) :=
  let l := contextLabels ctx in andThen (emit (sizeVec size) l n) (emit (sizeVec count) l 1).

Definition EmitMLSSentGroupMessage (ctx : Ctx) (msg : GroupMessageRow) : option (list emission) :=
  sizeAndCount "mls_sent_group_message_size" "mls_sent_group_messages" ctx (len (g_Data msg)).
Definition EmitMLSSentWelcomeMessage (ctx : Ctx) (msg : WelcomeMessageRow) : option (list emission) :=
  sizeAndCount "mls_sent_welcome_message_size" "mls_sent_welcome_messages" ctx (len (w_Data msg)).
Definition EmitMLSPublishedCommitLogEntry (ctx : Ctx) (entry : CommitLogRow) : option (list emission) :=
  sizeAndCount "mls_commit_log_entry_size" "mls_commit_log_entry_count" ctx
    (len (c_SerializedEntry entry) + len (c_SerializedSignature entry)).
Definition EmitMLSSentIdentityUpdate (ctx : Ctx) (numBytes : Z) : option (list emission) :=
  sizeAndCount "mls_sent_identity_update_size" "mls_sent_identity_updates" ctx numBytes.
Definition EmitMLSPublishedKeyPackage (ctx : Ctx) (numBytes : Z) : option (list emission) :=
  sizeAndCount "mls_sent_key_package_size" "mls_sent_key_packages" ctx numBytes.

(** ** The rate limiter and stored messages *)

Definition ratelimiterBuckets : metricVec := mkMetricVec "xmtp_ratelimiter_buckets" ["name"].
Definition ratelimiterBucketsDeleted : metricVec :=
  mkMetricVec "xmtp_ratelimiter_entries_deleted" ["name"].

Definition EmitRatelimiterBucketsSize (name : string) (size : Z) : option (list emission) :=
  emit ratelimiterBuckets {["name" := name]} size.
Definition EmitRatelimiterDeletedEntries (name : string) (count : Z) : option (list emission) :=
  emit ratelimiterBucketsDeleted {["name" := name]} count.

(** The gauge after a count of the table: an error is logged, and the count is then zero. *)
Definition EmitStoredMessages (estimate : result Z) : Z :=
  match estimate with Ok count => count | Err _ => 0 end.

(** ** Peers *)

(** Peers per protocol: a peer whose protocols cannot be read is left out. *)
Definition byProtocol (peers : list (result (list string))) : gmap string Z :=
  foldl (λ m protocols,
    match protocols with
    | Ok protocols => foldl (λ m proto, <[proto := default 0 (m !! proto) + 1]> m) m protocols
    | Err _ => m
    end) ∅ peers.

(** The gauges of the protocols counted are set; the others keep their values. *)
Definition EmitPeersByProtocol (peers : list (result (list string))) (gauge : gmap string Z)
    : gmap string Z := byProtocol peers ∪ gauge.

(** The bootstrap peers that are connected, of all of them. *)
Definition EmitBootstrapPeersConnected (connected : list string) (bootstrapPeers : gset string) : Z * Z :=
  (Z.of_nat (length (filter (λ p, p ∈ bootstrapPeers) connected)), Z.of_nat (size bootstrapPeers)).
(** * Which labels an emission carries *)

Lemma contextLabels_fields ctx :
  contextLabels ctx = list_to_map (ZapFields (NewRequesterInfo ENV semver_IsValid semver_Compare ctx)).
Proof.
  unfold contextLabels. generalize (NewRequesterInfo ENV semver_IsValid semver_Compare ctx).
  intros []. vm_compute. reflexivity.
Qed.

(** What telemetry labels a request with: its client address and messages are for the log only. *)
Lemma requestLabels_record ctx fullMethod err :
  let '(serviceName, methodName) := splitMethodName fullMethod in
  requestLabels (recordFields ctx fullMethod err) =
  list_to_map
    ([("service", serviceName); ("method", methodName);
      ("error_code", match err with Some e => code_String (FromError e).1 | None => EmptyString end)]
     ++ ZapFields (NewRequesterInfo ENV semver_IsValid semver_Compare ctx)).
Proof.
  unfold recordFields. destruct (splitMethodName fullMethod) as [s m].
  generalize (NewRequesterInfo ENV semver_IsValid semver_Compare ctx). intros [].
  generalize (ClientIPFromContext ctx). intros ip. case_bool_decide as Hip; clear Hip;
    (destruct err as [e|];
      [destruct (FromError e) as [c msg]; cbn [fst]; generalize (code_String c); intros cs|]);
    vm_compute; reflexivity.
Qed.
End Labels.

(** * When an emission returns *)

Lemma map_Forall_pairs {V} (P : V → Prop) (l : list (string * V)) :
  NoDup l.*1 → map_Forall (λ _, P) (list_to_map l : gmap string V) ↔ Forall (λ p, P p.2) l.
Proof.
  intros Hd. rewrite Forall_forall. split.
  - intros H [k v] Hin. exact (H k v (elem_of_list_to_map_1 _ _ _ Hd Hin)).
  - intros H k v Hk. exact (H (k, v) (elem_of_list_to_map_2 _ _ _ Hk)).
Qed.

Section Returns.
Context (ENV : string) (semver_IsValid : string → bool) (semver_Compare : string → string → Z).
Context (With : metricVec → labels → bool) (code_String : option code → string).

(** [With] panics unless it is given a valid value for each of the vector's labels and no other. *)
Hypothesis With_returns : ∀ v l,
  With v l = true ↔
  dom l = list_to_set (mv_Labels v) ∧ map_Forall (λ _ x, ValidString x = true) l.

Local Abbreviation requester := (NewRequesterInfo ENV semver_IsValid semver_Compare).

(** What the client's version headers say is valid UTF-8. *)
Definition headersValid (ctx : Ctx) : Prop :=
  let ri := requester ctx in
  Forall (λ s, ValidString s = true)
    [AppName ri; AppVersion ri; ClientName ri; ClientVersion ri; LibxmtpVersion ri].

Lemma emit_returns v (fields : list field) x :
  NoDup fields.*1 → fields.*1 = mv_Labels v →
  is_Some (emit With v (list_to_map fields) x) ↔ Forall (λ p, ValidString p.2 = true) fields.
Proof.
  intros Hd Ef. unfold emit.
  rewrite <- (map_Forall_pairs (λ s, ValidString s = true)) by done.
  destruct (With v (list_to_map fields)) eqn:E.
  - apply With_returns in E as [_ E]. by split; [|eexists].
  - split; [by intros [? ?]|]. intros H. enough (With v (list_to_map fields) = true) by congruence.
    apply With_returns. by rewrite dom_list_to_map_L, Ef.
Qed.

Lemma andThen_returns a b : is_Some (andThen a b) ↔ is_Some a ∧ is_Some b.
Proof.
  unfold andThen. destruct a as [x|], b as [y|]; simpl; rewrite ?is_Some_alt; naive_solver.
Qed.

Lemma fields_valid ctx :
  Forall (λ p, ValidString p.2 = true) (ZapFields (requester ctx)) ↔ headersValid ctx.
Proof.
  unfold headersValid, ZapFields. rewrite !Forall_cons, !Forall_nil. simpl.
  assert (ValidString (formatBool (IsSupportedClient (requester ctx))) = true)
    by (by destruct (IsSupportedClient _)). tauto.
Qed.

(** The vectors of handlers: labelled by the client alone. *)
Lemma context_emit v ctx x :
  mv_Labels v = appClientVersionTagKeys →
  is_Some (emit With v (contextLabels ENV semver_IsValid semver_Compare ctx) x) ↔ headersValid ctx.
Proof.
  intros Ev. rewrite contextLabels_fields, emit_returns, fields_valid; [done| |by rewrite Ev].
  apply (bool_decide_unpack _). vm_compute. exact I.
Qed.

Lemma sizeAndCount_returns size count ctx n :
  is_Some (sizeAndCount ENV semver_IsValid semver_Compare With size count ctx n) ↔ headersValid ctx.
Proof. unfold sizeAndCount. rewrite andThen_returns, !context_emit by done. tauto. Qed.

Lemma subscribe_returns ctx n :
  is_Some (EmitSubscribeTopics ENV semver_IsValid semver_Compare With ctx n) ↔ headersValid ctx.
Proof. unfold EmitSubscribeTopics. rewrite andThen_returns, !context_emit by done. tauto. Qed.

Lemma record_returns ctx fullMethod duration err :
  (∀ c, ValidString (code_String c) = true) →
  ValidString (splitMethodName fullMethod).1 = true →
  ValidString (splitMethodName fullMethod).2 = true →
  is_Some (record ENV semver_IsValid semver_Compare With code_String ctx fullMethod duration err)
  ↔ headersValid ctx.
Proof.
  intros Hc Hs Hm. unfold record. rewrite fmap_is_Some. unfold EmitAPIRequest.
  pose proof (requestLabels_record ENV semver_IsValid semver_Compare code_String ctx fullMethod err) as E.
  destruct (splitMethodName fullMethod) as [s m]. rewrite E.
  rewrite andThen_returns, !emit_returns by (done || by apply (bool_decide_unpack _); vm_compute).
  rewrite !Forall_app, fields_valid, !Forall_cons, Forall_nil. simpl in *.
  assert (ValidString (match err with Some e => code_String (FromError e).1 | None => EmptyString end) = true)
    by (destruct err; done). tauto.
Qed.

(** EmitQuery leaves out the client's labels, so it panics on every query. *)
Lemma query_emission_panics req results err duration :
  EmitQuery With req results err duration = None.
Proof.
  unfold EmitQuery. assert (H : ∀ l x, l !! "app" = None → emit With queryDuration l x = None).
  { intros l x Hl. unfold emit. destruct (With queryDuration l) eqn:E; [|done].
    apply With_returns in E as [E _]. apply not_elem_of_dom in Hl. rewrite E in Hl.
    exfalso. apply Hl. apply (bool_decide_unpack _). vm_compute. exact I. }
  unfold andThen. rewrite H; [done|].
  rewrite lookup_insert_ne by done.
  destruct err; rewrite ?lookup_insert_ne by done; destruct (ContentTopics req); by rewrite ?lookup_singleton_ne, ?lookup_empty by done.
Qed.
End Returns.

(** The client library's check, as a function. *)
Definition checkLabels (v : metricVec) (l : labels) : bool :=
  bool_decide (dom l = list_to_set (mv_Labels v) ∧ map_Forall (λ _ x, ValidString x = true) l).

Lemma checkLabels_returns v l :
  checkLabels v l = true ↔
  dom l = list_to_set (mv_Labels v) ∧ map_Forall (λ _ x, ValidString x = true) l.
Proof. apply bool_decide_eq_true. Qed.
