(* ===== verification/ApiServer.v ===== *)
(** The API server (pkg/api/server.go, config.go, gzip_handler.go): its configuration, what New
    starts and in which order, the interceptors around every unary call, the HTTP gateway's
    handlers, and the node's MLS and identity APIs behind them as one system of calls. *)

From stdpp Require Import pretty.
From S2P Require Import Prelude Topic Types Validate MlsDb ReadStore Store RateLimiter RateLimiterConc Interceptor Service Publish Identity Worker Dispatcher MessageStore MessageApi Metrics.

(** * Configuration *)

(** [net.JoinHostPort]. *)
Definition JoinHostPort (host port : string) : string :=
  if bool_decide (is_Some (String.index 0 ":" host))
  then "[" +:+ host +:+ "]:" +:+ port else host +:+ ":" +:+ port.

Definition addrString (addr : string) (port : Z) : string := JoinHostPort addr (pretty (i64 port)).

Record Options := mkOptions {
  GRPCAddress : string;
  GRPCPort : Z;
  HTTPAddress : string;
  HTTPPort : Z;
  Ratelimits : bool;
  EnableMLS : bool;
  DisableMLSPublish : bool;
  EnableMigration : bool;
  D14NCutoverNs : Z;          (* uint64 *)
}.

(** The components handed over: which of them there are, and the allow list's permissions. *)
Record Config := mkConfig {
  c_Options : Options;
  c_Log : bool;
  c_Waku : bool;
  c_Store : bool;
  c_MLSStore : bool;
  c_MLSValidator : bool;
  c_AllowLister : option permissionMap;
  c_RateLimiter : option Limiter;
}.

Definition ErrMissingLog : error := Plain "missing log config".
Definition ErrMissingWaku : error := Plain "missing waku config".
Definition ErrMissingStore : error := Plain "missing store config".

Section Config.
(** [net.ResolveTCPAddr], of the address. *)
Context (ResolveTCPAddr : string → result ()).

Definition validateAddr (addr : string) (port : Z) : result () := ResolveTCPAddr (addrString addr port).

Definition validate (params : Config) : result () :=
  let o := c_Options params in
  if negb (c_Log params) then Err ErrMissingLog
  else if negb (c_Waku params) then Err ErrMissingWaku
  else if negb (c_Store params) then Err ErrMissingStore
  else _ ← Wrap (validateAddr (HTTPAddress o) (HTTPPort o)) "Invalid HTTP Address";
       Wrap (validateAddr (GRPCAddress o) (GRPCPort o)) "Invalid GRPC Address".
End Config.

(** * Starting and closing *)

Inductive service := Health | Reflection | MessageApiService | D14NMigrationApi | MlsApi | IdentityApi.

#[export] Instance service_eq_dec : EqDecision service.
Proof. solve_decision. Defined.

Inductive unaryInterceptor := PrometheusInterceptor | TelemetryUnary | GatingUnary | RateLimitUnary.

(** The goroutines a server runs. *)
Inductive goroutine := Janitor | GroupWorker | WelcomeWorker | Broadcast | ServeGRPC | ServeHTTP.

#[export] Instance goroutine_eq_dec : EqDecision goroutine.
Proof. solve_decision. Defined.

(** What a publishing service was given: its disablePublish flag and cutover checker. *)
Record publishConf := mkPublishConf { pc_disable : bool; pc_cutover : option Z }.

Record Server := mkServer {
  grpcListener : bool;
  httpListener : bool;
  unary : list unaryInterceptor;
  services : list service;                  (* registered with the gRPC server *)
  routes : list service;                    (* registered with the gateway *)
  messagev1 : bool;
  mlsv1 : option (publishConf * (Z * Z));   (* with its workers' starting points *)
  identityv1 : option publishConf;
  migrationv1 : option Z;
  wakuRelaySub : bool;
  running : list goroutine;
  ctxDone : bool;
  closed : list service;                    (* whose Close was called *)
}.

#[export] Instance Server_eta : Eta Server := λ s,
  mkServer (grpcListener s) (httpListener s) (unary s) (services s) (routes s) (messagev1 s)
    (mlsv1 s) (identityv1 s) (migrationv1 s) (wakuRelaySub s) (running s) (ctxDone s) (closed s).

Definition initServer : Server := mkServer false false [] [] [] false None None None false [] false [].

(** A step of the start: what it changed stays when it fails. *)
Definition starting (A : Type) : Type := Server → result A * Server.

#[export] Instance starting_ret : MRet starting := λ A a s, (Ok a, s).
#[export] Instance starting_bind : MBind starting := λ A B f m s,
  match m s with (Ok a, s) => f a s | (Err e, s) => (Err e, s) end.

Definition try {A} (r : result A) : starting A := λ s, (r, s).
Definition change (f : Server → Server) : starting () := λ s, (Ok (), f s).
Definition when (b : bool) (m : starting ()) : starting () := if b then m else mret ().

(** What the outside answers during the start: [net.Listen] of an address, the database read by
    the MLS service's workers, the relay, the gateway's dial and handler registrations. *)
Record startEnv := mkStartEnv {
  Listen : string → result ();
  e_dbErr1 : option error;
  e_dbErr2 : option error;
  e_db : Db;
  relaySubscribe : result ();
  dialGRPC : result ();
  registerHandler : service → result ();
}.

Section Start.
Context (ResolveTCPAddr : string → result ()) (env : startEnv) (config : Config).

Definition register (sv : service) : starting () := change (λ s, s <| services := services s ++ [sv] |>).
Definition spawn (g : goroutine) : starting () := change (λ s, s <| running := running s ++ [g] |>).

(** getOrCreateRateLimiter: a limiter that was not handed over gets a janitor. *)
Definition getOrCreateRateLimiter : starting () :=
  match c_RateLimiter config with Some _ => mret () | None => spawn Janitor end.

(** NewService of the MLS API starts the workers at the newest ids. *)
Definition newMlsService (conf : publishConf) : starting () :=
  starts ← try (Wrap (getStartPoints (e_dbErr1 env) (e_dbErr2 env) (e_db env)) "creating mls service");
  _ ← spawn GroupWorker; _ ← spawn WelcomeWorker;
  change (λ s, s <| mlsv1 := Some (conf, starts) |>).

Definition startInterceptors : starting () :=
  _ ← change (λ s, s <| unary := [PrometheusInterceptor; TelemetryUnary; GatingUnary] |>);
  when (Ratelimits (c_Options config)) (
    _ ← getOrCreateRateLimiter;
    change (λ s, s <| unary := unary s ++ [RateLimitUnary] |>)).

(** The cutover checker, where the migration is enabled, and the service that tells clients. *)
Definition startMigration : starting (option Z) :=
  let o := c_Options config in
  if EnableMigration o then
    if bool_decide (D14NCutoverNs o = 0)
    then try (Err (Plain "d14n-cutover-ns must be specified when migration is enabled"))
    else
      _ ← change (λ s, s <| migrationv1 := Some (D14NCutoverNs o) |>);
      _ ← register D14NMigrationApi;
      mret (Some (D14NCutoverNs o))
  else mret None.

Definition startMls (cutoverChecker : option Z) : starting () :=
  let o := c_Options config in
  when (c_MLSStore config && c_MLSValidator config && EnableMLS o) (
    let conf := mkPublishConf (DisableMLSPublish o) cutoverChecker in
    _ ← newMlsService conf;
    _ ← register MlsApi;
    _ ← change (λ s, s <| identityv1 := Some conf |>);
    register IdentityApi).

Definition startGRPC : starting () :=
  let o := c_Options config in
  _ ← change (λ s, s <| grpcListener := true |>);
  _ ← try (Wrap (Listen env (addrString (GRPCAddress o) (GRPCPort o))) "creating grpc listener");
  _ ← startInterceptors;
  _ ← register Health; _ ← register Reflection;
  _ ← change (λ s, s <| messagev1 := true |>);
  _ ← register MessageApiService;
  cutoverChecker ← startMigration;
  _ ← startMls cutoverChecker;
  _ ← change (λ s, s <| wakuRelaySub := true |>);
  _ ← try (Wrap (relaySubscribe env) "subscribing to relay");
  _ ← spawn Broadcast;
  spawn ServeGRPC.

Definition route (sv : service) (message : string) : starting () :=
  _ ← try (Wrap (registerHandler env sv) message);
  change (λ s, s <| routes := routes s ++ [sv] |>).

Definition startHTTP : starting () :=
  let o := c_Options config in
  _ ← try (Wrap (dialGRPC env) "dialing grpc server");
  _ ← route MessageApiService "registering message handler";
  _ ← when (c_MLSStore config && EnableMLS o) (
    _ ← route MlsApi "registering mls handler"; route IdentityApi "registering identity handler");
  _ ← when (EnableMigration o) (route D14NMigrationApi "registering migration handler");
  _ ← try (Wrap (Listen env (addrString (HTTPAddress o) (HTTPPort o))) "creating grpc-gateway listener");
  _ ← change (λ s, s <| httpListener := true |>);
  spawn ServeHTTP.

Definition newServer : starting () :=
  _ ← try (validate ResolveTCPAddr config); _ ← startGRPC; startHTTP.

(** New: a start that fails answers no server, and leaves what it had started. *)
Definition New : result Server * Server :=
  match newServer initServer with (Ok _, s) => (Ok s, s) | (Err e, s) => (Err e, s) end.
End Start.

(** The goroutines that end with the server's context, or with their listener. *)
Definition stopsWith (s : Server) (g : goroutine) : bool :=
  match g with
  | Janitor | Broadcast => ctxDone s
  | GroupWorker | WelcomeWorker => bool_decide (MlsApi ∈ closed s)
  | ServeGRPC => negb (grpcListener s)
  | ServeHTTP => negb (httpListener s)
  end.

Definition Close (s : Server) : Server :=
  let s := s <| ctxDone := true |> in
  let s := if wakuRelaySub s then s <| wakuRelaySub := false |> else s in
  let close (sv : service) (b : bool) (s : Server) :=
    if b then s <| closed := closed s ++ [sv] |> else s in
  let s := close MessageApiService (messagev1 s) s in
  let s := close MlsApi (bool_decide (is_Some (mlsv1 s))) s in
  let s := close D14NMigrationApi (bool_decide (is_Some (migrationv1 s))) s in
  let s := s <| httpListener := false |> <| grpcListener := false |> in
  s <| running := filter (λ g, stopsWith s g = false) (running s) |>.

(** The broadcast loop: what comes from the relay goes to the dispatcher. *)
Definition broadcast (wakuEnvs : list (option (option WakuMessage))) (d : SubscriptionDispatcher)
    : SubscriptionDispatcher :=
  foldl (λ d wakuEnv,
    match wakuEnv with
    | Some (Some wakuMsg) => HandleIncomingWakuRelayMessage wakuMsg d
    | _ => d
    end) d wakuEnvs.

(** * The interceptors of a unary call *)

(** A unary call as the interceptors see it: when it comes and how long its handler takes. *)
Record unaryInfo := mkUnaryInfo {
  ui_ctx : Ctx;
  ui_FullMethod : string;
  ui_req : AnyRequest;
  ui_now : Z;
  ui_duration : Z;
}.

(** What lets a call through to its handler: gating, then the limiter where limits apply. *)
Definition admission (ENV : string) (semver_IsValid : string → bool) (semver_Compare : string → string → Z)
    (config : Config) (info : unaryInfo) (rl : Limiter) : option (result () * Limiter) :=
  match gate ENV semver_IsValid semver_Compare (ui_ctx info) with
  | Some e => Some (Err e, rl)
  | None =>
      if Ratelimits (c_Options config)
      then permissions ← c_AllowLister config;
           applyLimits permissions (ui_now info) (ui_ctx info) (ui_req info) rl
      else Some (Ok (), rl)
  end.

Section Chain.
Context {A St : Type}.
Context (ENV : string) (semver_IsValid : string → bool) (semver_Compare : string → string → Z).
Context (With : metricVec → labels → bool) (code_String : option code → string).

(** What calls share: the limiter, what telemetry put out, and the handlers' state. *)
Record shared := mkShared {
  sh_limiter : Limiter;
  sh_telemetry : list (level * list emission);
  sh_state : St;
}.

(** [None] is a panic, which ends the node. *)
Definition unaryHandler : Type := unaryInfo → shared → option (result A * shared).
Definition interceptor : Type := unaryHandler → unaryHandler.

Definition errorOf (r : result A) : option error := match r with Err e => Some e | Ok _ => None end.

Definition telemetryUnary : interceptor := λ handler info s,
  '(res, s) ← handler info s;
  line ← record ENV semver_IsValid semver_Compare With code_String (ui_ctx info)
           (ui_FullMethod info) (ui_duration info) (errorOf res);
  Some (res, mkShared (sh_limiter s) (sh_telemetry s ++ [line]) (sh_state s)).

Definition gatingUnary : interceptor := λ handler info s,
  match gate ENV semver_IsValid semver_Compare (ui_ctx info) with
  | Some e => Some (Err e, s)
  | None => handler info s
  end.

(** Without an allow list, [GetPermission] is called on a nil interface. *)
Definition rateLimitUnary (allowLister : option permissionMap) : interceptor := λ handler info s,
  permissions ← allowLister;
  '(limited, rl) ← applyLimits permissions (ui_now info) (ui_ctx info) (ui_req info) (sh_limiter s);
  let s := mkShared rl (sh_telemetry s) (sh_state s) in
  match limited with
  | Err e => Some (Err e, s)
  | Ok _ => handler info s
  end.

(** The Prometheus interceptor, and the chaining of the gRPC middleware. *)
Context (prometheusUnary : interceptor) (ChainUnaryServer : list interceptor → interceptor).

Definition interceptorOf (allowLister : option permissionMap) (i : unaryInterceptor) : interceptor :=
  match i with
  | PrometheusInterceptor => prometheusUnary
  | TelemetryUnary => telemetryUnary
  | GatingUnary => gatingUnary
  | RateLimitUnary => rateLimitUnary allowLister
  end.

Definition serveUnary (config : Config) (srv : Server) (handler : unaryHandler) : unaryHandler :=
  ChainUnaryServer (interceptorOf (c_AllowLister config) <$> unary srv) handler.

(** A call without its telemetry: admitted or refused, and handled when admitted. *)
Definition untraced (config : Config) (handler : unaryHandler) : unaryHandler := λ info s,
  '(limited, rl) ← admission ENV semver_IsValid semver_Compare config info (sh_limiter s);
  let s := mkShared rl (sh_telemetry s) (sh_state s) in
  match limited with
  | Err e => Some (Err e, s)
  | Ok _ => handler info s
  end.
End Chain.

(** * The HTTP gateway *)

Record httpRequest := mkHttpRequest {
  hr_Method : string;
  hr_Path : string;
  hr_Header : gmap string string;
}.

(** What answers a request. *)
Inductive answeredBy := SwaggerUI | SwaggerJSON | Gateway | Nothing.

Record httpResponse := mkHttpResponse {
  ho_Header : gmap string string;
  ho_Gzipped : bool;
  ho_By : answeredBy;
}.

Definition httpHandler : Type := httpRequest → httpResponse → httpResponse.

Definition toLowerAscii (c : Ascii.ascii) : Ascii.ascii :=
  let n := Ascii.N_of_ascii c in
  if (N.leb 65 n && N.leb n 90)%N then Ascii.ascii_of_N (n + 32) else c.

(** [strings.ToLower] of an ASCII string; header names are ASCII. *)
Fixpoint ToLower (s : string) : string :=
  match s with
  | EmptyString => EmptyString
  | String c s => String (toLowerAscii c) (ToLower s)
  end.

Definition HasSuffix (s suffix : string) : bool :=
  bool_decide (String.length suffix ≤ String.length s)%nat &&
  bool_decide (String.substring (String.length s - String.length suffix) (String.length suffix) s = suffix).

(** The header as the gateway forwards it, and whether it does. *)
Definition incomingHeaderMatcher (key : string) : string * bool :=
  let k := ToLower key in
  if bool_decide (k = "x-app-version") then (key, true)
  else if bool_decide (k = "x-client-version") then (key, true)
  else if bool_decide (k = "x-libxmtp-version") then (key, true)
  else (key, false).

Definition httpMux : httpHandler := λ r w,
  let by_ := if bool_decide (hr_Path r = "/") || HasPrefix (hr_Path r) "/swagger-ui" then SwaggerUI
             else if bool_decide (hr_Path r = "/swagger.json") then SwaggerJSON
             else Gateway in
  mkHttpResponse (ho_Header w) (ho_Gzipped w) by_.

Definition headerGet (h : gmap string string) (key : string) : string := default EmptyString (h !! key).

Definition gzipWrapper (handler : httpHandler) : httpHandler := λ r w,
  if negb (HasSuffix (hr_Path r) "/query") && negb (HasSuffix (hr_Path r) "/batch-query")
  then handler r w
  else if negb (Contains (headerGet (hr_Header r) "Accept-Encoding") "gzip") then handler r w
  else handler r (mkHttpResponse (<["Content-Encoding" := "gzip"]> (ho_Header w)) true (ho_By w)).

Definition allowedHeaders : list string :=
  ["Content-Type"; "Accept"; "Authorization"; "X-App-Version"; "X-Client-Version";
   "X-Libxmtp-Version"; "Baggage"; "DNT"; "Sec-CH-UA"; "Sec-CH-UA-Mobile"; "Sec-CH-UA-Platform";
   "Sentry-Trace"; "User-Agent"; "x-libxmtp-version"; "x-app-version"].
Definition allowedMethods : list string := ["GET"; "HEAD"; "POST"; "PUT"; "PATCH"; "DELETE"].

Definition preflightHandler : httpHandler := λ r w,
  mkHttpResponse
    (<["Access-Control-Allow-Methods" := String.concat "," allowedMethods]>
      (<["Access-Control-Allow-Headers" := String.concat "," allowedHeaders]> (ho_Header w)))
    (ho_Gzipped w) (ho_By w).

Definition allowCORS (h : httpHandler) : httpHandler := λ r w,
  let w := mkHttpResponse (<["Access-Control-Allow-Origin" := "*"]> (ho_Header w)) (ho_Gzipped w) (ho_By w) in
  if bool_decide (hr_Method r = "OPTIONS")
     && negb (bool_decide (headerGet (hr_Header r) "Access-Control-Request-Method" = EmptyString))
  then preflightHandler r w else h r w.

Definition serveHTTP : httpHandler := allowCORS (gzipWrapper httpMux).
Definition respond (r : httpRequest) : httpResponse := serveHTTP r (mkHttpResponse ∅ false Nothing).

(** * What a started server is *)

Lemma bind_starting {A B} (m : starting A) (f : A → starting B) s :
  (a ← m; f a) s = match m s with (Ok a, s) => f a s | (Err e, s) => (Err e, s) end.
Proof. done. Qed.

Lemma try_Ok {A} (r : result A) s a s' : try r s = (Ok a, s') → r = Ok a ∧ s' = s.
Proof. unfold try. by intros [= -> ->]. Qed.

Lemma bind_Ok {A B} (m : starting A) (f : A → starting B) s b s' :
  (a ← m; f a) s = (Ok b, s') → ∃ a s1, m s = (Ok a, s1) ∧ f a s1 = (Ok b, s').
Proof. rewrite bind_starting. destruct (m s) as [[a|] s1]; [|done]. by exists a, s1. Qed.

Section Started.
Context (ResolveTCPAddr : string → result ()) (env : startEnv) (config : Config).
Local Abbreviation o := (c_Options config).

(** The checker both publishing services share. *)
Definition checkerOf : option Z := if EnableMigration o then Some (D14NCutoverNs o) else None.
Definition confOf : publishConf := mkPublishConf (DisableMLSPublish o) checkerOf.
Definition mlsEnabled : bool := c_MLSStore config && c_MLSValidator config && EnableMLS o.

Record started (s : Server) : Prop := {
  st_unary : unary s = [PrometheusInterceptor; TelemetryUnary; GatingUnary]
                       ++ (if Ratelimits o then [RateLimitUnary] else []);
  st_services : services s = [Health; Reflection; MessageApiService]
                             ++ (if EnableMigration o then [D14NMigrationApi] else [])
                             ++ (if mlsEnabled then [MlsApi; IdentityApi] else []);
  st_mls : fst <$> mlsv1 s = if mlsEnabled then Some confOf else None;
  st_identity : identityv1 s = if mlsEnabled then Some confOf else None;
  st_migration : migrationv1 s = checkerOf;
  st_cutover : EnableMigration o = true → D14NCutoverNs o ≠ 0;
}.

Lemma startInterceptors_ok s u s' :
  startInterceptors config s = (Ok u, s') →
  ∃ rs, s' = s <| unary := [PrometheusInterceptor; TelemetryUnary; GatingUnary]
                  ++ (if Ratelimits o then [RateLimitUnary] else []) |> <| running := rs |>.
Proof.
  unfold startInterceptors, getOrCreateRateLimiter. rewrite bind_starting. simpl.
  destruct (Ratelimits o), (c_RateLimiter config); simpl; intros [= _ <-]; eexists; by destruct s.
Qed.

Lemma startMigration_ok s c s' :
  startMigration config s = (Ok c, s') →
  c = checkerOf ∧ (EnableMigration o = true → D14NCutoverNs o ≠ 0) ∧
  s' = (if EnableMigration o then
          s <| migrationv1 := Some (D14NCutoverNs o) |> <| services := services s ++ [D14NMigrationApi] |>
        else s).
Proof.
  unfold startMigration, checkerOf. destruct (EnableMigration o); [|by intros [= <- <-]].
  case_bool_decide; [done|]. by intros [= <- <-].
Qed.

Lemma startMls_ok c s u s' :
  startMls env config c s = (Ok u, s') →
  ∃ starts rs, s' = if mlsEnabled then
      s <| mlsv1 := Some (mkPublishConf (DisableMLSPublish o) c, starts) |>
        <| identityv1 := Some (mkPublishConf (DisableMLSPublish o) c) |>
        <| services := services s ++ [MlsApi; IdentityApi] |> <| running := rs |>
    else s.
Proof.
  unfold startMls, mlsEnabled. destruct (_ && EnableMLS o); simpl; [|intros [= _ <-]; by exists (0, 0), []].
  unfold newMlsService. rewrite !bind_starting. unfold try.
  destruct (getStartPoints _ _ _) as [starts|]; [|done]. intros [= _ <-]. exists starts.
  eexists. simpl. by rewrite <- app_assoc.
Qed.

Lemma startGRPC_ok u s : startGRPC env config initServer = (Ok u, s) → started s ∧ routes s = [].
Proof.
  unfold startGRPC. intros (? & s1 & [= _ <-] & H)%bind_Ok.
  apply bind_Ok in H as (? & s2 & [_ ->]%try_Ok & H).
  apply bind_Ok in H as (? & s3 & Hi & H).
  apply startInterceptors_ok in Hi as [rs ->].
  do 4 (apply bind_Ok in H as (? & ? & [= _ <-] & H)).
  apply bind_Ok in H as (c & s4 & (-> & Hc & ->)%startMigration_ok & H).
  apply bind_Ok in H as (? & s5 & (starts & rs' & ->)%startMls_ok & H).
  apply bind_Ok in H as (? & ? & [= _ <-] & H). apply bind_Ok in H as (? & ? & [_ ->]%try_Ok & H).
  apply bind_Ok in H as (? & ? & [= _ <-] & H). injection H as _ <-.
  unfold confOf. destruct (EnableMigration o) eqn:Em; destruct mlsEnabled eqn:El; (split; [split|done]);
    rewrite ?Em, ?El; unfold checkerOf, confOf, checkerOf; rewrite ?Em; done.
Qed.
Definition routed : list service :=
  [MessageApiService] ++ (if c_MLSStore config && EnableMLS o then [MlsApi; IdentityApi] else [])
  ++ (if EnableMigration o then [D14NMigrationApi] else []).

(** The gateway's part of the start. *)
Definition gatewayOnly (s s' : Server) : Prop :=
  unary s' = unary s ∧ services s' = services s ∧ mlsv1 s' = mlsv1 s ∧ identityv1 s' = identityv1 s ∧
  migrationv1 s' = migrationv1 s.

Lemma route_ok sv message s u s' :
  route env sv message s = (Ok u, s') → s' = s <| routes := routes s ++ [sv] |>.
Proof. unfold route. by intros (? & ? & [_ ->]%try_Ok & [= _ <-])%bind_Ok. Qed.

Lemma startHTTP_ok s u s' :
  startHTTP env config s = (Ok u, s') → gatewayOnly s s' ∧ routes s' = routes s ++ routed.
Proof.
  unfold startHTTP, routed. intros (? & ? & [_ ->]%try_Ok & H)%bind_Ok.
  apply bind_Ok in H as (? & s1 & ->%route_ok & H).
  apply bind_Ok in H as (u2 & s2 & H2 & H). apply bind_Ok in H as (u3 & s3 & H3 & H).
  apply bind_Ok in H as (? & ? & [_ ->]%try_Ok & H). apply bind_Ok in H as (? & ? & [= _ <-] & H).
  injection H as _ <-. unfold when in H2, H3.
  assert (E2 : gatewayOnly s s2 ∧ routes s2 = routes s ++ [MessageApiService]
    ++ (if c_MLSStore config && EnableMLS o then [MlsApi; IdentityApi] else [])).
  { destruct (c_MLSStore config && EnableMLS o); [|by injection H2 as _ <-].
    apply bind_Ok in H2 as (? & ? & ->%route_ok & ->%route_ok). split; [done|]. simpl. by rewrite <- !app_assoc. }
  destruct E2 as [E2 R2]. destruct (EnableMigration o).
  - apply route_ok in H3 as ->. split; [exact E2|]. simpl. by rewrite R2, <- !app_assoc.
  - injection H3 as _ <-. split; [exact E2|]. simpl. by rewrite R2, !app_nil_r.
Qed.

Lemma New_ok s s' :
  New ResolveTCPAddr env config = (Ok s, s') → started s ∧ s' = s ∧ routes s = routed.
Proof.
  unfold New. destruct (newServer _ _ _ _) as [[u|] s1] eqn:H; [|done]. intros [= <- <-].
  unfold newServer in H. apply bind_Ok in H as (? & s2 & [_ ->]%try_Ok & H).
  apply bind_Ok in H as (u2 & s3 & [[] R]%startGRPC_ok & ([E1 E2] & Er)%startHTTP_ok).
  destruct E2 as (E2 & E3 & E4 & E5). rewrite R in Er. split; [|by rewrite Er].
  split; rewrite ?E1, ?E2, ?E3, ?E4, ?E5; done.
Qed.
End Started.

(** Every route of the gateway but those of an MLS API without a validator leads to a service. *)
Lemma routes_lead_to_services ResolveTCPAddr env config s s' sv :
  New ResolveTCPAddr env config = (Ok s, s') → sv ∈ routes s → sv ∉ services s →
  sv ∈ [MlsApi; IdentityApi] ∧ c_MLSValidator config = false.
Proof.
  intros ([] & _ & Er)%New_ok. rewrite Er, st_services0. unfold routed, mlsEnabled.
  destruct (c_MLSStore config), (c_MLSValidator config), (EnableMLS _), (EnableMigration _); simpl; set_solver.
Qed.

(** Close ends every goroutine, where the workers belong to an MLS service; it closes no identity
    service. *)
Lemma Close_ends s :
  (GroupWorker ∈ running s ∨ WelcomeWorker ∈ running s → is_Some (mlsv1 s)) → closed s = [] →
  running (Close s) = [] ∧ IdentityApi ∉ closed (Close s).
Proof.
  intros Hw Hc. unfold Close.
  set (s1 := _ <| grpcListener := false |>).
  assert (E : ctxDone s1 = true ∧ grpcListener s1 = false ∧ httpListener s1 = false ∧
    running s1 = running s ∧ (is_Some (mlsv1 s) → MlsApi ∈ closed s1) ∧ IdentityApi ∉ closed s1).
  { unfold s1. clear Hw s1. destruct s as [? ? ? ? ? msg mls ? mig relay ? ? cl]. simpl in Hc. subst cl.
    destruct relay, msg, mls, mig; simpl; (split_and!; [done..|set_solver|set_solver]). }
  clearbody s1. destruct E as (Ed & Eg & Eh & Er & Em & Ei). split; [|exact Ei]. simpl. rewrite Er.
  apply filter_drop_all. intros g Hg Hs. apply not_true_iff_false in Hs. apply Hs.
  destruct g; simpl; rewrite ?Ed, ?Eg, ?Eh; try done;
    rewrite bool_decide_eq_true_2; try done; apply Em, Hw; auto.
Qed.

(** * The chain *)

Section ChainProps.
Context {A St : Type}.
Context (ENV : string) (semver_IsValid : string → bool) (semver_Compare : string → string → Z).
Context (With : metricVec → labels → bool) (code_String : option code → string).
Context (prometheusUnary : interceptor (A:=A) (St:=St))
  (ChainUnaryServer : list (interceptor (A:=A) (St:=St)) → interceptor (A:=A) (St:=St)).

(** The Prometheus interceptor observes; a chain runs its interceptors from the first inwards. *)
Hypothesis prometheus_passes : ∀ h info s, prometheusUnary h info s = h info s.
Hypothesis chain_nil : ∀ h info s, ChainUnaryServer [] h info s = h info s.
Hypothesis chain_cons : ∀ i rest h info s,
  ChainUnaryServer (i :: rest) h info s = i (ChainUnaryServer rest h) info s.

Local Abbreviation serve := (serveUnary ENV semver_IsValid semver_Compare With code_String
  prometheusUnary ChainUnaryServer).
Local Abbreviation untraced := (untraced ENV semver_IsValid semver_Compare).
Local Abbreviation recordOf info r := (record ENV semver_IsValid semver_Compare With code_String
  (ui_ctx info) (ui_FullMethod info) (ui_duration info) (errorOf r)).

(** A call is untraced, then recorded. *)
Lemma serveUnary_spec config srv handler info s :
  started config srv →
  serve config srv handler info s =
    ('(res, s) ← untraced config handler info s;
     line ← recordOf info res;
     Some (res, mkShared (sh_limiter s) (sh_telemetry s ++ [line]) (sh_state s))).
Proof.
  intros [Eu _ _ _ _ _]. unfold serveUnary, ApiServer.untraced, admission. rewrite Eu, fmap_app.
  cbn [fmap list_fmap app interceptorOf].
  rewrite chain_cons, prometheus_passes, chain_cons. unfold telemetryUnary at 1.
  rewrite chain_cons. unfold gatingUnary at 1. destruct s as [rl tel st]. cbn [sh_limiter sh_telemetry sh_state].
  destruct (gate _ _ _ _); [done|]. destruct (Ratelimits (c_Options config)).
  - cbn [fmap list_fmap interceptorOf]. rewrite chain_cons. unfold rateLimitUnary at 1.
    destruct (c_AllowLister config) as [permissions|]; [|done]. simpl.
    destruct (applyLimits _ _ _ _ _) as [[[[]|e] rl']|]; [|done..]. simpl. by rewrite chain_nil.
  - cbn [fmap list_fmap]. simpl. by rewrite chain_nil.
Qed.

Hypothesis With_returns : ∀ v l,
  With v l = true ↔
  dom l = list_to_set (mv_Labels v) ∧ map_Forall (λ _ x, ValidString x = true) l.
Hypothesis codes_valid : ∀ c, ValidString (code_String c) = true.

(** C23. What a unary call goes through, whatever the method and its handler: it is gated, limited
    where limits are on, handled, and recorded; and the node survives it exactly when the gate,
    limiter and handler do and the client's version headers are valid UTF-8, since request metrics
    carry them as labels, and none is missing. *)
Theorem call_survives ResolveTCPAddr env config srv srv' handler info s :
  New ResolveTCPAddr env config = (Ok srv, srv') →
  ValidString (splitMethodName (ui_FullMethod info)).1 = true →
  ValidString (splitMethodName (ui_FullMethod info)).2 = true →
  (is_Some (serve config srv handler info s) ↔
   is_Some (untraced config handler info s) ∧ headersValid ENV semver_IsValid semver_Compare (ui_ctx info)) ∧
  (∀ res s', serve config srv handler info s = Some (res, s') →
   ∃ s1 line, untraced config handler info s = Some (res, s1) ∧ sh_limiter s' = sh_limiter s1 ∧
     sh_state s' = sh_state s1 ∧ sh_telemetry s' = sh_telemetry s1 ++ [line] ∧
     line.1 = recordLevel (errorOf res)).
Proof.
  intros (Hst & _ & _)%New_ok Hs Hm. rewrite (serveUnary_spec config srv handler info s Hst).
  destruct (untraced config handler info s) as [[res s1]|]; simpl; [|split; [by split; [intros [? ?]|intros [[? ?] _]]|done]].
  pose proof (record_returns ENV semver_IsValid semver_Compare With code_String With_returns (ui_ctx info)
    (ui_FullMethod info) (ui_duration info) (errorOf res) codes_valid Hs Hm) as Hr.
  destruct (recordOf info res) as [line|] eqn:El; simpl.
  - split; [split; [intros _; split; [by eexists|by apply Hr; eexists]|by eexists]|].
    intros res' s' [= <- <-]. exists s1, line. split_and!; try done.
    unfold record in El. destruct (EmitAPIRequest _ _ _); [|done]. by injection El as <-.
  - split; [|done]. split; [by intros [? ?]|]. intros [_ H%Hr]. by destruct H.
Qed.

(** Limits without an allow list: every call that passes the version gate ends the node. *)
Lemma limits_need_allow_list config info rl :
  Ratelimits (c_Options config) = true → c_AllowLister config = None →
  gate ENV semver_IsValid semver_Compare (ui_ctx info) = None →
  admission ENV semver_IsValid semver_Compare config info rl = None.
Proof. intros Hr Ha Hg. unfold admission. by rewrite Hg, Hr, Ha. Qed.
End ChainProps.

(** * The gateway's answers *)

Lemma preflight_answered r :
  hr_Method r = "OPTIONS" → headerGet (hr_Header r) "Access-Control-Request-Method" ≠ EmptyString →
  ho_By (respond r) = Nothing ∧ ho_Gzipped (respond r) = false ∧
  ho_Header (respond r) !! "Access-Control-Allow-Origin" = Some "*".
Proof.
  intros Hm Hh. unfold respond, serveHTTP, allowCORS. rewrite Hm, !bool_decide_eq_true_2, bool_decide_eq_false_2 by done.
  done.
Qed.

(** Every response allows any origin, and only queries are compressed, for clients that can. *)
Lemma respond_headers r :
  ho_Header (respond r) !! "Access-Control-Allow-Origin" = Some "*" ∧
  (ho_Gzipped (respond r) = true →
   (HasSuffix (hr_Path r) "/query" = true ∨ HasSuffix (hr_Path r) "/batch-query" = true) ∧
   Contains (headerGet (hr_Header r) "Accept-Encoding") "gzip" = true ∧
   ho_Header (respond r) !! "Content-Encoding" = Some "gzip").
Proof.
  unfold respond, serveHTTP, allowCORS, gzipWrapper, httpMux, preflightHandler.
  destruct (_ && negb (bool_decide (headerGet _ _ = EmptyString))); [done|].
  destruct (HasSuffix (hr_Path r) "/query"), (HasSuffix (hr_Path r) "/batch-query"),
    (Contains _ "gzip"); simpl; split; try done; intros _; auto.
Qed.

(** * A client with a broken version header *)

Definition plainConfig : Config :=
  mkConfig (mkOptions "0.0.0.0" 5556 "0.0.0.0" 5555 false true false false 0) true true true true true None None.
Definition quietStart : startEnv :=
  mkStartEnv (λ _, Ok ()) None None emptyDb (Ok ()) (Ok ()) (λ _, Ok ()).
Definition plainServer : Server := (New (λ _, Ok ()) quietStart plainConfig).2.

Definition brokenCall : unaryInfo :=
  mkUnaryInfo (mkCtx (Some {[ "x-app-version" := [String (Ascii.ascii_of_nat 255) EmptyString] ]}) None)
    "/xmtp.mls.api.v1.MlsApi/QueryGroupMessages" OtherRequest 0 5000000.

Lemma call_survives_witness :
  let handler : unaryHandler (A := ()) (St := ()) := λ _ s, Some (Ok (), s) in
  serveUnary "" (λ _, true) (λ _ _, 0) checkLabels (λ _, "OK") (λ h, h) (λ is_ h, foldr (λ i acc, i acc) h is_)
    plainConfig plainServer handler brokenCall (mkShared NewTokenBucketRateLimiter [] ()) = None.
Proof.
  intros handler. assert (Hs : New (λ _, Ok ()) quietStart plainConfig = (Ok plainServer, plainServer))
    by (vm_compute; reflexivity).
  destruct (call_survives "" (λ _, true) (λ _ _, 0) checkLabels (λ _, "OK") (λ h, h)
    (λ is_ h, foldr (λ i acc, i acc) h is_) ltac:(done) ltac:(done) ltac:(done) checkLabels_returns ltac:(done)
    (λ _, Ok ()) quietStart plainConfig plainServer plainServer handler brokenCall
    (mkShared NewTokenBucketRateLimiter [] ()) Hs eq_refl eq_refl) as [H _].
  destruct (serveUnary _ _ _ _ _ _ _ _ _ _ _ _) as [r|]; [|done].
  destruct (proj1 H (ex_intro _ r eq_refl)) as [_ Hh]. exfalso.
  apply Forall_cons in Hh as [Hh _]. vm_compute in Hh. discriminate.
Defined.
