(* ===== verification/NodeApi.v ===== *)
(** The node's MLS and identity APIs behind their interceptors, as one system: calls arrive, are
    refused, answered, or join the calls in flight over the shared database, whose statements
    interleave ([apiRun]): those of the MLS publishing handlers (InFlight.v) and those of the
    identity publishers (Publish.v). From the migration cutover on no publishing call gets in; those
    that had passed the gate before it go on to their end, writes included. *)

From S2P Require Import Prelude Topic Types Validate MlsDb ReadStore Store RateLimiter RateLimiterConc Interceptor Service InFlight Publish Identity Metrics ApiServer.

(** * The calls *)

Section NodeApi.
Context {IdentityUpdate Signature : Type}.
Context (GetInboxId : IdentityUpdate → string).
Context (Unmarshal : bytes → result IdentityUpdate) (Marshal : IdentityUpdate → result bytes).
Context (GetAssociationState : list IdentityUpdate → list IdentityUpdate → result StateDiff).
Context (hashtext : string → Z) (sha256 : bytes → bytes).
Context (grpcValidateKeyPackages : list (bytes * bool) → result (list ValidateKeyPackagesResponse))
  (grpcValidateGroupMessages : list bytes → result (list ValidateGroupMessagesResponse)).
Context (marshalSignature : Signature → result bytes) (unmarshalSignature : bytes → result Signature).

Local Abbreviation sys := (Publish.sys (IdentityUpdate := IdentityUpdate)).

(** The unary methods of the two APIs, each with its request and what the outside decides. The
    identity reads name the replica they see. *)
Inductive apiCall :=
  | CallRegisterInstallation (tx : txEnv) (req : option KeyPackageRequest)
  | CallUploadKeyPackage (tx : txEnv) (req : option KeyPackageRequest)
  | CallFetchKeyPackages (dbErr : option error) (ids : list bytes)
  | CallRevokeInstallation
  | CallServiceGetIdentityUpdates
  | CallSendGroupMessages (env : nat → insertEnv) (req : option SendGroupMessagesReq)
  | CallSendWelcomeMessages (req : option SendWelcomeMessagesReq)
  | CallQueryGroupMessages (dbErr : option error) (req : QueryGroupMessagesRequest)
  | CallQueryWelcomeMessages (dbErr : option error) (req : QueryWelcomeMessagesRequest)
  | CallGetNewestGroupMessage (dbErr : option error) (req : option GetNewestGroupMessageReq)
  | CallBatchPublishCommitLog (env : nat → insertEnv)
      (req : option (list (option (PublishCommitLogRequest Signature))))
  | CallBatchQueryCommitLog (dbErr : nat → option error) (req : option (list (option QueryCommitLogRequest)))
  | CallPublishIdentityUpdate (i : nat) (req : option IdentityUpdate)
  | CallGetIdentityUpdates (dbErr : option error) (req : list GetIdentityUpdatesRequest_Request)
  | CallGetInboxIds (dbErr : option error) (req : list string) (replica : Db)
  | CallVerifySmartContractWalletSignatures (verified : result ()).

Definition serviceOf (c : apiCall) : service :=
  match c with
  | CallPublishIdentityUpdate _ _ | CallGetIdentityUpdates _ _ | CallGetInboxIds _ _ _
  | CallVerifySmartContractWalletSignatures _ => IdentityApi
  | _ => MlsApi
  end.

(** The calls that publish. *)
Definition publishes (c : apiCall) : bool :=
  match c with
  | CallRegisterInstallation _ _ | CallUploadKeyPackage _ _ | CallSendGroupMessages _ _
  | CallSendWelcomeMessages _ | CallBatchPublishCommitLog _ _ | CallPublishIdentityUpdate _ _ => true
  | _ => false
  end.

(** The request as the rate limiter sees it. *)
Definition requestOf (c : apiCall) : AnyRequest :=
  match c with
  | CallRegisterInstallation _ _ => RegisterInstallationRequest
  | CallUploadKeyPackage _ _ => UploadKeyPackageRequest
  | CallPublishIdentityUpdate _ _ => PublishIdentityUpdateRequest
  | CallSendGroupMessages _ req =>
      SendGroupMessagesRequest (Z.of_nat (length (default [] (sg_Messages <$> req))))
  | CallSendWelcomeMessages req =>
      SendWelcomeMessagesRequest (Z.of_nat (length (default [] (sw_Messages <$> req))))
  | _ => OtherRequest
  end.

(** * Handling a call *)

(** The database with the identity publishers, and the MLS publishing calls in flight. *)
Record apiStore := mkApiStore { store : sys; works : gmap nat work }.
#[export] Instance apiStore_eta : Eta apiStore := λ s, mkApiStore (store s) (works s).

Definition setLive (d : Db) (s : apiStore) : apiStore := s <| store := store s <| live := d |> |>.

(** A call that reads is answered at once, a publishing call when its work is done. *)
Inductive reply := Answered (r : result ()) | Pending.

Definition handled {A} (h : handler A) (s : apiStore) (o : reply) (s' : apiStore) : Prop :=
  ∃ r d, h (live (store s)) = Some (r, d) ∧ o = Answered (_ ← r; Ok ()) ∧ s' = setLive d s.

(** A publishing call: the gate is asked once, and what passes it is in flight. *)
Definition enters (conf : publishConf) (now : Z) (w : work) (s : apiStore) (o : reply) (s' : apiStore) : Prop :=
  if isPublishDisabled (pc_disable conf) (pc_cutover conf) now
  then o = Answered (Err publishDisabled) ∧ s' = s
  else ∃ i, works s !! i = None ∧ o = Pending ∧ s' = s <| works := <[i := w]> (works s) |>.

(** What a call may do to the store, under the configuration of its service. *)
Definition handles (conf : publishConf) (now : Z) (c : apiCall) (s : apiStore) (o : reply) (s' : apiStore) : Prop :=
  match c with
  | CallRegisterInstallation tx req =>
      enters conf now (Handling (registering grpcValidateKeyPackages tx req)) s o s'
  | CallUploadKeyPackage tx req =>
      enters conf now (Handling (uploading grpcValidateKeyPackages tx req)) s o s'
  | CallFetchKeyPackages dbErr ids => handled (FetchKeyPackages dbErr ids) s o s'
  | CallRevokeInstallation => handled RevokeInstallation s o s'
  | CallServiceGetIdentityUpdates => handled Service_GetIdentityUpdates s o s'
  | CallSendGroupMessages env req =>
      enters conf now (Handling (sending sha256 grpcValidateGroupMessages env req)) s o s'
  | CallSendWelcomeMessages req => enters conf now (welcoming req) s o s'
  | CallQueryGroupMessages dbErr req => handled (Service_QueryGroupMessages dbErr req) s o s'
  | CallQueryWelcomeMessages dbErr req => handled (Service_QueryWelcomeMessages dbErr req) s o s'
  | CallGetNewestGroupMessage dbErr req => handled (Service_GetNewestGroupMessage dbErr req) s o s'
  | CallBatchPublishCommitLog env req =>
      enters conf now (Handling (logging marshalSignature env req)) s o s'
  | CallBatchQueryCommitLog dbErr req => handled (BatchQueryCommitLog unmarshalSignature dbErr req) s o s'
  | CallPublishIdentityUpdate i req =>
      match Identity_PublishIdentityUpdate GetInboxId Unmarshal Marshal GetAssociationState hashtext
              (pc_disable conf) (pc_cutover conf) now i req (store s) with
      | Err e => o = Answered (Err e) ∧ s' = s
      | Ok (Some s1) => o = Pending ∧ s' = s <| store := s1 |>
      | Ok None => False      (* the name of another call's publisher *)
      end
  | CallGetIdentityUpdates dbErr req =>
      o = Answered (_ ← Identity_GetIdentityUpdates Unmarshal dbErr req (store s); Ok ()) ∧ s' = s
  | CallGetInboxIds dbErr req replica =>
      o = Answered (_ ← Identity_GetInboxIds dbErr req replica; Ok ()) ∧ s' = s
  | CallVerifySmartContractWalletSignatures verified => o = Answered verified ∧ s' = s
  end.

(** * The system *)

Context (ENV : string) (semver_IsValid : string → bool) (semver_Compare : string → string → Z).
Context (With : metricVec → labels → bool) (code_String : option code → string).
Context (config : Config) (srv : Server).

Local Abbreviation state := (shared (St := apiStore)).
Local Abbreviation admits := (admission ENV semver_IsValid semver_Compare config).
Local Abbreviation records info err := (record ENV semver_IsValid semver_Compare With code_String
  (ui_ctx info) (ui_FullMethod info) (ui_duration info) err).

(** What happens next: a call arrives; a call in flight makes a statement, or returns; an identity
    publisher takes a step, or its call returns. *)
Inductive apiEvent :=
  | Call (info : unaryInfo) (c : apiCall)
  | WorkStep (i : nat)
  | WorkReturns (info : unaryInfo) (i : nat)
  | PublisherStep (a : Publish.label (IdentityUpdate := IdentityUpdate))
  | PublisherReturns (info : unaryInfo) (i : nat).

Definition confFor (sv : service) : option publishConf :=
  match sv with
  | MlsApi => fst <$> mlsv1 srv
  | IdentityApi => identityv1 srv
  | _ => None
  end.

Definition arrives (a : Publish.label (IdentityUpdate := IdentityUpdate)) : Prop :=
  match a with Arrive _ _ => True | _ => False end.

Definition unregistered : error := Status Unimplemented "unknown service".

(** An event and the answer a client gets; a panic has no step. *)
Inductive apiStep : apiEvent → state → option (result ()) → state → Prop :=
  | Step_unregistered info c s :
      serviceOf c ∉ services srv → apiStep (Call info c) s (Some (Err unregistered)) s
  | Step_refused info c s e rl line :
      serviceOf c ∈ services srv → ui_req info = requestOf c →
      admits info (sh_limiter s) = Some (Err e, rl) → records info (Some e) = Some line →
      apiStep (Call info c) s (Some (Err e)) (mkShared rl (sh_telemetry s ++ [line]) (sh_state s))
  | Step_answered info c conf s r rl line st :
      serviceOf c ∈ services srv → confFor (serviceOf c) = Some conf → ui_req info = requestOf c →
      admits info (sh_limiter s) = Some (Ok (), rl) →
      handles conf (ui_now info) c (sh_state s) (Answered r) st →
      records info (errorOf r) = Some line →
      apiStep (Call info c) s (Some r) (mkShared rl (sh_telemetry s ++ [line]) st)
  | Step_pending info c conf s rl st :
      serviceOf c ∈ services srv → confFor (serviceOf c) = Some conf → ui_req info = requestOf c →
      admits info (sh_limiter s) = Some (Ok (), rl) →
      handles conf (ui_now info) c (sh_state s) Pending st →
      apiStep (Call info c) s None (mkShared rl (sh_telemetry s) st)
  | Step_work i s w w' d :
      works (sh_state s) !! i = Some w →
      workStep sha256 w (live (store (sh_state s))) w' d →
      apiStep (WorkStep i) s None (mkShared (sh_limiter s) (sh_telemetry s)
        (setLive d (sh_state s) <| works := <[i := w']> (works (sh_state s)) |>))
  | Step_work_returns info i s w r line :
      works (sh_state s) !! i = Some w → workReturns w r →
      records info (errorOf r) = Some line →
      apiStep (WorkReturns info i) s (Some r) (mkShared (sh_limiter s) (sh_telemetry s ++ [line])
        (sh_state s <| works := delete i (works (sh_state s)) |>))
  | Step_publisher a s st :
      ¬ arrives a →
      step GetInboxId Unmarshal Marshal GetAssociationState hashtext a (store (sh_state s)) = Some st →
      apiStep (PublisherStep a) s None
        (mkShared (sh_limiter s) (sh_telemetry s) (sh_state s <| store := st |>))
  | Step_returns info i s r line :
      publishResponse i (store (sh_state s)) = Some r → records info (errorOf r) = Some line →
      apiStep (PublisherReturns info i) s (Some r)
        (mkShared (sh_limiter s) (sh_telemetry s ++ [line]) (sh_state s)).

(** A run: its events, with the answer each gave. *)
Inductive apiRun : state → list (apiEvent * option (result ())) → state → Prop :=
  | Run_nil s : apiRun s [] s
  | Run_cons ev s1 answer s2 evs s3 :
      apiStep ev s1 answer s2 → apiRun s2 evs s3 → apiRun s1 ((ev, answer) :: evs) s3.

(** * Calls after the cutover *)

(** Handlers that only read. *)
Definition readOnly {A} (h : handler A) : Prop := ∀ d r d', h d = Some (r, d') → d' = d.

Lemma readOnly_reads {A} (f : Db → result A) : readOnly (reads f).
Proof. by intros d r d' [= _ <-]. Qed.
Lemma readOnly_pure {A} (r : result A) : readOnly (pure r).
Proof. by intros d r' d' [= _ <-]. Qed.
Lemma readOnly_fails {A} e : readOnly (fails (A:=A) e).
Proof. by intros d r d' [= _ <-]. Qed.
Lemma readOnly_orElse {A} (h : handler A) f : readOnly h → readOnly (orElse h f).
Proof.
  intros H d r d'. unfold orElse. destruct (h d) as [[[|] d1]|] eqn:E; [| |done]; intros [= _ <-];
    exact (H _ _ _ E).
Qed.
Lemma readOnly_bind {A B} (h : handler A) (f : A → handler B) :
  readOnly h → (∀ a, readOnly (f a)) → readOnly (a ← h; f a).
Proof.
  intros Hh Hf d r d'. unfold mbind, handler_bind.
  destruct (h d) as [[[a|e] d1]|] eqn:E; [|intros H; simplify_eq; exact (Hh _ _ _ E)|done].
  intros H. rewrite (Hf _ _ _ _ H). exact (Hh _ _ _ E).
Qed.

Lemma handled_readOnly {A} (h : handler A) s o s' :
  readOnly h → handled h s o s' → s' = s ∧ o ≠ Pending.
Proof. intros Hh (r & d & ->%Hh & -> & ->). by destruct s as [[]]. Qed.

Lemma handles_refused conf now c s o s' :
  isPublishDisabled (pc_disable conf) (pc_cutover conf) now = true → handles conf now c s o s' →
  s' = s ∧ o ≠ Pending ∧ (publishes c = true → ∃ e, o = Answered (Err e)).
Proof.
  intros Hd H. destruct c; cbn [handles publishes] in *;
    try (unfold enters in H; rewrite Hd in H; destruct H as [-> ->]; by split_and!; [..|eexists]);
    try (by destruct H as [-> ->]); try (apply handled_readOnly in H as [-> ?]; [done|]).
  - apply readOnly_bind; [apply readOnly_orElse, readOnly_reads|intros; apply readOnly_pure].
  - apply readOnly_fails.
  - apply readOnly_fails.
  - apply readOnly_reads.
  - apply readOnly_reads.
  - apply readOnly_bind; [apply readOnly_pure|intros; apply readOnly_orElse, readOnly_reads].
  - apply readOnly_bind; [apply readOnly_pure|intros; apply readOnly_reads].
  - rewrite publish_refused in H by done. destruct H as [-> ->]. by split_and!; [..|eexists].
Qed.

(** ** Publishers that were already there *)

(** The tables of the MLS API. *)
Definition mlsPart (d : Db) :=
  (group_messages d, group_messages_seq d, welcome_messages d, welcome_messages_seq d,
   installations d, key_packages d, key_packages_seq d, commit_log_v2 d, commit_log_v2_seq d).

Definition returned (p : txPhase) : Prop :=
  match p with Published | Failed _ => True | _ => False end.

(** No publisher is at work. *)
Definition settled (s : sys) : Prop := ∀ i u p, procs s !! i = Some (u, p) → returned p.

Lemma insertMembers_mls inboxId seq members d d' :
  insertMembers inboxId seq members d = Ok d' → mlsPart d' = mlsPart d.
Proof.
  revert d. induction members as [|[address|] members IH]; intros d; simpl; [by intros [= <-]| |apply IH].
  unfold InsertAddressLog. destruct (decoded inboxId); simpl; [|done]. intros ->%IH. done.
Qed.

Lemma revokeMembers_mls inboxId seq members d d' :
  revokeMembers inboxId seq members d = Ok d' → mlsPart d' = mlsPart d.
Proof.
  revert d. induction members as [|[address|] members IH]; intros d; simpl; [by intros [= <-]| |apply IH].
  unfold RevokeAddressFromLog. destruct (decoded inboxId); simpl; [|done]. intros ->%IH. done.
Qed.

Lemma writes_mls now u seq proto diff d d' :
  writes GetInboxId now u seq proto diff d = Ok d' → mlsPart d' = mlsPart d.
Proof.
  unfold writes. destruct (decoded (GetInboxId u)) as [id|]; [|done]. simpl.
  destruct (insertMembers _ _ _ _) as [d1|] eqn:E1; [|done]. simpl.
  destruct (revokeMembers _ _ _ _) as [d2|] eqn:E2; [|done]. simpl.
  unfold TouchInbox. destruct (decoded (GetInboxId u)); [|done]. intros [= <-].
  apply insertMembers_mls in E1. apply revokeMembers_mls in E2. by etrans; [exact E2|].
Qed.

Local Abbreviation publisherStep := (step GetInboxId Unmarshal Marshal GetAssociationState hashtext).

(** What a publisher's step may do: change its own entry, and the inbox tables. *)
Definition keeps (s s' : sys) : Prop :=
  mlsPart (live s') = mlsPart (live s) ∧ dom (procs s') = dom (procs s).

Lemma keeps_setProc i u p s0 s : i ∈ dom (procs s0) → keeps s0 s → keeps s0 (setProc i u p s).
Proof.
  intros Hi [H1 H2]. split; [exact H1|]. unfold setProc. simpl. rewrite dom_insert_L. set_solver.
Qed.

Lemma keeps_retry i u n e s0 s : i ∈ dom (procs s0) → keeps s0 s → keeps s0 (retry i u n e s).
Proof. intros Hi H. by apply keeps_setProc. Qed.

Lemma commitTx_keeps i now lost s s' :
  commitTx GetInboxId hashtext i now lost s = Some s' →
  keeps s s' ∧ ¬ settled s.
Proof.
  intros (u & id & n & snap & v & sq & proto & diff & Hi & _ & H)%commitTx_spec.
  assert (Hd : i ∈ dom (procs s)) by (by eapply elem_of_dom_2).
  split; [|intros Hs; exact (Hs i u _ Hi)].
  destruct H as [[e ->]|(d & p & _ & Hw & _ & ->)]; [by apply keeps_retry|].
  apply keeps_setProc; [done|]. split; [by apply writes_mls in Hw|done].
Qed.

Lemma publisher_step a s s' :
  ¬ arrives a → publisherStep a s = Some s' → keeps s s' ∧ ¬ settled s.
Proof.
  intros Ha H.
  assert (Hns : ∀ i u p, procs s !! i = Some (u, p) → ¬ returned p → i ∈ dom (procs s) ∧ ¬ settled s).
  { intros i u p Hi Hp. split; [by eapply elem_of_dom_2|]. intros Hs. by apply Hp, (Hs i u). }
  destruct a as [i u|i|i|i|i now|i e|i now e|i]; simpl in H; [done|..];
    try (by eapply commitTx_keeps);
    try (apply failTx_spec in H as (u & p & n & l & Hi & Hp & ->);
         destruct (Hns i _ _ Hi ltac:(by destruct p)); split; [by apply keeps_retry|done]);
    (destruct (procs s !! i) as [[u p]|] eqn:Hi; [|done]); destruct p as [n|n snap v|n snap v|n snap v sq pr df| |e];
    try done; destruct (Hns i _ _ Hi ltac:(done)) as [Hd Hs]; (split; [|exact Hs]); simpl in H.
  - injection H as <-. by apply keeps_setProc.
  - destruct (locks s !! _); [done|]. injection H as <-. by apply keeps_setProc.
  - destruct (prepare _ _ _ _ _ _) as [[pr df]|e]; injection H as <-; [by apply keeps_setProc|by apply keeps_retry].
  - injection H as <-. by apply keeps_setProc.
Qed.

(** ** Closed to publishing *)

(** Publishing is disabled for good, or the cutover has come. *)
Definition closedAt (now : Z) : Prop :=
  let o := c_Options config in
  DisableMLSPublish o = true ∨
  EnableMigration o = true ∧ 0 ≤ now < 2 ^ 64 ∧ D14NCutoverNs o ≤ now.

Lemma closed_disables conf sv now :
  started config srv → confFor sv = Some conf → closedAt now →
  isPublishDisabled (pc_disable conf) (pc_cutover conf) now = true.
Proof.
  intros [_ _ Em Ei _ Hc] Hconf Hnow.
  assert (E : conf = confOf config).
  { destruct sv; simpl in Hconf; try done; rewrite Hconf in *; destruct (mlsEnabled config); congruence. }
  subst conf. unfold isPublishDisabled, confOf, checkerOf. simpl.
  destruct Hnow as [->|(Hm & Hr & Hle)]; [done|]. rewrite Hm. unfold IsMigrationComplete.
  rewrite bool_decide_eq_false_2 by auto. rewrite bool_decide_eq_true_2; [apply orb_true_r|].
  by rewrite u64_small.
Qed.

(** How many statements of a call in flight are among the events. *)
Definition stepOf (i : nat) (ev : apiEvent) : nat :=
  match ev with WorkStep j => if decide (j = i) then 1%nat else 0%nat | _ => 0%nat end.
Definition stepsOf (i : nat) (evs : list (apiEvent * option (result ()))) : nat :=
  sum_list (stepOf i ∘ fst <$> evs).

Lemma stepsOf_cons i ev answer evs : stepsOf i ((ev, answer) :: evs) = (stepOf i ev + stepsOf i evs)%nat.
Proof. done. Qed.

Lemma stepsOf_none i evs : (∀ answer, (WorkStep i, answer) ∉ evs) → stepsOf i evs = 0%nat.
Proof.
  induction evs as [|[ev a] evs IH]; intros H; [done|]. rewrite stepsOf_cons, IH by set_solver.
  destruct ev as [| j | | |]; simpl; try done. destruct (decide (j = i)) as [->|]; [|done].
  destruct (H a). constructor.
Qed.

(** An event of a closed API: what is in flight goes on, and nothing else happens. *)
Record closedStep (ev : apiEvent) (s s' : apiStore) (answer : option (result ())) : Prop := {
  cs_publishers : dom (procs (store s')) = dom (procs (store s));
  cs_works : dom (works s') ⊆ dom (works s);
  cs_mls : match ev with
           | WorkStep i => i ∈ dom (works s)
           | _ => mlsPart (live (store s')) = mlsPart (live (store s))
           end;
  cs_bound : ∀ i w n, works s !! i = Some w → atMost n w →
    (works s' !! i = None ∧ stepOf i ev = 0%nat) ∨
    ∃ w' m, works s' !! i = Some w' ∧ atMost m w' ∧ n = (stepOf i ev + m)%nat;
  cs_settled : works s = ∅ → settled (store s) → s' = s;
  cs_refused : match ev with
               | Call _ c => publishes c = true → ∃ e, answer = Some (Err e)
               | _ => True
               end;
}.

(** An event that leaves the calls in flight alone. *)
Lemma closedStep_quiet ev s s' answer :
  works s' = works s → keeps (store s) (store s') → (∀ i, ev ≠ WorkStep i) →
  (settled (store s) → s' = s) →
  match ev with Call _ c => publishes c = true → ∃ e, answer = Some (Err e) | _ => True end →
  closedStep ev s s' answer.
Proof.
  intros Ew [Hm Hp] Hev Hset Hr.
  assert (E0 : ∀ i, stepOf i ev = 0%nat) by (intros i; destruct ev; try done; by destruct (Hev i0)).
  split; [done|by rewrite Ew| |..].
  - destruct ev; try done. by destruct (Hev i).
  - intros i w n Hi Hn. right. exists w, n. by rewrite Ew, E0.
  - intros _. exact Hset.
  - exact Hr.
Qed.

Lemma closedStep_same ev s answer :
  (∀ i, ev ≠ WorkStep i) →
  match ev with Call _ c => publishes c = true → ∃ e, answer = Some (Err e) | _ => True end →
  closedStep ev s s answer.
Proof. intros. by apply closedStep_quiet. Qed.

Lemma closedStep_work i w w' d s :
  works s !! i = Some w → workStep sha256 w (live (store s)) w' d →
  closedStep (WorkStep i) s (setLive d s <| works := <[i := w']> (works s) |>) None.
Proof.
  intros Hi Hw. assert (Hd : i ∈ dom (works s)) by (by eapply elem_of_dom_2). split; simpl; try done.
  - rewrite dom_insert_L. set_solver.
  - intros j w0 n Hj Hn. right. destruct (decide (i = j)) as [<-|Hne].
    + assert (w0 = w) as -> by congruence. destruct (workStep_atMost _ _ _ _ _ _ Hw Hn) as (m & -> & Hm).
      exists w', m. by rewrite lookup_insert_eq.
    + exists w0, n. by rewrite lookup_insert_ne.
  - intros E. rewrite E in Hi. done.
Qed.

Lemma closedStep_returns info i w r s :
  works s !! i = Some w →
  closedStep (WorkReturns info i) s (s <| works := delete i (works s) |>) (Some r).
Proof.
  intros Hi. split; simpl; try done.
  - rewrite dom_delete_L. set_solver.
  - intros j w0 n Hj Hn. destruct (decide (i = j)) as [<-|Hne].
    + left. by rewrite lookup_delete_eq.
    + right. exists w0, n. by rewrite lookup_delete_ne.
  - intros E. rewrite E in Hi. done.
Qed.

Lemma closed_step ev s answer s' :
  started config srv → (match ev with Call info _ => closedAt (ui_now info) | _ => True end) →
  apiStep ev s answer s' → closedStep ev (sh_state s) (sh_state s') answer.
Proof.
  intros Hst Hev H.
  destruct H as [info c s Hn|info c s e rl line|info c conf s r rl line st Hin Hconf _ _ Hh|info c conf s rl st Hin Hconf _ _ Hh|i s w w' d Hi Hw|info i s w r line Hi Hr _|a s st Ha Hs|info i s r line Hr]; simpl.
  - apply closedStep_same; [done|]. intros _. by eexists.
  - apply closedStep_same; [done|]. intros _. by eexists.
  - destruct (handles_refused conf (ui_now info) c (sh_state s) (Answered r) st) as (-> & _ & Hp);
      [by eapply closed_disables|done|]. apply closedStep_same; [done|]. intros [e [= ->]]%Hp. by eexists.
  - destruct (handles_refused conf (ui_now info) c (sh_state s) Pending st) as (_ & ? & _);
      [by eapply closed_disables|done|done].
  - by eapply closedStep_work.
  - by eapply closedStep_returns.
  - apply publisher_step in Hs as [Hk Hns]; [|done]. by apply closedStep_quiet.
  - by apply closedStep_same.
Qed.

End NodeApi.

(** * A node at its cutover *)

Definition frozenConfig : Config :=
  mkConfig (mkOptions "0.0.0.0" 5556 "0.0.0.0" 5555 true true false true 100) true true true true true
    (Some ∅) None.
Definition frozenServer : Server := (New (λ _, Ok ()) quietStart frozenConfig).2.

(** At the cutover a publisher has come as far as its commit, and a SendGroupMessages call has passed
    the gate and has its insert to make. *)
Definition inFlight : Publish.sys (IdentityUpdate := string) :=
  default (Publish.start sampleDb)
    (sampleExec [Arrive 1 "a"; Begin 1; Lock 1; Insert 1] (Publish.start sampleDb)).
Definition oneValid (payloads : list bytes) : result (list ValidateGroupMessagesResponse) :=
  Ok ((λ _, mkValidateGroupMessagesResponse true "" "67" false) <$> payloads).
Definition lateCall : prog () := sending (λ b, b) oneValid (λ _, mkInsertEnv None 102)
  (Some (mkSendGroupMessages [Some (mkGroupMessageInput (Some (mkGroupMessageInput_V1 "late" "" false)))])).
Definition frozenStart : apiStore (IdentityUpdate := string) :=
  mkApiStore inFlight {[1%nat := Handling lateCall]}.

Definition clientCtx : Ctx := mkCtx (Some {[ "x-forwarded-for" := ["10.0.0.1"]; "x-app-version" := ["app/1.2"] ]}) None.

Definition sendCall : apiCall (IdentityUpdate := string) (Signature := bytes) :=
  CallSendGroupMessages (λ _, mkInsertEnv None 7) (Some (mkSendGroupMessages [])).
Definition queryCall : apiCall (IdentityUpdate := string) (Signature := bytes) :=
  CallQueryGroupMessages None (mkQueryGroupMessagesRequest "g" None).
Definition infoOf (now : Z) (c : apiCall (IdentityUpdate := string) (Signature := bytes)) : unaryInfo :=
  mkUnaryInfo clientCtx "/xmtp.mls.api.v1.MlsApi/Method" (requestOf c) now 5000000.

Local Abbreviation frozenRun := (apiRun sampleInboxId Ok Ok sampleValidate (λ _, 0) (λ b, b)
  (λ _, Ok []) oneValid Ok Ok "" (λ _, true) (λ _ _, 0) checkLabels (λ _, "Unavailable")
  frozenConfig frozenServer).

Definition frozenEvents : list (apiEvent (IdentityUpdate := string) (Signature := bytes) * option (result ())) :=
  [(Call (infoOf 100 sendCall) sendCall, Some (Err publishDisabled));
   (WorkStep 1, None);
   (PublisherStep (Commit 1 101), None);
   (WorkReturns (infoOf 101 sendCall) 1, Some (Ok ()));
   (PublisherReturns (infoOf 101 sendCall) 1, Some (Ok ()));
   (Call (infoOf 102 queryCall) queryCall, Some (Ok ()))].

(** The limiter, the telemetry and the store after the events. *)
Definition admitted (now : Z) (c : apiCall (IdentityUpdate := string) (Signature := bytes)) (rl : Limiter)
    : Limiter :=
  from_option snd rl (admission "" (λ _, true) (λ _ _, 0) frozenConfig (infoOf now c) rl).
Definition lineOf (now : Z) (c : apiCall (IdentityUpdate := string) (Signature := bytes)) (err : option error)
    : level * list emission :=
  default (DebugLevel, []) (record "" (λ _, true) (λ _ _, 0) checkLabels (λ _, "Unavailable") clientCtx
    "/xmtp.mls.api.v1.MlsApi/Method" 5000000 err).
Definition stepped (p : prog ()) (d : Db) : prog () * Db :=
  match p with Stmt f k => let '(r, d') := f d in (k r, d') | _ => (p, d) end.
Definition late : prog () * Db := stepped lateCall (live inFlight).
Definition written : apiStore (IdentityUpdate := string) :=
  setLive late.2 frozenStart <| works := <[1%nat := Handling late.1]> (works frozenStart) |>.
Definition committed : apiStore (IdentityUpdate := string) :=
  written <| store := default inFlight (sampleExec [Commit 1 101] (store written)) |>.
Definition answered : apiStore (IdentityUpdate := string) :=
  committed <| works := delete 1%nat (works committed) |>.

Definition rl1 : Limiter := admitted 100 sendCall NewTokenBucketRateLimiter.
Definition rl2 : Limiter := admitted 102 queryCall rl1.
Definition frozenTelemetry : list (level * list emission) :=
  [lineOf 100 sendCall (Some publishDisabled); lineOf 101 sendCall None; lineOf 101 sendCall None;
   lineOf 102 queryCall None].

Lemma lineOf_eq now c err :
  record "" (λ _, true) (λ _ _, 0) checkLabels (λ _, "Unavailable") clientCtx
    "/xmtp.mls.api.v1.MlsApi/Method" 5000000 err = Some (lineOf now c err).
Proof.
  unfold lineOf. destruct (record_returns "" (λ _, true) (λ _ _, 0) checkLabels (λ _, "Unavailable")
    checkLabels_returns clientCtx "/xmtp.mls.api.v1.MlsApi/Method" 5000000 err) as [_ H]; [done|done|done|].
  destruct H as [line ->]; [|done]. repeat constructor.
Qed.

Lemma stepped_step p d :
  match p with Stmt _ _ => True | _ => False end →
  workStep (λ b, b) (Handling p) d (Handling (stepped p d).1) (stepped p d).2.
Proof. destruct p as [| |f k]; try done. intros _. simpl. destruct (f d) as [r d'] eqn:Hf. by apply Work_stmt. Qed.

Lemma frozen_run :
  frozenRun (mkShared NewTokenBucketRateLimiter [] frozenStart) frozenEvents
    (mkShared rl2 frozenTelemetry answered).
Proof.
  eapply Run_cons.
  { apply (Step_answered _ _ _ _ _ _ _ _ _ _ _ _ _ _ _ _ _ (infoOf 100 sendCall) sendCall
      (confOf frozenConfig) _ _ rl1 (lineOf 100 sendCall (Some publishDisabled)) frozenStart).
    - apply (bool_decide_unpack _). vm_compute. exact I.
    - vm_compute. reflexivity.
    - reflexivity.
    - vm_compute. reflexivity.
    - split; reflexivity.
    - apply lineOf_eq. }
  eapply Run_cons.
  { apply (Step_work _ _ _ _ _ _ _ _ _ _ _ _ _ _ _ _ _ 1 _ (Handling lateCall) (Handling late.1) late.2);
      [reflexivity|]. apply stepped_step. exact I. }
  eapply Run_cons.
  { apply (Step_publisher _ _ _ _ _ _ _ _ _ _ _ _ _ _ _ _ _ _ _ (store committed)); [intros []|].
    vm_compute. reflexivity. }
  eapply Run_cons.
  { apply (Step_work_returns _ _ _ _ _ _ _ _ _ _ _ _ _ _ _ _ _ _ 1 _ (Handling late.1) (Ok ())
      (lineOf 101 sendCall None)); [vm_compute; reflexivity| |apply lineOf_eq].
    assert (E : late.1 = Done (Ok ())) by (vm_compute; reflexivity). rewrite E. constructor. }
  eapply Run_cons.
  { apply (Step_returns _ _ _ _ _ _ _ _ _ _ _ _ _ _ _ _ _ _ _ _ _ (lineOf 101 sendCall None)); [|apply lineOf_eq].
    vm_compute. reflexivity. }
  eapply Run_cons; [|apply Run_nil].
  refine (Step_answered _ _ _ _ _ _ _ _ _ _ _ _ _ _ _ _ _ (infoOf 102 queryCall) queryCall
    (confOf frozenConfig) (mkShared rl1 (take 3 frozenTelemetry) answered) (Ok ()) rl2
    (lineOf 102 queryCall None) answered _ _ _ _ _ _).
  - apply (bool_decide_unpack _). vm_compute. exact I.
  - vm_compute. reflexivity.
  - reflexivity.
  - vm_compute. reflexivity.
  - destruct (Service_QueryGroupMessages None (mkQueryGroupMessagesRequest "g" None) (live (store answered)))
      as [[[r|] d]|] eqn:E; [|vm_compute in E; discriminate..].
    exists (Ok r), d. split; [exact E|]. split; [done|]. apply readOnly_reads in E as ->.
    by destruct answered as [[] ?].
  - apply lineOf_eq.
Qed.

