(* ===== verification/NodeKey.v ===== *)
(** The node's private key (pkg/server/server.go, pkg/crypto/ecdsa.go): where it comes from, how it
    is written to a file, and what a written key reads back as. *)

From S2P Require Import Prelude Topic.

(** * Private keys *)

(** The big-endian bytes of a number, in a given width; and in the width it needs
    ([big.Int.Bytes]). *)
Fixpoint beBytes (k : nat) (z : Z) : bytes :=
  match k with
  | O => EmptyString
  | S k => String (Ascii.ascii_of_N (Z.to_N (z / 256 ^ Z.of_nat k mod 256))) (beBytes k z)
  end.

Definition byteLen (z : Z) : nat :=
  if bool_decide (z = 0) then 0%nat else Z.to_nat (Z.log2 z / 8 + 1).
Definition Bytes (z : Z) : bytes := beBytes (byteLen z) z.

(** A file system: its files, and the failures of its calls other than a missing file. *)
Record fileSystem := mkFileSystem {
  files : gmap string bytes;
  statErr : option error;
  readErr : option error;
  removeErr : option error;
  writeErr : option error;
}.

#[export] Instance fileSystem_eta : Eta fileSystem := λ s,
  mkFileSystem (files s) (statErr s) (readErr s) (removeErr s) (writeErr s).

Definition notExist : error := Plain "file does not exist".

Definition Stat (path : string) (fs : fileSystem) : result () :=
  match statErr fs with
  | Some e => Err e
  | None => match files fs !! path with Some _ => Ok () | None => Err notExist end
  end.

Definition ReadFile (path : string) (fs : fileSystem) : result bytes :=
  match readErr fs with
  | Some e => Err e
  | None => match files fs !! path with Some b => Ok b | None => Err notExist end
  end.

Definition Remove (path : string) (fs : fileSystem) : result () * fileSystem :=
  match removeErr fs with
  | Some e => (Err e, fs)
  | None => match files fs !! path with
            | Some _ => (Ok (), fs <| files := delete path (files fs) |>)
            | None => (Err notExist, fs)
            end
  end.

Definition WriteFile (path : string) (b : bytes) (fs : fileSystem) : result () * fileSystem :=
  match writeErr fs with
  | Some e => (Err e, fs)
  | None => (Ok (), fs <| files := <[path := b]> (files fs) |>)
  end.

Definition decodeKeyHex (src : bytes) : result bytes :=
  match Hex.decode src with Some b => Ok b | None => Err (Plain "encoding/hex: invalid byte") end.

Section Keys.
(** go-ethereum's crypto and libp2p's secp256k1 keys; an ECDSA key is its number D. *)
Context (ethHexToECDSA : string → result Z) (ToECDSA : bytes → result Z) (GenerateKey : result Z).
Context {libp2pKey : Type} (UnmarshalSecp256k1PrivateKey : bytes → result libp2pKey)
  (Raw : libp2pKey → result bytes).

Definition HexToECDSA (key : string) : result Z :=
  let key := if bool_decide (String.length key = 60%nat) then "0000" +:+ key else key in
  let key := if bool_decide (String.length key = 62%nat) then "00" +:+ key else key in
  ethHexToECDSA key.

Definition ECDSAToHex (D : Z) : string := Hex.encode (Bytes D).

Definition loadPrivateKeyFromFile (path : string) (fs : fileSystem) : result Z :=
  src ← ReadFile path fs;
  dst ← decodeKeyHex src;
  p ← UnmarshalSecp256k1PrivateKey dst;
  pBytes ← Raw p;
  ToECDSA pBytes.

Definition checkForPrivateKeyFile (path : string) (overwrite : bool) (fs : fileSystem)
    : result () * fileSystem :=
  match Stat path fs, overwrite with
  | Ok _, false => (Err (Plain (path +:+ " already exists. Use --overwrite to overwrite the file")), fs)
  | _, _ =>
      match Remove path fs with
      | (Err e, fs) => if bool_decide (e = notExist) then (Ok (), fs) else (Err e, fs)
      | r => r
      end
  end.

Definition generatePrivateKey : result bytes :=
  D ← GenerateKey; Ok (Hex.encode (Bytes D)).

Definition WritePrivateKeyToFile (path : string) (overwrite : bool) (fs : fileSystem)
    : result () * fileSystem :=
  match checkForPrivateKeyFile path overwrite fs with
  | (Err e, fs) => (Err e, fs)
  | (Ok _, fs) =>
      match generatePrivateKey with
      | Err e => (Err e, fs)
      | Ok output => WriteFile path output fs
      end
  end.

(** The option, then the environment, then the key file, then a new key. *)
Definition getPrivKey (NodeKey GOWAKU_NODEKEY KeyFile : string) (fs : fileSystem) : result Z :=
  if bool_decide (NodeKey ≠ EmptyString)
  then Wrap (HexToECDSA NodeKey) "error converting key into valid ecdsa key"
  else if bool_decide (GOWAKU_NODEKEY ≠ EmptyString)
  then Wrap (HexToECDSA GOWAKU_NODEKEY) "error converting key into valid ecdsa key"
  else match Stat KeyFile fs with
       | Ok _ => Wrap (loadPrivateKeyFromFile KeyFile fs) "could not read keyfile"
       | Err e => if bool_decide (e = notExist)
                  then Wrap GenerateKey "error generating key"
                  else Wrap (Err e) "could not read keyfile"
       end.
End Keys.

(** ** What a written key reads back as *)

Lemma beBytes_length k z : String.length (beBytes k z) = k.
Proof. induction k as [|k IH]; simpl; [done|by rewrite IH]. Qed.

Lemma beBytes_wider k z : 0 ≤ z < 256 ^ Z.of_nat k → beBytes (S k) z = String Ascii.zero (beBytes k z).
Proof. intros Hz. cbn [beBytes]. rewrite Z.div_small by done. done. Qed.

Lemma encode_length b : String.length (Hex.encode b) = (2 * String.length b)%nat.
Proof. induction b as [|c b IH]; simpl; [done|]. rewrite IH. lia. Qed.

Lemma encode_zero b : Hex.encode (String Ascii.zero b) = "00" +:+ Hex.encode b.
Proof. done. Qed.

Lemma byteLen_spec z :
  0 < z → ∃ k, byteLen z = S k ∧ 256 ^ Z.of_nat k ≤ z < 256 ^ Z.of_nat (S k).
Proof.
  intros Hz. unfold byteLen. rewrite bool_decide_eq_false_2 by lia.
  pose proof (Z.log2_nonneg z) as Hl. pose proof (Z.log2_spec z Hz) as [H1 H2].
  assert (Hq : 0 ≤ Z.log2 z / 8) by (apply Z.div_pos; lia).
  exists (Z.to_nat (Z.log2 z / 8)). split; [lia|].
  rewrite Nat2Z.inj_succ, Z2Nat.id by done. change 256 with (2 ^ 8).
  rewrite <- !Z.pow_mul_r by lia.
  pose proof (Z.div_mod (Z.log2 z) 8 ltac:(lia)) as Hdm. pose proof (Z.mod_pos_bound (Z.log2 z) 8 ltac:(lia)) as Hm.
  split.
  - eapply Z.le_trans; [|exact H1]. apply Z.pow_le_mono_r; lia.
  - eapply Z.lt_le_trans; [exact H2|]. apply Z.pow_le_mono_r; lia.
Qed.

(** A number whose bytes are at least [k] is at least [256 ^ (k - 1)], and conversely. *)
Lemma byteLen_ge k z : 0 < z → (S k ≤ byteLen z)%nat ↔ 256 ^ Z.of_nat k ≤ z.
Proof.
  intros Hz. destruct (byteLen_spec z Hz) as (n & -> & H1 & H2). split; intros H.
  - eapply Z.le_trans; [|exact H1]. apply Z.pow_le_mono_r; lia.
  - destruct (decide (S k ≤ S n)%nat) as [|Hn]; [done|].
    assert (256 ^ Z.of_nat (S n) ≤ 256 ^ Z.of_nat k) by (apply Z.pow_le_mono_r; lia). lia.
Qed.

Section Roundtrip.
Context (ethHexToECDSA : string → result Z) (ToECDSA : bytes → result Z) (GenerateKey : result Z).
Context {libp2pKey : Type} (UnmarshalSecp256k1PrivateKey : bytes → result libp2pKey)
  (Raw : libp2pKey → result bytes).
(** The order of the curve. *)
Context (order : Z).
Hypothesis order_256 : order ≤ 2 ^ 256.
(** Both libraries take exactly the 32 bytes of a number below the order. *)
Hypothesis eth_reads : ∀ D, 0 < D < order → ethHexToECDSA (Hex.encode (beBytes 32 D)) = Ok D.
Hypothesis eth_needs_256_bits : ∀ s, String.length s ≠ 64%nat → ∃ e, ethHexToECDSA s = Err e.
Hypothesis eth_reads_bytes : ∀ D, 0 < D < order → ToECDSA (beBytes 32 D) = Ok D.
Hypothesis libp2p_reads : ∀ D, 0 < D < order →
  ∃ k, UnmarshalSecp256k1PrivateKey (beBytes 32 D) = Ok k ∧ Raw k = Ok (beBytes 32 D).
Hypothesis libp2p_needs_32_bytes : ∀ b, String.length b ≠ 32%nat →
  ∃ e, UnmarshalSecp256k1PrivateKey b = Err e.

Local Abbreviation fromHex := (HexToECDSA ethHexToECDSA).

(** The hexadecimal form reads back when at most two leading bytes are missing from it. *)
Lemma hex_roundtrip D :
  0 < D < order → fromHex (ECDSAToHex D) = Ok D ↔ 2 ^ 232 ≤ D.
Proof.
  intros HD. change (2 ^ 232) with (256 ^ Z.of_nat 29). rewrite <- byteLen_ge by lia.
  assert (Hmax : (byteLen D ≤ 32)%nat).
  { destruct (byteLen_spec D ltac:(lia)) as (n & -> & H1 & _).
    destruct (decide (n ≤ 31)%nat); [lia|].
    assert (256 ^ Z.of_nat 32 ≤ 256 ^ Z.of_nat n) by (apply Z.pow_le_mono_r; lia).
    change (256 ^ Z.of_nat 32) with (2 ^ 256) in *. lia. }
  destruct (byteLen_spec D ltac:(lia)) as (n & En & _ & Hlt).
  unfold HexToECDSA, ECDSAToHex, Bytes. set (b := beBytes (byteLen D) D).
  assert (Hb : String.length (Hex.encode b) = (2 * byteLen D)%nat) by (unfold b; by rewrite encode_length, beBytes_length).
  assert (Hcases : byteLen D = 32%nat ∨ byteLen D = 31%nat ∨ byteLen D = 30%nat ∨ (byteLen D < 30)%nat) by lia.
  destruct Hcases as [E|[E|[E|E]]].
  - rewrite (bool_decide_eq_false_2 (_ = 60%nat)), (bool_decide_eq_false_2 (_ = 62%nat)) by lia.
    unfold b. rewrite E, eth_reads by done. split; [lia|done].
  - rewrite (bool_decide_eq_false_2 (_ = 60%nat)), bool_decide_eq_true_2 by lia.
    rewrite <- encode_zero. unfold b. rewrite <- beBytes_wider, E, eth_reads by (rewrite ?En; lia). split; [lia|done].
  - rewrite (bool_decide_eq_true_2 (_ = 60%nat)) by lia.
    replace ("0000" +:+ Hex.encode b) with (Hex.encode (beBytes 32 D)).
    2:{ rewrite (beBytes_wider 31), (beBytes_wider 30), !encode_zero; [unfold b; by rewrite E|split; [lia|]..].
        - by rewrite <- E, En.
        - eapply Z.lt_trans; [exact Hlt|]. replace n with 29%nat by lia. done. }
    rewrite bool_decide_eq_false_2 by (rewrite encode_length, beBytes_length; done).
    rewrite eth_reads by done. split; [lia|done].
  - rewrite (bool_decide_eq_false_2 (_ = 60%nat)), (bool_decide_eq_false_2 (_ = 62%nat)) by lia.
    destruct (eth_needs_256_bits (Hex.encode b)) as [e ->]; [lia|]. split; [done|lia].
Qed.

Lemma write_stores D path overwrite fs fs' :
  GenerateKey = Ok D → WritePrivateKeyToFile GenerateKey path overwrite fs = (Ok (), fs') →
  files fs' !! path = Some (Hex.encode (Bytes D)) ∧ readErr fs' = readErr fs ∧
  (overwrite = false → statErr fs = None → files fs !! path = None).
Proof.
  intros HG. unfold WritePrivateKeyToFile, generatePrivateKey. rewrite HG. cbn [mbind result_bind].
  destruct (checkForPrivateKeyFile path overwrite fs) as [[[]|e] fs1] eqn:Hc; [|done].
  unfold WriteFile. destruct (writeErr fs1); [done|]. intros [= <-].
  split; [simpl; apply lookup_insert_eq|].
  unfold checkForPrivateKeyFile in Hc.
  assert (HR : readErr (Remove path fs).2 = readErr fs)
    by (unfold Remove; destruct (removeErr fs), (files fs !! path); done).
  assert (E1 : readErr fs1 = readErr fs).
  { destruct (Stat path fs), overwrite, (Remove path fs) as [[|e2] fs2]; try case_bool_decide; simplify_eq; done. }
  split; [exact E1|]. intros -> Hs. unfold Stat in Hc. rewrite Hs in Hc. by destruct (files fs !! path).
Qed.

(** C34. A node key that is written out reads back as the same key only when it needs all its
    bytes: the hexadecimal form ([ECDSAToHex], [--nodekey]) may miss up to two leading bytes, the
    key file ([--generate-key]) none, since both write [D.Bytes()], which drops leading zeros. A
    file that was there is not replaced unless asked. *)
Theorem node_key_roundtrip D path overwrite fs fs' :
  0 < D < order → GenerateKey = Ok D →
  WritePrivateKeyToFile GenerateKey path overwrite fs = (Ok (), fs') →
  readErr fs = None → statErr fs = None →
  (fromHex (ECDSAToHex D) = Ok D ↔ 2 ^ 232 ≤ D) ∧
  (loadPrivateKeyFromFile ToECDSA UnmarshalSecp256k1PrivateKey Raw path fs' = Ok D ↔ 2 ^ 248 ≤ D) ∧
  (overwrite = false → files fs !! path = None).
Proof.
  intros HD HG Hw Hr Hs. split; [by apply hex_roundtrip|].
  destruct (write_stores D path overwrite fs fs' HG Hw) as (Hf & Er & Ho).
  split; [|by auto]. unfold loadPrivateKeyFromFile, ReadFile, decodeKeyHex. rewrite Er, Hr, Hf.
  cbn [mbind result_bind]. rewrite Hex.decode_encode. cbn [mbind result_bind].
  change (2 ^ 248) with (256 ^ Z.of_nat 31). rewrite <- byteLen_ge by lia. unfold Bytes.
  destruct (decide (byteLen D = 32%nat)) as [E|E].
  - rewrite E. destruct (libp2p_reads D HD) as (key & -> & Ek). cbn [mbind result_bind]. rewrite Ek.
    cbn [mbind result_bind]. rewrite eth_reads_bytes by done. split; [lia|done].
  - destruct (libp2p_needs_32_bytes (beBytes (byteLen D) D)) as [e ->]; [by rewrite beBytes_length|].
    split; [done|]. intros H. destruct (byteLen_spec D ltac:(lia)) as (n & En & H1 & _).
    assert (256 ^ Z.of_nat 32 ≤ 256 ^ Z.of_nat n) by (apply Z.pow_le_mono_r; lia).
    change (256 ^ Z.of_nat 32) with (2 ^ 256) in *. lia.
Qed.
End Roundtrip.

(** ** A number and its bytes *)

Fixpoint fromBytes (acc : Z) (b : bytes) : Z :=
  match b with
  | EmptyString => acc
  | String c b => fromBytes (acc * 256 + Z.of_N (Ascii.N_of_ascii c)) b
  end.

Lemma fromBytes_be k z acc : 0 ≤ z → fromBytes acc (beBytes k z) = acc * 256 ^ Z.of_nat k + z mod 256 ^ Z.of_nat k.
Proof.
  intros Hz. revert acc. induction k as [|k IH]; intros acc; [simpl; rewrite Z.mod_1_r; lia|].
  cbn [beBytes fromBytes]. rewrite IH. pose proof (Z.mod_pos_bound (z / 256 ^ Z.of_nat k) 256 ltac:(lia)) as Hm.
  rewrite Ascii.N_ascii_embedding by (change 256%N with (Z.to_N 256); lia).
  rewrite Z2N.id by lia. rewrite Nat2Z.inj_succ, Z.pow_succ_r by lia.
  rewrite (Z.mul_comm 256), Z.rem_mul_r by lia. ring.
Qed.

Lemma fromBytes_beBytes z : 0 ≤ z < 2 ^ 256 → fromBytes 0 (beBytes 32 z) = z.
Proof. intros Hz. rewrite fromBytes_be by lia. change (256 ^ Z.of_nat 32) with (2 ^ 256). rewrite Z.mod_small; lia. Qed.

(** Libraries that read exactly 32 bytes. *)
Definition readBytes (b : bytes) : result Z :=
  if bool_decide (String.length b = 32%nat) then Ok (fromBytes 0 b) else Err (Plain "invalid length").
Definition readHex (s : string) : result Z :=
  if bool_decide (String.length s = 64%nat) then decodeKeyHex s ≫= readBytes
  else Err (Plain "invalid length, need 256 bits").
Definition readKey (b : bytes) : result bytes :=
  if bool_decide (String.length b = 32%nat) then Ok b else Err (Plain "expected secp256k1 data size to be 32").

Lemma readHex_be D : 0 < D < 2 ^ 256 → readHex (Hex.encode (beBytes 32 D)) = Ok D.
Proof.
  intros HD. unfold readHex, decodeKeyHex. rewrite encode_length, beBytes_length, bool_decide_eq_true_2 by done.
  rewrite Hex.decode_encode. cbn [mbind result_bind]. unfold readBytes. rewrite beBytes_length, bool_decide_eq_true_2 by done.
  by rewrite fromBytes_beBytes by lia.
Qed.

(** A key whose first byte is zero reads back from the option, not from the file. *)
Lemma node_key_roundtrip_witness :
  let D := 2 ^ 240 + 7 in
  let fs := mkFileSystem ∅ None None None None in
  ∃ fs', WritePrivateKeyToFile (Ok D) "nodekey" false fs = (Ok (), fs') ∧
    HexToECDSA readHex (ECDSAToHex D) = Ok D ∧
    loadPrivateKeyFromFile readBytes readKey Ok "nodekey" fs' ≠ Ok D.
Proof.
  intros D fs. eexists. split; [reflexivity|].
  destruct (node_key_roundtrip readHex readBytes (Ok D) readKey Ok (2 ^ 256) ltac:(lia) readHex_be) with
    (D := D) (path := "nodekey") (overwrite := false) (fs := fs)
    (fs' := (WritePrivateKeyToFile (Ok D) "nodekey" false fs).2) as (H1 & H2 & _).
  - intros s Hs. unfold readHex. rewrite bool_decide_eq_false_2 by done. by eexists.
  - intros D' HD'. unfold readBytes. rewrite beBytes_length, bool_decide_eq_true_2 by done.
    by rewrite fromBytes_beBytes by lia.
  - intros D' HD'. exists (beBytes 32 D'). unfold readKey. by rewrite beBytes_length, bool_decide_eq_true_2.
  - intros b Hb. unfold readKey. rewrite bool_decide_eq_false_2 by done. by eexists.
  - unfold D. split; vm_compute; reflexivity.
  - done.
  - reflexivity.
  - done.
  - done.
  - split; [by apply H1; unfold D; vm_compute|]. intros Hl. apply H2 in Hl. vm_compute in Hl. by apply Hl.
Defined.
