(* ===== verification/NodeServer.v ===== *)
(** The node's process (pkg/server/server.go, pgxdb.go, options.go, cmd): how it waits for a
    database, the peers it keeps dialling, what New opens and Shutdown closes, and the commands.
    Its private key is in NodeKey.v. *)

From S2P Require Import Prelude.

(** * Waiting for a database *)

Definition Second : Z := 1000000000.
Definition pingPause : Z := 3 * Second.

Section WaitForDB.
(** The database over time: what a ping started then answers, and how long it takes. *)
Context (ping : Z → result () * Z).

(** createDB, from a ping started at [now]. *)
Fixpoint waitLoop (fuel : nat) (now waitUntil : Z) : option (result ()) :=
  match fuel with
  | O => None
  | S fuel =>
      let '(r, took) := ping now in
      match r with
      | Ok _ => Some (Ok ())
      | Err _ =>
          if bool_decide (now + took < waitUntil)
          then waitLoop fuel (now + took + pingPause) waitUntil
          else Some (Err (Plain "timeout waiting for db"))
      end
  end.

Definition createDB (fuel : nat) (now waitForDB : Z) : option (result ()) :=
  waitLoop fuel now (now + waitForDB).

(** WaitUntilDBReady, of the MLS databases: one ping with a deadline. *)
Definition WaitUntilDBReady (now waitTime : Z) : result () :=
  let '(r, took) := ping now in
  let r := if bool_decide (took ≤ waitTime) then r else Err (Plain "context deadline exceeded") in
  match r with
  | Ok _ => Ok ()
  | Err e => Err (Plain ("database is not ready within %s: " +:+ errorString e))
  end.

(** A ping per pause, and one more, are enough. *)
Definition enoughPings (waitForDB : Z) : nat := S (Z.to_nat (waitForDB / pingPause + 1)).

Lemma waitLoop_ends fuel now waitUntil :
  (∀ t, 0 ≤ (ping t).2) → (enoughPings (waitUntil - now) ≤ fuel)%nat →
  is_Some (waitLoop fuel now waitUntil).
Proof.
  intros Hd. unfold enoughPings, pingPause, Second. revert now. induction fuel as [|fuel IH]; intros now Hf; [lia|].
  simpl. specialize (Hd now). destruct (ping now) as [[[]|e] took]; [by eexists|]. simpl in Hd.
  case_bool_decide as Hlt; [|by eexists]. apply IH. unfold pingPause, Second.
  set (w := waitUntil - now) in *.
  assert (Hw : 0 ≤ w / (3 * 1000000000)) by (apply Z.div_pos; lia).
  assert (Hn : (waitUntil - (now + took + 3 * 1000000000)) / (3 * 1000000000) ≤ w / (3 * 1000000000) - 1).
  { replace (w / (3 * 1000000000) - 1) with ((w - 3 * 1000000000) / (3 * 1000000000)).
    - apply Z.div_le_mono; lia.
    - replace (w - 3 * 1000000000) with (w + (-1) * (3 * 1000000000)) by lia. rewrite Z.div_add by lia. lia. }
  lia.
Qed.

Lemma waitLoop_finds fuel now waitUntil up limit r :
  (∀ t, 0 ≤ (ping t).2 ≤ limit) → (∀ t, up ≤ t → (ping t).1 = Ok ()) → up + limit ≤ waitUntil →
  waitLoop fuel now waitUntil = Some r → r = Ok ().
Proof.
  intros Hd Hup Hle. revert now. induction fuel as [|fuel IH]; intros now; [done|]. simpl.
  pose proof (Hd now). pose proof (Hup now) as Hn. destruct (ping now) as [[[]|e] took]; [by intros [= <-]|].
  simpl in *. case_bool_decide as Hlt; [apply IH|]. intros _. exfalso. apply Hlt.
  destruct (decide (up ≤ now)) as [Hu|]; [by specialize (Hn Hu)|lia].
Qed.

(** createDB ends, after at most one ping for every three seconds of [--wait-for-db] and two
    more; and a database that comes up in time, [limit] before the wait is over where no ping
    takes longer than [limit], is found. *)
Theorem createDB_waits now waitForDB up limit :
  (∀ t, 0 ≤ (ping t).2 ≤ limit) → (∀ t, up ≤ t → (ping t).1 = Ok ()) →
  is_Some (createDB (enoughPings waitForDB) now waitForDB) ∧
  (up + limit ≤ now + waitForDB → createDB (enoughPings waitForDB) now waitForDB = Some (Ok ())).
Proof.
  intros Hd Hup.
  assert (Hs : is_Some (createDB (enoughPings waitForDB) now waitForDB)).
  { apply waitLoop_ends; [intros t; by destruct (Hd t)|]. by replace (now + waitForDB - now) with waitForDB by lia. }
  split; [done|]. intros Hle. destruct Hs as [r Hr]. rewrite Hr. f_equal.
  by apply (waitLoop_finds (enoughPings waitForDB) now (now + waitForDB) up limit).
Qed.
End WaitForDB.

(** A database that comes up after ten seconds of the thirty: createDB finds it, while the wait of
    the MLS databases is over at once. *)
Definition bootingDb (t : Z) : result () * Z :=
  if bool_decide (10 * Second ≤ t) then (Ok (), 0) else (Err (Plain "connection refused"), 0).

Lemma createDB_waits_witness :
  createDB bootingDb (enoughPings (30 * Second)) 0 (30 * Second) = Some (Ok ()) ∧
  WaitUntilDBReady bootingDb 0 (30 * Second)
  = Err (Plain "database is not ready within %s: connection refused").
Proof.
  split; [|vm_compute; reflexivity].
  apply (createDB_waits bootingDb 0 (30 * Second) (10 * Second) 0).
  - intros t. unfold bootingDb. case_bool_decide; simpl; lia.
  - intros t Ht. unfold bootingDb. by rewrite bool_decide_eq_true_2.
  - unfold Second. lia.
Defined.

(** * Static nodes *)

Section StaticNodes.
(** Multiaddresses and peer ids of libp2p; an address that does not parse leaves a nil one. *)
Context {Multiaddr PeerID : Type} `{EqDecision PeerID, Countable PeerID}.
Context (NewMultiaddr : string → result Multiaddr)
  (AddrInfoFromP2pAddr : option Multiaddr → result PeerID).

Definition toOption {A} (r : result A) : option A := match r with Ok a => Some a | Err _ => None end.

(** New hands the relay the peers it can make out; the others are logged. *)
Definition directPeers (staticNodes : list string) : list PeerID :=
  omap (λ staticNode, ma ← toOption (NewMultiaddr staticNode); toOption (AddrInfoFromP2pAddr (Some ma)))
    staticNodes.

(** staticNodesConnectLoop before its ticker: an error is logged and the nil [pi] dereferenced. *)
Fixpoint staticNodePeerIDs (staticNodes : list string) : option (list PeerID) :=
  match staticNodes with
  | [] => Some []
  | peerAddr :: staticNodes =>
      pi ← toOption (AddrInfoFromP2pAddr (toOption (NewMultiaddr peerAddr)));
      ids ← staticNodePeerIDs staticNodes;
      Some (pi :: ids)
  end.

(** A tick: the static nodes that are not among the peers are dialled. *)
Definition dialTick (staticNodes : list string) (ids : list PeerID) (peers : gset PeerID) : list string :=
  fst <$> filter (λ p, p.2 ∉ peers) (zip staticNodes ids).

(** What the loop dials over its ticks; [None] is a panic, which ends the node. *)
Definition staticNodesConnectLoop (staticNodes : list string) (ticks : list (gset PeerID))
    : option (list string) :=
  ids ← staticNodePeerIDs staticNodes;
  Some (staticNodes ++ concat (dialTick staticNodes ids <$> ticks)).

(** statusMetricsLoop keeps the addresses that parse. *)
Definition bootstrapPeers (SplitAddr : Multiaddr → PeerID) (staticNodes : list string) : gset PeerID :=
  list_to_set (omap (λ addr, SplitAddr <$> toOption (NewMultiaddr addr)) staticNodes).

Definition wellFormed (a : string) : Prop :=
  ∃ ma pi, NewMultiaddr a = Ok ma ∧ AddrInfoFromP2pAddr (Some ma) = Ok pi.

Hypothesis no_address : ∃ e, AddrInfoFromP2pAddr None = Err e.

(** One malformed static node, which the relay's options skip, ends the node. *)
Lemma static_nodes_crash staticNodes ticks :
  is_Some (staticNodesConnectLoop staticNodes ticks) ↔ Forall wellFormed staticNodes.
Proof.
  unfold staticNodesConnectLoop.
  assert (E : is_Some (staticNodePeerIDs staticNodes) ↔ Forall wellFormed staticNodes).
  { induction staticNodes as [|a l IH]; simpl; [by split; [constructor|eexists]|].
    rewrite Forall_cons, <- IH. unfold wellFormed.
    destruct (NewMultiaddr a) as [ma|e] eqn:Em; simpl.
    - destruct (AddrInfoFromP2pAddr (Some ma)) as [pi|e] eqn:Ep; simpl.
      + destruct (staticNodePeerIDs l); simpl; [|by split; [intros [? ?]|intros [_ [? ?]]]].
        split; [|by eexists]. intros _. split; [by exists ma, pi|by eexists].
      + split; [by intros [? ?]|]. intros [(? & ? & [= <-] & ?) _]. congruence.
    - destruct no_address as [e' ->]. simpl. split; [by intros [? ?]|]. by intros [(? & ? & ? & _) _]. }
  rewrite <- E. destruct (staticNodePeerIDs staticNodes); simpl; [by split; eexists|done].
Qed.

Lemma staticNodePeerIDs_spec l ids :
  staticNodePeerIDs l = Some ids →
  Forall2 (λ a id, AddrInfoFromP2pAddr (toOption (NewMultiaddr a)) = Ok id) l ids.
Proof.
  revert ids. induction l as [|a l IH]; cbn [staticNodePeerIDs]; intros ids; [intros [= <-]; constructor|].
  destruct (AddrInfoFromP2pAddr (toOption (NewMultiaddr a))) as [pi|] eqn:E; cbn [toOption mbind option_bind];
    [|done].
  destruct (staticNodePeerIDs l); cbn [mbind option_bind]; [|done]. intros [= <-]. constructor; [done|by apply IH].
Qed.

(** A tick dials exactly the static nodes that are not connected. *)
Lemma tick_dials l ids peers a :
  staticNodePeerIDs l = Some ids →
  a ∈ dialTick l ids peers ↔
  a ∈ l ∧ ∃ id, AddrInfoFromP2pAddr (toOption (NewMultiaddr a)) = Ok id ∧ id ∉ peers.
Proof.
  intros Hs%staticNodePeerIDs_spec. unfold dialTick. induction Hs as [|b id l ids Hb Hs IH]; simpl; [set_solver|].
  rewrite filter_cons. case_decide as Hp; simpl in *; rewrite !elem_of_cons, IH.
  - split; [intros [->|[? ?]]; [|by auto]; split; [by left|by exists id]|].
    intros [[->|?] ?]; auto.
  - split; [intros [? ?]; auto|]. intros [[->|?] (id' & E & ?)]; [congruence|eauto].
Qed.
End StaticNodes.

(** * Opening and closing the node *)

Inductive backfiller := IsCommitBackfiller | InstallationsBackfiller.

(** What New opens, in its own words. *)
Inductive resource :=
  | MetricsServer | AuthzDB | AllowLister | StoreDB | StoreReaderDB | StoreCleanerDB | MessageStore
  | WakuNode | MlsDB | MlsReaderDB | ValidationService | Backfiller (b : backfiller) | GrpcServer.

#[export] Instance backfiller_eq_dec : EqDecision backfiller.
Proof. solve_decision. Defined.
#[export] Instance resource_eq_dec : EqDecision resource.
Proof. solve_decision. Defined.

Record NodeOptions := mkNodeOptions {
  n_Metrics : bool;
  n_AuthzDbConnectionString : string;
  n_Store : bool;
  n_RelayDisable : bool;
  n_MLSDbConnectionString : string;
  n_MLSDbReaderConnectionString : string;
  n_MLSValidationAddress : string;
}.

(** The server's fields that are set, as far as Shutdown looks at them. *)
Record NodeServer := mkNodeServer {
  s_opened : list resource;
  s_running : bool;              (* s.ctx is not cancelled *)
}.

#[export] Instance NodeServer_eta : Eta NodeServer := λ s, mkNodeServer (s_opened s) (s_running s).

Definition opening (A : Type) : Type := NodeServer → result A * NodeServer.

#[export] Instance opening_ret : MRet opening := λ A a s, (Ok a, s).
#[export] Instance opening_bind : MBind opening := λ A B f m s,
  match m s with (Ok a, s) => f a s | (Err e, s) => (Err e, s) end.

Section New.
(** What the outside answers: the address, key and peer id; each resource's opening, and the MLS
    databases' by their connection strings; the log level, the waku node's start, the relay's
    subscriptions and the listen addresses; and whether the MLS store can be made. *)
Context (options : NodeOptions) (hostAddress privateKey peerId : result ())
  (open : resource → result ()) (newBunPGXDb : string → result ())
  (parseLevel startWaku relaySubscriptions listenAddresses newMlsStore : result ()).

(** The reader's connection string, or the writer's where there is none. *)
Definition readerConnectionString : string :=
  if bool_decide (n_MLSDbReaderConnectionString options = EmptyString)
  then n_MLSDbConnectionString options else n_MLSDbReaderConnectionString options.

Definition openOf (r : resource) : result () :=
  match r with
  | MlsDB => newBunPGXDb (n_MLSDbConnectionString options)
  | MlsReaderDB => newBunPGXDb readerConnectionString
  | _ => open r
  end.

Definition answer (message : string) (r : result ()) : opening () := λ s, (Wrap r message, s).
Definition opens (message : string) (r : resource) : opening () := λ s,
  match Wrap (openOf r) message with
  | Ok _ => (Ok (), s <| s_opened := s_opened s ++ [r] |>)
  | Err e => (Err e, s)
  end.
Definition runs (b : backfiller) : opening () := λ s,
  (Ok (), s <| s_opened := s_opened s ++ [Backfiller b] |>).
Definition ifSet (b : bool) (m : opening ()) : opening () := if b then m else mret ().

Definition mlsConfigured : bool := bool_decide (n_MLSDbConnectionString options ≠ EmptyString).
Definition validatorConfigured : bool := bool_decide (n_MLSValidationAddress options ≠ EmptyString).

(** startMLSBackfillers: none without a write store; one of them needs the validator. *)
Definition startMLSBackfillers : opening () :=
  ifSet mlsConfigured (
    _ ← ifSet validatorConfigured (runs IsCommitBackfiller);
    runs InstallationsBackfiller).

Definition newNode : opening () :=
  _ ← answer "resolving host address" hostAddress;
  _ ← answer "getting private key" privateKey;
  _ ← answer "deriving peer id from private key" peerId;
  _ ← ifSet (n_Metrics options) (opens "initializing metrics server" MetricsServer);
  _ ← ifSet (bool_decide (n_AuthzDbConnectionString options ≠ EmptyString)) (
    _ ← opens "creating authz db" AuthzDB; opens "creating wallet authorizer" AllowLister);
  _ ← ifSet (n_Store options) (
    _ ← opens "creating db" StoreDB; _ ← opens "creating reader db" StoreReaderDB;
    _ ← opens "creating cleaner db" StoreCleanerDB; opens "initializing store" MessageStore);
  _ ← answer "parsing log level" parseLevel;
  _ ← opens "initializing waku node" WakuNode;
  _ ← answer "starting waku node" startWaku;
  _ ← ifSet (negb (n_RelayDisable options)) (answer "subscribing to pubsub topic" relaySubscriptions);
  _ ← answer "getting listen addresses" listenAddresses;
  _ ← ifSet mlsConfigured (
    _ ← opens "creating mls db" MlsDB; _ ← opens "creating mls reader db" MlsReaderDB;
    answer "creating mls store" newMlsStore);
  _ ← ifSet validatorConfigured (opens "creating mls validation service" ValidationService);
  _ ← startMLSBackfillers;
  opens "initializing grpc server" GrpcServer.

Definition NewNode : result NodeServer :=
  match newNode (mkNodeServer [] true) with (Ok _, s) => Ok s | (Err e, _) => Err e end.
End New.

(** What Shutdown closes, in order: the fields of the server that are set. *)
Definition shutdownOrder : list resource :=
  [WakuNode; StoreDB; StoreReaderDB; StoreCleanerDB; MessageStore; MlsDB; MetricsServer; GrpcServer;
   Backfiller IsCommitBackfiller; Backfiller InstallationsBackfiller].

Definition Shutdown (s : NodeServer) : list resource * NodeServer :=
  (filter (λ r, r ∈ s_opened s) shutdownOrder, s <| s_running := false |>).

(** Shutdown leaves open what it has no field for: the allow list with its database, the reader of
    the MLS database, and the connection to the validation service. *)
Lemma shutdown_closes s r :
  r ∈ s_opened s → r ∉ (Shutdown s).1 → r ∈ [AuthzDB; AllowLister; MlsReaderDB; ValidationService].
Proof.
  intros Hr Hn. assert (H : r ∈ shutdownOrder → r ∈ (Shutdown s).1) by (intros H; apply list_elem_of_filter; auto).
  destruct r as [| | | | | | | | | | |[]|]; (set_solver || (exfalso; apply Hn, H; set_solver)).
Qed.

(** The databases are closed while the gRPC server still serves. *)
Lemma databases_first : ∃ before after,
  shutdownOrder = before ++ GrpcServer :: after ∧ [StoreDB; StoreReaderDB; MlsDB] ⊆ before.
Proof.
  exists [WakuNode; StoreDB; StoreReaderDB; StoreCleanerDB; MessageStore; MlsDB; MetricsServer].
  eexists. split; [reflexivity|]. set_solver.
Qed.

(** ** What a start opens *)

Definition adds {A} (m : opening A) (l : list resource) : Prop :=
  ∀ s a s', m s = (Ok a, s') → s_opened s' = s_opened s ++ l.

Lemma opens_in_turn {A B} (m : opening A) (f : A → opening B) l1 l2 :
  adds m l1 → (∀ a, adds (f a) l2) → adds (a ← m; f a) (l1 ++ l2).
Proof.
  intros Hm Hf s b s'. unfold mbind, opening_bind. destruct (m s) as [[a|e] s1] eqn:E; [|done].
  intros Hb. rewrite (Hf a _ _ _ Hb), (Hm _ _ _ E). by rewrite app_assoc.
Qed.

Lemma adds_opens options open db message r : adds (opens options open db message r) [r].
Proof. intros s a s'. unfold opens. destruct (openOf _ _ _ r); [|done]. by intros [= _ <-]. Qed.
Lemma adds_answer message r : adds (answer message r) [].
Proof. intros s a s' [= _ <-]. by rewrite app_nil_r. Qed.
Lemma adds_runs b : adds (runs b) [Backfiller b].
Proof. by intros s a s' [= _ <-]. Qed.
Lemma adds_ifSet b m l : adds m l → adds (ifSet b m) (if b then l else []).
Proof. destruct b; [done|]. intros _ s a s' [= _ <-]. by rewrite app_nil_r. Qed.

Create HintDb opened.
#[export] Hint Resolve opens_in_turn adds_opens adds_answer adds_runs adds_ifSet : opened.

(** A node runs its backfillers over the MLS store alone, the is-commit one with a validator. *)
Lemma backfillers_run options host key id open db level waku relay addresses mls s b :
  NewNode options host key id open db level waku relay addresses mls = Ok s →
  Backfiller b ∈ s_opened s ↔
  mlsConfigured options = true ∧ (b = InstallationsBackfiller ∨ validatorConfigured options = true).
Proof.
  unfold NewNode. destruct (newNode _ _ _ _ _ _ _ _ _ _ _ _) as [[u|e] s'] eqn:E; [|done]. intros [= <-].
  eassert (H : adds (newNode options host key id open db level waku relay addresses mls) _)
    by (unfold newNode, startMLSBackfillers; eauto 40 with opened).
  apply H in E. rewrite E. simpl. clear.
  destruct (n_Metrics options), (bool_decide _), (n_Store options), (n_RelayDisable options),
    (mlsConfigured options), (validatorConfigured options), b; simpl; set_solver.
Qed.

(** * The commands *)

Definition ValidateOptions (LogEncoding : string) : result () :=
  if bool_decide (LogEncoding ≠ "json") && bool_decide (LogEncoding ≠ "console")
  then Err (Plain ("invalid log encoding: " +:+ LogEncoding)) else Ok ().

(** The connection strings a node is given. *)
Record connectionStrings := mkConnectionStrings {
  cs_Message : string;
  cs_MessageReader : string;
  cs_MLS : string;
  cs_Authz : string;
}.

(** addEnvVars: a variable that is set, even to nothing, replaces the option. *)
Definition addEnvVars (LookupEnv : string → option string) (cs : connectionStrings) : connectionStrings :=
  mkConnectionStrings
    (default (cs_Message cs) (LookupEnv "MESSAGE_DB_CONNECTION_STRING"))
    (default (cs_MessageReader cs) (LookupEnv "MESSAGE_DB_READER_CONNECTION_STRING"))
    (default (cs_MLS cs) (LookupEnv "MLS_DB_CONNECTION_STRING"))
    (default (cs_Authz cs) (LookupEnv "AUTHZ_DB_CONNECTION_STRING")).

(** What xmtpd does with its options. *)
Record commandOptions := mkCommandOptions {
  co_Version : bool;
  co_GenerateKey : bool;
  co_CreateMessageMigration : string;
  co_CreateAuthzMigration : string;
  co_CreateMlsMigration : string;
}.

Inductive command :=
  | ShowVersion | GenerateKeyFile | CreateMessageMigration | CreateAuthzMigration
  | CreateMlsMigration | RunNode.

Definition commandOf (o : commandOptions) (cs : connectionStrings) : command :=
  let asked (migration connection : string) :=
    bool_decide (migration ≠ EmptyString) && bool_decide (connection ≠ EmptyString) in
  if co_Version o then ShowVersion
  else if co_GenerateKey o then GenerateKeyFile
  else if asked (co_CreateMessageMigration o) (cs_Message cs) then CreateMessageMigration
  else if asked (co_CreateAuthzMigration o) (cs_Authz cs) then CreateAuthzMigration
  else if asked (co_CreateMlsMigration o) (cs_MLS cs) then CreateMlsMigration
  else RunNode.

(** ** The signals of a running node *)

Inductive logLevel := Debug | Info | OtherLevel.
Definition toggleDebug (level : logLevel) : logLevel :=
  match level with Debug => Info | _ => Debug end.

Inductive signal := SIGHUP | SIGINT | SIGTERM | SIGQUIT | SIGUSR1.

(** main waits for a signal or for the goroutine that runs the server, then for that goroutine,
    which waits in WaitForShutdown, once New has returned, for a signal of its own. *)
Record process := mkProcess {
  p_level : logLevel;
  p_serving : bool;         (* New has returned *)
  p_ending : bool;          (* main has left its select, and cancelled its context *)
  p_shutDown : bool;        (* Shutdown has run, and the goroutine is over *)
}.

#[export] Instance process_eta : Eta process := λ p,
  mkProcess (p_level p) (p_serving p) (p_ending p) (p_shutDown p).

Inductive processEvent := NewReturns | Signalled (sig : signal).

Definition processStep (p : process) (ev : processEvent) : process :=
  match ev with
  | NewReturns => p <| p_serving := true |>
  | Signalled SIGUSR1 => p <| p_level := toggleDebug (p_level p) |>
  | Signalled sig =>
      let asksWaiter := match sig with SIGINT | SIGTERM => p_serving p | _ => false end in
      p <| p_ending := true |> <| p_shutDown := p_shutDown p || asksWaiter |>
  end.

Definition runProcess (level : logLevel) (evs : list processEvent) : process :=
  foldl processStep (mkProcess level false false false) evs.

(** main returns when both have happened. *)
Definition exits (p : process) : bool := p_ending p && p_shutDown p.

(** The pruner's options: its connection string and the number of cycles. *)
Definition ValidatePruneOptions (connectionString : string) (MaxCycles : Z) : result () :=
  if bool_decide (connectionString = EmptyString)
  then Err (Plain "missing required arguments: --mls-store.db-connection-string")
  else if bool_decide (MaxCycles < 1) then Err (Plain "max-cycles must be greater than 0")
  else Ok ().

(** The process ends on SIGINT or SIGTERM once New has returned. No other signal ends it, SIGHUP
    and SIGQUIT that main waits for included, nor one that came during the start. *)
Lemma process_ends level evs :
  exits (runProcess level evs) = true ↔
  ∃ before sig after, evs = before ++ Signalled sig :: after ∧ (sig = SIGINT ∨ sig = SIGTERM) ∧
    NewReturns ∈ before.
Proof.
  unfold runProcess. induction evs as [|ev evs IH] using rev_ind.
  { simpl. split; [done|]. by intros ([] & ? & ? & ? & _). }
  rewrite foldl_app. cbn [foldl]. set (p := foldl _ _ evs) in *.
  assert (Hs : p_serving p = true ↔ NewReturns ∈ evs).
  { unfold p. clear. induction evs as [|ev evs IH] using rev_ind; [simpl; set_solver|].
    rewrite foldl_app. cbn [foldl]. rewrite elem_of_app, list_elem_of_singleton, <- IH.
    destruct ev as [|[]]; simpl; naive_solver. }
  assert (Hd : p_shutDown p = true → p_ending p = true).
  { unfold p. clear. induction evs as [|ev evs IH] using rev_ind; [done|].
    rewrite foldl_app. cbn [foldl]. by destruct ev as [|[]]; simpl. }
  trans (exits p = true ∨ (p_serving p = true ∧ (ev = Signalled SIGINT ∨ ev = Signalled SIGTERM))).
  { unfold exits in *. destruct p as [l sv en sd]. simpl in *.
    destruct ev as [|[]]; simpl; destruct sv, en, sd; simpl; naive_solver. }
  rewrite IH, Hs. split.
  - intros [(b & sig & a & -> & ? & ?)|[Hn Hev]].
    + exists b, sig, (a ++ [ev]). by rewrite <- app_assoc.
    + destruct Hev as [->| ->]; eexists evs, _, []; auto.
  - intros (b & sig & a & E & Hsig & Hb). destruct a as [|x a _] using rev_ind.
    + apply app_inj_tail in E as [-> ->]. right. split; [done|]. destruct Hsig as [->| ->]; auto.
    + rewrite app_comm_cons, app_assoc in E. apply app_inj_tail in E as [-> ->].
      left. by exists b, sig, a.
Qed.

(** Asking for a migration without a database of its own starts the node. *)
Lemma migration_needs_database o :
  co_Version o = false → co_GenerateKey o = false →
  commandOf o (mkConnectionStrings EmptyString EmptyString EmptyString EmptyString) = RunNode.
Proof.
  intros Hv Hg. unfold commandOf. rewrite Hv, Hg. simpl.
  by rewrite !andb_false_r.
Qed.
