(* ===== verification/Lifecycle.v ===== *)
(** What runs in the background of a node and how Shutdown ends it: the goroutines of the allow list
    (pkg/authz), the message store (pkg/store), the backfillers and workers (pkg/mls), the node
    (pkg/server) and the API server (pkg/api), with the contexts that tell them to end and the wait
    groups that know when they have (GoPanicWrap of pkg/tracing). Every schedule is a run. *)

From stdpp Require Import functions.
From S2P Require Import Prelude ApiServer NodeServer.

(** * Goroutines, what ends them, and who waits for them *)

Inductive routine :=
  | AllowListener                (* authz-change-listener *)
  | StoreMetrics                 (* store-status-metrics *)
  | Cleaner                      (* the message store's cleanerLoop *)
  | Backfill (b : backfiller)
  | StatusMetrics                (* status metrics *)
  | StaticNodes                  (* static-nodes-connect-loop *)
  | MetricsHttp                  (* metrics server *)
  | ApiRoutine (g : goroutine).

(** Contexts, and listeners that can be closed. *)
Inductive stopSignal :=
  | ServerCtx | AllowListCtx | StoreCtx | BackfillerCtx (b : backfiller) | ApiCtx | MessageCtx | MlsCtx
  | MigrationCtx | HttpListener | GrpcListener | MetricsListener.

Inductive waitGroup :=
  | ServerWg | AllowListWg | StoreWg | BackfillerWg (b : backfiller) | ApiWg | MessageWg | WorkerWg.

#[export] Instance routine_eq_dec : EqDecision routine.
Proof. solve_decision. Defined.
#[export] Instance stopSignal_eq_dec : EqDecision stopSignal.
Proof. solve_decision. Defined.
#[export] Instance waitGroup_eq_dec : EqDecision waitGroup.
Proof. solve_decision. Defined.

(** A context is done with its parent: context.WithCancel(ctx). *)
Definition parent (s : stopSignal) : option stopSignal :=
  match s with AllowListCtx | BackfillerCtx _ => Some ServerCtx | _ => None end.

Definition endsOn (r : routine) : stopSignal :=
  match r with
  | AllowListener => AllowListCtx
  | StoreMetrics | Cleaner => StoreCtx
  | Backfill b => BackfillerCtx b
  | StatusMetrics | StaticNodes => ServerCtx
  | MetricsHttp => MetricsListener
  | ApiRoutine (Janitor | Broadcast) => ApiCtx
  | ApiRoutine (GroupWorker | WelcomeWorker) => MlsCtx
  | ApiRoutine ServeGRPC => GrpcListener
  | ApiRoutine ServeHTTP => HttpListener
  end.

(** The group it is counted in; three are started with a plain go statement. *)
Definition groupOf (r : routine) : option waitGroup :=
  match r with
  | AllowListener => Some AllowListWg
  | StoreMetrics => Some StoreWg
  | Backfill b => Some (BackfillerWg b)
  | StatusMetrics | StaticNodes => Some ServerWg
  | ApiRoutine (GroupWorker | WelcomeWorker) => Some WorkerWg
  | ApiRoutine (Broadcast | ServeGRPC | ServeHTTP) => Some ApiWg
  | Cleaner | MetricsHttp | ApiRoutine Janitor => None
  end.

(** A polling loop looks at its context, works (default:) and sleeps. A ticking one selects between
    its context and its ticker or channel, of which Go takes any that is ready. A serving one runs
    until its listener is closed. *)
Inductive loopKind := Polling | Ticking | Serving.

Definition kindOf (r : routine) : loopKind :=
  match r with
  | Cleaner | Backfill _ => Polling
  | MetricsHttp | ApiRoutine (ServeGRPC | ServeHTTP) => Serving
  | _ => Ticking
  end.

Inductive place := Selecting | Busy | Sleeping | Returned.
#[export] Instance place_eq_dec : EqDecision place.
Proof. solve_decision. Defined.

(** * A node and its shutdown *)

(** What New made of the options: the resources it opened, the API server, and the store's options. *)
Record nodeConf := mkNodeConf {
  nc_opened : list resource;
  nc_api : Server;
  nc_cleaner : bool;             (* store.cleaner.enable *)
  nc_metricsPeriod : Z;          (* store.metrics-period *)
}.

Inductive closeOp := Raise (s : stopSignal) | Shut (r : resource) | Join (g : waitGroup).

#[export] Instance closeOp_eq_dec : EqDecision closeOp.
Proof. solve_decision. Defined.

Record life := mkLife {
  routines : list (routine * place);
  wgs : waitGroup → Z;
  raised : list stopSignal;
  shut : list resource;
  closer : option (list closeOp);   (* what Shutdown has still to do, once it is called *)
}.

#[export] Instance life_eta : Eta life := λ l, mkLife (routines l) (wgs l) (raised l) (shut l) (closer l).

Definition told (l : life) (s : stopSignal) : bool :=
  bool_decide (s ∈ raised l) || match parent s with Some p => bool_decide (p ∈ raised l) | None => false end.

Definition wgAdd (g : option waitGroup) (n : Z) (l : life) : life :=
  match g with Some g => l <| wgs := <[g := wgs l g + n]> (wgs l) |> | None => l end.

Inductive lifeEvent :=
  | Round (i : nat)                      (* a loop takes another turn *)
  | WorkEnds (i : nat) (sleeps : bool)
  | WakesUp (i : nat)
  | Leaves (i : nat)
  | CallShutdown
  | Closing.                             (* Shutdown's next operation *)

Section Node.
Context (conf : nodeConf).

(** GoPanicWrap, or go: counted first, then started. The connect loop dials before it loops. *)
Definition GoPanicWrap (r : routine) (l : life) : life :=
  let l := wgAdd (groupOf r) 1 l in
  l <| routines := routines l ++ [(r, if bool_decide (r = StaticNodes) then Busy else Selecting)] |>.

(** Which goroutines the opening of a resource starts. *)
Definition startedBy (x : resource) : list routine :=
  match x with
  | MetricsServer => [MetricsHttp]
  | AllowLister => [AllowListener]
  | MessageStore => StoreMetrics :: (if nc_cleaner conf then [Cleaner] else [])
  | WakuNode => (if bool_decide (MetricsServer ∈ nc_opened conf) then [StatusMetrics] else []) ++ [StaticNodes]
  | NodeServer.Backfiller b => [Backfill b]
  | GrpcServer => ApiRoutine <$> running (nc_api conf)
  | _ => []
  end.

Definition startLife : life :=
  foldl (λ l r, GoPanicWrap r l) (mkLife [] (λ _, 0) [] [] None) (nc_opened conf ≫= startedBy).

(** NewDatabaseAllowList: migrated, loaded, and only then refreshed in the background. *)
Definition NewDatabaseAllowList (migrate loadPermissions : result ()) (l : life) : result () * life :=
  match migrate, loadPermissions with
  | Ok _, Ok _ => (Ok (), GoPanicWrap AllowListener l)
  | Ok _, Err e => (Err e, l)
  | Err e, _ => (Err e, l)
  end.

(** New of the message store, with the options it was given and its migration's answer. *)
Definition validateStore (log db readerDB cleanerDB : bool) : result () :=
  if negb log then Err (Plain "missing log option")
  else if negb db then Err (Plain "missing db option")
  else if negb readerDB then Err (Plain "missing reader db option")
  else if negb cleanerDB then Err (Plain "missing cleaner db option")
  else Ok ().

Definition newStore (log db readerDB cleanerDB : bool) (migrate : result ()) (l : life) : result () * life :=
  match validateStore log db readerDB cleanerDB, migrate with
  | Ok _, Ok _ =>
      let l := GoPanicWrap StoreMetrics l in
      (Ok (), if nc_cleaner conf then GoPanicWrap Cleaner l else l)
  | Ok _, Err e => (Err e, l)
  | Err e, _ => (Err e, l)
  end.

(** The Close methods of what was opened. *)
Definition closeOps (x : resource) : list closeOp :=
  let api := nc_api conf in
  match x with
  | MessageStore => [Raise StoreCtx; Join StoreWg]
  | AllowLister => [Raise AllowListCtx; Join AllowListWg]      (* Stop *)
  | MetricsServer => [Raise MetricsListener]
  | GrpcServer =>
      [Raise ApiCtx]
      ++ (if messagev1 api then [Raise MessageCtx; Join MessageWg] else [])
      ++ (if bool_decide (is_Some (mlsv1 api)) then [Raise MlsCtx] else [])
      ++ (if bool_decide (is_Some (migrationv1 api)) then [Raise MigrationCtx] else [])
      ++ [Raise HttpListener; Raise GrpcListener; Join ApiWg]
  | NodeServer.Backfiller b => [Raise (BackfillerCtx b); Join (BackfillerWg b)]
  | _ => [Shut x]
  end.

Definition shutdownOps : list closeOp :=
  ((NodeServer.Shutdown (mkNodeServer (nc_opened conf) true)).1 ≫= closeOps)
  ++ [Raise ServerCtx; Join ServerWg].

(** metricsLoop returns at once when its period is zero. *)
Definition idle (r : routine) : bool := bool_decide (r = StoreMetrics ∧ nc_metricsPeriod conf = 0).

Definition move (i : nat) (r : routine) (p : place) (l : life) : life :=
  l <| routines := <[i := (r, p)]> (routines l) |>.

Definition closing (op : closeOp) (l : life) : option life :=
  match op with
  | Raise s => Some (l <| raised := s :: raised l |>)
  | Shut x => Some (l <| shut := x :: shut l |>)
  | Join g => if bool_decide (wgs l g = 0) then Some l else None
  end.

Definition lifeStep (ev : lifeEvent) (l : life) : option life :=
  match ev with
  | Round i =>
      match routines l !! i with
      | Some (r, Selecting) =>
          if idle r then None
          else match kindOf r with
          | Polling => if told l (endsOn r) then None else Some (move i r Busy l)
          | Ticking => Some (move i r Busy l)
          | Serving => None
          end
      | _ => None
      end
  | WorkEnds i sleeps =>
      match routines l !! i with
      | Some (r, Busy) =>
          match kindOf r with
          | Polling => Some (move i r (if sleeps then Sleeping else Selecting) l)
          | _ => Some (move i r Selecting l)
          end
      | _ => None
      end
  | WakesUp i =>
      match routines l !! i with
      | Some (r, Sleeping) => Some (move i r Selecting l)
      | _ => None
      end
  | Leaves i =>
      match routines l !! i with
      | Some (r, Selecting) =>
          if told l (endsOn r) || idle r
          then Some (wgAdd (groupOf r) (-1) (move i r Returned l)) else None
      | _ => None
      end
  | CallShutdown =>
      match closer l with None => Some (l <| closer := Some shutdownOps |>) | Some _ => None end
  | Closing =>
      match closer l with
      | Some (op :: ops) => l ← closing op l; Some (l <| closer := Some ops |>)
      | _ => None
      end
  end.

Fixpoint lifeRun (evs : list lifeEvent) (l : life) : option life :=
  match evs with [] => Some l | ev :: evs => l ← lifeStep ev l; lifeRun evs l end.
End Node.

(** The turns of the loops, which the clock and the network decide; a stuck node has no other step. *)
Definition isRound (ev : lifeEvent) : bool := match ev with Round _ => true | _ => false end.
Definition isOwn (ev : lifeEvent) : bool := match ev with Round _ | CallShutdown => false | _ => true end.

(** * One step *)

Definition weight (p : place) : nat :=
  match p with Returned => 0 | Selecting => 1 | Sleeping => 2 | Busy => 3 end.

(** A goroutine's step: which, between which places, and whether it is a turn. *)
Inductive goes (conf : nodeConf) (l : life) : routine → place → place → bool → Prop :=
  | Goes_round r :
      (kindOf r = Polling → told l (endsOn r) = false) → kindOf r ≠ Serving → goes conf l r Selecting Busy true
  | Goes_ends r sleeps :
      (sleeps = true → kindOf r = Polling) →
      goes conf l r Busy (if sleeps then Sleeping else Selecting) false
  | Goes_wakes r : goes conf l r Sleeping Selecting false
  | Goes_leaves r : told l (endsOn r) || idle conf r = true → goes conf l r Selecting Returned false.

Inductive steps (conf : nodeConf) (l : life) : lifeEvent → life → Prop :=
  | Steps_routine ev i r p p' l' :
      routines l !! i = Some (r, p) → goes conf l r p p' (isRound ev) →
      l' = wgAdd (if bool_decide (p' = Returned) then groupOf r else None) (-1) (move i r p' l) →
      steps conf l ev l'
  | Steps_call : closer l = None → steps conf l CallShutdown (l <| closer := Some (shutdownOps conf) |>)
  | Steps_closing op ops l' :
      closer l = Some (op :: ops) → closing op l = Some l' → steps conf l Closing (l' <| closer := Some ops |>).

Lemma lifeStep_steps conf ev l l' : lifeStep conf ev l = Some l' → steps conf l ev l'.
Proof.
  destruct ev as [i|i sleeps|i|i| |]; simpl.
  - destruct (routines l !! i) as [[r []]|] eqn:E; try done. destruct (idle conf r); [done|].
    destruct (kindOf r) eqn:K; [destruct (told _ _) eqn:T; [done|]|..|done]; intros [= <-];
      (eapply Steps_routine; [exact E|apply Goes_round; by rewrite K|done]).
  - destruct (routines l !! i) as [[r []]|] eqn:E; try done.
    destruct (kindOf r) eqn:K; intros [= <-].
    + eapply Steps_routine; [exact E|by apply (Goes_ends _ _ _ sleeps)|by destruct sleeps].
    + eapply Steps_routine; [exact E|by apply (Goes_ends _ _ _ false)|done].
    + eapply Steps_routine; [exact E|by apply (Goes_ends _ _ _ false)|done].
  - destruct (routines l !! i) as [[r []]|] eqn:E; try done. intros [= <-].
    by eapply Steps_routine; [exact E|apply Goes_wakes|].
  - destruct (routines l !! i) as [[r []]|] eqn:E; try done.
    destruct (_ || _) eqn:T; [|done]. intros [= <-]. by eapply Steps_routine; [exact E|apply Goes_leaves|].
  - destruct (closer l) eqn:E; [done|]. intros [= <-]. by apply Steps_call.
  - destruct (closer l) as [[|op ops]|] eqn:E; [done| |done].
    destruct (closing op l) as [l1|] eqn:E1; [|done]. intros [= <-]. by eapply Steps_closing.
Qed.

(** What New of the allow list and of the store start is what the node counts on; a failed one starts
    nothing. *)
Lemma allow_list_starts conf migrate load l r l' :
  NewDatabaseAllowList migrate load l = (r, l') →
  l' = match r with Ok _ => foldl (λ l r, GoPanicWrap r l) l (startedBy conf AllowLister) | Err _ => l end.
Proof. unfold NewDatabaseAllowList. destruct migrate, load; by intros [= <- <-]. Qed.

Lemma store_starts conf log db readerDB cleanerDB migrate l r l' :
  newStore conf log db readerDB cleanerDB migrate l = (r, l') →
  l' = match r with Ok _ => foldl (λ l r, GoPanicWrap r l) l (startedBy conf MessageStore) | Err _ => l end.
Proof.
  unfold newStore. destruct (validateStore _ _ _ _), migrate; try by intros [= <- <-].
  intros [= <- <-]. simpl. by destruct (nc_cleaner conf).
Qed.

(** * The invariant *)

(** Every group is waited for after its goroutines were told to end. *)
Fixpoint tellsFirst (seen : list stopSignal) (ops : list closeOp) : Prop :=
  match ops with
  | [] => True
  | Raise s :: ops => tellsFirst (s :: seen) ops
  | Shut _ :: ops => tellsFirst seen ops
  | Join g :: ops => (∀ r, groupOf r = Some g → endsOn r ∈ seen) ∧ tellsFirst seen ops
  end.

Definition isCounted (g : waitGroup) (x : routine * place) : Prop := groupOf x.1 = Some g ∧ x.2 ≠ Returned.
#[export] Instance isCounted_dec g x : Decision (isCounted g x) := ltac:(unfold isCounted; apply _).

Record lifeOk (conf : nodeConf) (l : life) : Prop := {
  lf_wgs : ∀ g, wgs l g = count (isCounted g) (routines l);
  lf_routines : (routines l).*1 = nc_opened conf ≫= startedBy conf;
  lf_closer : ∀ ops, closer l = Some ops →
    tellsFirst (raised l) ops ∧
    ∀ op, op ∈ shutdownOps conf → op ∈ ops ∨
      match op with Raise s => s ∈ raised l | Join g => wgs l g = 0 | Shut x => x ∈ shut l end;
}.

Lemma tellsFirst_mono ops seen seen' : seen ⊆ seen' → tellsFirst seen ops → tellsFirst seen' ops.
Proof.
  revert seen seen'. induction ops as [|[s|x|g] ops IH]; intros seen seen' Hs; simpl; [done|..].
  - apply IH. set_solver.
  - by apply IH.
  - intros [H1 H2]. split; [intros r Hr; by apply Hs, H1|by eapply IH].
Qed.

Lemma tellsFirst_app seen ops1 ops2 :
  tellsFirst seen ops1 → (∀ seen, tellsFirst seen ops2) → tellsFirst seen (ops1 ++ ops2).
Proof.
  intros H1 H2. revert seen H1. induction ops1 as [|[s|x|g] ops IH]; intros seen; simpl; auto.
  intros [? ?]; auto.
Qed.

Lemma closeOps_tell conf x seen : tellsFirst seen (closeOps conf x).
Proof.
  destruct x; simpl; try done; try (split; [|done]).
  - intros [| | | | | | |[]]; simpl; try done; set_solver.
  - intros [| | | | | | |[]]; simpl; try done; set_solver.
  - intros [| | |b'| | | |[]]; simpl; try done. intros [= ->]. set_solver.
  - destruct (messagev1 _), (bool_decide (is_Some (mlsv1 _))), (bool_decide (is_Some (migrationv1 _))); simpl;
      (split_and!; try done); intros [| | | | | | |[]]; simpl; try done; set_solver.
Qed.

Lemma shutdownOps_tell conf seen : tellsFirst seen (shutdownOps conf).
Proof.
  unfold shutdownOps. assert (H : ∀ xs seen, tellsFirst seen (xs ≫= closeOps conf)).
  { induction xs as [|x xs IH]; [done|]. intros seen'. simpl. apply tellsFirst_app; [apply closeOps_tell|apply IH]. }
  apply tellsFirst_app; [apply H|]. intros seen'. simpl. split; [|done].
  intros [| | | | | | |[]]; simpl; try done; set_solver.
Qed.

Lemma startLife_ok conf : lifeOk conf (startLife conf).
Proof.
  unfold startLife. set (l0 := mkLife _ _ _ _ _).
  assert (H : ∀ rs l, closer l = None → (∀ g, wgs l g = count (isCounted g) (routines l)) →
    let l' := foldl (λ l r, GoPanicWrap r l) l rs in
    closer l' = None ∧ (∀ g, wgs l' g = count (isCounted g) (routines l')) ∧
    (routines l').*1 = (routines l).*1 ++ rs).
  { induction rs as [|r rs IH]; intros l Hc Hg; simpl; [by rewrite app_nil_r|].
    destruct (IH (GoPanicWrap r l)) as (H1 & H2 & H3).
    - unfold GoPanicWrap, wgAdd. by destruct (groupOf r).
    - intros g. unfold GoPanicWrap. simpl. rewrite count_app, count_cons, count_nil. unfold wgAdd.
      destruct (groupOf r) as [g'|] eqn:E; simpl; [destruct (decide (g' = g)) as [->|Hne]|].
      + rewrite fn_lookup_insert, Hg, decide_True; [lia|]. split; [done|simpl; by case_bool_decide].
      + rewrite fn_lookup_insert_ne, Hg, decide_False by (done || (intros [? _]; simpl in *; congruence)). lia.
      + rewrite Hg, decide_False; [lia|]. intros [? _]; simpl in *; congruence.
    - split; [done|]. split; [done|]. rewrite H3. unfold GoPanicWrap, wgAdd.
      destruct (groupOf r); simpl; by rewrite fmap_app, <- app_assoc. }
  destruct (H (nc_opened conf ≫= startedBy conf) l0) as (H1 & H2 & H3); [done|done|].
  split; [done|done|]. intros ops Hops. simpl in H1. congruence.
Qed.

Lemma wgAdd_keeps g n l :
  routines (wgAdd g n l) = routines l ∧ raised (wgAdd g n l) = raised l ∧ shut (wgAdd g n l) = shut l ∧
  closer (wgAdd g n l) = closer l.
Proof. by destruct g. Qed.

(** A goroutine's step and the groups. *)
Lemma goes_groups conf l i r p p' rd g :
  lifeOk conf l → routines l !! i = Some (r, p) → goes conf l r p p' rd →
  let l' := wgAdd (if bool_decide (p' = Returned) then groupOf r else None) (-1) (move i r p' l) in
  wgs l' g = count (isCounted g) (routines l') ∧ (wgs l g = 0 → wgs l' g = 0).
Proof.
  intros Hok Hi Hg. cbv zeta. set (o := if bool_decide _ then _ else _).
  destruct (wgAdd_keeps o (-1) (move i r p' l)) as (-> & _).
  destruct (lookup_split _ _ _ Hi) as (l1 & l2 & E & Hins).
  assert (Hp : p ≠ Returned) by (by destruct Hg).
  pose proof (lf_wgs _ _ Hok g) as Hw. rewrite E, count_app, count_cons in Hw. simpl. rewrite Hins, count_app, count_cons.
  assert (Ho : wgs (wgAdd o (-1) (move i r p' l)) g = wgs l g - (if decide (o = Some g) then 1 else 0)).
  { destruct (decide (o = Some g)) as [->|Hne]; [simpl; rewrite fn_lookup_insert; lia|].
    destruct o as [g'|]; simpl; [rewrite fn_lookup_insert_ne by congruence|]; lia. }
  assert (Ha : (if decide (isCounted g (r, p)) then 1 else 0) - (if decide (o = Some g) then 1 else 0)
    = if decide (isCounted g (r, p')) then 1 else 0).
  { unfold o, isCounted; simpl. case_bool_decide; repeat case_decide; naive_solver. }
  rewrite Ho, Hw. cbv beta in *. pose proof (count_nonneg (isCounted g) l1). pose proof (count_nonneg (isCounted g) l2).
  assert (0 ≤ if decide (isCounted g (r, p')) then 1 else 0) by (destruct (decide (isCounted g (r, p'))); lia).
  assert (0 ≤ if decide (o = Some g) then 1 else 0) by (destruct (decide (o = Some g)); lia).
  split; lia.
Qed.

Lemma steps_ok conf ev l l' : steps conf l ev l' → lifeOk conf l → lifeOk conf l'.
Proof.
  intros Hs Hok. destruct Hs as [ev i r p p' l' Hi Hg ->|Hc|op ops l' Hc Hop].
  - pose proof (λ g, goes_groups conf l i r p p' _ g Hok Hi Hg) as Hw. cbv zeta in Hw. revert Hw.
    set (o := if bool_decide _ then _ else _). intros Hw.
    destruct (wgAdd_keeps o (-1) (move i r p' l)) as (E1 & E2 & E3 & E4). split.
    + intros g. apply Hw.
    + rewrite E1. simpl. rewrite list_fmap_insert. simpl. rewrite list_insert_id; [apply Hok|].
      rewrite list_lookup_fmap, Hi. done.
    + intros ops. rewrite E4, E2. intros Hops. destruct (lf_closer _ _ Hok ops Hops) as [H1 H2].
      split; [done|]. intros op Hop. destruct (H2 op Hop) as [?|H]; [by left|right].
      destruct op as [s|x|g]; [done|by rewrite E3|by apply Hw].
  - destruct Hok as [H1 H2 _]. split; simpl; [done|done|]. intros ops [= <-].
    split; [apply shutdownOps_tell|auto].
  - destruct (lf_closer _ _ Hok _ Hc) as [Ht Hd]. destruct Hok as [H1 H2 _].
    destruct op as [s|x|g]; simpl in Hop; [| |case_bool_decide as Hz; [|done]]; injection Hop as <-;
      (split; simpl; [done|done|]; intros ops' [= <-]).
    + split; [done|]. intros op Hop. destruct (Hd op Hop) as [[->|?]%elem_of_cons|H]; [right; set_solver|by left|right].
      destruct op; [set_solver|done|done].
    + split; [done|]. intros op Hop. destruct (Hd op Hop) as [[->|?]%elem_of_cons|H]; [right; set_solver|by left|right].
      destruct op; [done|set_solver|done].
    + split; [by destruct Ht|]. intros op Hop. destruct (Hd op Hop) as [[->|?]%elem_of_cons|H]; [by right|by left|by right].
Qed.

(** * Shutdown ends *)

(** The steps the goroutines and the closer have left. *)
Definition lifeWork (conf : nodeConf) (l : life) : nat :=
  (sum_list_with (λ x, weight x.2) (routines l)
   + match closer l with None => S (length (shutdownOps conf)) | Some ops => length ops end)%nat.

Lemma steps_work conf ev l l' :
  steps conf l ev l' → (lifeWork conf l' < lifeWork conf l + (if isRound ev then 3 else 0))%nat.
Proof.
  intros [ev' i r p p' l1 Hi Hg ->|Hc|op ops l1 Hc Hop]; unfold lifeWork.
  - destruct (wgAdd_keeps (if bool_decide (p' = Returned) then groupOf r else None) (-1) (move i r p' l)) as (-> & _ & _ & ->).
    simpl. destruct (lookup_split _ _ _ Hi) as (l2 & l3 & E & ->). rewrite E, !sum_list_with_app. simpl.
    assert (weight p' < weight p + (if isRound ev' then 3 else 0))%nat by (destruct Hg as [| r [] | |]; simpl; lia).
    lia.
  - rewrite Hc. simpl. lia.
  - simpl. rewrite Hc. assert (routines l1 = routines l) as ->; [|simpl; lia].
    destruct op; simpl in Hop; [by injection Hop as <-..|]. by case_bool_decide; [injection Hop as <-|].
Qed.

(** Told to end, a goroutine has a step of its own until it has returned. *)
Lemma told_moves conf l i r p :
  routines l !! i = Some (r, p) → p ≠ Returned → told l (endsOn r) = true →
  ∃ ev, isOwn ev = true ∧ is_Some (lifeStep conf ev l).
Proof.
  intros Hi Hp Ht. destruct p; [| | |done].
  - exists (Leaves i). split; [done|]. simpl. rewrite Hi, Ht. by eexists.
  - exists (WorkEnds i false). split; [done|]. simpl. rewrite Hi. destruct (kindOf r); by eexists.
  - exists (WakesUp i). split; [done|]. simpl. rewrite Hi. by eexists.
Qed.

Lemma closer_moves conf l op ops :
  lifeOk conf l → closer l = Some (op :: ops) → ∃ ev, isOwn ev = true ∧ is_Some (lifeStep conf ev l).
Proof.
  intros Hok Hc. destruct (lf_closer _ _ Hok _ Hc) as [Ht _].
  destruct op as [s|x|g]; [exists Closing; split; [done|]; simpl; rewrite Hc; by eexists..|].
  destruct (decide (wgs l g = 0)) as [Hz|Hz].
  - exists Closing. split; [done|]. simpl. rewrite Hc. simpl. rewrite bool_decide_eq_true_2 by done. by eexists.
  - rewrite (lf_wgs _ _ Hok) in Hz. pose proof (count_nonneg (isCounted g) (routines l)).
    destruct (count_pos_inv (isCounted g) (routines l)) as ([r p] & [i Hi]%list_elem_of_lookup & Hg & Hp); [lia|].
    simpl in *. eapply told_moves; [exact Hi|done|]. unfold told. rewrite bool_decide_eq_true_2; [done|].
    destruct Ht as [Ht _]. by apply Ht.
Qed.

(** * Theorems *)

(** The goroutines that nobody waits for. *)
Definition unjoined : list routine :=
  [AllowListener; Cleaner; MetricsHttp; ApiRoutine Janitor; ApiRoutine GroupWorker; ApiRoutine WelcomeWorker].

(** The workers belong to an MLS service. *)
Definition workersOwned (api : Server) : Prop :=
  GroupWorker ∈ running api ∨ WelcomeWorker ∈ running api → is_Some (mlsv1 api).

Lemma shutdownOps_elem conf op :
  op ∈ shutdownOps conf ↔
  (∃ x, x ∈ nc_opened conf ∧ x ∈ shutdownOrder ∧ op ∈ closeOps conf x) ∨ op = Raise ServerCtx ∨ op = Join ServerWg.
Proof.
  unfold shutdownOps. rewrite elem_of_app, list_elem_of_bind, !elem_of_cons, elem_of_nil.
  setoid_rewrite list_elem_of_filter. simpl. naive_solver.
Qed.

Lemma started_raised conf x r :
  workersOwned (nc_api conf) → x ∈ nc_opened conf → r ∈ startedBy conf x →
  Raise (endsOn r) ∈ shutdownOps conf ∨ parent (endsOn r) = Some ServerCtx.
Proof.
  intros Hw Hx Hr. rewrite shutdownOps_elem. destruct x; simpl in Hr; try (by apply elem_of_nil in Hr).
  - apply list_elem_of_singleton in Hr as ->. left; left. exists MetricsServer. simpl. set_solver.
  - apply list_elem_of_singleton in Hr as ->. by right.
  - assert (endsOn r = StoreCtx) as -> by (destruct (nc_cleaner conf); set_solver).
    left; left. exists MessageStore. simpl. set_solver.
  - assert (endsOn r = ServerCtx) as -> by (case_bool_decide; set_solver). auto.
  - apply list_elem_of_singleton in Hr as ->. by right.
  - apply list_elem_of_fmap in Hr as (g & -> & Hg). left; left. exists GrpcServer.
    split; [done|]. split; [simpl; set_solver|]. unfold closeOps.
    destruct g; simpl; rewrite ?elem_of_cons, ?elem_of_app; try set_solver.
    + rewrite (bool_decide_eq_true_2 (is_Some (mlsv1 _))) by (by apply Hw; left). set_solver.
    + rewrite (bool_decide_eq_true_2 (is_Some (mlsv1 _))) by (by apply Hw; right). set_solver.
Qed.

Lemma started_joined conf x r :
  x ∈ nc_opened conf → r ∈ startedBy conf x → r ∉ unjoined →
  ∃ g, groupOf r = Some g ∧ Join g ∈ shutdownOps conf.
Proof.
  intros Hx Hr Hu. setoid_rewrite shutdownOps_elem. destruct x as [| | | | | | | | | | |b|]; simpl in Hr; try (by apply elem_of_nil in Hr).
  - set_solver.
  - set_solver.
  - assert (r = StoreMetrics) as -> by (destruct (nc_cleaner conf); set_solver).
    exists StoreWg. split; [done|]. left. exists MessageStore. simpl. set_solver.
  - assert (groupOf r = Some ServerWg) as -> by (case_bool_decide; set_solver). eauto.
  - apply list_elem_of_singleton in Hr as ->. exists (BackfillerWg b). split; [done|]. left.
    exists (NodeServer.Backfiller b). simpl. destruct b; set_solver.
  - apply list_elem_of_fmap in Hr as (g & -> & Hg). exists ApiWg.
    split; [destruct g; (done || set_solver)|]. left. exists GrpcServer. split; [done|]. split; [simpl; set_solver|].
    unfold closeOps. rewrite !elem_of_app. set_solver.
Qed.

Section Runs.
Context (conf : nodeConf).

Definition rounds (evs : list lifeEvent) : nat := length (filter (λ ev, isRound ev = true) evs).

Lemma lifeRun_ok evs l0 l :
  lifeRun conf evs l0 = Some l → lifeOk conf l0 →
  lifeOk conf l ∧ (length evs + lifeWork conf l ≤ lifeWork conf l0 + 3 * rounds evs)%nat.
Proof.
  revert l0. unfold rounds. induction evs as [|ev evs IH]; intros l0; simpl; [intros [= ->] ?; split; [done|lia]|].
  destruct (lifeStep conf ev l0) as [l1|] eqn:E; [|done]. intros H Hok. apply lifeStep_steps in E.
  pose proof (steps_work _ _ _ _ E). destruct (IH l1 H (steps_ok _ _ _ _ E Hok)) as [? ?]. split; [done|].
  rewrite filter_cons. destruct (isRound ev); simpl in *; lia.
Qed.

(** C37. Shutdown returns, whatever the schedule: apart from the rounds that the loops are given the
    node has a bounded number of steps, and once Shutdown is called one of them is always possible
    until it has returned and every goroutine with it. When it returns, the goroutines still
    running are among those nobody waits for ([unjoined]); they have been told to end, and those
    that poll begin nothing any more. *)
Theorem shutdown_returns evs l :
  workersOwned (nc_api conf) → lifeRun conf evs (startLife conf) = Some l →
  (length evs ≤ lifeWork conf (startLife conf) + 3 * rounds evs)%nat ∧
  (closer l ≠ None → (∀ ev, isOwn ev = true → lifeStep conf ev l = None) →
   closer l = Some [] ∧ ∀ r p, (r, p) ∈ routines l → p = Returned) ∧
  (closer l = Some [] → ∀ r p, (r, p) ∈ routines l → p ≠ Returned →
   r ∈ unjoined ∧ told l (endsOn r) = true ∧
   ∀ i, routines l !! i = Some (r, p) → kindOf r = Polling → lifeStep conf (Round i) l = None).
Proof.
  intros Hw Hrun. destruct (lifeRun_ok _ _ _ Hrun (startLife_ok conf)) as [Hok Hlen]. split; [lia|].
  assert (Htold : closer l = Some [] → ∀ r p, (r, p) ∈ routines l → p ≠ Returned →
    r ∈ unjoined ∧ told l (endsOn r) = true).
  { intros Hc r p Hr Hp. destruct (lf_closer _ _ Hok _ Hc) as [_ Hd].
    assert (Hx : r ∈ nc_opened conf ≫= startedBy conf).
    { rewrite <- (lf_routines _ _ Hok). apply list_elem_of_fmap. by exists (r, p). }
    apply list_elem_of_bind in Hx as (x & Hrx & Hx). split.
    - destruct (decide (r ∈ unjoined)) as [|Hu]; [done|].
      destruct (started_joined conf x r Hx Hrx Hu) as (g & Hg & Hj).
      destruct (Hd _ Hj) as [?%elem_of_nil|Hz]; [done|]. rewrite (lf_wgs _ _ Hok) in Hz.
      pose proof (count_pos (isCounted g) (routines l) (r, p) Hr ltac:(by split)). lia.
    - unfold told. apply orb_true_iff. destruct (started_raised conf x r Hw Hx Hrx) as [Hj|Hp'].
      + left. apply bool_decide_eq_true_2. by destruct (Hd _ Hj) as [?%elem_of_nil|?].
      + right. rewrite Hp'. apply bool_decide_eq_true_2.
        assert (Hs : Raise ServerCtx ∈ shutdownOps conf) by (apply shutdownOps_elem; auto).
        by destruct (Hd _ Hs) as [?%elem_of_nil|?]. }
  split.
  - intros Hc Hstuck. destruct (closer l) as [[|op ops]|] eqn:Ec; [|exfalso|done].
    + split; [done|]. intros r p Hr. destruct (decide (p = Returned)) as [|Hp]; [done|exfalso].
      destruct (Htold eq_refl r p Hr Hp) as [_ Ht]. apply list_elem_of_lookup in Hr as [i Hi].
      destruct (told_moves conf l i r p Hi Hp Ht) as (ev & Hev & [l' Hl']). by rewrite (Hstuck ev Hev) in Hl'.
    + destruct (closer_moves conf l op ops Hok Ec) as (ev & Hev & [l' Hl']). by rewrite (Hstuck ev Hev) in Hl'.
  - intros Hc r p Hr Hp. destruct (Htold Hc r p Hr Hp) as [Hu Ht]. split; [done|]. split; [done|].
    intros i Hi Hk. simpl. rewrite Hi. destruct p; try done. rewrite Hk, Ht. by destruct (idle conf r).
Qed.
End Runs.

(** * A node that is shut down while its cleaner deletes *)

Definition sampleApi : Server :=
  initServer <| running := [GroupWorker; WelcomeWorker; Broadcast; ServeGRPC; ServeHTTP] |>
    <| messagev1 := true |> <| mlsv1 := Some (mkPublishConf false None, (0, 0)) |>.

Definition sampleNode : nodeConf :=
  mkNodeConf [StoreDB; StoreReaderDB; StoreCleanerDB; MessageStore; WakuNode; MlsDB; MlsReaderDB;
    ValidationService; NodeServer.Backfiller InstallationsBackfiller; GrpcServer] sampleApi true 30.

Definition shutdownSchedule : list lifeEvent :=
  [WorkEnds 2 false; Round 1; Round 3; Round 4; CallShutdown] ++ replicate 5 Closing ++ [Leaves 0]
  ++ replicate 8 Closing ++ [Leaves 6; Leaves 7; Leaves 8] ++ replicate 2 Closing
  ++ [WorkEnds 3 true; WakesUp 3; Leaves 3] ++ replicate 2 Closing ++ [Leaves 2; Closing].

(** The cleaner, which no group counts, is still deleting on a database that is closed, and so is a
    worker polling. *)
Lemma cleaner_outlives_shutdown :
  ∃ l, lifeRun sampleNode shutdownSchedule (startLife sampleNode) = Some l ∧ closer l = Some [] ∧
    (Cleaner, Busy) ∈ routines l ∧ StoreCleanerDB ∈ shut l ∧
    (ApiRoutine GroupWorker, Busy) ∈ routines l ∧ MlsDB ∈ shut l.
Proof.
  destruct (lifeRun sampleNode shutdownSchedule (startLife sampleNode)) as [l|] eqn:E;
    [|vm_compute in E; discriminate].
  exists l. split; [done|]. vm_compute in E. injection E as <-. simpl. set_solver.
Qed.

Lemma shutdown_returns_witness :
  ∃ l, lifeRun sampleNode shutdownSchedule (startLife sampleNode) = Some l ∧
    closer l = Some [] ∧ Cleaner ∈ unjoined ∧ told l StoreCtx = true.
Proof.
  destruct (lifeRun sampleNode shutdownSchedule (startLife sampleNode)) as [l|] eqn:E;
    [|vm_compute in E; discriminate].
  assert (Hw : workersOwned (nc_api sampleNode)) by (intros _; vm_compute; eexists; reflexivity).
  destruct (shutdown_returns sampleNode shutdownSchedule l Hw E) as (_ & _ & H).
  exists l. split; [reflexivity|].
  assert (Hc : closer l = Some []) by (vm_compute in E; injection E as <-; reflexivity).
  split; [exact Hc|]. destruct (H Hc Cleaner Busy) as (H1 & H2 & _).
  - vm_compute in E. injection E as <-. right. left.
  - discriminate.
  - split; [exact H1|exact H2].
Defined.
