(* ===== verification/HttpClient.v ===== *)
(** The clients of the message API (pkg/api/message/v1/client): requests over HTTP with their
    headers and retries, and the stream of envelopes a subscription reads, line by line. *)

From S2P Require Import Prelude Topic ApiServer.

(** * Requests *)

Record httpClient := mkHttpClient { hc_version : string; hc_appVersion : string }.

(** NewHTTPClient takes seven characters of the commit, which panics when there are fewer. *)
Definition NewHTTPClient (gitCommit appVersion : string) : option httpClient :=
  if bool_decide (len gitCommit = 0) then Some (mkHttpClient "xmtp-go/" appVersion)
  else if bool_decide (len gitCommit < 7) then None
  else Some (mkHttpClient ("xmtp-go/" +:+ String.substring 0 7 gitCommit) appVersion).

(** A header, by its name in lower case. *)
Abbreviation header := (gmap string string).

(** The first value of each key of the outgoing metadata that has one. *)
Definition firstValues (md : gmap string (list string)) : header := omap head md.

Definition defaultTo (key value : string) (h : header) : header :=
  if bool_decide (default EmptyString (h !! key) = EmptyString) then <[key := value]> h else h.

(** The header of a post: the metadata, over the content type; then the versions not given. *)
Definition postHeader (c : httpClient) (md : gmap string (list string)) : header :=
  defaultTo "x-app-version" (hc_appVersion c)
    (defaultTo "x-client-version" (hc_version c)
      (firstValues md ∪ {[ "content-type" := "application/json" ]})).

Definition StatusTooManyRequests : Z := 429.
Definition StatusOK : Z := 200.

(** retryPolicy: a full server is not asked again; otherwise the library decides. *)
Definition retryPolicy (DefaultRetryPolicy : option Z → option error → bool * option error)
    (status : option Z) (err : option error) : bool * option error :=
  if bool_decide (status = Some StatusTooManyRequests) then (false, err)
  else DefaultRetryPolicy status err.

(** A response: its status line and code, and what reading the body gives. *)
Record httpReply := mkHttpReply { rp_StatusCode : Z; rp_Status : string; rp_Body : result bytes }.

Definition statusError (rp : httpReply) (body : bytes) : error :=
  Plain (rp_Status rp +:+ ": " +:+ body).

(** rawPublish; rawQuery and rawBatchQuery add the body to an error of the decoder. *)
Definition rawCall {A} (addBody : bool) (Unmarshal : bytes → result A) (posted : result httpReply) : result A :=
  rp ← posted;
  body ← rp_Body rp;
  if bool_decide (rp_StatusCode rp ≠ StatusOK) then Err (statusError rp body)
  else match Unmarshal body with
       | Ok a => Ok a
       | Err e => Err (if addBody : bool then Plain (errorString e +:+ ": " +:+ body) else e)
       end.

(** * The stream *)

(** The goroutine that makes the request: waiting for the response, about to send its outcome on
    a channel after it has looked at [closed], or done. *)
Inductive requester :=
  | Requesting
  | Sending (outcome : result (list bytes))
  | Requested.

(** A stream: its request, the two one-slot channels, and the body being read. Both channels are
    closed together. [orphans] are reads left behind by calls of Next whose context ended. *)
Record httpStream := mkHttpStream {
  hs_requester : requester;
  respC : option (list bytes);
  errC : option error;
  chansClosed : bool;
  bodyReader : option (list bytes);   (* the lines to come *)
  hs_body : bool;                     (* s.body is not nil *)
  hs_closed : bool;
  orphans : nat;
}.

#[export] Instance httpStream_eta : Eta httpStream := λ s,
  mkHttpStream (hs_requester s) (respC s) (errC s) (chansClosed s) (bodyReader s) (hs_body s)
    (hs_closed s) (orphans s).

Definition newHTTPStream : httpStream := mkHttpStream Requesting None None false None false false 0.

Definition EOF : error := Plain "EOF".
Definition ctxError : error := Plain "context deadline exceeded".

(** What happens to a stream, and the error or line an answer carries. *)
Inductive streamEvent :=
  | RequestReturns (reply : result httpReply) (lines : list bytes)
  | RequesterSends
  | Next (pick : bool)          (* which channel the select finds ready first: the error's, or the response's *)
  | NextTimesOut (inReader : bool) (pick : bool)   (* the context ends before the response, or a line, comes *)
  | OrphanReads
  | CloseStream.

(** The outcome the requester has for the consumer. *)
Definition outcomeOf (reply : result httpReply) (lines : list bytes) : result (list bytes) :=
  rp ← reply;
  if bool_decide (rp_StatusCode rp ≠ StatusOK)
  then match rp_Body rp with Ok body => Err (statusError rp body) | Err e => Err e end
  else Ok lines.

(** reader: the body, once the response is there. [None] blocks; a receive from a closed channel
    gives nil, and a nil response is dereferenced. *)
Inductive readerResult := ReaderOk (s : httpStream) | ReaderErr (e : error) (s : httpStream) | ReaderNil | ReaderPanics.

Definition takeError (s : httpStream) : option readerResult :=
  match errC s with
  | Some e => Some (ReaderErr e (s <| errC := None |>))
  | None => if chansClosed s then Some ReaderNil else None
  end.

Definition takeResponse (s : httpStream) : option readerResult :=
  match respC s with
  | Some lines => Some (ReaderOk (s <| respC := None |> <| bodyReader := Some lines |> <| hs_body := true |>))
  | None => if chansClosed s then Some ReaderPanics else None
  end.

Definition reader (pick : bool) (s : httpStream) : option readerResult :=
  match bodyReader s with
  | Some _ => Some (ReaderOk s)
  | None =>
      let ready := if pick then (takeError s, takeResponse s) else (takeResponse s, takeError s) in
      match ready.1 with Some r => Some r | None => ready.2 end
  end.

(** Reading a line: the body's end is io.EOF. *)
Definition readLine (s : httpStream) : result bytes * httpStream :=
  match bodyReader s with
  | Some (line :: lines) => (Ok line, s <| bodyReader := Some lines |>)
  | _ => (Err EOF, s)
  end.

Inductive outcome := Silent | Gives (r : result bytes) | Panicked.

Definition streamStep (ev : streamEvent) (s : httpStream) : option (outcome * httpStream) :=
  match ev with
  | RequestReturns reply lines =>
      match hs_requester s with
      | Requesting =>
          Some (Silent, s <| hs_requester := if hs_closed s then Requested
                                             else Sending (outcomeOf reply lines) |>)
      | _ => None
      end
  | RequesterSends =>
      match hs_requester s with
      | Sending o =>
          if chansClosed s then Some (Panicked, s)
          else let s := s <| hs_requester := Requested |> in
               Some (Silent, match o with Ok lines => s <| respC := Some lines |>
                                        | Err e => s <| errC := Some e |> end)
      | _ => None
      end
  | Next pick =>
      r ← reader pick s;
      match r with
      | ReaderPanics => Some (Panicked, s)
      | ReaderNil => Some (Gives (Err EOF), s)      (* s.body is nil *)
      | ReaderErr e s => Some (Gives (Err e), s)
      | ReaderOk s => if hs_body s then let '(r, s) := readLine s in Some (Gives r, s)
                      else Some (Gives (Err EOF), s)
      end
  | NextTimesOut true _ =>
      match bodyReader s with None => Some (Gives (Err ctxError), s) | Some _ => None end
  | NextTimesOut false pick =>
      r ← reader pick s;
      match r with
      | ReaderOk s => if hs_body s then Some (Gives (Err ctxError), s <| orphans := S (orphans s) |>)
                      else None
      | _ => None
      end
  | OrphanReads =>
      match orphans s with
      | O => None
      | S n => Some (Silent, (readLine s).2 <| orphans := n |>)
      end
  | CloseStream =>
      let s := if hs_closed s then s else s <| chansClosed := true |> <| hs_closed := true |> in
      Some (Silent, s <| hs_body := false |>)
  end.

Fixpoint streamRun (evs : list streamEvent) (s : httpStream) : option (list outcome * httpStream) :=
  match evs with
  | [] => Some ([], s)
  | ev :: evs =>
      '(o, s) ← streamStep ev s;
      match o with
      | Panicked => Some ([Panicked], s)
      | _ => '(os, s) ← streamRun evs s; Some (o :: os, s)
      end
  end.

(** * What a stream gives *)

(** The lines its answers carry. *)
Definition linesOf (os : list outcome) : list bytes :=
  omap (λ o, match o with Gives (Ok line) => Some line | _ => None end) os.

Definition isOrphanRead (ev : streamEvent) : bool := match ev with OrphanReads => true | _ => false end.

Lemma readLine_spec s lines :
  bodyReader s = Some lines →
  readLine s = (match lines with line :: _ => Ok line | [] => Err EOF end,
    match lines with _ :: rest => s <| bodyReader := Some rest |> | [] => s end).
Proof. unfold readLine. intros ->. by destruct lines. Qed.

(** A step takes at most one line: for its answer, or for a read left behind. *)
Lemma step_lines ev s o s' lines :
  bodyReader s = Some lines → streamStep ev s = Some (o, s') →
  ∃ taken rest, lines = taken ++ rest ∧ bodyReader s' = Some rest ∧
    (taken = linesOf [o] ∨ taken ≠ [] ∧ linesOf [o] = [] ∧ length taken = 1%nat ∧ isOrphanRead ev = true).
Proof.
  intros Hb H.
  assert (Hsame : ∀ o', linesOf [o'] = [] → bodyReader s' = bodyReader s →
    ∃ taken rest, lines = taken ++ rest ∧ bodyReader s' = Some rest ∧
      (taken = linesOf [o'] ∨ taken ≠ [] ∧ linesOf [o'] = [] ∧ length taken = 1%nat ∧ isOrphanRead ev = true)).
  { intros o' Ho E. exists [], lines. rewrite E, Ho. by split_and!; [..|left]. }
  destruct ev as [reply ls| |pick|[] pick| |]; simpl in H; unfold reader in H; rewrite ?Hb in H; simpl in H.
  - destruct (hs_requester s); [|done..]. injection H as <- <-. by apply Hsame.
  - destruct (hs_requester s) as [|[|]|]; [done|..|done]; (destruct (chansClosed s);
      [|]; injection H as <- <-; by apply Hsame).
  - destruct (hs_body s); [|injection H as <- <-; by apply Hsame].
    rewrite (readLine_spec s lines Hb) in H. injection H as <- <-.
    destruct lines as [|line rest]; [by apply Hsame|]. exists [line], rest. by split_and!; [..|left].
  - done.
  - destruct (hs_body s); [|done]. injection H as <- <-. by apply Hsame.
  - destruct (orphans s); [done|]. rewrite (readLine_spec s lines Hb) in H. injection H as <- <-.
    destruct lines as [|line rest]; [by apply Hsame|]. exists [line], rest. by split_and!; [..|right].
  - injection H as <- <-. apply Hsame; [done|]. by destruct (hs_closed s).
Qed.

(** What a stream's calls give are lines of the body, in order; the ones missing were taken by
    reads that a call whose context ended had left behind, one each. *)
Lemma stream_gives evs s os s' lines :
  bodyReader s = Some lines → streamRun evs s = Some (os, s') →
  ∃ taken rest, lines = taken ++ rest ∧ bodyReader s' = Some rest ∧ linesOf os `sublist_of` taken ∧
    (length taken ≤ length (linesOf os) + length (filter isOrphanRead evs))%nat.
Proof.
  revert s os lines. induction evs as [|ev evs IH]; intros s os lines Hb H; simpl in H.
  { injection H as <- <-. by exists [], lines. }
  destruct (streamStep ev s) as [[o s1]|] eqn:E; [|done]. simpl in H.
  destruct (step_lines ev s o s1 lines Hb E) as (t1 & rest1 & -> & Hb1 & Ht).
  assert (Hcount : linesOf [o] `sublist_of` t1 ∧
    (length t1 ≤ length (linesOf [o]) + length (filter isOrphanRead [ev]))%nat).
  { destruct Ht as [->|(_ & -> & El & Eo)]; [split; [done|lia]|]. split; [apply sublist_nil_l|].
    rewrite filter_cons_True by (by rewrite Eo). simpl. lia. }
  assert (Hev : length (filter isOrphanRead (ev :: evs)) =
    (length (filter isOrphanRead [ev]) + length (filter isOrphanRead evs))%nat).
  { change (ev :: evs) with ([ev] ++ evs). by rewrite filter_app, length_app. }
  destruct Hcount as [Hs Hc]. destruct o as [|r|].
  1,2: destruct (streamRun evs s1) as [[os1 s2]|] eqn:E2; [|done]; simpl in H; injection H as <- <-;
    destruct (IH s1 os1 rest1 Hb1 E2) as (t2 & rest2 & -> & Hb2 & Hs2 & Hc2);
    exists (t1 ++ t2), rest2; rewrite app_assoc; split; [done|]; split; [done|].
  - change (linesOf (Silent :: os1)) with (linesOf [Silent] ++ linesOf os1).
    split; [by apply sublist_app|]. rewrite !length_app. lia.
  - change (Gives r :: os1) with ([Gives r] ++ os1). unfold linesOf in *. rewrite omap_app.
    split; [by apply sublist_app|]. rewrite !length_app. lia.
  - injection H as <- <-. exists t1, rest1. split; [done|]. split; [done|]. split; [done|]. lia.
Qed.

(** A call that times out loses the line that comes next. *)
Example timeout_loses_line :
  streamRun [RequestReturns (Ok (mkHttpReply 200 "200 OK" (Ok ""))) ["a"; "b"]; RequesterSends;
             NextTimesOut false false; OrphanReads; Next false] newHTTPStream
  ≫= (λ r, Some (linesOf r.1)) = Some ["b"].
Proof. reflexivity. Qed.

(** Next on a closed stream, and closing while the response comes in, may panic. *)
Example next_after_close :
  fst <$> streamRun [CloseStream; Next false] newHTTPStream = Some [Silent; Panicked] ∧
  fst <$> streamRun [CloseStream; Next true] newHTTPStream = Some [Silent; Gives (Err EOF)].
Proof. split; reflexivity. Qed.

Example close_races_response :
  fst <$> streamRun [RequestReturns (Ok (mkHttpReply 200 "200 OK" (Ok ""))) []; CloseStream; RequesterSends]
    newHTTPStream = Some [Silent; Silent; Panicked].
Proof. reflexivity. Qed.
